(* ===== verification/_CoqProject ===== *)
-Q . S2P
Prelude.v
Histories.v
Threads.v
Text.v
Errors.v
Graphs.v
Scan.v
Ranges.v
Notifications.v
Events.v
Backoff.v
ResumePoints.v
Redis.v
RedisSets.v
Cursor.v
World.v
RetryStore.v
RedisRetry.v
RetryProcessor.v
Processor.v
KeyBased.v
Primary.v
Runner.v
TaskRunner.v
Client.v
Hosting.v
Resolver.v
JobLock.v
Scheduler.v
Takedown.v
Migrations.v
UriBackfill.v
Ingest.v
Users.v
Follows.v
Media.v
MediaPool.v
MediaPublish.v
Files.v
TrustFilter.v
TrustFilterRuns.v
PostStore.v
PostIndex.v
Leaves.v
Bookmarks.v
Posts.v
PostRuns.v
PostFanout.v
Streams.v
Reach.v
Rankings.v
StarterPack.v
ContentSearch.v
Normalize.v
Tags.v
TagRuns.v
TagViews.v
TrustReport.v
TrustRank.v
SocialGraph.v
HotTags.v
UserViews.v
Bootstrap.v
UserStreams.v
