(* ===== verification/Prelude.v ===== *)
(** * Pubky Nexus, verified

    Pubky Nexus indexes what people publish on their Pubky homeservers. A watcher
    (nexus-watcher) polls homeservers for events, a job runner (nexusd) maintains rankings
    and migrations, and an API (nexus-webapi) serves the result; all three share the models
    of nexus-common, which keep a graph (Neo4j, the durable truth) and Redis (indexes and
    caches derived from it). This library models the Rust code that decides what is written
    where, in what order, and what becomes of a failure, and proves what each part owes the
    others. Paths below are relative to src/.

    ** The watcher, outside in

    - Runner.v: nexus-watcher/src/service/runner. A tick picks homeservers and runs one
      processor per homeserver, under a deadline; its statistics and backoff (Backoff.v) are
      part of the state. TaskRunner.v: service/task_runner.rs, the periodic tasks the watcher
      runs side by side and how they stop.
    - Primary.v and KeyBased.v: service/indexer/homeserver.rs and key_based.rs, the two
      processors; both instantiate the trait of Processor.v (service/indexer/mod.rs).
      ResumePoints.v: whose turn it is when a run was cut by its budget.
    - Client.v: homeserver/client.rs and fetch.rs, bounded reads of untrusted answers.
    - Events.v: events/event.rs, from a line to an event. Takedown.v: events/mod.rs and
      moderation.rs, the dispatch to a handler, and the order in which the handlers of posts,
      tags and files touch the graph's record, as threads among the moderator's.
    - Users.v, Posts.v, Tags.v, Follows.v, Bookmarks.v, Files.v: events/handlers, with the models of
      nexus-common/src/models they call. PostStore.v holds the state posts, tags and
      bookmarks share (the part of the graph and of Redis they read and write) and the calls
      on it; PostIndex.v the queries and index operations over it; Normalize.v the identity
      of a tagged address (universal_tag). PostRuns.v, TagRuns.v, PostFanout.v: what posts,
      tags and fan-outs lead to over histories of events.
    - RetryStore.v, RedisRetry.v, RetryProcessor.v: events/retry, the queue of failed events,
      its Redis store and its processor.
    - Hosting.v, Ingest.v, Resolver.v: who is hosted where: PKDNS records and HOSTED_BY
      edges, the ingestion of unknown users (models/user/ingestor.rs), and the periodic
      resolver (service/user_hs_resolver.rs). Cursor.v: how far each stream was read
      (models/user/cursor.rs, models/homeserver.rs).

    ** Stores

    - Redis.v and RedisSets.v: db/kv/index/json.rs, sorted_sets.rs, sets.rs over a server
      given by what its commands document (classes [RedisServer], [RedisLaws], [RedisSets],
      [SetLaws]). Ranges.v: a sorted set's order and its reads by score.
    - Graphs.v: db/graph/exec.rs; Scan.v: db/graph/pagination.rs. A Cypher query is
      translated to a function on the part of the graph it reads and writes.
    - TrustFilter.v and TrustFilterRuns.v: models/post/trust_filter, the gate before the
      post sets every viewer shares.
    - Notifications.v: models/notification: what is stored for a user and how it is listed.

    ** Jobs

    - Scheduler.v and JobLock.v: nexusd/src/jobs, the cron loop and the run lock across
      processes. Migrations.v: nexusd/src/migrations/manager.rs; UriBackfill.v, a migration
      of its catalog.
    - TrustRank.v and TrustReport.v: nexusd/src/trust and the job that recomputes the trust
      ranking; SocialGraph.v: the badge published from it (models/user/social_graph.rs).
    - Rankings.v: the influencers of a timeframe (models/user/influencers.rs), rebuilt on a
      miss or on schedule. HotTags.v: the most used labels (models/tag/stream.rs, global.rs).

    ** What the API serves

    - Streams.v: post streams (models/post/stream.rs) that the sorted sets serve.
      UserStreams.v and StarterPack.v: user streams (models/user/stream.rs) and the requests
      that choose them (nexus-webapi/src/routes/v0/stream/users.rs).
    - TagViews.v: the tags of a post or user as served (models/tag/traits/collection.rs).
      Reach.v: who is reached through follows and trust (models/follow/reach.rs).
      ContentSearch.v: what a user typed, as a RediSearch query (models/post/search.rs).
    - Bootstrap.v: the first payload of a client (models/bootstrap.rs), gathered from the
      other components through the class [Sources]; UserViews.v: the page of user views in it
      (models/user/view.rs).
    - Media.v, MediaPool.v, MediaPublish.v: nexus-webapi/src/media, resized copies derived on
      demand by subprocesses under permits.

    ** How programs are modelled

    A program over a world [W] is [W → A * W]; [let?] is Rust's [?] and [let*] a plain
    sequence. Every call to a server may be refused, or take effect and lose its reply; which
    ones do is part of the world and quantified in every theorem (sessions of Redis.v and
    Graphs.v, trips of PostStore.v). Components that race (Takedown.v, Users.v, TrustFilter.v,
    JobLock.v, HotTags.v, the media files) are threads (Threads.v): sequences of atomic calls, with
    others' calls in between; Rankings.v and TaskRunner.v are machines whose moves are such
    calls. Integers keep their width where they can overflow; scores are
    the integers [f64] rounds them to ([as_f64]). Crates and servers are classes or
    parameters with their documented laws; each such class has a concrete instance in the
    module of examples at the end of a file, where the theorems' witnesses run.

    ** What the theorems show

    - The graph leads and Redis follows: PostRuns.v, TagRuns.v, Bookmarks.v, Follows.v and
      Users.v prove of any history of events, with calls failing anywhere, that an answered
      event stands in both stores until the next one on its subject, and that what Redis
      holds the graph backs; Files.v the same of a file's node and its blob. Histories.v is
      the argument they share (what an answered event established stands until the next
      event on its subject, given what each program [does_on] its state); Leaves.v
      and the [does] and [keeps] rules of PostStore.v carry the proofs.
    - Nothing is lost or repeated: cursors never rewind and pass attended events only
      (Cursor.v, KeyBased.v, Primary.v); a failed event is retried as itself and the Redis
      queue refines the abstract one (Processor.v, RetryStore.v, RedisRetry.v,
      RetryProcessor.v); follows notify at most once (Follows.v); paged scans and fan-outs
      visit what one unpaged read would (Scan.v, PostFanout.v, Notifications.v).
    - Races are harmless: in the graph a taken-down record stays down (Takedown.v; its copy in
      Redis may not), the trust filter converges, but for a switch-off taken back before any
      run began to apply it (TrustFilterRuns.v), runs under the lock never overlap (JobLock.v), media
      work is bounded and publishes whole outputs only (MediaPool.v, MediaPublish.v), a
      ranking keeps to its graph and at most one request rebuilds it (Rankings.v), served hot
      tags were scanned (HotTags.v), tasks wind down after a panic (TaskRunner.v).
    - Reads answer what they should: pages are those of the unbounded lists (Streams.v,
      StarterPack.v, Scan.v), tags are the graph's (TagViews.v), a typed query searches for
      what was typed and no operator of it (ContentSearch.v), recommendations are eligible
      and validated requests answered (UserStreams.v), a payload carries the views of
      exactly the users it names who have one (Bootstrap.v), badges are places in the published
      ranking (SocialGraph.v), and a ranking starts from the seeds it was given (TrustRank.v).
    - Migrations come to one end however often they fail (Migrations.v, UriBackfill.v).
    - Untrusted input is bounded: fetched bodies, backoffs, batches, bindings proven by
      records (Client.v, Backoff.v, Resolver.v, Ingest.v).

    ** Fuel

    Loops that a server's answers drive take fuel, and a theorem says how much is enough: the
    rows of a keyset scan ([keyset_scan_is_one_read], [fan_out_ends],
    [bookmark_reindex_ends]), the batches of a retry run ([retry_run_ends]), the pages of a
    reconciliation ([reconcile_ends]), the batches of a set read (RedisSets.v), the pages of
    the event log ([repeated_backfill_is_one_clean_run]: more pages of fuel than the log
    has), the rounds of a merge ([interleave_unique]: every id) and the profiles read for the
    most-followed ranking ([most_followed_serves_the_ranking]: more fuel than profiles).
    Scheduler and runner loops are unfolded for as many turns as the statement says.

    ** Not modelled

    The arms of a join touch different keys and are run in turn. Expiries of cached documents
    are left out, as are logs, metrics and tracing. A stored document reads back as written.
    Post streams that a graph query serves, the views of posts and tags that join several
    reads, resource streams, and the HTTP routes that only pass their parameters on are not
    modelled: they are queries evaluated by the servers or glue over components that are.
    Neither are configuration, the command line and start-up code, rate limiting, and the
    migrations of the catalog that are a single query or a deletion of keys. PageRank, the
    search engine, the cron library, PKARR, HTTP and the Pubky SDK are parameters. *)

From stdpp Require Export base tactics option list strings gmap fin_maps
  numbers sorting pretty.

(** ** Fallible results and stateful programs *)

Declare Scope nexus_scope.
Delimit Scope nexus_scope with nexus.

(** Rust's [Result<A, E>]. *)
Inductive result (A E : Type) : Type :=
  | Ok (a : A)
  | Err (e : E).
Arguments Ok {A E} _.
Arguments Err {A E} _.

(** A program over a world [W]: everything the code reads from or does to its
    environment (stores, clocks, channels, the network) goes through [W]. *)
Definition prog (W A : Type) : Type := W → A * W.

Definition ret {W A} (a : A) : prog W A := λ w, (a, w).

Definition bind {W A B} (m : prog W A) (k : A → prog W B) : prog W B :=
  λ w, let '(a, w') := m w in k a w'.

(** Rust's [?]: stop at the first error. *)
Definition ebind {W A B E} (m : prog W (result A E))
    (k : A → prog W (result B E)) : prog W (result B E) :=
  λ w, match m w with
       | (Ok a, w') => k a w'
       | (Err e, w') => (Err e, w')
       end.

(** Rust's [Result::map_err], and [From::from] as [?] applies it. *)
Definition map_err {A E F} (f : E → F) (r : result A E) : result A F :=
  match r with Ok a => Ok a | Err e => Err (f e) end.

Definition emap_err {W A E F} (f : E → F) (m : prog W (result A E)) :
    prog W (result A F) :=
  λ w, let '(r, w') := m w in (map_err f r, w').

(** A program over a world next to some other state. *)
Definition lift {W S A} (p : prog W A) : prog (W * S) A :=
  λ '(w, s), let '(a, w) := p w in (a, (w, s)).

Notation "'let*' x ':=' m 'in' k" := (bind m (λ x, k))
  (at level 10, x pattern at level 99, m at level 100, k at level 200) : nexus_scope.
Notation "'let?' x ':=' m 'in' k" := (ebind m (λ x, k))
  (at level 10, x pattern at level 99, m at level 100, k at level 200) : nexus_scope.

(** [yields m w Q R]: the outcome of [m] from [w] satisfies [Q] when it is an
    [Ok], [R] when it is an [Err]. *)
Definition yields {W A E} (m : prog W (result A E)) (w : W)
    (Q : A → W → Prop) (R : E → W → Prop) : Prop :=
  match m w with
  | (Ok a, w') => Q a w'
  | (Err e, w') => R e w'
  end.

Section Yields.
Context {W : Type}.

Lemma yields_ret {A E} (r : result A E) (w : W) Q R :
  match r with Ok a => Q a w | Err e => R e w end → yields (ret r) w Q R.
Proof. unfold yields, ret. by destruct r. Qed.

Lemma yields_ebind {A B E} (m : prog W (result A E)) (k : A → prog W (result B E)) w Q R :
  yields m w (λ a w', yields (k a) w' Q R) R → yields (ebind m k) w Q R.
Proof. unfold yields, ebind. by destruct (m w) as [[a|e] w']. Qed.

Lemma yields_bind {A B E} (m : prog W A) (k : A → prog W (result B E)) w Q R :
  (∀ a w', m w = (a, w') → yields (k a) w' Q R) → yields (bind m k) w Q R.
Proof. unfold yields, bind. destruct (m w) as [a w'] eqn:Hm. intros H. by apply H. Qed.

Lemma yields_emap_err {A E F} (f : E → F) (m : prog W (result A E)) w Q R :
  yields m w Q (λ e, R (f e)) → yields (emap_err f m) w Q R.
Proof. unfold yields, emap_err. by destruct (m w) as [[a|e] w']. Qed.

Lemma yields_mono {A E} (m : prog W (result A E)) w (Q Q' : A → W → Prop) (R R' : E → W → Prop) :
  yields m w Q R → (∀ a w', Q a w' → Q' a w') → (∀ e w', R e w' → R' e w') →
  yields m w Q' R'.
Proof. unfold yields. destruct (m w) as [[a|e] w']; auto. Qed.

Lemma yields_run {A E} (m : prog W (result A E)) w r w' Q R :
  yields m w Q R → m w = (r, w') →
  match r with Ok a => Q a w' | Err e => R e w' end.
Proof. unfold yields. intros H Hm. by rewrite Hm in H. Qed.
End Yields.

(** ** Fixed-width integers *)

Section Integers.
Local Open Scope Z_scope.

Definition u32_max : Z := 2 ^ 32 - 1.
Definition u64_max : Z := 2 ^ 64 - 1.
Definition i64_max : Z := 2 ^ 63 - 1.
Definition i64_min : Z := - 2 ^ 63.

(** Release-profile arithmetic wraps around. *)
Definition wrap_u32 (x : Z) : Z := x `mod` 2 ^ 32.
Definition wrap_u64 (x : Z) : Z := x `mod` 2 ^ 64.
Definition wrap_i64 (x : Z) : Z := (x + 2 ^ 63) `mod` 2 ^ 64 - 2 ^ 63.

(** [u64::checked_mul] and [u64::checked_pow]. *)
Definition checked_mul_u64 (x y : Z) : option Z :=
  if decide (x * y ≤ u64_max) then Some (x * y) else None.
Definition checked_pow_u64 (b e : Z) : option Z :=
  if decide (b ^ e ≤ u64_max) then Some (b ^ e) else None.

(** An integer [as f64]: exact up to 2^53, then rounded to the nearest multiple of
    a power of two, ties to even. *)
Definition as_f64 (x : Z) : Z :=
  if decide (Z.abs x ≤ 2 ^ 53) then x
  else
    let ulp := 2 ^ (Z.log2 (Z.abs x) - 52) in
    let q := Z.abs x / ulp in
    let r := Z.abs x `mod` ulp in
    let q := if decide (ulp < 2 * r ∨ (2 * r = ulp ∧ Z.odd q = true)) then q + 1 else q in
    Z.sgn x * (q * ulp).

Definition f64_min : Z := - (2 ^ 1024 - 2 ^ 971).
Definition f64_max : Z := 2 ^ 1024 - 2 ^ 971.

Lemma as_f64_exact x : Z.abs x ≤ 2 ^ 53 → as_f64 x = x.
Proof. intros. unfold as_f64. by rewrite decide_True. Qed.

(** [str::parse::<u64>]: an optional plus sign, at least one digit, no overflow. *)
Definition digit_value (c : Ascii.ascii) : option Z :=
  let n := Z.of_N (Ascii.N_of_ascii c) in
  if decide (48 ≤ n ≤ 57) then Some (n - 48) else None.

Fixpoint parse_digits (acc : Z) (s : string) : option Z :=
  match s with
  | EmptyString => Some acc
  | String c s =>
      d ← digit_value c;
      let acc := acc * 10 + d in
      if decide (acc ≤ u64_max) then parse_digits acc s else None
  end.

Definition parse_u64 (s : string) : option Z :=
  match s with
  | EmptyString => None
  | String c s' =>
      if decide (c = Ascii.ascii_of_N 43) then
        match s' with EmptyString => None | _ => parse_digits 0 s' end
      else parse_digits 0 s
  end.

Lemma parse_digits_bounds s acc n :
  0 ≤ acc ≤ u64_max → parse_digits acc s = Some n → 0 ≤ n ≤ u64_max.
Proof.
  revert acc. induction s as [|c s IH]; intros acc Ha; simpl; [by intros [= <-]|].
  unfold digit_value. case_decide; simpl; [|done]. case_decide; [|done]. apply IH. lia.
Qed.

Lemma parse_u64_bounds s n : parse_u64 s = Some n → 0 ≤ n ≤ u64_max.
Proof.
  unfold parse_u64. destruct s as [|c s]; [done|].
  case_decide; [destruct s; [done|]|]; apply parse_digits_bounds; unfold u64_max; lia.
Qed.

Lemma wrap_u64_id x : 0 ≤ x ≤ u64_max → wrap_u64 x = x.
Proof. unfold wrap_u64, u64_max. intros. apply Z.mod_small. lia. Qed.

Lemma wrap_u32_id x : 0 ≤ x ≤ u32_max → wrap_u32 x = x.
Proof. unfold wrap_u32, u32_max. intros. apply Z.mod_small. lia. Qed.

Lemma wrap_i64_id x : i64_min ≤ x ≤ i64_max → wrap_i64 x = x.
Proof.
  unfold wrap_i64, i64_min, i64_max. intros.
  rewrite Z.mod_small; lia.
Qed.
End Integers.

(** ** Proof automation *)

Create HintDb nexus.
Create Rewrite HintDb nexus_int.
#[export] Hint Rewrite wrap_u64_id wrap_u32_id wrap_i64_id using lia : nexus_int.

(** Runs a [prog]: unfolds the monad and splits on every intermediate result. *)
Ltac unfold_prog := unfold bind, ebind, ret, emap_err, map_err in *.

Ltac split_matches :=
  repeat (case_match || case_decide); simplify_eq/=.

(** Splits every boolean comparison hypothesis into arithmetic. *)
Ltac bool_lia :=
  repeat match goal with
  | H : context [bool_decide _] |- _ => rewrite ?bool_decide_eq_true, ?bool_decide_eq_false in H
  | |- context [bool_decide _] => rewrite ?bool_decide_eq_true, ?bool_decide_eq_false
  end; lia.

(** ** Lists *)

Section Lists.
Context {A : Type}.
Implicit Types (l : list A).

Lemma filter_ext_in (P Q : A → Prop) `{∀ x, Decision (P x), ∀ x, Decision (Q x)} l :
  (∀ x, x ∈ l → P x ↔ Q x) → filter P l = filter Q l.
Proof.
  induction l as [|x l IH]; intros HPQ; [done|].
  rewrite !filter_cons, IH by (intros; apply HPQ; by right).
  pose proof (HPQ x (list_elem_of_here x l)).
  repeat case_decide; try done; tauto.
Qed.

Lemma size_list_to_set_le `{Countable A} l :
  (size (list_to_set l : gset A) ≤ length l)%nat.
Proof.
  induction l as [|x l IH]; [rewrite list_to_set_nil, size_empty; simpl; lia|].
  rewrite list_to_set_cons, length_cons, size_union_alt, size_singleton.
  pose proof (subseteq_size (list_to_set l ∖ {[x]} : gset A) (list_to_set l)
    ltac:(set_solver)).
  lia.
Qed.
End Lists.

(** ** Byte strings *)

Definition len (s : string) : Z := Z.of_nat (String.length s).

(** The first [n] bytes. *)
Definition prefix_bytes (n : Z) (s : string) : string := String.substring 0 (Z.to_nat n) s.

Section Bytes.
Local Open Scope Z_scope.
Implicit Types (s t : string).

Lemma str_cons c s t : String c s +:+ t = String c (s +:+ t).
Proof. done. Qed.

Lemma str_assoc s t u : (s +:+ t) +:+ u = s +:+ (t +:+ u).
Proof. induction s as [|c s IH]; [done|]. by rewrite !str_cons, IH. Qed.

Lemma str_nil_r s : s +:+ "" = s.
Proof. induction s as [|c s IH]; [done|]. by rewrite str_cons, IH. Qed.

Lemma str_length_app s t : String.length (s +:+ t) = (String.length s + String.length t)%nat.
Proof. induction s as [|c s IH]; [done|]. rewrite str_cons. simpl. by rewrite IH. Qed.

Lemma str_app_inj_r s s' t : s +:+ t = s' +:+ t → s = s'.
Proof.
  intros Heq. assert (String.length s = String.length s') as Hlen.
  { apply (f_equal String.length) in Heq. rewrite !str_length_app in Heq. lia. }
  revert s' Heq Hlen. induction s as [|c s IH]; intros [|c' s'] Heq Hlen; simpl in Hlen; try done.
  rewrite !str_cons in Heq. injection Heq as -> Heq. f_equal. apply IH; [done|lia].
Qed.

Lemma str_app_inj_l s t t' : s +:+ t = s +:+ t' → t = t'.
Proof. induction s as [|c s IH]; [done|]. rewrite !str_cons. intros [= ?]. auto. Qed.

Lemma len_app s t : len (s +:+ t) = len s + len t.
Proof. unfold len. induction s as [|c s IH]; [done|]. rewrite str_cons. simpl. lia. Qed.

Lemma len_nonneg s : 0 ≤ len s.
Proof. unfold len. lia. Qed.

Lemma substring_app s t k :
  String.substring 0 (String.length s + k) (s +:+ t) = s +:+ String.substring 0 k t.
Proof. induction s as [|c s IH]; [done|]. rewrite !str_cons. simpl. by rewrite IH. Qed.

Lemma substring_le s t k :
  (k ≤ String.length s)%nat → String.substring 0 k (s +:+ t) = String.substring 0 k s.
Proof.
  revert k. induction s as [|c s IH]; intros k Hk; rewrite ?str_cons; simpl in *.
  - assert (k = 0)%nat as -> by lia. by destruct t.
  - destruct k as [|k]; [done|]. simpl. by rewrite IH by lia.
Qed.

Lemma prefix_app s t k : 0 ≤ k → prefix_bytes (len s + k) (s +:+ t) = s +:+ prefix_bytes k t.
Proof.
  intros Hk. unfold prefix_bytes, len.
  replace (Z.to_nat (Z.of_nat (String.length s) + k)) with (String.length s + Z.to_nat k)%nat by lia.
  apply substring_app.
Qed.

Lemma prefix_le s t k : k ≤ len s → prefix_bytes k (s +:+ t) = prefix_bytes k s.
Proof. intros Hk. unfold prefix_bytes, len in *. apply substring_le. lia. Qed.

Lemma prefix_all s k : len s ≤ k → prefix_bytes k s = s.
Proof.
  unfold prefix_bytes, len. intros Hk. assert (String.length s ≤ Z.to_nat k)%nat as Hn by lia.
  clear Hk. revert Hn. generalize (Z.to_nat k). induction s as [|c s IH]; intros n Hn; [by destruct n|].
  destruct n as [|n]; simpl in *; [lia|]. by rewrite IH by lia.
Qed.

Lemma len_prefix s k : 0 ≤ k ≤ len s → len (prefix_bytes k s) = k.
Proof.
  unfold prefix_bytes, len. intros [Hk Hle]. rewrite <- (Z2Nat.id k) at 2 by done. f_equal.
  assert (Z.to_nat k ≤ String.length s)%nat as Hn by lia. clear Hk Hle. revert Hn.
  generalize (Z.to_nat k). induction s as [|c s IH]; intros n Hn; simpl in *;
    [by destruct n; [|lia]|]. destruct n as [|n]; simpl; [done|]. rewrite IH; lia.
Qed.
Lemma substring_drop s t k :
  String.substring (String.length s) k (s +:+ t) = String.substring 0 k t.
Proof. induction s as [|c s IH]; [done|]. rewrite str_cons. simpl. done. Qed.

Lemma substring_all s k : (String.length s ≤ k)%nat → String.substring 0 k s = s.
Proof.
  revert k. induction s as [|c s IH]; intros k Hk; [by destruct k|].
  destruct k as [|k]; simpl in *; [lia|]. by rewrite IH by lia.
Qed.
End Bytes.

(** [str::strip_prefix] *)
Fixpoint strip_prefix (prefix s : string) : option string :=
  match prefix, s with
  | EmptyString, _ => Some s
  | String c prefix, String c' s => if decide (c = c') then strip_prefix prefix s else None
  | String _ _, EmptyString => None
  end.

(** ** The order of [str]: bytewise lexicographic *)

Definition str_le (s1 s2 : string) : Prop := String.leb s1 s2 = true.

#[export] Instance str_le_dec : RelDecision str_le.
Proof. intros s1 s2. unfold str_le. apply _. Defined.

#[export] Instance str_le_total : Total str_le.
Proof. intros s1 s2. apply String.leb_total. Qed.

#[export] Instance str_le_refl : Reflexive str_le.
Proof. intros s. by destruct (total str_le s s). Qed.

#[export] Instance str_le_antisymm : AntiSymm (=) str_le.
Proof. intros s1 s2. apply String.leb_antisym. Qed.

Lemma str_le_cons a1 s1 a2 s2 :
  str_le (String a1 s1) (String a2 s2) ↔
    (Ascii.N_of_ascii a1 < Ascii.N_of_ascii a2)%N ∨ (a1 = a2 ∧ str_le s1 s2).
Proof.
  unfold str_le, String.leb. simpl. unfold Ascii.compare.
  destruct (N.compare_spec (Ascii.N_of_ascii a1) (Ascii.N_of_ascii a2)) as [Heq|Hlt|Hgt].
  - assert (a1 = a2) as ->.
    { by rewrite <- (Ascii.ascii_N_embedding a1), Heq, Ascii.ascii_N_embedding. }
    split; [auto|]. by intros [?|[_ ?]]; [lia|].
  - split; [auto|done].
  - split; [done|]. intros [?|[-> _]]; lia.
Qed.

#[export] Instance str_le_trans : Transitive str_le.
Proof.
  intros s1. induction s1 as [|a1 s1 IH]; intros s2 s3.
  - by destruct s3.
  - destruct s2 as [|a2 s2]; [done|]. destruct s3 as [|a3 s3]; [done|].
    rewrite !str_le_cons. intros [?|[-> ?]] [?|[-> ?]]; [left; lia|by left..|right].
    split; [done|]. by eapply IH.
Qed.
