(* ===== verification/Histories.v ===== *)
(** * What programs do, and histories of events

    Events handled one after the other, each retried or not, with calls failing anywhere:
    what an answered event established about its subject stands until another event about
    that subject. *)

From S2P Require Import Prelude.
Local Open Scope nexus_scope.

(** ** What a program does to a part of its world *)

Section Does.
Context {W T : Type} (view : W → T).

(** From [s]: [Q] of an [Ok] answer, [R] after an [Err]. *)
Definition does_on {A E} (m : prog W (result A E)) (s : T) (Q : A → T → Prop) (R : T → Prop) : Prop :=
  ∀ w, view w = s → yields m w (λ a w', Q a (view w')) (λ _ w', R (view w')).

Lemma does_on_run {A E} (m : prog W (result A E)) s Q R w r w' :
  does_on m s Q R → view w = s → m w = (r, w') →
  match r with Ok a => Q a (view w') | Err _ => R (view w') end.
Proof. intros Hm Hw Hrun. exact (yields_run _ _ _ _ _ _ (Hm w Hw) Hrun). Qed.

Lemma does_on_ret {A E} (r : result A E) s (Q : A → T → Prop) (R : T → Prop) :
  match r with Ok a => Q a s | Err _ => R s end → does_on (ret r) s Q R.
Proof. intros Hr w <-. apply yields_ret. by destruct r. Qed.

Lemma does_on_ebind {A B E} (m : prog W (result A E)) (k : A → prog W (result B E)) s Q R :
  does_on m s (λ a s', does_on (k a) s' Q R) R → does_on (ebind m k) s Q R.
Proof.
  intros Hm w Hw. apply yields_ebind. eapply yields_mono; [by apply Hm| |done]. intros a w' Hk. by apply Hk.
Qed.

Lemma does_on_emap_err {A E F} (f : E → F) (m : prog W (result A E)) s Q R :
  does_on m s Q R → does_on (emap_err f m) s Q R.
Proof. intros Hm w Hw. apply yields_emap_err. by apply Hm. Qed.

Lemma does_on_mono {A E} (m : prog W (result A E)) s (Q Q' : A → T → Prop) (R R' : T → Prop) :
  does_on m s Q R → (∀ a s', Q a s' → Q' a s') → (∀ s', R s' → R' s') → does_on m s Q' R'.
Proof. intros Hm HQ HR w Hw. eapply yields_mono; [by apply Hm|intros; by apply HQ|intros; by apply HR]. Qed.
End Does.

Section History.
(** Of the world [W] the events are about the part [T]. *)
Context {W T Ev K E : Type} `{EqDecision K} (view : W → T).
Context (handle : Ev → prog W (result unit E)).
(** What an event is about; some are refused before they are about anything. *)
Context (about : Ev → option K).
(** What the answer to an event establishes. *)
Context (established : Ev → T → Prop).
(** What others' events may do to a subject, and what every event keeps. *)
Context (undisturbed : K → T → T → Prop) (inv : T → Prop) (wf : Ev → Prop).

(** The events handled one after the other, and how each was answered, latest first. *)
Fixpoint run_events (es : list Ev) (log : list (Ev * bool)) (w : W) : list (Ev * bool) * W :=
  match es with
  | [] => (log, w)
  | e :: es =>
      let '(r, w) := handle e w in
      run_events es ((e, match r with Ok _ => true | Err _ => false end) :: log) w
  end.

(** The last event about a subject, and whether it was answered. *)
Fixpoint last_about (k : K) (log : list (Ev * bool)) : option (Ev * bool) :=
  match log with
  | [] => None
  | (e, ok) :: log => if decide (about e = Some k) then Some (e, ok) else last_about k log
  end.

(** What an attempt at an event leaves, from the stores [s]. *)
Definition others (e : Ev) (s s' : T) : Prop :=
  inv s' ∧ ∀ k, about e ≠ Some k → undisturbed k s s'.

Context (Hhandle : ∀ e s, wf e → inv s →
  does_on view (handle e) s (λ _ s', established e s' ∧ others e s s') (others e s)).
Context (Hstable : ∀ e k s s', wf e → about e = Some k → undisturbed k s s' → established e s → established e s').

Definition remembered (log : list (Ev * bool)) (s : T) : Prop :=
  inv s ∧ Forall (λ el : Ev * bool, wf (fst el)) log
  ∧ ∀ k e, last_about k log = Some (e, true) → established e s.

Lemma last_about_subject k log e ok : last_about k log = Some (e, ok) → about e = Some k ∧ (e, ok) ∈ log.
Proof.
  induction log as [|[e' ok'] log IH]; [done|]. cbn [last_about]. case_decide.
  - intros [= -> ->]. split; [done|by left].
  - intros [? ?]%IH. split; [done|by right].
Qed.

Lemma remembered_step e log w r w' :
  wf e → remembered log (view w) → handle e w = (r, w') →
  remembered ((e, match r with Ok _ => true | Err _ => false end) :: log) (view w').
Proof.
  intros He (Hinv & Hlog & Hlast) Hrun.
  pose proof (does_on_run _ _ _ _ _ _ _ _ (Hhandle e (view w) He Hinv) eq_refl Hrun) as Hr.
  assert (others e (view w) (view w')) as [Hinv' Ho] by (destruct r; [apply Hr|exact Hr]).
  split; [done|]. split; [by constructor|]. intros k e'. cbn [last_about]. case_decide as Hk.
  - intros [= <- Hok]. destruct r; [apply Hr|done].
  - intros He'. destruct (last_about_subject _ _ _ _ He') as [Hab Hin].
    assert (wf e') by (by apply (proj1 (Forall_forall _ _) Hlog (e', true))).
    eapply Hstable; [done|exact Hab|by apply Ho|]. by eapply Hlast.
Qed.

Lemma run_events_remembered es log w :
  Forall wf es → remembered log (view w) →
  remembered (fst (run_events es log w)) (view (snd (run_events es log w))).
Proof.
  intros Hes. revert log w. induction Hes as [|e es He _ IH]; intros log w Hl; [done|].
  cbn [run_events]. destruct (handle e w) as [r w'] eqn:Hrun. apply IH. by eapply remembered_step.
Qed.

Lemma answered_stands es w k e :
  Forall wf es → inv (view w) → last_about k (fst (run_events es [] w)) = Some (e, true) →
  established e (view (snd (run_events es [] w))).
Proof.
  intros Hes Hinv. assert (remembered [] (view w)) as H0 by (by split; [|split; [constructor|]]).
  apply (run_events_remembered es [] w Hes H0).
Qed.

Lemma run_events_inv es w :
  Forall wf es → inv (view w) → inv (view (snd (run_events es [] w))).
Proof.
  intros Hes Hinv. assert (remembered [] (view w)) as H0 by (by split; [|split; [constructor|]]).
  apply (run_events_remembered es [] w Hes H0).
Qed.
End History.
