(* ===== verification/Threads.v ===== *)
(** * Threads: sequences of calls between which others may run

    The watcher's loops, its jobs and the API run at the same time against the same
    stores: a component whose property depends on that is written as a thread, whose
    every store call is one step. *)

From S2P Require Import Prelude.

Inductive thread (W A : Type) : Type :=
  | Done (a : A)
  | Act (X : Set) (p : prog W X) (k : X → thread W A).
Arguments Done {W A} _.
Arguments Act {W A X} _ _.

Fixpoint tbind {W A B} (t : thread W A) (k : A → thread W B) : thread W B :=
  match t with
  | Done a => k a
  | Act p k' => Act p (λ x, tbind (k' x) k)
  end.

Definition call {W} {A : Set} (p : prog W A) : thread W A := Act p Done.

(** [?] on a call. *)
Definition tebind {W A B E} (t : thread W (result A E)) (k : A → thread W (result B E)) :
    thread W (result B E) :=
  tbind t (λ r, match r with Ok a => k a | Err e => Done (Err e) end).

(** A thread run on its own. *)
Fixpoint run_thread {W A} (t : thread W A) : prog W A := λ w,
  match t with
  | Done a => (a, w)
  | Act p k => let '(x, w) := p w in run_thread (k x) w
  end.

(** The world after its first [n] calls, and what is left of the thread. *)
Fixpoint run_steps {W A} (n : nat) (t : thread W A) (w : W) : W :=
  match n, t with
  | S n, Act p k => let '(x, w) := p w in run_steps n (k x) w
  | _, _ => w
  end.

Fixpoint rest {W A} (n : nat) (t : thread W A) (w : W) : thread W A :=
  match n, t with
  | S n, Act p k => let '(x, w) := p w in rest n (k x) w
  | _, _ => t
  end.

Declare Scope thread_scope.
Delimit Scope thread_scope with thread.
Notation "'do*' x ':=' m 'in' k" := (tbind m (λ x, k))
  (at level 10, x pattern at level 99, m at level 100, k at level 200) : thread_scope.
Notation "'do?' x ':=' m 'in' k" := (tebind m (λ x, k))
  (at level 10, x pattern at level 99, m at level 100, k at level 200) : thread_scope.

Lemma run_thread_tbind {W A B} (t : thread W A) (k : A → thread W B) w :
  run_thread (tbind t k) w = let '(a, w') := run_thread t w in run_thread (k a) w'.
Proof.
  revert w. induction t as [a|X p k' IH]; intros w; simpl; [done|].
  destruct (p w) as [x w']. apply IH.
Qed.

(** ** A thread among others *)

Section Among.
Context {W : Type} (other : W → W → Prop).

(** [runs t w o w']: from [w], while others step, [t] gets to [w'], where it has ended
    with [o], or was cut short when [o] is [None]: by a crash, or by a call that failed,
    before or after it took effect, whose error ends it. *)
Fixpoint runs {A} (t : thread W A) (w : W) (o : option A) (w' : W) : Prop :=
  match t with
  | Done a => rtc other w w' ∧ (o = Some a ∨ o = None)
  | Act p k =>
      ∃ w1, rtc other w w1 ∧
        ((o = None ∧ w' = w1) ∨ runs (k (fst (p w1))) (snd (p w1)) o w')
  end.

Definition stable (P : W → Prop) : Prop := ∀ w w', other w w' → P w → P w'.

Lemma stable_and P Q : stable P → stable Q → stable (λ w, P w ∧ Q w).
Proof. intros HP HQ w w' Hstep [??]. eauto. Qed.

Lemma stable_rtc P w w' : stable P → rtc other w w' → P w → P w'.
Proof. intros HP. induction 1; eauto. Qed.

(** From [P], [t] keeps [I] however it is cut, and if it ends, ends in [Q]. *)
Definition hoare {A} (I P : W → Prop) (t : thread W A) (Q : A → W → Prop) : Prop :=
  ∀ w o w', P w → runs t w o w' → I w' ∧ ∀ a, o = Some a → Q a w'.

Context (I : W → Prop).

Lemma hoare_done {A} (P : W → Prop) (a : A) (Q : A → W → Prop) :
  stable P → (∀ w, P w → I w ∧ Q a w) → hoare I P (Done a) Q.
Proof.
  intros HP HQ w o w' Hw [Hsteps Ho]. destruct (HQ w') as [HI Ha]; [by eapply stable_rtc|].
  split; [done|]. by destruct Ho as [->| ->]; intros ? [= <-].
Qed.

Lemma hoare_act {A} {X : Set} (P : W → Prop) (p : prog W X) (k : X → thread W A) R Q :
  stable P → (∀ w, P w → I w) → (∀ w, P w → R (fst (p w)) (snd (p w))) →
  (∀ x, hoare I (R x) (k x) Q) → hoare I P (Act p k) Q.
Proof.
  intros HP HI Hp Hk w o w' Hw (w1 & Hsteps & Hcase).
  assert (P w1) as Hw1 by by eapply stable_rtc.
  destruct Hcase as [[-> ->]|Hruns]; [by split; [apply HI|]|]. by apply (Hk _ _ _ _ (Hp w1 Hw1)).
Qed.

Lemma runs_tbind {A B} (t : thread W A) (k : A → thread W B) w o w' :
  runs (tbind t k) w o w' →
  (o = None ∧ runs t w None w') ∨ ∃ a w1, runs t w (Some a) w1 ∧ runs (k a) w1 o w'.
Proof.
  revert w. induction t as [a|X p k' IH]; intros w; simpl.
  { intros Hruns. right. exists a, w. split; [|done]. by split; [apply rtc_refl|left]. }
  intros (w1 & Hsteps & [[-> ->]|Hruns]).
  - left. split; [done|]. exists w1. by split; [|left].
  - destruct (IH _ _ Hruns) as [[-> ?]|(a & w2 & ? & ?)].
    + left. split; [done|]. exists w1. by split; [|right].
    + right. exists a, w2. split; [|done]. exists w1. by split; [|right].
Qed.

Lemma hoare_tbind {A B} P (t : thread W A) (k : A → thread W B) R Q :
  hoare I P t R → (∀ a, hoare I (R a) (k a) Q) → hoare I P (tbind t k) Q.
Proof.
  intros Ht Hk w o w' Hw [[-> Hruns]|(a & w1 & H1 & H2)]%runs_tbind.
  - split; [by eapply Ht|done].
  - apply (Hk a w1 o w'); [|done]. by eapply Ht.
Qed.

Lemma hoare_mono {A} (P P' : W → Prop) (t : thread W A) (Q Q' : A → W → Prop) :
  hoare I P t Q → (∀ w, P' w → P w) → (∀ a w, Q a w → Q' a w) → hoare I P' t Q'.
Proof.
  intros Ht HP HQ w o w' Hw Hruns. destruct (Ht w o w' (HP w Hw) Hruns) as [? HQa].
  split; [done|]. intros a Ha. by apply HQ, HQa.
Qed.

Lemma hoare_pure {A} (φ : Prop) (P : W → Prop) (t : thread W A) Q :
  (φ → hoare I P t Q) → hoare I (λ w, φ ∧ P w) t Q.
Proof. intros Ht w o w' [Hφ Hw]. by apply Ht. Qed.

Lemma hoare_call {A : Set} (P : W → Prop) (p : prog W A) Q :
  stable P → (∀ w, P w → I w) → (∀ a, stable (Q a)) → (∀ a w, Q a w → I w) →
  (∀ w, P w → Q (fst (p w)) (snd (p w))) → hoare I P (call p) Q.
Proof.
  intros HP HPI HQ HQI Hp. apply (hoare_act P p Done Q Q HP HPI Hp).
  intros a. apply hoare_done; [done|]. eauto.
Qed.

(** A read whose answer [P] decides. *)
Lemma hoare_read {A : Set} (P : W → Prop) (f : W → A) v :
  stable P → (∀ w, P w → I w) → (∀ w, P w → f w = v) →
  hoare I P (call (λ w, (f w, w))) (λ a w, a = v ∧ P w).
Proof.
  intros HP HPI Hf. apply hoare_call; try done.
  - intros a w w' Hstep [-> Hw]. split; [done|]. by eapply HP.
  - intros a w [_ Hw]. auto.
  - intros w Hw. simpl. auto.
Qed.

(** On its own, a thread does what it does among others. *)
Lemma run_thread_runs {A} (t : thread W A) w :
  runs t w (Some (fst (run_thread t w))) (snd (run_thread t w)).
Proof.
  revert w. induction t as [a|X p k IH]; intros w; simpl.
  - by split; [apply rtc_refl|left].
  - exists w. split; [apply rtc_refl|]. right. destruct (p w) as [x w1]. apply IH.
Qed.

(** A thread may be cut after any number of its calls. *)
Lemma run_steps_runs {A} n (t : thread W A) w : runs t w None (run_steps n t w).
Proof.
  revert t w. induction n as [|n IH]; intros [a|X p k] w; simpl;
    try (split; [apply rtc_refl|by right]); exists w; split; try apply rtc_refl; [by left|].
  right. destruct (p w) as [x w1]. apply IH.
Qed.
End Among.
