(* ===== verification/Text.v ===== *)
(** * Text: the [str] operations the code takes its answers apart with

    White space, lines, splitting at a byte and ASCII case, on UTF-8 byte strings, as
    homeserver/client.rs, nexus-common/src/media and nexus-webapi/src/media use them. *)

From S2P Require Import Prelude.
Local Open Scope Z_scope.

(** [char::is_whitespace], as UTF-8. *)
Definition bytes_of (l : list N) : string :=
  foldr (λ n s, String (Ascii.ascii_of_N n) s) "" l.
Definition white_space : list string := bytes_of <$>
  [[9]; [10]; [11]; [12]; [13]; [32]; [194; 133]; [194; 160]; [225; 154; 128];
   [226; 128; 128]; [226; 128; 129]; [226; 128; 130]; [226; 128; 131]; [226; 128; 132];
   [226; 128; 133]; [226; 128; 134]; [226; 128; 135]; [226; 128; 136]; [226; 128; 137];
   [226; 128; 138]; [226; 128; 168]; [226; 128; 169]; [226; 128; 175]; [226; 129; 159];
   [227; 128; 128]]%N.

(** Drops the white space a string starts with, given the encodings to look for. *)
Fixpoint strip_any (encodings : list string) (s : string) : option string :=
  match encodings with
  | [] => None
  | e :: encodings =>
      match strip_prefix e s with Some s => Some s | None => strip_any encodings s end
  end.

Fixpoint trim_start (fuel : nat) (encodings : list string) (s : string) : string :=
  match fuel with
  | O => s
  | S fuel =>
      match strip_any encodings s with
      | Some s => trim_start fuel encodings s
      | None => s
      end
  end.

Definition rev (s : string) : string := String.string_of_list_ascii (reverse (String.list_ascii_of_string s)).

(** [str::trim]: no white space is left at either end. *)
Definition trim (s : string) : string :=
  let s := trim_start (String.length s) white_space s in
  rev (trim_start (String.length s) (rev <$> white_space) (rev s)).

Definition newline : Ascii.ascii := Ascii.ascii_of_N 10.
Definition carriage_return : Ascii.ascii := Ascii.ascii_of_N 13.

Fixpoint strip_cr (s : string) : string :=
  match s with
  | EmptyString => EmptyString
  | String c EmptyString => if decide (c = carriage_return) then EmptyString else s
  | String c s => String c (strip_cr s)
  end.

(** [str::lines], the line read so far being [cur]. *)
Fixpoint lines_from (cur s : string) : list string :=
  match s with
  | EmptyString => match cur with EmptyString => [] | _ => [cur] end
  | String c s =>
      if decide (c = newline) then strip_cr cur :: lines_from "" s
      else lines_from (cur +:+ String c "") s
  end.
Definition lines (s : string) : list string := lines_from "" s.

(** [str::split_once] at an ASCII character. *)
Fixpoint split_once (c : Ascii.ascii) (s : string) : option (string * string) :=
  match s with
  | EmptyString => None
  | String c' s =>
      if decide (c' = c) then Some ("", s)
      else '(before, after) ← split_once c s; Some (String c' before, after)
  end.

Definition to_ascii_lowercase (c : Ascii.ascii) : Ascii.ascii :=
  let n := Ascii.N_of_ascii c in
  if decide (65 ≤ n ≤ 90)%N then Ascii.ascii_of_N (n + 32) else c.

(** [str::eq_ignore_ascii_case] *)
Fixpoint eq_ignore_ascii_case (s t : string) : bool :=
  match s, t with
  | EmptyString, EmptyString => true
  | String c s, String d t =>
      bool_decide (to_ascii_lowercase c = to_ascii_lowercase d) && eq_ignore_ascii_case s t
  | _, _ => false
  end.

(** [str::contains] of a character *)
Fixpoint contains (c : Ascii.ascii) (s : string) : bool :=
  match s with
  | EmptyString => false
  | String c' s => bool_decide (c' = c) || contains c s
  end.

Lemma rev_involutive s : rev (rev s) = s.
Proof.
  unfold rev. rewrite String.list_ascii_of_string_of_list_ascii, reverse_involutive.
  apply String.string_of_list_ascii_of_string.
Qed.

Lemma rev_app s t : rev (s +:+ t) = rev t +:+ rev s.
Proof.
  assert (∀ s t, String.list_ascii_of_string (s +:+ t)
            = String.list_ascii_of_string s ++ String.list_ascii_of_string t) as Happ.
  { intros s' t'. induction s' as [|c s' IH]; [done|]. rewrite str_cons. simpl. by rewrite IH. }
  unfold rev. rewrite Happ, reverse_app.
  generalize (reverse (String.list_ascii_of_string t)), (reverse (String.list_ascii_of_string s)).
  intros cs ds. induction cs as [|c cs IH]; [done|]. simpl. by rewrite str_cons, IH.
Qed.

Lemma contains_elem c s : contains c s = true ↔ c ∈ String.list_ascii_of_string s.
Proof.
  induction s as [|d s IH]; simpl.
  - split; [done|]. by intros ?%elem_of_nil.
  - rewrite orb_true_iff, IH, bool_decide_eq_true, elem_of_cons. naive_solver.
Qed.

Lemma contains_app c s t : contains c (s +:+ t) = contains c s || contains c t.
Proof. induction s as [|d s IH]; [done|]. rewrite str_cons. simpl. by rewrite IH, orb_assoc. Qed.

Lemma contains_rev c s : contains c (rev s) = contains c s.
Proof.
  apply eq_bool_prop_intro. rewrite !Is_true_true, !contains_elem. unfold rev.
  by rewrite String.list_ascii_of_string_of_list_ascii, elem_of_reverse.
Qed.

(** What comes before the first [c] is determined. *)
Lemma app_inj_before c s s' t t' :
  contains c s = false → contains c s' = false →
  s +:+ String c t = s' +:+ String c t' → s = s' ∧ t = t'.
Proof.
  revert s'. induction s as [|d s IH]; intros [|d' s'] Hs Hs'; rewrite ?str_cons; simpl in *.
  - by intros [= ->].
  - intros [= -> _]. by rewrite bool_decide_true in Hs'.
  - intros [= <- _]. by rewrite bool_decide_true in Hs.
  - apply orb_false_iff in Hs as [_ Hs], Hs' as [_ Hs']. intros [= -> Heq].
    by destruct (IH _ Hs Hs' Heq) as [-> ->].
Qed.
