(* ===== verification/Errors.v ===== *)
(** * Errors: what fails, and what the watcher does about it

    The error types of the store layer (nexus-common/src/db/kv/error.rs,
    db/graph/error.rs, models/error.rs, db/connectors/pubky.rs), of homeserver calls
    (nexus-watcher/src/homeserver/error.rs) and of event processing
    (nexus-watcher/src/errors.rs), the conversions between them, and the two
    classifications every processor branches on: [should_not_retry_now] (stop the
    batch) and [should_enqueue_related_event] (queue the event,
    nexus-watcher/src/events/retry/scheduler.rs).

    Errors of other crates that the code only carries along are kept as the text
    they render to. *)

From S2P Require Import Prelude.
Local Open Scope Z_scope.

(** ** Key-value store *)

Module Kv.

Inductive RedisError :=
  | ConnectionNotInitialized
  | ConnectionPoolError (source : string)
  | IoError (source : string)
  | CommandFailed (source : string)
  | SerializationFailed (source : string)
  | DeserializationFailed (source : string)
  | InvalidInput (message : string).

Definition to_string (e : RedisError) : string :=
  match e with
  | ConnectionNotInitialized => "Connection not initialized"
  | ConnectionPoolError _ => "Connection pool error"
  | IoError s => "IO error: " +:+ s
  | CommandFailed s => "Command failed: " +:+ s
  | SerializationFailed s => "Serialization failed: " +:+ s
  | DeserializationFailed s => "Deserialization failed: " +:+ s
  | InvalidInput s => "Invalid input: " +:+ s
  end.

Definition should_not_retry_now (e : RedisError) : bool :=
  match e with
  | ConnectionNotInitialized | ConnectionPoolError _ | IoError _ => true
  | _ => false
  end.

(** What the redis client says of its own error, and its text. *)
Record DriverError := {
  is_connection_refusal : bool;
  is_timeout : bool;
  is_io_error : bool;
  text : string;
}.

Definition from_redis (e : DriverError) : RedisError :=
  if is_connection_refusal e || is_timeout e || is_io_error e
  then IoError (text e) else CommandFailed (text e).

Definition ensure_cursor_not_backwards (new_cursor stored_cursor : Z) : result unit RedisError :=
  if decide (new_cursor < stored_cursor)
  then Err (InvalidInput "Cursor cannot move backwards")
  else Ok tt.

End Kv.

(** ** Graph *)

Module Graph.

Inductive GraphError :=
  | ConnectionNotInitialized
  | QueryFailed (source : string)
  | QueryTimeout
  | QueryBuildError (message : string)
  | SerializationFailed (source : string)
  | DeserializationFailed (source : string)
  | UriParseError (message : string)
  | InvalidResourceType (message : string)
  | KeysetScanStalled (context detail : string)
  | Generic (message : string).

Definition to_string (e : GraphError) : string :=
  match e with
  | ConnectionNotInitialized => "Connection not initialized"
  | QueryFailed s => "Query failed: " +:+ s
  | QueryTimeout => "Query timeout"
  | QueryBuildError s => "Query build error: " +:+ s
  | SerializationFailed s => "Serialization failed: " +:+ s
  | DeserializationFailed s => "Deserialization failed: " +:+ s
  | UriParseError s => "URI parse error: " +:+ s
  | InvalidResourceType s => "Invalid resource type: " +:+ s
  | KeysetScanStalled context detail =>
      context +:+ ": keyset scan cannot advance (" +:+ detail +:+ ")"
  | Generic s => "Generic: " +:+ s
  end.

Definition should_not_retry_now (e : GraphError) : bool :=
  match e with
  | ConnectionNotInitialized | QueryFailed _ => true
  | _ => false
  end.

(** A row field that cannot be decoded. *)
Definition from_de_error (e : string) : GraphError := DeserializationFailed e.

End Graph.

(** ** Models *)

Module Model.

Inductive ModelError :=
  | GraphOperationFailed (source : Graph.GraphError)
  | KvOperationFailed (source : Kv.RedisError)
  | HsBlacklisted (hs_id : string)
  | Generic (message : string).

Definition from_de_error (e : string) : ModelError :=
  GraphOperationFailed (Graph.from_de_error e).

Definition from_generic (message : string) : ModelError := Generic message.

End Model.

(** ** The Pubky SDK *)

Module Pubky.

(** The SDK's own error, as the two conversions below match on it. *)
Inductive SdkError :=
  | RequestServer (status : Z) (message : string)
  | RequestTransport (is_timeout : bool) (text : string)
  | RequestValidation (message : string)
  | RequestDecodeJson (message : string)
  | SdkPkarr (text : string)
  | SdkParse (text : string)
  | SdkAuthentication (text : string)
  | SdkBuild (text : string).

Inductive PubkyClientError :=
  | NotInitialized
  | NotFound404 (message : string)
  | TooManyRequests429 (message : string)
  | ServerError5xx (message : string)
  | RequestFailed (message : string)
  | PkarrFailed (source : string)
  | AuthenticationFailed (source : string)
  | BuildFailed (source : string)
  | ParseFailed (source : string).

Definition NOT_FOUND : Z := 404.
Definition TOO_MANY_REQUESTS : Z := 429.

(** [is_server_error] is [StatusCode::is_server_error]. *)
Definition from_sdk_error (is_server_error : Z → bool) (err : SdkError) : PubkyClientError :=
  match err with
  | RequestServer status message =>
      if decide (status = NOT_FOUND) then NotFound404 message
      else if decide (status = TOO_MANY_REQUESTS) then TooManyRequests429 message
      else if is_server_error status then ServerError5xx message
      else RequestFailed message
  | RequestTransport _ text => RequestFailed text
  | RequestValidation message | RequestDecodeJson message => RequestFailed message
  | SdkPkarr e => PkarrFailed e
  | SdkAuthentication e => AuthenticationFailed e
  | SdkBuild e => BuildFailed e
  | SdkParse e => ParseFailed e
  end.

End Pubky.

(** ** Homeserver calls *)

Module Hs.

Inductive HsOp := PollEvents | UserEvents | GetResource | GetBlob.

#[global] Instance HsOp_eq_dec : EqDecision HsOp.
Proof. solve_decision. Defined.

Inductive HsErrorKind :=
  | NotFound (body : string)
  | RateLimited (body : string)
  | ServerError (status : Z) (body : string)
  | Rejected (status : Z) (body : string)
  | Timeout
  | Transport (message : string)
  | TooLarge (got max : Z)
  | Sdk (message : string)
  | Malformed (message : string).

Record HsError := {
  hs : string;
  op : HsOp;
  kind : HsErrorKind;
}.

Definition op_debug (o : HsOp) : string :=
  match o with
  | PollEvents => "PollEvents" | UserEvents => "UserEvents"
  | GetResource => "GetResource" | GetBlob => "GetBlob"
  end.

Definition kind_to_string (k : HsErrorKind) : string :=
  match k with
  | NotFound b => "HTTP 404: " +:+ b
  | RateLimited b => "HTTP 429: " +:+ b
  | ServerError s b | Rejected s b => "HTTP " +:+ pretty s +:+ ": " +:+ b
  | Timeout => "timed out"
  | Transport m => "transport failed: " +:+ m
  | TooLarge got max => pretty got +:+ " bytes, over the " +:+ pretty max +:+ " byte limit"
  | Sdk m => "sdk: " +:+ m
  | Malformed m => "malformed: " +:+ m
  end.

Definition to_string (e : HsError) : string :=
  op_debug (op e) +:+ " " +:+ hs e +:+ ": " +:+ kind_to_string (kind e).

Definition MAX_ERROR_BODY : nat := 4 * 1024.

Section Constructors.
(** [StatusCode::is_server_error], and [String::from_utf8_lossy] on bytes. *)
Context (is_server_error : Z → bool) (from_utf8_lossy : string → string).

Definition format_error_body (bytes : string) (max : nat) : string :=
  if decide (max < String.length bytes)%nat
  then from_utf8_lossy (String.substring 0 max bytes) +:+ "… (truncated)"
  else from_utf8_lossy bytes.

Definition capped (error : string) : string := format_error_body error MAX_ERROR_BODY.

Definition from_status (status : Z) (body : string) : HsErrorKind :=
  let body := format_error_body body MAX_ERROR_BODY in
  if decide (status = Pubky.NOT_FOUND) then NotFound body
  else if decide (status = Pubky.TOO_MANY_REQUESTS) then RateLimited body
  else if is_server_error status then ServerError status body
  else Rejected status body.

Definition transport (error : string) : HsErrorKind := Transport (capped error).
Definition malformed (error : string) : HsErrorKind := Malformed (capped error).

Definition from_reqwest (is_timeout : bool) (text : string) : HsErrorKind :=
  if is_timeout then Timeout else transport text.

(** [sdk_text] renders the SDK error as a whole. *)
Definition from_sdk (sdk_text : Pubky.SdkError → string) (error : Pubky.SdkError) : HsErrorKind :=
  match error with
  | Pubky.RequestServer status message => from_status status message
  | Pubky.RequestTransport is_timeout text => from_reqwest is_timeout text
  | Pubky.RequestValidation _ | Pubky.RequestDecodeJson _ | Pubky.SdkPkarr _ =>
      Sdk (capped (sdk_text error))
  | Pubky.SdkParse _ | Pubky.SdkAuthentication _ | Pubky.SdkBuild _ =>
      malformed (sdk_text error)
  end.
End Constructors.

End Hs.

(** ** Event processing *)

Module Ep.

Inductive EventProcessorError :=
  | GraphQueryFailed (should_not_retry_now : bool) (message : string)
  | MissingDependency (dependency : list string)
  | IndexOperationFailed (should_not_retry_now : bool) (message : string)
  | SkipIndexing
  | InvalidEventLine (message : string)
  | UserIdMismatch (hs_id expected_user_id event_user_id : string)
  | EventCursorOutOfOrder (hs_id user_id : string) (cursor cursor_floor : Z)
  | SpecValidation (message : string)
  | DataAnomaly (message : string)
  | UnsupportedTarget (message : string)
  | FetchSizeExceeded (size limit : Z)
  | PubkyClientError (source : Pubky.PubkyClientError)
  | HsEventsStreamRateLimitExhausted
  | HsEventsStreamTransportFailed (message : string)
  | HsEventsStreamServerError (message : string)
  | HsBlacklisted (hs_id : string)
  | Homeserver (source : Hs.HsError)
  | InternalError (message : string)
  | StaticSaveFailed (message : string)
  | Generic (message : string).

Definition from_redis (e : Kv.RedisError) : EventProcessorError :=
  IndexOperationFailed (Kv.should_not_retry_now e) (Kv.to_string e).

Definition from_graph (e : Graph.GraphError) : EventProcessorError :=
  match e with
  | Graph.KeysetScanStalled _ _ => DataAnomaly (Graph.to_string e)
  | _ => GraphQueryFailed (Graph.should_not_retry_now e) (Graph.to_string e)
  end.

Definition from_model (e : Model.ModelError) : EventProcessorError :=
  match e with
  | Model.GraphOperationFailed source => from_graph source
  | Model.KvOperationFailed source =>
      IndexOperationFailed (Kv.should_not_retry_now source) (Kv.to_string source)
  | Model.HsBlacklisted hs_id => HsBlacklisted hs_id
  | Model.Generic message => Generic message
  end.

Definition from_pubky_client (e : Pubky.PubkyClientError) : EventProcessorError :=
  PubkyClientError e.

Definition from_pubky (is_server_error : Z → bool) (e : Pubky.SdkError) : EventProcessorError :=
  from_pubky_client (Pubky.from_sdk_error is_server_error e).

Definition from_hs (error : Hs.HsError) : EventProcessorError :=
  let on_stream := bool_decide (Hs.op error = Hs.UserEvents) in
  let message := Hs.to_string error in
  match Hs.kind error, on_stream with
  | Hs.TooLarge got max, _ => FetchSizeExceeded got max
  | Hs.RateLimited _, true => HsEventsStreamRateLimitExhausted
  | Hs.ServerError _ _, true => HsEventsStreamServerError message
  | (Hs.Transport _ | Hs.Timeout), true => HsEventsStreamTransportFailed message
  | Hs.NotFound _, _ => from_pubky_client (Pubky.NotFound404 message)
  | Hs.RateLimited _, false => from_pubky_client (Pubky.TooManyRequests429 message)
  | Hs.ServerError _ _, false => from_pubky_client (Pubky.ServerError5xx message)
  | (Hs.Rejected _ _ | Hs.Transport _ | Hs.Timeout | Hs.Sdk _), _ =>
      from_pubky_client (Pubky.RequestFailed message)
  | Hs.Malformed _, _ => Homeserver error
  end.

Definition from_io (e : string) : EventProcessorError := InternalError e.

Definition should_not_retry_now (e : EventProcessorError) : bool :=
  match e with
  | GraphQueryFailed true _ | IndexOperationFailed true _
  | HsEventsStreamRateLimitExhausted | HsEventsStreamTransportFailed _
  | HsEventsStreamServerError _ | EventCursorOutOfOrder _ _ _ _ => true
  | _ => false
  end.

Definition is_not_found (e : EventProcessorError) : bool :=
  match e with
  | PubkyClientError (Pubky.NotFound404 _) => true
  | _ => false
  end.

Definition is_missing_dependency (e : EventProcessorError) : bool :=
  match e with MissingDependency _ => true | _ => false end.

(** [RetryScheduler::should_enqueue_related_event] *)
Definition should_enqueue_related_event (error : EventProcessorError) : bool :=
  match error with
  | PubkyClientError err =>
      match err with
      | Pubky.NotInitialized | Pubky.TooManyRequests429 _ | Pubky.ServerError5xx _
      | Pubky.RequestFailed _ | Pubky.PkarrFailed _ => true
      | Pubky.NotFound404 _ | Pubky.AuthenticationFailed _ | Pubky.BuildFailed _
      | Pubky.ParseFailed _ => false
      end
  | InvalidEventLine _ | SkipIndexing | SpecValidation _ | UnsupportedTarget _
  | HsBlacklisted _ | Homeserver _ | HsEventsStreamRateLimitExhausted
  | FetchSizeExceeded _ _ | DataAnomaly _ | UserIdMismatch _ _ _
  | EventCursorOutOfOrder _ _ _ _ => false
  | _ => true
  end.

End Ep.

(** ** Properties *)

(** What [handle_error] and the user loop decide about an error. *)
Definition verdict (e : Ep.EventProcessorError) : bool * bool * bool :=
  (Ep.should_not_retry_now e, Ep.should_enqueue_related_event e, Ep.is_not_found e).

Section HsClassification.
Context (is_server_error : Z → bool) (from_utf8_lossy : string → string)
        (sdk_text : Pubky.SdkError → string).

(** only the per-user event stream can stop a homeserver's run: a failed
    resource, blob or poll request never does, whatever the host answers, while a
    failed stream request does exactly for a 429, a 5xx, a transport failure or a
    timeout. *)
Theorem only_stream_failures_stop_the_run (e : Hs.HsError) :
  Ep.should_not_retry_now (Ep.from_hs e) = true ↔
    Hs.op e = Hs.UserEvents ∧
    match Hs.kind e with
    | Hs.RateLimited _ | Hs.ServerError _ _ | Hs.Transport _ | Hs.Timeout => True
    | _ => False
    end.
Proof.
  destruct e as [h o k]. unfold Ep.from_hs; simpl.
  destruct (bool_decide_reflect (o = Hs.UserEvents)), k; simpl; naive_solver.
Qed.

(** an SDK failure of a resource or blob request gets the same verdict
    (stop, enqueue, treat as 404) through [HsErrorKind::from_sdk] as through
    [PubkyClientError::from], for every SDK error and status. *)
Theorem from_sdk_same_verdict (h : string) (o : Hs.HsOp) (e : Pubky.SdkError) :
  o ≠ Hs.UserEvents →
  verdict (Ep.from_hs {| Hs.hs := h; Hs.op := o;
             Hs.kind := Hs.from_sdk is_server_error from_utf8_lossy sdk_text e |})
  = verdict (Ep.from_pubky is_server_error e).
Proof.
  intros Ho. unfold Ep.from_hs, verdict. simpl. rewrite bool_decide_eq_false_2 by done.
  destruct e as [s m|[] t|m|m|t|t|t|t]; simpl; try done.
  unfold Hs.from_status, Ep.from_pubky, Pubky.from_sdk_error.
  repeat case_decide; try done. by destruct (is_server_error s).
Qed.
End HsClassification.

Lemma from_sdk_same_verdict_witness :
  verdict (Ep.from_hs {| Hs.hs := "h"; Hs.op := Hs.GetBlob;
    Hs.kind := Hs.from_sdk (λ s, (500 <=? s) && (s <? 600)) id (λ _, "sdk")
                 (Pubky.RequestServer 503 "down") |}) = (false, true, false).
Proof.
  rewrite from_sdk_same_verdict; [reflexivity|discriminate].
Defined.

(** An infrastructure failure of our own stores stops the batch and is queued; it
    is never mistaken for a bad event. *)
Lemma store_errors_stop_iff (e : Model.ModelError) :
  Ep.should_not_retry_now (Ep.from_model e) = true ↔
    match e with
    | Model.GraphOperationFailed g => Graph.should_not_retry_now g = true
    | Model.KvOperationFailed k => Kv.should_not_retry_now k = true
    | _ => False
    end.
Proof. destruct e as [[]|[]| |]; simpl; naive_solver. Qed.

Lemma ensure_cursor_not_backwards_ok n s :
  Kv.ensure_cursor_not_backwards n s = Ok tt ↔ s ≤ n.
Proof. unfold Kv.ensure_cursor_not_backwards. case_decide; split; intros; try done; lia. Qed.
