(* ===== verification/Graphs.v ===== *)
(** * Graphs: calls to the graph database

    nexus-common/src/db/graph/exec.rs, over a driver that may fail a query before or
    after it took effect. The components keep the part of the graph their Cypher
    reads and writes as a state [G], and translate each query as a function on it. *)

From S2P Require Import Prelude Errors.
Local Open Scope nexus_scope.

Inductive GraphTrip :=
  | GraphServed
  | GraphRefused (e : Graph.GraphError)
  | GraphReplyLost (e : Graph.GraphError).

(** What the coming queries will meet; a query past the end of the list is served. *)
Record GraphSession (G : Type) := { graph : G; graph_trips : list GraphTrip }.
Arguments graph {G} _.
Arguments graph_trips {G} _.

Definition run_query {G A} (q : prog G A) : prog (GraphSession G) (result A Graph.GraphError) :=
  λ s,
  let '(a, g) := q (graph s) in
  match graph_trips s with
  | [] => (Ok a, {| graph := g; graph_trips := [] |})
  | GraphServed :: ts => (Ok a, {| graph := g; graph_trips := ts |})
  | GraphRefused e :: ts => (Err e, {| graph := graph s; graph_trips := ts |})
  | GraphReplyLost e :: ts => (Err e, {| graph := g; graph_trips := ts |})
  end.

Definition reads {G A} (f : G → A) : prog G A := λ g, (f g, g).
Definition writes {G} (f : G → G) : prog G unit := λ g, (tt, f g).

(** ** Outcomes of a mutation *)

Inductive OperationOutcome := Updated | CreatedOrDeleted | MissingDependency.

(** The "flag" column of the only row, or no row. *)
Definition outcome_of_flag (maybe_flag : option bool) : OperationOutcome :=
  match maybe_flag with
  | Some true => Updated
  | Some false => CreatedOrDeleted
  | None => MissingDependency
  end.

Definition execute_graph_operation {G} (q : prog G (option bool)) :
    prog (GraphSession G) (result OperationOutcome Graph.GraphError) :=
  let? maybe_flag := run_query q in
  ret (Ok (outcome_of_flag maybe_flag)).

Section Lemmas.
Context {G : Type}.

Lemma run_query_yields {A} (q : prog G A) s (Q : A → GraphSession G → Prop)
    (R : Graph.GraphError → GraphSession G → Prop) :
  (∀ s', graph s' = snd (q (graph s)) → Q (fst (q (graph s))) s') →
  (∀ e s', graph s' = graph s ∨ graph s' = snd (q (graph s)) → R e s') →
  yields (run_query q) s Q R.
Proof.
  unfold yields, run_query. intros HQ HR. destruct (q (graph s)) as [a g]. simpl in *.
  destruct (graph_trips s) as [|[|e|e] ts]; [by apply HQ|by apply HQ|apply HR; auto|apply HR; auto].
Qed.

Lemma run_query_reads {A} (f : G → A) s (Q : A → GraphSession G → Prop)
    (R : Graph.GraphError → GraphSession G → Prop) :
  (∀ s', graph s' = graph s → Q (f (graph s)) s') →
  (∀ e s', graph s' = graph s → R e s') →
  yields (run_query (reads f)) s Q R.
Proof. intros HQ HR. apply run_query_yields; [done|]. intros e s' [?|?]; by apply HR. Qed.
End Lemmas.
