(* ===== verification/Scan.v ===== *)
(** * Keyset scans of the graph

    nexus-common/src/db/graph/pagination.rs, and the scan behind the all-time influencers
    ranking (models/user/influencers.rs, queries/get.rs). *)

From S2P Require Import Prelude Errors Graphs.
Local Open Scope nexus_scope.

(** What a cursor is: [Ord], [Default] (before every row) and [Debug]. *)
Class CursorOrder (C : Type) := {
  cursor_le : C → C → Prop;
  cursor_le_dec :: RelDecision cursor_le;
  cursor_le_refl :: Reflexive cursor_le;
  cursor_le_trans :: Transitive cursor_le;
  cursor_le_total :: Total cursor_le;
  start : C;
  debug : C → string;
}.

(** [{:?}] of a string: quoted, quotes, backslashes and the usual controls escaped. *)
Fixpoint escape_debug (s : string) : string :=
  match s with
  | EmptyString => EmptyString
  | String c s =>
      let n := Ascii.N_of_ascii c in
      (if (n =? 9)%N then "\t" else if (n =? 10)%N then "\n" else if (n =? 13)%N then "\r"
       else if (n =? 0)%N then "\0"
       else if ((n =? 34) || (n =? 92))%N then String (Ascii.ascii_of_N 92) (String c EmptyString)
       else String c EmptyString) +:+ escape_debug s
  end.

Definition debug_string (s : string) : string :=
  let quote := String (Ascii.ascii_of_N 34) EmptyString in quote +:+ escape_debug s +:+ quote.

#[export] Instance string_cursor : CursorOrder string := {|
  cursor_le := str_le; start := EmptyString; debug := debug_string |}.

(** [Vec<String>]: column by column. *)
Fixpoint columns_le (l1 l2 : list string) : Prop :=
  match l1, l2 with
  | [], _ => True
  | _, [] => False
  | a :: l1, b :: l2 => (str_le a b ∧ a ≠ b) ∨ (a = b ∧ columns_le l1 l2)
  end.

#[export] Instance columns_le_dec : RelDecision columns_le.
Proof.
  intros l1. induction l1 as [|a l1 IH]; intros [|b l2]; simpl; apply _.
Defined.

#[export] Instance columns_le_refl : Reflexive columns_le.
Proof. intros l. induction l as [|a l IH]; [done|]. by right. Qed.

#[export] Instance columns_le_trans : Transitive columns_le.
Proof.
  intros l1. induction l1 as [|a l1 IH]; intros [|b l2] [|c l3]; simpl; try done.
  intros [[Hab Hne]|[-> H12]] [[Hbc Hne']|[-> H23]]; [|by left|by left|right; by split; [|eapply IH]].
  left. split; [by etrans|]. intros ->. by apply Hne, (anti_symm str_le).
Qed.

#[export] Instance columns_le_total : Total columns_le.
Proof.
  intros l1. induction l1 as [|a l1 IH]; intros [|b l2]; simpl; try by auto.
  destruct (decide (a = b)) as [->|Hne]; [destruct (IH l2); auto|].
  destruct (total str_le a b); auto.
Qed.

#[export] Instance columns_cursor : CursorOrder (list string) := {|
  cursor_le := columns_le; start := [];
  debug l := "[" +:+ String.concat ", " (debug_string <$> l) +:+ "]" |}.

Section Scan.
Context {W C E : Type} `{CursorOrder C} (from_graph : Graph.GraphError → E).

Definition stalled (context detail : string) : E :=
  from_graph (Graph.KeysetScanStalled context detail).

(** The driver's loop; [None] when still scanning. *)
Fixpoint scan_from (fuel batch_size : nat) (context : string)
    (step : C → prog W (result (nat * option C) E)) (cursor : C) : prog W (option (result unit E)) :=
  match fuel with
  | O => ret None
  | S fuel =>
      let* r := step cursor in
      match r with
      | Err e => ret (Some (Err e))
      | Ok (count, last_cursor) =>
          if decide (count = 0 ∨ count < batch_size)%nat then ret (Some (Ok tt))
          else
            match last_cursor with
            | None =>
                ret (Some (Err (stalled context ("full batch of " +:+ pretty count
                                                 +:+ " rows produced no cursor"))))
            | Some next =>
                if decide (cursor_le next cursor) then
                  ret (Some (Err (stalled context ("cursor did not advance past " +:+ debug cursor
                                                   +:+ ", got " +:+ debug next))))
                else scan_from fuel batch_size context step next
            end
      end
  end.

(** [keyset_scan] and [keyset_scan_composite]. *)
Definition keyset_scan (fuel batch_size : nat) (context : string)
    (step : C → prog W (result (nat * option C) E)) : prog W (option (result unit E)) :=
  scan_from fuel batch_size context step start.
End Scan.

(** A scan whose every full batch advances over some rows ends, whatever fails. *)
Section Ends.
Context {W C E : Type} `{CursorOrder C} (from_graph : Graph.GraphError → E).
Context (step : C → prog W (result (nat * option C) E)) (batch_size : nat) (context : string).
(** The rows above a cursor, in the worlds the scan goes through. *)
Context (above : C → nat) (I : W → Prop).
Context (Hstep : ∀ c w r w', I w → step c w = (r, w') → I w' ∧
  match r with
  | Ok (count, Some next) => (count < batch_size)%nat ∨ cursor_le next c ∨ (above next < above c)%nat
  | _ => True
  end).

Lemma scan_ends fuel c w :
  I w → (above c < fuel)%nat →
  ∃ r w', scan_from from_graph fuel batch_size context step c w = (Some r, w') ∧ I w'.
Proof.
  revert c w. induction fuel as [|fuel IH]; intros c w Hw Hfuel; [lia|].
  cbn [scan_from]. unfold bind. destruct (step c w) as [r w'] eqn:Hs.
  destruct (Hstep _ _ _ _ Hw Hs) as [Hw' Hr]. destruct r as [[count last]|e]; [|by exists (Err e), w'].
  case_decide as Hc; [by exists (Ok tt), w'|]. destruct last as [next|]; [|by eexists _, w'].
  case_decide as Hn; [by eexists _, w'|]. destruct Hr as [?|[?|?]]; [tauto|done|].
  apply IH; [done|lia].
Qed.

(** The rows of a page are above its cursor, and fewer are above any of them. *)
Lemma fewer_above {R} (key : R → C) (rows : list R) r c :
  r ∈ filter (λ r, ¬ cursor_le (key r) c) rows →
  (length (filter (λ r', ¬ cursor_le (key r') (key r)) rows)
   < length (filter (λ r, ¬ cursor_le (key r) c) rows))%nat.
Proof.
  intros [Hr Hin]%list_elem_of_filter. assert (cursor_le c (key r)) as Hle by (destruct (total cursor_le c (key r)); done).
  assert (∀ l, length (filter (λ r', ¬ cursor_le (key r') (key r)) l)
               ≤ length (filter (λ r, ¬ cursor_le (key r) c) l))%nat as Hsub.
  { intros l. induction l as [|x l IH]; [done|]. rewrite !filter_cons.
    destruct (decide (¬ cursor_le (key x) (key r))), (decide (¬ cursor_le (key x) c)); simpl; try lia.
    exfalso. assert (cursor_le (key x) c) by (by apply dec_stable). by apply n; etrans. }
  apply list_elem_of_split in Hin as (l1 & l2 & ->). rewrite !filter_app, !length_app, !filter_cons.
  rewrite (decide_False (P := ¬ cursor_le (key r) (key r))) by (intros Hn; by apply Hn).
  rewrite (decide_True (P := ¬ cursor_le (key r) c)) by done. simpl. pose proof (Hsub l1). pose proof (Hsub l2). lia.
Qed.
End Ends.

(** ** Rows read page by page *)

Section Rows.
Context {W C R E : Type} `{CursorOrder C} (from_graph : Graph.GraphError → E).
Context (key : R → C) (rows : list R) (visit : list R → prog W (result unit E)).

(** [WHERE key > $cursor ORDER BY key LIMIT $limit], of rows in the order of their keys. *)
Definition page (cursor : C) (limit : nat) : list R :=
  take limit (filter (λ r, ¬ cursor_le (key r) cursor) rows).

Definition below (r r' : R) : Prop := cursor_le (key r) (key r') ∧ ¬ cursor_le (key r') (key r).

Hypothesis visit_nil : ∀ w, visit [] w = (Ok tt, w).
Hypothesis visit_app : ∀ l l' w, visit (l ++ l') w = ebind (visit l) (λ _, visit l') w.

(** Worlds in which the graph serves these rows. *)
Context (serves : W → Prop).
Hypothesis visit_serves : ∀ l w, serves w → serves (snd (visit l w)).

(** A step that visits a page and answers its size and last key. *)
Definition page_step (batch_size : nat) (cursor : C) : prog W (result (nat * option C) E) :=
  let rows := page cursor batch_size in
  let? _ := visit rows in
  ret (Ok (length rows, key <$> last rows)).

Lemma page_tail pre rest cursor limit :
  rows = pre ++ rest → Forall (λ r, cursor_le (key r) cursor) pre →
  Forall (λ r, ¬ cursor_le (key r) cursor) rest → page cursor limit = take limit rest.
Proof.
  intros Hrows Hpre Hrest. unfold page. rewrite Hrows, filter_app. f_equal. clear Hrows.
  replace (filter _ pre) with (@nil R); [simpl|].
  - induction Hrest as [|r l Hr _ IH]; [done|]. by rewrite filter_cons_True, IH.
  - induction Hpre as [|r l Hr _ IH]; [done|]. by rewrite filter_cons_False by tauto.
Qed.

Lemma scan_visits fuel batch_size context step pre rest cursor w :
  (∀ c w', serves w' → step c w' = page_step batch_size c w') → serves w →
  (0 < batch_size)%nat → (length rest < fuel)%nat → rows = pre ++ rest → StronglySorted below rows →
  Forall (λ r, cursor_le (key r) cursor) pre → Forall (λ r, ¬ cursor_le (key r) cursor) rest →
  scan_from from_graph fuel batch_size context step cursor w
  = (let '(r, w') := visit rest w in (Some r, w')).
Proof.
  intros Hstep Hserves Hbatch. revert pre rest cursor w Hserves. induction fuel as [|fuel IH];
    intros pre rest cursor w Hserves Hfuel Hrows Hsorted Hpre Hrest; [lia|].
  simpl. unfold bind, ret. rewrite Hstep by done. unfold page_step. rewrite (page_tail pre rest) by done.
  set (p := take batch_size rest).
  assert (rest = p ++ drop batch_size rest) as Hsplit by (unfold p; by rewrite take_drop).
  assert (visit rest w = ebind (visit p) (λ _, visit (drop batch_size rest)) w) as ->
    by (rewrite <- visit_app; by rewrite <- Hsplit).
  unfold ebind. pose proof (visit_serves p w Hserves) as Hserves1.
  destruct (visit p w) as [[[]|e] w1]; [|done]. simpl in *.
  case_decide as Hend.
  - assert (drop batch_size rest = []) as ->.
    { apply drop_ge. unfold p in Hend. rewrite length_take in Hend. lia. }
    by rewrite visit_nil.
  - destruct (last p) as [x|] eqn:Hlast; simpl.
    2:{ apply last_None in Hlast. rewrite Hlast in Hend. simpl in Hend. lia. }
    apply last_Some in Hlast as [p' Hp].
    assert (∀ r, r ∈ rest → ¬ cursor_le (key r) cursor) as Hafter by by apply Forall_forall.
    rewrite decide_False by (apply Hafter; rewrite Hsplit, Hp; set_solver).
    apply (IH (pre ++ p)); [done| |by rewrite <- app_assoc, <- Hsplit|done|..].
    + rewrite length_drop. unfold p in Hend. rewrite length_take in Hend. lia.
    + rewrite Hrows, Hsplit, Hp in Hsorted. rewrite <- !app_assoc, app_assoc in Hsorted.
      rewrite Hp, app_assoc. apply Forall_app. split; [|by constructor].
      apply Forall_forall. intros r Hr. by apply (StronglySorted_app_1_elem_of _ _ _ _ _ Hsorted Hr (list_elem_of_here _ _)).
    + rewrite Hrows, Hsplit, Hp in Hsorted. rewrite <- (app_assoc p'), (app_assoc pre) in Hsorted.
      apply Forall_forall. intros r Hr.
      apply StronglySorted_app in Hsorted as (_ & _ & Hx).
      by apply (StronglySorted_app_1_elem_of _ _ _ _ _ Hx (list_elem_of_here _ _) Hr).
Qed.

(** C17: read a page at a time, rows that are told apart by their keys and come after the
    starting cursor are visited exactly as a single unpaged read would visit them, each once,
    in order and up to the first error, and the scan ends after as many pages as there are
    rows at most. *)
Theorem keyset_scan_is_one_read fuel batch_size context step w :
  (∀ c w', serves w' → step c w' = page_step batch_size c w') → serves w → (0 < batch_size)%nat → (length rows < fuel)%nat → StronglySorted below rows →
  Forall (λ r, ¬ cursor_le (key r) start) rows →
  keyset_scan from_graph fuel batch_size context step w
  = (let '(r, w') := visit rows w in (Some r, w')).
Proof. intros. by apply (scan_visits _ _ _ _ []). Qed.
End Rows.

(** ** Whatever the pages answer *)

Section Cursors.
Context {W C E : Type} `{CursorOrder C} (from_graph : Graph.GraphError → E).

(** A step that also writes down the cursors it was asked for, latest first. *)
Definition noting (step : C → prog W (result (nat * option C) E)) :
    C → prog (W * list C) (result (nat * option C) E) :=
  λ cursor '(w, asked), let '(r, w') := step cursor w in (r, (w', cursor :: asked)).

(** No page is ever asked for twice: a scan that cannot advance is cut with an error. *)
Lemma scan_asks_once fuel batch_size context step cursor w asked :
  (∀ c, c ∈ asked → ¬ cursor_le cursor c) → NoDup asked →
  NoDup (snd (snd (scan_from from_graph fuel batch_size context (noting step) cursor (w, asked)))).
Proof.
  revert cursor w asked. induction fuel as [|fuel IH]; intros cursor w asked Hasked Hnd; [done|].
  cbn [scan_from]. unfold bind, ret. simpl.
  assert (NoDup (cursor :: asked)) as Hnd'.
  { constructor; [|done]. intros Hin. by apply (Hasked cursor Hin). }
  destruct (step cursor w) as [[[count last]|e] w1]; simpl; [|done].
  case_decide; [done|]. destruct last as [next|]; [|done]. case_decide as Hle; [done|].
  apply IH; [|done]. intros c [->|Hc]%elem_of_cons; [done|]. intros Hnext.
  destruct (total cursor_le c cursor) as [Hcc|Hcc]; [by apply Hle; etrans|by apply (Hasked c)].
Qed.
End Cursors.

(** ** The all-time influencers ranking *)

Module Influencers.

(** What the query reads of a user. *)
Record UserNode := { id : string; name : string; deleted : option bool; score : Z }.

(** The users a keyset page may hold: neither tombstoned nor a discovery stub. *)
Definition ranked (u : UserNode) : Prop := default false (deleted u) = false ∧ name u ≠ id u.

#[export] Instance ranked_dec u : Decision (ranked u).
Proof. apply _. Defined.

Definition by_id (u v : UserNode) : Prop := str_le (id u) (id v).

#[export] Instance by_id_dec : RelDecision by_id.
Proof. intros u v. unfold by_id. apply _. Defined.

#[export] Instance by_id_trans : Transitive by_id.
Proof. intros u v w. unfold by_id. apply transitivity. Qed.

#[export] Instance by_id_total : Total by_id.
Proof. intros u v. apply (total str_le). Qed.

Definition get_all_time_influencers (after_id : string) (limit : nat) (users : list UserNode) :
    list UserNode :=
  page id (merge_sort by_id (filter ranked users)) after_id limit.

Section Ranking.
Local Abbreviation World := (GraphSession (list UserNode) * list (string * Z))%type.

(** One page: the query, then its rows added to the ranking. *)
Definition read_page (page_size : nat) (after_id : string) :
    prog World (result (nat * option string) Model.ModelError) :=
  λ '(s, ranking),
    match run_query (reads (get_all_time_influencers after_id page_size)) s with
    | (Err e, s) => (Err (Model.GraphOperationFailed e), (s, ranking))
    | (Ok rows, s) =>
        (Ok (length rows, id <$> last rows),
         (s, ranking ++ ((λ u, (id u, score u)) <$> rows)))
    end.

(** A ranking read page by page. *)
Definition read_ranking (context : string) (fuel page_size : nat) (s : GraphSession (list UserNode)) :
    option (result (list (string * Z)) Model.ModelError) * GraphSession (list UserNode) :=
  let '(r, (s, ranking)) :=
    keyset_scan Model.GraphOperationFailed fuel page_size context
      (read_page page_size) (s, []) in
  (match r with
   | Some (Ok _) => Some (Ok ranking)
   | Some (Err e) => Some (Err e)
   | None => None
   end, s).

(** [Influencers::read_all_time_ranking] *)
Definition read_all_time_ranking := read_ranking "influencers_all_time".

Definition entries (l : list UserNode) : list (string * Z) := (λ u, (id u, score u)) <$> l.

Definition add_rows (rows : list UserNode) : prog World (result unit Model.ModelError) :=
  λ '(s, ranking), (Ok tt, (s, ranking ++ entries rows)).

(** The graph holds [users] and answers every query. *)
Definition healthy (users : list UserNode) (w : World) : Prop :=
  graph (fst w) = users ∧ graph_trips (fst w) = [].

Lemma read_page_visits users page_size c w :
  healthy users w →
  read_page page_size c w
  = page_step id (merge_sort by_id (filter ranked users)) add_rows page_size c w.
Proof. destruct w as [[g t] ranking]. by intros [Hg Ht]; simpl in *; subst. Qed.

Lemma entries_app l l' : entries (l ++ l') = entries l ++ entries l'.
Proof. apply fmap_app. Qed.

Lemma add_rows_app l l' w : add_rows (l ++ l') w = ebind (add_rows l) (λ _, add_rows l') w.
Proof. destruct w as [s ranking]. unfold ebind, add_rows. by rewrite entries_app, app_assoc. Qed.

Lemma by_id_below l :
  NoDup (id <$> l) → StronglySorted by_id l → StronglySorted (below id) l.
Proof.
  intros Hnd Hs. induction Hs as [|u l Hs IH Hu]; [constructor|].
  rewrite fmap_cons in Hnd. apply NoDup_cons in Hnd as [Hnotin Hnd].
  constructor; [by apply IH|]. apply Forall_forall. intros v Hv. rewrite Forall_forall in Hu.
  split; [by apply Hu|]. intros Hle. apply Hnotin.
  assert (id u = id v) as -> by (by apply (anti_symm str_le); [apply Hu|]). by apply list_elem_of_fmap_2.
Qed.

(** With every query answered, a ranking read page by page holds each ranked user's score
    once, in the order of ids, whatever the page size. *)
Lemma ranking_is_complete context fuel page_size users :
  (0 < page_size)%nat → (length users < fuel)%nat → NoDup (id <$> users) →
  Forall (λ u, id u ≠ "") users →
  read_ranking context fuel page_size {| graph := users; graph_trips := [] |}
  = (Some (Ok (entries (merge_sort by_id (filter ranked users)))), {| graph := users; graph_trips := [] |}).
Proof.
  intros Hpage Hfuel Hnd Hids. unfold read_ranking.
  set (rows := merge_sort by_id (filter ranked users)).
  assert (rows ≡ₚ filter ranked users) as Hperm by apply merge_sort_Permutation.
  assert (sublist (filter ranked users) users) as Hsub by apply sublist_filter.
  unfold keyset_scan.
  rewrite (scan_visits Model.GraphOperationFailed id rows add_rows) with (serves := healthy users) (pre := [])
    (rest := rows).
  - simpl. done.
  - intros [s ranking]. unfold add_rows. simpl. by rewrite app_nil_r.
  - apply add_rows_app.
  - by intros l [s ranking].
  - intros c w. apply read_page_visits.
  - done.
  - done.
  - rewrite Hperm. apply sublist_length in Hsub. lia.
  - done.
  - apply by_id_below.
    + rewrite Hperm. apply (sublist_NoDup _ (id <$> users) Hnd). by apply fmap_sublist.
    + apply StronglySorted_merge_sort; apply _.
  - constructor.
  - apply Forall_forall. intros u Hu. rewrite Hperm in Hu.
    apply list_elem_of_filter in Hu as [_ Hu]. rewrite Forall_forall in Hids.
    intros Hle. apply (Hids u Hu). by destruct (id u).
Qed.
End Ranking.

(** Three users, one of them tombstoned, read one row at a time. *)
Definition node (i : string) (gone : bool) : UserNode :=
  {| id := i; name := "n-" +:+ i; deleted := Some gone; score := 7 |}.

Definition three : list UserNode := [node "a" false; node "b" true; node "c" false].

Lemma keyset_scan_is_one_read_witness :
  keyset_scan Model.GraphOperationFailed 3 1 "influencers_all_time" (read_page 1)
    ({| graph := three; graph_trips := [] |}, [])
  = (Some (Ok tt), ({| graph := three; graph_trips := [] |}, [("a", 7%Z); ("c", 7%Z)])).
Proof.
  assert (merge_sort by_id (filter ranked three) = [node "a" false; node "c" false]) as Hrows by done.
  rewrite (keyset_scan_is_one_read Model.GraphOperationFailed id
    (merge_sort by_id (filter ranked three)) add_rows) with (serves := healthy three).
  - by rewrite Hrows.
  - intros [s ranking]. unfold add_rows. simpl. by rewrite app_nil_r.
  - apply add_rows_app.
  - by intros l [s ranking].
  - intros c w. apply read_page_visits.
  - done.
  - lia.
  - rewrite Hrows. simpl. lia.
  - rewrite Hrows. repeat constructor; by vm_compute.
  - rewrite Hrows. repeat constructor; by vm_compute.
Defined.
End Influencers.
