(* ===== verification/Ranges.v ===== *)
(** * Ranges of sorted sets

    The order Redis keeps a sorted set in, and reads of it by score, newest first
    (nexus-common/src/db/kv/index/sorted_sets.rs over the pagination of
    nexus-common/src/types/pagination.rs). Scores are the integers that [f64] holds
    exactly. *)

From S2P Require Import Prelude.
Local Open Scope Z_scope.

Record Pagination := {
  skip : option nat;
  limit : option nat;
  start : option Z;
  end_ : option Z;
}.

(** By score, then member, descending. *)
Definition rank_ge (a b : string * Z) : Prop :=
  b.2 < a.2 ∨ (a.2 = b.2 ∧ str_le b.1 a.1).

#[export] Instance rank_ge_dec : RelDecision rank_ge.
Proof. intros a b. unfold rank_ge. apply _. Defined.

#[export] Instance rank_ge_trans : Transitive rank_ge.
Proof.
  intros a b c [H1|[H1 H1']] [H2|[H2 H2']]; unfold rank_ge;
    [left; lia|left; lia|left; lia|right; split; [lia|by etrans]].
Qed.

#[export] Instance rank_ge_total : Total rank_ge.
Proof.
  intros a b. unfold rank_ge. destruct (Z.lt_trichotomy a.2 b.2) as [?|[?|?]]; [auto| |auto].
  destruct (total str_le a.1 b.1); [right|left]; auto.
Qed.

#[export] Instance rank_ge_antisymm : AntiSymm (=) rank_ge.
Proof.
  intros [m s] [m' s'] [H1|[H1 H1']] [H2|[H2 H2']]; simpl in *; try lia.
  by rewrite H1, (anti_symm str_le m m').
Qed.

(** [start] bounds the scores from above, [end] from below; both are included. *)
Definition within (upper lower : option Z) (e : string * Z) : Prop :=
  (match upper with Some t => e.2 ≤ t | None => True end)
  ∧ (match lower with Some t => t ≤ e.2 | None => True end).

#[export] Instance within_dec upper lower e : Decision (within upper lower e).
Proof. unfold within. destruct upper, lower; apply _. Defined.

(** ZREVRANGEBYSCORE, all of it. *)
Definition rev_range (upper lower : option Z) (z : gmap string Z) : list (string * Z) :=
  filter (within upper lower) (merge_sort rank_ge (map_to_list z)).

(** [get_range], descending: no answer for a missing key. *)
Definition get_rev_range (upper lower : option Z) (skip limit : option nat) (z : gmap string Z) :
    option (list (string * Z)) :=
  if decide (z = ∅) then None
  else Some (take (default 1000%nat limit) (drop (default 0%nat skip) (rev_range upper lower z))).

(** Sorted lists of the same members are the same list. *)
Lemma ranked_unique (l l' : list (string * Z)) :
  StronglySorted rank_ge l → StronglySorted rank_ge l' → l ≡ₚ l' → l = l'.
Proof. intros Hl Hl' Hp. by apply (StronglySorted_unique rank_ge). Qed.

Lemma StronglySorted_sublist {A} (R : A → A → Prop) l l' : l `sublist_of` l' → StronglySorted R l' → StronglySorted R l.
Proof.
  intros Hl. induction Hl as [|x l l' Hl IH|x l l' Hl IH]; intros Hs; [done| |].
  - apply StronglySorted_inv in Hs as [Hs Hx]. constructor; [by apply IH|]. rewrite Forall_forall in Hx |- *.
    intros y Hy. apply Hx. by eapply elem_of_sublist.
  - apply StronglySorted_inv in Hs as [Hs _]. by apply IH.
Qed.

Lemma rev_range_sorted upper lower z : StronglySorted rank_ge (rev_range upper lower z).
Proof.
  unfold rev_range. generalize (StronglySorted_merge_sort rank_ge (map_to_list z)).
  induction 1 as [|e l Hl IH Hall]; [constructor|]. rewrite filter_cons. case_decide; [|done].
  constructor; [done|]. apply Forall_forall. intros x [_ Hx]%list_elem_of_filter.
  rewrite Forall_forall in Hall. auto.
Qed.

Lemma elem_of_rev_range upper lower z m s :
  (m, s) ∈ rev_range upper lower z ↔ within upper lower (m, s) ∧ z !! m = Some s.
Proof.
  unfold rev_range. rewrite list_elem_of_filter, merge_sort_Permutation, elem_of_map_to_list. done.
Qed.

Lemma rev_range_NoDup upper lower z : NoDup (rev_range upper lower z).
Proof.
  unfold rev_range. apply NoDup_filter. rewrite merge_sort_Permutation. apply NoDup_map_to_list.
Qed.

(** Maps that agree within the bounds have the same range. *)
Lemma rev_range_agree upper lower z z' :
  (∀ m s, within upper lower (m, s) → z !! m = Some s ↔ z' !! m = Some s) →
  rev_range upper lower z = rev_range upper lower z'.
Proof.
  intros Hz. apply ranked_unique; [apply rev_range_sorted..|].
  apply NoDup_Permutation; [apply rev_range_NoDup..|]. intros [m s].
  rewrite !elem_of_rev_range. split; intros [Hw Hm]; split; try done; by apply Hz.
Qed.
