(* ===== verification/Notifications.v ===== *)
(** * Notifications

    What nexus-common/src/models/notification/mod.rs stores for a user, and how it lists
    it: a page of the newest, or a page of those of some types, found by reading the
    sorted set in chunks while others may add to it. *)

From S2P Require Import Prelude Errors Ranges.
Local Open Scope Z_scope.

(** ** Bodies and their types *)

Inductive PostChangedSource :=
  | Reply | Repost | BookmarkSource | ReplyParent | RepostEmbed | TaggedPost.

Inductive PostChangedType := Edited | Deleted.

(** [Kind] is the specs' [PubkyAppPostKind]. *)
Inductive NotificationBody (Kind : Type) :=
  | FollowBody (followed_by : string)
  | NewFriend (followed_by : string)
  | LostFriend (unfollowed_by : string)
  | TagPost (tagged_by tag_label post_uri : string) (post_kind : Kind)
  | TagProfile (tagged_by tag_label : string)
  | UntagPost (untagged_by tag_label post_uri : string) (post_kind : Kind)
  | UntagProfile (untagged_by tag_label : string)
  | ReplyBody (replied_by parent_post_uri reply_uri : string) (post_kind : Kind)
  | RepostBody (reposted_by embed_uri repost_uri : string) (post_kind : Kind)
  | Mention (mentioned_by post_uri : string) (post_kind : Kind)
  | PostDeleted (delete_source : PostChangedSource) (deleted_by deleted_uri linked_uri : string)
      (post_kind : Kind)
  | PostEdited (edit_source : PostChangedSource) (edited_by edited_uri linked_uri : string)
      (post_kind : Kind).
Arguments FollowBody {Kind} _.
Arguments NewFriend {Kind} _.
Arguments LostFriend {Kind} _.
Arguments TagPost {Kind} _ _ _ _.
Arguments TagProfile {Kind} _ _.
Arguments UntagPost {Kind} _ _ _ _.
Arguments UntagProfile {Kind} _ _.
Arguments ReplyBody {Kind} _ _ _ _.
Arguments RepostBody {Kind} _ _ _ _.
Arguments Mention {Kind} _ _ _.
Arguments PostDeleted {Kind} _ _ _ _ _.
Arguments PostEdited {Kind} _ _ _ _ _.

Module NotificationType.
Inductive t :=
  | Follow | NewFriend | LostFriend | TagPost | TagProfile | UntagPost | UntagProfile
  | Reply | Repost | Mention | PostDeleted | PostEdited.

#[global] Instance t_eq_dec : EqDecision t.
Proof. solve_decision. Defined.

(** [FromStr] *)
Definition from_str (s : string) : result t string :=
  if decide (s = "follow") then Ok Follow
  else if decide (s = "new_friend") then Ok NewFriend
  else if decide (s = "lost_friend") then Ok LostFriend
  else if decide (s = "tag_post") then Ok TagPost
  else if decide (s = "tag_profile") then Ok TagProfile
  else if decide (s = "untag_post") then Ok UntagPost
  else if decide (s = "untag_profile") then Ok UntagProfile
  else if decide (s = "reply") then Ok Reply
  else if decide (s = "repost") then Ok Repost
  else if decide (s = "mention") then Ok Mention
  else if decide (s = "post_deleted") then Ok PostDeleted
  else if decide (s = "post_edited") then Ok PostEdited
  else Err ("unknown notification type: " +:+ s).

(** serde's [snake_case] names. *)
Definition name (x : t) : string :=
  match x with
  | Follow => "follow" | NewFriend => "new_friend" | LostFriend => "lost_friend"
  | TagPost => "tag_post" | TagProfile => "tag_profile" | UntagPost => "untag_post"
  | UntagProfile => "untag_profile" | Reply => "reply" | Repost => "repost"
  | Mention => "mention" | PostDeleted => "post_deleted" | PostEdited => "post_edited"
  end.

(** A query names exactly the types serde writes. *)
Lemma from_str_name s x : from_str s = Ok x ↔ s = name x.
Proof.
  split; [|intros ->; by destruct x].
  unfold from_str. repeat (case_decide; [by intros [= <-]|]). done.
Qed.
End NotificationType.

Definition notification_type {Kind} (body : NotificationBody Kind) : NotificationType.t :=
  match body with
  | FollowBody _ => NotificationType.Follow
  | NewFriend _ => NotificationType.NewFriend
  | LostFriend _ => NotificationType.LostFriend
  | TagPost _ _ _ _ => NotificationType.TagPost
  | TagProfile _ _ => NotificationType.TagProfile
  | UntagPost _ _ _ _ => NotificationType.UntagPost
  | UntagProfile _ _ => NotificationType.UntagProfile
  | ReplyBody _ _ _ _ => NotificationType.Reply
  | RepostBody _ _ _ _ => NotificationType.Repost
  | Mention _ _ _ => NotificationType.Mention
  | PostDeleted _ _ _ _ _ => NotificationType.PostDeleted
  | PostEdited _ _ _ _ _ => NotificationType.PostEdited
  end.

Record Notification (Kind : Type) := { timestamp : Z; body : NotificationBody Kind }.
Arguments timestamp {Kind} _.
Arguments body {Kind} _.

(** ** Listing *)

Definition NOTIFICATION_FILTER_CHUNK : nat := 500.
Definition NOTIFICATION_FILTER_MAX_SCAN : nat := Z.to_nat 10000.

Section Listing.
Context {W Kind : Type}.
(** serde's reading of a body. *)
Context (from_json : string → option (NotificationBody Kind)).
(** [try_from_index_sorted_set] on the user's notifications, descending: the bounds, the
    offset and the number of entries. *)
Context (read_range : option Z → option Z → nat → nat →
  prog W (result (option (list (string * Z))) Kv.RedisError)).
Local Open Scope nexus_scope.

(** A body that does not read back is left out. *)
Definition from_row (row : string * Z) : option (Notification Kind) :=
  (λ b, {| timestamp := row.2; body := b |}) <$> from_json row.1.

Definition get_by_id (pagination : Pagination) :
    prog W (result (list (Notification Kind)) Kv.RedisError) :=
  let skip := default 0%nat (skip pagination) in
  let limit := default 20%nat (limit pagination) in
  let? rows := read_range (start pagination) (end_ pagination) skip limit in
  ret (Ok (omap from_row (default [] rows))).

Definition wanted (types : list NotificationType.t) (n : Notification Kind) : Prop :=
  notification_type (body n) ∈ types.
#[local] Instance wanted_dec types n : Decision (wanted types n).
Proof. unfold wanted. apply _. Defined.

(** The inner loop, up to a full page. *)
Fixpoint keep (types : list NotificationType.t) (limit : nat) (ns : list (Notification Kind))
    (to_skip : nat) (found : list (Notification Kind)) : nat * list (Notification Kind) :=
  match ns with
  | [] => (to_skip, found)
  | n :: ns =>
      if decide (wanted types n) then
        match to_skip with
        | S to_skip => keep types limit ns to_skip found
        | O =>
            let found := found ++ [n] in
            if decide (length found = limit) then (O, found) else keep types limit ns O found
        end
      else keep types limit ns to_skip found
  end.

(** The outer loop: the page, the oldest score scanned, and whether the set ended;
    [None] when [fuel] runs out. *)
Fixpoint scan_types (fuel : nat) (types : list NotificationType.t) (lower : option Z) (limit : nat)
    (to_skip : nat) (upper : option Z) (found : list (Notification Kind)) (offset : nat)
    (oldest_scanned : option Z) :
    prog W (result (option (list (Notification Kind) * option Z * bool)) Kv.RedisError) :=
  match fuel with
  | O => ret (Ok None)
  | S fuel =>
      if decide (length found < limit ∧ offset < NOTIFICATION_FILTER_MAX_SCAN)%nat then
        let chunk := Nat.min NOTIFICATION_FILTER_CHUNK (NOTIFICATION_FILTER_MAX_SCAN - offset) in
        let? rows := read_range upper lower offset chunk in
        let rows := default [] rows in
        let read := length rows in
        let exhausted := bool_decide (read < chunk)%nat in
        let upper := match upper with Some t => Some t | None => snd <$> head rows end in
        let oldest_scanned :=
          match last rows with Some row => Some (snd row) | None => oldest_scanned end in
        let offset := (offset + read)%nat in
        let '(to_skip, found) := keep types limit (omap from_row rows) to_skip found in
        if exhausted then ret (Ok (Some (found, oldest_scanned, true)))
        else scan_types fuel types lower limit to_skip upper found offset oldest_scanned
      else ret (Ok (Some (found, oldest_scanned, false)))
  end.

(** [get_by_id_filtered]: the page, and where to resume from when the scan stopped short. *)
Definition get_by_id_filtered (fuel : nat) (pagination : Pagination)
    (types : list NotificationType.t) :
    prog W (result (option (list (Notification Kind) * option Z)) Kv.RedisError) :=
  let to_skip := default 0%nat (skip pagination) in
  let limit := default 20%nat (limit pagination) in
  let? scanned := scan_types fuel types (end_ pagination) limit to_skip (start pagination) [] O None in
  ret (Ok (match scanned with
           | None => None
           | Some (found, oldest_scanned, exhausted) =>
               let next_start :=
                 match oldest_scanned with
                 | Some score =>
                     if decide (length found < limit ∧ exhausted = false)%nat then Some (score - 1)
                     else None
                 | None => None
                 end in
               Some (found, next_start)
           end)).

(** ** The page, as one list *)

(** The notifications of the types among rows. *)
Definition matching (types : list NotificationType.t) (rows : list (string * Z)) :
    list (Notification Kind) :=
  filter (wanted types) (omap from_row rows).

Definition page_of (types : list NotificationType.t) (skip limit : nat) (rows : list (string * Z)) :
    list (Notification Kind) :=
  take limit (drop skip (matching types rows)).

Lemma keep_spec types limit ns to_skip found :
  (length found < limit)%nat →
  keep types limit ns to_skip found
  = ((to_skip - length (filter (wanted types) ns))%nat,
     take limit (found ++ drop to_skip (filter (wanted types) ns))).
Proof.
  revert to_skip found. induction ns as [|n ns IH]; intros to_skip found Hlen; cbn [keep].
  - rewrite filter_nil, drop_nil, app_nil_r, take_ge by lia. simpl. by rewrite Nat.sub_0_r.
  - rewrite filter_cons. case_decide as Hn; [|by apply IH].
    destruct to_skip as [|to_skip]; [|by rewrite IH].
    rewrite length_app. simpl. case_decide as Hfull.
    + f_equal. cbn [drop]. rewrite (cons_middle n found (filter _ _)), app_assoc.
      by rewrite take_app_length' by (rewrite length_app; simpl; lia).
    + rewrite IH by (rewrite length_app; simpl; lia). simpl.
      by rewrite drop_0, <- app_assoc.
Qed.
End Listing.

(** ** A set that grows while it is read *)

(** What the set holds, and what is added after each of the coming reads. *)
Record Feed := { stored : gmap string Z; arrivals : list (list (string * Z)) }.

Definition add_all (batch : list (string * Z)) (z : gmap string Z) : gmap string Z :=
  foldl (λ z '(m, s), <[m := s]> z) z batch.

Definition read_feed (upper lower : option Z) (offset count : nat) :
    prog Feed (result (option (list (string * Z))) Kv.RedisError) := λ w,
  (Ok (get_rev_range upper lower (Some offset) (Some count) (stored w)),
   match arrivals w with
   | [] => w
   | batch :: later => {| stored := add_all batch (stored w); arrivals := later |}
   end).

Section Growing.
Context {Kind : Type} (from_json : string → option (NotificationBody Kind)).
Context (start lower : option Z) (z0 : gmap string Z).

Definition snapshot : list (string * Z) := rev_range start lower z0.

(** The upper bound the scan keeps to: the one asked for, or the newest score. *)
Definition top : option Z := match start with Some t => Some t | None => snd <$> head snapshot end.

(** What arrives is new, and newer than the bound. *)
Definition late (w : Feed) : Prop :=
  ∀ t batch m s, top = Some t → batch ∈ arrivals w → (m, s) ∈ batch → z0 !! m = None ∧ t < s.

Definition agrees (t : Z) (z : gmap string Z) : Prop :=
  ∀ m s, s ≤ t → z !! m = Some s ↔ z0 !! m = Some s.

Lemma add_all_agrees t batch z :
  agrees t z → (∀ m s, (m, s) ∈ batch → z0 !! m = None ∧ t < s) → agrees t (add_all batch z).
Proof.
  revert z. induction batch as [|[m' s'] batch IH]; intros z Hz Hb; simpl; [done|].
  apply IH; [|intros m s Hin; apply Hb; by right].
  destruct (Hb m' s' (list_elem_of_here _ _)) as [Hnew Hlate]. intros m s Hs.
  destruct (decide (m = m')) as [->|Hne]; [|by rewrite lookup_insert_ne; [apply Hz|]].
  rewrite lookup_insert_eq, Hnew. split; [intros [= ->]; lia|done].
Qed.

Definition inv (upper : option Z) (offset : nat) (w : Feed) : Prop :=
  late w ∧ (upper = start ∧ offset = O ∧ stored w = z0
            ∨ ∃ t, top = Some t ∧ upper = Some t ∧ agrees t (stored w)).

Lemma inv_reads upper offset w : inv upper offset w → rev_range upper lower (stored w) = snapshot.
Proof.
  intros [_ [(-> & _ & ->)|(t & Htop & -> & Hag)]]; [done|].
  trans (rev_range (Some t) lower z0).
  { apply rev_range_agree. intros m s [Ht _]. by apply Hag. }
  unfold top in Htop. unfold snapshot in *. destruct start as [t'|]; [by injection Htop as ->|].
  apply ranked_unique; [apply rev_range_sorted..|].
  apply NoDup_Permutation; [apply rev_range_NoDup..|]. intros [m s]. rewrite !elem_of_rev_range.
  split; intros [[Hu Hl] Hm]; (split; [split|done]); try done. simpl.
  assert ((m, s) ∈ rev_range None lower z0) as Hin by (by apply elem_of_rev_range).
  pose proof (rev_range_sorted None lower z0) as Hs.
  destruct (rev_range None lower z0) as [|[m' s'] l]; [done|]. simpl in Htop. injection Htop as <-.
  apply elem_of_cons in Hin as [[= -> ->]|Hin]; [done|].
  apply StronglySorted_inv in Hs as [_ Hall]. rewrite Forall_forall in Hall.
  destruct (Hall _ Hin) as [Hlt|[Heq _]]; simpl in *; lia.
Qed.

Lemma inv_next upper offset chunk w :
  (0 < chunk)%nat → inv upper offset w → take chunk (drop offset snapshot) ≠ [] →
  let rows := take chunk (drop offset snapshot) in
  inv (match upper with Some t => Some t | None => snd <$> head rows end) (offset + length rows)
      (snd (read_feed upper lower offset chunk w)).
Proof.
  intros Hchunk [Hlate Hst] Hne rows.
  assert (∃ t, top = Some t
    ∧ match upper with Some t => Some t | None => snd <$> head rows end = Some t
    ∧ agrees t (stored w)) as (t & Htop & -> & Hag).
  { destruct Hst as [(-> & -> & Hz)|(t & Htop & -> & Hag)]; [|by exists t].
    rewrite Hz. unfold top, rows. rewrite drop_0 in Hne |- *. destruct start as [t|].
    { exists t. by split; [|split]. }
    destruct snapshot as [|[m s] l]; [by rewrite take_nil in Hne|]. destruct chunk; [lia|].
    exists s. split; [done|]. by split. }
  unfold read_feed. simpl. destruct (arrivals w) as [|batch later] eqn:Harr.
  - split; [done|]. right. by exists t.
  - split; [intros t' b m s Ht' Hb; apply (Hlate t' b m s Ht'); rewrite Harr; by right|].
    right. exists t. split; [done|]. split; [done|]. apply add_all_agrees; [done|].
    intros m s Hin. apply (Hlate t batch m s Htop); [rewrite Harr; by left|done].
Qed.

Lemma read_feed_rows upper offset chunk w :
  inv upper offset w →
  ∃ rows, fst (read_feed upper lower offset chunk w) = Ok rows
    ∧ default [] rows = take chunk (drop offset snapshot).
Proof.
  intros Hinv. eexists. split; [done|]. unfold get_rev_range.
  rewrite (inv_reads _ _ _ Hinv). case_decide as Hemp; [|done].
  rewrite <- (inv_reads _ _ _ Hinv), Hemp. unfold rev_range. rewrite map_to_list_empty. simpl.
  by destruct offset, chunk.
Qed.

Context (types : list NotificationType.t) (skip limit : nat).

Local Abbreviation page rows := (page_of from_json types skip limit rows).
Local Abbreviation MAX := NOTIFICATION_FILTER_MAX_SCAN.

Lemma matching_app rows rows' :
  matching from_json types (rows ++ rows') = matching from_json types rows ++ matching from_json types rows'.
Proof. unfold matching. by rewrite omap_app, filter_app. Qed.

(** A full page is not changed by reading on. *)
Lemma page_full n n' :
  (n ≤ n')%nat → (limit ≤ length (page (take n snapshot)))%nat →
  page (take n snapshot) = page (take n' snapshot).
Proof.
  intros Hn Hfull. replace (take n' snapshot) with (take n snapshot ++ take (n' - n) (drop n snapshot)).
  2: { rewrite take_take_drop. f_equal. lia. }
  unfold page_of in *. rewrite matching_app. rewrite length_take in Hfull.
  rewrite drop_app. rewrite take_app_le by lia. done.
Qed.

Lemma page_grows n chunk found to_skip :
  found = page (take n snapshot) → (length found < limit)%nat →
  to_skip = (skip - length (matching from_json types (take n snapshot)))%nat →
  let rows := take chunk (drop n snapshot) in
  keep types limit (omap (from_row from_json) rows) to_skip found
  = ((skip - length (matching from_json types (take (n + length rows) snapshot)))%nat,
     page (take (n + length rows) snapshot)).
Proof.
  intros Hfound Hlen Hskip rows. rewrite keep_spec by done.
  assert (take (n + length rows) snapshot = take n snapshot ++ rows) as Htake.
  { rewrite <- (take_take_drop snapshot). f_equal. unfold rows. rewrite length_take.
    destruct (le_lt_dec chunk (length (drop n snapshot))) as [Hc|Hc]; [by rewrite Nat.min_l by done|].
    rewrite Nat.min_r by lia. by rewrite !take_ge by lia. }
  rewrite Htake. unfold page_of in *. rewrite !matching_app, length_app, drop_app. f_equal.
  - rewrite Hskip. unfold matching. lia.
  - rewrite Hfound, Hskip. rewrite Hfound in Hlen. rewrite length_take in Hlen.
    rewrite (take_ge (drop skip _)) by lia. done.
Qed.
Local Abbreviation CHUNK := NOTIFICATION_FILTER_CHUNK.

Lemma chunk_pos : (0 < CHUNK)%nat.
Proof. unfold NOTIFICATION_FILTER_CHUNK. lia. Qed.

#[local] Opaque NOTIFICATION_FILTER_CHUNK NOTIFICATION_FILTER_MAX_SCAN.

(** What the scan ends with, in one piece. *)
Definition scanned (outcome : result (option (list (Notification Kind) * option Z * bool)) Kv.RedisError) :
    Prop :=
  let whole := page (take MAX snapshot) in
  ∃ oldest exhausted, outcome = Ok (Some (whole, oldest, exhausted))
    ∧ ((length whole < limit)%nat →
         exhausted = bool_decide (length snapshot < MAX)%nat
         ∧ (exhausted = false → oldest = snd <$> last (take MAX snapshot))).

Lemma scan_feed fuel upper offset found to_skip oldest w :
  inv upper offset w → (offset ≤ length snapshot)%nat → (offset ≤ MAX)%nat →
  (MAX + CHUNK ≤ offset + CHUNK * fuel)%nat →
  found = page (take offset snapshot) →
  to_skip = (skip - length (matching from_json types (take offset snapshot)))%nat →
  oldest = snd <$> last (take offset snapshot) →
  scanned (fst (scan_types from_json read_feed fuel types lower limit to_skip upper found offset oldest w)).
Proof.
  pose proof chunk_pos as Hpos. revert upper offset found to_skip oldest w.
  induction fuel as [|fuel IH]; intros upper offset found to_skip oldest w Hinv Hoff Hmax Hfuel
    Hfound Hskip Hold; [lia|].
  cbn [scan_types]. case_decide as Hgo.
  2: { exists oldest, false. simpl. destruct (decide (offset = MAX)) as [->|Hne].
       { rewrite Hfound. split; [done|]. intros _. split; [|done]. symmetry. apply bool_decide_eq_false_2. lia. }
       rewrite <- (page_full offset MAX) by (rewrite <- ?Hfound; lia). rewrite <- Hfound. split; [done|]. lia. }
  set (chunk := Nat.min CHUNK (MAX - offset)). assert (chunk = Nat.min CHUNK (MAX - offset)) as Hmin by done.
  assert (0 < chunk)%nat as Hchunk by lia.
  destruct (read_feed_rows upper offset chunk w Hinv) as (rows & Hread & Hrows).
  unfold ebind. rewrite (surjective_pairing (read_feed upper lower offset chunk w)), Hread, Hrows.
  rewrite (page_grows offset chunk found to_skip) by tauto.
  set (new := take chunk (drop offset snapshot)) in *.
  assert (length new = Nat.min chunk (length snapshot - offset)) as Hnew
    by (unfold new; by rewrite length_take, length_drop).
  assert (take (offset + length new) snapshot = take offset snapshot ++ new) as Htake.
  { rewrite <- (take_take_drop snapshot). f_equal. unfold new. rewrite length_take.
    destruct (le_lt_dec chunk (length (drop offset snapshot))) as [Hc|Hc]; [by rewrite Nat.min_l by done|].
    rewrite Nat.min_r by lia. by rewrite !take_ge by lia. }
  case_bool_decide as Hend.
  - assert (take (offset + length new) snapshot = take MAX snapshot) as -> by (rewrite !take_ge by lia; done).
    eexists _, true. split; [done|]. intros _. split; [|done]. symmetry. apply bool_decide_eq_true_2. lia.
  - assert (new ≠ []) as Hne by (intros Heq%(f_equal length); simpl in Heq; lia).
    apply IH; [by apply inv_next|lia|lia| |done|done|].
    + destruct fuel as [|fuel]; lia.
    + rewrite Htake. destruct (last new) as [r|] eqn:Hlast; [|by apply last_None in Hlast].
      by rewrite last_app, Hlast.
Qed.
End Growing.


Module Example_notifications.
Definition from_json (s : string) : option (NotificationBody unit) :=
  match strip_prefix "f" s, strip_prefix "m" s with
  | Some u, _ => Some (FollowBody u)
  | _, Some u => Some (Mention u "post" ())
  | _, _ => None
  end.

Definition feed : Feed := {|
  stored := {["fann" := 10; "mbob" := 20; "?" := 25; "fcat" := 30; "mdan" := 30]};
  arrivals := [[("feve", 40)]; [("mfay", 41); ("feve", 42)]];
|}.

Definition second_mention : Pagination :=
  {| skip := Some 1%nat; limit := Some 1%nat; start := None; end_ := Some 15 |}.

End Example_notifications.
