(* ===== verification/Events.v ===== *)
(** * Events: from a homeserver's line to an actionable event

    nexus-watcher/src/events/event.rs. The URI grammar belongs to the
    pubky-app-specs crate: [Specs] is what the watcher asks of it, a parser and a
    renderer of addresses and the accessors of a parsed address. *)

From Stdlib Require Import Ascii.
From S2P Require Import Prelude Errors.

(** ** Addresses *)

(** [pubky_app_specs::Resource], by the variants the code matches on. *)
Inductive Resource :=
  | User
  | Post (id : string)
  | Follow (id : string)
  | Mute (id : string)
  | Bookmark (id : string)
  | Tag (id : string)
  | File (id : string)
  | LastRead
  | Feed (id : string)
  | Blob (id : string)
  | Unknown.

Class Specs := {
  (** [ExtendedParsedUri] *)
  ExtendedParsedUri : Type;
  (** [ExtendedParsedUri::try_from] *)
  parse_uri : string → result ExtendedParsedUri string;
  (** [ExtendedParsedUri::try_to_uri_str] *)
  try_to_uri_str : ExtendedParsedUri → result string string;
  uri_user_id : ExtendedParsedUri → string;
  uri_resource : ExtendedParsedUri → Resource;
  (** [Some app] for the [UniversalTag] variant, [None] for [PubkyApp] *)
  uri_app : ExtendedParsedUri → option string;
}.

(** ** Events *)

Inductive EventType := Put | Del.

#[export] Instance EventType_eq_dec : EqDecision EventType.
Proof. solve_decision. Defined.

Definition EventType_to_string (t : EventType) : string :=
  match t with Put => "PUT" | Del => "DEL" end.

(** [pubky::EventType] *)
Inductive SdkEventType := SdkPut | SdkDelete.

Definition from_sdk_event_type (t : SdkEventType) : EventType :=
  match t with SdkPut => Put | SdkDelete => Del end.

(** [str::split_once(' ')] *)
Fixpoint split_once_space (s : string) : option (string * string) :=
  match s with
  | "" => None
  | String c s' =>
      if decide (c = " "%char) then Some ("", s')
      else '(l, r) ← split_once_space s'; Some (String c l, r)
  end.

Section Events.
Context `{Specs}.

Record Event := {
  uri : string;
  event_type : EventType;
  parsed_uri : ExtendedParsedUri;
  event_line : string;
}.

Inductive ParseResult :=
  | Parsed (event : Event)
  | Skipped
  | UnrecognizedUri (event_type : EventType) (uri reason : string).

Definition parse_event_parts (event_type : EventType) (uri event_line : string) :
    result ParseResult Ep.EventProcessorError :=
  match parse_uri uri with
  | Err e => Ok (UnrecognizedUri event_type uri e)
  | Ok parsed_uri =>
      let canonical_check :=
        match try_to_uri_str parsed_uri with
        | Ok canonical =>
            if decide (canonical = uri) then
              Ok (Parsed {| uri := uri; event_type := event_type;
                            parsed_uri := parsed_uri; event_line := event_line |})
            else Ok (UnrecognizedUri event_type uri "non-canonical path")
        | Err _ => Ok (UnrecognizedUri event_type uri "non-canonical path")
        end in
      match uri_app parsed_uri, uri_resource parsed_uri with
      | None, Unknown => Err (Ep.InvalidEventLine ("Unknown resource in URI: " +:+ uri))
      | None, (LastRead | Feed _ | Blob _) => Ok Skipped
      | _, _ => canonical_check
      end
  end.

Definition parse_event (line : string) : result ParseResult Ep.EventProcessorError :=
  match split_once_space line with
  | None => Err (Ep.InvalidEventLine ("Malformed event line, " +:+ line))
  | Some (kind, uri) =>
      if decide (kind = "PUT") then parse_event_parts Put uri line
      else if decide (kind = "DEL") then parse_event_parts Del uri line
      else Err (Ep.InvalidEventLine ("Unknown event type: " +:+ kind))
  end.

(** One event of a per-user stream ([HsStreamEvent], homeserver/client.rs): the
    owner and the URI both come from one resource. *)
Record HsStreamEvent := {
  stream_event_type : EventType;
  cursor : Z;
  owner : string;
  stream_uri : string;
}.

Definition from_stream_event (stream_event : HsStreamEvent) :
    result (option Event) Ep.EventProcessorError :=
  let event_type := stream_event_type stream_event in
  let uri := stream_uri stream_event in
  let event_line := EventType_to_string event_type +:+ " " +:+ uri in
  match parse_event_parts event_type uri event_line with
  | Err e => Err e
  | Ok (Parsed event) => Ok (Some event)
  | Ok Skipped => Ok None
  | Ok (UnrecognizedUri _ _ _) => Ok None
  end.

Definition to_event_line (e : Event) : string := event_line e.

(** The line the retry processor rebuilds a stored event from. *)
Definition display_line (t : EventType) (uri : string) : string :=
  EventType_to_string t +:+ " " +:+ uri.

(** *** Properties *)

Lemma split_once_space_app l r :
  " "%char ∉ String.list_ascii_of_string l →
  split_once_space (l +:+ " " +:+ r) = Some (l, r).
Proof.
  induction l as [|c l IH]; simpl; [done|]. intros Hc.
  rewrite decide_False by set_solver. rewrite IH by set_solver. done.
Qed.

Lemma split_once_space_Some s l r :
  split_once_space s = Some (l, r) → s = l +:+ " " +:+ r.
Proof.
  revert l. induction s as [|c s IH]; intros l; simpl; [done|].
  case_decide; [by intros [= <- <-]; subst|].
  destruct (split_once_space s) as [[l' r']|]; [|done].
  intros [= <- <-]. by rewrite (IH l' eq_refl).
Qed.

(** A rendered line is parsed as the type and URI it was rendered from. *)
Lemma parse_event_display_line t u :
  parse_event (display_line t u) = parse_event_parts t u (display_line t u).
Proof.
  unfold parse_event, display_line. rewrite split_once_space_app
    by (destruct t; apply (bool_decide_eq_true_1 _); reflexivity).
  by destruct t.
Qed.

(** a line "PUT <uri>" or "DEL <uri>" is read back as exactly that type and
    URI, whatever the URI contains (spaces included), and gives the same event as
    the per-user stream gives for them. *)
Theorem parse_event_roundtrip t u :
  parse_event (display_line t u) = parse_event_parts t u (display_line t u)
  ∧ from_stream_event {| stream_event_type := t; cursor := 0; owner := ""; stream_uri := u |}
    = match parse_event (display_line t u) with
      | Ok (Parsed e) => Ok (Some e)
      | Ok _ => Ok None
      | Err e => Err e
      end.
Proof.
  rewrite parse_event_display_line. split; [done|]. unfold from_stream_event. simpl.
  unfold display_line. by destruct (parse_event_parts _ _ _) as [[]|].
Qed.

Lemma parse_event_parts_Parsed t u line e :
  parse_event_parts t u line = Ok (Parsed e) →
  uri e = u ∧ event_type e = t ∧ event_line e = line
  ∧ parse_uri u = Ok (parsed_uri e) ∧ try_to_uri_str (parsed_uri e) = Ok u.
Proof.
  unfold parse_event_parts. intros He. repeat (case_match || case_decide); by simplify_eq/=.
Qed.

Lemma parse_event_line line e :
  parse_event line = Ok (Parsed e) → line = display_line (event_type e) (uri e).
Proof.
  unfold parse_event. destruct (split_once_space line) as [[k u]|] eqn:Hs; [|done].
  apply split_once_space_Some in Hs as ->.
  repeat case_decide; subst; try done;
    intros (Hu & Ht & _)%parse_event_parts_Parsed; by rewrite Hu, Ht.
Qed.

(** an accepted event carries the one address its resource renders to, it is
    rebuilt unchanged from its type and URI, and no two accepted events of the
    same resource have different URIs, so an alias path can neither overwrite nor
    delete a resource. *)
Theorem accepted_events_are_canonical line e :
  parse_event line = Ok (Parsed e) →
  try_to_uri_str (parsed_uri e) = Ok (uri e)
  ∧ parse_event (display_line (event_type e) (uri e)) = Ok (Parsed e)
  ∧ (∀ line' e', parse_event line' = Ok (Parsed e') →
       parsed_uri e' = parsed_uri e → uri e' = uri e).
Proof.
  assert (∀ line e, parse_event line = Ok (Parsed e) →
    try_to_uri_str (parsed_uri e) = Ok (uri e)) as Hcanon.
  { intros l e0 Hl. pose proof (parse_event_line _ _ Hl) as ->.
    rewrite parse_event_display_line in Hl. by apply parse_event_parts_Parsed in Hl as (_ & _ & _ & _ & ?). }
  intros Hl. split_and!; [eauto| |].
  - by rewrite <- (parse_event_line _ _ Hl).
  - intros l' e' Hl' Heq. apply Hcanon in Hl, Hl'. rewrite Heq in Hl'. congruence.
Qed.

(** Resources Nexus does not index never reach a handler. *)
Lemma accepted_events_are_indexed line e :
  parse_event line = Ok (Parsed e) → uri_app (parsed_uri e) = None →
  match uri_resource (parsed_uri e) with
  | Unknown | LastRead | Feed _ | Blob _ => False
  | _ => True
  end.
Proof.
  intros Hl Happ. pose proof (parse_event_line _ _ Hl) as ->.
  rewrite parse_event_display_line in Hl. pose proof (parse_event_parts_Parsed _ _ _ _ Hl) as (_ & _ & _ & Hp & _).
  unfold parse_event_parts in Hl. rewrite Hp, Happ in Hl. by destruct (uri_resource _).
Qed.
End Events.

(** A small concrete address grammar, for the witnesses: posts only. *)
Definition toy_specs : Specs := {|
  ExtendedParsedUri := string;
  parse_uri := λ s, Ok s;
  try_to_uri_str := λ s, Ok s;
  uri_user_id := λ s, String.substring 0 1 s;
  uri_resource := λ s, Post s;
  uri_app := λ _, None;
|}.

Lemma accepted_events_are_canonical_witness :
  ∃ e : @Event toy_specs, parse_event "PUT a/my file" = Ok (Parsed e)
    ∧ uri e = "a/my file"
    ∧ try_to_uri_str (Specs := toy_specs) (parsed_uri e) = Ok "a/my file".
Proof.
  eexists. split; [vm_compute; reflexivity|]. split; [reflexivity|].
  apply (accepted_events_are_canonical "PUT a/my file"). vm_compute. reflexivity.
Defined.
