(* ===== verification/Backoff.v ===== *)
(** * Backoff: how long the watcher leaves a failing peer alone

    Three in-memory backoff tables and the retry queue's backoff formula:
    [HomeserverBackoff] (nexus-watcher/src/service/runner/key_based_hs_backoff.rs),
    [UserNotFoundBackoff] (…/runner/key_based_user_backoff.rs),
    [UnboundBackoff] (…/service/user_hs_resolver.rs) and
    [calculate_backoff] (…/events/retry/processor.rs).
    Instants and durations are integers of nanoseconds. *)

From S2P Require Import Prelude.
Local Open Scope Z_scope.

Definition ns_per_sec : Z := 1000000000.
Definition from_secs (s : Z) : Z := s * ns_per_sec.

(** ** The retry queue's exponential backoff *)

Module RetryBackoff.

Definition calculate_backoff (retry_count initial max : Z) : Z :=
  let exponential :=
    default max (p ← checked_pow_u64 2 retry_count; checked_mul_u64 initial p) in
  exponential `min` max.

End RetryBackoff.

(** ** Per-homeserver backoff *)

Module HomeserverBackoff.

Record BackoffState := {
  next_backoff_secs : Z;
  backoff_until : Z;
}.

Record HomeserverBackoff := {
  initial_backoff_secs : Z;
  max_backoff_secs : Z;
  state : gmap string BackoffState;
}.

(** [None] is the panic on an invalid configuration. *)
Definition new (initial_backoff_secs max_backoff_secs : Z) : option HomeserverBackoff :=
  if decide (initial_backoff_secs > max_backoff_secs) then None
  else Some {| initial_backoff_secs := initial_backoff_secs;
               max_backoff_secs := max_backoff_secs;
               state := ∅ |}.

Definition set_state (b : HomeserverBackoff) (m : gmap string BackoffState) :=
  {| initial_backoff_secs := initial_backoff_secs b;
     max_backoff_secs := max_backoff_secs b;
     state := m |}.

Definition should_skip (b : HomeserverBackoff) (hs_id : string) (now : Z) : bool :=
  match state b !! hs_id with
  | Some bs => bool_decide (now < backoff_until bs)
  | None => false
  end.

Definition record_success (b : HomeserverBackoff) (hs_id : string) : HomeserverBackoff :=
  set_state b (delete hs_id (state b)).

(** [t0] is the clock read for a fresh entry, [now] the one for the window. *)
Definition record_failure (b : HomeserverBackoff) (hs_id : string) (t0 now : Z) :
    HomeserverBackoff :=
  let entry := default {| next_backoff_secs := initial_backoff_secs b;
                          backoff_until := t0 |} (state b !! hs_id) in
  let backoff_secs := next_backoff_secs entry in
  set_state b
    (<[hs_id := {| next_backoff_secs := wrap_u64 (backoff_secs * 2) `min` max_backoff_secs b;
                   backoff_until := now + from_secs backoff_secs |}]> (state b)).

(** A history of run results, as the external runner records them. *)
Inductive event :=
  | Succeeded (hs_id : string)
  | Failed (hs_id : string) (t0 now : Z).

Definition record (b : HomeserverBackoff) (e : event) : HomeserverBackoff :=
  match e with
  | Succeeded hs => record_success b hs
  | Failed hs t0 now => record_failure b hs t0 now
  end.

(** The abstract table: consecutive failures since the last success, and the
    instant of the last one. *)
Definition streak (hs : string) (acc : option (nat * Z)) (e : event) : option (nat * Z) :=
  match e with
  | Succeeded hs' => if decide (hs = hs') then None else acc
  | Failed hs' _ now =>
      if decide (hs = hs') then
        Some (match acc with Some (n, _) => S n | None => 1%nat end, now)
      else acc
  end.

Definition window_secs (initial max : Z) (failures : nat) : Z :=
  (initial * 2 ^ (Z.of_nat failures - 1)) `min` max.

End HomeserverBackoff.

(** ** Per-user backoff after HTTP 404 *)

Module UserNotFoundBackoff.

Definition MAX_FAILURES : Z := 10.

Record BackoffEntry := {
  consecutive_failures : Z;
  skips_remaining : Z;
}.

(** Keyed by public key. *)
Abbreviation UserNotFoundBackoff := (gmap string BackoffEntry).

Definition consume_skip (user_pk : string) : prog UserNotFoundBackoff bool := λ m,
  match m !! user_pk with
  | Some entry =>
      if decide (0 < skips_remaining entry) then
        (true, <[user_pk := {| consecutive_failures := consecutive_failures entry;
                               skips_remaining := skips_remaining entry - 1 |}]> m)
      else (false, m)
  | None => (false, m)
  end.

Definition record_failure (user_pk : string) (m : UserNotFoundBackoff) : UserNotFoundBackoff :=
  let entry := default {| consecutive_failures := 0; skips_remaining := 0 |} (m !! user_pk) in
  let failures := wrap_u32 (consecutive_failures entry + 1) `min` MAX_FAILURES in
  <[user_pk := {| consecutive_failures := failures; skips_remaining := failures |}]> m.

Definition record_success (user_pk : string) (m : UserNotFoundBackoff) : UserNotFoundBackoff :=
  delete user_pk m.

(** One run of the external loop for a user whose fetch returns 404 whenever it
    is made: [true] when the fetch was skipped. *)
Definition not_found_run (user_pk : string) : prog UserNotFoundBackoff bool := λ m,
  let '(skipped, m') := consume_skip user_pk m in
  (skipped, if skipped then m' else record_failure user_pk m').

(** [n] such runs in a row. *)
Fixpoint not_found_runs (n : nat) (user_pk : string) : prog UserNotFoundBackoff (list bool) :=
  λ m,
  match n with
  | O => ([], m)
  | S n =>
      let '(skipped, m') := not_found_run user_pk m in
      let '(rest, m'') := not_found_runs n user_pk m' in
      (skipped :: rest, m'')
  end.

(** The intended schedule: the [i]-th failing fetch is followed by [min i 10]
    skipped runs. *)
Definition cycle (i : nat) : list bool := false :: replicate (i `min` 10) true.
Definition schedule (j : nat) : list bool := concat (cycle <$> seq 1 j).

End UserNotFoundBackoff.

(** ** Backoff of users that publish no homeserver *)

Module UnboundBackoff.

Definition UNBOUND_RETRY_INITIAL : Z := from_secs 60.

(** [Duration::MAX] and [Duration::saturating_mul]. *)
Definition duration_max : Z := from_secs u64_max + 999999999.
Definition saturating_mul (d : Z) (k : Z) : Z := (d * k) `min` duration_max.

Record UnboundEntry := {
  next_attempt : Z;
  wait : Z;
}.

Abbreviation UnboundBackoff := (gmap string UnboundEntry).

Definition is_due (entries : UnboundBackoff) (now : Z) (user_id : string) : bool :=
  match entries !! user_id with
  | Some entry => bool_decide (next_attempt entry ≤ now)
  | None => true
  end.

Definition retain_due (user_ids : list string) (now : Z) (entries : UnboundBackoff) :
    list string * UnboundBackoff :=
  let entries' := filter (λ '(user_id, _), user_id ∈ user_ids) entries in
  (filter (is_due entries' now) user_ids, entries').

Definition record_unbound (user_id : string) (now ttl : Z) (entries : UnboundBackoff) :
    UnboundBackoff :=
  let wait :=
    match entries !! user_id with
    | Some entry => saturating_mul (wait entry) 2
    | None => UNBOUND_RETRY_INITIAL
    end `min` ttl in
  <[user_id := {| next_attempt := now + wait; wait := wait |}]> entries.

Definition clear (user_id : string) (entries : UnboundBackoff) : UnboundBackoff :=
  delete user_id entries.

End UnboundBackoff.

(** ** Properties *)

Lemma pow2_pos n : 0 ≤ n → 1 ≤ 2 ^ n.
Proof. intros. pose proof (Z.pow_pos_nonneg 2 n). lia. Qed.

Lemma pow2_succ (n : nat) : 2 ^ (Z.of_nat (S n) - 1) = 2 ^ Z.of_nat n.
Proof. f_equal. lia. Qed.

(** Doubling a capped power and capping again is capping the next power. *)
Lemma min_double a b max : 0 ≤ max → b = a * 2 → (a `min` max * 2) `min` max = b `min` max.
Proof. lia. Qed.

Section RetryBackoff_properties.
Import RetryBackoff.

(** the wait before retry [n] of an event is [initial * 2^n] capped at [max],
    with no overflow for any retry count and any 64-bit configuration. *)
Theorem calculate_backoff_exact retry_count initial max :
  0 ≤ retry_count → 0 < initial → 0 ≤ max ≤ u64_max →
  calculate_backoff retry_count initial max = (initial * 2 ^ retry_count) `min` max.
Proof.
  intros Hn Hi Hm. unfold calculate_backoff, checked_pow_u64, checked_mul_u64.
  pose proof (pow2_pos retry_count Hn).
  case_decide; simpl; [case_decide; simpl; [done|lia]|].
  rewrite Z.min_id, Z.min_r; [done|]. nia.
Qed.

Lemma calculate_backoff_exact_witness :
  calculate_backoff 3 60 3600 = 480 ∧ calculate_backoff 200 10 3600 = 3600.
Proof.
  split.
  - rewrite calculate_backoff_exact by (vm_compute; intuition congruence). reflexivity.
  - rewrite calculate_backoff_exact by (vm_compute; intuition congruence). reflexivity.
Defined.
End RetryBackoff_properties.

Section HomeserverBackoff_properties.
Import HomeserverBackoff.

(** The concrete table [b] stores what the abstract history [h] says. *)
Definition agrees (b : HomeserverBackoff) (h : string → option (nat * Z)) : Prop :=
  ∀ hs, state b !! hs =
    (λ '(n, t), {| next_backoff_secs :=
                     window_secs (initial_backoff_secs b) (max_backoff_secs b) (S n);
                   backoff_until :=
                     t + from_secs (window_secs (initial_backoff_secs b)
                                      (max_backoff_secs b) n) |}) <$> h hs.

Definition positive_streaks (h : string → option (nat * Z)) : Prop :=
  ∀ hs n t, h hs = Some (n, t) → (1 ≤ n)%nat.

Lemma window_step initial max n :
  0 ≤ initial → initial ≤ max < 2 ^ 63 → (1 ≤ n)%nat →
  wrap_u64 (window_secs initial max n * 2) `min` max = window_secs initial max (S n).
Proof.
  intros Hi Hm Hn. unfold window_secs.
  rewrite wrap_u64_id.
  - apply min_double; [lia|]. rewrite pow2_succ.
    destruct n as [|n]; [lia|].
    rewrite pow2_succ, Nat2Z.inj_succ, Z.pow_succ_r by lia. lia.
  - pose proof (pow2_pos (Z.of_nat n - 1)). unfold u64_max. nia.
Qed.

Lemma window_one initial max : initial ≤ max → window_secs initial max 1 = initial.
Proof. intros. unfold window_secs. simpl. lia. Qed.

Lemma record_agrees b h e :
  0 ≤ initial_backoff_secs b → initial_backoff_secs b ≤ max_backoff_secs b < 2 ^ 63 →
  agrees b h → positive_streaks h →
  agrees (record b e) (λ hs, streak hs (h hs) e)
  ∧ positive_streaks (λ hs, streak hs (h hs) e).
Proof.
  intros Hi Hm Hag Hpos. split.
  - intros hs. destruct e as [hs'|hs' t0 now]; simpl.
    + case_decide as Heq; simplify_map_eq; [done|]. apply Hag.
    + case_decide as Heq; simplify_map_eq; [|apply Hag].
      rewrite (Hag hs'). destruct (h hs') as [[n t]|] eqn:Hh; simpl; do 2 f_equal.
      * apply window_step; eauto.
      * rewrite <- (window_step _ _ 1), window_one by (done || lia). done.
      * rewrite window_one by lia. done.
  - intros hs n t. destruct e as [hs'|hs' t0 now]; simpl; case_decide; try done; eauto.
    destruct (h hs) as [[n' t']|] eqn:Hh; intros [= <- <-]; [|lia].
    specialize (Hpos _ _ _ Hh). lia.
Qed.

Lemma records_agree es b h :
  0 ≤ initial_backoff_secs b → initial_backoff_secs b ≤ max_backoff_secs b < 2 ^ 63 →
  agrees b h → positive_streaks h →
  agrees (foldl record b es) (λ hs, foldl (streak hs) (h hs) es).
Proof.
  revert b h. induction es as [|e es IH]; intros b h Hi Hm Hag Hpos; simpl; [done|].
  destruct (record_agrees b h e) as [Hag' Hpos']; try done.
  refine (IH (record b e) (λ hs, streak hs (h hs) e) _ _ Hag' Hpos'); by destruct e.
Qed.

(** after any history of run results, a homeserver is skipped exactly while
    the clock is before the end of the window opened by its last failure, and
    that window is [initial * 2^(n-1)] seconds capped at [max], [n] being its
    consecutive failures since its last success; other homeservers' results
    and the code's doubling counter do not matter, and nothing overflows. *)
Theorem homeserver_backoff_refines_streaks initial max b es hs now :
  0 ≤ initial → max < 2 ^ 63 → new initial max = Some b →
  should_skip (foldl record b es) hs now =
    match foldl (streak hs) None es with
    | Some (n, t) => bool_decide (now < t + from_secs (window_secs initial max n))
    | None => false
    end.
Proof.
  intros Hi Hm Hnew. unfold new in Hnew. case_decide; simplify_eq.
  pose proof (records_agree es {| initial_backoff_secs := initial;
    max_backoff_secs := max; state := ∅ |} (λ _, None)) as Hag.
  assert (∀ b', initial_backoff_secs (foldl record b' es) = initial_backoff_secs b'
                ∧ max_backoff_secs (foldl record b' es) = max_backoff_secs b') as Hcfg.
  { clear. induction es as [|e es IH]; intros b'; [done|].
    simpl. destruct (IH (record b' e)) as [-> ->]. by destruct e. }
  unfold should_skip. rewrite Hag; try done; try (simpl; lia).
  destruct (Hcfg {| initial_backoff_secs := initial;
    max_backoff_secs := max; state := ∅ |}) as [-> ->].
  simpl. by destruct (foldl (streak hs) None es) as [[n t]|].
Qed.

Lemma homeserver_backoff_refines_streaks_witness :
  ∃ b, new 60 3600 = Some b ∧
    should_skip (foldl record b [Failed "a" 0 0; Failed "b" 5 5; Failed "a" 7 (from_secs 60)])
      "a" (from_secs 179) = true.
Proof.
  eexists. split; [reflexivity|].
  erewrite (homeserver_backoff_refines_streaks 60 3600); [reflexivity|lia|lia|reflexivity].
Defined.
End HomeserverBackoff_properties.

Section UserNotFoundBackoff_properties.
Import UserNotFoundBackoff.

Implicit Types (m : UserNotFoundBackoff) (u : string).

(** Failures recorded for [u], 0 without an entry. *)
Definition failures m u : Z := default 0 (consecutive_failures <$> m !! u).
Definition skips m u : Z := default 0 (skips_remaining <$> m !! u).

Lemma not_found_runs_app a b u m :
  not_found_runs (a + b) u m =
    let '(xs, m') := not_found_runs a u m in
    let '(ys, m'') := not_found_runs b u m' in (xs ++ ys, m'').
Proof.
  revert m. induction a as [|a IH]; intros m; simpl.
  - by destruct (not_found_runs b u m).
  - destruct (not_found_run u m) as [x m1]. rewrite IH.
    destruct (not_found_runs a u m1) as [xs m2].
    by destruct (not_found_runs b u m2).
Qed.

Lemma not_found_run_skip u m e :
  m !! u = Some e → 0 < skips_remaining e →
  not_found_run u m =
    (true, <[u := {| consecutive_failures := consecutive_failures e;
                     skips_remaining := skips_remaining e - 1 |}]> m).
Proof.
  intros He Hs. unfold not_found_run, consume_skip. rewrite He.
  by rewrite decide_True by done.
Qed.

Lemma not_found_run_fetch u m :
  skips m u = 0 → not_found_run u m = (false, record_failure u m).
Proof.
  unfold not_found_run, consume_skip, skips. intros Hs.
  destruct (m !! u) as [e|]; simpl in *; [|done].
  by rewrite decide_False by lia.
Qed.

Lemma not_found_runs_skipping n u m e :
  m !! u = Some e → skips_remaining e = Z.of_nat n →
  not_found_runs n u m =
    (replicate n true,
     <[u := {| consecutive_failures := consecutive_failures e; skips_remaining := 0 |}]> m).
Proof.
  revert m e. induction n as [|n IH]; intros m e He Hs; simpl.
  - rewrite insert_id; [done|]. rewrite He. destruct e; simpl in *. by subst.
  - rewrite (not_found_run_skip _ _ _ He) by lia.
    erewrite IH; [|by rewrite lookup_insert_eq|simpl; lia].
    by rewrite insert_insert_eq.
Qed.

(** One failing fetch and the skipped runs it causes. *)
Lemma not_found_cycle i u m :
  skips m u = 0 → failures m u = Z.of_nat i `min` MAX_FAILURES →
  ∃ m', not_found_runs (length (cycle (S i))) u m = (cycle (S i), m')
        ∧ skips m' u = 0 ∧ failures m' u = Z.of_nat (S i) `min` MAX_FAILURES
        ∧ ∀ u', u' ≠ u → m' !! u' = m !! u'.
Proof.
  intros Hs Hf. unfold cycle, MAX_FAILURES in *. rewrite length_cons, length_replicate.
  cbn [not_found_runs]. rewrite not_found_run_fetch by done.
  set (f := Z.of_nat (S i) `min` 10).
  assert (record_failure u m =
    <[u := {| consecutive_failures := f; skips_remaining := f |}]> m) as ->.
  { unfold record_failure, failures, MAX_FAILURES in *.
    assert (wrap_u32 (default 0 (consecutive_failures <$> m !! u) + 1) `min` 10 = f) as <-
      by (rewrite wrap_u32_id; unfold u32_max; lia).
    by destruct (m !! u). }
  erewrite not_found_runs_skipping; [|by rewrite lookup_insert_eq|simpl; lia].
  rewrite insert_insert_eq. eexists. split; [reflexivity|].
  unfold skips, failures. rewrite lookup_insert_eq.
  split_and!; [done|done|]. intros. by simplify_map_eq.
Qed.

Lemma schedule_S j : schedule (S j) = schedule j ++ cycle (S j).
Proof.
  unfold schedule. rewrite seq_S, fmap_app, concat_app. simpl. by rewrite app_nil_r.
Qed.

(** while a user's events keep returning 404, the fetches follow the
    schedule "fetch, skip 1 run, fetch, skip 2 runs, ..., at most 10" for any
    number of cycles, and no other user's entry changes. *)
Theorem not_found_schedule j u m :
  m !! u = None →
  ∃ m', not_found_runs (length (schedule j)) u m = (schedule j, m')
        ∧ failures m' u = Z.of_nat j `min` MAX_FAILURES
        ∧ (∀ u', u' ≠ u → m' !! u' = m !! u').
Proof.
  intros Hnone.
  cut (∃ m', not_found_runs (length (schedule j)) u m = (schedule j, m')
        ∧ skips m' u = 0 ∧ failures m' u = Z.of_nat j `min` MAX_FAILURES
        ∧ (∀ u', u' ≠ u → m' !! u' = m !! u')); [|].
  { intros (m' & ? & ? & ? & ?). eauto. }
  induction j as [|j (m1 & Hrun & Hs & Hf & Hother)].
  - exists m. unfold skips, failures. rewrite Hnone. done.
  - rewrite schedule_S, length_app, not_found_runs_app, Hrun.
    destruct (not_found_cycle j u m1) as (m2 & Hcyc & Hs' & Hf' & Hother'); [done..|].
    rewrite Hcyc. exists m2. repeat split; try done.
    intros u' Hu. rewrite Hother', Hother; done.
Qed.

Lemma not_found_schedule_witness :
  ∃ m', not_found_runs 5 "u" (∅ : UserNotFoundBackoff) = ([false; true; false; true; true], m').
Proof.
  destruct (not_found_schedule 2 "u" ∅) as (m' & H & _); [reflexivity|].
  exists m'. exact H.
Defined.

(** A successful fetch ends the backoff at once. *)
Lemma record_success_clears u m :
  consume_skip u (record_success u m) = (false, record_success u m).
Proof. unfold consume_skip, record_success. by rewrite lookup_delete_eq. Qed.
End UserNotFoundBackoff_properties.

Section UnboundBackoff_properties.
Import UnboundBackoff.

Implicit Types (entries : UnboundBackoff).

(** [k] empty lookups in a row at the instants [ts], oldest first. *)
Definition record_unbounds (user_id : string) (ttl : Z) (ts : list Z) entries :=
  foldl (λ es t, record_unbound user_id t ttl es) entries ts.

Lemma record_unbound_step user_id t ttl entries e w :
  0 ≤ ttl ≤ from_secs u64_max → entries !! user_id = Some e → 0 ≤ w →
  wait e = w `min` ttl →
  record_unbound user_id t ttl entries =
    <[user_id := {| next_attempt := t + (w * 2) `min` ttl; wait := (w * 2) `min` ttl |}]> entries.
Proof.
  intros Httl He Hw Hwait. unfold record_unbound. rewrite He, Hwait.
  assert (saturating_mul (w `min` ttl) 2 `min` ttl = (w * 2) `min` ttl) as ->
    by (unfold saturating_mul, duration_max; lia).
  done.
Qed.

(** after [k] consecutive empty lookups an unbound user waits
    [60 s * 2^(k-1)], capped at the resolution TTL, from the last lookup. *)
Theorem record_unbound_doubles user_id ttl ts t entries :
  0 ≤ ttl ≤ from_secs u64_max → entries !! user_id = None →
  let w := (UNBOUND_RETRY_INITIAL * 2 ^ Z.of_nat (length ts)) `min` ttl in
  record_unbounds user_id ttl (ts ++ [t]) entries !! user_id =
    Some {| next_attempt := t + w; wait := w |}.
Proof.
  intros Httl Hnone. simpl. unfold record_unbounds. rewrite foldl_app. simpl.
  revert t. induction ts as [|t' ts IH] using rev_ind; intros t.
  - simpl. unfold record_unbound. rewrite Hnone. by simplify_map_eq.
  - rewrite foldl_app. simpl. specialize (IH t').
    erewrite (record_unbound_step _ _ _ _ _
      (UNBOUND_RETRY_INITIAL * 2 ^ Z.of_nat (length ts))); [|done|exact IH| |done].
    + rewrite lookup_insert_eq, length_app. simpl.
      rewrite Nat2Z.inj_add, Z.pow_add_r by lia.
      by rewrite Z.pow_1_r, Z.mul_assoc.
    + pose proof (pow2_pos (Z.of_nat (length ts))).
      unfold UNBOUND_RETRY_INITIAL, from_secs, ns_per_sec. nia.
Qed.

Lemma record_unbound_doubles_witness :
  record_unbounds "u" (from_secs 3600) [0; 1; 2; 3] ∅ !! "u" =
    Some {| next_attempt := 3 + from_secs 480; wait := from_secs 480 |}.
Proof.
  apply (record_unbound_doubles "u" (from_secs 3600) [0; 1; 2] 3 ∅);
    [vm_compute; intuition congruence|reflexivity].
Defined.

Lemma is_due_filter (user_ids : list string) now entries u :
  u ∈ user_ids →
  is_due (filter (λ '(user_id, _), user_id ∈ user_ids) entries) now u = is_due entries now u.
Proof.
  intros Hu. unfold is_due. destruct (entries !! u) as [e|] eqn:He.
  - by rewrite (map_lookup_filter_Some_2 _ _ _ e).
  - by rewrite map_lookup_filter_None_2 by (by left).
Qed.

(** a resolver tick keeps exactly the users whose wait is over, in their
    order, and the table never outgrows the users of the tick, so entries of
    users that were bound or deleted since are forgotten. *)
Theorem retain_due_exact (user_ids : list string) now entries :
  let '(kept, entries') := retain_due user_ids now entries in
  kept = filter (is_due entries now) user_ids
  ∧ (∀ u, entries' !! u = if decide (u ∈ user_ids) then entries !! u else None)
  ∧ (size entries' ≤ length user_ids)%nat.
Proof.
  simpl. split_and!.
  - apply filter_ext_in. intros u Hu. by rewrite is_due_filter.
  - intros u. case_decide as Hu.
    + destruct (entries !! u) as [e|] eqn:He.
      * by apply map_lookup_filter_Some_2.
      * apply map_lookup_filter_None_2. by left.
    + apply map_lookup_filter_None_2. by right.
  - transitivity (size (list_to_set user_ids : gset string)).
    + rewrite <- size_dom. apply subseteq_size. intros u [e Hu]%elem_of_dom.
      apply map_lookup_filter_Some in Hu as [_ Hu]. by apply elem_of_list_to_set.
    + apply size_list_to_set_le.
Qed.
End UnboundBackoff_properties.
