(* ===== verification/ResumePoints.v ===== *)
(** * Resume points: whose turn it is on a homeserver

    nexus-watcher/src/service/runner/key_based_user_resume.rs. A run over the users
    of an external homeserver may stop at its time budget; [UserResumePoints]
    remembers the user the next run starts from. Users are pairs of a public key (as
    z32 text) and an event cursor; keys are ordered as [str]. *)

From S2P Require Import Prelude.

Module UserResumePoints.

Abbreviation User := (string * Z)%type (only parsing).

(** Homeserver id to the key of the user its next run starts from. *)
Abbreviation UserResumePoints := (gmap string string).

Definition key_le (u v : User) : Prop := str_le (fst u) (fst v).

#[global] Instance key_le_dec : RelDecision key_le.
Proof. intros u v. unfold key_le. apply _. Defined.

#[global] Instance key_le_total : Total key_le.
Proof. intros u v. apply (total str_le). Qed.

#[global] Instance key_le_trans : Transitive key_le.
Proof. intros u v w. apply (transitivity (R := str_le)). Qed.

(** [slice::partition_point]: where the predicate stops holding. *)
Fixpoint partition_point {A} (p : A → bool) (l : list A) : nat :=
  match l with
  | [] => 0
  | x :: l => if p x then S (partition_point p l) else 0
  end.

(** [slice::rotate_left] *)
Definition rotate_left {A} (l : list A) (mid : nat) : list A := drop mid l ++ take mid l.

Definition str_lt (s1 s2 : string) : bool := bool_decide (str_le s1 s2 ∧ s1 ≠ s2).

Definition order (hs_id : string) (users : list User) (inner : UserResumePoints) : list User :=
  let users := merge_sort key_le users in
  match inner !! hs_id with
  | None => users
  | Some resume_at =>
      rotate_left users (partition_point (λ u, str_lt (fst u) resume_at) users)
  end.

(** [None] is the panic on an empty list (a remainder by zero). *)
Definition record_stop_after (hs_id : string) (users : list User) (index : nat)
    (inner : UserResumePoints) : option UserResumePoints :=
  '(next_user_pk, _) ← users !! ((index + 1) `mod` length users)%nat;
  Some (<[hs_id := next_user_pk]> inner).

Definition record_full_pass (hs_id : string) (inner : UserResumePoints) : UserResumePoints :=
  delete hs_id inner.

(** A run that stops at its budget after its [c]-th user: whom it reached, and the
    resume points it leaves. *)
Definition turn (hs_id : string) (users : list User) (c : nat) (inner : UserResumePoints) :
    option (list User * UserResumePoints) :=
  let users := order hs_id users inner in
  inner' ← record_stop_after hs_id users (c - 1) inner;
  Some (take c users, inner').

(** Such runs one after the other. *)
Fixpoint turns (hs_id : string) (users : list User) (cs : list nat)
    (inner : UserResumePoints) : option (list User * UserResumePoints) :=
  match cs with
  | [] => Some ([], inner)
  | c :: cs =>
      '(served, inner) ← turn hs_id users c inner;
      '(rest, inner) ← turns hs_id users cs inner;
      Some (served ++ rest, inner)
  end.

End UserResumePoints.

Section UserResumePoints_properties.
Import UserResumePoints.

Implicit Types (users : list (string * Z)) (inner : gmap string string).

Lemma rotate_left_perm {A} (l : list A) k : rotate_left l k ≡ₚ l.
Proof. unfold rotate_left. by rewrite (Permutation_app_comm _ _), take_drop. Qed.

Lemma str_lt_le s1 s2 : str_lt s1 s2 = negb (bool_decide (str_le s2 s1)).
Proof.
  unfold str_lt. destruct (total str_le s1 s2) as [H|H].
  - destruct (decide (s1 = s2)) as [->|Hne].
    + rewrite (bool_decide_eq_false_2 (_ ∧ _)) by tauto.
      by rewrite bool_decide_eq_true_2.
    + rewrite bool_decide_eq_true_2 by done. rewrite bool_decide_eq_false_2; [done|].
      intros H'. by apply Hne, (anti_symm str_le).
  - destruct (decide (s1 = s2)) as [->|Hne].
    + rewrite (bool_decide_eq_false_2 (_ ∧ _)) by tauto.
      by rewrite bool_decide_eq_true_2.
    + rewrite (bool_decide_eq_true_2 (str_le s2 s1)) by done.
      rewrite bool_decide_eq_false_2; [done|].
      intros [H' _]. by apply Hne, (anti_symm str_le).
Qed.

Lemma partition_point_le {A} (p : A → bool) l : (partition_point p l ≤ length l)%nat.
Proof. induction l as [|x l IH]; simpl; [done|]. destruct (p x); lia. Qed.

(** On a list sorted by key, the partition point of a present key is its place. *)
Lemma partition_point_lookup users k u :
  StronglySorted key_le users → NoDup (users.*1) → users !! k = Some u →
  partition_point (λ v, str_lt (fst v) (fst u)) users = k.
Proof.
  intros Hs. revert k. induction Hs as [|x users Hs IH Hx]; intros k Hnd Hk; [done|].
  rewrite fmap_cons, NoDup_cons in Hnd. destruct Hnd as [Hnin Hnd].
  destruct k as [|k]; simpl in *.
  - simplify_eq. rewrite str_lt_le, bool_decide_eq_true_2; [done|].
    by destruct (total str_le (fst u) (fst u)).
  - apply list_elem_of_lookup_2 in Hk as Hin.
    assert (str_lt (fst x) (fst u) = true) as ->.
    { unfold str_lt. apply bool_decide_eq_true_2. split.
      - rewrite Forall_forall in Hx. by apply Hx.
      - intros Heq. apply Hnin. rewrite Heq. apply list_elem_of_fmap. eauto. }
    f_equal. by apply IH.
Qed.

Lemma rotate_left_lookup {A} (l : list A) k i :
  (k < length l)%nat → (i < length l)%nat →
  rotate_left l k !! i = l !! ((k + i) `mod` length l)%nat.
Proof.
  intros Hk Hi. unfold rotate_left. destruct (decide (k + i < length l)%nat) as [Hlt|Hge].
  - rewrite lookup_app_l by (rewrite length_drop; lia).
    by rewrite lookup_drop, Nat.mod_small by lia.
  - rewrite lookup_app_r by (rewrite length_drop; lia).
    rewrite length_drop, lookup_take_lt by lia.
    f_equal. replace (k + i)%nat with (i - (length l - k) + 1 * length l)%nat by lia.
    rewrite Nat.Div0.mod_add, Nat.mod_small; lia.
Qed.

Lemma rotate_left_length {A} (l : list A) k : length (rotate_left l k) = length l.
Proof. apply Permutation_length, rotate_left_perm. Qed.

(** The order of a run is a rotation of the users sorted by key, wherever the
    resume point is and whether or not its user is still there. *)
Lemma order_rotation hs users inner :
  users ≠ [] →
  ∃ k, (k < length users)%nat ∧ order hs users inner = rotate_left (merge_sort key_le users) k.
Proof.
  intros Hne. assert (0 < length users)%nat by (destruct users; simpl; [done|lia]).
  assert (length (merge_sort key_le users) = length users) as Hlen
    by apply Permutation_length, merge_sort_Permutation.
  unfold order. destruct (inner !! hs) as [r|].
  - set (k := partition_point _ _).
    pose proof (partition_point_le (λ u, str_lt u.1 r) (merge_sort key_le users)) as Hk.
    fold k in Hk. destruct (decide (k = length users)) as [Heq|Hneq].
    + exists 0%nat. split; [done|]. unfold rotate_left. rewrite Heq, <- Hlen.
      by rewrite drop_all, firstn_all, drop_0, take_0, app_nil_r.
    + exists k. split; [lia|done].
  - exists 0%nat. split; [done|]. unfold rotate_left. by rewrite drop_0, take_0, app_nil_r.
Qed.

(** The users of a run are the users listed for it, each once. *)
Lemma order_perm hs users inner : order hs users inner ≡ₚ users.
Proof.
  unfold order. destruct (inner !! hs); [rewrite rotate_left_perm|]; apply merge_sort_Permutation.
Qed.

Lemma turn_step hs users inner k c :
  NoDup (users.*1) → (k < length users)%nat →
  order hs users inner = rotate_left (merge_sort key_le users) k →
  (1 ≤ c ≤ length users)%nat →
  ∃ inner', turn hs users c inner
            = Some (take c (rotate_left (merge_sort key_le users) k), inner')
    ∧ order hs users inner'
      = rotate_left (merge_sort key_le users) ((k + c) `mod` length users)%nat.
Proof.
  intros Hnd Hk Ho Hc. set (s := merge_sort key_le users) in *.
  assert (s ≡ₚ users) as Hp by apply merge_sort_Permutation.
  assert (length s = length users) as Hlen by by apply Permutation_length.
  assert (((k + c) `mod` length users < length users)%nat) as Hmod
    by (apply Nat.mod_upper_bound; lia).
  destruct (lookup_lt_is_Some_2 s ((k + c) `mod` length users)) as [u Hu]; [by rewrite Hlen|].
  assert (rotate_left s k !! (c `mod` length users)%nat = Some u) as Hnext.
  { rewrite rotate_left_lookup by (rewrite Hlen; done || (apply Nat.mod_upper_bound; lia)).
    by rewrite Hlen, Nat.Div0.add_mod_idemp_r. }
  unfold turn. rewrite Ho. unfold record_stop_after.
  rewrite rotate_left_length, Hlen, Nat.sub_add by lia. rewrite Hnext.
  destruct u as [pk cur]. simpl. eexists. split; [done|].
  unfold order. rewrite lookup_insert_eq. fold s. f_equal.
  apply (partition_point_lookup s _ (pk, cur)); [| |done].
  - by apply StronglySorted_merge_sort; apply _.
  - by rewrite Hp.
Qed.

(** C39: runs cut short at their budget serve a homeserver's users round-robin in key
    order, starting wherever the resume point is, each run going on where the
    previous one stopped; so once they have served as many turns as there are
    users, every user was served. *)
Theorem budget_cut_runs_reach_every_user hs users cs inner :
  NoDup (users.*1) → users ≠ [] → Forall (λ c, 1 ≤ c ≤ length users)%nat cs →
  ∃ served inner' k,
    turns hs users cs inner = Some (served, inner')
    ∧ length served = sum_list cs
    ∧ (∀ i, (i < sum_list cs)%nat →
         served !! i = merge_sort key_le users !! ((k + i) `mod` length users)%nat)
    ∧ ((length users ≤ sum_list cs)%nat → ∀ u, u ∈ users → u ∈ served).
Proof.
  intros Hnd Hne Hcs.
  destruct (order_rotation hs users inner Hne) as (k & Hk & Ho).
  assert (length (merge_sort key_le users) = length users) as Hlen
    by apply Permutation_length, merge_sort_Permutation.
  cut (∃ served inner', turns hs users cs inner = Some (served, inner')
    ∧ length served = sum_list cs
    ∧ (∀ i, (i < sum_list cs)%nat →
         served !! i = merge_sort key_le users !! ((k + i) `mod` length users)%nat)).
  { intros (served & inner' & Hrun & Hl & Hi). exists served, inner', k. split_and!; try done.
    intros Hsum u Hu. rewrite <- (merge_sort_Permutation key_le users) in Hu.
    apply list_elem_of_lookup in Hu as [j Hj]. pose proof (lookup_lt_Some _ _ _ Hj).
    apply (list_elem_of_lookup_2 _ ((j + length users - k) `mod` length users)%nat).
    rewrite Hi by (pose proof (Nat.mod_upper_bound (j + length users - k) (length users)); lia).
    rewrite Nat.Div0.add_mod_idemp_r, <- Hj. f_equal.
    replace (k + (j + length users - k))%nat with (j + 1 * length users)%nat by lia.
    rewrite Nat.Div0.mod_add, Nat.mod_small; lia. }
  revert inner k Hk Ho. induction Hcs as [|c cs Hc Hcs IH]; intros inner k Hk Ho; simpl.
  { exists [], inner. split_and!; [done..|]. intros; lia. }
  destruct (turn_step hs users inner k c) as (inner1 & Ht & Ho1); [done..|].
  rewrite Ht. simpl.
  destruct (IH inner1 ((k + c) `mod` length users)%nat) as (rest & inner2 & Hrest & Hl & Hi);
    [apply Nat.mod_upper_bound; lia|done|].
  rewrite Hrest. simpl. eexists _, _. split_and!; [done| |].
  - rewrite length_app, length_take, rotate_left_length, Hl. lia.
  - intros i Hlt. destruct (decide (i < c)%nat) as [Hic|Hic].
    + rewrite lookup_app_l by (rewrite length_take, rotate_left_length; lia).
      rewrite lookup_take_lt, rotate_left_lookup by lia. by rewrite Hlen.
    + rewrite lookup_app_r by (rewrite length_take, rotate_left_length; lia).
      rewrite length_take, rotate_left_length, Hlen, Nat.min_l by lia.
      rewrite Hi, Nat.Div0.add_mod_idemp_l by lia. do 2 f_equal. lia.
Qed.

Lemma budget_cut_runs_reach_every_user_witness :
  ∃ served inner',
    turns "hs" [("c", 0%Z); ("a", 4%Z); ("b", 0%Z)] [1; 2]%nat {["hs" := "b"]}
      = Some (served, inner') ∧ ("a", 4%Z) ∈ served.
Proof.
  destruct (budget_cut_runs_reach_every_user "hs" [("c", 0%Z); ("a", 4%Z); ("b", 0%Z)]
    [1; 2]%nat {["hs" := "b"]}) as (served & inner' & k & Hrun & _ & _ & Hall).
  - by apply (bool_decide_eq_true_1 _).
  - done.
  - repeat constructor.
  - exists served, inner'. split; [exact Hrun|]. apply Hall; [simpl; lia|set_solver].
Defined.
End UserResumePoints_properties.
