(* ===== verification/Redis.v ===== *)
(** * Redis: the server, its failures, and the typed access layer

    nexus-common/src/db/kv/index/json.rs and sorted_sets.rs, the functions the
    watcher's state goes through. The server is a parameter: [RedisServer] has one
    operation per command and two observers (JSON documents, sorted sets), and
    [RedisLaws] states what the commands document. A [Session] adds the ways a call
    fails: no connection, a command that was refused, a command that ran but whose
    reply was lost. Scores are the integers the code stores, as doubles. *)

From Stdlib Require Import Ascii.
From S2P Require Import Prelude Errors.
Local Open Scope Z_scope.

(** ** The server *)

Class RedisServer (D : Type) := {
  json_doc : D → string → option string;
  zset : D → string → gmap string Z;
  (** The reply of JSON.GET for a path, on a stored document. *)
  json_reply : string → string → string;
  JSON_SET : string → string → string → D → D;
  JSON_GET : string → string → D → option string;
  JSON_MGET : list string → string → D → list (option string);
  JSON_DEL : string → D → D;
  DEL : list string → D → D;
  EXISTS : string → D → bool;
  ZADD : string → Z → string → D → D;
  ZADD_NX : string → Z → string → D → D;
  ZREM : string → string → D → D;
  ZSCORE : string → string → D → option Z;
  (** key, min, max, offset, count *)
  ZRANGEBYSCORE : string → Z → Z → Z → Z → D → list (string * Z);
}.

(** Members by (score, member). *)
Definition member_le (a b : string * Z) : Prop :=
  snd a < snd b ∨ (snd a = snd b ∧ str_le (fst a) (fst b)).

#[export] Instance member_le_dec : RelDecision member_le.
Proof. intros a b. unfold member_le. apply _. Defined.

Definition in_range (lo hi : Z) (z : gmap string Z) : list (string * Z) :=
  merge_sort member_le (filter (λ '(_, s), lo ≤ s ≤ hi) (map_to_list z)).

Definition exact_score (s : Z) : Prop := Z.abs s ≤ 2 ^ 53.

Class RedisLaws (D : Type) `{RedisServer D} := {
  json_set_doc d k p k' : zset d k = ∅ →
    json_doc (JSON_SET k "$" p d) k' = if decide (k' = k) then Some p else json_doc d k';
  json_set_zset d k p k' : zset d k = ∅ → zset (JSON_SET k "$" p d) k' = zset d k';
  json_get d k path : JSON_GET k path d = json_reply path <$> json_doc d k;
  (** A lookup of missing keys may be answered with an empty list. *)
  json_mget d ks path : ks ≠ [] →
    JSON_MGET ks path d = (λ k, JSON_GET k path d) <$> ks
    ∨ (JSON_MGET ks path d = [] ∧ Forall (λ k, json_doc d k = None) ks);
  json_del_doc d k k' :
    json_doc (JSON_DEL k d) k' = if decide (k' = k) then None else json_doc d k';
  json_del_zset d k k' : zset d k = ∅ → zset (JSON_DEL k d) k' = zset d k';
  del_doc d ks k' :
    json_doc (DEL ks d) k' = if decide (k' ∈ ks) then None else json_doc d k';
  del_zset d ks k' : zset (DEL ks d) k' = if decide (k' ∈ ks) then ∅ else zset d k';
  exists_doc d k : json_doc d k ≠ None → EXISTS k d = true;
  exists_zset d k : zset d k ≠ ∅ → EXISTS k d = true;
  zadd_zset d k s x k' : json_doc d k = None → exact_score s →
    zset (ZADD k s x d) k' = if decide (k' = k) then <[x := s]> (zset d k) else zset d k';
  zadd_doc d k s x k' : json_doc d k = None → json_doc (ZADD k s x d) k' = json_doc d k';
  zadd_nx_zset d k s x k' : json_doc d k = None → exact_score s →
    zset (ZADD_NX k s x d) k' =
      if decide (k' = k) then
        match zset d k !! x with Some _ => zset d k | None => <[x := s]> (zset d k) end
      else zset d k';
  zadd_nx_doc d k s x k' : json_doc d k = None → json_doc (ZADD_NX k s x d) k' = json_doc d k';
  zrem_zset d k x k' :
    zset (ZREM k x d) k' = if decide (k' = k) then delete x (zset d k) else zset d k';
  zrem_doc d k x k' : json_doc (ZREM k x d) k' = json_doc d k';
  zscore d k x : json_doc d k = None → (∀ s, zset d k !! x = Some s → exact_score s) →
    ZSCORE k x d = zset d k !! x;
  zrangebyscore d k lo hi off count : json_doc d k = None → 0 ≤ off → 0 ≤ count →
    ZRANGEBYSCORE k lo hi off count d =
      take (Z.to_nat count) (drop (Z.to_nat off) (in_range lo hi (zset d k)));
}.

(** ** Calls and their failures *)

Inductive Trip :=
  | Served
  | Refused (e : Kv.DriverError)
  | ReplyLost (e : Kv.DriverError).

(** What the coming connection requests and commands will meet; a call past the
    end of a list is served. *)
Record Session (D : Type) := {
  db : D;
  conns : list (option Kv.RedisError);
  trips : list Trip;
}.
Arguments db {D} _.
Arguments conns {D} _.
Arguments trips {D} _.

Section Calls.
Context {D : Type}.

Definition get_redis_conn : prog (Session D) (result unit Kv.RedisError) := λ s,
  match conns s with
  | [] => (Ok tt, s)
  | None :: cs => (Ok tt, {| db := db s; conns := cs; trips := trips s |})
  | Some e :: cs => (Err e, {| db := db s; conns := cs; trips := trips s |})
  end.

(** One round trip: a command, a MULTI/EXEC pipeline or a Lua script. *)
Definition query {A} (cmd : prog D A) : prog (Session D) (result A Kv.RedisError) := λ s,
  let '(a, d) := cmd (db s) in
  match trips s with
  | [] => (Ok a, {| db := d; conns := conns s; trips := [] |})
  | Served :: ts => (Ok a, {| db := d; conns := conns s; trips := ts |})
  | Refused e :: ts =>
      (Err (Kv.from_redis e), {| db := db s; conns := conns s; trips := ts |})
  | ReplyLost e :: ts =>
      (Err (Kv.from_redis e), {| db := d; conns := conns s; trips := ts |})
  end.

Lemma yields_conn s (Q : unit → Session D → Prop) (R : Kv.RedisError → Session D → Prop) :
  (∀ s', db s' = db s → Q tt s') → (∀ e s', db s' = db s → R e s') →
  yields get_redis_conn s Q R.
Proof.
  unfold yields, get_redis_conn. intros HQ HR.
  destruct (conns s) as [|[e|] cs]; [by apply HQ|by apply HR|by apply HQ].
Qed.

Lemma yields_query {A} (cmd : prog D A) s (Q : A → Session D → Prop)
    (R : Kv.RedisError → Session D → Prop) :
  (∀ s', db s' = snd (cmd (db s)) → Q (fst (cmd (db s))) s') →
  (∀ e s', db s' = db s ∨ db s' = snd (cmd (db s)) → R e s') →
  yields (query cmd) s Q R.
Proof.
  unfold yields, query. intros HQ HR. destruct (cmd (db s)) as [a d]. simpl in *.
  destruct (trips s) as [|[|e|e] ts]; [by apply HQ|by apply HQ|apply HR; auto|apply HR; auto].
Qed.
End Calls.

Definition reads {D A} (f : D → A) : prog D A := λ d, (f d, d).
Definition updates {D} (f : D → D) : prog D unit := λ d, (tt, f d).

Lemma yields_reads {D A} (f : D → A) s (Q : A → Session D → Prop)
    (R : Kv.RedisError → Session D → Prop) :
  (∀ s', db s' = db s → Q (f (db s)) s') → (∀ e s', db s' = db s → R e s') →
  yields (query (reads f)) s Q R.
Proof. intros HQ HR. apply yields_query; simpl; [auto|]. intros e s' [?|?]; auto. Qed.

Ltac redis_step :=
  match goal with
  | |- yields (ebind _ _) _ _ _ => apply yields_ebind
  | |- yields (emap_err _ _) _ _ _ => apply yields_emap_err
  | |- yields get_redis_conn _ _ _ => apply yields_conn
  | |- yields (query (reads _)) _ _ _ => apply yields_reads
  | |- yields (query _) _ _ _ => apply yields_query
  | |- yields (ret _) _ _ _ => apply yields_ret
  end.

(** ** JSON documents: json.rs *)

Section Json.
Context {D : Type} `{RedisServer D}.
Local Open Scope nexus_scope.

(** [serde_json::from_str::<Vec<T>>] *)
Context {T : Type} (from_json : string → result (list T) string).

Definition from_json_str (s : string) : result (list T) Kv.RedisError :=
  map_err Kv.DeserializationFailed (from_json s).

Definition full_key (prefix key : string) : string := prefix +:+ ":" +:+ key.

Definition json_get_value (prefix key : string) :
    prog (Session D) (result (option T) Kv.RedisError) :=
  let? _ := get_redis_conn in
  let? indexed_value := query (reads (JSON_GET (full_key prefix key) "$")) in
  ret match indexed_value with
      | Some s => match from_json_str s with Ok value => Ok (head value) | Err e => Err e end
      | None => Ok None
      end.

(** [json::put] of a value that is no boolean, at the root, without an expiry;
    [payload] is its serialization. *)
Definition json_put (prefix key : string) (payload : result string string) :
    prog (Session D) (result unit Kv.RedisError) :=
  let? p := ret (map_err Kv.SerializationFailed payload) in
  let? _ := get_redis_conn in
  query (updates (JSON_SET (full_key prefix key) "$" p)).

Fixpoint deserialize_values (values : list (option string)) :
    result (list (option T)) Kv.RedisError :=
  match values with
  | [] => Ok []
  | v :: values =>
      match match v with
            | Some value =>
                match from_json_str value with Ok l => Ok (head l) | Err e => Err e end
            | None => Ok None
            end with
      | Err e => Err e
      | Ok x =>
          match deserialize_values values with Ok xs => Ok (x :: xs) | Err e => Err e end
      end
  end.

Definition json_get_multiple (prefix : string) (keys : list string) :
    prog (Session D) (result (list (option T)) Kv.RedisError) :=
  match keys with
  | [] => ret (Ok [])
  | _ =>
      let? _ := get_redis_conn in
      let full_keys := full_key prefix <$> keys in
      let? indexed_values := query (reads (JSON_MGET full_keys "$")) in
      match indexed_values with
      | [] => ret (Ok ((λ _, None) <$> keys))
      | _ => ret (deserialize_values indexed_values)
      end
  end.

Definition json_del_multiple (prefix : string) (keys : list string) :
    prog (Session D) (result unit Kv.RedisError) :=
  let? _ := get_redis_conn in
  query (updates (DEL (full_key prefix <$> keys))).
End Json.

(** ** Sorted sets: sorted_sets.rs *)

Section SortedSets.
Context {D : Type} `{RedisServer D}.
Local Open Scope nexus_scope.

Definition check_member (prefix key member : string) :
    prog (Session D) (result (option Z) Kv.RedisError) :=
  let? _ := get_redis_conn in
  query (reads (ZSCORE (full_key prefix key) member)).

(** One pipeline of ZSCOREs. *)
Definition check_members (prefix : string) (pairs : list (string * string)) :
    prog (Session D) (result (list (option Z)) Kv.RedisError) :=
  match pairs with
  | [] => ret (Ok [])
  | _ =>
      let? _ := get_redis_conn in
      query (reads (λ d, (λ '(key, member), ZSCORE (full_key prefix key) member d) <$> pairs))
  end.

(** [sorted_sets::put] without an expiry. *)
Definition sorted_sets_put (prefix key : string) (items : list (Z * string)) :
    prog (Session D) (result unit Kv.RedisError) :=
  match items with
  | [] => ret (Ok tt)
  | _ =>
      let? _ := get_redis_conn in
      query (updates (λ d, foldl (λ d '(s, x), ZADD (full_key prefix key) s x d) d items))
  end.

Definition add_member_if_absent (prefix key : string) (score : Z) (member : string) :
    prog (Session D) (result unit Kv.RedisError) :=
  let? _ := get_redis_conn in
  query (updates (ZADD_NX (full_key prefix key) score member)).

(** [get_range], ascending. *)
Definition get_range (prefix key : string) (min_score max_score : option Z)
    (skip limit : option Z) :
    prog (Session D) (result (option (list (string * Z))) Kv.RedisError) :=
  let? _ := get_redis_conn in
  let index_key := full_key prefix key in
  let? found := query (reads (EXISTS index_key)) in
  if (found : bool) then
    let min_score := default f64_min min_score in
    let max_score := default f64_max max_score in
    let skip := default 0 skip in
    let limit := default 1000 limit in
    let? elements := query (reads (ZRANGEBYSCORE index_key min_score max_score skip limit)) in
    ret (Ok (Some elements))
  else ret (Ok None).

Definition sorted_sets_del (prefix key : string) (values : list string) :
    prog (Session D) (result unit Kv.RedisError) :=
  match values with
  | [] => ret (Ok tt)
  | _ =>
      let? _ := get_redis_conn in
      query (updates (λ d, foldl (λ d x, ZREM (full_key prefix key) x d) d values))
  end.
End SortedSets.

(** ** What the access functions return *)

Section Access_lemmas.
Context {D : Type} `{RedisLaws D}.
Context {T : Type} (from_json : string → result (list T) string).

Lemma in_range_empty lo hi : in_range lo hi ∅ = [].
Proof. done. Qed.

(** The value a document decodes to through a "$" query. *)
Definition decodes (t : string) (x : T) : Prop :=
  ∃ l, from_json (json_reply "$" t) = Ok (x :: l).

Definition doc_holds (d : D) (key : string) (x : option T) : Prop :=
  match x with
  | Some x => ∃ t, json_doc d key = Some t ∧ decodes t x
  | None => json_doc d key = None
  end.

Lemma decodes_head t x :
  decodes t x →
  match from_json_str from_json (json_reply "$" t) with
  | Ok value => Ok (head value) | Err e => Err e end = Ok (E := Kv.RedisError) (Some x).
Proof. intros [l Hl]. unfold from_json_str. by rewrite Hl. Qed.

Lemma json_get_value_yields prefix key s x :
  doc_holds (db s) (full_key prefix key) x →
  yields (json_get_value from_json prefix key) s
    (λ r s', r = x ∧ db s' = db s) (λ _ s', db s' = db s).
Proof.
  intros Hx. unfold json_get_value.
  repeat redis_step; intros; try congruence.
  repeat redis_step; intros; try congruence.
  redis_step. rewrite json_get. destruct x as [x|]; simpl in Hx.
  - destruct Hx as (t & Ht & Hdec). replace (db s') with (db s) by done.
    rewrite Ht. simpl. rewrite (decodes_head t x) by done. split; congruence.
  - replace (db s') with (db s) by done. rewrite Hx. simpl. split; congruence.
Qed.

Lemma deserialize_values_holds d keys xs :
  Forall2 (doc_holds d) keys xs →
  deserialize_values from_json ((λ k, JSON_GET k "$" d) <$> keys) = Ok xs.
Proof.
  induction 1 as [|k x keys xs Hk Hks IH]; [done|].
  rewrite fmap_cons. cbn [deserialize_values]. rewrite json_get, IH.
  destruct x as [x|]; simpl in Hk.
  - destruct Hk as (t & -> & Hdec). simpl. by rewrite (decodes_head t x).
  - by rewrite Hk.
Qed.

Lemma json_get_multiple_yields prefix keys s xs :
  Forall2 (λ k x, doc_holds (db s) (full_key prefix k) x) keys xs →
  yields (json_get_multiple from_json prefix keys) s
    (λ r s', r = xs ∧ db s' = db s) (λ _ s', db s' = db s).
Proof.
  intros Hxs. unfold json_get_multiple. destruct keys as [|k keys].
  { inversion Hxs; subst. by apply yields_ret. }
  set (ks := k :: keys) in *. assert (ks ≠ []) as Hne by done. clearbody ks.
  repeat redis_step; intros; try congruence.
  repeat redis_step; intros s2; intros; try congruence.
  assert (Forall2 (doc_holds (db s)) (full_key prefix <$> ks) xs) as Hall.
  { apply Forall2_fmap_l. done. }
  replace (db s') with (db s) by done.
  destruct (json_mget (db s) (full_key prefix <$> ks) "$") as [Heq|[Heq Hnone]].
  { by destruct ks. }
  - rewrite Heq. destruct (fmap _ (full_key prefix <$> ks)) as [|v vs] eqn:Hvs; [by destruct ks|].
    rewrite <- Hvs. apply yields_ret. rewrite (deserialize_values_holds _ _ xs) by done.
    split; congruence.
  - rewrite Heq. apply yields_ret. split; [|congruence].
    assert (Forall (λ x : option T, x = None) xs) as Hn.
    { clear -Hall Hnone. induction Hall as [|k' x ks' xs Hk Hks IH]; [done|].
      inversion Hnone; subst. constructor; [|by apply IH].
      destruct x as [x|]; [|done]. destruct Hk as (t & Ht & _). congruence. }
    assert (length ks = length xs) as Hlen by by eapply Forall2_length.
    clear -Hn Hlen. revert ks Hlen.
    induction Hn as [|x xs -> Hn IH]; intros [|k' ks'] Hlen; try done.
    simpl. f_equal. apply IH. simpl in Hlen. lia.
Qed.

(** A range read of a set whose scores are exact; an absent key reads as no range. *)
Lemma get_range_yields prefix key lo hi skip limit s :
  json_doc (db s) (full_key prefix key) = None →
  0 ≤ default 0 skip → 0 ≤ default 1000 limit →
  yields (get_range prefix key lo hi skip limit) s
    (λ r s', default [] r =
        take (Z.to_nat (default 1000 limit)) (drop (Z.to_nat (default 0 skip))
          (in_range (default f64_min lo) (default f64_max hi) (zset (db s) (full_key prefix key))))
      ∧ db s' = db s)
    (λ _ s', db s' = db s).
Proof.
  intros Hdoc Hskip Hlim. unfold get_range.
  repeat redis_step; intros; try congruence.
  repeat redis_step; intros s2 Hs2; intros; try congruence.
  replace (db s') with (db s) by done.
  destruct (EXISTS (full_key prefix key) (db s)) eqn:Hex.
  - repeat redis_step; intros s3; intros; try congruence.
    redis_step. simpl. split; [|congruence].
    replace (db s2) with (db s) by congruence. by rewrite zrangebyscore.
  - redis_step. simpl. split; [|congruence].
    assert (zset (db s) (full_key prefix key) = ∅) as ->.
    { destruct (decide (zset (db s) (full_key prefix key) = ∅)) as [?|Hne]; [done|].
      by rewrite (exists_zset _ _ Hne) in Hex. }
    by rewrite in_range_empty, drop_nil, take_nil.
Qed.
End Access_lemmas.

(** ** A concrete server, for the witnesses *)

Module MemRedis.

Record t := {
  docs : gmap string string;
  sets : gmap string (gmap string Z);
}.

Definition set_of (d : t) (k : string) : gmap string Z := default ∅ (sets d !! k).
Definition with_docs (d : t) (m : gmap string string) : t := {| docs := m; sets := sets d |}.
Definition with_set (d : t) (k : string) (z : gmap string Z) : t :=
  {| docs := docs d; sets := <[k := z]> (sets d) |}.

(** [reply] answers a path query about a document. *)
Definition server (reply : string → string → string) : RedisServer t := {|
  json_doc := λ d k, docs d !! k;
  zset := set_of;
  json_reply := reply;
  JSON_SET := λ k _ p d, with_docs d (<[k := p]> (docs d));
  JSON_GET := λ k path d, reply path <$> docs d !! k;
  JSON_MGET := λ ks path d, (λ k, reply path <$> docs d !! k) <$> ks;
  JSON_DEL := λ k d, with_docs d (delete k (docs d));
  DEL := λ ks d, foldr (λ k d, {| docs := delete k (docs d); sets := delete k (sets d) |}) d ks;
  EXISTS := λ k d, bool_decide (is_Some (docs d !! k) ∨ set_of d k ≠ ∅);
  ZADD := λ k s x d, with_set d k (<[x := s]> (set_of d k));
  ZADD_NX := λ k s x d,
    match set_of d k !! x with Some _ => d | None => with_set d k (<[x := s]> (set_of d k)) end;
  ZREM := λ k x d, with_set d k (delete x (set_of d k));
  ZSCORE := λ k x d, set_of d k !! x;
  ZRANGEBYSCORE := λ k lo hi off count d,
    take (Z.to_nat count) (drop (Z.to_nat off) (in_range lo hi (set_of d k)));
|}.

Lemma set_of_with_set d k z k' :
  set_of (with_set d k z) k' = if decide (k' = k) then z else set_of d k'.
Proof.
  unfold set_of, with_set. simpl. case_decide; subst.
  - by rewrite lookup_insert_eq.
  - by rewrite lookup_insert_ne.
Qed.

Lemma laws reply : @RedisLaws t (server reply).
Proof.
  split; simpl; intros.
  - case_decide; subst; [by rewrite lookup_insert_eq|by rewrite lookup_insert_ne].
  - done.
  - done.
  - by left.
  - case_decide; subst; [by rewrite lookup_delete_eq|by rewrite lookup_delete_ne].
  - done.
  - induction ks as [|k ks IH]; simpl; [done|].
    destruct (decide (k' = k)) as [->|Hne]; [rewrite lookup_delete_eq|rewrite lookup_delete_ne, IH by done];
      repeat case_decide; set_solver.
  - induction ks as [|k ks IH]; simpl; [done|]. unfold set_of in *. simpl.
    destruct (decide (k' = k)) as [->|Hne]; [rewrite lookup_delete_eq|rewrite lookup_delete_ne, IH by done];
      repeat case_decide; set_solver.
  - apply bool_decide_eq_true_2. left. by apply not_eq_None_Some.
  - apply bool_decide_eq_true_2. by right.
  - by rewrite set_of_with_set.
  - done.
  - destruct (set_of d k !! x) eqn:Hx; [|by rewrite set_of_with_set].
    case_decide; by subst.
  - by destruct (set_of d k !! x).
  - by rewrite set_of_with_set.
  - done.
  - done.
  - done.
Qed.

Definition fresh (d : t) : Session t := {| db := d; conns := []; trips := [] |}.
Definition empty : t := {| docs := ∅; sets := ∅ |}.

End MemRedis.

(** Any countable type as text, for the witnesses' codecs. *)
Module Bits.

Fixpoint of_pos (p : positive) : string :=
  match p with
  | xH => ""
  | xO p => String "0" (of_pos p)
  | xI p => String "1" (of_pos p)
  end.

Fixpoint to_pos (s : string) : option positive :=
  match s with
  | EmptyString => Some xH
  | String c s =>
      if decide (c = "0"%char) then xO <$> to_pos s
      else if decide (c = "1"%char) then xI <$> to_pos s else None
  end.

Lemma to_of_pos p : to_pos (of_pos p) = Some p.
Proof. induction p as [p IH|p IH|]; simpl; by rewrite ?IH. Qed.

Definition write {A} `{Countable A} (x : A) : string := of_pos (encode x).
Definition read {A} `{Countable A} (s : string) : option A := to_pos s ≫= decode.

Lemma read_write {A} `{Countable A} (x : A) : read (write x) = Some x.
Proof. unfold read, write. rewrite to_of_pos. simpl. apply decode_encode. Qed.

End Bits.
