(* ===== verification/RedisSets.v ===== *)
(** * Redis plain sets

    nexus-common/src/db/kv/index/sets.rs, over a server that keeps plain sets next to
    the documents and the sorted sets of [Redis]. [RedisSets] has the commands,
    [SetLaws] what they document on keys of no other type. SSCAN is the documented
    cursor iteration: on a set that does not change it ends, having returned every
    member at least once, in an order and in batches of the server's own. *)

From S2P Require Import Prelude Errors Redis.
Local Open Scope Z_scope.

(** ** The commands *)

Class RedisSets (D : Type) := {
  smembers : string → D → gset string;
  SADD : string → list string → D → D;
  SREM : string → list string → D → D;
  SISMEMBER : string → string → D → bool;
  SCARD : string → D → nat;
  SMEMBERS : string → D → list string;
  (** key, cursor, count; the next cursor and a batch *)
  SSCAN : string → string → nat → D → string * list string;
}.

(** A key that holds neither a document nor a sorted set. *)
Definition plain {D} `{RedisServer D} (d : D) (k : string) : Prop :=
  json_doc d k = None ∧ zset d k = ∅.

(** The batches of a scan from a cursor until the server answers "0". *)
Fixpoint scans {D} `{RedisSets D} (d : D) (k : string) (count : nat) (cursor : string)
    (batches : list (list string)) : Prop :=
  match batches with
  | [] => False
  | [b] => SSCAN k cursor count d = ("0", b)
  | b :: bs => ∃ c, c ≠ "0" ∧ SSCAN k cursor count d = (c, b) ∧ scans d k count c bs
  end.

Class SetLaws (D : Type) `{RedisServer D, RedisSets D} := {
  exists_plain d k : plain d k → EXISTS k d = bool_decide (smembers k d ≠ ∅);
  sadd_members d k xs k' : plain d k →
    smembers k' (SADD k xs d) =
      if decide (k' = k) then list_to_set xs ∪ smembers k d else smembers k' d;
  sadd_doc d k xs k' : plain d k → json_doc (SADD k xs d) k' = json_doc d k';
  sadd_zset d k xs k' : plain d k → zset (SADD k xs d) k' = zset d k';
  srem_members d k xs k' : plain d k →
    smembers k' (SREM k xs d) =
      if decide (k' = k) then smembers k d ∖ list_to_set xs else smembers k' d;
  srem_doc d k xs k' : plain d k → json_doc (SREM k xs d) k' = json_doc d k';
  srem_zset d k xs k' : plain d k → zset (SREM k xs d) k' = zset d k';
  sismember_plain d k x : plain d k → SISMEMBER k x d = bool_decide (x ∈ smembers k d);
  scard_plain d k : plain d k → SCARD k d = size (smembers k d);
  smembers_plain d k : plain d k → SMEMBERS k d ≡ₚ elements (smembers k d);
  sscan_plain d k count : plain d k → (0 < count)%nat →
    ∃ batches, scans d k count "0" batches ∧ list_to_set (concat batches) = smembers k d;
  zadd_members d k s x k' : json_doc d k = None → smembers k d = ∅ →
    smembers k' (ZADD k s x d) = smembers k' d;
}.

(** ** The access functions *)

Section Access.
Context {D : Type} `{RedisServer D, RedisSets D}.
Local Open Scope nexus_scope.

(** [put], without an expiry. *)
Definition put (prefix key : string) (values : list string) :
    prog (Session D) (result unit Kv.RedisError) :=
  match values with
  | [] => ret (Ok tt)
  | _ =>
      let? _ := get_redis_conn in
      query (updates (SADD (full_key prefix key) values))
  end.

Definition del (prefix key : string) (values : list string) :
    prog (Session D) (result unit Kv.RedisError) :=
  match values with
  | [] => ret (Ok tt)
  | _ =>
      let? _ := get_redis_conn in
      query (updates (SREM (full_key prefix key) values))
  end.

(** Two commands: the set may change between them. *)
Definition check_member (prefix key member : string) :
    prog (Session D) (result (bool * bool) Kv.RedisError) :=
  let? _ := get_redis_conn in
  let index_key := full_key prefix key in
  let? set_exists := query (reads (EXISTS index_key)) in
  if (set_exists : bool) then
    let? is_member := query (reads (SISMEMBER index_key member)) in
    ret (Ok (true, is_member))
  else ret (Ok (false, false)).

(** One pipeline of EXISTS and SISMEMBER pairs. *)
Definition check_member_multiple_sets (prefix : string) (keys : list string) (member : string) :
    prog (Session D) (result (list (bool * bool)) Kv.RedisError) :=
  match keys with
  | [] => ret (Ok [])
  | _ =>
      let? _ := get_redis_conn in
      query (reads (λ d, (λ key,
        let exists_ := EXISTS (full_key prefix key) d in
        (exists_, exists_ && SISMEMBER (full_key prefix key) member d)) <$> keys))
  end.

Definition get_size (prefix key : string) :
    prog (Session D) (result (option nat) Kv.RedisError) :=
  let? _ := get_redis_conn in
  let index_key := full_key prefix key in
  let? set_exists := query (reads (EXISTS index_key)) in
  if (set_exists : bool) then
    let? set_size := query (reads (SCARD index_key)) in
    ret (Ok (Some set_size))
  else ret (Ok None).

(** What [get_multiple_sets] keeps of a set: some members, its size, and whether
    [member] is in it. *)
Definition set_details (member : option string) (limit : option nat) (set : list string) :
    option (list string * nat * bool) :=
  match set with
  | [] => None
  | _ =>
      let set_length := length set in
      let is_member :=
        match member with
        | Some m => existsb (λ s, bool_decide (s = m)) set
        | None => false
        end in
      match limit with
      | Some set_limit =>
          if decide (set_limit < set_length)%nat then Some (take set_limit set, set_length, is_member)
          else Some (set, set_length, is_member)
      | None => Some (set, set_length, is_member)
      end
  end.

(** One pipeline of SMEMBERS. *)
Definition get_multiple_sets (prefix : string) (keys : list string) (member : option string)
    (limit : option nat) :
    prog (Session D) (result (list (option (list string * nat * bool))) Kv.RedisError) :=
  match keys with
  | [] => ret (Ok [])
  | _ =>
      let? _ := get_redis_conn in
      let? results := query (reads (λ d, (λ key, SMEMBERS (full_key prefix key) d) <$> keys)) in
      ret (Ok (set_details member limit <$> results))
  end.

(** The SADDs of [put_multiple_sets]; an empty collection adds none. *)
Fixpoint add_collections (prefix : string) (common_key : string)
    (sets : list (string * list string)) (d : D) : D :=
  match sets with
  | [] => d
  | (_, []) :: sets => add_collections prefix common_key sets d
  | (key, collection) :: sets =>
      add_collections prefix common_key sets
        (SADD (prefix +:+ ":" +:+ common_key +:+ ":" +:+ key) collection d)
  end.

(** [put_multiple_sets], without an expiry; [common_key] joined, and the index zipped
    with its collections. *)
Definition put_multiple_sets (prefix common_key : string) (sets : list (string * list string)) :
    prog (Session D) (result unit Kv.RedisError) :=
  match sets with
  | [] => ret (Ok tt)
  | _ =>
      let? _ := get_redis_conn in
      let has_commands := existsb (λ '(_, c), bool_decide (c ≠ [])) sets in
      if has_commands then query (updates (add_collections prefix common_key sets))
      else ret (Ok tt)
  end.

(** The loop over a batch: what is still to skip, then what is still wanted. *)
Fixpoint take_items (skip limit : nat) (items : list string) (skipped : nat)
    (collected : list string) : nat * list string :=
  match items with
  | [] => (skipped, collected)
  | item :: items =>
      if decide (skipped < skip)%nat then take_items skip limit items (S skipped) collected
      else
        let collected := collected ++ [item] in
        if decide (limit ≤ length collected)%nat then (skipped, collected)
        else take_items skip limit items skipped collected
  end.

(** The SSCAN loop; [None] when [fuel] runs out. *)
Fixpoint scan_range (fuel : nat) (index_key : string) (skip limit : nat) (cursor : string)
    (skipped : nat) (collected : list string) :
    prog (Session D) (option (result (list string) Kv.RedisError)) :=
  match fuel with
  | O => ret None
  | S fuel =>
      if decide (length collected < limit)%nat then
        let* reply := query (reads (SSCAN index_key cursor limit)) in
        match reply with
        | Err e => ret (Some (Err e))
        | Ok (new_cursor, items) =>
            let '(skipped, collected) := take_items skip limit items skipped collected in
            if decide (new_cursor = "0") then ret (Some (Ok collected))
            else scan_range fuel index_key skip limit new_cursor skipped collected
        end
      else ret (Some (Ok collected))
  end.

Definition get_range (fuel : nat) (prefix key : string) (skip limit : option nat) :
    prog (Session D) (option (result (option (list string)) Kv.RedisError)) :=
  let* conn := get_redis_conn in
  match conn with
  | Err e => ret (Some (Err e))
  | Ok _ =>
      let index_key := full_key prefix key in
      let skip := default 0%nat skip in
      let limit := default 5%nat limit in
      let* scanned := scan_range fuel index_key skip limit "0" 0 [] in
      match scanned with
      | None => ret None
      | Some (Err e) => ret (Some (Err e))
      | Some (Ok collected) =>
          if decide (collected ≠ []) then ret (Some (Ok (Some collected)))
          else if decide (skip = 0%nat) then ret (Some (Ok None))
          else
            let* key_exists := query (reads (EXISTS index_key)) in
            match key_exists with
            | Err e => ret (Some (Err e))
            | Ok true => ret (Some (Ok (Some collected)))
            | Ok false => ret (Some (Ok None))
            end
      end
  end.
End Access.

(** ** What the access functions return *)

Section Access_lemmas.
Context {D : Type} `{SetLaws D}.
Implicit Types (s : Session D) (k : string).

Lemma put_yields prefix key xs s (Q : unit → Session D → Prop)
    (R : Kv.RedisError → Session D → Prop) :
  xs ≠ [] →
  (∀ s', db s' = SADD (full_key prefix key) xs (db s) → Q tt s') →
  (∀ e s', db s' = db s ∨ db s' = SADD (full_key prefix key) xs (db s) → R e s') →
  yields (put prefix key xs) s Q R.
Proof.
  intros Hxs HQ HR. unfold put. destruct xs as [|x xs]; [done|].
  apply yields_ebind, yields_conn; [|by auto]. intros s1 Hs1.
  apply yields_query; simpl; rewrite Hs1; auto.
Qed.

Lemma del_yields prefix key xs s (Q : unit → Session D → Prop)
    (R : Kv.RedisError → Session D → Prop) :
  xs ≠ [] →
  (∀ s', db s' = SREM (full_key prefix key) xs (db s) → Q tt s') →
  (∀ e s', db s' = db s ∨ db s' = SREM (full_key prefix key) xs (db s) → R e s') →
  yields (del prefix key xs) s Q R.
Proof.
  intros Hxs HQ HR. unfold del. destruct xs as [|x xs]; [done|].
  apply yields_ebind, yields_conn; [|by auto]. intros s1 Hs1.
  apply yields_query; simpl; rewrite Hs1; auto.
Qed.

Lemma check_member_yields prefix key x s (Q : bool * bool → Session D → Prop)
    (R : Kv.RedisError → Session D → Prop) :
  plain (db s) (full_key prefix key) →
  (∀ s', db s' = db s →
     Q (bool_decide (smembers (full_key prefix key) (db s) ≠ ∅),
        bool_decide (x ∈ smembers (full_key prefix key) (db s))) s') →
  (∀ e s', db s' = db s → R e s') →
  yields (check_member prefix key x) s Q R.
Proof.
  intros Hk HQ HR. unfold check_member.
  apply yields_ebind, yields_conn; [|by auto]. intros s1 Hs1.
  apply yields_ebind, yields_reads; [|intros; apply HR; congruence]. intros s2 Hs2.
  rewrite Hs1, (exists_plain _ _ Hk).
  destruct (decide (smembers (full_key prefix key) (db s) = ∅)) as [Hnone|Hsome].
  - rewrite (bool_decide_eq_false_2 (_ ≠ ∅)) by (intros Hne; by apply Hne).
    apply yields_ret. specialize (HQ s2). rewrite Hnone in HQ.
    rewrite (bool_decide_eq_false_2 (∅ ≠ ∅)), (bool_decide_eq_false_2 (x ∈ ∅)) in HQ by set_solver.
    apply HQ. congruence.
  - rewrite (bool_decide_eq_true_2 (_ ≠ ∅)) by done.
    apply yields_ebind, yields_reads; [|intros; apply HR; congruence]. intros s3 Hs3.
    apply yields_ret. rewrite (bool_decide_eq_true_2 (_ ≠ ∅)) in HQ by done.
    rewrite sismember_plain by (by rewrite Hs2, Hs1). rewrite Hs2, Hs1. apply HQ. congruence.
Qed.
End Access_lemmas.

(** ** Pages of a set *)

(** The page [skip], [limit] of a sequence. *)
Definition window (skip limit : nat) (l : list string) : list string := take limit (drop skip l).

Lemma window_full skip limit (seen rest : list string) :
  length (window skip limit seen) = limit →
  window skip limit (seen ++ rest) = window skip limit seen.
Proof.
  unfold window. rewrite length_take, length_drop. intros Hfull.
  destruct (decide (limit = 0)%nat) as [->|Hpos]; [done|].
  rewrite drop_app_le by lia. rewrite take_app_le; [done|]. rewrite length_drop. lia.
Qed.

Lemma window_snoc skip limit (seen : list string) x :
  (skip ≤ length seen)%nat → (length (window skip limit seen) < limit)%nat →
  window skip limit (seen ++ [x]) = window skip limit seen ++ [x].
Proof.
  unfold window. rewrite length_take, length_drop. intros Hskip Hroom.
  rewrite drop_app_le by done. rewrite !take_ge; [done|rewrite length_drop; lia|].
  rewrite length_app, length_drop. simpl. lia.
Qed.

Lemma window_before skip limit (seen : list string) :
  (length seen ≤ skip)%nat → window skip limit seen = [].
Proof. intros Hskip. unfold window. by rewrite drop_ge, take_nil. Qed.

(** A batch adds its part of the window, up to the limit. *)
Lemma take_items_window skip limit items seen :
  (length (window skip limit seen) < limit)%nat →
  take_items skip limit items (min skip (length seen)) (window skip limit seen)
  = (min skip (length (seen ++ items)), window skip limit (seen ++ items)).
Proof.
  revert seen. induction items as [|x items IH]; intros seen Hroom; simpl.
  { by rewrite app_nil_r. }
  replace (seen ++ x :: items) with ((seen ++ [x]) ++ items) by by rewrite <- app_assoc.
  destruct (decide (min skip (length seen) < skip)%nat) as [Hlt|Hge].
  - assert (window skip limit (seen ++ [x]) = window skip limit seen) as Hsame
      by (by rewrite !window_before by (rewrite ?length_app; simpl; lia)).
    replace (S (min skip (length seen))) with (min skip (length (seen ++ [x])))
      by (rewrite length_app; simpl; lia).
    rewrite <- Hsame. apply IH. by rewrite Hsame.
  - assert (window skip limit (seen ++ [x]) = window skip limit seen ++ [x]) as Hsnoc
      by (apply window_snoc; [lia|done]).
    rewrite <- Hsnoc. replace (min skip (length seen)) with (min skip (length (seen ++ [x])))
      by (rewrite length_app; simpl; lia).
    destruct (decide (limit ≤ length (window skip limit (seen ++ [x])))%nat) as [Hfull|Hmore].
    + assert (length (window skip limit (seen ++ [x])) = limit) as Hlen.
      { rewrite Hsnoc, length_app in Hfull |- *. simpl in *. lia. }
      rewrite (window_full _ _ (seen ++ [x]) items) by done. f_equal. rewrite !length_app. simpl. lia.
    + apply IH. lia.
Qed.

Section Pages.
Context {D : Type} `{SetLaws D}.
Implicit Types (s : Session D) (k : string).

(** The outcome of a program that may have run out of fuel. *)
Definition ends {W A E} (o : option (result A E)) (w : W) (Q : A → W → Prop)
    (R : E → W → Prop) : Prop :=
  match o with
  | Some (Ok a) => Q a w
  | Some (Err e) => R e w
  | None => False
  end.

Lemma scan_range_ends k skip limit cursor batches fuel seen s (w0 : D) :
  scans w0 k limit cursor batches → (length batches < fuel)%nat → db s = w0 →
  let '(o, s') := scan_range fuel k skip limit cursor (min skip (length seen))
                    (window skip limit seen) s in
  ends o s' (λ l s', l = window skip limit (seen ++ concat batches) ∧ db s' = w0)
       (λ _ s', db s' = w0).
Proof.
  revert cursor fuel seen s. induction batches as [|b bs IH]; intros cursor fuel seen s; [done|].
  intros Hscan Hfuel Hs. destruct fuel as [|fuel]; [simpl in *; lia|]. simpl.
  destruct (decide (length (window skip limit seen) < limit)%nat) as [Hroom|Hfull]; simpl.
  2: { split; [|done]. symmetry. apply window_full.
       revert Hfull. unfold window. rewrite length_take. lia. }
  unfold bind. pose proof (yields_reads (SSCAN k cursor limit) s
    (λ r s', r = SSCAN k cursor limit w0 ∧ db s' = w0) (λ _ s', db s' = w0)) as Hread.
  unfold yields in Hread. rewrite Hs in Hread.
  destruct (query (reads (SSCAN k cursor limit)) s) as [[[c items]|e] s1]; simpl.
  2: { apply Hread; [by split|done]. }
  destruct Hread as [Hreply Hs1]; [by split|done|].
  pose proof (take_items_window skip limit items seen Hroom) as Htake.
  assert (SSCAN k cursor limit w0 = ("0", b) ∧ bs = []
          ∨ ∃ c', c' ≠ "0" ∧ SSCAN k cursor limit w0 = (c', b) ∧ scans w0 k limit c' bs)
    as Hstep by (destruct bs; [by left|by right]).
  destruct Hstep as [[Heq ->]|(c' & Hc' & Heq & Hrest)].
  - rewrite Heq in Hreply. injection Hreply as -> ->.
    rewrite app_nil_r, Htake. by simpl.
  - rewrite Heq in Hreply. injection Hreply as -> ->. simpl. rewrite app_assoc.
    rewrite Htake, decide_False by done. apply IH; simpl in *; [done|lia|done].
Qed.

(** a page of a set ends, whatever the server's batches: with enough fuel it returns
    the requested window of one sequence that holds every member, the same for every
    page of that size, so consecutive pages leave no member out; it returns [None]
    exactly when the set is absent, and an empty page only past the end. *)
Theorem set_pages_cover prefix key limit s :
  let k := full_key prefix key in
  plain (db s) k → (0 < limit)%nat →
  ∃ all fuel, list_to_set all = smembers k (db s) ∧ ∀ fuel' skip,
    (fuel ≤ fuel')%nat →
    let '(o, s') := get_range fuel' prefix key (Some skip) (Some limit) s in
    ends o s'
      (λ page s', db s' = db s ∧
         page = if decide (smembers k (db s) = ∅) then None
                else Some (window skip limit all))
      (λ _ s', db s' = db s).
Proof.
  intros k Hk Hlimit. destruct (sscan_plain (db s) k limit Hk Hlimit) as (batches & Hscan & Hall).
  exists (concat batches), (S (length batches)). split; [done|]. intros fuel skip Hfuel.
  unfold get_range, bind. pose proof (yields_conn s (λ _ s', db s' = db s) (λ _ s', db s' = db s)) as Hc.
  unfold yields in Hc. destruct (get_redis_conn s) as [[[]|e] s1]; [|by apply Hc].
  specialize (Hc ltac:(done) ltac:(done)). simpl. fold k.
  pose proof (scan_range_ends k skip limit "0" batches fuel [] s1 (db s) Hscan ltac:(lia) Hc) as Hend.
  rewrite Nat.min_0_r in Hend. unfold window at 1 in Hend. rewrite drop_nil, take_nil in Hend.
  destruct (scan_range fuel k skip limit "0" 0 [] s1) as [[[page|e]|] s2]; [|done|done].
  destruct Hend as [-> Hs2]. simpl.
  assert (smembers k (db s) = ∅ → concat batches = []) as Hnil.
  { rewrite <- Hall. intros Hemp. destruct (concat batches); [done|set_solver]. }
  case_decide as Hpage; simpl.
  { split; [done|]. rewrite decide_False; [done|]. intros Hemp. apply Hpage.
    rewrite (Hnil Hemp). unfold window. by rewrite drop_nil, take_nil. }
  case_decide as Hskip; simpl.
  { split; [done|]. subst skip. rewrite decide_True; [done|]. rewrite <- Hall.
    unfold window in Hpage. rewrite drop_0 in Hpage.
    destruct (concat batches); [done|]. destruct limit; [lia|done]. }
  pose proof (yields_reads (EXISTS k) s2
    (λ r s', r = EXISTS k (db s) ∧ db s' = db s) (λ _ s', db s' = db s)) as Hread.
  unfold yields in Hread. rewrite Hs2 in Hread. rewrite Hpage.
  destruct (query (reads (EXISTS k)) s2) as [[found|e] s3]; simpl; [|by apply Hread].
  destruct Hread as [-> Hs3]; [done|done|]. rewrite (exists_plain _ _ Hk).
  destruct (decide (smembers k (db s) = ∅)) as [Hemp|Hne].
  - rewrite bool_decide_eq_false_2 by (intros Hne; by apply Hne). done.
  - rewrite bool_decide_eq_true_2 by done. done.
Qed.
End Pages.

(** ** A server with plain sets *)

Module MemSets.
Import MemRedis.

Abbreviation psets := (gmap string (gset string)).
Abbreviation store := (MemRedis.t * psets)%type.

Definition members (k : string) (d : store) : gset string := default ∅ (snd d !! k).

Section Server.
Context (reply : string → string → string).
#[local] Instance base_server : RedisServer MemRedis.t := server reply.

Definition on_base (f : MemRedis.t → MemRedis.t) (d : store) : store := (f (fst d), snd d).

#[export] Instance both : RedisServer store := {
  json_doc := λ d, json_doc (fst d);
  zset := λ d, zset (fst d);
  json_reply := reply;
  JSON_SET := λ k path p, on_base (JSON_SET k path p);
  JSON_GET := λ k path d, JSON_GET k path (fst d);
  JSON_MGET := λ ks path d, JSON_MGET ks path (fst d);
  JSON_DEL := λ k, on_base (JSON_DEL k);
  DEL := λ ks d, (DEL ks (fst d), foldr delete (snd d) ks);
  EXISTS := λ k d, EXISTS k (fst d) || bool_decide (members k d ≠ ∅);
  ZADD := λ k s x, on_base (ZADD k s x);
  ZADD_NX := λ k s x, on_base (ZADD_NX k s x);
  ZREM := λ k x, on_base (ZREM k x);
  ZSCORE := λ k x d, ZSCORE k x (fst d);
  ZRANGEBYSCORE := λ k lo hi off count d, ZRANGEBYSCORE k lo hi off count (fst d);
}.

#[export] Instance plain_sets : RedisSets store := {
  smembers := members;
  SADD := λ k xs d, (fst d, <[k := list_to_set xs ∪ members k d]> (snd d));
  SREM := λ k xs d, (fst d, <[k := members k d ∖ list_to_set xs]> (snd d));
  SISMEMBER := λ k x d, bool_decide (x ∈ members k d);
  SCARD := λ k d, size (members k d);
  SMEMBERS := λ k d, elements (members k d);
  SSCAN := λ k _ _ d, ("0", elements (members k d));
}.

#[export] Instance base_laws : RedisLaws store.
Proof.
  pose proof (laws reply) as L. split; intros.
  all: first
    [ by apply (@json_set_doc _ _ L) | by apply (@json_set_zset _ _ L) | by apply (@json_get _ _ L)
    | by apply (@json_mget _ _ L) | by apply (@json_del_doc _ _ L) | by apply (@json_del_zset _ _ L)
    | by apply (@del_doc _ _ L) | by apply (@del_zset _ _ L)
    | apply orb_true_iff; left; by apply (@exists_doc _ _ L)
    | apply orb_true_iff; left; by apply (@exists_zset _ _ L)
    | by apply (@zadd_zset _ _ L) | by apply (@zadd_doc _ _ L) | by apply (@zadd_nx_zset _ _ L)
    | by apply (@zadd_nx_doc _ _ L) | by apply (@zrem_zset _ _ L) | by apply (@zrem_doc _ _ L)
    | by apply (@zscore _ _ L) | by apply (@zrangebyscore _ _ L) ].
Qed.

Lemma members_insert k v d0 (m : psets) k' :
  members k' (d0, <[k := v]> m) = if decide (k' = k) then v else members k' (d0, m).
Proof.
  unfold members. simpl. case_decide; subst; [by rewrite lookup_insert_eq|by rewrite lookup_insert_ne].
Qed.

#[export] Instance set_laws : SetLaws store.
Proof.
  split; simpl; intros; try (destruct d as [d0 m]; rewrite ?members_insert); try done.
  - destruct H as [Hdoc Hz]. simpl in *.
    rewrite (bool_decide_eq_false_2 (is_Some _ ∨ _)); [done|].
    rewrite Hdoc, Hz. by intros [[? ?]|?].
  - exists [elements (members k (d0, m))]. split; [done|]. simpl. rewrite app_nil_r.
    apply list_to_set_elements_L.
Qed.
End Server.
End MemSets.

Section Witnesses.
Import MemSets.
#[local] Instance both_server : RedisServer MemSets.store := both (λ _ t, t).
#[local] Instance both_base_laws : RedisLaws MemSets.store := base_laws (λ _ t, t).
#[local] Instance both_laws : SetLaws MemSets.store := set_laws (λ _ t, t).

Definition three_followers : Session MemSets.store :=
  {| db := (MemRedis.empty, {["Followers:u" := {["a"; "b"; "c"]}]}); conns := []; trips := [] |}.

Lemma set_pages_cover_witness :
  (plain (db three_followers) "Followers:u" ∧ (0 < 2)%nat)
  ∧ ∃ all fuel, list_to_set all = smembers "Followers:u" (db three_followers)
    ∧ ∀ fuel' skip, (fuel ≤ fuel')%nat →
      let '(o, s') := get_range fuel' "Followers" "u" (Some skip) (Some 2%nat) three_followers in
      ends o s'
        (λ page s', db s' = db three_followers ∧
           page = if decide (smembers "Followers:u" (db three_followers) = ∅) then None
                  else Some (window skip 2 all))
        (λ _ s', db s' = db three_followers).
Proof.
  assert (plain (db three_followers) "Followers:u") as Hplain by done.
  split; [by split; [|lia]|]. apply (set_pages_cover "Followers" "u" 2 three_followers); [done|lia].
Defined.
End Witnesses.
