(* ===== verification/Cursor.v ===== *)
(** * Cursors: how far each event stream has been read

    nexus-common/src/models/user/cursor.rs (a user's cursor on a homeserver, a score
    in a sorted set of its own) and models/homeserver.rs (a homeserver's cursor, in
    its JSON record). Both are read, compared and then written, over the Redis
    layer; neither ever moves backwards. *)

From S2P Require Import Prelude Errors Redis.
Local Open Scope Z_scope.

(** ** Per-user cursors *)

Module UserHsCursor.

Definition USER_HS_CURSOR : string * string := ("Users", "Homeservers").

(** [traits::SORTED_PREFIX] *)
Definition SORTED_PREFIX : string := "Sorted".

Definition user_hs_cursor_key (user_id : string) : string :=
  fst USER_HS_CURSOR +:+ ":" +:+ snd USER_HS_CURSOR +:+ ":" +:+ user_id.

Section Operations.
Context {D : Type} `{RedisServer D}.
Local Open Scope nexus_scope.

(** The cursor behind a score; a negative one is refused. *)
Definition cursor_of_score (hs_id : string) (s : option Z) : result Z Kv.RedisError :=
  let score := default 0 s in
  if decide (score < 0) then
    Err (Kv.InvalidInput ("negative cursor score " +:+ pretty score +:+ " for HS " +:+ hs_id))
  else Ok score.

Fixpoint collect {A E} (l : list (result A E)) : result (list A) E :=
  match l with
  | [] => Ok []
  | Err e :: _ => Err e
  | Ok a :: l => match collect l with Ok l => Ok (a :: l) | Err e => Err e end
  end.

Definition read (user_ids : list string) (hs_id : string) :
    prog (Session D) (result (list Z) Kv.RedisError) :=
  let keys := user_hs_cursor_key <$> user_ids in
  let? scores := check_members SORTED_PREFIX ((λ k, (k, hs_id)) <$> keys) in
  ret (collect (cursor_of_score hs_id <$> scores)).

Definition write (user_id hs_id : string) (cursor : Z) :
    prog (Session D) (result unit Kv.RedisError) :=
  let? stored := read [user_id] hs_id in
  let stored_cursor := default 0 (head stored) in
  let? _ := ret (Kv.ensure_cursor_not_backwards cursor stored_cursor) in
  sorted_sets_put SORTED_PREFIX (user_hs_cursor_key user_id) [(as_f64 cursor, hs_id)].

Definition init (user_id hs_id : string) : prog (Session D) (result unit Kv.RedisError) :=
  add_member_if_absent SORTED_PREFIX (user_hs_cursor_key user_id) 0 hs_id.
End Operations.

(** The callers' operations, as a history. *)
Inductive op :=
  | Write (user_id hs_id : string) (cursor : Z)
  | Init (user_id hs_id : string).

Definition run_op {D} `{RedisServer D} (o : op) : prog (Session D) (result unit Kv.RedisError) :=
  match o with
  | Write u h c => write u h c
  | Init u h => init u h
  end.

(** A history goes on whatever each operation answers. *)
Fixpoint run_ops {D} `{RedisServer D} (ops : list op) (s : Session D) : Session D :=
  match ops with
  | [] => s
  | o :: ops => run_ops ops (snd (run_op o s))
  end.

End UserHsCursor.

(** ** Homeserver records *)

Module Homeserver.

Record Homeserver := { id : string; cursor : Z }.

#[export] Instance Homeserver_eq_dec : EqDecision Homeserver.
Proof. solve_decision. Defined.

Definition new (id : string) : Homeserver := {| id := id; cursor := 0 |}.

(** [HsBlacklist] *)
Abbreviation HsBlacklist := (list string).
Definition is_blacklisted (blacklist : HsBlacklist) (hs_id : string) : bool :=
  existsb (λ pk, bool_decide (pk = hs_id)) blacklist.

(** The two Redis accesses everything else is built from. *)
Class HomeserverIndex (W : Type) := {
  get_from_index : string → prog W (result (option Homeserver) Kv.RedisError);
  put_index_json : Homeserver → prog W (result unit Kv.RedisError);
}.

(** The graph's record of a homeserver, which holds no cursor. *)
Class HomeserverGraph (W : Type) := {
  get_from_graph : string → prog W (result (option Homeserver) Graph.GraphError);
  put_to_graph : Homeserver → prog W (result unit Graph.GraphError);
}.

Section Operations.
Context {W : Type} {HI : HomeserverIndex W}.
Local Open Scope nexus_scope.

Definition validate_cursor_change (id : string) (new_cursor : Z) :
    prog W (result unit Kv.RedisError) :=
  let? existing := get_from_index id in
  ret match existing with
      | Some existing => Kv.ensure_cursor_not_backwards new_cursor (cursor existing)
      | None => Ok tt
      end.

Definition try_from_cursor (id raw : string) : prog W (result Homeserver Model.ModelError) :=
  match parse_u64 raw with
  | None =>
      ret (Err (Model.from_generic
                  ("Cannot create a homeserver from a non-numeric cursor: " +:+ raw)))
  | Some cursor =>
      let? _ := emap_err Model.KvOperationFailed (validate_cursor_change id cursor) in
      ret (Ok {| id := id; cursor := cursor |})
  end.

Definition put_to_index (h : Homeserver) : prog W (result unit Kv.RedisError) :=
  let? _ := validate_cursor_change (id h) (cursor h) in
  put_index_json h.

Definition get_by_id (homeserver_id : string) :
    prog W (result (option Homeserver) Model.ModelError) :=
  emap_err Model.KvOperationFailed (get_from_index homeserver_id).

Definition persist_if_unknown `{HomeserverGraph W} (homeserver_id : string) :
    prog W (result unit Model.ModelError) :=
  let? graph := emap_err Model.GraphOperationFailed (get_from_graph homeserver_id) in
  let in_graph := bool_decide (is_Some graph) in
  let? index := emap_err Model.KvOperationFailed (get_from_index homeserver_id) in
  let in_index := bool_decide (is_Some index) in
  if in_graph && in_index then ret (Ok tt)
  else
    let homeserver := new homeserver_id in
    let? _ := if negb in_graph then emap_err Model.GraphOperationFailed (put_to_graph homeserver)
              else ret (Ok tt) in
    let? _ := if negb in_index then emap_err Model.KvOperationFailed (put_to_index homeserver)
              else ret (Ok tt) in
    ret (Ok tt).
End Operations.

(** The contract of the index: [holds w m] says the world holds the records [m]. *)
Abbreviation Records := (gmap string Homeserver).

Class HomeserverIndexSpec (W : Type) `{HomeserverIndex W} (holds : W → Records → Prop) := {
  get_from_index_spec w m id : holds w m →
    yields (get_from_index id) w
      (λ r w', r = m !! id ∧ holds w' m) (λ _ w', holds w' m);
  put_index_json_spec w m h : holds w m → 0 ≤ cursor h ≤ u64_max →
    yields (put_index_json h) w
      (λ _ w', holds w' (<[id h := h]> m))
      (λ _ w', holds w' m ∨ holds w' (<[id h := h]> m));
}.

(** No record is lost and no cursor is lower. *)
Definition no_rewind (before after : Records) : Prop :=
  ∀ i h, before !! i = Some h → ∃ h', after !! i = Some h' ∧ cursor h ≤ cursor h'.

Section Index_properties.
Context {W : Type} {HI : HomeserverIndex W} (holds : W → Records → Prop).
Context {HS : HomeserverIndexSpec W holds}.

Lemma no_rewind_refl m : no_rewind m m.
Proof. intros i h ?. eauto with lia. Qed.

Lemma no_rewind_insert m h :
  (∀ h', m !! id h = Some h' → cursor h' ≤ cursor h) → no_rewind m (<[id h := h]> m).
Proof.
  intros Hle i h0 Hi. destruct (decide (i = id h)) as [->|Hne].
  - exists h. rewrite lookup_insert_eq. auto.
  - exists h0. rewrite lookup_insert_ne by done. eauto with lia.
Qed.

Lemma validate_cursor_change_yields w m i c :
  holds w m →
  yields (validate_cursor_change i c) w
    (λ _ w', holds w' m ∧ ∀ h, m !! i = Some h → cursor h ≤ c)
    (λ _ w', holds w' m).
Proof.
  intros Hw. unfold validate_cursor_change. apply yields_ebind.
  eapply yields_mono; [by apply get_from_index_spec| |done].
  intros r w' [-> Hw']. apply yields_ret.
  destruct (m !! i) as [h|]; [|done].
  destruct (Kv.ensure_cursor_not_backwards c (cursor h)) as [[]|] eqn:He; [|done].
  apply ensure_cursor_not_backwards_ok in He. split; [done|]. by intros h' [= <-].
Qed.

Lemma put_to_index_yields w m h :
  holds w m → 0 ≤ cursor h ≤ u64_max →
  yields (put_to_index h) w
    (λ _ w', holds w' (<[id h := h]> m) ∧ no_rewind m (<[id h := h]> m))
    (λ _ w', ∃ m', holds w' m' ∧ (m' = m ∨ m' = <[id h := h]> m) ∧ no_rewind m m').
Proof.
  intros Hw Hc. unfold put_to_index. apply yields_ebind.
  eapply yields_mono; [by apply validate_cursor_change_yields| |].
  - intros [] w1 [Hw1 Hle]. pose proof (no_rewind_insert m h Hle).
    eapply yields_mono; [by apply put_index_json_spec|by auto|].
    intros ? w' [Hw'|Hw']; eauto 6 using no_rewind_refl.
  - intros ? w' Hw'. exists m. auto using no_rewind_refl.
Qed.

(** storing a homeserver record never moves a cursor backwards, its own or
    another's, whether the call succeeds or fails; on success the record is the one
    stored, and it is refused when the stored cursor is ahead of it. *)
Theorem homeserver_cursor_never_rewinds w m h :
  holds w m → 0 ≤ cursor h ≤ u64_max →
  yields (put_to_index h) w
    (λ _ w', holds w' (<[id h := h]> m) ∧ no_rewind m (<[id h := h]> m))
    (λ _ w', ∃ m', holds w' m' ∧ no_rewind m m')
  ∧ (∀ h', m !! id h = Some h' → cursor h < cursor h' →
     yields (put_to_index h) w (λ _ _, False) (λ _ w', holds w' m)).
Proof.
  intros Hw Hc. split.
  - eapply yields_mono; [by apply put_to_index_yields|done|].
    intros ? w' (m' & ? & _ & ?). eauto.
  - intros h' Hh' Hlt. unfold put_to_index. apply yields_ebind.
    eapply yields_mono; [by apply validate_cursor_change_yields| |done].
    intros [] w1 [_ Hle]. specialize (Hle h' Hh'). lia.
Qed.

(** The graph's calls leave the index alone. *)
Class GraphFrame `{HomeserverGraph W} := {
  get_from_graph_frame w m i : holds w m → holds (snd (get_from_graph i w)) m;
  put_to_graph_frame w m h : holds w m → holds (snd (put_to_graph h w)) m;
}.
Context {HG : HomeserverGraph W} {GF : GraphFrame}.

Lemma yields_frame {A E} (p : prog W (result A E)) w m :
  holds (snd (p w)) m → yields p w (λ _ w', holds w' m) (λ _ w', holds w' m).
Proof. unfold yields. by destruct (p w) as [[] ?]. Qed.

(** registering a homeserver keeps every record the index holds, the registered
    one's cursor included, whatever fails; when it succeeds the homeserver has a
    record, at cursor 0 if it had none. *)
Theorem persist_if_unknown_keeps_records w m i :
  holds w m →
  yields (persist_if_unknown i) w
    (λ _ w', holds w' (<[i := default (new i) (m !! i)]> m))
    (λ _ w', ∃ m', holds w' m' ∧ m ⊆ m').
Proof.
  intros Hw. unfold persist_if_unknown.
  assert (∀ w', holds w' m → ∃ m', holds w' m' ∧ m ⊆ m') as Hsame by (intros; eexists; done).
  apply yields_ebind, yields_emap_err.
  eapply yields_mono; [apply (yields_frame _ w m); by apply get_from_graph_frame| |by eauto].
  intros graph w1 Hw1. apply yields_ebind, yields_emap_err.
  eapply yields_mono; [exact (get_from_index_spec w1 m i Hw1)| |by eauto].
  intros index w2 [-> Hw2].
  assert (yields (if negb (bool_decide (is_Some graph))
                  then emap_err Model.GraphOperationFailed (put_to_graph (new i))
                  else ret (Ok tt)) w2 (λ _ w', holds w' m) (λ _ w', holds w' m)) as Hgraph.
  { destruct (bool_decide _); simpl; [by apply yields_ret|]. apply yields_emap_err.
    apply yields_frame. by apply put_to_graph_frame. }
  destruct (m !! i) as [h|] eqn:Hi.
  - change (default (new i) (Some h)) with h. rewrite insert_id by done. rewrite (bool_decide_eq_true_2 (is_Some (Some h))) by done.
    destruct (bool_decide (is_Some graph)); simpl in *; [by apply yields_ret|]. apply yields_ebind.
    eapply yields_mono; [exact Hgraph| |by eauto]. intros [] w3 Hw3. simpl.
    by apply yields_ebind, yields_ret, yields_ret.
  - rewrite (bool_decide_eq_false_2 (is_Some None)) by (by intros [? ?]).
    rewrite andb_false_r. apply yields_ebind.
    eapply yields_mono; [exact Hgraph| |by eauto]. intros [] w3 Hw3. simpl.
    apply yields_ebind, yields_emap_err.
    eapply yields_mono; [by apply (put_to_index_yields w3 m (new i))|..]; simpl.
    + intros ? w4 [Hw4 _]. by apply yields_ret.
    + intros ? w4 (m' & Hw4 & [->| ->] & _); [by eauto|].
      eexists. split; [done|]. by apply insert_subseteq.
Qed.
End Index_properties.

End Homeserver.

(** ** The index on Redis *)

Section RedisHomeservers.
Import Homeserver.
Context {D : Type} `{RedisLaws D}.

(** serde's serialization of a record, and of a list of records read back. *)
Class HomeserverCodec := {
  hs_to_json : Homeserver → result string string;
  hs_from_json : string → result (list Homeserver) string;
}.

Class HomeserverCodecLaws `{HomeserverCodec} := {
  hs_roundtrip h : 0 ≤ cursor h ≤ u64_max →
    ∃ t, hs_to_json h = Ok t ∧ decodes hs_from_json t h;
}.

Context `{HomeserverCodecLaws}.

(** [RedisOps::prefix] of the type. *)
Definition HOMESERVER_PREFIX : string := "Homeserver".

#[export] Instance RedisHomeserverIndex : HomeserverIndex (Session D) := {
  get_from_index := json_get_value hs_from_json HOMESERVER_PREFIX;
  put_index_json := λ h, json_put HOMESERVER_PREFIX (id h) (hs_to_json h);
}.

Definition redis_holds (s : Session D) (m : Records) : Prop :=
  ∀ i, doc_holds hs_from_json (db s) (full_key HOMESERVER_PREFIX i) (m !! i)
       ∧ zset (db s) (full_key HOMESERVER_PREFIX i) = ∅.

Lemma homeserver_key_inj i j :
  full_key HOMESERVER_PREFIX i = full_key HOMESERVER_PREFIX j → i = j.
Proof. by intros [=]. Qed.

Lemma redis_holds_put d m h t :
  (∀ s, db s = d → redis_holds s m) → decodes hs_from_json t h →
  ∀ s, db s = JSON_SET (full_key HOMESERVER_PREFIX (id h)) "$" t d →
  redis_holds s (<[id h := h]> m).
Proof.
  intros Hd Ht s Hs i. specialize (Hd {| db := d; conns := []; trips := [] |} eq_refl).
  pose proof (proj2 (Hd (id h))) as Hz. simpl in Hz. rewrite Hs.
  rewrite json_set_zset by done. split; [|apply Hd].
  destruct (decide (i = id h)) as [->|Hne].
  - rewrite lookup_insert_eq. exists t. split; [|done].
    rewrite json_set_doc by exact Hz. by rewrite decide_True.
  - rewrite lookup_insert_ne by done. destruct (Hd i) as [Hdoc _]. simpl in Hdoc.
    assert (json_doc (JSON_SET (full_key HOMESERVER_PREFIX (id h)) "$" t d)
      (full_key HOMESERVER_PREFIX i) = json_doc d (full_key HOMESERVER_PREFIX i)) as Heq.
    { rewrite json_set_doc by exact Hz. rewrite decide_False; [done|].
      by intros ?%homeserver_key_inj. }
    unfold doc_holds in *. by rewrite Heq.
Qed.

(** The Redis index keeps the contract the cursor rules rest on. *)
#[export] Instance RedisHomeserverIndex_spec : HomeserverIndexSpec (Session D) redis_holds.
Proof.
  split.
  - intros s m i Hs. eapply yields_mono.
    + by apply json_get_value_yields, Hs.
    + intros r s' [-> Hdb]. split; [done|]. unfold redis_holds. by rewrite Hdb.
    + intros e s' Hdb. unfold redis_holds. by rewrite Hdb.
  - intros s m h Hs Hc. destruct (hs_roundtrip h Hc) as (t & Ht & Hdec).
    simpl. unfold json_put. rewrite Ht. apply yields_ebind, yields_ret. simpl.
    assert (∀ s1, db s1 = db s → redis_holds s1 m) as Hsame
      by (unfold redis_holds; intros s1 ->; exact Hs).
    apply yields_ebind, yields_conn; [intros s1 Hs1|intros e s1 Hs1; left; by apply Hsame].
    apply yields_query; simpl; rewrite Hs1.
    + intros s2 Hs2. by eapply redis_holds_put.
    + intros e s2 [Hs2|Hs2]; [left; by apply Hsame|right; by eapply redis_holds_put].
Qed.
End RedisHomeservers.

Module MemHomeservers.
Import Homeserver.

#[export] Instance Homeserver_countable : Countable Homeserver.
Proof.
  refine (inj_countable' (λ h, (id h, cursor h)) (λ '(i, c), Build_Homeserver i c) _).
  by intros [].
Defined.

#[export] Instance server : RedisServer MemRedis.t := MemRedis.server (λ _ doc, doc).
#[export] Instance laws : RedisLaws MemRedis.t := MemRedis.laws (λ _ doc, doc).

#[export] Instance codec : HomeserverCodec := {
  hs_to_json := λ h, Ok (Bits.write h);
  hs_from_json := λ s, match Bits.read s with Some h => Ok [h] | None => Err "not a record" end;
}.

#[export] Instance codec_laws : HomeserverCodecLaws (D := MemRedis.t).
Proof.
  split. intros h _. exists (Bits.write h). split; [done|]. exists []. simpl.
  by rewrite Bits.read_write.
Qed.

#[export] Instance graph : HomeserverGraph (Session MemRedis.t) := {
  get_from_graph := λ _, ret (Ok None);
  put_to_graph := λ _, ret (Ok tt);
}.

#[export] Instance graph_frame : GraphFrame (redis_holds (D := MemRedis.t)).
Proof. by split. Qed.

Lemma empty_holds : redis_holds (MemRedis.fresh MemRedis.empty) ∅.
Proof. done. Qed.

End MemHomeservers.

Section Homeserver_witnesses.
Import Homeserver MemHomeservers.

Lemma homeserver_cursor_never_rewinds_witness :
  yields (put_to_index {| id := "hs"; cursor := 7 |}) (MemRedis.fresh MemRedis.empty)
    (λ _ w', redis_holds w' {["hs" := {| id := "hs"; cursor := 7 |}]}) (λ _ _, True).
Proof.
  eapply yields_mono; [apply (homeserver_cursor_never_rewinds redis_holds _ ∅
    {| id := "hs"; cursor := 7 |} empty_holds)| |done].
  - vm_compute. split; discriminate.
  - intros ? w' [Hw' _]. exact Hw'.
Defined.

Lemma persist_if_unknown_keeps_records_witness :
  yields (persist_if_unknown "hs") (MemRedis.fresh MemRedis.empty)
    (λ _ w', redis_holds w' {["hs" := new "hs"]}) (λ _ _, True).
Proof.
  eapply yields_mono; [apply (persist_if_unknown_keeps_records redis_holds _ ∅ "hs" empty_holds)
    | |done].
  intros ? w' Hw'. exact Hw'.
Defined.
End Homeserver_witnesses.

(** ** A user's cursors on Redis *)

Section UserHsCursor_properties.
Import UserHsCursor.
Context {D : Type} `{RedisLaws D}.
Implicit Types (s : Session D) (u h : string).

Definition cursor_set (u : string) : string := full_key SORTED_PREFIX (user_hs_cursor_key u).
Definition score s u h : option Z := zset (db s) (cursor_set u) !! h.

Definition cursors_ok s : Prop :=
  ∀ u, json_doc (db s) (cursor_set u) = None ∧ ∀ h c, score s u h = Some c → exact_score c.

Definition unchanged s s' : Prop := cursors_ok s' ∧ ∀ u h, score s' u h = score s u h.

Definition set_to s s' u h (c : Z) : Prop :=
  cursors_ok s' ∧
  ∀ u' h', score s' u' h' = if decide (u' = u ∧ h' = h) then Some c else score s u' h'.

Lemma unchanged_db s s' : cursors_ok s → db s' = db s → unchanged s s'.
Proof. intros Hs Hdb. unfold unchanged, cursors_ok, score in *. by rewrite Hdb. Qed.

Lemma cursor_set_inj u u' : cursor_set u = cursor_set u' → u = u'.
Proof. by intros [=]. Qed.

Lemma set_to_zset s s' u h c :
  cursors_ok s → exact_score c →
  (∀ k, json_doc (db s') k = json_doc (db s) k) →
  (∀ k, zset (db s') k = if decide (k = cursor_set u) then <[h := c]> (zset (db s) k)
                         else zset (db s) k) →
  set_to s s' u h c.
Proof.
  intros Hs Hc Hdoc Hz.
  assert (∀ u' h', score s' u' h' = if decide (u' = u ∧ h' = h) then Some c else score s u' h')
    as Hsc.
  { intros u' h'. unfold score. rewrite Hz. case_decide as Hk.
    - apply cursor_set_inj in Hk as ->. case_decide as Hd.
      + destruct Hd as [_ ->]. by rewrite lookup_insert_eq.
      + rewrite lookup_insert_ne; [done|]. intros <-. by apply Hd.
    - rewrite decide_False; [done|]. intros [-> _]. done. }
  split; [|done]. intros u'. split; [rewrite Hdoc; apply Hs|].
  intros h' c'. rewrite Hsc. case_decide; [by intros [= <-]|]. apply Hs.
Qed.

Lemma collect_spec h (us : list string) (f : string → option Z) r :
  collect (cursor_of_score h <$> (f <$> us)) = Ok r →
  r = (λ u, default 0 (f u)) <$> us ∧ ∀ u, u ∈ us → 0 ≤ default 0 (f u).
Proof.
  revert r. induction us as [|u us IH]; intros r; [intros [= <-]; set_solver|].
  rewrite !fmap_cons. cbn [collect]. unfold cursor_of_score at 1. case_decide as Hneg; [done|].
  destruct (collect _) as [l|] eqn:Hl; [|done]. intros [= <-].
  destruct (IH l eq_refl) as [-> Hall]. split; [done|]. intros v [->|?]%elem_of_cons; [lia|auto].
Qed.

Lemma read_yields s us h :
  cursors_ok s →
  yields (read us h) s
    (λ r s', db s' = db s ∧ r = (λ u, default 0 (score s u h)) <$> us
             ∧ ∀ u, u ∈ us → 0 ≤ default 0 (score s u h))
    (λ _ s', db s' = db s).
Proof.
  intros Hs. unfold read. apply yields_ebind. set (pairs := _ <$> _).
  apply (yields_mono _ _ (λ r s', r = (λ u, score s u h) <$> us ∧ db s' = db s) _
                         (λ _ s', db s' = db s)); [| |done].
  - assert (pairs = (λ u, (user_hs_cursor_key u, h)) <$> us) as Hp
      by (unfold pairs; by rewrite <- list_fmap_compose).
    unfold check_members. clearbody pairs. destruct pairs as [|p pairs];
      [by destruct us; [apply yields_ret|]|]. rewrite Hp. clear p pairs Hp.
    apply yields_ebind, yields_conn; [|done]. intros s1 Hs1.
    apply yields_reads; [|congruence]. intros s2 Hs2. split; [|congruence].
    rewrite <- list_fmap_compose, Hs1. apply list_fmap_ext. intros i v _. simpl.
    destruct (Hs v) as [Hdoc Hsc]. apply zscore; [exact Hdoc|exact (Hsc h)].
  - intros r s' [-> Hdb]. apply yields_ret.
    destruct (collect _) as [l|] eqn:Hl; [|done]. apply collect_spec in Hl as [-> Hall]. auto.
Qed.

Lemma write_yields s u h c :
  cursors_ok s → 0 ≤ c ≤ 2 ^ 53 →
  yields (write u h c) s
    (λ _ s', 0 ≤ default 0 (score s u h) ≤ c ∧ set_to s s' u h c)
    (λ _ s', unchanged s s' ∨ 0 ≤ default 0 (score s u h) ≤ c ∧ set_to s s' u h c).
Proof.
  intros Hs Hc. unfold write. apply yields_ebind.
  eapply yields_mono; [by apply read_yields| |intros ? s' ?; left; by apply unchanged_db].
  intros l s1 (Hs1 & -> & Hall). simpl. specialize (Hall u). rewrite list_elem_of_singleton in Hall.
  apply yields_ebind, yields_ret.
  destruct (Kv.ensure_cursor_not_backwards c _) as [[]|] eqn:He; [|left; by apply unchanged_db].
  apply ensure_cursor_not_backwards_ok in He. unfold sorted_sets_put.
  rewrite as_f64_exact by lia.
  apply yields_ebind, yields_conn; [|intros ? s2 ?; left; apply unchanged_db; [done|congruence]].
  intros s2 Hs2.
  assert (∀ s3, db s3 = ZADD (cursor_set u) c h (db s) → set_to s s3 u h c) as Hset.
  { intros s3 Hs3. apply set_to_zset; [done|unfold exact_score; lia|..];
      intros k; rewrite Hs3.
    - apply zadd_doc, Hs.
    - rewrite zadd_zset; [|apply Hs|unfold exact_score; lia]. by case_decide; subst. }
  apply yields_query; simpl; rewrite Hs2, Hs1.
  - intros s3 Hs3. split; [naive_solver lia|by apply Hset].
  - intros ? s3 [Hs3|Hs3]; [left; by apply unchanged_db|].
    right. split; [naive_solver lia|by apply Hset].
Qed.

Lemma init_yields s u h :
  cursors_ok s →
  yields (init u h) s
    (λ _ s', match score s u h with Some _ => unchanged s s' | None => set_to s s' u h 0 end)
    (λ _ s', unchanged s s' ∨ score s u h = None ∧ set_to s s' u h 0).
Proof.
  intros Hs. unfold init, add_member_if_absent.
  apply yields_ebind, yields_conn; [|intros ? s1 ?; left; by apply unchanged_db].
  intros s1 Hs1.
  assert (∀ s2, db s2 = ZADD_NX (cursor_set u) 0 h (db s) →
    match score s u h with Some _ => unchanged s s2 | None => set_to s s2 u h 0 end) as Hset.
  { intros s2 Hs2.
    assert (∀ k, zset (db s2) k = if decide (k = cursor_set u) then
      match zset (db s) k !! h with Some _ => zset (db s) k | None => <[h := 0]> (zset (db s) k) end
      else zset (db s) k) as Hz.
    { intros k. rewrite Hs2, zadd_nx_zset by (apply Hs || done). by case_decide; subst. }
    assert (∀ k, json_doc (db s2) k = json_doc (db s) k) as Hdoc
      by (intros k; rewrite Hs2; apply zadd_nx_doc, Hs).
    destruct (score s u h) as [c|] eqn:Hsc; unfold score in Hsc.
    - assert (∀ k, zset (db s2) k = zset (db s) k) as Hsame.
      { intros k. rewrite Hz. case_decide; [|done]. subst. by rewrite Hsc. }
      unfold unchanged, cursors_ok, score in *. split; [|intros; by rewrite Hsame].
      intros v. rewrite Hdoc, Hsame. apply Hs.
    - apply set_to_zset; [done..|]. intros k. rewrite Hz.
      case_decide; [|done]. subst. by rewrite Hsc. }
  apply yields_query; simpl; rewrite Hs1; [done|].
  intros ? s2 [Hs2|Hs2]; [left; by apply unchanged_db|]. specialize (Hset s2 Hs2).
  destruct (score s u h); auto.
Qed.

Definition never_lower s s' : Prop :=
  ∀ u h c, score s u h = Some c → ∃ c', score s' u h = Some c' ∧ c ≤ c'.

Lemma unchanged_never_lower s s' : unchanged s s' → never_lower s s'.
Proof. intros [_ Heq] u h c Hc. rewrite Heq. eauto with lia. Qed.

Lemma set_to_never_lower s s' u h c :
  default 0 (score s u h) ≤ c → set_to s s' u h c → never_lower s s'.
Proof.
  intros Hle [_ Heq] u' h' c' Hc'. rewrite Heq. case_decide as Hd; [|eauto with lia].
  destruct Hd as [-> ->]. rewrite Hc' in Hle. simpl in Hle. eauto.
Qed.

Definition op_cursor (o : op) : Z := match o with Write _ _ c => c | Init _ _ => 0 end.

Lemma run_op_never_lower s o :
  cursors_ok s → 0 ≤ op_cursor o ≤ 2 ^ 53 →
  cursors_ok (snd (run_op o s)) ∧ never_lower s (snd (run_op o s)).
Proof.
  intros Hs Hc. destruct o as [u h c|u h]; simpl in *.
  - pose proof (write_yields s u h c Hs Hc) as Hw. unfold yields in Hw.
    destruct (write u h c s) as [[[]|e] s']; simpl.
    + destruct Hw as [Hle Hset]. split; [apply Hset|]. eapply set_to_never_lower; [|done]. lia.
    + destruct Hw as [Hu|[Hle Hset]]; [split; [apply Hu|by apply unchanged_never_lower]|].
      split; [apply Hset|]. eapply set_to_never_lower; [|done]. lia.
  - pose proof (init_yields s u h Hs) as Hw. unfold yields in Hw.
    destruct (init u h s) as [[[]|e] s']; simpl.
    + destruct (score s u h) eqn:Hsc; (split; [apply Hw|]);
        [by apply unchanged_never_lower|]. eapply set_to_never_lower; [|done]. by rewrite Hsc.
    + destruct Hw as [Hu|[Hle Hset]]; [split; [apply Hu|by apply unchanged_never_lower]|].
      split; [apply Hset|]. eapply set_to_never_lower; [|done]. by rewrite Hle.
Qed.

(** C18: through any history of cursor writes and initialisations, for any users and
    homeservers and under any connection, command and lost-reply failures, no stored
    cursor ever gets lower or disappears: a write behind it is refused, and
    initialising it again, after it advanced, leaves it. *)
Theorem user_cursors_never_rewind s (ops : list op) :
  cursors_ok s → Forall (λ o, 0 ≤ op_cursor o ≤ 2 ^ 53) ops → never_lower s (run_ops ops s).
Proof.
  intros Hs Hops. revert s Hs. induction Hops as [|o ops Ho Hops IH]; intros s Hs; simpl.
  { intros u h c ?. eauto with lia. }
  destruct (run_op_never_lower s o Hs Ho) as [Hs1 Hle].
  intros u h c Hc. destruct (Hle u h c Hc) as (c1 & Hc1 & ?).
  destruct (IH _ Hs1 u h c1 Hc1) as (c2 & ? & ?). exists c2. split; [done|lia].
Qed.

(** a cursor that was written is the cursor read back, exactly, for cursors up to
    2^53; a user without one reads as 0. *)
Theorem user_cursor_roundtrip s u h c :
  cursors_ok s → 0 ≤ c ≤ 2 ^ 53 →
  yields (ebind (write u h c) (λ _, read [u] h)) s (λ r _, r = [c]) (λ _ _, True)
  ∧ (score s u h = None → yields (read [u] h) s (λ r _, r = [0]) (λ _ _, True)).
Proof.
  intros Hs Hc. split.
  - apply yields_ebind. eapply yields_mono; [by apply write_yields| |done].
    intros ? s1 (_ & Hs1 & Hsc). eapply yields_mono; [by apply read_yields| |done].
    intros r s2 (_ & -> & _). simpl. by rewrite Hsc, decide_True.
  - intros Hnone. eapply yields_mono; [by apply read_yields| |done].
    intros r s2 (_ & -> & _). simpl. by rewrite Hnone.
Qed.
End UserHsCursor_properties.

Section UserHsCursor_witnesses.
Import UserHsCursor MemHomeservers.

Lemma empty_cursors_ok : cursors_ok (MemRedis.fresh MemRedis.empty).
Proof. done. Qed.

Lemma user_cursors_never_rewind_witness :
  let s := run_ops [Write "u" "hs" 7] (MemRedis.fresh MemRedis.empty) in
  never_lower s (run_ops [Init "u" "hs"; Write "u" "hs" 5; Write "u" "hs" 9] s).
Proof.
  intros s. apply user_cursors_never_rewind.
  - apply (run_op_never_lower _ (Write "u" "hs" 7) empty_cursors_ok).
    vm_compute. split; discriminate.
  - repeat constructor; vm_compute; discriminate.
Defined.

Lemma user_cursor_roundtrip_witness :
  yields (ebind (write "u" "hs" 7) (λ _, read ["u"] "hs")) (MemRedis.fresh MemRedis.empty)
    (λ r _, r = [7]) (λ _ _, True).
Proof.
  apply (user_cursor_roundtrip _ "u" "hs" 7 empty_cursors_ok).
  vm_compute. split; discriminate.
Defined.
End UserHsCursor_witnesses.
