(* ===== verification/World.v ===== *)
(** * World: what the code asks of its environment

    The components run as programs over a world [W] that each of them leaves
    abstract: the clocks, the shutdown signal and the event handler are capability
    classes, instantiated by the witnesses with small concrete worlds. A capability
    is a program, so every use may find the world changed by somebody else. *)

From S2P Require Import Prelude Errors Events.
Local Open Scope Z_scope.

(** [chrono::Utc::now] and its two readings, and [tokio::time::Instant::now] in
    nanoseconds. *)
Class Clock (W : Type) := {
  DateTime : Type;
  utc_now : prog W DateTime;
  timestamp_millis : DateTime → Z;
  timestamp_nanos_opt : DateTime → option Z;
  instant_now : prog W Z;
}.

(** [*self.shutdown_rx.borrow()] *)
Class Shutdown (W : Type) := { shutdown_requested : prog W bool }.

(** The trait [EventHandler] of nexus-watcher/src/events/mod.rs. *)
Class EventHandler (W : Type) `{Specs} := {
  handle : Event → prog W (result unit Ep.EventProcessorError);
}.

(** [RunOutcome] of nexus-watcher/src/service/indexer/mod.rs: how a run that did not
    fail ended. *)
Inductive RunOutcome := Completed | BudgetSpent.

#[export] Instance RunOutcome_eq_dec : EqDecision RunOutcome.
Proof. solve_decision. Defined.

(** The trait [HomeserverClient] of nexus-watcher/src/homeserver/client.rs, for the
    requests the processors make. *)
Class HomeserverClient (W : Type) := {
  (** homeserver, cursor, limit *)
  poll_events : string → Z → Z → prog W (result (list string) Hs.HsError);
  (** homeserver, user, cursor, limit *)
  user_events : string → string → Z → Z → prog W (result (list HsStreamEvent) Hs.HsError);
}.

(** The capabilities of a world, in a world next to some other state. *)
#[export] Instance lift_clock {W S} `{Clock W} : Clock (W * S) := {
  DateTime := DateTime;
  utc_now := lift utc_now;
  timestamp_millis := timestamp_millis;
  timestamp_nanos_opt := timestamp_nanos_opt;
  instant_now := lift instant_now;
}.

#[export] Instance lift_handler {W S} {SP : Specs} `{!EventHandler W} : EventHandler (W * S) := {
  handle := λ e, lift (handle e);
}.
