(* ===== verification/RetryStore.v ===== *)
(** * The retry queue: entries and the store contract

    nexus-watcher/src/events/retry/event.rs (the entry) and store.rs (the trait
    [RetryStore] and its in-memory implementation). [RetryStoreSpec] is the contract
    the trait documents, over an abstract queue [gmap IndexKey RetryEvent];
    [InMemoryRetryStore] implements it here, [RedisRetryStore] in RedisRetry.v. *)

From S2P Require Import Prelude Errors Events World.
Local Open Scope Z_scope.

(** ** Entries *)

Abbreviation IndexKey := string (only parsing).

Record RetryEvent := {
  retry_count : Z;
  retry_event_type : EventType;
  event_uri : string;
  next_retry_at : Z;
  origin_homeserver_id : string;
  nonce : Z;
}.

#[export] Instance RetryEvent_eq_dec : EqDecision RetryEvent.
Proof. solve_decision. Defined.

Definition with_schedule (e : RetryEvent) (count at_ : Z) : RetryEvent :=
  {| retry_count := count; retry_event_type := retry_event_type e;
     event_uri := event_uri e; next_retry_at := at_;
     origin_homeserver_id := origin_homeserver_id e; nonce := nonce e |}.

(** [hash_str_hex] is BLAKE3 in hexadecimal, a parameter. *)
Class UriHash := { hash_str_hex : string → string }.

Definition for_uri `{UriHash} (uri : string) : IndexKey := hash_str_hex uri.

Section Entry.
Context {W : Type} `{Clock W, Specs}.
Local Open Scope nexus_scope.

(** [RetryEvent::fresh_nonce] *)
Definition fresh_nonce : prog W Z :=
  let* now := utc_now in
  ret (match timestamp_nanos_opt now with
       | Some n => n
       | None => timestamp_millis now
       end).

(** [RetryEvent::new] *)
Definition RetryEvent_new (event : Event) (next_retry_at : Z) (origin : string) :
    prog W RetryEvent :=
  let* nonce := fresh_nonce in
  ret {| retry_count := 0; retry_event_type := event_type event;
         event_uri := uri event; next_retry_at := next_retry_at;
         origin_homeserver_id := origin; nonce := nonce |}.
End Entry.

(** ** The trait *)

Class RetryStore (W : Type) := {
  put : RetryEvent → prog W (result unit Ep.EventProcessorError);
  get : IndexKey → prog W (result (option RetryEvent) Ep.EventProcessorError);
  remove : IndexKey → prog W (result unit Ep.EventProcessorError);
  remove_if : IndexKey → Z → prog W (result bool Ep.EventProcessorError);
  put_if : RetryEvent → Z → prog W (result bool Ep.EventProcessorError);
  fetch_ready : Z → option nat →
    prog W (result (list (IndexKey * RetryEvent)) Ep.EventProcessorError);
}.

(** ** The contract, over the abstract queue *)

Abbreviation Queue := (gmap IndexKey RetryEvent).

Definition current (m : Queue) (k : IndexKey) (expected : Z) : bool :=
  match m !! k with
  | Some stored => bool_decide (nonce stored = expected)
  | None => false
  end.

(** Ascending by (next_retry_at, key). *)
Definition entry_le (a b : IndexKey * RetryEvent) : Prop :=
  next_retry_at (snd a) < next_retry_at (snd b)
  ∨ (next_retry_at (snd a) = next_retry_at (snd b) ∧ str_le (fst a) (fst b)).

#[export] Instance entry_le_dec : RelDecision entry_le.
Proof. intros a b. unfold entry_le. apply _. Defined.

Definition ready_entries (m : Queue) (now : Z) : list (IndexKey * RetryEvent) :=
  merge_sort entry_le (filter (λ '(_, e), next_retry_at e ≤ now) (map_to_list m)).

Definition truncate {A} (limit : option nat) (l : list A) : list A :=
  match limit with Some n => take n l | None => l end.

(** An operation that should turn the queue [m] into [m'] leaves [m'] when it
    succeeds; when it fails it may leave either (the reply of a performed write can
    be lost). *)
Definition writes {W A E} (repr : W → Queue → Prop) (m m' : Queue) (ok : A → Prop)
    (p : prog W (result A E)) (w : W) : Prop :=
  yields p w (λ a w', ok a ∧ repr w' m') (λ _ w', repr w' m ∨ repr w' m').

(** [repr w m]: the store of world [w] holds the queue [m]. [storable] and [timely]
    bound the entries and instants an implementation can represent. *)
Class RetryStoreSpec (W : Type) `{UriHash, RetryStore W} (repr : W → Queue → Prop)
    (storable : RetryEvent → Prop) (timely : Z → Prop) := {
  put_spec w m e : repr w m → storable e →
    writes repr m (<[for_uri (event_uri e) := e]> m) (λ _, True) (put e) w;
  get_spec w m k : repr w m → writes repr m m (λ r, r = m !! k) (get k) w;
  remove_if_spec w m k n : repr w m →
    writes repr m (if current m k n then delete k m else m)
      (λ removed, removed = current m k n) (remove_if k n) w;
  put_if_spec w m e n : repr w m → storable e →
    let k := for_uri (event_uri e) in
    writes repr m (if current m k n then <[k := e]> m else m)
      (λ done, done = current m k n) (put_if e n) w;
  (** Ready entries come in order, no more than [limit], and a page never skips
      one. It may be short: an implementation can spend part of the limit on
      inconsistencies it cleans up. *)
  fetch_ready_spec w m now limit : repr w m → timely now →
    writes repr m m
      (λ page, ∃ n, page = take n (ready_entries m now)
                    ∧ match limit with Some l => (n ≤ l)%nat | None => True end)
      (fetch_ready now limit) w;
}.

(** ** The in-memory store *)

Section InMemory.
Context `{UriHash}.
Local Open Scope nexus_scope.

(** The world is the map behind the mutex, so each operation is atomic. *)
Definition inmem_put (event : RetryEvent) : prog Queue (result unit Ep.EventProcessorError) :=
  λ inner, (Ok tt, <[for_uri (event_uri event) := event]> inner).

Definition inmem_get (k : IndexKey) :
    prog Queue (result (option RetryEvent) Ep.EventProcessorError) :=
  λ inner, (Ok (inner !! k), inner).

Definition inmem_remove (k : IndexKey) : prog Queue (result unit Ep.EventProcessorError) :=
  λ inner, (Ok tt, delete k inner).

Definition inmem_remove_if (k : IndexKey) (expected_nonce : Z) :
    prog Queue (result bool Ep.EventProcessorError) :=
  λ guard,
  match guard !! k with
  | Some stored =>
      if decide (nonce stored = expected_nonce) then (Ok true, delete k guard)
      else (Ok false, guard)
  | None => (Ok false, guard)
  end.

Definition inmem_put_if (event : RetryEvent) (expected_nonce : Z) :
    prog Queue (result bool Ep.EventProcessorError) :=
  λ guard,
  let k := for_uri (event_uri event) in
  match guard !! k with
  | Some stored =>
      if decide (nonce stored = expected_nonce) then (Ok true, <[k := event]> guard)
      else (Ok false, guard)
  | None => (Ok false, guard)
  end.

Definition inmem_fetch_ready (now : Z) (limit : option nat) :
    prog Queue (result (list (IndexKey * RetryEvent)) Ep.EventProcessorError) :=
  λ guard,
  let ready := filter (λ '(_, event), next_retry_at event ≤ now) (map_to_list guard) in
  let ready := merge_sort entry_le ready in
  (Ok (truncate limit ready), guard).

#[export] Instance InMemoryRetryStore : RetryStore Queue := {
  put := inmem_put;
  get := inmem_get;
  remove := inmem_remove;
  remove_if := inmem_remove_if;
  put_if := inmem_put_if;
  fetch_ready := inmem_fetch_ready;
}.
End InMemory.

(** ** Properties *)

#[export] Instance entry_le_total : Total entry_le.
Proof.
  intros [k1 e1] [k2 e2]. unfold entry_le. simpl.
  destruct (Z.lt_trichotomy (next_retry_at e1) (next_retry_at e2)) as [?|[?|?]]; [auto| |auto].
  destruct (total str_le k1 k2); auto.
Qed.

#[export] Instance entry_le_trans : Transitive entry_le.
Proof.
  intros [k1 e1] [k2 e2] [k3 e3]. unfold entry_le. simpl.
  intros [?|[? ?]] [?|[? ?]]; try (left; lia).
  right. split; [lia|by etransitivity].
Qed.

Lemma ready_entries_elem m now k e :
  (k, e) ∈ ready_entries m now ↔ m !! k = Some e ∧ next_retry_at e ≤ now.
Proof.
  unfold ready_entries. rewrite merge_sort_Permutation, list_elem_of_filter.
  rewrite elem_of_map_to_list. tauto.
Qed.


(** Every entry is stored under the key of its own URI. *)
Definition keyed `{UriHash} (m : Queue) : Prop :=
  ∀ k e, m !! k = Some e → k = for_uri (event_uri e).

Section Queue_lemmas.
Context `{UriHash}.
Implicit Types (m : Queue).

Lemma keyed_insert m e : keyed m → keyed (<[for_uri (event_uri e) := e]> m).
Proof. intros Hm k e'. rewrite lookup_insert_Some. intros [[<- <-]|[_ ?]]; eauto. Qed.

Lemma keyed_delete m k : keyed m → keyed (delete k m).
Proof. intros Hm k' e'. rewrite lookup_delete_Some. intros [_ ?]; eauto. Qed.

Lemma current_true m k n :
  current m k n = true ↔ ∃ e, m !! k = Some e ∧ nonce e = n.
Proof.
  unfold current. destruct (m !! k) as [e|]; [rewrite bool_decide_eq_true|]; naive_solver.
Qed.

Lemma current_false m k n e : m !! k = Some e → nonce e ≠ n → current m k n = false.
Proof. unfold current. intros -> ?. by apply bool_decide_eq_false_2. Qed.

(** The in-memory store implements the contract, and never fails. *)
#[export] Instance InMemoryRetryStore_spec : 
  RetryStoreSpec Queue (=) (λ _, True) (λ _, True).
Proof.
  split; simpl; intros; subst; unfold writes, yields, inmem_remove_if, inmem_put_if, current; simpl.
  - done.
  - done.
  - destruct (m !! k); [case_decide|]; simpl;
      rewrite ?bool_decide_eq_true_2, ?bool_decide_eq_false_2 by done; done.
  - destruct (m !! for_uri (event_uri e)); [case_decide|]; simpl;
      rewrite ?bool_decide_eq_true_2, ?bool_decide_eq_false_2 by done; done.
  - split; [|done]. fold (ready_entries m now). destruct limit as [l|]; simpl; [by exists l|].
    exists (length (ready_entries m now)). by rewrite firstn_all.
Qed.
End Queue_lemmas.
