(* ===== verification/RedisRetry.v ===== *)
(** * The Redis retry store

    nexus-watcher/src/events/retry/event.rs and [RedisRetryStore] of store.rs: an
    entry is a JSON document under "RetryManagerV2:state:<key>" and a member of the
    sorted set "RetryManagerV2:events", scored by [next_retry_at]. The Lua scripts
    run atomically, as one command. The store is proved to implement
    [RetryStoreSpec], whatever calls fail and however. *)

From Stdlib Require Import Ascii.
From S2P Require Import Prelude Errors Events World Redis RetryStore.
Local Open Scope Z_scope.

Definition RETRY_MANAGER_PREFIX : string := "RetryManagerV2".
Definition RETRY_MANAGER_EVENTS_INDEX : string := "events".
Definition RETRY_MANAGER_STATE_INDEX : string := "state".

Definition state_json_key (k : IndexKey) : string :=
  RETRY_MANAGER_PREFIX +:+ ":" +:+ RETRY_MANAGER_STATE_INDEX +:+ ":" +:+ k.

Definition events_sorted_set_key : string :=
  RETRY_MANAGER_PREFIX +:+ ":" +:+ RETRY_MANAGER_EVENTS_INDEX.

(** ** The scripts *)

(** [string.match(stored, '^%[(%-?%d+)%]$')] *)
Definition is_digit (c : ascii) : bool :=
  bool_decide (48 ≤ Ascii.N_of_ascii c ∧ Ascii.N_of_ascii c ≤ 57)%N.

Definition all_digits (l : list ascii) : bool := forallb is_digit l.

Definition is_int_literal (l : list ascii) : bool :=
  let digits := match l with "-"%char :: ds => ds | _ => l end in
  match digits with [] => false | _ => all_digits digits end.

Definition lua_match_nonce (stored : string) : option string :=
  match String.list_ascii_of_string stored with
  | "["%char :: rest =>
      match rev rest with
      | "]"%char :: mid =>
          if is_int_literal (rev mid) then Some (String.string_of_list_ascii (rev mid)) else None
      | _ => None
      end
  | _ => None
  end.

Section Scripts.
Context {D : Type} `{RedisServer D}.

(** [NONCE_GUARD_LUA]: whether the script goes on to its action. *)
Definition NONCE_GUARD_LUA (state_key expected : string) (d : D) : bool :=
  match JSON_GET state_key "$.nonce" d with
  | None => false
  | Some stored => bool_decide (default "0" (lua_match_nonce stored) = expected)
  end.

Definition REMOVE_IF_NONCE_SCRIPT (state_key events_key expected member : string) : prog D Z :=
  λ d, if NONCE_GUARD_LUA state_key expected d
       then (1, ZREM events_key member (JSON_DEL state_key d))
       else (0, d).

Definition REMOVE_STALE_SCRIPT (events_key : string) (entries : list (string * string)) :
    prog D Z :=
  λ d, (1, foldl (λ d '(state_key, member),
                    if EXISTS state_key d then d else ZREM events_key member d) d entries).

Definition PUT_IF_NONCE_SCRIPT (state_key events_key expected payload : string)
    (score : Z) (member : string) : prog D Z :=
  λ d, if NONCE_GUARD_LUA state_key expected d
       then (1, ZADD events_key score member (JSON_SET state_key "$" payload d))
       else (0, d).
End Scripts.

(** ** The store's operations *)

(** serde's serialization of an entry, and of a list of entries read back. *)
Class RetryCodec := {
  to_json : RetryEvent → result string string;
  from_json : string → result (list RetryEvent) string;
}.

Section RedisRetryStore.
Context {D : Type} `{RedisServer D, RetryCodec, UriHash}.
Local Open Scope nexus_scope.

Definition serialize (e : RetryEvent) : prog (Session D) (result string Kv.RedisError) :=
  ret (map_err Kv.SerializationFailed (to_json e)).

Definition put_to_index (e : RetryEvent) (k : IndexKey) :
    prog (Session D) (result unit Kv.RedisError) :=
  let? payload := serialize e in
  let? _ := get_redis_conn in
  query (updates (λ d, ZADD events_sorted_set_key (next_retry_at e) k
                         (JSON_SET (state_json_key k) "$" payload d))).

Definition check_index_key (k : IndexKey) : prog (Session D) (result bool Kv.RedisError) :=
  let? rank := check_member RETRY_MANAGER_PREFIX RETRY_MANAGER_EVENTS_INDEX k in
  ret (Ok (bool_decide (is_Some rank))).

Definition get_from_index (k : IndexKey) :
    prog (Session D) (result (option RetryEvent) Kv.RedisError) :=
  json_get_value from_json RETRY_MANAGER_PREFIX (RETRY_MANAGER_STATE_INDEX +:+ ":" +:+ k).

Definition get_multiple_from_index (ks : list IndexKey) :
    prog (Session D) (result (list (option RetryEvent)) Kv.RedisError) :=
  json_get_multiple from_json RETRY_MANAGER_PREFIX
    ((λ k, RETRY_MANAGER_STATE_INDEX +:+ ":" +:+ k) <$> ks).

Definition remove_from_index (k : IndexKey) : prog (Session D) (result unit Kv.RedisError) :=
  let? _ := sorted_sets_del RETRY_MANAGER_PREFIX RETRY_MANAGER_EVENTS_INDEX [k] in
  json_del_multiple RETRY_MANAGER_PREFIX [RETRY_MANAGER_STATE_INDEX +:+ ":" +:+ k].

Definition remove_from_index_if_nonce (k : IndexKey) (expected_nonce : Z) :
    prog (Session D) (result bool Kv.RedisError) :=
  let? _ := get_redis_conn in
  let? removed := query (REMOVE_IF_NONCE_SCRIPT (state_json_key k) events_sorted_set_key
                           (pretty expected_nonce) k) in
  ret (Ok (bool_decide (removed = 1))).

Definition put_to_index_if_nonce (e : RetryEvent) (k : IndexKey) (expected_nonce : Z) :
    prog (Session D) (result bool Kv.RedisError) :=
  let? payload := serialize e in
  let? _ := get_redis_conn in
  let? updated := query (PUT_IF_NONCE_SCRIPT (state_json_key k) events_sorted_set_key
                           (pretty expected_nonce) payload (next_retry_at e) k) in
  ret (Ok (bool_decide (updated = 1))).

Definition remove_stale_index_entries (ks : list IndexKey) :
    prog (Session D) (result unit Kv.RedisError) :=
  match ks with
  | [] => ret (Ok tt)
  | _ =>
      let? _ := get_redis_conn in
      let? _ := query (REMOVE_STALE_SCRIPT events_sorted_set_key
                         ((λ k, (state_json_key k, k)) <$> ks)) in
      ret (Ok tt)
  end.

(** [RetryEvent::fetch_ready]; any failure becomes a generic error. *)
Definition fetch_ready_keys (now : Z) (limit : option nat) :
    prog (Session D) (result (list (IndexKey * Z)) Ep.EventProcessorError) :=
  emap_err (λ e, Ep.Generic ("Failed to fetch retry events: " +:+ Kv.to_string e))
    (let? pairs := get_range RETRY_MANAGER_PREFIX RETRY_MANAGER_EVENTS_INDEX
                     None (Some (as_f64 now)) (Some 0) (Z.of_nat <$> limit) in
     ret (Ok (default [] pairs))).

Fixpoint split_page (pairs : list (IndexKey * Z)) (maybe_events : list (option RetryEvent)) :
    list (IndexKey * RetryEvent) * list IndexKey :=
  match pairs, maybe_events with
  | (index_key, _) :: pairs, maybe_event :: maybe_events =>
      let '(events, stale) := split_page pairs maybe_events in
      match maybe_event with
      | Some event => ((index_key, event) :: events, stale)
      | None => (events, index_key :: stale)
      end
  | _, _ => ([], [])
  end.

Definition redis_fetch_ready (now : Z) (limit : option nat) :
    prog (Session D) (result (list (IndexKey * RetryEvent)) Ep.EventProcessorError) :=
  let? key_score_pairs := fetch_ready_keys now limit in
  let keys := fst <$> key_score_pairs in
  let? maybe_events := emap_err Ep.from_redis (get_multiple_from_index keys) in
  let '(events, stale) := split_page key_score_pairs maybe_events in
  match stale with
  | [] => ret (Ok events)
  | _ =>
      let? _ := emap_err Ep.from_redis (remove_stale_index_entries stale) in
      ret (Ok events)
  end.

#[export] Instance RedisRetryStore : RetryStore (Session D) := {
  put := λ event, emap_err Ep.from_redis (put_to_index event (for_uri (event_uri event)));
  get := λ k, emap_err Ep.from_redis (get_from_index k);
  remove := λ k, emap_err Ep.from_redis (remove_from_index k);
  remove_if := λ k n, emap_err Ep.from_redis (remove_from_index_if_nonce k n);
  put_if := λ event n,
    emap_err Ep.from_redis (put_to_index_if_nonce event (for_uri (event_uri event)) n);
  fetch_ready := redis_fetch_ready;
}.
End RedisRetryStore.

(** ** The Lua pattern reads nonces back *)

Lemma pretty_N_char_digit n : is_digit (pretty_N_char n) = true.
Proof. unfold pretty_N_char. by repeat case_match. Qed.

Lemma pretty_N_go_digits x s :
  all_digits (String.list_ascii_of_string s) = true →
  all_digits (String.list_ascii_of_string (pretty_N_go x s)) = true.
Proof.
  revert s. induction (N.lt_wf_0 x) as [x _ IH]; intros s Hs.
  destruct (decide (0 < x)%N) as [Hx|Hx].
  - rewrite pretty_N_go_step by done. apply IH; [by apply N.div_lt|].
    unfold all_digits. cbn [String.list_ascii_of_string forallb].
    by rewrite pretty_N_char_digit.
  - assert (x = 0)%N as -> by lia. done.
Qed.

Lemma pretty_N_digits (x : N) :
  all_digits (String.list_ascii_of_string (pretty x)) = true ∧ pretty x ≠ "".
Proof.
  unfold pretty, pretty_N. case_decide as Hx; [done|]. split; [by apply pretty_N_go_digits|].
  intros Heq. apply Hx.
  assert (pretty x = pretty 0%N → x = 0%N) as Hinj by apply (inj pretty). clear Hinj.
  rewrite pretty_N_go_step in Heq by lia.
  assert (∀ y s, s ≠ "" → pretty_N_go y s ≠ "") as Hne.
  { clear. intros y. induction (N.lt_wf_0 y) as [y _ IH]; intros s Hs.
    destruct (decide (0 < y)%N); [|by assert (y = 0)%N as -> by lia].
    rewrite pretty_N_go_step by done. apply IH; [by apply N.div_lt|done]. }
  by apply Hne in Heq.
Qed.

Lemma is_int_literal_digits l :
  all_digits l = true → l ≠ [] → is_int_literal l = true.
Proof.
  intros Hd Hne. unfold is_int_literal. destruct l as [|c l]; [done|].
  destruct (decide (c = "-"%char)) as [->|Hc]; [done|].
  destruct c as [[] [] [] [] [] [] [] []]; try done.
Qed.

Lemma is_int_literal_pretty (n : Z) :
  is_int_literal (String.list_ascii_of_string (pretty n)) = true.
Proof.
  destruct n as [|p|p]; [done| |].
  - destruct (pretty_N_digits (Npos p)) as [Hd Hne].
    change (pretty (Zpos p)) with (pretty (N.pos p)).
    apply is_int_literal_digits; [done|]. by destruct (pretty (N.pos p)).
  - destruct (pretty_N_digits (Npos p)) as [Hd Hne].
    change (pretty (Zneg p)) with ("-" +:+ pretty (N.pos p)).
    unfold is_int_literal. simpl.
    destruct (pretty (N.pos p)) as [|c s]; [done|]. exact Hd.
Qed.

Lemma lua_match_nonce_reply (n : Z) :
  lua_match_nonce ("[" +:+ pretty n +:+ "]") = Some (pretty n).
Proof.
  assert (∀ s1 s2, String.list_ascii_of_string (s1 +:+ s2)
    = String.list_ascii_of_string s1 ++ String.list_ascii_of_string s2) as Happ.
  { induction s1 as [|c s1 IH]; intros s2; simpl; [done|]. by rewrite IH. }
  unfold lua_match_nonce. rewrite !Happ. simpl.
  rewrite rev_app_distr. simpl. rewrite rev_involutive, is_int_literal_pretty.
  by rewrite String.string_of_list_ascii_of_string.
Qed.

(** ** The store holds a queue *)

Section Refinement.
Context {D : Type} `{RedisLaws D, RetryCodec, UriHash}.
Implicit Types (d : D) (m : Queue) (e : RetryEvent) (k : IndexKey).

(** A document of entry [e]; one written before the nonce field existed answers the
    nonce query with no match, and is read back with nonce 0. *)
Definition doc_of (t : string) (e : RetryEvent) : Prop :=
  decodes from_json t e
  ∧ default "0" (lua_match_nonce (json_reply "$.nonce" t)) = pretty (nonce e).

(** The database holds the queue [m]. Members without a document (tombstones) are
    allowed, entries without a member are not. *)
Record db_holds (d : D) (m : Queue) : Prop := {
  holds_entry k e : m !! k = Some e →
    (∃ t, json_doc d (state_json_key k) = Some t ∧ doc_of t e)
    ∧ zset d events_sorted_set_key !! k = Some (next_retry_at e);
  holds_absent k : m !! k = None → json_doc d (state_json_key k) = None;
  holds_states k : zset d (state_json_key k) = ∅;
  holds_events : json_doc d events_sorted_set_key = None;
  holds_scores k s : zset d events_sorted_set_key !! k = Some s → exact_score s;
}.

Definition redis_repr (s : Session D) (m : Queue) : Prop := db_holds (db s) m.

Lemma state_key_neq k : state_json_key k ≠ events_sorted_set_key.
Proof. done. Qed.

Lemma events_key_neq k : events_sorted_set_key ≠ state_json_key k.
Proof. done. Qed.

Lemma state_key_inj k k' : state_json_key k = state_json_key k' → k = k'.
Proof. by intros [=]. Qed.

(** How the two keys of one entry [k] change together: its document becomes [doc]
    and the set's other members stay. *)
Lemma db_holds_update d d' m m' k (doc : option string) :
  db_holds d m →
  (∀ k', json_doc d' k' = if decide (k' = state_json_key k) then doc else json_doc d k') →
  (∀ k', k' ≠ events_sorted_set_key → zset d' k' = zset d k') →
  (∀ k', k' ≠ k → zset d' events_sorted_set_key !! k' = zset d events_sorted_set_key !! k') →
  (∀ k', k' ≠ k → m' !! k' = m !! k') →
  match m' !! k with
  | Some e => (∃ t, doc = Some t ∧ doc_of t e)
              ∧ zset d' events_sorted_set_key !! k = Some (next_retry_at e)
              ∧ exact_score (next_retry_at e)
  | None => doc = None ∧ zset d' events_sorted_set_key !! k = None
  end →
  db_holds d' m'.
Proof.
  intros Hd Hdoc Hz Hev Hm Hk. split.
  - intros k' e' He'. rewrite Hdoc. destruct (decide (k' = k)) as [->|Hne].
    + rewrite He' in Hk. rewrite decide_True by done. naive_solver.
    + rewrite Hm in He' by done. rewrite decide_False by (by intros ?%state_key_inj).
      rewrite Hev by done. by apply Hd.
  - intros k' He'. rewrite Hdoc. destruct (decide (k' = k)) as [->|Hne].
    + rewrite He' in Hk. rewrite decide_True by done. naive_solver.
    + rewrite Hm in He' by done. rewrite decide_False by (by intros ?%state_key_inj).
      by apply Hd.
  - intros k'. rewrite Hz by apply state_key_neq. apply Hd.
  - rewrite Hdoc, decide_False by apply events_key_neq. apply (holds_events _ _ Hd).
  - intros k' s. destruct (decide (k' = k)) as [->|Hne].
    + destruct (m' !! k); naive_solver.
    + rewrite Hev by done. by apply (holds_scores _ _ Hd).
Qed.

Lemma db_holds_put d m k e t :
  db_holds d m → doc_of t e → exact_score (next_retry_at e) →
  db_holds (ZADD events_sorted_set_key (next_retry_at e) k
              (JSON_SET (state_json_key k) "$" t d)) (<[k := e]> m).
Proof.
  intros Hd Ht Hs. pose proof (holds_states _ _ Hd k) as Hst.
  assert (json_doc (JSON_SET (state_json_key k) "$" t d) events_sorted_set_key = None) as Hev.
  { rewrite json_set_doc, decide_False by (done || apply events_key_neq).
    apply (holds_events _ _ Hd). }
  apply (db_holds_update d _ m _ k (Some t)); [done|..].
  - intros k'. by rewrite zadd_doc, json_set_doc.
  - intros k' Hne. by rewrite zadd_zset, decide_False, json_set_zset.
  - intros k' Hne. rewrite zadd_zset, decide_True, json_set_zset by done.
    by rewrite lookup_insert_ne.
  - intros k' Hne. by rewrite lookup_insert_ne.
  - rewrite lookup_insert_eq. split_and!; [by eauto| |done].
    by rewrite zadd_zset, decide_True, lookup_insert_eq.
Qed.

Lemma db_holds_remove d m k :
  db_holds d m →
  db_holds (ZREM events_sorted_set_key k (JSON_DEL (state_json_key k) d)) (delete k m).
Proof.
  intros Hd. pose proof (holds_states _ _ Hd k) as Hst.
  apply (db_holds_update d _ m _ k None); [done|..].
  - intros k'. by rewrite zrem_doc, json_del_doc.
  - intros k' Hne. by rewrite zrem_zset, decide_False, json_del_zset.
  - intros k' Hne. rewrite zrem_zset, decide_True, json_del_zset by done.
    by rewrite lookup_delete_ne.
  - intros k' Hne. by rewrite lookup_delete_ne.
  - rewrite lookup_delete_eq. split; [done|].
    by rewrite zrem_zset, decide_True, lookup_delete_eq.
Qed.

(** Dropping a member that has no entry changes nothing. *)
Lemma db_holds_zrem d m k :
  db_holds d m → m !! k = None → db_holds (ZREM events_sorted_set_key k d) m.
Proof.
  intros Hd Hk. apply (db_holds_update d _ m _ k None); [done|..].
  - intros k'. rewrite zrem_doc. case_decide; subst; [by apply (holds_absent _ _ Hd)|done].
  - intros k' Hne. by rewrite zrem_zset, decide_False.
  - intros k' Hne. rewrite zrem_zset, decide_True by done. by rewrite lookup_delete_ne.
  - done.
  - rewrite Hk. split; [done|]. by rewrite zrem_zset, decide_True, lookup_delete_eq.
Qed.

Lemma guard_current d m k n :
  db_holds d m → NONCE_GUARD_LUA (state_json_key k) (pretty n) d = current m k n.
Proof.
  intros Hd. unfold NONCE_GUARD_LUA, current. rewrite json_get.
  destruct (m !! k) as [e|] eqn:He.
  - apply (holds_entry _ _ Hd) in He as [(t & -> & _ & Hn) _]. simpl. rewrite Hn.
    apply bool_decide_ext. split; [apply (inj pretty)|congruence].
  - by rewrite (holds_absent _ _ Hd) by done.
Qed.

Lemma remove_stale_holds d m ks :
  db_holds d m →
  db_holds (snd (REMOVE_STALE_SCRIPT events_sorted_set_key
                   ((λ k, (state_json_key k, k)) <$> ks) d)) m.
Proof.
  unfold REMOVE_STALE_SCRIPT. simpl. revert d.
  induction ks as [|k ks IH]; intros d Hd; simpl; [done|]. apply IH.
  destruct (EXISTS _ d) eqn:Hex; [done|]. apply db_holds_zrem; [done|].
  destruct (m !! k) as [e|] eqn:He; [|done].
  apply (holds_entry _ _ Hd) in He as [(t & Ht & _) _].
  rewrite exists_doc in Hex; [done|]. by rewrite Ht.
Qed.

(** *** A page of the sorted set is a prefix of the ready entries *)

(** The entry behind a member, if it has one. *)
Definition resolve (m : Queue) (p : IndexKey * Z) : option (IndexKey * RetryEvent) :=
  (λ e, (fst p, e)) <$> m !! fst p.

Lemma resolve_Some m p k e : resolve m p = Some (k, e) ↔ k = fst p ∧ m !! k = Some e.
Proof. unfold resolve. destruct (m !! p.1) eqn:?; naive_solver. Qed.

Lemma omap_resolve_NoDup m (l : list (IndexKey * Z)) :
  NoDup (fst <$> l) → NoDup (omap (resolve m) l).
Proof.
  induction l as [|p l IH]; intros Hnd; [constructor|].
  rewrite fmap_cons, NoDup_cons in Hnd. destruct Hnd as [Hp Hnd].
  cbn [omap list_omap]. destruct (resolve m p) as [[k e]|] eqn:Hr; [|by apply IH].
  apply resolve_Some in Hr as [-> He].
  constructor; [|by apply IH]. intros (q & Hq & Heq)%list_elem_of_omap.
  apply resolve_Some in Heq as [Heq _]. apply Hp. rewrite Heq. by apply list_elem_of_fmap_2.
Qed.

Lemma omap_resolve_sorted m (z : gmap string Z) l :
  (∀ k e, m !! k = Some e → z !! k = Some (next_retry_at e)) →
  (∀ k s, (k, s) ∈ l → z !! k = Some s) →
  StronglySorted member_le l → StronglySorted entry_le (omap (resolve m) l).
Proof.
  intros Hm Hl Hs. induction Hs as [|p l Hs IH Hp]; [constructor|].
  assert (StronglySorted entry_le (omap (resolve m) l)) as IH' by (apply IH; set_solver).
  cbn [omap list_omap]. destruct (resolve m p) as [[k e]|] eqn:Hr; [|done].
  constructor; [done|]. apply Forall_forall. intros [k' e'] (q & Hq & Hr')%list_elem_of_omap.
  apply resolve_Some in Hr as [-> He], Hr' as [-> He'].
  rewrite Forall_forall in Hp. specialize (Hp q Hq).
  assert (snd p = next_retry_at e ∧ snd q = next_retry_at e') as [Hps Hqs].
  { split; apply (inj Some).
    - rewrite <- (Hm _ _ He). symmetry. apply Hl. destruct p; set_solver.
    - rewrite <- (Hm _ _ He'). symmetry. apply Hl. destruct q; set_solver. }
  unfold member_le in Hp. unfold entry_le. simpl. by rewrite <- Hps, <- Hqs.
Qed.

Lemma in_range_elem lo hi (z : gmap string Z) k s :
  (k, s) ∈ in_range lo hi z ↔ z !! k = Some s ∧ lo ≤ s ≤ hi.
Proof.
  unfold in_range. rewrite merge_sort_Permutation, list_elem_of_filter, elem_of_map_to_list.
  tauto.
Qed.

#[local] Instance member_le_total : Total member_le.
Proof.
  intros [k1 s1] [k2 s2]. unfold member_le. simpl.
  destruct (Z.lt_trichotomy s1 s2) as [?|[?|?]]; [auto| |auto].
  destruct (total str_le k1 k2); auto.
Qed.

#[local] Instance member_le_trans : Transitive member_le.
Proof.
  intros [k1 s1] [k2 s2] [k3 s3]. unfold member_le. simpl.
  intros [?|[? ?]] [?|[? ?]]; try (left; lia).
  right. split; [lia|by etransitivity].
Qed.

Lemma in_range_keys_NoDup lo hi (z : gmap string Z) : NoDup (fst <$> in_range lo hi z).
Proof.
  unfold in_range. rewrite (merge_sort_Permutation member_le).
  assert (∀ l : list (string * Z), NoDup (fst <$> l) →
    NoDup (fst <$> filter (λ '(_, s), lo ≤ s ≤ hi) l)) as Hf.
  { clear. induction l as [|[k s] l IH]; intros Hnd; [done|].
    rewrite fmap_cons, NoDup_cons in Hnd. destruct Hnd as [Hk Hnd].
    rewrite filter_cons. case_decide; [|by apply IH].
    rewrite fmap_cons. constructor; [|by apply IH].
    intros (q & Heq & [_ Hin]%list_elem_of_filter)%list_elem_of_fmap.
    apply Hk. change (k = fst q) in Heq. change (k ∈ fst <$> l). rewrite Heq.
    by apply list_elem_of_fmap_2. }
  apply Hf, NoDup_fst_map_to_list.
Qed.

Lemma ready_is_resolved_range d m now :
  db_holds d m → exact_score now →
  omap (resolve m) (in_range f64_min (as_f64 now) (zset d events_sorted_set_key))
  = ready_entries m now.
Proof.
  intros Hd Hnow. set (z := zset d events_sorted_set_key).
  assert (∀ k e, m !! k = Some e → z !! k = Some (next_retry_at e)) as Hz
    by (intros k e He; by apply (holds_entry _ _ Hd) in He as [_ ?]).
  assert (f64_min ≤ - 2 ^ 53) as Hmin by (by vm_compute).
  apply (StronglySorted_unique_strong entry_le).
  - intros [k1 e1] [k2 e2] (p & _ & [_ He1]%resolve_Some)%list_elem_of_omap
      [He2 _]%ready_entries_elem H12 H21. unfold entry_le in *. simpl in *.
    assert (k1 = k2) as -> by (apply (anti_symm str_le); naive_solver lia). congruence.
  - apply (omap_resolve_sorted m z); [done| |apply StronglySorted_merge_sort; apply _].
    by intros k s [? _]%in_range_elem.
  - apply StronglySorted_merge_sort; apply _.
  - apply NoDup_Permutation.
    + apply omap_resolve_NoDup, in_range_keys_NoDup.
    + unfold ready_entries. rewrite merge_sort_Permutation.
      apply NoDup_filter, NoDup_map_to_list.
    + intros [k e]. rewrite list_elem_of_omap, ready_entries_elem. split.
      * intros ([k' s] & [Hs Hle]%in_range_elem & [-> He]%resolve_Some). simpl in *.
        split; [done|]. rewrite as_f64_exact in Hle by done.
        apply Hz in He. rewrite Hs in He. simplify_eq. lia.
      * intros [He Hle]. exists (k, next_retry_at e). rewrite in_range_elem, resolve_Some.
        pose proof (Hz _ _ He) as Hs. pose proof (holds_scores _ _ Hd _ _ Hs) as Hex.
        unfold exact_score in *. rewrite as_f64_exact by done. split_and!; [done|lia|lia|done|done].
Qed.

Lemma omap_take_prefix {A B} (f : A → option B) (l : list A) n :
  ∃ n', (n' ≤ n)%nat ∧ omap f (take n l) = take n' (omap f l).
Proof.
  exists (length (omap f (take n l))). split.
  - revert n. induction l as [|x l IH]; intros [|n]; csimpl; try lia.
    specialize (IH n). destruct (f x); csimpl; lia.
  - rewrite <- (take_drop n l) at 3. by rewrite omap_app, take_app_length.
Qed.

Lemma split_page_spec m (page : list (IndexKey * Z)) :
  split_page page ((λ k, m !! k) <$> (fst <$> page))
  = (omap (resolve m) page, fst <$> filter (λ p, m !! fst p = None) page).
Proof.
  induction page as [|[k s] page IH]; [done|].
  rewrite !fmap_cons. cbn [split_page]. rewrite IH, filter_cons.
  assert (resolve m (k, s) = (λ e, (k, e)) <$> m !! k) as Hr by done.
  cbn [omap list_omap]. rewrite Hr. simpl.
  by destruct (m !! k) eqn:He; case_decide as Hc; simpl in *; try congruence.
Qed.

(** *** The contract *)

Context (storable : RetryEvent → Prop).

(** What serde and RedisJSON document of an entry the code can hold. *)
Class CodecLaws := {
  to_json_spec e : storable e → ∃ t, to_json e = Ok t ∧ decodes from_json t e
    ∧ json_reply "$.nonce" t = "[" +:+ pretty (nonce e) +:+ "]";
  storable_score e : storable e → exact_score (next_retry_at e);
}.

Context `{CodecLaws}.

Lemma serialize_doc e :
  storable e → ∃ t, to_json e = Ok t ∧ doc_of t e ∧ exact_score (next_retry_at e).
Proof.
  intros He. destruct (to_json_spec e He) as (t & Ht & Hdec & Hn). exists t.
  split_and!; [done| |by apply storable_score]. split; [done|].
  by rewrite Hn, lua_match_nonce_reply.
Qed.

(** Puts the database of the last call back into the terms of the first. *)
Ltac db_eqs :=
  repeat match goal with H : db _ = _ |- _ => rewrite H in *; clear H end.

Lemma redis_put_writes s m e :
  redis_repr s m → storable e →
  writes redis_repr m (<[for_uri (event_uri e) := e]> m) (λ _, True) (put e) s.
Proof.
  intros Hs He. destruct (serialize_doc e He) as (t & Ht & Hdoc & Hex).
  pose proof (db_holds_put _ _ (for_uri (event_uri e)) _ _ Hs Hdoc Hex).
  unfold writes, put, RedisRetryStore, put_to_index, serialize, redis_repr in *.
  repeat redis_step. rewrite Ht. simpl.
  redis_step; redis_step; [intros s1 Hs1|intros ? s1 ->; by left].
  redis_step; simpl; rewrite Hs1; [by intros s2 ->|].
  intros ? s2 [->| ->]; auto.
Qed.

Lemma redis_get_writes s m k :
  redis_repr s m → writes redis_repr m m (λ r, r = m !! k) (get k) s.
Proof.
  intros Hs. unfold writes, get, RedisRetryStore, get_from_index, redis_repr in *.
  redis_step. eapply yields_mono.
  - apply (json_get_value_yields from_json _ _ _ (m !! k)).
    change (full_key _ _) with (state_json_key k).
    destruct (m !! k) as [e|] eqn:Hk; simpl; [|by apply (holds_absent _ _ Hs)].
    apply (holds_entry _ _ Hs) in Hk as [(t & Ht & Hdec & _) _]. eauto.
  - by intros r s' [-> ->].
  - intros ? s' ->. by left.
Qed.

Lemma redis_remove_if_writes s m k n :
  redis_repr s m →
  writes redis_repr m (if current m k n then delete k m else m)
    (λ removed, removed = current m k n) (remove_if k n) s.
Proof.
  intros Hs. pose proof (db_holds_remove _ _ k Hs).
  unfold writes, remove_if, RedisRetryStore, remove_from_index_if_nonce, redis_repr in *.
  repeat redis_step; [intros s1 Hs1|intros ? s1 ->; by left].
  repeat redis_step; unfold REMOVE_IF_NONCE_SCRIPT; rewrite Hs1, (guard_current _ m) by done.
  - intros s2 Hs2. redis_step. rewrite Hs2. by destruct (current m k n).
  - intros ? s2 [->|Hs2]; [by left|]. right. rewrite Hs2. by destruct (current m k n).
Qed.

Lemma redis_put_if_writes s m e n :
  redis_repr s m → storable e →
  let k := for_uri (event_uri e) in
  writes redis_repr m (if current m k n then <[k := e]> m else m)
    (λ done, done = current m k n) (put_if e n) s.
Proof.
  intros Hs He k. destruct (serialize_doc e He) as (t & Ht & Hdoc & Hex).
  pose proof (db_holds_put _ _ k _ _ Hs Hdoc Hex).
  unfold writes, put_if, RedisRetryStore, put_to_index_if_nonce, serialize, redis_repr in *.
  repeat redis_step. rewrite Ht. simpl. fold k.
  redis_step; redis_step; [intros s1 Hs1|intros ? s1 ->; by left].
  repeat redis_step; unfold PUT_IF_NONCE_SCRIPT; rewrite Hs1, (guard_current _ m) by done.
  - intros s2 Hs2. redis_step. rewrite Hs2. by destruct (current m k n).
  - intros ? s2 [->|Hs2]; [by left|]. right. rewrite Hs2. by destruct (current m k n).
Qed.

Lemma redis_remove_stale_yields s m ks :
  redis_repr s m →
  yields (remove_stale_index_entries ks) s
    (λ _ s', redis_repr s' m) (λ _ s', redis_repr s' m).
Proof.
  intros Hs. unfold remove_stale_index_entries, redis_repr in *.
  destruct ks as [|k ks]; [by apply yields_ret|]. set (l := k :: ks). clearbody l.
  pose proof (remove_stale_holds _ _ l Hs).
  repeat redis_step; [intros s1 Hs1|by intros ? s1 ->].
  repeat redis_step; rewrite Hs1; [intros s2 Hs2|by intros ? s2 [->| ->]].
  redis_step. by rewrite Hs2.
Qed.

(** The page, exactly: what the first [limit] ready members resolve to. *)
Lemma redis_fetch_ready_writes s m now limit :
  redis_repr s m → exact_score now →
  writes redis_repr m m
    (λ page, page = omap (resolve m)
       (take (Z.to_nat (default 1000 (Z.of_nat <$> limit)))
          (in_range f64_min (as_f64 now) (zset (db s) events_sorted_set_key))))
    (fetch_ready now limit) s.
Proof.
  intros Hs Hnow. unfold writes, fetch_ready, RedisRetryStore, redis_fetch_ready, redis_repr in *.
  unfold fetch_ready_keys. repeat redis_step.
  eapply yields_mono; [apply get_range_yields| |intros ? s' ->; by left].
  { apply (holds_events _ _ Hs). }
  { simpl. lia. }
  { destruct limit; simpl; lia. }
  intros pairs s1 [Hpairs Hs1]. redis_step. simpl in Hpairs. rewrite drop_0 in Hpairs.
  change (full_key _ _) with events_sorted_set_key in Hpairs. rewrite Hpairs.
  set (page := take _ _). repeat redis_step.
  eapply yields_mono; [apply (json_get_multiple_yields from_json _ _ _
    ((λ k, m !! k) <$> (fst <$> page)))| |intros ? s' ->; rewrite Hs1; by left].
  { rewrite Hs1. apply Forall2_fmap. apply Forall_Forall2_diag, Forall_forall. intros k _.
    change (full_key _ _) with (state_json_key k).
    destruct (m !! k) as [e|] eqn:Hk; simpl; [|by apply (holds_absent _ _ Hs)].
    apply (holds_entry _ _ Hs) in Hk as [(t & Ht & Hdec & _) _]. by exists t. }
  intros evs s2 [-> Hs2]. rewrite split_page_spec. rewrite Hs1 in Hs2.
  destruct (fst <$> filter _ page) as [|k ks]; [by redis_step; rewrite Hs2|].
  repeat redis_step. eapply yields_mono; [apply redis_remove_stale_yields|..].
  - unfold redis_repr. by rewrite Hs2.
  - intros ? s3 Hs3. by redis_step.
  - intros ? s3 Hs3. by left.
Qed.

(** C15: the Redis store implements the retry store contract over the abstract queue,
    for every sequence of connection and command failures: each operation does to
    the queue what its in-memory counterpart does and answers the same; when it
    fails the queue is as before or as the operation would have left it (a lost
    reply); a page of ready entries is in order and skips none, and cleaning up
    stale members removes no entry. *)
Theorem redis_store_implements_contract :
  RetryStoreSpec (Session D) redis_repr storable exact_score.
Proof.
  split.
  - intros. by apply redis_put_writes.
  - intros. by apply redis_get_writes.
  - intros. by apply redis_remove_if_writes.
  - intros. by apply redis_put_if_writes.
  - intros s m now limit Hs Hnow. eapply yields_mono;
      [by apply redis_fetch_ready_writes| |auto].
    intros page s' [-> Hs']. split; [|done].
    destruct (omap_take_prefix (resolve m)
      (in_range f64_min (as_f64 now) (zset (db s) events_sorted_set_key))
      (Z.to_nat (default 1000 (Z.of_nat <$> limit)))) as (n & Hn & ->).
    exists n. rewrite (ready_is_resolved_range _ _ _ Hs) by done.
    split; [done|]. destruct limit as [l|]; [|done]. simpl in Hn. lia.
Qed.

Lemma omap_take_total {A B} (f : A → option B) (l : list A) n :
  (∀ x, x ∈ l → is_Some (f x)) → omap f (take n l) = take n (omap f l).
Proof.
  revert n. induction l as [|x l IH]; intros [|n] Hf; try done.
  cbn [take omap list_omap]. destruct (Hf x) as [y Hy]; [set_solver|]. rewrite Hy.
  cbn [take]. f_equal. apply IH. set_solver.
Qed.

(** when no member of the sorted set has lost its document, a limited page of
    ready entries is exactly the page the in-memory store returns for the same
    queue: the same entries in the same order. *)
Theorem redis_page_matches_in_memory s m now limit :
  redis_repr s m → exact_score now →
  (∀ k sc, zset (db s) events_sorted_set_key !! k = Some sc → is_Some (m !! k)) →
  yields (fetch_ready now (Some limit)) s
    (λ page s', inmem_fetch_ready now (Some limit) m = (Ok page, m) ∧ redis_repr s' m)
    (λ _ s', redis_repr s' m).
Proof.
  intros Hs Hnow Hmembers.
  eapply yields_mono; [by apply redis_fetch_ready_writes| |by intros _ s' [?|?]].
  intros page s' [-> Hs']. split; [|done]. unfold inmem_fetch_ready. do 2 f_equal.
  fold (ready_entries m now). rewrite <- (ready_is_resolved_range _ _ _ Hs) by done.
  simpl. rewrite Nat2Z.id, omap_take_total; [done|].
  intros [k sc] [Hk _]%in_range_elem. unfold resolve. by apply fmap_is_Some, (Hmembers k sc).
Qed.
End Refinement.

(** ** A concrete server and codec *)

Module MemRetry.

#[export] Instance EventType_countable : Countable EventType.
Proof.
  refine (inj_countable' (λ t, match t with Put => true | Del => false end)
    (λ b : bool, if b then Put else Del) _). by intros [].
Defined.

Definition to_tuple (e : RetryEvent) :=
  (retry_count e, retry_event_type e, event_uri e, next_retry_at e,
   origin_homeserver_id e, nonce e).

#[export] Instance RetryEvent_countable : Countable RetryEvent.
Proof.
  refine (inj_countable' to_tuple
    (λ '(a, b, c, d, e, f), Build_RetryEvent a b c d e f) _). by intros [].
Defined.

Definition reply (path doc : string) : string :=
  if decide (path = "$") then doc
  else match Bits.read doc with
       | Some e => "[" +:+ pretty (nonce e) +:+ "]"
       | None => "[]"
       end.

#[export] Instance server : RedisServer MemRedis.t := MemRedis.server reply.
#[export] Instance laws : RedisLaws MemRedis.t := MemRedis.laws reply.

#[export] Instance codec : RetryCodec := {
  to_json := λ e, Ok (Bits.write e);
  from_json := λ s, match Bits.read s with Some e => Ok [e] | None => Err "not an entry" end;
}.

#[export] Instance uri_hash : UriHash := {| hash_str_hex := id |}.

Definition storable (e : RetryEvent) : Prop := exact_score (next_retry_at e).

Lemma codec_laws : CodecLaws (D := MemRedis.t) storable.
Proof.
  split; [|done]. intros e _. exists (Bits.write e). split_and!; [done| |].
  - exists []. simpl. unfold reply. rewrite decide_True by done. by rewrite Bits.read_write.
  - simpl. unfold reply. rewrite decide_False by done. by rewrite Bits.read_write.
Qed.

End MemRetry.

Section Witness.
Import MemRetry.

Lemma redis_store_implements_contract_witness :
  RetryStoreSpec (Session MemRedis.t) redis_repr MemRetry.storable exact_score
  ∧ redis_repr (MemRedis.fresh MemRedis.empty) ∅.
Proof.
  split.
  - pose proof MemRetry.codec_laws.
    exact (redis_store_implements_contract (D := MemRedis.t) MemRetry.storable).
  - by split.
Defined.

Lemma redis_page_matches_in_memory_witness :
  yields (fetch_ready 5 (Some 10%nat)) (MemRedis.fresh MemRedis.empty)
    (λ page _, inmem_fetch_ready 5 (Some 10%nat) ∅ = (Ok page, ∅)) (λ _ _, True).
Proof.
  pose proof MemRetry.codec_laws.
  eapply yields_mono; [apply (redis_page_matches_in_memory (D := MemRedis.t) MemRetry.storable
    (MemRedis.fresh MemRedis.empty) ∅ 5 10)|by intros ?? [? _]|done].
  - by split.
  - by vm_compute.
  - intros k sc. vm_compute. by destruct k.
Defined.
End Witness.
