(* ===== verification/RetryProcessor.v ===== *)
(** * Retrying failed events

    nexus-watcher/src/events/retry/scheduler.rs (who puts events on the queue) and
    processor.rs (who takes them off), over any store that keeps the contract
    [RetryStoreSpec]. *)

From S2P Require Import Prelude Errors Events World Backoff RetryStore.
Local Open Scope Z_scope.

(** ** Scheduler *)

Record InitialBackoff := { missing_dep_ms : Z; transient_ms : Z }.

(** [EventRetryConfig] (nexus-common/src/config/watcher.rs) *)
Record EventRetryConfig := {
  max_retries : Z;
  max_dependency_retries : Z;
  initial_backoff_secs : Z;
  max_backoff_secs : Z;
  initial_missing_dep_backoff_secs : Z;
  max_missing_dep_backoff_secs : Z;
}.

Definition InitialBackoff_from_config (retry : EventRetryConfig) : InitialBackoff :=
  {| missing_dep_ms := wrap_i64 (wrap_i64 (initial_missing_dep_backoff_secs retry) * 1000);
     transient_ms := wrap_i64 (wrap_i64 (initial_backoff_secs retry) * 1000) |}.

Section Scheduler.
Context {W : Type} {SP : Specs} {CL : Clock W} {UH : UriHash} {RS : RetryStore W}.
Local Open Scope nexus_scope.

Definition enqueue (event : Event) (initial_backoff_ms : Z) (origin_homeserver_id : string) :
    prog W (result unit Ep.EventProcessorError) :=
  let* now := utc_now in
  let next_retry_at := wrap_i64 (timestamp_millis now + initial_backoff_ms) in
  let* retry_event := RetryEvent_new event next_retry_at origin_homeserver_id in
  let? _ := put retry_event in
  ret (Ok tt).

Definition queue_missing_dep (initial : InitialBackoff) (event : Event) (origin : string) :=
  enqueue event (missing_dep_ms initial) origin.

Definition queue_transient (initial : InitialBackoff) (event : Event) (origin : string) :=
  enqueue event (transient_ms initial) origin.
End Scheduler.

(** ** Processor *)

Definition RETRY_BATCH_SIZE : nat := 100.

Section Processor.
Context {W : Type} {SP : Specs} {CL : Clock W} {SH : Shutdown W} {EH : EventHandler W}
  {UH : UriHash} {RS : RetryStore W}.
Context (config : EventRetryConfig).
Local Open Scope nexus_scope.

Definition fetch_ready_events (now : Z) :
    prog W (result (list (IndexKey * RetryEvent)) Ep.EventProcessorError) :=
  fetch_ready now (Some RETRY_BATCH_SIZE).

Definition remove_if_current (k : IndexKey) (n : Z) :
    prog W (result unit Ep.EventProcessorError) :=
  let? _ := remove_if k n in ret (Ok tt).

Definition max_retries_for (error : Ep.EventProcessorError) : Z :=
  if Ep.is_missing_dependency error then max_dependency_retries config else max_retries config.

Definition backoff_params_for (error : Ep.EventProcessorError) : Z * Z :=
  if Ep.is_missing_dependency error
  then (initial_missing_dep_backoff_secs config, max_missing_dep_backoff_secs config)
  else (initial_backoff_secs config, max_backoff_secs config).

(** The entry a reschedule at clock reading [now] (in ms) writes. *)
Definition rescheduled (e : RetryEvent) (error : Ep.EventProcessorError)
    (increment_count : bool) (now : Z) : RetryEvent :=
  let new_retry_count :=
    if increment_count then wrap_u32 (retry_count e + 1) else retry_count e in
  let '(initial, max) := backoff_params_for error in
  let backoff_secs := RetryBackoff.calculate_backoff (retry_count e) initial max in
  with_schedule e new_retry_count (wrap_i64 (now + wrap_i64 (wrap_i64 backoff_secs * 1000))).

Definition reschedule (e : RetryEvent) (error : Ep.EventProcessorError)
    (increment_count : bool) : prog W (result unit Ep.EventProcessorError) :=
  let* now := utc_now in
  let updated_event := rescheduled e error increment_count (timestamp_millis now) in
  let? _ := put_if updated_event (nonce e) in
  ret (Ok tt).

Definition process_retry_event (k : IndexKey) (e : RetryEvent) :
    prog W (result unit Ep.EventProcessorError) :=
  match parse_event (display_line (retry_event_type e) (event_uri e)) with
  | Ok Skipped | Err _ | Ok (UnrecognizedUri _ _ _) => remove_if_current k (nonce e)
  | Ok (Parsed event) =>
      let* handled := handle event in
      match handled with
      | Ok _ => remove_if_current k (nonce e)
      | Err error =>
          if negb (Ep.should_enqueue_related_event error) then remove_if_current k (nonce e)
          else if Ep.should_not_retry_now error then
            let? _ := reschedule e error false in ret (Err error)
          else if decide (retry_count e >= max_retries_for error) then
            remove_if_current k (nonce e)
          else reschedule e error true
      end
  end.

(** The inner loop; [true] when a shutdown ended the run. *)
Fixpoint process_batch (events : list (IndexKey * RetryEvent)) :
    prog W (result bool Ep.EventProcessorError) :=
  match events with
  | [] => ret (Ok false)
  | (k, e) :: events =>
      let* stop := shutdown_requested in
      if (stop : bool) then ret (Ok true)
      else
        let? _ := process_retry_event k e in
        process_batch events
  end.

(** The outer loop; [None] when the fuel runs out. *)
Fixpoint run_loop (fuel : nat) (now : Z) :
    prog W (result (option RunOutcome) Ep.EventProcessorError) :=
  match fuel with
  | O => ret (Ok None)
  | S fuel =>
      let? events := fetch_ready_events now in
      match events with
      | [] => ret (Ok (Some Completed))
      | _ =>
          let? stopped := process_batch events in
          if (stopped : bool) then ret (Ok (Some Completed)) else run_loop fuel now
      end
  end.

Definition run_internal (fuel : nat) : prog W (result (option RunOutcome) Ep.EventProcessorError) :=
  let* now := utc_now in run_loop fuel (timestamp_millis now).
End Processor.

(** ** Properties *)

(** What one attempt decides about the entry [e]: [None] removes it, [Some e'] keeps
    it as [e']. *)
Definition after_attempt (config : EventRetryConfig) (e : RetryEvent)
    (r : result unit Ep.EventProcessorError) (now : Z) : option RetryEvent :=
  match r with
  | Ok _ => None
  | Err error =>
      if negb (Ep.should_enqueue_related_event error) then None
      else if Ep.should_not_retry_now error then Some (rescheduled config e error false now)
      else if decide (retry_count e >= max_retries_for config error) then None
      else Some (rescheduled config e error true now)
  end.

(** Its effect on a queue in which [e] may have been superseded meanwhile. *)
Definition settle (config : EventRetryConfig) (m : Queue) (k : IndexKey) (e : RetryEvent)
    (r : result unit Ep.EventProcessorError) (now : Z) : Queue :=
  if current m k (nonce e) then
    match after_attempt config e r now with
    | None => delete k m
    | Some e' => <[k := e']> m
    end
  else m.

(** An infrastructure failure of the attempt ends the batch. *)
Definition stops_batch (r : result unit Ep.EventProcessorError) : bool :=
  match r with
  | Ok _ => false
  | Err error => Ep.should_enqueue_related_event error && Ep.should_not_retry_now error
  end.

Section Properties.
Context {W : Type} {SP : Specs} {CL : Clock W} {SH : Shutdown W} {EH : EventHandler W}
  {UH : UriHash} {RS : RetryStore W}.
Context (config : EventRetryConfig) (repr : W → Queue → Prop).
Context (storable : RetryEvent → Prop) (timely : Z → Prop).

Context (plausible : Z → Prop).

(** What the run needs of its surroundings: reading the clock or the shutdown signal
    leaves the queue, and a reschedule at a plausible time stays storable. *)
Class RetryEnvironment := {
  clock_frame w m : repr w m → repr (snd (utc_now w)) m;
  clock_plausible w : plausible (timestamp_millis (fst (utc_now w)));
  shutdown_frame w m : repr w m → repr (snd (shutdown_requested w)) m;
  storable_rescheduled e error inc now :
    storable e → plausible now → storable (rescheduled config e error inc now);
  plausible_timely now : plausible now → timely now;
  retry_bound_u32 : max_retries config ≤ u32_max ∧ max_dependency_retries config ≤ u32_max;
}.

(** An entry as the store holds it. *)
Definition entry_ok (k : IndexKey) (e : RetryEvent) : Prop :=
  k = for_uri (event_uri e) ∧ storable e.

(** The attempt itself: the handler, unless the entry does not parse. *)
Definition attempt (e : RetryEvent) : prog W (result unit Ep.EventProcessorError) :=
  match parse_event (display_line (retry_event_type e) (event_uri e)) with
  | Ok (Parsed event) => handle event
  | _ => ret (Ok tt)
  end.

Context {HS : RetryStoreSpec W repr storable timely} {HE : RetryEnvironment}.

Lemma entry_ok_rescheduled k e error inc now :
  entry_ok k e → plausible now → entry_ok k (rescheduled config e error inc now).
Proof.
  intros [-> Hs] Hnow. split; [|by apply storable_rescheduled].
  unfold rescheduled. by destruct (backoff_params_for config error).
Qed.

Lemma remove_if_current_settles w m k n :
  repr w m →
  yields (remove_if_current k n) w
    (λ _ w', repr w' (if current m k n then delete k m else m))
    (λ _ w', repr w' m ∨ repr w' (if current m k n then delete k m else m)).
Proof.
  intros Hw. unfold remove_if_current. apply yields_ebind.
  eapply yields_mono; [by apply remove_if_spec| |auto].
  intros b w' [_ Hw']. by apply yields_ret.
Qed.

Lemma reschedule_settles w m k e error inc :
  repr w m → entry_ok k e →
  yields (reschedule config e error inc) w
    (λ _ w', ∃ now, plausible now ∧ repr w' (if current m k (nonce e)
                             then <[k := rescheduled config e error inc now]> m else m))
    (λ _ w', repr w' m ∨
             ∃ now, plausible now ∧ repr w' (if current m k (nonce e)
                             then <[k := rescheduled config e error inc now]> m else m)).
Proof.
  intros Hw Hok. unfold reschedule. apply yields_bind. intros dt w1 Hdt.
  apply yields_ebind.
  pose proof (clock_frame w m Hw) as Hw1. pose proof (clock_plausible w) as Hpl.
  rewrite Hdt in Hw1, Hpl. simpl in Hw1, Hpl.
  destruct (entry_ok_rescheduled k e error inc _ Hok Hpl) as [Hk Hst].
  pose proof (put_if_spec w1 m _ (nonce e) Hw1 Hst) as Hput. simpl in Hput.
  rewrite <- Hk in Hput.
  eapply yields_mono; [exact Hput| |].
  - intros b w' [_ Hw']. apply yields_ret. by exists (timestamp_millis dt).
  - intros err w' [?|?]; [by left|]. right. by exists (timestamp_millis dt).
Qed.

Lemma removal_settles w m k e r :
  repr w m → stops_batch r = false → (∀ now, after_attempt config e r now = None) →
  yields (remove_if_current k (nonce e)) w
    (λ _ w', stops_batch r = false ∧ ∃ now, plausible now ∧ repr w' (settle config m k e r now))
    (λ _ w', repr w' m ∨ ∃ now, plausible now ∧ repr w' (settle config m k e r now)).
Proof.
  intros Hw Hst Haft.
  set (now0 := timestamp_millis (fst (utc_now w))).
  assert (plausible now0) as Hnow0 by apply clock_plausible.
  assert (settle config m k e r now0 = if current m k (nonce e) then delete k m else m) as Hset
    by (unfold settle; by rewrite Haft).
  eapply yields_mono; [by apply remove_if_current_settles| |]; rewrite <- Hset.
  - intros _ w' Hw'. split; [done|]. by exists now0.
  - intros _ w' [?|?]; [by left|right; by exists now0].
Qed.

(** One processed entry: the queue the attempt left, settled. *)
Lemma process_settles w m k e r w1 :
  entry_ok k e → attempt e w = (r, w1) → repr w1 m →
  yields (process_retry_event config k e) w
    (λ _ w', stops_batch r = false ∧ ∃ now, plausible now ∧ repr w' (settle config m k e r now))
    (λ _ w', repr w' m ∨ ∃ now, plausible now ∧ repr w' (settle config m k e r now)).
Proof.
  intros Hok Hatt Hw1. unfold process_retry_event, attempt in *.
  destruct (parse_event _) as [[event| |]|err]; cycle 1;
    [by unfold ret in Hatt; simplify_eq; apply removal_settles..|].
  apply yields_bind. intros r' w' Hh. rewrite Hh in Hatt. simplify_eq.
  destruct r as [[]|error]; [by apply removal_settles|].
  destruct (Ep.should_enqueue_related_event error) eqn:Henq; cbn [negb]; cycle 1.
  { apply removal_settles; [done|simpl; by rewrite Henq|].
    intros now. simpl. by rewrite Henq. }
  destruct (Ep.should_not_retry_now error) eqn:Hnow.
  - apply yields_ebind. unfold settle, after_attempt, stops_batch.
    rewrite Henq, Hnow. cbn [negb andb].
    eapply yields_mono; [by apply reschedule_settles| |auto].
    intros _ w' [now Hw']. apply yields_ret. right. by exists now.
  - case_decide as Hmax.
    + apply removal_settles; [done|simpl; by rewrite Henq, Hnow|].
      intros now. unfold after_attempt. rewrite Henq, Hnow. cbn [negb]. by rewrite decide_True.
    + assert (∀ now, settle config m k e (Err error) now
        = if current m k (nonce e) then <[k := rescheduled config e error true now]> m else m)
        as Hset.
      { intros now. unfold settle, after_attempt. rewrite Henq, Hnow. cbn [negb].
        by rewrite decide_False. }
      eapply yields_mono; [by apply reschedule_settles|..].
      * intros _ w' (now & Hpl & Hw'). split; [simpl; by rewrite Henq, Hnow|].
        exists now. by rewrite Hset.
      * intros _ w' [?|(now & Hpl & Hw')]; [by left|right]. exists now. by rewrite Hset.
Qed.

(** an attempt at an entry that is still the one fetched (same nonce) settles it
    as its result demands: handled, or failed for good, or out of retries — removed;
    failed on our own infrastructure — kept with its retry count, a backoff later,
    and the batch stops; failed otherwise — kept with one more retry counted, a
    backoff later. Other entries stay as the attempt left them. If the store fails,
    the queue is as the attempt left it or settled. *)
Theorem process_retry_event_outcome w m k e r w1 :
  entry_ok k e → attempt e w = (r, w1) → repr w1 m → current m k (nonce e) = true →
  yields (process_retry_event config k e) w
    (λ _ w', stops_batch r = false ∧ ∃ now, plausible now ∧
       repr w' match after_attempt config e r now with
               | None => delete k m | Some e' => <[k := e']> m end)
    (λ _ w', repr w' m ∨ ∃ now, plausible now ∧
       repr w' match after_attempt config e r now with
               | None => delete k m | Some e' => <[k := e']> m end).
Proof.
  intros Hok Hatt Hw1 Hcur.
  pose proof (process_settles w m k e r w1 Hok Hatt Hw1) as Hp.
  unfold settle in Hp. by rewrite Hcur in Hp.
Qed.

(** C14: while an entry is being retried, a newer event for the same URI may overwrite
    it (a fresh nonce) or another replica may remove it; the stale attempt then
    leaves the queue exactly as it finds it, whatever the attempt's result and
    whatever the store's failures: the newer entry is neither removed nor
    overwritten, and a removed one is not brought back. *)
Theorem superseded_entry_survives w m k e r w1 :
  entry_ok k e → attempt e w = (r, w1) → repr w1 m → current m k (nonce e) = false →
  yields (process_retry_event config k e) w (λ _ w', repr w' m) (λ _ w', repr w' m).
Proof.
  intros Hok Hatt Hw1 Hcur.
  pose proof (process_settles w m k e r w1 Hok Hatt Hw1) as Hp.
  unfold settle in Hp. rewrite Hcur in Hp. eapply yields_mono; [exact Hp|..].
  - by intros _ w' (_ & ? & _ & ?).
  - by intros _ w' [?|(? & _ & ?)].
Qed.

(** *** A run ends *)

(** No more retries than this are counted for any error. *)
Definition retry_bound : Z := max_retries config `max` max_dependency_retries config.

Definition weight (e : RetryEvent) : nat := S (Z.to_nat (retry_bound - retry_count e)).

Definition weights (l : list (IndexKey * RetryEvent)) : nat := sum_list_with (weight ∘ snd) l.

(** The entries ready at [now] under none of the keys [ks]. *)
Definition ready_except (now : Z) (ks : list IndexKey) (m : Queue) : Queue :=
  filter (λ '(k, e), next_retry_at e ≤ now ∧ k ∉ ks) m.

(** The work a run has left: the attempts it may still make on the entries of its
    batch and on the other ready ones. *)
Definition work (now : Z) (batch : list (IndexKey * RetryEvent)) (m : Queue) : nat :=
  weights batch + weights (map_to_list (ready_except now (fst <$> batch) m)).

Definition queue_ok (m : Queue) : Prop :=
  ∀ k e, m !! k = Some e → entry_ok k e ∧ 0 ≤ retry_count e ≤ u32_max.

(** A batch in progress: distinct keys, sound entries, and the only ready entry its
    keys can still lead to is the fetched one. *)
Definition batch_ok (now : Z) (batch : list (IndexKey * RetryEvent)) (m : Queue) : Prop :=
  NoDup (fst <$> batch) ∧
  ∀ k e, (k, e) ∈ batch →
    entry_ok k e ∧ 0 ≤ retry_count e ≤ u32_max
    ∧ ∀ e', m !! k = Some e' → next_retry_at e' ≤ now → e' = e.

(** What the handler and everybody else may do to the queue during an attempt of a
    run started at [now]: anything that makes no entry ready. *)
Definition adds_nothing_ready (now : Z) (m m' : Queue) : Prop :=
  ∀ k e, m' !! k = Some e → next_retry_at e ≤ now → m !! k = Some e.

Lemma weights_delete (M : Queue) k e :
  M !! k = Some e →
  weights (map_to_list M) = (weight e + weights (map_to_list (delete k M)))%nat.
Proof. intros Hk. unfold weights. by rewrite <- (map_to_list_delete M k e Hk). Qed.

Lemma weights_subseteq (M1 M2 : Queue) :
  M1 ⊆ M2 → (weights (map_to_list M1) ≤ weights (map_to_list M2))%nat.
Proof.
  intros [l Hl]%map_to_list_submseteq%submseteq_Permutation. unfold weights.
  rewrite Hl, sum_list_with_app. lia.
Qed.

Lemma ready_except_Some now ks m k e :
  ready_except now ks m !! k = Some e ↔ m !! k = Some e ∧ next_retry_at e ≤ now ∧ k ∉ ks.
Proof. unfold ready_except. by rewrite map_lookup_filter_Some. Qed.

Lemma rescheduled_lighter e error now :
  0 ≤ retry_count e → retry_count e < max_retries_for config error →
  0 ≤ retry_count (rescheduled config e error true now) ≤ u32_max
  ∧ (weight (rescheduled config e error true now) < weight e)%nat.
Proof.
  intros H0 Hlt. pose proof retry_bound_u32 as Hb.
  assert (max_retries_for config error ≤ retry_bound ∧ max_retries_for config error ≤ u32_max)
    as [Hle Hu] by (unfold max_retries_for, retry_bound; case_match; lia).
  assert (retry_count (rescheduled config e error true now) = retry_count e + 1) as Heq.
  { unfold rescheduled. destruct (backoff_params_for config error). cbn [retry_count with_schedule].
    apply wrap_u32_id. lia. }
  unfold weight. rewrite Heq. lia.
Qed.

(** What a settled entry may have become, when the batch goes on. *)
Lemma settle_cases m k e r now :
  stops_batch r = false → 0 ≤ retry_count e →
  settle config m k e r now = m ∧ current m k (nonce e) = false
  ∨ settle config m k e r now = delete k m
  ∨ ∃ error, settle config m k e r now = <[k := rescheduled config e error true now]> m
             ∧ retry_count e < max_retries_for config error.
Proof.
  intros Hst H0. unfold settle, after_attempt, stops_batch in *.
  destruct (current m k (nonce e)); [|by left]. right.
  destruct r as [|error]; [by left|].
  destruct (Ep.should_enqueue_related_event error); cbn [negb] in *; [|by left].
  destruct (Ep.should_not_retry_now error); [done|].
  case_decide; [by left|right]. exists error. split; [done|lia].
Qed.

Lemma settle_other m k e r now k' :
  k' ≠ k → settle config m k e r now !! k' = m !! k'.
Proof.
  intros Hne. unfold settle. destruct (current _ _ _); [|done].
  destruct (after_attempt _ _ _ _); [by rewrite lookup_insert_ne|by rewrite lookup_delete_ne].
Qed.

(** A ready entry left under the settled key costs less than the fetched one. *)
Lemma settled_lighter now batch m m1 k e r t e' :
  batch_ok now ((k, e) :: batch) m → adds_nothing_ready now m m1 → stops_batch r = false →
  settle config m1 k e r t !! k = Some e' → next_retry_at e' ≤ now → (weight e' < weight e)%nat.
Proof.
  intros [_ Hb] Hadd Hst Hk Hready. destruct (Hb k e) as (Hok & Hrc & Hfetched); [set_solver|].
  destruct (settle_cases m1 k e r t) as [[Heq Hcur]|[Heq|(error & Heq & Hlt)]];
    [done|lia|..]; rewrite Heq in Hk.
  - pose proof (Hfetched e' (Hadd _ _ Hk Hready) Hready) as ->.
    apply not_true_iff_false in Hcur. exfalso. apply Hcur, current_true. eauto.
  - by rewrite lookup_delete_eq in Hk.
  - rewrite lookup_insert_eq in Hk. simplify_eq. apply rescheduled_lighter; lia.
Qed.

Lemma work_step now batch m m1 k e r t :
  batch_ok now ((k, e) :: batch) m → adds_nothing_ready now m m1 → stops_batch r = false →
  (work now batch (settle config m1 k e r t) < work now ((k, e) :: batch) m)%nat
  ∧ batch_ok now batch (settle config m1 k e r t).
Proof.
  intros Hb Hadd Hst. pose proof (settled_lighter now batch m m1 k e r t) as Hlight.
  destruct Hb as [Hnd Hb']. pose proof Hnd as Hnd'. rewrite fmap_cons, NoDup_cons in Hnd.
  destruct Hnd as [Hk Hnd].
  set (m2 := settle config m1 k e r t) in *. split.
  - set (M2 := ready_except now (fst <$> batch) m2).
    set (M := ready_except now (fst <$> ((k, e) :: batch)) m).
    assert (delete k M2 ⊆ M) as Hsub.
    { apply map_subseteq_spec. intros k' e' [Hne Hk']%lookup_delete_Some.
      apply ready_except_Some in Hk' as (Hk' & Hr & Hnin). apply ready_except_Some.
      unfold m2 in Hk'. rewrite settle_other in Hk' by done.
      split_and!; [by apply Hadd|done|]. rewrite fmap_cons. set_solver. }
    apply weights_subseteq in Hsub. unfold work. fold M2 M.
    change (weights ((k, e) :: batch)) with (weight e + weights batch)%nat.
    destruct (M2 !! k) as [e'|] eqn:HM2.
    + rewrite (weights_delete M2 k e' HM2).
      apply ready_except_Some in HM2 as (Hk' & Hr & _).
      assert (weight e' < weight e)%nat by (by apply Hlight). lia.
    + rewrite delete_id in Hsub by done. unfold weight. lia.
  - split; [done|]. intros k' e' Hin. destruct (Hb' k' e') as (? & ? & Hf); [set_solver|].
    split_and!; [done|lia|lia|]. intros e2 He2 Hr. apply Hf; [|done]. apply Hadd; [|done].
    unfold m2 in He2. rewrite settle_other in He2; [done|]. intros ->.
    apply Hk. by apply (list_elem_of_fmap_2 fst _ (k, e')).
Qed.

Lemma settle_queue_ok m k e r now :
  stops_batch r = false → entry_ok k e → 0 ≤ retry_count e ≤ u32_max → plausible now →
  queue_ok m → queue_ok (settle config m k e r now).
Proof.
  intros Hst Hok Hrc Hpl Hm.
  destruct (settle_cases m k e r now) as [[-> _]|[->|(error & -> & Hlt)]]; [done|lia|done|..].
  - intros k' e' [_ ?]%lookup_delete_Some. by apply Hm.
  - intros k' e' [[<- <-]|[_ ?]]%lookup_insert_Some; [|by apply Hm].
    split; [by apply entry_ok_rescheduled|]. apply rescheduled_lighter; lia.
Qed.

Lemma page_ok now n m :
  queue_ok m →
  batch_ok now (take n (ready_entries m now)) m
  ∧ (work now (take n (ready_entries m now)) m ≤ work now [] m)%nat.
Proof.
  intros Hm. set (page := take n (ready_entries m now)).
  assert (∀ k e, (k, e) ∈ page → m !! k = Some e ∧ next_retry_at e ≤ now) as Hpage.
  { intros k e Hin. apply ready_entries_elem.
    by apply (subseteq_take n). }
  assert (NoDup page) as Hnd.
  { apply (sublist_NoDup _ (ready_entries m now)); [|apply sublist_take].
    unfold ready_entries. rewrite merge_sort_Permutation.
    apply NoDup_filter, NoDup_map_to_list. }
  assert (NoDup (fst <$> page)) as Hkeys.
  { apply NoDup_fmap_2_strong; [|done]. intros [k1 e1] [k2 e2] H1 H2 Heq. simpl in Heq. subst.
    apply Hpage in H1 as [H1 _], H2 as [H2 _]. congruence. }
  split; [split; [done|]|].
  - intros k e [Hk Hr]%Hpage. destruct (Hm _ _ Hk) as [? ?]. split_and!; [done|lia|lia|].
    intros e' Hk' _. congruence.
  - unfold work. change (weights []) with 0%nat. rewrite Nat.add_0_l.
    set (M := ready_except now (fst <$> page) m). set (M0 := ready_except now _ m).
    assert (page ++ map_to_list M ⊆+ map_to_list M0) as [l Hl]%submseteq_Permutation.
    { apply NoDup_submseteq.
      - apply NoDup_app. split_and!; [done| |apply NoDup_map_to_list].
        intros [k e] Hin Hin'. apply elem_of_map_to_list, ready_except_Some in Hin' as (_ & _ & Hk).
        apply Hk. by apply (list_elem_of_fmap_2 fst _ (k, e)).
      - intros [k e] [Hin|Hin]%elem_of_app; apply elem_of_map_to_list, ready_except_Some.
        + apply Hpage in Hin as [? ?]. split_and!; [done..|]. apply not_elem_of_nil.
        + apply elem_of_map_to_list, ready_except_Some in Hin as (? & ? & _).
          split_and!; [done..|]. apply not_elem_of_nil. }
    unfold weights. rewrite Hl, !sum_list_with_app. lia.
Qed.

(** The handler and whatever else runs during an attempt leave a sound queue, and
    make no entry ready for the run started at [now]. *)
Definition quiet (now : Z) : Prop :=
  ∀ w m event, repr w m → queue_ok m →
    ∃ m', repr (snd (handle event w)) m' ∧ queue_ok m' ∧ adds_nothing_ready now m m'.

Lemma attempt_quiet now w m e :
  quiet now → repr w m → queue_ok m →
  ∃ m', repr (snd (attempt e w)) m' ∧ queue_ok m' ∧ adds_nothing_ready now m m'.
Proof.
  intros Hq Hw Hm. unfold attempt.
  assert (∃ m', repr w m' ∧ queue_ok m' ∧ adds_nothing_ready now m m') by (exists m; split_and!; [done|done|by intros ???]).
  destruct (parse_event _) as [[event| |]|]; [by apply Hq|done..].
Qed.

Lemma process_batch_works now batch w m :
  quiet now → repr w m → queue_ok m → batch_ok now batch m →
  yields (process_batch config batch) w
    (λ stopped w', stopped = true ∨
       ∃ m', repr w' m' ∧ queue_ok m' ∧ (work now [] m' + length batch ≤ work now batch m)%nat)
    (λ _ _, True).
Proof.
  intros Hq. revert w m. induction batch as [|[k e] batch IH]; intros w m Hw Hm Hb.
  { apply yields_ret. right. exists m. split_and!; [done..|]. simpl. lia. }
  simpl. apply yields_bind. intros stop w0 Hstop.
  pose proof (shutdown_frame w m Hw) as Hw0. rewrite Hstop in Hw0. simpl in Hw0.
  destruct stop; [apply yields_ret; by left|].
  destruct (attempt_quiet now w0 m e Hq Hw0 Hm) as (m1 & Hw1 & Hm1 & Hadd).
  destruct (attempt e w0) as [r w1] eqn:Hatt. simpl in Hw1.
  destruct (proj2 Hb k e) as (Hok & Hrc & _); [set_solver|].
  apply yields_ebind.
  eapply yields_mono; [by eapply (process_settles w0 m1 k e r w1)| |done].
  intros _ w2 (Hst & t & Hpl & Hw2).
  destruct (work_step now batch m m1 k e r t Hb Hadd Hst) as [Hwork Hb2].
  eapply yields_mono; [eapply IH; [done| |done]| |done].
  { by apply settle_queue_ok. }
  intros stopped w3 [?|(m3 & Hw3 & Hm3 & Hlt)]; [by left|]. right. exists m3.
  split_and!; [done..|]. simpl. lia.
Qed.

Lemma run_loop_ends fuel now w m :
  quiet now → plausible now → repr w m → queue_ok m → (work now [] m < fuel)%nat →
  yields (run_loop config fuel now) w (λ outcome _, outcome = Some Completed) (λ _ _, True).
Proof.
  intros Hq Hpl. revert w m. induction fuel as [|fuel IH]; intros w m Hw Hm Hfuel; [lia|].
  simpl. apply yields_ebind. unfold fetch_ready_events.
  eapply yields_mono;
    [by apply fetch_ready_spec; [|apply plausible_timely]| |done].
  intros page w1 [(n & -> & _) Hw1].
  destruct (page_ok now n m Hm) as [Hb Hle].
  destruct (take n (ready_entries m now)) as [|p page]; [by apply yields_ret|].
  apply yields_ebind. eapply yields_mono; [by eapply process_batch_works| |done].
  intros stopped w2 [->|(m2 & Hw2 & Hm2 & Hlt)]; [by apply yields_ret|].
  destruct stopped; [by apply yields_ret|]. simpl in Hlt.
  apply (IH w2 m2); [done..|]. lia.
Qed.

(** C16: a retry run ends. The batches it fetches are bounded by the attempts left to
    the entries ready when it starts (each has at most [retry_bound + 1 -
    retry_count]), even with zero backoffs, as long as what happens during its
    attempts makes no further entry ready for it; it ends completed or with an
    error, never cut short by the bound. *)
Theorem retry_run_ends w m fuel :
  let now := timestamp_millis (fst (utc_now w)) in
  quiet now → repr w m → queue_ok m → (work now [] m < fuel)%nat →
  yields (run_internal config fuel) w (λ outcome _, outcome = Some Completed) (λ _ _, True).
Proof.
  intros now Hq Hw Hm Hfuel. unfold run_internal. apply yields_bind. intros dt w1 Hdt.
  pose proof (clock_frame w m Hw) as Hw1. pose proof (clock_plausible w) as Hpl.
  unfold now in *. rewrite Hdt in *. simpl in *. by apply (run_loop_ends _ _ w1 m).
Qed.
End Properties.

(** ** A concrete world, for the witnesses

    The in-memory store, a clock that stands at 5 s, and a handler given as a program
    over the queue. *)

Module MemWorld.

#[export] Instance specs : Specs := toy_specs.
#[export] Instance uri_hash : UriHash := {| hash_str_hex := id |}.

#[export] Instance clock : Clock Queue := {
  DateTime := Z;
  utc_now := ret 5000;
  timestamp_millis := id;
  timestamp_nanos_opt := λ t, Some (t * 1000000);
  instant_now := ret 0;
}.

#[export] Instance shutdown : Shutdown Queue := {| shutdown_requested := ret false |}.

Definition config : EventRetryConfig := {|
  max_retries := 3; max_dependency_retries := 50;
  initial_backoff_secs := 10; max_backoff_secs := 3600;
  initial_missing_dep_backoff_secs := 60; max_missing_dep_backoff_secs := 7200;
|}.

Definition plausible (_ : Z) : Prop := True.

#[export] Instance environment :
  RetryEnvironment config (=) (λ _, True) (λ _, True) plausible.
Proof. by split; intros; subst. Qed.

Definition entry (n : Z) : RetryEvent := {|
  retry_count := 1; retry_event_type := Put; event_uri := "post"; next_retry_at := 4000;
  origin_homeserver_id := "hs"; nonce := n;
|}.

Definition failing (event : Event) : prog Queue (result unit Ep.EventProcessorError) :=
  ret (Err (Ep.MissingDependency ["author"])).

(** A newer event for the URI is enqueued while the old one is retried. *)
Definition superseding (event : Event) : prog Queue (result unit Ep.EventProcessorError) :=
  λ m, (Ok tt, <["post" := entry 9]> m).

End MemWorld.

Section Witnesses.
Import MemWorld.

Lemma process_retry_event_outcome_witness :
  let EH := {| handle := failing |} in
  let error := Ep.MissingDependency ["author"] in
  let m := {["post" := entry 7]} in
  yields (process_retry_event config "post" (entry 7)) m
    (λ _ m', ∃ now, m' = <["post" := rescheduled config (entry 7) error true now]> m)
    (λ _ _, True).
Proof.
  intros EH error m.
  eapply yields_mono;
    [exact (process_retry_event_outcome config (=) (λ _, True) (λ _, True) plausible
       m m "post" (entry 7) (Err error) m (conj eq_refl I) eq_refl eq_refl eq_refl)| |done].
  intros _ m' (_ & now & _ & ->). by exists now.
Defined.

Lemma superseded_entry_survives_witness :
  let EH := {| handle := superseding |} in
  yields (process_retry_event config "post" (entry 7)) {["post" := entry 7]}
    (λ _ m', {["post" := entry 9]} = m') (λ _ m', {["post" := entry 9]} = m').
Proof.
  intros EH.
  exact (superseded_entry_survives config (=) (λ _, True) (λ _, True) plausible
    {["post" := entry 7]} {["post" := entry 9]} "post" (entry 7) (Ok tt) {["post" := entry 9]}
    (conj eq_refl I) eq_refl eq_refl eq_refl).
Defined.

Lemma retry_run_ends_witness :
  let EH := {| handle := failing |} in
  yields (run_internal config 51) {["post" := entry 7]}
    (λ outcome _, outcome = Some Completed) (λ _ _, True).
Proof.
  intros EH.
  apply (retry_run_ends config (=) (λ _, True) (λ _, True) plausible _ {["post" := entry 7]}).
  - intros w m event -> Hm. exists m. split_and!; [done|done|by intros ???].
  - done.
  - intros k e [<- <-]%lookup_singleton_Some. split; [done|].
    vm_compute. split; discriminate.
  - vm_compute. lia.
Defined.
End Witnesses.
