(* ===== verification/Processor.v ===== *)
(** * Event processors: what every run does with an event

    The trait [TEventProcessor] of nexus-watcher/src/service/indexer/mod.rs: parsing a
    line, deciding whether to process its event, handing it to the event handler, and
    what becomes of it when that fails. A processor provides its homeserver, its
    retry scheduler and its filter ([should_process_event]). *)

From S2P Require Import Prelude Errors Events World RetryStore RetryProcessor.
Local Open Scope Z_scope.

(** ** How a run ends for its caller *)

Inductive RunError :=
  | Internal (e : Ep.EventProcessorError)
  | Panicked
  | RunBudgetSpent.

Definition is_panic (e : RunError) : bool := match e with Panicked => true | _ => false end.

(** [TEventProcessor::run]: it waits for the run's task, however long that takes;
    [None] is a task that panicked. *)
Definition run_result (join_result : option (result RunOutcome Ep.EventProcessorError)) :
    result unit RunError :=
  match join_result with
  | None => Err Panicked
  | Some (Ok Completed) => Ok tt
  | Some (Ok BudgetSpent) => Err RunBudgetSpent
  | Some (Err e) => Err (Internal e)
  end.

(** ** Handling one event *)

Section Processor.
Context {W : Type} {SP : Specs} {CL : Clock W} {EH : EventHandler W}
  {UH : UriHash} {RS : RetryStore W}.
Context (retry_scheduler : option InitialBackoff) (homeserver_id : option string).
Context (should_process_event : Event → prog W (result bool Ep.EventProcessorError)).
Local Open Scope nexus_scope.

Definition handle_error (event : Event) (error : Ep.EventProcessorError) :
    prog W (result unit Ep.EventProcessorError) :=
  if Ep.should_not_retry_now error then ret (Err error)
  else if negb (Ep.should_enqueue_related_event error) then ret (Ok tt)
  else
    match retry_scheduler with
    | None => ret (Ok tt)
    | Some scheduler =>
        match homeserver_id with
        | None => ret (Ok tt)
        | Some homeserver_id =>
            if Ep.is_missing_dependency error
            then queue_missing_dep scheduler event homeserver_id
            else queue_transient scheduler event homeserver_id
        end
    end.

Definition handle_event (event : Event) : prog W (result unit Ep.EventProcessorError) :=
  let* decision := should_process_event event in
  match decision with
  | Ok true =>
      let* handled := handle event in
      match handled with
      | Err e => let? _ := handle_error event e in ret (Ok tt)
      | Ok _ => ret (Ok tt)
      end
  | Ok false => ret (Ok tt)
  | Err e => handle_error event e
  end.

Definition process_event_line (line : string) : prog W (result unit Ep.EventProcessorError) :=
  match parse_event line with
  | Err _ => ret (Ok tt)
  | Ok Skipped => ret (Ok tt)
  | Ok (UnrecognizedUri _ _ _) => ret (Ok tt)
  | Ok (Parsed event) => let? _ := handle_event event in ret (Ok tt)
  end.
End Processor.

(** ** Properties *)

(** The initial wait of a queued error. *)
Definition initial_wait (scheduler : InitialBackoff) (error : Ep.EventProcessorError) : Z :=
  if Ep.is_missing_dependency error then missing_dep_ms scheduler else transient_ms scheduler.

Section Properties.
Context {W : Type} {SP : Specs} {CL : Clock W} {EH : EventHandler W}
  {UH : UriHash} {RS : RetryStore W}.
Context (repr : W → Queue → Prop) (storable : RetryEvent → Prop) (timely : Z → Prop).
Context {HS : RetryStoreSpec W repr storable timely}.

(** Reading the clock leaves the queue, and an entry due an [acceptable] wait after a
    clock reading is storable. *)
Context (acceptable : Z → Prop).
Class EnqueueEnvironment := {
  enqueue_clock_frame w m : repr w m → repr (snd (utc_now w)) m;
  enqueued_storable w wait e : acceptable wait → retry_count e = 0 →
    next_retry_at e = wrap_i64 (timestamp_millis (fst (utc_now w)) + wait) → storable e;
}.
Context {EE : EnqueueEnvironment}.

(** The entry a fresh enqueue of [event] at [now] (ms) with wait [wait] stores. *)
Definition fresh_entry (event : Event) (hs : string) (wait now : Z) (e : RetryEvent) : Prop :=
  retry_count e = 0 ∧ retry_event_type e = event_type event ∧ event_uri e = uri event
  ∧ origin_homeserver_id e = hs ∧ next_retry_at e = wrap_i64 (now + wait).

Lemma enqueue_yields w m event wait hs :
  repr w m → acceptable wait →
  yields (enqueue event wait hs) w
    (λ _ w', ∃ now e, fresh_entry event hs wait now e
                      ∧ repr w' (<[for_uri (uri event) := e]> m))
    (λ _ w', repr w' m ∨ ∃ now e, fresh_entry event hs wait now e
                      ∧ repr w' (<[for_uri (uri event) := e]> m)).
Proof.
  intros Hw Hwait. unfold enqueue. apply yields_bind. intros dt w1 Hdt.
  pose proof (enqueue_clock_frame w m Hw) as Hw1. rewrite Hdt in Hw1. simpl in Hw1.
  apply yields_bind. intros e w2 He.
  assert (fresh_entry event hs wait (timestamp_millis dt) e ∧ repr w2 m) as [Hfresh Hw2].
  { unfold RetryEvent_new, fresh_nonce, bind, ret in He.
    pose proof (enqueue_clock_frame w1 m Hw1) as Hf.
    destruct (utc_now w1) as [dt' w1']. by simplify_eq/=. }
  assert (storable e) as Hst.
  { apply (enqueued_storable w wait); [done|apply Hfresh|]. rewrite Hdt. apply Hfresh. }
  apply yields_ebind.
  assert (event_uri e = uri event) as Huri by apply Hfresh.
  pose proof (put_spec w2 m e Hw2 Hst) as Hput. rewrite Huri in Hput.
  eapply yields_mono; [exact Hput|..].
  - intros ? w3 [_ Hw3]. apply yields_ret. eauto.
  - intros ? w3 [?|?]; [by left|right; eauto].
Qed.

(** an event whose processing failed is never silently lost: when the error is
    our own infrastructure's or the stream's, the batch stops with that error and
    nothing is queued; when it is worth retrying, the event goes on the queue as a
    fresh entry, due after the wait its kind of failure calls for, replacing any
    older entry for its URI; otherwise it is dropped and nothing changes. Only a
    failing store can end the batch besides. *)
Theorem failed_event_outcome scheduler hs event error w m :
  repr w m → acceptable (missing_dep_ms scheduler) → acceptable (transient_ms scheduler) →
  yields (handle_error (Some scheduler) (Some hs) event error) w
    (λ _ w', Ep.should_not_retry_now error = false ∧
       if Ep.should_enqueue_related_event error then
         ∃ now e, fresh_entry event hs (initial_wait scheduler error) now e
                  ∧ repr w' (<[for_uri (uri event) := e]> m)
       else w' = w)
    (λ err w', if Ep.should_not_retry_now error then err = error ∧ w' = w
       else Ep.should_enqueue_related_event error = true ∧
         (repr w' m ∨ ∃ now e, fresh_entry event hs (initial_wait scheduler error) now e
                        ∧ repr w' (<[for_uri (uri event) := e]> m))).
Proof.
  intros Hw Hwait1 Hwait2. unfold handle_error.
  destruct (Ep.should_not_retry_now error); [by apply yields_ret|].
  destruct (Ep.should_enqueue_related_event error); cbn [negb]; [|by apply yields_ret].
  unfold initial_wait. destruct (Ep.is_missing_dependency error);
    (eapply yields_mono; [by apply enqueue_yields| |]; auto).
Qed.

(** a queued event comes back as itself: the event the retry processor rebuilds
    from the entry it stored is the one that was parsed from the stream, so the
    retry calls the handler with exactly the event that failed. *)
Theorem queued_event_is_retried_as_itself line event hs wait now e w :
  parse_event line = Ok (Parsed event) → fresh_entry event hs wait now e →
  attempt e w = handle event w.
Proof.
  intros Hline (_ & Htype & Huri & _). unfold attempt. rewrite Htype, Huri.
  by rewrite <- (parse_event_line _ _ Hline), Hline.
Qed.

(** a line that is not an event Nexus indexes, or whose event the processor's
    filter turns away, reaches no handler and changes nothing but what the filter
    read. *)
Theorem unwanted_line_is_skipped retry hs filter line w :
  match parse_event line with
  | Ok (Parsed event) =>
      fst (filter event w) = Ok false →
      process_event_line retry hs filter line w = (Ok tt, snd (filter event w))
  | _ => process_event_line retry hs filter line w = (Ok tt, w)
  end.
Proof.
  unfold process_event_line. destruct (parse_event line) as [[event| |]|]; [|done..].
  intros Hf. unfold handle_event, bind, ebind. destruct (filter event w) as [d w'].
  simpl in Hf. by subst.
Qed.
End Properties.

Section Witnesses.
Import MemWorld.

Definition quiet_handler : EventHandler Queue := {| handle := λ _, ret (Ok tt) |}.

#[local] Instance enqueue_environment : EnqueueEnvironment (=) (λ _, True) (λ _, True).
Proof. split; [by intros ?? ->|done]. Qed.

Definition witness_event : Event :=
  {| uri := "post"; event_type := Put; parsed_uri := ("post" : string); event_line := "PUT post" |}.

Lemma failed_event_outcome_witness :
  let error := Ep.MissingDependency ["author"] in
  let scheduler := InitialBackoff_from_config config in
  yields (handle_error (Some scheduler) (Some "hs") witness_event error) (∅ : Queue)
    (λ _ m, ∃ now e, fresh_entry witness_event "hs" 60000 now e ∧ m = {["post" := e]})
    (λ _ _, True).
Proof.
  intros error scheduler.
  eapply yields_mono; [apply (failed_event_outcome (=) (λ _, True) (λ _, True) (λ _, True)
    scheduler "hs" witness_event error ∅ ∅ eq_refl I I)| |done].
  intros ? m [_ Hm]. exact Hm.
Defined.

Lemma queued_event_is_retried_as_itself_witness :
  attempt (EH := quiet_handler)
    {| retry_count := 0; retry_event_type := Put; event_uri := "post"; next_retry_at := 65000;
       origin_homeserver_id := "hs"; nonce := 1 |} (∅ : Queue)
  = handle (EventHandler := quiet_handler) witness_event ∅.
Proof.
  apply (queued_event_is_retried_as_itself "PUT post" witness_event "hs" 60000 5000);
    [reflexivity|repeat split].
Defined.

Lemma unwanted_line_is_skipped_witness :
  process_event_line (EH := quiet_handler) None None (λ _, ret (Ok false)) "PUT post" (∅ : Queue)
  = (Ok tt, ∅).
Proof.
  exact (unwanted_line_is_skipped (EH := quiet_handler) None None (λ _, ret (Ok false))
    "PUT post" ∅ eq_refl).
Defined.
End Witnesses.
