(* ===== verification/KeyBased.v ===== *)
(** * The external loop's processor: per-user event streams

    nexus-watcher/src/service/indexer/key_based.rs. One run goes over the users hosted
    on an external homeserver, each with its own stream and cursor, until a budget is
    spent. Public keys are their z32 text. The in-memory tables it shares between
    runs are passed along explicitly. *)

From S2P Require Import Prelude Errors Events Backoff ResumePoints.
From S2P Require Import Cursor World RetryStore RetryProcessor Processor.
Local Open Scope Z_scope.

(** The user cursors, as the processor uses them. *)
Class UserCursors (W : Type) := {
  read_cursors : list string → string → prog W (result (list Z) Kv.RedisError);
  write_cursor : string → string → Z → prog W (result unit Kv.RedisError);
}.

(** [user_hs_resolver::get_user_ids_by_homeserver], a graph query, and the SDK's
    parsing of a public key into its z32 text. *)
Class HostedUsers (W : Type) := {
  get_user_ids_by_homeserver : string → prog W (result (list string) Graph.GraphError);
  parse_public_key : string → option string;
}.

(** What runs share in memory. *)
Record Tables := {
  user_not_found_backoff : UserNotFoundBackoff.UserNotFoundBackoff;
  user_resume_points : UserResumePoints.UserResumePoints;
}.

Definition set_backoff (t : Tables) (b : UserNotFoundBackoff.UserNotFoundBackoff) : Tables :=
  {| user_not_found_backoff := b; user_resume_points := user_resume_points t |}.
Definition set_resume (t : Tables) (p : UserResumePoints.UserResumePoints) : Tables :=
  {| user_not_found_backoff := user_not_found_backoff t; user_resume_points := p |}.

Section KeyBased.
Context {W : Type} {SP : Specs} {CL : Clock W} {SH : Shutdown W} {EH : EventHandler W}
  {UH : UriHash} {RS : RetryStore W} {HC : HomeserverClient W} {UC : UserCursors W}
  {HU : HostedUsers W}.
(** The processor's fields. *)
Context (homeserver_id : string) (limit : Z) (hs_blacklist : Homeserver.HsBlacklist)
  (retry_scheduler : InitialBackoff) (budget : Z).
Local Open Scope nexus_scope.

(** The trait's [handle_event], with the default filter. *)
Definition handle (event : Event) : prog W (result unit Ep.EventProcessorError) :=
  handle_event (Some retry_scheduler) (Some homeserver_id) (λ _, ret (Ok true)) event.

Definition validate_user_id (stream_event : HsStreamEvent) (expected_user_id : string) :
    result unit Ep.EventProcessorError :=
  let event_user_id := owner stream_event in
  if decide (event_user_id ≠ expected_user_id) then
    Err (Ep.UserIdMismatch homeserver_id expected_user_id event_user_id)
  else Ok tt.

(** The whole batch is checked before any handler runs. *)
Fixpoint check_order (user_id : string) (cursor_floor : Z) (stream_events : list HsStreamEvent) :
    result unit Ep.EventProcessorError :=
  match stream_events with
  | [] => Ok tt
  | stream_event :: stream_events =>
      let cursor_id := cursor stream_event in
      if decide (cursor_id ≤ cursor_floor) then
        Err (Ep.EventCursorOutOfOrder homeserver_id user_id cursor_id cursor_floor)
      else check_order user_id cursor_id stream_events
  end.

Fixpoint handle_events (user_id : string) (deadline : Z) (latest_cursor : option Z)
    (stream_events : list HsStreamEvent) :
    prog W (option Z * result unit Ep.EventProcessorError) :=
  match stream_events with
  | [] => ret (latest_cursor, Ok tt)
  | stream_event :: stream_events =>
      let* stop := shutdown_requested in
      if (stop : bool) then ret (latest_cursor, Ok tt)
      else
        match validate_user_id stream_event user_id with
        | Err err => ret (latest_cursor, Err err)
        | Ok _ =>
            let* handled :=
              match from_stream_event stream_event with
              | Ok (Some event) => handle event
              | Ok None => ret (Ok tt)
              | Err _ => ret (Ok tt)
              end in
            match handled with
            | Err err => ret (latest_cursor, Err err)
            | Ok _ =>
                let latest_cursor := Some (cursor stream_event) in
                let* now := instant_now in
                if decide (deadline ≤ now) then ret (latest_cursor, Ok tt)
                else handle_events user_id deadline latest_cursor stream_events
            end
        end
  end.

Definition process_user_events (user_id : string) (persisted_cursor : Z)
    (stream_events : list HsStreamEvent) (deadline : Z) :
    prog W (option Z * result unit Ep.EventProcessorError) :=
  let* stop := shutdown_requested in
  if (stop : bool) then ret (None, Ok tt)
  else
    match check_order user_id persisted_cursor stream_events with
    | Err err => ret (None, Err err)
    | Ok _ => handle_events user_id deadline None stream_events
    end.

Definition process_user (user_pk : string) (cursor : Z) (deadline : Z) :
    prog W (result unit Ep.EventProcessorError) :=
  let? stream_events := emap_err Ep.from_hs (user_events homeserver_id user_pk cursor limit) in
  let* outcome := process_user_events user_pk cursor stream_events deadline in
  let '(latest_cursor, result) := outcome in
  match latest_cursor with
  | Some cursor_val =>
      (* A failed write is logged: the events may be processed again. *)
      let* _ := write_cursor user_pk homeserver_id cursor_val in ret result
  | None => ret result
  end.

Definition resolve_users_with_cursors :
    prog W (result (list (string * Z)) Ep.EventProcessorError) :=
  let? user_ids := emap_err Ep.from_graph (get_user_ids_by_homeserver homeserver_id) in
  let valid_users := omap (λ user_id, (λ pk, (pk, user_id)) <$> parse_public_key user_id) user_ids in
  let? cursors := emap_err Ep.from_redis (read_cursors (snd <$> valid_users) homeserver_id) in
  ret (Ok (zip (fst <$> valid_users) cursors)).

(** The loop over [users] (the whole turn), from position [index] on; [rest] are the
    users from there. *)
Fixpoint run_users (users : list (string * Z)) (deadline : Z) (index : nat)
    (rest : list (string * Z)) (t : Tables) :
    prog W (result RunOutcome Ep.EventProcessorError * Tables) :=
  match rest with
  | [] =>
      ret (Ok Completed, set_resume t
             (UserResumePoints.record_full_pass homeserver_id (user_resume_points t)))
  | (user_pk, cursor) :: rest =>
      let* stop := shutdown_requested in
      if (stop : bool) then ret (Ok Completed, t)
      else
        let '(skip, b) := UserNotFoundBackoff.consume_skip user_pk (user_not_found_backoff t) in
        let t := set_backoff t b in
        if (skip : bool) then run_users users deadline (S index) rest t
        else
          let* processed := process_user user_pk cursor deadline in
          let go_on t :=
            let* now := instant_now in
            if decide (deadline ≤ now) then
              (* [users] is not empty here, so the stop is recorded *)
              ret (Ok BudgetSpent, set_resume t
                     (default (user_resume_points t)
                        (UserResumePoints.record_stop_after homeserver_id users index
                           (user_resume_points t))))
            else run_users users deadline (S index) rest t in
          match processed with
          | Ok _ =>
              go_on (set_backoff t (UserNotFoundBackoff.record_success user_pk b))
          | Err err =>
              if Ep.should_not_retry_now err then ret (Err err, t)
              else if Ep.is_not_found err then
                go_on (set_backoff t (UserNotFoundBackoff.record_failure user_pk b))
              else go_on t
          end
  end.

Definition run_internal (t : Tables) :
    prog W (result RunOutcome Ep.EventProcessorError * Tables) :=
  if Homeserver.is_blacklisted hs_blacklist homeserver_id then
    ret (Err (Ep.HsBlacklisted homeserver_id), t)
  else
    let* now := instant_now in
    let deadline := now + budget in
    let* resolved := resolve_users_with_cursors in
    match resolved with
    | Err e => ret (Err e, t)
    | Ok [] => ret (Ok Completed, t)
    | Ok users =>
        let users := UserResumePoints.order homeserver_id users (user_resume_points t) in
        run_users users deadline 0 users t
    end.
End KeyBased.

(** ** What a run does with a stream *)

Section Stream_properties.
Context {W : Type} {SP : Specs} {CL : Clock W} {SH : Shutdown W} {EH : EventHandler W}
  {UH : UriHash} {RS : RetryStore W}.
Context (homeserver_id : string) (retry_scheduler : InitialBackoff).
Implicit Types (w : W) (evs : list HsStreamEvent) (user_id : string).

Local Abbreviation handle_hs := (handle homeserver_id retry_scheduler).

(** An event of [user_id]'s own stream was handled, or is none Nexus indexes. *)
Definition attended user_id (ev : HsStreamEvent) w w' : Prop :=
  owner ev = user_id ∧
  match from_stream_event ev with
  | Ok (Some event) => handle_hs event w = (Ok tt, w')
  | _ => w' = w
  end.

(** Events attended one after the other, the shutdown signal read before each and the
    clock after. *)
Inductive attends user_id : list HsStreamEvent → W → W → Prop :=
  | attends_nil w : attends user_id [] w w
  | attends_cons ev evs w w0 w1 w2 :
      shutdown_requested w = (false, w0) → attended user_id ev w0 w1 →
      attends user_id evs (snd (instant_now w1)) w2 → attends user_id (ev :: evs) w w2.

(** An event of somebody else, or whose handling stops the batch. *)
Definition fails user_id (ev : HsStreamEvent) w (e : Ep.EventProcessorError) w' : Prop :=
  owner ev ≠ user_id ∧ e = Ep.UserIdMismatch homeserver_id user_id (owner ev)
    ∧ w' = snd (shutdown_requested w)
  ∨ owner ev = user_id ∧ ∃ event, from_stream_event ev = Ok (Some event)
    ∧ handle_hs event (snd (shutdown_requested w)) = (Err e, w').

Definition cursor_or (latest : option Z) (pre : list HsStreamEvent) : option Z :=
  match last (cursor <$> pre) with Some c => Some c | None => latest end.

Lemma cursor_or_cons latest ev pre :
  cursor_or latest (ev :: pre) = cursor_or (Some (cursor ev)) pre.
Proof.
  unfold cursor_or. rewrite fmap_cons, last_cons. by destruct (last (cursor <$> pre)).
Qed.

Lemma handle_events_attends user_id deadline latest evs w l r w' :
  handle_events homeserver_id retry_scheduler user_id deadline latest evs w = ((l, r), w') →
  ∃ pre rest wd, evs = pre ++ rest ∧ attends user_id pre w wd ∧ l = cursor_or latest pre
    ∧ match r with
      | Ok _ => w' = wd ∨ w' = snd (shutdown_requested wd)
      | Err e => ∃ ev rest', rest = ev :: rest' ∧ fails user_id ev wd e w'
      end.
Proof.
  revert latest w. induction evs as [|ev evs IH]; intros latest w Hrun.
  { cbn in Hrun. injection Hrun as <- <- <-. exists [], [], w.
    split_and!; [done|constructor|done|by left]. }
  cbn [handle_events] in Hrun. unfold bind in Hrun.
  destruct (shutdown_requested w) as [stop w0] eqn:Hstop. destruct stop.
  { injection Hrun as <- <- <-. exists [], (ev :: evs), w.
    split_and!; [done|constructor|done|right; by rewrite Hstop]. }
  unfold validate_user_id in Hrun. case_decide as Howner.
  { injection Hrun as <- <- <-. exists [], (ev :: evs), w.
    split_and!; [done|constructor|done|]. exists ev, evs. split; [done|]. left.
    by rewrite Hstop. }
  assert (owner ev = user_id) as Howner' by (by destruct (decide (owner ev = user_id))).
  match type of Hrun with context [let '(_, _) := ?p in _] =>
    destruct p as [handled w1] eqn:Hh end.
  destruct handled as [[]|e].
  - destruct (instant_now w1) as [now w2] eqn:Hnow.
    assert (attended user_id ev w0 w1) as Hatt.
    { split; [done|]. destruct (from_stream_event ev) as [[event|]|]; [done|..];
        by injection Hh as <-. }
    case_decide as Hdl.
    + injection Hrun as <- <- <-. exists [ev], evs, w2. split_and!; [done| |done|by left].
      econstructor; [done..|]. rewrite Hnow. constructor.
    + apply IH in Hrun as (pre & rest & wd & -> & Ha & -> & Hr).
      exists (ev :: pre), rest, wd. split_and!; [done| |by rewrite cursor_or_cons|done].
      econstructor; [done..|]. by rewrite Hnow.
  - injection Hrun as <- <- <-. exists [], (ev :: evs), w.
    split_and!; [done|constructor|done|]. exists ev, evs. split; [done|]. right.
    split; [done|]. rewrite Hstop.
    destruct (from_stream_event ev) as [[event|]|]; [by eauto|done..].
Qed.

(** The cursors of a batch, above the stored one and each above the one before. *)
Definition in_order (persisted : Z) evs : Prop := Sorted Z.lt (persisted :: (cursor <$> evs)).

Lemma check_order_spec user_id floor evs :
  match check_order homeserver_id user_id floor evs with
  | Ok _ => in_order floor evs
  | Err e => ¬ in_order floor evs ∧
      ∃ c f, c ≤ f ∧ e = Ep.EventCursorOutOfOrder homeserver_id user_id c f
  end.
Proof.
  unfold in_order. revert floor. induction evs as [|ev evs IH]; intros floor; simpl.
  { repeat constructor. }
  case_decide as Hle.
  - split; [|eauto]. intros Hs. apply Sorted_inv in Hs as [_ Hhd]. inversion Hhd. lia.
  - specialize (IH (cursor ev)). destruct (check_order _ _ _ _).
    + constructor; [done|]. constructor. lia.
    + destruct IH as [Hn He]. split; [|done]. intros Hs. apply Hn.
      by apply Sorted_inv in Hs as [? _].
Qed.

(** a batch that is not in strict cursor order above the stored cursor (a replay of
    indexed events, or a regression inside it) runs no handler at all: the world is
    the one in which the batch was fetched, up to reading the shutdown signal; no
    cursor is reported to store, and the error it ends with stops the homeserver's
    run. *)
Theorem out_of_order_batch_runs_nothing user_id persisted evs deadline w :
  ¬ in_order persisted evs → fst (shutdown_requested w) = false →
  ∃ c f, c ≤ f ∧
    process_user_events homeserver_id retry_scheduler user_id persisted evs deadline w
    = ((None, Err (Ep.EventCursorOutOfOrder homeserver_id user_id c f)),
       snd (shutdown_requested w))
    ∧ Ep.should_not_retry_now (Ep.EventCursorOutOfOrder homeserver_id user_id c f) = true.
Proof.
  intros Hord Hstop. unfold process_user_events, bind.
  destruct (shutdown_requested w) as [stop w0]. simpl in Hstop. subst.
  pose proof (check_order_spec user_id persisted evs) as Hc.
  destruct (check_order _ _ _ _) as [?|e]; [done|].
  destruct Hc as (_ & c & f & Hle & ->). by exists c, f.
Qed.

Lemma process_user_events_attends user_id persisted evs deadline w l r w' :
  process_user_events homeserver_id retry_scheduler user_id persisted evs deadline w
    = ((l, r), w') →
  l = None ∨
  ∃ pre rest w0 wd, evs = pre ++ rest ∧ attends user_id pre w0 wd
    ∧ l = last (cursor <$> pre) ∧ in_order persisted evs ∧ w0 = snd (shutdown_requested w)
    ∧ match r with
      | Ok _ => w' = wd ∨ w' = snd (shutdown_requested wd)
      | Err e => ∃ ev rest', rest = ev :: rest' ∧ fails user_id ev wd e w'
      end.
Proof.
  unfold process_user_events, bind.
  destruct (shutdown_requested w) as [stop w0]. destruct stop; [intros [= <- _ _]; by left|].
  pose proof (check_order_spec user_id persisted evs) as Hc.
  destruct (check_order _ _ _ _) as [?|e]; [|intros [= <- _ _]; by left].
  intros (pre & rest & wd & -> & Ha & -> & Hr)%handle_events_attends. right.
  exists pre, rest, w0, wd. split_and!; try done.
  unfold cursor_or. by destruct (last _).
Qed.
End Stream_properties.

(** ** The stored cursor *)

Section Cursor_properties.
Context {W : Type} {SP : Specs} {CL : Clock W} {SH : Shutdown W} {EH : EventHandler W}
  {UH : UriHash} {RS : RetryStore W} {HC : HomeserverClient W} {UC : UserCursors W}.
Context (homeserver_id : string) (limit : Z) (retry_scheduler : InitialBackoff).
(** [stored w u h]: the cursor of user [u] on homeserver [h]; [ok]: an invariant of the
    cursor store. *)
Context (stored : W → string → string → option Z) (ok : W → Prop).

Definition same_cursors w w' : Prop := ok w' ∧ ∀ u h, stored w' u h = stored w u h.
Definition cursor_set_to w w' user_id (c : Z) : Prop :=
  ok w' ∧ ∀ u h, stored w' u h =
    if decide (u = user_id ∧ h = homeserver_id) then Some c else stored w u h.

Definition keeps {A} (p : prog W A) : Prop := ∀ w, ok w → same_cursors w (snd (p w)).

(** The cursor store's promise, and everybody else's to leave it alone: [stored] is a cursor
    as it is read, an entry not there reading as 0, for ingesting a user seeds the entry with
    just that (models/user/ingestor.rs). *)
Class StreamWorld := {
  write_cursor_spec w u c : ok w → 0 ≤ c ≤ 2 ^ 53 →
    yields (write_cursor u homeserver_id c) w
      (λ _ w', cursor_set_to w w' u c)
      (λ _ w', same_cursors w w' ∨ cursor_set_to w w' u c);
  handler_keeps event : keeps (World.handle event);
  put_keeps e : keeps (put e);
  utc_now_keeps : keeps utc_now;
  instant_now_keeps : keeps instant_now;
  shutdown_keeps : keeps shutdown_requested;
  user_events_keeps h u c l : keeps (user_events h u c l);
}.
Context {SW : StreamWorld}.

Lemma same_cursors_refl w : ok w → same_cursors w w.
Proof. done. Qed.

Lemma same_cursors_trans w1 w2 w3 :
  same_cursors w1 w2 → same_cursors w2 w3 → same_cursors w1 w3.
Proof. intros [_ H12] [? H23]. split; [done|]. intros. by rewrite H23. Qed.

Lemma keeps_prog_ret {A} (a : A) : keeps (ret a).
Proof. by intros w Hw. Qed.

Lemma keeps_prog_bind {A B} (p : prog W A) (k : A → prog W B) :
  keeps p → (∀ a, keeps (k a)) → keeps (bind p k).
Proof.
  intros Hp Hk w Hw. unfold bind. specialize (Hp w Hw). destruct (p w) as [a w1].
  simpl in *. eapply same_cursors_trans; [done|]. apply Hk, Hp.
Qed.

Lemma keeps_prog_ebind {A B E} (p : prog W (result A E)) (k : A → prog W (result B E)) :
  keeps p → (∀ a, keeps (k a)) → keeps (ebind p k).
Proof.
  intros Hp Hk w Hw. unfold ebind. specialize (Hp w Hw). destruct (p w) as [[a|e] w1];
    simpl in *; [|done]. eapply same_cursors_trans; [done|]. apply Hk, Hp.
Qed.

Ltac keeps_step :=
  match goal with
  | |- ∀ _, _ => intros ?
  | |- keeps (bind _ _) => apply keeps_prog_bind
  | |- keeps (ebind _ _) => apply keeps_prog_ebind
  | |- keeps (ret _) => apply keeps_prog_ret
  | |- keeps utc_now => apply utc_now_keeps
  | |- keeps instant_now => apply instant_now_keeps
  | |- keeps shutdown_requested => apply shutdown_keeps
  | |- keeps (put _) => apply put_keeps
  | |- keeps (World.handle _) => apply handler_keeps
  | |- keeps (match ?x with _ => _ end) => destruct x
  end.

Lemma enqueue_keeps event wait hs : keeps (enqueue event wait hs).
Proof. unfold enqueue, RetryEvent_new, fresh_nonce. by repeat keeps_step. Qed.

Lemma handle_keeps event : keeps (handle homeserver_id retry_scheduler event).
Proof.
  unfold handle, handle_event, handle_error, queue_missing_dep, queue_transient.
  repeat keeps_step; apply enqueue_keeps.
Qed.

Lemma process_user_events_keeps user_id persisted evs deadline :
  keeps (process_user_events homeserver_id retry_scheduler user_id persisted evs deadline).
Proof.
  unfold process_user_events. apply keeps_prog_bind; [keeps_step|]. intros []; [keeps_step|].
  destruct (check_order _ _ _ _); [|keeps_step].
  generalize (None : option Z). induction evs as [|ev evs IH]; intros latest;
    cbn [handle_events]; [by keeps_step|].
  repeat first [keeps_step | apply handle_keeps | apply IH].
Qed.

(** C36: a user's stored cursor moves only past events that were attended. When a run
    over the user's stream leaves the cursor changed, the events fetched from the
    stored cursor were in strict order above it, and the new cursor is that of the
    last of an unbroken series from the first one, each the user's own and either
    handled (or queued for a retry, or dropped as not worth one) or not indexed by
    Nexus. Nobody else's cursor changes, and none does on another homeserver. *)
Theorem user_cursor_moves_past_attended_events user_pk persisted deadline w evs w1 :
  ok w → 0 ≤ persisted →
  user_events homeserver_id user_pk persisted limit w = (Ok evs, w1) →
  Forall (λ ev, cursor ev ≤ 2 ^ 53) evs →
  let w' := snd (process_user homeserver_id limit retry_scheduler user_pk persisted deadline w) in
  same_cursors w w' ∨
  ∃ pre rest wd c,
    evs = pre ++ rest ∧ in_order persisted evs
    ∧ attends homeserver_id retry_scheduler user_pk pre (snd (shutdown_requested w1)) wd
    ∧ last (cursor <$> pre) = Some c ∧ persisted < c
    ∧ cursor_set_to w w' user_pk c.
Proof.
  intros Hw Hp Hev Hbound. unfold process_user, emap_err, ebind. rewrite Hev. simpl.
  pose proof (user_events_keeps homeserver_id user_pk persisted limit w Hw) as Hk1.
  rewrite Hev in Hk1. simpl in Hk1. unfold bind.
  pose proof (process_user_events_keeps user_pk persisted evs deadline w1 (proj1 Hk1)) as Hk2.
  destruct (process_user_events _ _ _ _ _ _ w1) as [[l r] w2] eqn:Hrun. simpl in Hk2.
  assert (same_cursors w w2) as Hsame by by eapply same_cursors_trans.
  destruct l as [c|]; [|by left].
  apply process_user_events_attends in Hrun
    as [?|(pre & rest & w0 & wd & -> & Ha & Hl & Hord & -> & _)]; [done|].
  assert (persisted < c ∧ 0 ≤ c ≤ 2 ^ 53) as [Hlt Hc].
  { symmetry in Hl. apply last_Some_elem_of in Hl as Hin.
    assert (persisted < c).
    { unfold in_order in Hord. apply Sorted_StronglySorted in Hord; [|intros ???; lia].
      apply StronglySorted_inv in Hord as [_ Hall]. rewrite Forall_forall in Hall.
      apply Hall. rewrite fmap_app. set_solver. }
    apply list_elem_of_fmap in Hin as (ev & -> & Hin). rewrite Forall_forall in Hbound.
    specialize (Hbound ev ltac:(set_solver)). lia. }
  pose proof (write_cursor_spec w2 user_pk c (proj1 Hsame) Hc) as Hwrite. unfold yields in Hwrite.
  assert (∀ w3, cursor_set_to w2 w3 user_pk c → cursor_set_to w w3 user_pk c) as Hset.
  { intros w3 [Hok Hs]. split; [done|]. intros u h. rewrite Hs.
    case_decide; [done|]. apply Hsame. }
  destruct (write_cursor user_pk homeserver_id c w2) as [[?|?] w3]; simpl.
  - right. exists pre, rest, wd, c. split_and!; auto.
  - destruct Hwrite as [Hw3|Hw3]; [left; by eapply same_cursors_trans|].
    right. exists pre, rest, wd, c. split_and!; auto.
Qed.
End Cursor_properties.

(** ** How a run leaves the resume points *)

Section Run_properties.
Context {W : Type} {SP : Specs} {CL : Clock W} {SH : Shutdown W} {EH : EventHandler W}
  {UH : UriHash} {RS : RetryStore W} {HC : HomeserverClient W} {UC : UserCursors W}
  {HU : HostedUsers W}.
Context (homeserver_id : string) (limit : Z) (hs_blacklist : Homeserver.HsBlacklist)
  (retry_scheduler : InitialBackoff) (budget : Z).
Import UserResumePoints.

(** What an outcome says of the resume points before ([p]) and after ([p']) a run
    over [users] that started at position [index]. *)
Definition resumes (users : list (string * Z)) (index : nat)
    (r : result RunOutcome Ep.EventProcessorError) (p p' : gmap string string) : Prop :=
  match r with
  | Ok BudgetSpent => ∃ j, (index ≤ j < length users)%nat
                           ∧ record_stop_after homeserver_id users j p = Some p'
  | Ok Completed => p' = record_full_pass homeserver_id p ∨ p' = p
  | Err _ => p' = p
  end.

Lemma record_stop_after_Some users j p :
  (0 < length users)%nat → is_Some (record_stop_after homeserver_id users j p).
Proof.
  intros Hlen. unfold record_stop_after.
  destruct (lookup_lt_is_Some_2 users ((j + 1) `mod` length users)) as [[u c] ->];
    [by apply Nat.mod_upper_bound; lia|]. simpl. eauto.
Qed.

Lemma run_users_resumes users deadline index rest t w r t' w' :
  (index + length rest = length users)%nat →
  run_users homeserver_id limit retry_scheduler users deadline index rest t w = ((r, t'), w') →
  resumes users index r (user_resume_points t) (user_resume_points t').
Proof.
  revert index t w. induction rest as [|[pk c] rest IH]; intros index t w Hlen Hrun.
  { injection Hrun as <- <- <-. by left. }
  assert (∀ t w, run_users homeserver_id limit retry_scheduler users deadline (S index) rest t w
    = ((r, t'), w') → resumes users index r (user_resume_points t) (user_resume_points t')) as IH'.
  { intros t1 w1 Hr. apply IH in Hr; [|simpl in Hlen; lia]. unfold resumes in *.
    destruct r as [[]|]; [done| |done]. destruct Hr as (j & ? & ?). exists j. split; [lia|done]. }
  clear IH. cbn [run_users] in Hrun. unfold bind in Hrun.
  destruct (shutdown_requested w) as [[] w0]; [injection Hrun as <- <- <-; by right|].
  destruct (UserNotFoundBackoff.consume_skip pk _) as [[] b];
    [by apply IH' in Hrun|].
  destruct (process_user _ _ _ pk c deadline w0) as [processed w1].
  assert (∀ t1, user_resume_points t1 = user_resume_points t →
    (let '(now, w2) := instant_now w1 in
     (if decide (deadline ≤ now) then
        ret (Ok BudgetSpent, set_resume t1 (default (user_resume_points t1)
          (record_stop_after homeserver_id users index (user_resume_points t1))))
      else run_users homeserver_id limit retry_scheduler users deadline (S index) rest t1) w2)
    = ((r, t'), w') → resumes users index r (user_resume_points t) (user_resume_points t')) as Hgo.
  { intros t1 Ht1 Hr. destruct (instant_now w1) as [now w2]. case_decide.
    - injection Hr as <- <- <-. exists index. simpl in Hlen. split; [lia|].
      rewrite Ht1. destruct (record_stop_after_Some users index (user_resume_points t)) as [p Hp];
        [lia|]. by rewrite Hp.
    - apply IH' in Hr. by rewrite Ht1 in Hr. }
  destruct processed as [?|err]; [by apply Hgo in Hrun|].
  destruct (Ep.should_not_retry_now err); [by injection Hrun as <- <- <-|].
  destruct (Ep.is_not_found err); by apply Hgo in Hrun.
Qed.

(** a run that stops at its budget is a turn: it reached the first [c >= 1] users of
    its order, and the next run over the same users starts right after them. Other
    homeservers keep their places. A run that fails or is blacklisted keeps the
    place it started from; one that completes forgets it or, on shutdown, keeps it. *)
Theorem budget_spent_run_is_a_turn t w r t' w' :
  run_internal homeserver_id limit hs_blacklist retry_scheduler budget t w = ((r, t'), w') →
  match r with
  | Ok BudgetSpent =>
      ∃ resolved c, (1 ≤ c ≤ length resolved)%nat
        ∧ fst (resolve_users_with_cursors homeserver_id (snd (instant_now w))) = Ok resolved
        ∧ turn homeserver_id resolved c (user_resume_points t)
          = Some (take c (order homeserver_id resolved (user_resume_points t)),
                  user_resume_points t')
  | Ok Completed => user_resume_points t' = record_full_pass homeserver_id (user_resume_points t)
                    ∨ user_resume_points t' = user_resume_points t
  | Err _ => user_resume_points t' = user_resume_points t
  end.
Proof.
  unfold run_internal. destruct (Homeserver.is_blacklisted _ _); [by intros [= <- <- <-]|].
  unfold bind. destruct (instant_now w) as [now w0].
  destruct (resolve_users_with_cursors homeserver_id w0) as [resolved w1] eqn:Hres.
  destruct resolved as [users|e]; [|by intros [= <- <- <-]].
  destruct users as [|u users]; [intros [= <- <- <-]; by right|].
  set (resolved := u :: users) in *. set (users' := order _ _ _).
  intros Hrun%run_users_resumes; [|done]. unfold resumes in Hrun.
  destruct r as [[]|]; [done| |done]. destruct Hrun as (j & Hj & Hstop).
  assert (length users' = length resolved) as Hlen by apply Permutation_length, order_perm.
  exists resolved, (S j). split_and!; [lia|lia|simpl; by rewrite Hres|].
  unfold turn. fold users'. rewrite Nat.sub_succ, Nat.sub_0_r, Hstop. done.
Qed.
End Run_properties.

(** ** A concrete world, for the witnesses

    Cursors are a map, the client serves one stream, and the clock passes 300 s at
    every reading. *)

Module MemStreams.

Record t := {
  queue : Queue;
  cursors : gmap (string * string) Z;
  now : Z;
}.

#[export] Instance specs : Specs := toy_specs.
#[export] Instance uri_hash : UriHash := {| hash_str_hex := id |}.

#[export] Instance clock : Clock t := {
  DateTime := Z;
  utc_now := λ w, (now w, w);
  timestamp_millis := id;
  timestamp_nanos_opt := Some;
  instant_now := λ w, (now w, {| queue := queue w; cursors := cursors w;
                                 now := now w + from_secs 300 |});
}.

#[export] Instance shutdown : Shutdown t := {| shutdown_requested := ret false |}.
#[export] Instance handler : EventHandler t := {| World.handle := λ _, ret (Ok tt) |}.

#[export] Instance store : RetryStore t := {
  put := λ e w, (Ok tt, {| queue := <[for_uri (event_uri e) := e]> (queue w);
                           cursors := cursors w; now := now w |});
  get := λ k w, (Ok (queue w !! k), w);
  remove := λ _, ret (Ok tt);
  remove_if := λ _ _, ret (Ok false);
  put_if := λ _ _, ret (Ok false);
  fetch_ready := λ _ _, ret (Ok []);
}.

Definition stream (user : string) (cs : list Z) : list HsStreamEvent :=
  (λ c, {| stream_event_type := Put; cursor := c; owner := user; stream_uri := "u" |}) <$> cs.

#[export] Instance client : HomeserverClient t := {
  poll_events := λ _ _ _, ret (Ok []);
  user_events := λ _ user c _, ret (Ok (stream user [c + 1; c + 2]));
}.

#[export] Instance user_cursors : UserCursors t := {
  read_cursors := λ us h w, (Ok ((λ u, default 0 (cursors w !! (u, h))) <$> us), w);
  write_cursor := λ u h c w,
    (Ok tt, {| queue := queue w; cursors := <[(u, h) := c]> (cursors w); now := now w |});
}.

#[export] Instance hosted : HostedUsers t := {
  get_user_ids_by_homeserver := λ _, ret (Ok ["b"; "a"]);
  parse_public_key := Some;
}.

Definition stored (w : t) (u h : string) : option Z := cursors w !! (u, h).

#[export] Instance stream_world : StreamWorld "hs" stored (λ _, True).
Proof.
  split; try done. intros w u c _ _. split; [done|]. intros u' h'. unfold stored. simpl.
  case_decide as Hd.
  - destruct Hd as [-> ->]. by rewrite lookup_insert_eq.
  - rewrite lookup_insert_ne; [done|]. intros [= <- <-]. by apply Hd.
Qed.

Definition start : t := {| queue := ∅; cursors := ∅; now := 0 |}.
Definition scheduler : InitialBackoff := {| missing_dep_ms := 60000; transient_ms := 10000 |}.
Definition no_tables : Tables := {| user_not_found_backoff := ∅; user_resume_points := ∅ |}.

End MemStreams.

Section Witnesses.
Import MemStreams.

Lemma out_of_order_batch_runs_nothing_witness :
  ∃ c f, process_user_events "hs" scheduler "u" 5 (stream "u" [7; 7]) 0 start
    = ((None, Err (Ep.EventCursorOutOfOrder "hs" "u" c f)), start).
Proof.
  destruct (out_of_order_batch_runs_nothing "hs" scheduler "u" 5 (stream "u" [7; 7]) 0 start)
    as (c & f & _ & Hrun & _); [|reflexivity|by exists c, f].
  unfold in_order. cbn. intros [Hs _]%Sorted_inv. apply Sorted_inv in Hs as [_ Hhd].
  inversion Hhd. lia.
Defined.

Lemma user_cursor_moves_past_attended_events_witness :
  let w' := snd (process_user "hs" 10 scheduler "u" 0 (from_secs 1000) start) in
  same_cursors stored (λ _, True) start w' ∨
  ∃ c, 0 < c ∧ cursor_set_to "hs" stored (λ _, True) start w' "u" c.
Proof.
  intros w'.
  destruct (user_cursor_moves_past_attended_events "hs" 10 scheduler stored (λ _, True)
    "u" 0 (from_secs 1000) start (stream "u" [1; 2]) start) as [Hs|(? & ? & ? & c & Hc)].
  - done.
  - lia.
  - reflexivity.
  - repeat constructor; vm_compute; discriminate.
  - by left.
  - right. exists c. split; apply Hc.
Defined.

Lemma budget_spent_run_is_a_turn_witness :
  let '((r, t'), w') := run_internal "hs" 10 [] scheduler (from_secs 480) no_tables start in
  r = Ok BudgetSpent ∧ user_resume_points t' = {["hs" := "b"]}
  ∧ ∃ resolved c, UserResumePoints.turn "hs" resolved c ∅
      = Some (take c (UserResumePoints.order "hs" resolved ∅), user_resume_points t').
Proof.
  assert (fst (fst (run_internal "hs" 10 [] scheduler (from_secs 480) no_tables start))
    = Ok BudgetSpent) as Hr by (vm_compute; reflexivity).
  assert (user_resume_points (snd (fst (run_internal "hs" 10 [] scheduler (from_secs 480)
    no_tables start))) = {["hs" := "b"]}) as Hp by (vm_compute; reflexivity).
  destruct (run_internal "hs" 10 [] scheduler (from_secs 480) no_tables start)
    as [[r t'] w'] eqn:Hrun.
  pose proof (budget_spent_run_is_a_turn "hs" 10 [] scheduler (from_secs 480) no_tables start
    r t' w' Hrun) as Ht.
  simpl in Hr, Hp. split_and!; [done|done|].
  rewrite Hr in Ht. destruct Ht as (resolved & c & _ & _ & Ht). by exists resolved, c.
Defined.
End Witnesses.
