(* ===== verification/Primary.v ===== *)
(** * The primary homeserver's processor

    nexus-watcher/src/service/indexer/homeserver.rs: one run polls a batch of event
    lines closed by a cursor line, checks the cursor before any handler runs, and
    stores it once the whole batch was processed. The processor's per-run cache of
    user mappings is the second half of its world. *)

From S2P Require Import Prelude Errors Events Cursor World RetryStore RetryProcessor Processor.
Local Open Scope Z_scope.

(** ** User mappings *)

Inductive HsMapping :=
  | Unbound
  | Current (stale : bool)
  | Other (hs_id : string).

(** The graph query of a user's [HOSTED_BY] edge: homeserver id and staleness. *)
Class UserHosting (W : Type) := {
  get_user_homeserver : string → prog W (result (option (string * bool)) Graph.GraphError);
}.

(** A processor's world: the outer one and its [hs_mapping_cache]. *)
Abbreviation Cache := (gmap string HsMapping).

#[export] Instance lift_store {W S} `{RetryStore W} : RetryStore (W * S) := {
  put := λ e, lift (put e);
  get := λ k, lift (get k);
  remove := λ k, lift (remove k);
  remove_if := λ k n, lift (remove_if k n);
  put_if := λ e n, lift (put_if e n);
  fetch_ready := λ n l, lift (fetch_ready n l);
}.

(** ** Batches *)

Record EventBatch := {
  event_lines : list string;
  batch_cursor : option string;
}.

Definition split_step (b : EventBatch) (line : string) : EventBatch :=
  match strip_prefix "cursor: " line with
  | Some value => {| event_lines := event_lines b; batch_cursor := Some value |}
  | None => {| event_lines := event_lines b ++ [line]; batch_cursor := batch_cursor b |}
  end.

Definition split (lines : list string) : EventBatch :=
  foldl split_step {| event_lines := []; batch_cursor := None |} lines.

Definition has_events (b : EventBatch) : bool :=
  match event_lines b with [] => false | _ => true end.

(** ** The processor *)

Section HsEventProcessor.
Context {W : Type} {SP : Specs} {CL : Clock W} {SH : Shutdown W} {EH : EventHandler W}
  {UH : UriHash} {RS : RetryStore W} {HC : HomeserverClient W} {HI : Homeserver.HomeserverIndex W}
  {HO : UserHosting W}.
Context (homeserver : Homeserver.Homeserver) (limit : Z) (retry_scheduler : InitialBackoff).
Local Open Scope nexus_scope.

Definition user_hs_mapping (user_id : string) :
    prog (W * Cache) (result HsMapping Graph.GraphError) := λ '(w, cache),
  match cache !! user_id with
  | Some hs_mapping => (Ok hs_mapping, (w, cache))
  | None =>
      let '(row, w) := get_user_homeserver user_id w in
      match row with
      | Err e => (Err e, (w, cache))
      | Ok row =>
          let mapping :=
            match row with
            | None => Unbound
            | Some (hs_id, stale) =>
                if decide (hs_id = Homeserver.id homeserver) then Current stale else Other hs_id
            end in
          (Ok mapping, (w, <[user_id := mapping]> cache))
      end
  end.

Definition should_process_event (event : Event) :
    prog (W * Cache) (result bool Ep.EventProcessorError) :=
  let user_id := uri_user_id (parsed_uri event) in
  let? mapping := emap_err Ep.from_graph (user_hs_mapping user_id) in
  ret match mapping with
      | Unbound | Current false => Ok true
      | Current true => Ok false
      | Other _ => Ok false
      end.

Definition poll_events : prog (W * Cache) (result (list string) Ep.EventProcessorError) :=
  emap_err Ep.from_hs
    (lift (World.poll_events (Homeserver.id homeserver) (Homeserver.cursor homeserver) limit)).

(** [Ok None]: the batch's cursor must not be applied. *)
Definition resolve_batch_cursor (raw_cursor : string) (batch_had_events : bool) :
    prog (W * Cache) (result (option Homeserver.Homeserver) Ep.EventProcessorError) :=
  let* resolved := lift (Homeserver.try_from_cursor (Homeserver.id homeserver) raw_cursor) in
  match resolved with
  | Err (Model.KvOperationFailed (Kv.InvalidInput _)) => ret (Ok None)
  | Err (Model.KvOperationFailed e) => ret (Err (Ep.from_model (Model.KvOperationFailed e)))
  | Err _ => ret (Ok None)
  | Ok next =>
      if batch_had_events && bool_decide (Homeserver.cursor next ≤ Homeserver.cursor homeserver)
      then ret (Ok None)
      else if negb batch_had_events
              && negb (bool_decide (Homeserver.cursor next = Homeserver.cursor homeserver))
      then ret (Ok None)
      else ret (Ok (Some next))
  end.

Definition process_line (line : string) : prog (W * Cache) (result unit Ep.EventProcessorError) :=
  process_event_line (Some retry_scheduler) (Some (Homeserver.id homeserver))
    should_process_event line.

(** [false] when a shutdown cut the batch. *)
Fixpoint process_lines (lines : list string) :
    prog (W * Cache) (result bool Ep.EventProcessorError) :=
  match lines with
  | [] => ret (Ok true)
  | line :: lines =>
      let* stop := lift shutdown_requested in
      if (stop : bool) then ret (Ok false)
      else
        let? _ := process_line line in
        process_lines lines
  end.

Definition process_event_lines (lines : list string) :
    prog (W * Cache) (result unit Ep.EventProcessorError) :=
  let batch := split lines in
  let run_batch next_cursor :=
    let? completed := process_lines (event_lines batch) in
    if (completed : bool) then
      match next_cursor with
      | Some next => emap_err Ep.from_redis (lift (Homeserver.put_to_index next))
      | None => ret (Ok tt)
      end
    else ret (Ok tt) in
  match batch_cursor batch with
  | Some raw_cursor =>
      let? resolved := resolve_batch_cursor raw_cursor (has_events batch) in
      match resolved with
      | Some next => run_batch (Some next)
      | None => ret (Ok tt)
      end
  | None => if has_events batch then ret (Ok tt) else run_batch None
  end.

(** A run starts with an empty cache. *)
Definition run_internal : prog W (result RunOutcome Ep.EventProcessorError) := λ w,
  let '(r, (w, _)) :=
    (let? event_lines := poll_events in
     match event_lines with
     | [] => ret (Ok Completed)
     | _ =>
         let? _ := process_event_lines event_lines in
         ret (Ok Completed)
     end) (w, ∅) in
  (r, w).
End HsEventProcessor.

(** ** Properties *)

(** The specification of [split]: the event lines in order, and the last cursor. *)
Lemma split_spec lines :
  event_lines (split lines) = filter (λ l, strip_prefix "cursor: " l = None) lines
  ∧ batch_cursor (split lines) = last (omap (strip_prefix "cursor: ") lines).
Proof.
  unfold split. induction lines as [|line lines IH] using rev_ind; [done|].
  rewrite foldl_app, filter_app, omap_app. cbn [foldl].
  destruct IH as [IHl IHc]. set (b := foldl _ _ lines) in *.
  unfold split_step. rewrite filter_cons, filter_nil. cbn [omap list_omap].
  case_decide as Hd.
  - rewrite Hd. cbn. by rewrite app_nil_r, IHl, IHc.
  - destruct (strip_prefix "cursor: " line) as [v|]; [|done].
    cbn. by rewrite app_nil_r, last_snoc, IHl.
Qed.

Section Properties.
Context {W : Type} {SP : Specs} {CL : Clock W} {SH : Shutdown W} {EH : EventHandler W}
  {UH : UriHash} {RS : RetryStore W} {HC : HomeserverClient W} {HI : Homeserver.HomeserverIndex W}
  {HO : UserHosting W}.
Context (homeserver : Homeserver.Homeserver) (retry_scheduler : InitialBackoff).
Context (holds : W → Homeserver.Records → Prop).
Context {HS : Homeserver.HomeserverIndexSpec W holds}.

(** A read of the index does not fail as the cursor guard does. *)
Class PlainReadErrors := {
  read_error_plain w i e msg :
    fst (Homeserver.get_from_index i w) = Err e → e ≠ Kv.InvalidInput msg;
}.
Context {RE : PlainReadErrors}.

Local Abbreviation hs_id := (Homeserver.id homeserver).
Local Abbreviation requested := (Homeserver.cursor homeserver).

(** The cursor a batch may be closed with: a number, past the requested position when
    the batch carries events, exactly there when it carries none. *)
Definition closes (b : EventBatch) (c : Z) : Prop :=
  ∃ raw, batch_cursor b = Some raw ∧ parse_u64 raw = Some c
         ∧ if has_events b then requested < c else c = requested.

(** ... and not behind the stored one. *)
Definition applies (m : Homeserver.Records) (b : EventBatch) (c : Z) : Prop :=
  closes b c ∧ ∀ h, m !! hs_id = Some h → Homeserver.cursor h ≤ c.

(** The worlds a check of the cursor can leave: it reads the stored record at most. *)
Definition only_read (w w' : W) : Prop :=
  w' = w ∨ w' = snd (Homeserver.get_from_index hs_id w).

Lemma resolve_batch_cursor_spec raw had_events w cache m :
  holds w m →
  yields (resolve_batch_cursor homeserver raw had_events) (w, cache)
    (λ r s', ∃ w', s' = (w', cache) ∧ only_read w w' ∧ holds w' m ∧
       match r with
       | Some next => ∃ c, next = {| Homeserver.id := hs_id; Homeserver.cursor := c |}
           ∧ parse_u64 raw = Some c ∧ (∀ h, m !! hs_id = Some h → Homeserver.cursor h ≤ c)
           ∧ if had_events then requested < c else c = requested
       | None => ¬ ∃ c, parse_u64 raw = Some c
           ∧ (∀ h, m !! hs_id = Some h → Homeserver.cursor h ≤ c)
           ∧ if had_events then requested < c else c = requested
       end)
    (λ _ s', ∃ w', s' = (w', cache) ∧ only_read w w' ∧ holds w' m).
Proof.
  intros Hw. pose proof (Homeserver.get_from_index_spec w m hs_id Hw) as Hget.
  pose proof (read_error_plain w hs_id) as Hplain.
  unfold resolve_batch_cursor, Homeserver.try_from_cursor, Homeserver.validate_cursor_change.
  unfold yields, lift, bind, ebind, emap_err, map_err, ret in *.
  destruct (parse_u64 raw) as [c|] eqn:Hraw; cycle 1.
  { exists w. split_and!; [done|by left|done|]. by intros (c & ? & _). }
  destruct (Homeserver.get_from_index hs_id w) as [[stored|e] w1] eqn:Hgot; cycle 1.
  { destruct e; try (exists w1; split_and!; [done|right; by rewrite Hgot|done]).
    by edestruct Hplain. }
  destruct Hget as [-> Hw1].
  assert (only_read w w1) as Hread by (right; by rewrite Hgot).
  destruct (match m !! hs_id with
            | Some existing => Kv.ensure_cursor_not_backwards c (Homeserver.cursor existing)
            | None => Ok tt end) as [[]|e] eqn:Hguard.
  - assert (∀ h, m !! hs_id = Some h → Homeserver.cursor h ≤ c) as Hle.
    { intros h Hh. rewrite Hh in Hguard. by apply ensure_cursor_not_backwards_ok. }
    destruct had_events; simpl; repeat case_bool_decide; simpl;
      exists w1; split_and!; try done; try (eexists; split_and!; [done..|lia]);
      intros (c' & [= <-] & _ & ?); lia.
  - assert (∃ msg, e = Kv.InvalidInput msg ∧ ∃ h, m !! hs_id = Some h ∧ c < Homeserver.cursor h)
      as (msg & -> & h & Hh & Hlt).
    { destruct (m !! hs_id) as [h|]; [|done]. unfold Kv.ensure_cursor_not_backwards in Hguard.
      case_decide; [|done]. injection Hguard as <-. eauto. }
    exists w1. split_and!; [done..|]. intros (c' & [= <-] & Hle & _). specialize (Hle h Hh). lia.
Qed.

Lemma split_no_events b : has_events b = false → event_lines b = [].
Proof. unfold has_events. by destruct (event_lines b). Qed.

(** a batch whose closing cursor may not be applied — missing although it carries
    events, unreadable, behind the stored one, not past the requested position
    although it carries events, or past it although it carries none — runs nothing:
    no handler, no mapping lookup and no cursor write, only a read of the stored
    record; the next poll asks again from the same position. *)
Theorem rejected_batch_runs_nothing w cache m lines :
  holds w m → (¬ ∃ c, applies m (split lines) c) →
  ∃ r w', process_event_lines homeserver retry_scheduler lines (w, cache) = (r, (w', cache))
          ∧ only_read w w' ∧ holds w' m.
Proof.
  intros Hw Hno. unfold process_event_lines.
  destruct (batch_cursor (split lines)) as [raw|] eqn:Hraw.
  - pose proof (resolve_batch_cursor_spec raw (has_events (split lines)) w cache m Hw) as Hres.
    unfold yields in Hres. unfold ebind at 1.
    destruct (resolve_batch_cursor _ _ _ _) as [[[next|]|e] s'].
    + destruct Hres as (w' & -> & _ & _ & c & _ & Hc & Hle & Hif).
      exfalso. apply Hno. exists c. split; [|done]. by exists raw.
    + destruct Hres as (w' & -> & ? & ? & _). by exists (Ok tt), w'.
    + destruct Hres as (w' & -> & ? & ?). by exists (Err e), w'.
  - destruct (has_events (split lines)) eqn:He; [exists (Ok tt), w; split_and!; [done|by left|done]|].
    rewrite (split_no_events _ He). exists (Ok tt), w. split_and!; [done|by left|done].
Qed.

(** Lines processed one after the other, each to its end; the shutdown signal is read
    before each. *)
Inductive processed : list string → W * Cache → W * Cache → Prop :=
  | processed_nil s : processed [] s s
  | processed_cons line lines s s0 s1 s2 :
      lift shutdown_requested s = (false, s0) →
      process_line homeserver retry_scheduler line s0 = (Ok tt, s1) →
      processed lines s1 s2 → processed (line :: lines) s s2.

Lemma process_lines_processed lines s s' :
  process_lines homeserver retry_scheduler lines s = (Ok true, s') → processed lines s s'.
Proof.
  revert s. induction lines as [|line lines IH]; intros s; cbn [process_lines].
  { intros [= <-]. constructor. }
  unfold bind, ebind. destruct (lift shutdown_requested s) as [stop s0] eqn:Hstop.
  destruct stop; [done|].
  destruct (process_line _ _ line s0) as [[[]|e] s1] eqn:Hline; [|done].
  intros Hrun%IH. by econstructor.
Qed.

(** Everything the lines run leaves the stored records alone. *)
Definition keeps_records {A} (p : prog W A) : Prop := ∀ w m, holds w m → holds (snd (p w)) m.

Class RecordsFrame := {
  handle_keeps_records event : keeps_records (handle event);
  put_keeps_records e : keeps_records (put e);
  utc_now_keeps_records : keeps_records utc_now;
  shutdown_keeps_records : keeps_records shutdown_requested;
  hosting_keeps_records u : keeps_records (get_user_homeserver u);
  poll_keeps_records i c limit : keeps_records (World.poll_events i c limit);
}.
Context {RF : RecordsFrame}.

Definition keeps_lifted {A} (p : prog (W * Cache) A) : Prop :=
  ∀ w cache m, holds w m → holds (fst (snd (p (w, cache)))) m.

Lemma keeps_lift {A} (p : prog W A) : keeps_records p → keeps_lifted (lift p).
Proof. intros Hp w cache m Hw. unfold lift. specialize (Hp w m Hw). by destruct (p w). Qed.

Lemma keeps_lifted_ret {A} (a : A) : keeps_lifted (ret a).
Proof. by intros w cache m Hw. Qed.

Lemma keeps_lifted_bind {A B} (p : prog (W * Cache) A) (k : A → prog (W * Cache) B) :
  keeps_lifted p → (∀ a, keeps_lifted (k a)) → keeps_lifted (bind p k).
Proof.
  intros Hp Hk w cache m Hw. unfold bind. specialize (Hp w cache m Hw).
  destruct (p (w, cache)) as [a [w1 c1]]. by apply Hk.
Qed.

Lemma keeps_lifted_ebind {A B E} (p : prog (W * Cache) (result A E))
    (k : A → prog (W * Cache) (result B E)) :
  keeps_lifted p → (∀ a, keeps_lifted (k a)) → keeps_lifted (ebind p k).
Proof.
  intros Hp Hk w cache m Hw. unfold ebind. specialize (Hp w cache m Hw).
  destruct (p (w, cache)) as [[a|e] [w1 c1]]; [by apply Hk|done].
Qed.

Lemma keeps_lifted_emap_err {A E F} (f : E → F) (p : prog (W * Cache) (result A E)) :
  keeps_lifted p → keeps_lifted (emap_err f p).
Proof.
  intros Hp w cache m Hw. unfold emap_err. specialize (Hp w cache m Hw).
  by destruct (p (w, cache)) as [[a|e] [w1 c1]].
Qed.

Lemma user_hs_mapping_keeps u : keeps_lifted (user_hs_mapping homeserver u).
Proof.
  intros w cache m Hw. unfold user_hs_mapping. destruct (cache !! u); [done|].
  pose proof (hosting_keeps_records u w m Hw) as Hk.
  destruct (get_user_homeserver u w) as [[row|e] w1]; [|done].
  by destruct row as [[h stale]|].
Qed.

Ltac keeps_step :=
  match goal with
  | |- ∀ _, _ => intros ?
  | |- keeps_lifted (bind _ _) => apply keeps_lifted_bind
  | |- keeps_lifted (ebind _ _) => apply keeps_lifted_ebind
  | |- keeps_lifted (emap_err _ _) => apply keeps_lifted_emap_err
  | |- keeps_lifted (ret _) => apply keeps_lifted_ret
  | |- keeps_lifted (user_hs_mapping _ _) => apply user_hs_mapping_keeps
  | |- keeps_lifted utc_now => apply keeps_lift, utc_now_keeps_records
  | |- keeps_lifted (put _) => apply keeps_lift, put_keeps_records
  | |- keeps_lifted (handle _) => apply keeps_lift, handle_keeps_records
  | |- keeps_lifted (lift shutdown_requested) => apply keeps_lift, shutdown_keeps_records
  | |- keeps_lifted (match ?x with _ => _ end) => destruct x
  end.

Lemma process_line_keeps line : keeps_lifted (process_line homeserver retry_scheduler line).
Proof.
  unfold process_line, process_event_line, handle_event, handle_error, should_process_event,
    queue_missing_dep, queue_transient, enqueue, RetryEvent_new, fresh_nonce.
  by repeat keeps_step.
Qed.

Lemma process_lines_keeps lines : keeps_lifted (process_lines homeserver retry_scheduler lines).
Proof.
  induction lines as [|line lines IH]; cbn [process_lines]; [by keeps_step|].
  repeat first [keeps_step | apply process_line_keeps | apply IH].
Qed.

Lemma process_event_lines_cursor w cache m lines :
  holds w m →
  let '(r, (w', cache')) := process_event_lines homeserver retry_scheduler lines (w, cache) in
  holds w' m ∨
  ∃ c w1 s2, applies m (split lines) c
    ∧ holds w1 m ∧ processed (event_lines (split lines)) (w1, cache) s2
    ∧ holds w' (<[hs_id := {| Homeserver.id := hs_id; Homeserver.cursor := c |}]> m).
Proof.
  intros Hw. unfold process_event_lines.
  destruct (batch_cursor (split lines)) as [raw|] eqn:Hraw; cycle 1.
  { destruct (has_events (split lines)) eqn:He; [by left|].
    rewrite (split_no_events _ He). cbn. by left. }
  pose proof (resolve_batch_cursor_spec raw (has_events (split lines)) w cache m Hw) as Hres.
  unfold yields in Hres. unfold ebind at 1.
  destruct (resolve_batch_cursor _ _ _ _) as [[[next|]|e] s'];
    [|destruct Hres as (w' & -> & _ & ? & _); by left|destruct Hres as (w' & -> & _ & ?); by left].
  destruct Hres as (w1 & -> & _ & Hw1 & c & -> & Hc & Hle & Hif).
  unfold ebind. pose proof (process_lines_keeps (event_lines (split lines)) w1 cache m Hw1) as Hk.
  destruct (process_lines _ _ _ _) as [[completed|e] [w2 cache2]] eqn:Hrun; [|by left].
  destruct completed; [|by left]. simpl in Hk.
  apply process_lines_processed in Hrun.
  set (next := {| Homeserver.id := hs_id; Homeserver.cursor := c |}).
  pose proof (Homeserver.put_to_index_yields holds w2 m next Hk (parse_u64_bounds _ _ Hc)) as Hput.
  unfold yields in Hput. unfold emap_err, lift.
  destruct (Homeserver.put_to_index next w2) as [[[]|e] w3]; simpl.
  - right. exists c, w1, (w2, cache2). split_and!; [|done|done|apply Hput].
    split; [|done]. by exists raw.
  - destruct Hput as (m' & Hw3 & [->| ->] & _); [by left|].
    right. exists c, w1, (w2, cache2). split_and!; [|done|done|done].
    split; [|done]. by exists raw.
Qed.

(** the primary homeserver's stored cursor moves only when a whole batch was
    processed. Whatever a batch's processing ends with, either the stored records are
    as before, or every event line of the batch was processed to its end, in order,
    and the record holds the batch's own closing cursor, which lies past the position
    the batch was asked from if it carried events and is never behind the stored one.
    A batch cut by a shutdown or an error stores nothing. *)
Theorem primary_cursor_moves_past_whole_batches w cache m lines :
  holds w m →
  let '(r, (w', cache')) := process_event_lines homeserver retry_scheduler lines (w, cache) in
  holds w' m ∨
  ∃ c w1 s2, applies m (split lines) c
    ∧ holds w1 m ∧ processed (event_lines (split lines)) (w1, cache) s2
    ∧ holds w' (<[hs_id := {| Homeserver.id := hs_id; Homeserver.cursor := c |}]> m).
Proof. apply process_event_lines_cursor. Qed.

(** A whole run, from the poll on, and the records before and after it. *)
Lemma run_internal_no_rewind limit w m :
  holds w m →
  let '(r, w') := run_internal homeserver limit retry_scheduler w in
  ∃ m', holds w' m' ∧ Homeserver.no_rewind m m'.
Proof.
  intros Hw. unfold run_internal, poll_events, ebind, emap_err, lift.
  pose proof (poll_keeps_records hs_id requested limit w m Hw) as Hpoll.
  destruct (World.poll_events _ _ _ w) as [[lines|e] w1]; cbn [map_err snd] in *;
    [|eauto using Homeserver.no_rewind_refl].
  destruct lines as [|line lines]; [unfold ret; eauto using Homeserver.no_rewind_refl|].
  pose proof (process_event_lines_cursor w1 ∅ m (line :: lines) Hpoll) as Hrun.
  destruct (process_event_lines _ _ _ _) as [[[]|e] [w2 cache]]; unfold ret;
    (destruct Hrun as [?|(c & ? & ? & [_ Hle] & _ & _ & ?)];
     [eauto using Homeserver.no_rewind_refl|eexists; split; [done|]]);
    by apply (Homeserver.no_rewind_insert m {| Homeserver.id := hs_id; Homeserver.cursor := c |}).
Qed.

(** an event of a user bound to another homeserver, or to this one by a mapping gone
    stale, reaches no handler and queues nothing; once looked up, the user's mapping
    decides all its events of the run without asking the graph again. *)
Theorem foreign_or_stale_user_is_skipped w cache line event h stale :
  parse_event line = Ok (Parsed event) →
  let u := uri_user_id (parsed_uri event) in
  cache !! u = None → fst (get_user_homeserver u w) = Ok (Some (h, stale)) →
  h ≠ hs_id ∨ stale = true →
  ∃ mapping, let s := (snd (get_user_homeserver u w), <[u := mapping]> cache) in
    process_line homeserver retry_scheduler line (w, cache) = (Ok tt, s)
    ∧ ∀ line' event' w' cache', parse_event line' = Ok (Parsed event') →
        uri_user_id (parsed_uri event') = u → cache' !! u = Some mapping →
        process_line homeserver retry_scheduler line' (w', cache') = (Ok tt, (w', cache')).
Proof.
  intros Hline u Hnone Hrow Hout.
  exists (if decide (h = hs_id) then Current stale else Other h). split.
  - unfold process_line, process_event_line. rewrite Hline.
    unfold handle_event, should_process_event, user_hs_mapping, emap_err, ebind, bind, ret.
    fold u. rewrite Hnone. destruct (get_user_homeserver u w) as [row w1].
    simpl in Hrow. subst. case_decide as Hh; simpl; [|done].
    destruct Hout as [?| ->]; [done|done].
  - intros line' event' w' cache' Hline' Hu Hc. unfold process_line, process_event_line.
    rewrite Hline'. unfold handle_event, should_process_event, user_hs_mapping, emap_err,
      ebind, bind, ret. rewrite Hu, Hc. case_decide as Hh; simpl; [|done].
    destruct Hout as [?| ->]; [done|done].
Qed.
End Properties.

(** ** A concrete world, for the witnesses

    The records and the queue are maps; user "b" is bound to another homeserver. *)

Module MemPrimary.

Record t := { queue : Queue; records : Homeserver.Records }.

#[export] Instance specs : Specs := toy_specs.
#[export] Instance uri_hash : UriHash := {| hash_str_hex := id |}.

#[export] Instance clock : Clock t := {
  DateTime := Z;
  utc_now := ret 5000;
  timestamp_millis := id;
  timestamp_nanos_opt := Some;
  instant_now := ret 0;
}.

#[export] Instance shutdown : Shutdown t := {| shutdown_requested := ret false |}.
#[export] Instance handler : EventHandler t := {| World.handle := λ _, ret (Ok tt) |}.

#[export] Instance store : RetryStore t := {
  put := λ e w, (Ok tt, {| queue := <[for_uri (event_uri e) := e]> (queue w);
                           records := records w |});
  get := λ k w, (Ok (queue w !! k), w);
  remove := λ _, ret (Ok tt);
  remove_if := λ _ _, ret (Ok false);
  put_if := λ _ _, ret (Ok false);
  fetch_ready := λ _ _, ret (Ok []);
}.

#[export] Instance client : HomeserverClient t := {
  poll_events := λ _ _ _, ret (Ok ["PUT a"; "cursor: 9"]);
  user_events := λ _ _ _ _, ret (Ok []);
}.

#[export] Instance index : Homeserver.HomeserverIndex t := {
  Homeserver.get_from_index := λ i w, (Ok (records w !! i), w);
  Homeserver.put_index_json := λ h w,
    (Ok tt, {| queue := queue w; records := <[Homeserver.id h := h]> (records w) |});
}.

#[export] Instance hosting : UserHosting t := {
  get_user_homeserver := λ u, ret (Ok (if decide (u = "b") then Some ("other", false) else None));
}.

Definition holds (w : t) (m : Homeserver.Records) : Prop := records w = m.

#[export] Instance index_spec : Homeserver.HomeserverIndexSpec t holds.
Proof. split; [by intros ??? <-|by intros ??? <-]. Qed.

#[export] Instance read_errors : PlainReadErrors (W := t).
Proof. split. by intros. Qed.

#[export] Instance records_frame : RecordsFrame holds.
Proof. split; unfold keeps_records; by intros. Qed.

Definition home : Homeserver.Homeserver := {| Homeserver.id := "hs"; Homeserver.cursor := 5 |}.
Definition start : t := {| queue := ∅; records := {["hs" := home]} |}.
Definition scheduler : InitialBackoff := {| missing_dep_ms := 60000; transient_ms := 10000 |}.

End MemPrimary.

Section Witnesses.
Import MemPrimary.

Lemma rejected_batch_runs_nothing_witness :
  ∃ r w', process_event_lines home scheduler ["PUT a"; "cursor: 5"] (start, ∅) = (r, (w', ∅))
    ∧ only_read home start w' ∧ holds w' {["hs" := home]}.
Proof.
  apply (rejected_batch_runs_nothing home scheduler holds); [reflexivity|].
  intros (c & (raw & Hraw & Hc & Hlt) & _). injection Hraw as <-.
  vm_compute in Hc. injection Hc as <-. vm_compute in Hlt. discriminate.
Defined.

Definition moved : Homeserver.Homeserver := {| Homeserver.id := "hs"; Homeserver.cursor := 9 |}.

Lemma primary_cursor_moves_past_whole_batches_witness :
  let '(_, (w', _)) := process_event_lines home scheduler ["PUT a"; "cursor: 9"] (start, ∅) in
  holds w' {["hs" := moved]}
  ∧ ∃ c w1 s2, applies home {["hs" := home]} (split ["PUT a"; "cursor: 9"]) c
      ∧ processed home scheduler ["PUT a"] (w1, ∅) s2
      ∧ holds w' {["hs" := {| Homeserver.id := "hs"; Homeserver.cursor := c |}]}.
Proof.
  pose proof (primary_cursor_moves_past_whole_batches home scheduler holds start ∅
    {["hs" := home]} ["PUT a"; "cursor: 9"] eq_refl) as H.
  assert (records (fst (snd (process_event_lines home scheduler ["PUT a"; "cursor: 9"]
    (start, ∅)))) = {["hs" := moved]}) as Hw by (vm_compute; reflexivity).
  destruct (process_event_lines _ _ _ _) as [r [w' cache']]. simpl in Hw.
  split; [exact Hw|]. destruct H as [H|(c & w1 & s2 & Ha & _ & Hp & Hset)].
  - unfold holds in H. rewrite Hw in H. discriminate.
  - exists c, w1, s2. split; [exact Ha|]. split; [exact Hp|exact Hset].
Defined.

Lemma foreign_or_stale_user_is_skipped_witness :
  ∃ mapping, process_line home scheduler "PUT b" (start, ∅)
    = (Ok tt, (start, {["b" := mapping]})).
Proof.
  destruct (foreign_or_stale_user_is_skipped home scheduler start ∅ "PUT b"
    {| uri := "b"; event_type := Put; parsed_uri := ("b" : @ExtendedParsedUri specs); event_line := "PUT b" |}
    "other" false) as (mapping & Hrun & _); [reflexivity|reflexivity|reflexivity| |].
  - left. discriminate.
  - exists mapping. exact Hrun.
Defined.
End Witnesses.
