(* ===== verification/Runner.v ===== *)
(** * Runners: which homeservers a tick processes

    nexus-watcher/src/service/runner/mod.rs (the trait [TEventProcessorRunner] and its
    [run]), runner/homeserver.rs (the primary homeserver's runner),
    runner/key_based.rs (the external homeservers' runner) and service/stats.rs.
    Logs and metrics are left out. *)

From S2P Require Import Prelude Errors Events Backoff ResumePoints Cursor.
From S2P Require Import World RetryStore RetryProcessor Processor KeyBased Primary.
Local Open Scope Z_scope.

(** ** Run statistics *)

Module ProcessorRunStatus.
Inductive t := FailedToBuild | Ok | Error | Panic | BudgetSpent | Skipped.

#[global] Instance t_eq_dec : EqDecision t.
Proof. solve_decision. Defined.
End ProcessorRunStatus.

Abbreviation Status := ProcessorRunStatus.t.

Record ProcessorRunStats := {
  hs_id : string;
  duration : Z;
  status : Status;
}.

(** [RunAllProcessorsStats] *)
Abbreviation RunAllProcessorsStats := (list ProcessorRunStats).

Definition add_run_result (stats : RunAllProcessorsStats) (hs_id : string) (duration : Z)
    (status : Status) : RunAllProcessorsStats :=
  stats ++ [{| hs_id := hs_id; duration := duration; status := status |}].

Definition count (st : Status) (stats : RunAllProcessorsStats) : nat :=
  length (filter (λ ps, status ps = st) stats).
Definition count_ok := count ProcessorRunStatus.Ok.
Definition count_error := count ProcessorRunStatus.Error.
Definition count_panic := count ProcessorRunStatus.Panic.
Definition count_budget_spent := count ProcessorRunStatus.BudgetSpent.
Definition count_failed_to_build := count ProcessorRunStatus.FailedToBuild.
Definition count_skipped := count ProcessorRunStatus.Skipped.

(** The external loop's gauge: the homeservers a run selected. *)
Definition indexed (stats : RunAllProcessorsStats) : nat := length stats - count_skipped stats.

Definition status_from_run_result (result : result unit RunError) : Status :=
  match result with
  | Ok _ => ProcessorRunStatus.Ok
  | Err (Internal _) => ProcessorRunStatus.Error
  | Err Panicked => ProcessorRunStatus.Panic
  | Err RunBudgetSpent => ProcessorRunStatus.BudgetSpent
  end.

(** ** The trait *)

Inductive DynError :=
  | DynPubkyId (id : string)
  | DynModel (e : Model.ModelError)
  | DynGraph (e : Graph.GraphError)
  | DynMessage (message : string).

(** A built processor is its run: the result of its task, [None] when it panicked. *)
Abbreviation Processor W := (prog W (option (result RunOutcome Ep.EventProcessorError))).

Record TEventProcessorRunner (W : Type) := {
  build : string → prog W (result (Processor W) DynError);
  pre_run : prog W (result (list string) DynError);
  poll_limit : Z;
  backoff_hs_should_skip : string → prog W bool;
  backoff_hs_record_result : string → Status → prog W unit;
  post_run : RunAllProcessorsStats → prog W RunAllProcessorsStats;
}.
Arguments build {W} _ _.
Arguments pre_run {W} _.
Arguments poll_limit {W} _.
Arguments backoff_hs_should_skip {W} _ _.
Arguments backoff_hs_record_result {W} _ _ _.
Arguments post_run {W} _ _.

(** The trait's defaults. *)
Definition default_poll_limit : Z := u64_max.
Definition default_should_skip {W} (_ : string) : prog W bool := ret false.
Definition default_record_result {W} (_ : string) (_ : Status) : prog W unit := ret tt.

Section Run.
Context {W : Type} {CL : Clock W} {SH : Shutdown W} (runner : TEventProcessorRunner W).
Local Open Scope nexus_scope.

Definition run_one (hs_id : string) : prog W Status :=
  let* built := build runner hs_id in
  match built with
  | Ok event_processor =>
      let* join_result := event_processor in
      ret (status_from_run_result (run_result join_result))
  | Err _ => ret ProcessorRunStatus.FailedToBuild
  end.

Fixpoint run_targets (hs_ids : list string) (polled : Z) (run_stats : RunAllProcessorsStats) :
    prog W RunAllProcessorsStats :=
  match hs_ids with
  | [] => ret run_stats
  | hs_id :: hs_ids =>
      if decide (poll_limit runner ≤ polled) then ret run_stats
      else
        let* stop := shutdown_requested in
        if (stop : bool) then ret run_stats
        else
          let* skip := backoff_hs_should_skip runner hs_id in
          if (skip : bool) then
            run_targets hs_ids polled
              (add_run_result run_stats hs_id 0 ProcessorRunStatus.Skipped)
          else
            let polled := wrap_u64 (polled + 1) in
            let* t0 := instant_now in
            let* status := run_one hs_id in
            let* t1 := instant_now in
            let* _ := backoff_hs_record_result runner hs_id status in
            run_targets hs_ids polled (add_run_result run_stats hs_id (Z.max 0 (t1 - t0)) status)
  end.

Definition run : prog W (result RunAllProcessorsStats DynError) :=
  let? hs_ids := pre_run runner in
  let* run_stats := run_targets hs_ids 0 [] in
  let* processed_stats := post_run runner run_stats in
  ret (Ok processed_stats).
End Run.

(** [PubkyId::try_from] of the specs crate. *)
Class PubkyIds := { pubky_id_try_from : string → option string }.

(** ** The primary homeserver's runner *)

Section HsEventProcessorRunner.
Context {W : Type} {SP : Specs} {CL : Clock W} {SH : Shutdown W} {EH : EventHandler W}
  {UH : UriHash} {RS : RetryStore W} {HC : HomeserverClient W} {HI : Homeserver.HomeserverIndex W}
  {HO : UserHosting W} {PI : PubkyIds}.
Context (limit : Z) (primary_homeserver : string) (retry_scheduler : InitialBackoff).
Local Open Scope nexus_scope.

Definition primary_build (homeserver_id : string) : prog W (result (Processor W) DynError) :=
  match pubky_id_try_from homeserver_id with
  | None => ret (Err (DynPubkyId homeserver_id))
  | Some homeserver_id =>
      let? homeserver := emap_err DynModel (Homeserver.get_by_id homeserver_id) in
      ret match homeserver with
          | None => Err (DynMessage "Homeserver not found")
          | Some homeserver =>
              Ok (let* r := Primary.run_internal homeserver limit retry_scheduler in ret (Some r))
          end
  end.

Definition HsEventProcessorRunner : TEventProcessorRunner W := {|
  build := primary_build;
  pre_run := ret (Ok [primary_homeserver]);
  poll_limit := default_poll_limit;
  backoff_hs_should_skip := default_should_skip;
  backoff_hs_record_result := default_record_result;
  post_run := ret;
|}.
End HsEventProcessorRunner.

(** ** The external homeservers' runner

    Its world holds, besides the outer one, the tables its runs share in memory. *)

Record Memory := {
  backoff : HomeserverBackoff.HomeserverBackoff;
  tables : Tables;
}.

(** The graph's homeservers with active users, by priority. *)
Class ActiveHomeservers (W : Type) := {
  fetch_homeservers_list : prog W (result (option (list string)) Graph.GraphError);
}.

Section KeyBasedEventProcessorRunner.
Context {W : Type} {SP : Specs} {CL : Clock W} {SH : Shutdown W} {EH : EventHandler W}
  {UH : UriHash} {RS : RetryStore W} {HC : HomeserverClient W} {UC : UserCursors W}
  {HU : HostedUsers W} {AH : ActiveHomeservers W} {PI : PubkyIds}.
Context (limit monitored_hs_limit : Z) (primary_homeserver : string)
  (hs_blacklist : Homeserver.HsBlacklist) (budget : Z) (retry_scheduler : InitialBackoff).
Local Open Scope nexus_scope.

Abbreviation External := (W * Memory)%type.

#[local] Instance external_shutdown : Shutdown External :=
  {| shutdown_requested := lift shutdown_requested |}.

Definition get_all_active_from_graph : prog W (result (list string) Graph.GraphError) :=
  let? maybe_hs_ids := fetch_homeservers_list in
  ret (Ok (default [] maybe_hs_ids)).

Definition hs_by_priority : prog W (result (list string) DynError) :=
  let? active_hs_ids := emap_err DynGraph get_all_active_from_graph in
  ret (Ok (filter (λ hs_id, Homeserver.is_blacklisted hs_blacklist hs_id = false)
             (filter (λ hs_id, hs_id ≠ primary_homeserver) active_hs_ids))).

Definition external_build (hs_id : string) : prog External (result (Processor External) DynError) :=
  match pubky_id_try_from hs_id with
  | None => ret (Err (DynPubkyId hs_id))
  | Some homeserver_id =>
      ret (Ok (λ '(w, mem),
        let '((r, t), w) :=
          KeyBased.run_internal homeserver_id limit hs_blacklist retry_scheduler budget
            (tables mem) w in
        (Some r, (w, {| backoff := backoff mem; tables := t |}))))
  end.

(** The clock is read only for a homeserver with a backoff entry. *)
Definition external_should_skip (hs_id : string) : prog External bool := λ '(w, mem),
  match HomeserverBackoff.state (backoff mem) !! hs_id with
  | None => (false, (w, mem))
  | Some _ =>
      let '(now, w) := instant_now w in
      (HomeserverBackoff.should_skip (backoff mem) hs_id now, (w, mem))
  end.

Definition record_run_status (hs_id : string) (status : Status) : prog External unit := λ '(w, mem),
  if decide (status = ProcessorRunStatus.Ok) then
    (tt, (w, {| backoff := HomeserverBackoff.record_success (backoff mem) hs_id;
                tables := tables mem |}))
  else
    let '(t0, w) := instant_now w in
    let '(now, w) := instant_now w in
    (tt, (w, {| backoff := HomeserverBackoff.record_failure (backoff mem) hs_id t0 now;
                tables := tables mem |})).

Definition KeyBasedEventProcessorRunner : TEventProcessorRunner External := {|
  build := external_build;
  pre_run := lift hs_by_priority;
  poll_limit := monitored_hs_limit;
  backoff_hs_should_skip := external_should_skip;
  backoff_hs_record_result := record_run_status;
  post_run := ret;
|}.

Definition external_run : prog External (result RunAllProcessorsStats DynError) :=
  run KeyBasedEventProcessorRunner.
End KeyBasedEventProcessorRunner.

(** ** Properties *)

(** The homeservers of a run that were not skipped. *)
Definition polled_stats (stats : RunAllProcessorsStats) : RunAllProcessorsStats :=
  filter (λ ps, status ps ≠ ProcessorRunStatus.Skipped) stats.

Lemma indexed_polled stats : indexed stats = length (polled_stats stats).
Proof.
  unfold indexed, count_skipped, count, polled_stats.
  induction stats as [|ps stats IH]; [done|]. rewrite !filter_cons.
  pose proof (length_filter (λ ps, status ps = ProcessorRunStatus.Skipped) stats).
  destruct (decide (status ps = ProcessorRunStatus.Skipped)) as [Hd|Hd].
  - rewrite decide_False by auto. simpl. exact IH.
  - rewrite decide_True by done. cbn [length]. lia.
Qed.

Lemma count_cons st ps stats :
  count st (ps :: stats) = ((if decide (status ps = st) then 1 else 0) + count st stats)%nat.
Proof. unfold count. rewrite filter_cons. by case_decide. Qed.

(** Every homeserver of a run has exactly one status: the counts add up. *)
Lemma counts_partition stats :
  length stats = (count_ok stats + count_error stats + count_panic stats
    + count_budget_spent stats + count_failed_to_build stats + count_skipped stats)%nat.
Proof.
  unfold count_ok, count_error, count_panic, count_budget_spent, count_failed_to_build,
    count_skipped.
  induction stats as [|ps stats IH]; [done|]. rewrite !count_cons. cbn [length].
  destruct (status ps); simpl; lia.
Qed.

Section Run_properties.
Context {W : Type} {CL : Clock W} {SH : Shutdown W} (runner : TEventProcessorRunner W).

Lemma run_one_not_skipped hs w : fst (run_one runner hs w) ≠ ProcessorRunStatus.Skipped.
Proof.
  unfold run_one, bind, ret. destruct (build runner hs w) as [[p|e] w1]; [|done].
  destruct (p w1) as [[[[]|]|] w2]; done.
Qed.

(** A run goes down the list in order, each homeserver once, until the list, the poll
    limit or a shutdown ends it. *)
Lemma run_targets_spec hs_ids polled acc w stats w' :
  poll_limit runner ≤ u64_max → 0 ≤ polled →
  run_targets runner hs_ids polled acc w = (stats, w') →
  ∃ new rest, stats = acc ++ new ∧ hs_ids = (hs_id <$> new) ++ rest
    ∧ polled + Z.of_nat (length (polled_stats new)) ≤ polled `max` poll_limit runner
    ∧ (rest = [] ∨ poll_limit runner ≤ polled + Z.of_nat (length (polled_stats new))
       ∨ ∃ w1, shutdown_requested w1 = (true, w')).
Proof.
  intros Hlim. revert polled acc w.
  induction hs_ids as [|hs hs_ids IH]; intros polled acc w Hp; cbn [run_targets].
  { intros [= <- <-]. exists [], []. rewrite app_nil_r. cbn. split_and!; [done..|lia|by left]. }
  case_decide as Hfull.
  { intros [= <- <-]. exists [], (hs :: hs_ids). rewrite app_nil_r. cbn.
    split_and!; [done..|lia|right; left; lia]. }
  unfold bind. destruct (shutdown_requested w) as [stop w1] eqn:Hstop.
  destruct stop.
  { intros [= <- <-]. exists [], (hs :: hs_ids). rewrite app_nil_r. cbn.
    split_and!; [done..|lia|right; right; by exists w]. }
  destruct (backoff_hs_should_skip runner hs w1) as [skip w2]. destruct skip.
  - intros (new & rest & -> & -> & Hle & Hend)%IH; [|done].
    exists ({| hs_id := hs; duration := 0; status := ProcessorRunStatus.Skipped |} :: new), rest.
    unfold add_run_result, polled_stats in *. rewrite filter_cons, decide_False by auto.
    rewrite <- app_assoc. by split_and!.
  - destruct (instant_now w2) as [t0 w3].
    pose proof (run_one_not_skipped hs w3) as Hns.
    destruct (run_one runner hs w3) as [st w4]. simpl in Hns.
    destruct (instant_now w4) as [t1 w5].
    destruct (backoff_hs_record_result runner hs st w5) as [[] w6].
    rewrite wrap_u64_id by lia.
    intros (new & rest & -> & -> & Hle & Hend)%IH; [|lia].
    eexists (_ :: new), rest. unfold add_run_result. rewrite <- app_assoc. split; [done|].
    unfold polled_stats in *. rewrite filter_cons, decide_True by done. rewrite fmap_cons, length_cons.
    split_and!; [done|lia|]. destruct Hend as [?|[?|?]]; [by left|right; left; lia|by right; right].
Qed.
End Run_properties.

Section External_properties.
Context {W : Type} {SP : Specs} {CL : Clock W} {SH : Shutdown W} {EH : EventHandler W}
  {UH : UriHash} {RS : RetryStore W} {HC : HomeserverClient W} {UC : UserCursors W}
  {HU : HostedUsers W} {AH : ActiveHomeservers W} {PI : PubkyIds}.
Context (limit monitored_hs_limit : Z) (primary_homeserver : string)
  (hs_blacklist : Homeserver.HsBlacklist) (budget : Z) (retry_scheduler : InitialBackoff).

Local Abbreviation tick := (external_run limit monitored_hs_limit primary_homeserver
  hs_blacklist budget retry_scheduler).
Local Abbreviation the_runner := (KeyBasedEventProcessorRunner limit monitored_hs_limit
  primary_homeserver hs_blacklist budget retry_scheduler).
Local Existing Instance external_shutdown.

(** A homeserver the external loop may process. *)
Definition eligible (h : string) : Prop :=
  h ≠ primary_homeserver ∧ Homeserver.is_blacklisted hs_blacklist h = false.

Lemma hs_by_priority_spec w :
  match fst (fetch_homeservers_list w) with
  | Ok ids => hs_by_priority primary_homeserver hs_blacklist w
              = (Ok (filter eligible (default [] ids)), snd (fetch_homeservers_list w))
  | Err e => hs_by_priority primary_homeserver hs_blacklist w
              = (Err (DynGraph e), snd (fetch_homeservers_list w))
  end.
Proof.
  unfold hs_by_priority, get_all_active_from_graph, ebind, emap_err, ret.
  destruct (fetch_homeservers_list w) as [[ids|e] w']; cbn; [|done].
  rewrite list_filter_filter. do 2 f_equal. apply filter_ext_in. intros h _. unfold eligible. tauto.
Qed.

Lemma external_run_spec w mem stats s' :
  tick (w, mem) = (Ok stats, s') →
  ∃ ids, fst (fetch_homeservers_list w) = Ok ids
    ∧ run_targets the_runner (filter eligible (default [] ids)) 0 []
        (snd (fetch_homeservers_list w), mem) = (stats, s').
Proof.
  unfold external_run, run, ebind, bind, ret. simpl. unfold lift.
  pose proof (hs_by_priority_spec w) as Hp. destruct (fetch_homeservers_list w) as [[ids|e] w1];
    simpl in *; rewrite Hp; [|done].
  destruct (run_targets _ _ _ _ _) as [st s2] eqn:Hrun. intros [= <- <-]. by exists ids.
Qed.

(** a tick of the external loop visits the active homeservers in their order of
    priority, each once; the primary and every blacklisted homeserver are left out,
    even when the graph lists them; no more than [monitored_homeservers_limit] are
    polled, those in backoff not counted; and it stops early only once the limit is
    reached or on shutdown. The gauge it exports is the number polled. *)
Theorem external_run_polls_eligible w mem stats s' :
  monitored_hs_limit ≤ u64_max → 0 ≤ monitored_hs_limit →
  tick (w, mem) = (Ok stats, s') →
  ∃ ids rest, fst (fetch_homeservers_list w) = Ok ids
    ∧ filter eligible (default [] ids) = (hs_id <$> stats) ++ rest
    ∧ Z.of_nat (indexed stats) ≤ monitored_hs_limit
    ∧ (rest = [] ∨ Z.of_nat (indexed stats) = monitored_hs_limit
       ∨ ∃ w1 w2, shutdown_requested w1 = (true, w2) ∧ fst s' = w2).
Proof.
  intros Hlim Hpos (ids & Hids & Hrun)%external_run_spec.
  apply run_targets_spec in Hrun as (new & rest & -> & Heq & Hle & Hend); [|done..].
  exists ids, rest. rewrite indexed_polled. cbn [app] in *. simpl in Hle, Hend. split_and!; [done..|lia|].
  destruct Hend as [?|[?|([w1 mem1] & Hstop)]]; [by left|right; left; lia|]. right; right.
  unfold external_shutdown, lift in Hstop. simpl in Hstop.
  destruct (shutdown_requested w1) as [b w2] eqn:Hs. simplify_eq. by exists w1, w2.
Qed.

(** What one polled homeserver adds to the backoff table. *)
Definition backoff_event (hs : string) (st : Status) (t0 now : Z) : HomeserverBackoff.event :=
  if decide (st = ProcessorRunStatus.Ok) then HomeserverBackoff.Succeeded hs
  else HomeserverBackoff.Failed hs t0 now.

(** The statistics of a run, in order, next to the backoff table as it goes. *)
Inductive followed : HomeserverBackoff.HomeserverBackoff → RunAllProcessorsStats →
    HomeserverBackoff.HomeserverBackoff → Prop :=
  | followed_nil b : followed b [] b
  | followed_skipped b hs now stats b' :
      HomeserverBackoff.should_skip b hs now = true → followed b stats b' →
      followed b ({| hs_id := hs; duration := 0; status := ProcessorRunStatus.Skipped |} :: stats) b'
  | followed_polled b hs now d st t0 t1 stats b' :
      HomeserverBackoff.should_skip b hs now = false → st ≠ ProcessorRunStatus.Skipped →
      followed (HomeserverBackoff.record b (backoff_event hs st t0 t1)) stats b' →
      followed b ({| hs_id := hs; duration := d; status := st |} :: stats) b'.

Lemma external_should_skip_spec hs s :
  backoff (snd (snd (external_should_skip hs s))) = backoff (snd s)
  ∧ ∃ now, fst (external_should_skip hs s) = HomeserverBackoff.should_skip (backoff (snd s)) hs now.
Proof.
  destruct s as [w mem]. unfold external_should_skip.
  destruct (HomeserverBackoff.state (backoff mem) !! hs) eqn:Hb.
  - destruct (instant_now w) as [now w1]. split; [done|]. by exists now.
  - split; [done|]. exists 0. cbn. unfold HomeserverBackoff.should_skip. by rewrite Hb.
Qed.

Lemma record_run_status_spec hs st s :
  ∃ t0 now, backoff (snd (snd (record_run_status hs st s)))
    = HomeserverBackoff.record (backoff (snd s)) (backoff_event hs st t0 now).
Proof.
  destruct s as [w mem]. unfold record_run_status, backoff_event. case_decide; [by exists 0, 0|].
  destruct (instant_now w) as [t0 w1], (instant_now w1) as [t1 w2]. by exists t0, t1.
Qed.

(** A run leaves the backoff table to the loop around it. *)
Lemma external_run_one_frame hs s : backoff (snd (snd (run_one the_runner hs s))) = backoff (snd s).
Proof.
  destruct s as [w mem]. unfold run_one, bind, ret. simpl. unfold external_build.
  destruct (pubky_id_try_from hs); [|done]. cbn.
  by destruct (KeyBased.run_internal _ _ _ _ _ _ _) as [[r t] w1].
Qed.

Lemma run_targets_followed hs_ids polled acc s stats s' :
  run_targets the_runner hs_ids polled acc s = (stats, s') →
  ∃ new, stats = acc ++ new ∧ followed (backoff (snd s)) new (backoff (snd s')).
Proof.
  revert polled acc s. induction hs_ids as [|hs hs_ids IH]; intros polled acc [w mem];
    cbn [run_targets].
  { intros [= <- <-]. exists []. rewrite app_nil_r. split; [done|constructor]. }
  case_decide. { intros [= <- <-]. exists []. rewrite app_nil_r. split; [done|constructor]. }
  unfold bind. simpl. unfold lift. destruct (shutdown_requested w) as [[] w1].
  { intros [= <- <-]. exists []. rewrite app_nil_r. split; [done|constructor]. }
  pose proof (external_should_skip_spec hs (w1, mem)) as [Hb (now & Hskip)].
  destruct (external_should_skip hs (w1, mem)) as [skip [w2 mem2]]. simpl in Hb, Hskip.
  symmetry in Hskip. destruct skip.
  - intros (new & -> & Hnew)%IH. eexists (_ :: new). unfold add_run_result.
    rewrite <- app_assoc. split; [done|]. simpl in Hnew. rewrite Hb in Hnew.
    by eapply followed_skipped.
  - destruct (instant_now w2) as [t0 w3].
    pose proof (run_one_not_skipped the_runner hs (w3, mem2)) as Hns.
    pose proof (external_run_one_frame hs (w3, mem2)) as Hb4.
    destruct (run_one the_runner hs (w3, mem2)) as [st [w4 mem4]]. simpl in Hns, Hb4.
    destruct (instant_now w4) as [t1 w5].
    destruct (record_run_status_spec hs st (w5, mem4)) as (r0 & r1 & Hb6).
    destruct (record_run_status hs st (w5, mem4)) as [[] [w6 mem6]]. simpl in Hb6.
    intros (new & -> & Hnew)%IH. eexists (_ :: new). unfold add_run_result.
    rewrite <- app_assoc. split; [done|]. simpl in Hnew. rewrite Hb6, Hb4, Hb in Hnew.
    by eapply followed_polled.
Qed.

(** the external loop's backoff follows its runs: a homeserver is skipped exactly
    when its window is open, a skipped one keeps its window, and of those polled only
    an [Ok] run clears the backoff; an error, a panic, a failed build and a spent
    budget each extend it, as one more failure in a row. *)
Theorem external_run_backs_off w mem stats s' :
  tick (w, mem) = (Ok stats, s') → followed (backoff mem) stats (backoff (snd s')).
Proof.
  intros (ids & _ & Hrun)%external_run_spec.
  by apply run_targets_followed in Hrun as (new & -> & Hnew).
Qed.
End External_properties.

Section Primary_properties.
Context {W : Type} {SP : Specs} {CL : Clock W} {SH : Shutdown W} {EH : EventHandler W}
  {UH : UriHash} {RS : RetryStore W} {HC : HomeserverClient W} {HI : Homeserver.HomeserverIndex W}
  {HO : UserHosting W} {PI : PubkyIds}.
Context (limit : Z) (primary_homeserver : string) (retry_scheduler : InitialBackoff).
Context (holds : W → Homeserver.Records → Prop).
Context {HS : Homeserver.HomeserverIndexSpec W holds} {RE : PlainReadErrors (W := W)}
  {RF : RecordsFrame holds}.
Context (instant_now_keeps : keeps_records holds instant_now).

Local Abbreviation runner := (HsEventProcessorRunner limit primary_homeserver retry_scheduler).

(** The records [m] are all there, none behind. *)
Definition advanced (m : Homeserver.Records) (w : W) : Prop :=
  ∃ m', holds w m' ∧ Homeserver.no_rewind m m'.

Lemma primary_run_one_advances i w m :
  holds w m → advanced m (snd (run_one runner i w)).
Proof.
  intros Hw. unfold run_one, bind, ret. simpl. unfold primary_build.
  destruct (pubky_id_try_from i) as [i'|];
    [|exists m; split; [exact Hw|apply Homeserver.no_rewind_refl]].
  unfold Homeserver.get_by_id, ebind, emap_err.
  pose proof (Homeserver.get_from_index_spec w m i' Hw) as Hget. unfold yields in Hget.
  destruct (Homeserver.get_from_index i' w) as [[stored|e] w1]; cbn;
    [|exists m; split; [exact Hget|apply Homeserver.no_rewind_refl]].
  destruct Hget as [_ Hw1]. destruct stored as [homeserver|]; cbn;
    [|exists m; split; [exact Hw1|apply Homeserver.no_rewind_refl]].
  pose proof (run_internal_no_rewind homeserver retry_scheduler holds limit w1 m Hw1) as Hrun.
  unfold bind, ret. by destruct (Primary.run_internal _ _ _ w1) as [r w2].
Qed.

(** no tick of the primary homeserver's loop ever loses a homeserver record or moves
    a stored cursor back, whatever the homeserver answers, the handler and the stores
    do, and however the run ends; a tick runs the primary homeserver at most once. *)
Theorem primary_tick_never_rewinds w m :
  holds w m →
  let '(r, w') := run runner w in
  advanced m w' ∧
  match r with Ok stats => hs_id <$> stats = [primary_homeserver] ∨ stats = [] | Err _ => False end.
Proof.
  intros Hw. unfold run, ebind, bind, ret. cbn [pre_run post_run HsEventProcessorRunner].
  unfold ret. cbn [run_targets]. rewrite decide_False by (cbn; unfold default_poll_limit, u64_max; lia).
  unfold bind, ret. pose proof (shutdown_keeps_records holds w m Hw) as Hw1.
  destruct (shutdown_requested w) as [[] w1]; cbn.
  { split; [|by right]. exists m. split; [exact Hw1|apply Homeserver.no_rewind_refl]. }
  unfold default_should_skip, ret. pose proof (instant_now_keeps w1 m Hw1) as Hw2.
  destruct (instant_now w1) as [t0 w2]. cbn in Hw2.
  pose proof (primary_run_one_advances primary_homeserver w2 m Hw2) as (m' & Hw3 & Hle).
  destruct (run_one runner primary_homeserver w2) as [st w3]. cbn in Hw3.
  pose proof (instant_now_keeps w3 m' Hw3) as Hw4. destruct (instant_now w3) as [t1 w4].
  cbn in Hw4. split; [by exists m'|by left].
Qed.
End Primary_properties.

(** ** Witnesses *)

#[local] Instance any_pubky_id : PubkyIds := {| pubky_id_try_from := Some |}.

Section External_witnesses.
Import MemStreams.

#[local] Instance active : ActiveHomeservers MemStreams.t := {|
  fetch_homeservers_list := ret (Ok (Some ["bad"; "primary"; "hs1"; "hs2"; "hs3"]));
|}.

Definition memory : Memory := {|
  backoff := {| HomeserverBackoff.initial_backoff_secs := 60;
                HomeserverBackoff.max_backoff_secs := 3600;
                HomeserverBackoff.state := ∅ |};
  tables := no_tables;
|}.

Definition witness_tick :=
  external_run 10 2 "primary" ["bad"] (from_secs 480) MemStreams.scheduler
    (MemStreams.start, memory).

Lemma external_run_polls_eligible_witness :
  ∃ stats s', witness_tick = (Ok stats, s') ∧ hs_id <$> stats = ["hs1"; "hs2"]
    ∧ Z.of_nat (indexed stats) ≤ 2.
Proof.
  destruct witness_tick as [[stats|e] s'] eqn:Hrun; [|by vm_compute in Hrun].
  exists stats, s'. split; [done|].
  destruct (external_run_polls_eligible 10 2 "primary" ["bad"] (from_secs 480)
    MemStreams.scheduler MemStreams.start memory stats s') as (ids & rest & _ & _ & Hle & _).
  - vm_compute. discriminate.
  - lia.
  - exact Hrun.
  - split; [|exact Hle]. vm_compute in Hrun. by injection Hrun as <- <-.
Defined.

Lemma external_run_backs_off_witness :
  ∃ stats s', witness_tick = (Ok stats, s')
    ∧ status <$> stats = [ProcessorRunStatus.BudgetSpent; ProcessorRunStatus.BudgetSpent]
    ∧ followed (backoff memory) stats (backoff (snd s')).
Proof.
  destruct witness_tick as [[stats|e] s'] eqn:Hrun; [|by vm_compute in Hrun].
  exists stats, s'. split; [done|].
  pose proof (external_run_backs_off 10 2 "primary" ["bad"] (from_secs 480)
    MemStreams.scheduler MemStreams.start memory stats s' Hrun) as Hf.
  split; [|exact Hf]. vm_compute in Hrun. by injection Hrun as <- <-.
Defined.
End External_witnesses.

Section Primary_witnesses.
Import MemPrimary.

Lemma primary_tick_never_rewinds_witness :
  let '(r, w') := run (HsEventProcessorRunner 10 "hs" MemPrimary.scheduler) MemPrimary.start in
  advanced MemPrimary.holds {["hs" := home]} w'.
Proof.
  pose proof (primary_tick_never_rewinds 10 "hs" MemPrimary.scheduler MemPrimary.holds
    (λ w m H, H) MemPrimary.start {["hs" := home]} eq_refl) as H.
  destruct (run _ _) as [r w']. exact (proj1 H).
Defined.
End Primary_witnesses.
