(* ===== verification/TaskRunner.v ===== *)
(** * The watcher's periodic tasks

    nexus-watcher/src/service/task_runner.rs: each task waits for its timer and runs its
    body, until a shutdown or a sibling's panic is seen; the runner joins them as they end.
    The executor, the timers and the bodies are the moves of a game: any task may be woken
    at any time, and its body may end in any way. *)

From S2P Require Import Prelude.
Local Open Scope nexus_scope.

Record PeriodicTask := { task_name : string; interval_ms : Z }.

Inductive TaskOutcome := Completed | Panicked.

#[export] Instance TaskOutcome_eq_dec : EqDecision TaskOutcome.
Proof. solve_decision. Defined.

Record TaskResult := { result_name : string; outcome : TaskOutcome }.

(** A spawned future: not polled yet, in its [select!], in its body, ended, and joined. *)
Inductive Phase :=
  | Spawned
  | Selecting
  | InBody
  | Ended (o : TaskOutcome)
  | Joined (o : TaskOutcome).

Record Runner := {
  (** [shutdown_rx] has changed, or its sender is gone *)
  shutdown : bool;
  (** what [cancel_tx] sent *)
  cancel : bool;
  phases : list Phase;
  name_map : gmap nat string;
  results : list TaskResult;
  (** the bodies begun so far, latest first *)
  begun : list nat;
}.

(** How a body ends. *)
Inductive BodyEnd := Returned (r : result unit string) | BodyPanicked.

Inductive Move :=
  | Wake (id : nat) (due : bool)
  | EndBody (id : nat) (e : BodyEnd)
  | JoinNext (id : nat)
  | ShutDown.

Definition set_phase (id : nat) (p : Phase) (s : Runner) : Runner :=
  {| shutdown := shutdown s; cancel := cancel s; phases := <[id := p]> (phases s);
     name_map := name_map s; results := results s; begun := begun s |}.

Definition begin_body (id : nat) (s : Runner) : Runner :=
  {| shutdown := shutdown s; cancel := cancel s; phases := <[id := InBody]> (phases s);
     name_map := name_map s; results := results s; begun := id :: begun s |}.

Definition run_periodic_tasks_start (tasks : list PeriodicTask) : Runner :=
  {| shutdown := false; cancel := false; phases := (λ _, Spawned) <$> tasks;
     name_map := map_seq 0 (task_name <$> tasks); results := []; begun := [] |}.

Section Steps.
Context (tasks : list PeriodicTask).

(** [tokio::time::interval] panics on a zero period. *)
Definition first_poll (id : nat) (s : Runner) : option Runner :=
  t ← tasks !! id;
  Some (set_phase id (if decide (interval_ms t = 0)%Z then Ended Panicked else Selecting) s).

(** The biased [select!]: shutdown, then cancellation, then the timer. *)
Definition select (id : nat) (due : bool) (s : Runner) : option Runner :=
  if shutdown s then Some (set_phase id (Ended Completed) s)
  else if cancel s then Some (set_phase id (Ended Completed) s)
  else if due then Some (begin_body id s)
  else None.

(** An error of the body is logged, and the loop goes on. *)
Definition end_body (id : nat) (e : BodyEnd) (s : Runner) : Runner :=
  set_phase id (match e with Returned _ => Selecting | BodyPanicked => Ended Panicked end) s.

(** [join_next_with_id] handed out [id], whose task ended with [o]. *)
Definition join_next (id : nat) (o : TaskOutcome) (s : Runner) : Runner :=
  {| shutdown := shutdown s;
     cancel := match o with Completed => cancel s | Panicked => true end;
     phases := <[id := Joined o]> (phases s);
     name_map := delete id (name_map s);
     results := results s ++ [{| result_name := default ("unknown id: " +:+ pretty id) (name_map s !! id); outcome := o |}];
     begun := begun s |}.

(** The runner after a move; none when the move is not possible. *)
Definition step (m : Move) (s : Runner) : option Runner :=
  match m with
  | Wake id due =>
      match phases s !! id with
      | Some Spawned => first_poll id s
      | Some Selecting => select id due s
      | _ => None
      end
  | EndBody id e =>
      match phases s !! id with Some InBody => Some (end_body id e s) | _ => None end
  | JoinNext id =>
      match phases s !! id with Some (Ended o) => Some (join_next id o s) | _ => None end
  | ShutDown =>
      Some {| shutdown := true; cancel := cancel s; phases := phases s; name_map := name_map s;
              results := results s; begun := begun s |}
  end.

Fixpoint steps (ms : list Move) (s : Runner) : option Runner :=
  match ms with
  | [] => Some s
  | m :: ms => s' ← step m s; steps ms s'
  end.

(** The join set is empty: [run_periodic_tasks] returns its results. *)
Definition is_joined (p : Phase) : bool := match p with Joined _ => true | _ => false end.
Definition drained (s : Runner) : bool := forallb is_joined (phases s).
End Steps.

Definition task_results_into_result (rs : list TaskResult) : result unit string :=
  match result_name <$> filter (λ r, outcome r = Panicked) rs with
  | [] => Ok tt
  | panicked => Err ("Task(s) panicked: " +:+ String.concat ", " panicked)
  end.

(** ** What stays true *)

Section Invariant.
Context (tasks : list PeriodicTask).

Definition report (t : PeriodicTask) (p : Phase) : option TaskResult :=
  match p with Joined o => Some {| result_name := task_name t; outcome := o |} | _ => None end.

(** What the joined tasks are to be reported as. *)
Definition reports (ps : list Phase) : list TaskResult := omap (λ tp, report (fst tp) (snd tp)) (zip tasks ps).

Lemma reports_insert ps id p q t :
  tasks !! id = Some t → ps !! id = Some p → report t p = None →
  reports (<[id := q]> ps) ≡ₚ option_list (report t q) ++ reports ps.
Proof.
  unfold reports. revert tasks id. induction ps as [|p' ps IH]; intros [|t' ts] [|id] Ht Hp Hr; try done; simpl in *.
  - simplify_eq. rewrite Hr. by destruct (report t q).
  - specialize (IH ts id Ht Hp Hr). destruct (report t' p') as [r|]; [|done]. rewrite IH. by rewrite Permutation_middle.
Qed.

Definition known (s : Runner) : Prop :=
  length (phases s) = length tasks
  ∧ (∀ id t p, tasks !! id = Some t → phases s !! id = Some p → report t p = None → name_map s !! id = Some (task_name t))
  ∧ results s ≡ₚ reports (phases s).

Lemma start_known : known (run_periodic_tasks_start tasks).
Proof.
  split; [simpl; by rewrite length_fmap|]. split.
  - intros id t p Ht _ _. simpl. rewrite lookup_map_seq_0, list_lookup_fmap, Ht. done.
  - simpl. unfold reports. induction tasks as [|t ts IH]; [done|]. simpl. exact IH.
Qed.

(** A move that joins nothing. *)
Lemma set_phase_known id p q s :
  known s → phases s !! id = Some p → (∀ t, report t p = None) → (∀ t, report t q = None) → known (set_phase id q s).
Proof.
  intros (Hl & Hn & Hr) Hp Hp0 Hq. pose proof (lookup_lt_Some _ _ _ Hp) as Hlt. rewrite Hl in Hlt.
  apply lookup_lt_is_Some in Hlt as [t Ht]. split; [simpl; by rewrite length_insert|]. split.
  - intros id' t' p' Ht' Hp' Hr'. simpl in *. destruct (decide (id' = id)) as [->|Hne]; [by eapply Hn|].
    rewrite list_lookup_insert_ne in Hp' by done. by eapply Hn.
  - simpl. rewrite (reports_insert _ _ _ _ _ Ht Hp (Hp0 t)), Hq. done.
Qed.

Lemma join_known id o s : known s → phases s !! id = Some (Ended o) → known (join_next id o s).
Proof.
  intros (Hl & Hn & Hr) Hp. pose proof (lookup_lt_Some _ _ _ Hp) as Hlt. rewrite Hl in Hlt.
  apply lookup_lt_is_Some in Hlt as [t Ht]. split; [simpl; by rewrite length_insert|]. split.
  - intros id' t' p' Ht' Hp' Hr'. simpl in *. destruct (decide (id' = id)) as [->|Hne].
    + rewrite list_lookup_insert_eq in Hp' by (by eapply lookup_lt_Some). by simplify_eq.
    + rewrite list_lookup_insert_ne in Hp' by done. rewrite lookup_delete_ne by done. by eapply Hn.
  - simpl. rewrite (Hn _ _ _ Ht Hp eq_refl), (reports_insert _ _ _ _ _ Ht Hp eq_refl). simpl.
    rewrite Hr. symmetry. apply Permutation_cons_append.
Qed.

Lemma step_known m s s' : step tasks m s = Some s' → known s → known s'.
Proof.
  intros Hs Hk. destruct m as [id due|id e|id|]; simpl in Hs.
  - destruct (phases s !! id) as [[]|] eqn:Hp; try done.
    + unfold first_poll in Hs. destruct (tasks !! id); simpl in Hs; [|done]. injection Hs as <-.
      eapply set_phase_known; [done|exact Hp|done|by case_decide].
    + unfold select in Hs. destruct (shutdown s); [|destruct (cancel s)]; [| |destruct due; [|done]]; injection Hs as <-;
        by eapply (set_phase_known id Selecting).
  - destruct (phases s !! id) as [[]|] eqn:Hp; try done. injection Hs as <-.
    eapply set_phase_known; [done|exact Hp|done|by destruct e].
  - destruct (phases s !! id) as [[]|] eqn:Hp; try done. injection Hs as <-. by apply join_known.
  - injection Hs as <-. exact Hk.
Qed.

Lemma steps_known ms s s' : steps tasks ms s = Some s' → known s → known s'.
Proof.
  revert s. induction ms as [|m ms IH]; intros s; simpl; [by intros [= ->]|].
  destruct (step tasks m s) as [s1|] eqn:Hs; simpl; [|done]. intros Hms Hk. eapply IH; [exact Hms|]. by eapply step_known.
Qed.

(** ** Winding down *)

Definition is_shutdown (m : Move) : bool := match m with ShutDown => true | _ => false end.

Definition weight (p : Phase) : nat :=
  match p with Spawned | InBody => 3 | Selecting => 2 | Ended _ => 1 | Joined _ => 0 end.

(** How many moves are left at most once the tasks have to stop. *)
Definition work (s : Runner) : nat := sum_list_with weight (phases s).

Definition stopping (s : Runner) : Prop := shutdown s = true ∨ cancel s = true.

Lemma sum_insert ps id p q : ps !! id = Some p → (sum_list_with weight (<[id := q]> ps) + weight p = sum_list_with weight ps + weight q)%nat.
Proof.
  revert id. induction ps as [|p' ps IH]; intros [|id]; simpl; try done; [intros [= ->]; lia|].
  intros Hp. specialize (IH id Hp). lia.
Qed.

Lemma stopping_step m s s' :
  stopping s → step tasks m s = Some s' →
  stopping s' ∧ begun s' = begun s ∧ (is_shutdown m = false → work s' < work s)%nat ∧ (work s' ≤ work s)%nat.
Proof.
  intros Hst Hs. unfold stopping, work in *. destruct m as [id due|id e|id|]; simpl in Hs.
  - destruct (phases s !! id) as [[]|] eqn:Hp; try done.
    + unfold first_poll in Hs. destruct (tasks !! id); simpl in Hs; [|done]. injection Hs as <-. simpl.
      case_decide; [pose proof (sum_insert _ _ _ (Ended Panicked) Hp)|pose proof (sum_insert _ _ _ Selecting Hp)];
        simpl in *; (split; [done|]; split; [done|]; lia).
    + pose proof (sum_insert _ _ _ (Ended Completed) Hp). unfold select in Hs.
      destruct (shutdown s) eqn:Hsd; [|destruct (cancel s) eqn:Hc; [|destruct Hst; congruence]]; injection Hs as <-;
        simpl in *; (split; [by rewrite ?Hsd, ?Hc; auto|]; split; [done|]; lia).
  - destruct (phases s !! id) as [[]|] eqn:Hp; try done. injection Hs as <-. simpl.
    destruct e; [pose proof (sum_insert _ _ _ Selecting Hp)|pose proof (sum_insert _ _ _ (Ended Panicked) Hp)];
      simpl in *; (split; [done|]; split; [done|]; lia).
  - destruct (phases s !! id) as [[]|] eqn:Hp; try done. injection Hs as <-. simpl.
    pose proof (sum_insert _ _ _ (Joined o) Hp). simpl in *. split; [destruct o; naive_solver|]. split; [done|]. lia.
  - injection Hs as <-. simpl. split; [by left|]. split; [done|]. split; [done|lia].
Qed.

Lemma stopping_steps ms s s' :
  stopping s → steps tasks ms s = Some s' →
  begun s' = begun s ∧ (length (filter (λ m, is_shutdown m = false) ms) + work s' ≤ work s)%nat.
Proof.
  revert s. induction ms as [|m ms IH]; intros s Hst; simpl; [intros [= ->]; split; [done|lia]|].
  destruct (step tasks m s) as [s1|] eqn:Hs; simpl; [|done]. intros Hms.
  destruct (stopping_step _ _ _ Hst Hs) as (Hst1 & Hb & Hlt & Hle). destruct (IH _ Hst1 Hms) as [Hb' Hl].
  split; [by rewrite Hb'|]. rewrite filter_cons. case_decide as Hm; simpl; [specialize (Hlt Hm)|]; lia.
Qed.

(** Until all are joined some task can move. *)
Lemma stopping_moves s : length (phases s) = length tasks → stopping s → drained s = false →
  ∃ m s', is_shutdown m = false ∧ step tasks m s = Some s'.
Proof.
  intros Hl Hst Hd. apply not_true_iff_false in Hd.
  assert (∃ id p, phases s !! id = Some p ∧ is_joined p = false) as (id & p & Hp & Hj).
  { unfold drained in Hd. clear Hl. induction (phases s) as [|p ps IH]; [done|]. simpl in Hd.
    destruct (is_joined p) eqn:Hj; [destruct (IH Hd) as (id & q & ? & ?); by exists (S id), q|by exists 0%nat, p]. }
  destruct p as [| | |o|o]; [| | | |done].
  - pose proof (lookup_lt_Some _ _ _ Hp) as Hlt. rewrite Hl in Hlt. apply lookup_lt_is_Some in Hlt as [t Ht].
    exists (Wake id false). eexists. split; [done|]. simpl. rewrite Hp. unfold first_poll. by rewrite Ht.
  - exists (Wake id false). simpl. rewrite Hp. unfold select. destruct (shutdown s) eqn:?; [by eexists|].
    destruct (cancel s) eqn:?; [by eexists|]. by destruct Hst; congruence.
  - exists (EndBody id BodyPanicked). simpl. rewrite Hp. by eexists.
  - exists (JoinNext id). simpl. rewrite Hp. by eexists.
Qed.

Lemma drained_reports ps :
  length ps = length tasks → forallb is_joined ps = true → result_name <$> reports ps = task_name <$> tasks.
Proof.
  unfold reports. revert ps. induction tasks as [|t ts IH]; intros [|p ps]; try done. simpl.
  intros [= Hl] [Hj Hd]%andb_true_iff. destruct p; try done. simpl. f_equal. by apply IH.
Qed.
End Invariant.

Section Outcome.
Context (tasks : list PeriodicTask).

Lemma no_panics_reported rs : task_results_into_result rs = Ok tt ↔ ∀ r, r ∈ rs → outcome r = Completed.
Proof.
  unfold task_results_into_result. split.
  - intros H r Hr. destruct (outcome r) eqn:Ho; [done|].
    assert (result_name r ∈ result_name <$> filter (λ r, outcome r = Panicked) rs) as Hin
      by (apply list_elem_of_fmap; exists r; split; [done|by apply list_elem_of_filter]).
    destruct (result_name <$> filter _ rs); [by apply elem_of_nil in Hin|done].
  - intros H. assert (filter (λ r, outcome r = Panicked) rs = []) as ->; [|done].
    apply elem_of_nil_inv. intros r [Ho Hr]%list_elem_of_filter. specialize (H r Hr). congruence.
Qed.

(** C20: However the executor interleaves the tasks, and whatever their bodies do: once a
    shutdown was requested or a panic was joined, no further body begins, some task can
    always move until all are joined, and that takes a bounded number of moves. The results
    then name every task once, and are an error exactly when one of them panicked. A panic
    that is joined cancels the others. *)
Theorem periodic_tasks_wind_down ms s :
  steps tasks ms (run_periodic_tasks_start tasks) = Some s →
  (stopping s →
    (∀ ms' s', steps tasks ms' s = Some s' →
       begun s' = begun s ∧ (length (filter (λ m, is_shutdown m = false) ms') ≤ work s)%nat)
    ∧ (drained s = false → ∃ m s', is_shutdown m = false ∧ step tasks m s = Some s'))
  ∧ (drained s = true →
      result_name <$> results s ≡ₚ task_name <$> tasks
      ∧ (task_results_into_result (results s) = Ok tt
         ↔ ∀ id o, phases s !! id = Some (Joined o) → o = Completed))
  ∧ (∀ id, phases s !! id = Some (Ended Panicked) →
      ∃ s', step tasks (JoinNext id) s = Some s' ∧ stopping s').
Proof.
  intros Hms. destruct (steps_known _ _ _ _ Hms (start_known tasks)) as (Hl & Hn & Hr). split; [|split].
  - intros Hst. split; [|by apply stopping_moves].
    intros ms' s' Hs'. destruct (stopping_steps _ _ _ _ Hst Hs') as [Hb Hlen]. split; [done|lia].
  - intros Hd. split; [rewrite Hr; by rewrite (drained_reports tasks)|]. rewrite no_panics_reported. setoid_rewrite Hr. split.
    + intros H id o Hp. pose proof (lookup_lt_Some _ _ _ Hp) as Hlt. rewrite Hl in Hlt.
      apply lookup_lt_is_Some in Hlt as [t Ht]. apply (H {| result_name := task_name t; outcome := o |}).
      unfold reports. apply list_elem_of_omap. exists (t, Joined o). split; [|done].
      apply (list_elem_of_lookup_2 _ id). by rewrite lookup_zip_with, Ht, Hp.
    + intros H r ([t p] & Hin & Hrep)%list_elem_of_omap. destruct p as [| | | |o]; try done. injection Hrep as <-.
      apply list_elem_of_lookup_1 in Hin as [id Hid]. apply lookup_zip_with_Some in Hid as (t' & p' & [= <- <-] & _ & Hp).
      by apply (H id).
  - intros id Hp. eexists. simpl. rewrite Hp. split; [done|]. by right.
Qed.
End Outcome.

(** ** One of two tasks panics *)

Module Example_tasks.
Definition two : list PeriodicTask :=
  [{| task_name := "poller"; interval_ms := 5000 |}; {| task_name := "resolver"; interval_ms := 60000 |}].

(** The poller fails once and goes on; the resolver panics while the poller is in its body. *)
Definition moves : list Move :=
  [Wake 0 true; Wake 1 true; Wake 0 true; EndBody 0 (Returned (Err "no network")); Wake 0 true;
   Wake 1 true; EndBody 1 BodyPanicked; JoinNext 1].

Definition rest : list Move := [EndBody 0 (Returned (Ok tt)); Wake 0 true; JoinNext 0].

Definition panicked : Runner := default (run_periodic_tasks_start two) (steps two moves (run_periodic_tasks_start two)).
Definition ended : Runner := default panicked (steps two rest panicked).

Lemma periodic_tasks_wind_down_witness :
  task_results_into_result (results ended) = Err "Task(s) panicked: resolver"
  ∧ begun ended = begun panicked
  ∧ result_name <$> results ended ≡ₚ ["poller"; "resolver"].
Proof.
  split; [by vm_compute|]. split.
  - destruct (periodic_tasks_wind_down two moves panicked) as [H _]; [by vm_compute|].
    destruct H as [H _]; [by right|]. destruct (H rest ended) as [Hb _]; [by vm_compute|exact Hb].
  - destruct (periodic_tasks_wind_down two (moves ++ rest) ended) as (_ & H & _); [by vm_compute|].
    destruct H as [Hnames _]; [by vm_compute|exact Hnames].
Defined.

(** A task without an interval never gets to run, and takes the others down. *)
Example zero_interval_stops_all :
  let tasks := [{| task_name := "poller"; interval_ms := 0 |}; {| task_name := "resolver"; interval_ms := 1 |}] in
  (λ s, (results s, begun s)) <$> steps tasks [Wake 0 true; Wake 1 true; JoinNext 0; Wake 1 true; JoinNext 1] (run_periodic_tasks_start tasks)
  = Some ([{| result_name := "poller"; outcome := Panicked |}; {| result_name := "resolver"; outcome := Completed |}], []).
Proof. by vm_compute. Qed.
End Example_tasks.
