(* ===== verification/Client.v ===== *)
(** * The homeserver client: bounded reads of untrusted answers

    nexus-watcher/src/homeserver/fetch.rs (size-capped reads) and
    homeserver/client.rs ([PubkyHomeserverClient]). The Pubky SDK and reqwest are
    given: a response is a status, the length it declares and its body's chunks, an
    event stream its items. Byte strings are strings of 8-bit characters. *)

From S2P Require Import Prelude Text Errors Events World.
Local Open Scope Z_scope.

(** ** Capped reads *)

Definition MAX_RESOURCE_SIZE : Z := 2 * 1024 * 1024.
Definition MAX_EVENTS_BODY : Z := 5 * 1024 * 1024.

(** [read_stream_capped]'s loop, over the chunks still to come. *)
Fixpoint read_chunks {E} (cap : Z) (buf : string) (total : Z) (stream : list (result string E)) :
    result (string * bool) E :=
  match stream with
  | [] => Ok (buf, false)
  | Err e :: _ => Err e
  | Ok bytes :: stream =>
      let total := wrap_u64 (total + len bytes) in
      let buf := buf +:+ prefix_bytes (len bytes `min` Z.max 0 (cap - len buf)) bytes in
      if decide (cap ≤ total) then Ok (buf, true) else read_chunks cap buf total stream
  end.

Definition read_stream_capped {E} (stream : list (result string E)) (max : Z) :
    result (string * bool) E :=
  let cap := wrap_u64 (max + 1) in
  read_chunks cap "" 0 stream.

(** What [HsErrorKind::from_reqwest] reads of a [reqwest::Error]. *)
Record ReqwestError := { reqwest_is_timeout : bool; reqwest_text : string }.

Record Response := {
  status : Z;
  content_length : option Z;
  bytes_stream : list (result string ReqwestError);
}.

(** ** The client *)

(** An event of the SDK's stream, and what the client keeps of it. *)
Record SdkEvent := {
  sdk_event_type : SdkEventType;
  sdk_cursor : Z;
  resource_owner : string;
  resource_url : string;
}.

Definition HsStreamEvent_from (e : SdkEvent) : HsStreamEvent := {|
  stream_event_type := from_sdk_event_type (sdk_event_type e);
  cursor := sdk_cursor e;
  owner := resource_owner e;
  stream_uri := resource_url e;
|}.

(** The requests of the SDK: a raw GET, a per-user event stream (whose items fail with
    the text of their error), a resource of public storage given by owner and path;
    and [tokio::time::sleep] in seconds. *)
Class Sdk (W : Type) := {
  send_get : string → prog W (result Response ReqwestError);
  subscribe : string → string → Z → Z → string →
    prog W (result (list (result SdkEvent string)) Pubky.SdkError);
  storage_get : string → string → prog W (result Response Pubky.SdkError);
  sleep : Z → prog W unit;
}.

(** What is known of HTTP status codes and of the errors' text. *)
Class Http := {
  is_success : Z → bool;
  is_server_error : Z → bool;
  from_utf8_lossy : string → string;
  sdk_text : Pubky.SdkError → string;
}.

Section Client.
Context {W : Type} {SD : Sdk W} {HT : Http}.
Local Open Scope nexus_scope.

Definition kind_of_reqwest (e : ReqwestError) : Hs.HsErrorKind :=
  Hs.from_reqwest from_utf8_lossy (reqwest_is_timeout e) (reqwest_text e).
Definition kind_of_sdk (e : Pubky.SdkError) : Hs.HsErrorKind :=
  Hs.from_sdk is_server_error from_utf8_lossy sdk_text e.

Definition fetch_capped (resp : Response) (max : Z) : result string Hs.HsErrorKind :=
  let read :=
    match map_err kind_of_reqwest (read_stream_capped (bytes_stream resp) max) with
    | Err kind => Err kind
    | Ok (buf, exceeded) => if (exceeded : bool) then Err (Hs.TooLarge (len buf) max) else Ok buf
    end in
  match content_length resp with
  | Some cl => if decide (max < cl) then Err (Hs.TooLarge cl max) else read
  | None => read
  end.

Definition USER_EVENTS_429_BACKOFF_SECS : list Z := [1; 2; 3].

Fixpoint retry_rate_limited {A} (fetch : prog W (result A Hs.HsErrorKind)) (backoffs : list Z) :
    prog W (result A Hs.HsErrorKind) :=
  let* outcome := fetch in
  match outcome, backoffs with
  | Err (Hs.RateLimited _), backoff_secs :: backoffs =>
      let* _ := sleep backoff_secs in
      retry_rate_limited fetch backoffs
  | outcome, _ => ret outcome
  end.

(** Whatever the homeserver sends past [limit] events is not read, and only logged. *)
Fixpoint read_user_events (limit : nat) (stream : list (result SdkEvent string)) :
    result (list HsStreamEvent) Hs.HsErrorKind :=
  match limit, stream with
  | O, _ => Ok []
  | _, [] => Ok []
  | _, Err e :: _ => Err (Hs.transport from_utf8_lossy e)
  | S limit, Ok event :: stream =>
      match read_user_events limit stream with
      | Err kind => Err kind
      | Ok events => Ok (HsStreamEvent_from event :: events)
      end
  end.

Definition fetch_user_events (hs user : string) (cursor limit : Z) :
    prog W (result (list HsStreamEvent) Hs.HsErrorKind) :=
  let? stream := emap_err kind_of_sdk (subscribe hs user cursor limit "/pub/") in
  ret (read_user_events (Z.to_nat limit) stream).

Definition user_events_with (hs : string) (fetch : prog W (result (list HsStreamEvent) Hs.HsErrorKind)) :
    prog W (result (list HsStreamEvent) Hs.HsError) :=
  emap_err (λ kind, {| Hs.hs := hs; Hs.op := Hs.UserEvents; Hs.kind := kind |})
    (retry_rate_limited fetch USER_EVENTS_429_BACKOFF_SECS).

Definition events_url (hs : string) (cursor limit : Z) : string :=
  "https://" +:+ hs +:+ "/events/?cursor=" +:+ pretty cursor +:+ "&limit=" +:+ pretty limit.

Definition event_lines_from_response (response : Response) : result (list string) Hs.HsErrorKind :=
  if negb (is_success (status response)) then
    let '(body, _) :=
      match read_stream_capped (bytes_stream response) (Z.of_nat Hs.MAX_ERROR_BODY) with
      | Ok read => read
      | Err _ => ("", false)
      end in
    Err (Hs.from_status is_server_error from_utf8_lossy (status response) body)
  else
    match map_err kind_of_reqwest (read_stream_capped (bytes_stream response) MAX_EVENTS_BODY) with
    | Err kind => Err kind
    | Ok (buf, exceeded) =>
        if (exceeded : bool) then Err (Hs.TooLarge (len buf) MAX_EVENTS_BODY)
        else Ok (lines (trim (from_utf8_lossy buf)))
    end.

Definition poll_events_with (hs : string) (send : prog W (result Response ReqwestError)) :
    prog W (result (list string) Hs.HsError) :=
  let error kind := {| Hs.hs := hs; Hs.op := Hs.PollEvents; Hs.kind := kind |} in
  let? response := emap_err (λ e, error (kind_of_reqwest e)) send in
  ret (map_err error (event_lines_from_response response)).

Definition read_capped (fetch : prog W (result Response Hs.HsErrorKind)) (max : Z) :
    prog W (result string Hs.HsErrorKind) :=
  let? response := fetch in
  ret (fetch_capped response max).

Definition owner_error (owner : string) (op : Hs.HsOp) (kind : Hs.HsErrorKind) : Hs.HsError :=
  {| Hs.hs := owner; Hs.op := op; Hs.kind := kind |}.

Definition get (owner path : string) : prog W (result Response Hs.HsErrorKind) :=
  emap_err kind_of_sdk (storage_get owner path).

Definition get_resource (owner path : string) : prog W (result string Hs.HsError) :=
  emap_err (owner_error owner Hs.GetResource) (read_capped (get owner path) MAX_RESOURCE_SIZE).

Definition get_blob (max_file_size : Z) (owner path : string) : prog W (result string Hs.HsError) :=
  emap_err (owner_error owner Hs.GetBlob) (read_capped (get owner path) max_file_size).

#[export] Instance PubkyHomeserverClient : HomeserverClient W := {
  poll_events := λ hs cursor limit, poll_events_with hs (send_get (events_url hs cursor limit));
  user_events := λ hs user cursor limit,
    user_events_with hs (fetch_user_events hs user cursor limit);
}.
End Client.

(** ** Capped reads, exactly *)

(** What a stream delivers before it ends or fails. *)
Fixpoint received {E} (stream : list (result string E)) : string * option E :=
  match stream with
  | [] => ("", None)
  | Err e :: _ => ("", Some e)
  | Ok bytes :: stream => let '(body, failure) := received stream in (bytes +:+ body, failure)
  end.

(** No chunk is larger than an allocation can be. *)
Definition allocatable {E} (stream : list (result string E)) : Prop :=
  Forall (λ c, match c with Ok bytes => len bytes ≤ i64_max | Err _ => True end) stream.

Lemma read_chunks_spec {E} (cap : Z) (stream : list (result string E)) buf :
  cap ≤ i64_max → len buf < cap → allocatable stream →
  read_chunks cap buf (len buf) stream =
    let '(body, failure) := received stream in
    if decide (cap ≤ len buf + len body) then Ok (prefix_bytes cap (buf +:+ body), true)
    else match failure with Some e => Err e | None => Ok (buf +:+ body, false) end.
Proof.
  intros Hcap Hbuf Hall. revert buf Hbuf.
  induction Hall as [|[bytes|e] stream Hb Hall IH]; intros buf Hbuf; cbn [read_chunks received].
  - rewrite decide_False by (change (len "") with 0; lia). by rewrite str_nil_r.
  - pose proof (len_nonneg bytes). pose proof (len_nonneg buf).
    destruct (received stream) as [body failure] eqn:Hrec. rewrite len_app.
    pose proof (len_nonneg body).
    rewrite wrap_u64_id by (unfold u64_max, i64_max in *; lia). rewrite Z.max_r by lia.
    case_decide as Hfull.
    + rewrite decide_True by lia. do 2 f_equal. rewrite Z.min_r by lia.
      replace cap with (len buf + (cap - len buf)) at 2 by lia. rewrite prefix_app by lia.
      by rewrite prefix_le by lia.
    + rewrite Z.min_l, prefix_all by lia. rewrite <- len_app, IH by (rewrite len_app; lia).
      by rewrite !len_app, Z.add_assoc, str_assoc.
  - rewrite decide_False by (change (len "") with 0; lia). done.
Qed.

(** A capped read keeps exactly what it promises: a body of at most [max] bytes is
    read whole, whatever its chunks; of a longer one, the first [max + 1] bytes and
    nothing more, marked as cut, even when the stream fails later; and a failure within
    the limit is reported. *)
Lemma read_stream_capped_spec {E} (stream : list (result string E)) max :
  0 ≤ max < i64_max → allocatable stream →
  read_stream_capped stream max =
    let '(body, failure) := received stream in
    if decide (max < len body) then Ok (prefix_bytes (max + 1) body, true)
    else match failure with Some e => Err e | None => Ok (body, false) end.
Proof.
  intros Hmax Hall. unfold read_stream_capped.
  rewrite wrap_u64_id by (unfold u64_max, i64_max in *; lia).
  change (read_chunks (max + 1) "" 0 stream) with (read_chunks (max + 1) "" (len "") stream).
  rewrite read_chunks_spec by (change (len "") with 0; lia || done).
  destruct (received stream) as [body failure]. change ("" +:+ body) with body. change (len "") with 0.
  by repeat case_decide; try lia.
Qed.

(** ** What the client promises *)

Section Client_properties.
Context {W : Type} {SD : Sdk W} {HT : Http}.
Local Open Scope nexus_scope.

(** a fetched resource or blob is its whole body and within its limit, however the
    homeserver chunks it and whatever length it declares: the fetch succeeds exactly
    when the declared length, if any, and the body are within the limit and the body
    arrived without a failure. *)
Theorem fetched_body_within_limit resp max b :
  0 ≤ max < i64_max → allocatable (bytes_stream resp) →
  fetch_capped resp max = Ok b ↔
    received (bytes_stream resp) = (b, None) ∧ len b ≤ max
    ∧ ∀ cl, content_length resp = Some cl → cl ≤ max.
Proof.
  intros Hmax Hall. unfold fetch_capped. rewrite read_stream_capped_spec by done.
  destruct (received (bytes_stream resp)) as [body failure].
  destruct (content_length resp) as [cl|].
  - destruct (decide (max < cl)) as [Hcl|Hcl].
    + split; [done|]. intros (_ & _ & H). specialize (H cl eq_refl). lia.
    + case_decide; cbn; [split; [done|intros ([= -> _] & ? & _); lia]|].
      destruct failure; cbn; (split; [intros [= <-]|intros ([= <-] & _)]); try done.
      split_and!; [done|lia|]. intros ? [= <-]. lia.
  - case_decide; cbn; [split; [done|intros ([= -> _] & ? & _); lia]|].
    destruct failure; cbn; (split; [intros [= <-]|intros ([= <-] & _)]); try done.
    split_and!; [done|lia|done].
Qed.

(** The outcome of an [/events/] poll, for every answer: a non-2xx is an error with
    at most 4 KiB + 1 of its page, never read as events; a body over 5 MiB is refused;
    a failure while reading is reported; and only a whole 2xx body within the limit
    becomes lines. *)
Lemma poll_outcome hs (send : prog W (result Response ReqwestError)) w resp w' :
  allocatable (bytes_stream resp) → send w = (Ok resp, w') →
  let '(body, failure) := received (bytes_stream resp) in
  let error kind := Err {| Hs.hs := hs; Hs.op := Hs.PollEvents; Hs.kind := kind |} in
  poll_events_with hs send w =
    (if is_success (status resp) then
       if decide (MAX_EVENTS_BODY < len body)
       then error (Hs.TooLarge (MAX_EVENTS_BODY + 1) MAX_EVENTS_BODY)
       else match failure with
            | Some e => error (kind_of_reqwest e)
            | None => Ok (lines (trim (from_utf8_lossy body)))
            end
     else
       error (Hs.from_status is_server_error from_utf8_lossy (status resp)
         (if decide (Z.of_nat Hs.MAX_ERROR_BODY < len body)
          then prefix_bytes (Z.of_nat Hs.MAX_ERROR_BODY + 1) body
          else match failure with Some _ => "" | None => body end)), w').
Proof.
  intros Hall Hsend. unfold poll_events_with, ebind, emap_err, ret. rewrite Hsend. cbn [map_err].
  unfold event_lines_from_response.
  rewrite !read_stream_capped_spec by (done || vm_compute; split; congruence).
  destruct (received (bytes_stream resp)) as [body failure].
  destruct (is_success (status resp)); cbn [negb].
  - case_decide as Hlong; [|by destruct failure]. cbn.
    rewrite len_prefix by (pose proof (len_nonneg body); lia || unfold MAX_EVENTS_BODY in *; lia).
    done.
  - case_decide; [done|]. by destruct failure.
Qed.

(** [n] rate-limited attempts, each followed by its wait. *)
Fixpoint after_attempts {A} (fetch : prog W (result A Hs.HsErrorKind)) (waits : list Z) (w : W) : W :=
  match waits with
  | [] => w
  | s :: waits => after_attempts fetch waits (snd (sleep s (snd (fetch w))))
  end.

Definition rate_limited {A} (r : result A Hs.HsErrorKind) : bool :=
  match r with Err (Hs.RateLimited _) => true | _ => false end.

Lemma retry_rate_limited_spec {A} (fetch : prog W (result A Hs.HsErrorKind)) backoffs w :
  ∃ n, (n ≤ length backoffs)%nat
    ∧ (∀ i, (i < n)%nat →
         rate_limited (fst (fetch (after_attempts fetch (take i backoffs) w))) = true)
    ∧ retry_rate_limited fetch backoffs w = fetch (after_attempts fetch (take n backoffs) w)
    ∧ (rate_limited (fst (retry_rate_limited fetch backoffs w)) = true → n = length backoffs).
Proof.
  revert w. induction backoffs as [|s backoffs IH]; intros w; cbn [retry_rate_limited];
    unfold bind, ret.
  - exists 0%nat. destruct (fetch w) as [[a|[]] w'] eqn:Hf; simpl; rewrite ?Hf; split_and!;
      try done; lia.
  - destruct (rate_limited (fst (fetch w))) eqn:Hr.
    + destruct (IH (snd (sleep s (snd (fetch w))))) as (n & Hn & Hlim & Hret & Hlast).
      exists (S n). cbn [take after_attempts length].
      destruct (fetch w) as [[a|[]] w'] eqn:Hf; try done. simpl in *.
      destruct (sleep s w') as [[] w''] eqn:Hs. simpl in *.
      split_and!; [lia| |done|by intros; f_equal; apply Hlast].
      intros [|i] Hi; simpl; rewrite ?Hf; [done|]. simpl. rewrite Hs. apply Hlim. lia.
    + exists 0%nat. simpl. destruct (fetch w) as [[a|[]] w'] eqn:Hf; try done;
        split_and!; try done; lia.
Qed.

(** At most [limit] events are kept: the first ones, unless one of them failed. *)
Lemma read_user_events_spec limit (stream : list (result SdkEvent string)) :
  match read_user_events limit stream with
  | Ok events => ∃ kept, take limit stream = Ok <$> kept ∧ events = HsStreamEvent_from <$> kept
  | Err kind => ∃ text, Err text ∈ take limit stream ∧ kind = Hs.transport from_utf8_lossy text
  end.
Proof.
  revert stream. induction limit as [|limit IH]; intros stream; [by exists []|].
  destruct stream as [|[event|text] stream]; cbn [read_user_events take]; [by exists []| |].
  - specialize (IH stream). destruct (read_user_events limit stream) as [events|kind].
    + destruct IH as (kept & -> & ->). by exists (event :: kept).
    + destruct IH as (text & ? & ->). exists text. split; [by right|done].
  - exists text. split; [by left|done].
Qed.

Lemma fetch_user_events_limit hs user cursor limit w events :
  fst (fetch_user_events hs user cursor limit w) = Ok events →
  Z.of_nat (length events) ≤ Z.max 0 limit.
Proof.
  unfold fetch_user_events, ebind, emap_err, ret.
  destruct (subscribe _ _ _ _ _ w) as [[stream|e] w1]; [|done]. cbn.
  pose proof (read_user_events_spec (Z.to_nat limit) stream) as Hread.
  destruct (read_user_events _ _) as [ev|]; [|done]. intros [= <-].
  destruct Hread as (kept & Htake & ->). rewrite length_fmap.
  assert (length kept = length (take (Z.to_nat limit) stream)) as ->
    by (rewrite Htake; by rewrite length_fmap).
  rewrite length_take. lia.
Qed.

(** a rate-limited stream request is made at most four times, after waits of 1, 2
    and 3 seconds; any other answer ends it at once and is the result, and a 429 is the
    result only when the fourth answer is one too, which the run then stops for. *)
Theorem user_events_retries hs user cursor limit w :
  let fetch := fetch_user_events hs user cursor limit in
  ∃ n, (n ≤ 3)%nat
    ∧ (∀ i, (i < n)%nat → rate_limited (fst (fetch (after_attempts fetch (take i [1; 2; 3]) w))) = true)
    ∧ let '(r, w') := fetch (after_attempts fetch (take n [1; 2; 3]) w) in
      let '(r', w'') := user_events hs user cursor limit w in
      w'' = w' ∧ (rate_limited r = true → n = 3%nat)
      ∧ match r with
        | Ok events => r' = Ok events ∧ Z.of_nat (length events) ≤ Z.max 0 limit
        | Err kind => ∃ e, r' = Err e ∧ Hs.kind e = kind ∧
            (Ep.should_not_retry_now (Ep.from_hs e) = true ↔
             match kind with
             | Hs.RateLimited _ | Hs.ServerError _ _ | Hs.Transport _ | Hs.Timeout => True
             | _ => False
             end)
        end.
Proof.
  intros fetch.
  destruct (retry_rate_limited_spec fetch USER_EVENTS_429_BACKOFF_SECS w)
    as (n & Hn & Hlim & Hret & Hlast).
  exists n. split; [exact Hn|]. split; [exact Hlim|].
  pose proof (fetch_user_events_limit hs user cursor limit
    (after_attempts fetch (take n [1; 2; 3]) w)) as Hsmall.
  unfold user_events, PubkyHomeserverClient, user_events_with, emap_err. fold fetch. rewrite Hret.
  rewrite Hret in Hlast. unfold USER_EVENTS_429_BACKOFF_SECS in *. fold fetch in Hsmall.
  destruct (fetch (after_attempts fetch (take n [1; 2; 3]) w)) as [[events|kind] w'];
    cbn [map_err fst] in *.
  - split_and!; [done|done|done|by apply Hsmall].
  - split_and!; [done|exact Hlast|]. eexists. split_and!; [done|done|].
    destruct kind; cbn; split; done.
Qed.

(** A resource or a blob that cannot be fetched is its event's failure alone: whatever
    the answer, the error never stops the homeserver's run, and is retried only if
    another try could help: never for a 404, nor for a body over its limit. *)
Lemma fetch_failure_is_the_events_own max_file_size owner path w :
  let fetch_outcome (r : result string Hs.HsError) : Prop :=
    match r with
    | Ok _ => True
    | Err e => Ep.should_not_retry_now (Ep.from_hs e) = false
        ∧ match Hs.kind e with
          | Hs.NotFound _ | Hs.TooLarge _ _ | Hs.Malformed _ =>
              Ep.should_enqueue_related_event (Ep.from_hs e) = false
          | _ => Ep.should_enqueue_related_event (Ep.from_hs e) = true
          end
    end in
  fetch_outcome (fst (get_resource owner path w))
  ∧ fetch_outcome (fst (get_blob max_file_size owner path w)).
Proof.
  intros fetch_outcome.
  assert (∀ op r, op ≠ Hs.UserEvents → fetch_outcome (map_err (owner_error owner op) r)) as H.
  { intros op [b|kind] Hop; [done|]. unfold fetch_outcome, Ep.from_hs. simpl.
    rewrite bool_decide_eq_false_2 by done. by destruct kind. }
  unfold get_resource, get_blob, emap_err.
  split; [destruct (read_capped _ MAX_RESOURCE_SIZE w)|destruct (read_capped _ max_file_size w)];
    by apply H.
Qed.
End Client_properties.

(** ** Lines *)

Section Lines.
Implicit Types (s l : string).

(** The lines as a homeserver writes them. *)
Definition join_lines (ls : list string) : string := String.concat (String newline "") ls.

(** A printing ASCII character, which no white space starts or ends with. *)
Definition graphic (c : Ascii.ascii) : bool :=
  let n := Ascii.N_of_ascii c in ((32 <? n) && (n <? 127))%N.

Definition graphic_start s : bool := match s with String c _ => graphic c | "" => false end.

(** A line of an event list: on one line, and with no white space at its ends. *)
Definition line_ok l : Prop :=
  Forall (λ c, c ≠ newline) (String.list_ascii_of_string l)
  ∧ graphic_start l = true ∧ graphic_start (rev l) = true.

(** Encodings none of which starts as a printing character does. *)
Definition blank (encodings : list string) : bool :=
  forallb (λ e, match e with String c _ => negb (graphic c) | "" => false end) encodings.

Lemma strip_any_graphic encodings s :
  blank encodings = true → graphic_start s = true → strip_any encodings s = None.
Proof.
  intros Henc Hs. destruct s as [|c s]; [done|].
  induction encodings as [|e encodings IH]; [done|]. simpl in *.
  destruct e as [|c' e]; [done|]. apply andb_prop in Henc as [He Henc]. simpl.
  rewrite decide_False by (intros ->; by rewrite Hs in He). by apply IH.
Qed.

Lemma trim_start_graphic fuel encodings s :
  blank encodings = true → graphic_start s = true → trim_start fuel encodings s = s.
Proof. intros. destruct fuel; [done|]. simpl. by rewrite strip_any_graphic. Qed.

Lemma trim_graphic s : graphic_start s = true → graphic_start (rev s) = true → trim s = s.
Proof.
  intros Hs Hr. unfold trim.
  rewrite (trim_start_graphic _ white_space) by (done || vm_compute; reflexivity).
  rewrite trim_start_graphic by (done || vm_compute; reflexivity). apply rev_involutive.
Qed.

Lemma string_snoc l c t : rev l = String c t → l = rev t +:+ String c "".
Proof.
  intros Hr. rewrite <- (rev_involutive l), Hr. unfold rev. simpl. rewrite reverse_cons.
  generalize (reverse (String.list_ascii_of_string t)). intros cs.
  induction cs as [|c' cs IH]; [done|]. simpl. by rewrite str_cons, IH.
Qed.

Lemma strip_cr_graphic l : graphic_start (rev l) = true → strip_cr l = l.
Proof.
  intros Hl. destruct (rev l) as [|c t] eqn:Hr; [done|]. apply string_snoc in Hr as ->.
  assert (c ≠ carriage_return) as Hc by (intros ->; vm_compute in Hl; discriminate).
  generalize (rev t). intros s. induction s as [|c' s IH];
    [change ("" +:+ String c "") with (String c ""); cbn [strip_cr]; by rewrite decide_False|].
  rewrite str_cons. cbn [strip_cr].
  destruct (s +:+ String c "") as [|c'' s'] eqn:Hs; [by destruct s|]. by rewrite IH.
Qed.

Lemma lines_from_line cur l rest :
  Forall (λ c, c ≠ newline) (String.list_ascii_of_string l) →
  lines_from cur (l +:+ String newline rest) = strip_cr (cur +:+ l) :: lines_from "" rest
  ∧ (cur +:+ l ≠ "" → lines_from cur l = [cur +:+ l]).
Proof.
  revert cur. induction l as [|c l IH]; intros cur Hl.
  { rewrite str_nil_r. split.
    - done.
    - cbn. by destruct cur. }
  apply Forall_cons in Hl as [Hc Hl]. rewrite str_cons. cbn [lines_from].
  rewrite decide_False by done. destruct (IH (cur +:+ String c "") Hl) as [-> Hlast].
  rewrite str_assoc in *. split; [done|]. intros Hne.
  rewrite decide_False by done. by apply Hlast.
Qed.

Lemma graphic_start_nonempty s : graphic_start s = true → s ≠ "".
Proof. by destruct s. Qed.

Lemma lines_join ls : Forall line_ok ls → lines (join_lines ls) = ls.
Proof.
  intros Hls. unfold lines, join_lines.
  induction Hls as [|l ls (Hn & Hs & Hr) Hls IH]; [done|].
  destruct ls as [|l' ls].
  - simpl. by apply lines_from_line, graphic_start_nonempty.
  - change (String.concat (String newline "") (l :: l' :: ls))
      with (l +:+ String newline (String.concat (String newline "") (l' :: ls))).
    destruct (lines_from_line "" l (String.concat (String newline "") (l' :: ls)) Hn) as [-> _].
    rewrite IH. f_equal. by apply strip_cr_graphic.
Qed.

Lemma graphic_start_app s t : graphic_start s = true → graphic_start (s +:+ t) = true.
Proof. by destruct s. Qed.

Lemma join_lines_graphic ls :
  ls ≠ [] → Forall line_ok ls →
  graphic_start (join_lines ls) = true ∧ graphic_start (rev (join_lines ls)) = true.
Proof.
  intros Hne Hls. unfold join_lines. induction Hls as [|l ls (Hn & Hs & Hr) Hls IH]; [done|].
  destruct ls as [|l' ls]; [done|].
  change (String.concat (String newline "") (l :: l' :: ls))
    with (l +:+ String newline "" +:+ String.concat (String newline "") (l' :: ls)).
  split; [by apply graphic_start_app|]. rewrite rev_app, rev_app, str_assoc.
  apply graphic_start_app. by apply IH.
Qed.

(** the lines a homeserver serves are the lines a poll returns: a 2xx answer whose
    body holds event lines and a cursor line, one per line, within 5 MiB and however it
    is chunked, comes back as exactly those lines, in order; an empty list as none. *)
Theorem served_lines_are_read_back {W : Type} {HT : Http} hs
    (send : prog W (result Response ReqwestError)) w resp w' ls :
  allocatable (bytes_stream resp) → send w = (Ok resp, w') → is_success (status resp) = true →
  Forall line_ok ls → received (bytes_stream resp) = (join_lines ls, None) →
  len (join_lines ls) ≤ MAX_EVENTS_BODY →
  from_utf8_lossy (join_lines ls) = join_lines ls →
  poll_events_with hs send w = (Ok ls, w').
Proof.
  intros Hall Hsend Hok Hls Hbody Hlen Hutf.
  unfold poll_events_with, ebind, emap_err, ret. rewrite Hsend. cbn [map_err].
  unfold event_lines_from_response. rewrite Hok. cbn [negb].
  rewrite read_stream_capped_spec by (done || vm_compute; split; congruence).
  rewrite Hbody, decide_False by lia. cbn. rewrite Hutf.
  destruct (decide (ls = [])) as [->|Hne]; [done|].
  destruct (join_lines_graphic ls Hne Hls). rewrite trim_graphic by done. by rewrite lines_join.
Qed.
End Lines.

(** ** Witnesses: a homeserver that answers 429 twice

    The world counts the requests made. *)

Module MemSdk.

#[export] Instance http : Http := {
  is_success := λ s, (200 <=? s) && (s <? 300);
  is_server_error := λ s, (500 <=? s) && (s <? 600);
  from_utf8_lossy := id;
  sdk_text := λ _, "sdk";
}.

Definition body : Response := {|
  status := 200; content_length := None;
  bytes_stream := [Ok "PUT pubky://a/x"; Ok (String newline "cur"); Ok "sor: 9"];
|}.

#[export] Instance sdk : Sdk nat := {
  send_get := λ _ n, (Ok body, S n);
  subscribe := λ _ _ _ _ _ n,
    (if decide (n < 2)%nat then Err (Pubky.RequestServer 429 "slow down")
     else Ok [Ok {| sdk_event_type := SdkPut; sdk_cursor := 7; resource_owner := "u";
                    resource_url := "pubky://u/x" |}], S n);
  storage_get := λ _ _ n, (Ok body, S n);
  sleep := λ _, ret tt;
}.

End MemSdk.

Section Client_witnesses.
Import MemSdk.

Example user_events_two_429 :
  user_events "hs" "u" 0 10 0%nat
  = (Ok [{| stream_event_type := Put; cursor := 7; owner := "u"; stream_uri := "pubky://u/x" |}],
     3%nat).
Proof. reflexivity. Qed.

Lemma fetched_body_within_limit_witness :
  fetch_capped body 100
  = Ok ("PUT pubky://a/x" +:+ String newline "cursor: 9").
Proof.
  apply (fetched_body_within_limit body 100).
  - vm_compute. split; congruence.
  - repeat constructor; vm_compute; discriminate.
  - split; [reflexivity|]. split; [vm_compute; discriminate|discriminate].
Defined.

Lemma served_lines_are_read_back_witness :
  poll_events_with "hs" (send_get "") 0%nat = (Ok ["PUT pubky://a/x"; "cursor: 9"], 1%nat).
Proof.
  apply (served_lines_are_read_back "hs" (send_get "") 0%nat body 1%nat).
  - repeat constructor; vm_compute; discriminate.
  - reflexivity.
  - reflexivity.
  - repeat constructor; discriminate.
  - reflexivity.
  - vm_compute. discriminate.
  - reflexivity.
Defined.
End Client_witnesses.
