(* ===== verification/Hosting.v ===== *)
(** * Hosting: who is hosted where, in the graph and in PKDNS

    The [(:User)-[:HOSTED_BY]->(:Homeserver)] relationship and the Cypher queries on it
    (nexus-common/src/db/graph/queries), each as a function on the part of the graph it
    reads and writes, and the PKDNS records it is applied from
    (nexus-common/src/models/user/homeserver_resolver.rs). *)

From S2P Require Import Prelude Errors Graphs.
Local Open Scope Z_scope.

(** ** The graph *)

(** The properties of a [HOSTED_BY] edge. *)
Record HostedBy := {
  edge_stale : option bool;
  resolved_at : option Z;
  record : option string;
  record_ts : option Z;
}.

(** A user node and its edges by homeserver. *)
Record UserNode := {
  deleted : option bool;
  hosted : gmap string HostedBy;
}.

Record HostingGraph := {
  users : gmap string UserNode;
  homeservers : gset string;
  timestamp : Z;
}.

Definition coalesce {A} (a b : option A) : option A := match a with Some _ => a | None => b end.

(** A PKDNS record as kept on an edge. *)
Record StoredRecord := { packet : string; record_timestamp : Z }.

(** [SET r.resolved_at = timestamp(), r.record = coalesce($record, r.record), ...] *)
Definition set_record (now : Z) (rec : option StoredRecord) (r : HostedBy) : HostedBy := {|
  edge_stale := edge_stale r;
  resolved_at := Some now;
  record := coalesce (packet <$> rec) (record r);
  record_ts := coalesce (record_timestamp <$> rec) (record_ts r);
|}.

Definition new_edge : HostedBy :=
  {| edge_stale := None; resolved_at := None; record := None; record_ts := None |}.

Definition put_user (user_id : string) (u : UserNode) (g : HostingGraph) : HostingGraph :=
  {| users := <[user_id := u]> (users g); homeservers := homeservers g; timestamp := timestamp g |}.

(** Edges to another homeserver are deleted; the one to [hs_id] is merged. *)
Definition set_user_homeserver (user_id hs_id : string) (rec : option StoredRecord)
    (g : HostingGraph) : HostingGraph :=
  match users g !! user_id with
  | None => g
  | Some u =>
      let old := default new_edge (hosted u !! hs_id) in
      {| users := <[user_id := {| deleted := deleted u;
                                  hosted := {[hs_id := set_record (timestamp g) rec old]} |}]>
                    (users g);
         homeservers := {[hs_id]} ∪ homeservers g;
         timestamp := timestamp g |}
  end.

Definition set_stale (stale : bool) (r : HostedBy) : HostedBy :=
  {| edge_stale := Some stale; resolved_at := resolved_at r; record := record r;
     record_ts := record_ts r |}.

Definition set_user_homeserver_stale_query (user_id : string) (stale : bool)
    (rec : option StoredRecord) (g : HostingGraph) : HostingGraph :=
  match users g !! user_id with
  | None => g
  | Some u =>
      put_user user_id {| deleted := deleted u;
        hosted := (λ r, set_record (timestamp g) rec (set_stale stale r)) <$> hosted u |} g
  end.

(** A user's stored mapping. *)
Record UserHomeserverMapping := { hs_id : string; stale : bool }.

Definition mapping_row (row : string * HostedBy) : UserHomeserverMapping :=
  {| hs_id := fst row; stale := default false (edge_stale (snd row)) |}.

(** The first row, or none. *)
Definition get_user_homeserver_query (user_id : string) (g : HostingGraph) :
    option UserHomeserverMapping :=
  u ← users g !! user_id;
  mapping_row <$> head (map_to_list (hosted u)).

Definition is_deleted (u : UserNode) : bool := default false (deleted u).

(** Users with no edge, or one last resolved more than [ttl_ms] ago. *)
Definition needs_resolution (now ttl_ms : Z) (r : HostedBy) : bool :=
  match resolved_at r with
  | None => true
  | Some t => bool_decide (t < now - ttl_ms)
  end.

Definition get_users_needing_hs_resolution (ttl_ms : Z) (g : HostingGraph) : list string :=
  let ttl_ms := wrap_i64 ttl_ms in
  map_to_list (users g) ≫= λ '(user_id, u),
    if is_deleted u then []
    else match map_to_list (hosted u) with
         | [] => [user_id]
         | rows => map (λ _, user_id)
                     (filter (λ row, needs_resolution (timestamp g) ttl_ms row.2 = true) rows)
         end.

Definition get_active_users_by_homeserver (hs_id : string) (g : HostingGraph) : list string :=
  fst <$> filter (λ '(_, u), is_deleted u = false
                  ∧ (default false ∘ edge_stale <$> hosted u !! hs_id) = Some false)
            (map_to_list (users g)).

(** ** The queries, run *)

Definition get_user_homeserver (user_id : string) :
    prog (GraphSession HostingGraph) (result (option UserHomeserverMapping) Graph.GraphError) :=
  run_query (reads (get_user_homeserver_query user_id)).

Definition set_user_homeserver_from_record (user_id homeserver_id : string) (rec : StoredRecord) :
    prog (GraphSession HostingGraph) (result unit Graph.GraphError) :=
  run_query (writes (set_user_homeserver user_id homeserver_id (Some rec))).

Definition set_user_homeserver_stale (user_id : string) (stale : bool) (rec : option StoredRecord) :
    prog (GraphSession HostingGraph) (result unit Graph.GraphError) :=
  run_query (writes (set_user_homeserver_stale_query user_id stale rec)).

Definition get_users_needing_resolution (ttl_ms : Z) :
    prog (GraphSession HostingGraph) (result (list string) Graph.GraphError) :=
  run_query (reads (get_users_needing_hs_resolution ttl_ms)).

Definition get_user_ids_by_homeserver (hs_id : string) :
    prog (GraphSession HostingGraph) (result (list string) Graph.GraphError) :=
  run_query (reads (get_active_users_by_homeserver hs_id)).

(** ** PKDNS records *)

Inductive RData := SVCB (target : string) | HTTPS (target : string) | OtherRData.

(** pkarr's signed packets, hex, and the SDK's public keys (by their z32 text). *)
Class Pkarr := {
  SignedPacket : Type;
  public_key : SignedPacket → string;
  as_bytes : SignedPacket → string;
  packet_timestamp : SignedPacket → Z;
  resource_records : SignedPacket → string → list RData;
  from_relay_payload : string → string → option SignedPacket;
  key_bytes : string → string;
  try_from_z32 : string → option string;
  hex_encode : string → string;
  hex_decode : string → option string;
}.

(** What pkarr and hex document: a packet's bytes are its key's 32 bytes and its relay
    payload, which parses back, and hex decodes what it encoded. *)
Class PkarrLaws `{Pkarr} := {
  key_bytes_length k : String.length (key_bytes k) = 32%nat;
  relay_payload p : ∃ payload, as_bytes p = key_bytes (public_key p) +:+ payload
                     ∧ from_relay_payload (public_key p) payload = Some p;
  hex_roundtrip b : hex_decode (hex_encode b) = Some b;
}.

Section Records.
Context {PK : Pkarr}.
Local Open Scope nexus_scope.

Inductive PkdnsRecord := Missing | Published (packet : SignedPacket).

Fixpoint first_target (rrs : list RData) : option string :=
  match rrs with
  | [] => None
  | SVCB target :: _ => Some target
  | HTTPS target :: _ => Some target
  | OtherRData :: rrs => first_target rrs
  end.

Definition published_homeserver (packet : SignedPacket) : option string :=
  target ← first_target (resource_records packet "_pubky");
  try_from_z32 target.

Definition homeserver (r : PkdnsRecord) : option string :=
  match r with
  | Published packet => published_homeserver packet
  | Missing => None
  end.

(** The timestamp, a [u64], has to fit the graph's [i64]. *)
Definition StoredRecord_try_from (packet : SignedPacket) : option StoredRecord :=
  if decide (packet_timestamp packet ≤ i64_max)
  then Some {| packet := hex_encode (as_bytes packet); record_timestamp := packet_timestamp packet |}
  else None.

Definition stored (r : PkdnsRecord) : option StoredRecord :=
  match r with
  | Published packet => StoredRecord_try_from packet
  | Missing => None
  end.

Definition split_at_checked (n : nat) (s : string) : option (string * string) :=
  if decide (n ≤ String.length s)%nat
  then Some (String.substring 0 n s, String.substring n (String.length s - n) s)
  else None.

Definition verify (r : StoredRecord) (user : string) : option SignedPacket :=
  bytes ← hex_decode (packet r);
  '(key, payload) ← split_at_checked 32 bytes;
  if decide (key ≠ key_bytes user) then None else from_relay_payload user payload.

(** The network's answer for a key. *)
Class PkdnsHomeserverResolver (W : Type) := {
  resolve_record : string → prog W (result PkdnsRecord Pubky.PubkyClientError);
}.

Definition resolve_own_record {W} `{PkdnsHomeserverResolver W} (user_pk : string) :
    prog W (result PkdnsRecord Pubky.PubkyClientError) :=
  let? record := resolve_record user_pk in
  match record with
  | Missing => ret (Ok Missing)
  | Published packet =>
      if decide (public_key packet ≠ user_pk) then
        ret (Err (Pubky.RequestFailed ("PKDNS answer for " +:+ user_pk +:+ " is signed by "
                                       +:+ public_key packet)))
      else match StoredRecord_try_from packet with
           | None => ret (Ok Missing)
           | Some _ => ret (Ok (Published packet))
           end
  end.
End Records.
