(* ===== verification/Resolver.v ===== *)
(** * The user-to-homeserver resolver

    nexus-watcher/src/service/user_hs_resolver.rs: each due user's PKDNS record is looked
    up, in bisection order, and applied to the user's [HOSTED_BY] edge. The world is
    the network's next to the graph session; metrics are left out. *)

From S2P Require Import Prelude Errors Backoff Redis World Graphs Hosting.
Local Open Scope Z_scope.

(** ** Outcomes *)

Inductive StaleReason := Unresolved | HsChanged.

Module MappingState.
Inductive t := Unbound | Active | Stale.

Definition of_stored (stored : option UserHomeserverMapping) : t :=
  match stored with
  | None => Unbound
  | Some mapping => if stale mapping then Stale else Active
  end.
End MappingState.

Module Outcome.
Inductive t := Resolved | Unresolved | Error.

#[global] Instance t_eq_dec : EqDecision t.
Proof. solve_decision. Defined.
End Outcome.

Inductive Resolution :=
  | Unbound
  | Bound
  | Confirmed (was_stale : bool)
  | Diverged (reason : StaleReason) (was_stale : bool)
  | LookupFailed (mapping : MappingState.t).

Definition outcome (r : Resolution) : Outcome.t :=
  match r with
  | Bound | Confirmed _ => Outcome.Resolved
  | Diverged HsChanged _ => Outcome.Resolved
  | Unbound | Diverged Unresolved _ => Outcome.Unresolved
  | LookupFailed _ => Outcome.Error
  end.

Definition mapping (r : Resolution) : MappingState.t :=
  match r with
  | Unbound | Bound => MappingState.Unbound
  | Confirmed true | Diverged _ true => MappingState.Stale
  | Confirmed false | Diverged _ false => MappingState.Active
  | LookupFailed mapping => mapping
  end.

Definition newly_stale (r : Resolution) : option StaleReason :=
  match r with
  | Diverged reason false => Some reason
  | _ => None
  end.

(** ** Bisection order *)

Section Bisection.
Context {K : Type}.

(** The queue of half-open intervals; [fuel] bounds the loop's rounds. *)
Fixpoint bisect (fuel : nat) (sorted_pks : list K) (queue : list (nat * nat)) : list K :=
  match fuel, queue with
  | O, _ => []
  | _, [] => []
  | S fuel, (lo, hi) :: queue =>
      if decide (hi ≤ lo)%nat then bisect fuel sorted_pks queue
      else
        let mid := (lo + (hi - lo) / 2)%nat in
        match sorted_pks !! mid with
        | Some pk => pk :: bisect fuel sorted_pks (queue ++ [(lo, mid); (S mid, hi)])
        | None => []
        end
  end.

Definition bisection_order (le : relation K) `{!RelDecision le} (unsorted_pks : list K) : list K :=
  let sorted_pks := merge_sort le unsorted_pks in
  let n := length sorted_pks in
  bisect (2 * n + 1) sorted_pks (if decide (0 < n)%nat then [(0, n)%nat] else []).
End Bisection.

(** ** Resolving one user *)

Section Resolver.
Context {W : Type} {PK : Pkarr} {RES : PkdnsHomeserverResolver W}.
Local Open Scope nexus_scope.

Definition on_graph {A} (p : prog (GraphSession HostingGraph) A) : prog (W * GraphSession HostingGraph) A :=
  λ '(w, g), let '(a, g) := p g in (a, (w, g)).

Definition resolve_user (user_id : string) :
    prog (W * GraphSession HostingGraph) (result Resolution Graph.GraphError) :=
  let? stored_mapping := on_graph (get_user_homeserver user_id) in
  let* looked_up := lift (resolve_own_record user_id) in
  match looked_up with
  | Err _ => ret (Ok (LookupFailed (MappingState.of_stored stored_mapping)))
  | Ok record =>
      match stored_mapping, record with
      | None, Missing => ret (Ok Unbound)
      | None, Published _ =>
          match homeserver record, stored record with
          | Some resolved_hs_id, Some stored_record =>
              let? _ := on_graph
                (set_user_homeserver_from_record user_id resolved_hs_id stored_record) in
              ret (Ok Bound)
          | _, _ => ret (Ok Unbound)
          end
      | Some mapping, record =>
          let stored_record := stored record in
          let diverged reason :=
            let? _ := on_graph (set_user_homeserver_stale user_id true stored_record) in
            ret (Ok (Diverged reason (stale mapping))) in
          match homeserver record with
          | Some resolved_hs_id =>
              if decide (resolved_hs_id = hs_id mapping) then
                let? _ := on_graph (set_user_homeserver_stale user_id false stored_record) in
                ret (Ok (Confirmed (stale mapping)))
              else diverged HsChanged
          | None => diverged Unresolved
          end
      end
  end.

(** ** One cycle *)

(** [shutdown_rx.changed()] is ready. *)
Context {CL : Clock W} {SH : Shutdown W}.

(** [str::parse::<PublicKey>] to the key's z32 text. *)
Context (parse_public_key : string → option string).

Definition from_millis (ms : Z) : Z := ms * 1000000.

Definition record_resolution (ttl_ms : Z) (user_id : string) (resolution : Resolution)
    (unbound_backoff : UnboundBackoff.UnboundBackoff) :
    prog (W * GraphSession HostingGraph) UnboundBackoff.UnboundBackoff :=
  match resolution with
  | Unbound =>
      let* now := instant_now in
      ret (UnboundBackoff.record_unbound user_id now (from_millis ttl_ms) unbound_backoff)
  | LookupFailed _ => ret unbound_backoff
  | _ => ret (UnboundBackoff.clear user_id unbound_backoff)
  end.

(** The loop over the ordered users: the backoff and the failures counted so far. A
    shutdown is noticed between two users. *)
Fixpoint resolve_users (ttl_ms : Z) (user_pks : list string)
    (unbound_backoff : UnboundBackoff.UnboundBackoff) (failed : Z) :
    prog (W * GraphSession HostingGraph) (UnboundBackoff.UnboundBackoff * Z) :=
  match user_pks with
  | [] => ret (unbound_backoff, failed)
  | user_pk :: user_pks =>
      let* stop := lift shutdown_requested in
      if (stop : bool) then ret (unbound_backoff, failed)
      else
        let* result := resolve_user user_pk in
        match result with
        | Err _ => resolve_users ttl_ms user_pks unbound_backoff (wrap_u64 (failed + 1))
        | Ok resolution =>
            let* unbound_backoff := record_resolution ttl_ms user_pk resolution unbound_backoff in
            let failed := if decide (outcome resolution = Outcome.Resolved) then failed
                          else wrap_u64 (failed + 1) in
            resolve_users ttl_ms user_pks unbound_backoff failed
        end
  end.

Definition run (ttl_ms : Z) (key_le : relation string) `{!RelDecision key_le}
    (unbound_backoff : UnboundBackoff.UnboundBackoff) :
    prog (W * GraphSession HostingGraph) (result unit Graph.GraphError * UnboundBackoff.UnboundBackoff) :=
  let* needing := on_graph (get_users_needing_resolution ttl_ms) in
  match needing with
  | Err e => ret (Err e, unbound_backoff)
  | Ok user_ids =>
      let* now := instant_now in
      let '(user_ids, unbound_backoff) :=
        UnboundBackoff.retain_due user_ids now unbound_backoff in
      let user_pks := omap parse_public_key user_ids in
      let* outcome := resolve_users ttl_ms (bisection_order key_le user_pks) unbound_backoff 0 in
      ret (Ok tt, fst outcome)
  end.
End Resolver.

(** ** Bisection visits every key once *)

Section Bisection_properties.
Context {K : Type}.
Implicit Types (l : list K).

Definition slice l (i : nat * nat) : list K := take (i.2 - i.1) (drop i.1 l).

(** The rounds a queue still takes: an interval of [k] keys takes [2k + 1]. *)
Fixpoint rounds (queue : list (nat * nat)) : nat :=
  match queue with
  | [] => 0
  | (lo, hi) :: queue => 2 * (hi - lo) + 1 + rounds queue
  end.

Lemma rounds_app q1 q2 : rounds (q1 ++ q2) = (rounds q1 + rounds q2)%nat.
Proof. induction q1 as [|[lo hi] q1 IH]; simpl; [done|]. rewrite IH. lia. Qed.

Lemma slice_split l lo hi mid pk :
  (lo ≤ mid < hi)%nat → l !! mid = Some pk →
  slice l (lo, hi) = slice l (lo, mid) ++ pk :: slice l (S mid, hi).
Proof.
  intros Hm Hpk. unfold slice. simpl.
  replace (hi - lo)%nat with (mid - lo + S (hi - S mid))%nat by lia.
  rewrite <- take_take_drop, drop_drop. f_equal.
  replace (lo + (mid - lo))%nat with mid by lia.
  by rewrite (drop_S _ _ _ Hpk).
Qed.

Lemma bisect_perm fuel l queue :
  Forall (λ i, (i.2 ≤ length l)%nat) queue → (rounds queue ≤ fuel)%nat →
  bisect fuel l queue ≡ₚ concat (slice l <$> queue).
Proof.
  revert queue. induction fuel as [|fuel IH]; intros queue Hq Hf.
  { destruct queue as [|[lo hi] queue]; [done|]. simpl in Hf. lia. }
  destruct queue as [|[lo hi] queue]; [done|].
  apply Forall_cons in Hq as [Hhi Hq]. cbn [rounds] in Hf. cbn [bisect].
  rewrite fmap_cons. cbn [concat].
  case_decide as Hempty.
  - rewrite IH; [|done|lia]. unfold slice at 2. simpl.
    by replace (hi - lo)%nat with 0%nat by lia.
  - set (mid := (lo + (hi - lo) / 2)%nat).
    assert ((hi - lo) / 2 < hi - lo)%nat as Hhalf by (apply Nat.div_lt; lia).
    assert (lo ≤ mid < hi)%nat as Hmid by lia. simpl in Hhi.
    destruct (lookup_lt_is_Some_2 l mid ltac:(lia)) as [pk Hpk]. rewrite Hpk.
    rewrite IH.
    + rewrite fmap_app, concat_app. simpl. rewrite (slice_split l lo hi mid pk) by done.
      rewrite app_nil_r. rewrite <- app_assoc. simpl. rewrite Permutation_app_comm, <- app_assoc.
      apply Permutation_middle.
    + apply Forall_app. split; [done|]. repeat constructor; simpl; lia.
    + rewrite rounds_app. cbn [rounds]. lia.
Qed.

Lemma bisection_order_perm (le : relation K) `{!RelDecision le} l :
  bisection_order le l ≡ₚ l.
Proof.
  unfold bisection_order. set (s := merge_sort le l).
  transitivity s; [|apply merge_sort_Permutation].
  rewrite bisect_perm.
  - case_decide as Hn; simpl.
    + unfold slice. simpl. rewrite drop_0, app_nil_r, firstn_all2 by lia. done.
    + destruct s; [done|simpl in Hn; lia].
  - case_decide; repeat constructor; simpl; lia.
  - case_decide; cbn [rounds]; lia.
Qed.
End Bisection_properties.

(** The order documented for eight keys. *)
Example bisection_order_8 :
  bisection_order (≤)%nat [7; 3; 0; 5; 1; 6; 2; 4]%nat = [4; 2; 6; 1; 3; 5; 7; 0]%nat.
Proof. vm_compute. reflexivity. Qed.

(** ** What a resolution does to the graph *)

Section Graph_properties.
Context {W : Type} {PK : Pkarr} {RES : PkdnsHomeserverResolver W}.
Implicit Types (g : HostingGraph) (u h : string) (s : GraphSession HostingGraph).

(** Every user has at most one homeserver. *)
Definition single_homed g : Prop := ∀ u n, users g !! u = Some n → (size (hosted n) ≤ 1)%nat.

Definition homeserver_of g u : option string := hs_id <$> get_user_homeserver_query u g.

Lemma hosted_cases n : (size (hosted n) ≤ 1)%nat →
  hosted n = ∅ ∨ ∃ h e, hosted n = {[h := e]}.
Proof.
  intros Hn. destruct (decide (size (hosted n) = 0%nat)) as [H0|H0].
  - left. by apply map_size_empty_inv.
  - right. apply map_size_ne_0_lookup_1 in H0 as (h & e & He). exists h, e.
    assert (size (delete h (hosted n)) = 0%nat) as Hd%map_size_empty_inv
      by (rewrite map_size_delete_Some by eauto; lia).
    rewrite <- (insert_delete_id (hosted n) h e) by done. by rewrite Hd.
Qed.

(** The one write a lookup can cause, from what was published. *)
Definition flag_diverged (record : PkdnsRecord) (m : UserHomeserverMapping) : bool :=
  negb (bool_decide (homeserver record = Some (hs_id m))).

Inductive applied (u : string) (record : PkdnsRecord) g : HostingGraph → Prop :=
  | applied_bind h rec :
      get_user_homeserver_query u g = None → homeserver record = Some h →
      stored record = Some rec → applied u record g (set_user_homeserver u h (Some rec) g)
  | applied_stale m :
      get_user_homeserver_query u g = Some m →
      applied u record g
        (set_user_homeserver_stale_query u (flag_diverged record m) (stored record) g).

(** The result of a resolution, by what it found and did. *)
Definition resolution_of u (looked_up : result PkdnsRecord Pubky.PubkyClientError) g g'
    (r : Resolution) : Prop :=
  match looked_up with
  | Err _ => r = LookupFailed (MappingState.of_stored (get_user_homeserver_query u g)) ∧ g' = g
  | Ok record =>
      match get_user_homeserver_query u g with
      | None => match homeserver record, stored record with
                | Some h, Some rec => r = Bound ∧ g' = set_user_homeserver u h (Some rec) g
                | _, _ => r = Unbound ∧ g' = g
                end
      | Some m =>
          g' = set_user_homeserver_stale_query u (flag_diverged record m) (stored record) g
          ∧ r = match homeserver record with
                | Some h => if decide (h = hs_id m) then Confirmed (stale m)
                            else Diverged HsChanged (stale m)
                | None => Diverged Unresolved (stale m)
                end
      end
  end.

Lemma run_query_write (f : HostingGraph → HostingGraph) s :
  let '(r, s') := run_query (writes f) s in
  match r with
  | Ok _ => graph s' = f (graph s)
  | Err _ => graph s' = graph s ∨ graph s' = f (graph s)
  end.
Proof. unfold run_query, writes. destruct (graph_trips s) as [|[|e|e] ts]; simpl; auto. Qed.

Lemma run_query_read {A} (f : HostingGraph → A) s :
  let '(r, s') := run_query (reads f) s in
  graph s' = graph s ∧ match r with Ok a => a = f (graph s) | Err _ => True end.
Proof. unfold run_query, reads. destruct (graph_trips s) as [|[|e|e] ts]; simpl; auto. Qed.

(** An accepted record is the asked key's own, and one that can be stored. *)
Definition own_record (u : string) (record : PkdnsRecord) : Prop :=
  match record with
  | Missing => True
  | Published p => public_key p = u ∧ StoredRecord_try_from p ≠ None
  end.

Lemma resolve_own_record_spec u w :
  match fst (resolve_own_record u w) with
  | Ok record => own_record u record
      ∧ (∀ p, record = Published p → fst (resolve_record u w) = Ok (Published p))
  | Err _ => True
  end.
Proof.
  unfold resolve_own_record, ebind, ret.
  destruct (resolve_record u w) as [[[|p]|e] w1]; simpl; [done| |done].
  case_decide as Hk; [done|]. destruct (StoredRecord_try_from p) as [rec|] eqn:Hp; simpl; [|done].
  split; [|by intros ? [= <-]]. split; [by destruct (decide (public_key p = u))|congruence].
Qed.

Lemma resolve_user_spec u w s :
  let '(r, (w', s')) := resolve_user u (w, s) in
  match r with
  | Ok res => resolution_of u (fst (resolve_own_record u w)) (graph s) (graph s') res
  | Err _ => graph s' = graph s
             ∨ ∃ record, fst (resolve_own_record u w) = Ok record
                         ∧ (graph s' = graph s ∨ applied u record (graph s) (graph s'))
  end.
Proof.
  unfold resolve_user, ebind, bind, ret, on_graph, lift, get_user_homeserver.
  pose proof (run_query_read (get_user_homeserver_query u) s) as Hget.
  destruct (run_query (reads (get_user_homeserver_query u)) s) as [[m|e] s1];
    [|left; apply Hget]. destruct Hget as [Hs1 ->].
  destruct (resolve_own_record u w) as [[record|e] w1] eqn:Hrec; cbn [fst]; [|by rewrite Hs1].
  destruct (get_user_homeserver_query u (graph s)) as [m|] eqn:Hm.
  - assert (∀ b, b = flag_diverged record m →
      match run_query (writes (set_user_homeserver_stale_query u b (stored record))) s1 with
      | (Ok _, s') => graph s' = set_user_homeserver_stale_query u (flag_diverged record m)
                                  (stored record) (graph s)
      | (Err _, s') => graph s' = graph s ∨ applied u record (graph s) (graph s')
      end) as Hw.
    { intros b ->. pose proof (run_query_write (set_user_homeserver_stale_query u
        (flag_diverged record m) (stored record)) s1) as Hw. rewrite Hs1 in Hw.
      destruct (run_query _ s1) as [[]  s2]; [done|]. destruct Hw as [?|Hw]; [by left|right].
      rewrite Hw. by apply applied_stale. }
    assert (∀ b res, b = flag_diverged record m →
      res = match homeserver record with
            | Some h => if decide (h = hs_id m) then Confirmed (stale m)
                        else Diverged HsChanged (stale m)
            | None => Diverged Unresolved (stale m)
            end →
      match run_query (writes (set_user_homeserver_stale_query u b (stored record))) s1 with
      | (Ok _, s') => resolution_of u (Ok record) (graph s) (graph s') res
      | (Err _, s') => graph s' = graph s ∨ ∃ record0, Ok (E := Pubky.PubkyClientError) record
                         = Ok record0 ∧ (graph s' = graph s ∨ applied u record0 (graph s) (graph s'))
      end) as Hres.
    { intros b res Hb ->. specialize (Hw b Hb). destruct (run_query _ s1) as [[] s2].
      - unfold resolution_of. by rewrite Hm.
      - right. eauto. }
    clear Hw. unfold set_user_homeserver_stale, flag_diverged in *.
    destruct (homeserver record) as [h|]; [case_decide as Hh|].
    + subst. specialize (Hres false (Confirmed (stale m))). rewrite bool_decide_eq_true_2 in Hres by done.
      specialize (Hres eq_refl eq_refl). by destruct (run_query _ s1) as [[] s2].
    + rewrite bool_decide_eq_false_2 in Hres by congruence.
      specialize (Hres true (Diverged HsChanged (stale m)) eq_refl eq_refl).
      by destruct (run_query _ s1) as [[] s2].
    + rewrite bool_decide_eq_false_2 in Hres by done.
      specialize (Hres true (Diverged Unresolved (stale m)) eq_refl eq_refl).
      by destruct (run_query _ s1) as [[] s2].
  - unfold resolution_of. rewrite Hm. destruct record as [|p]; simpl; [by rewrite Hs1|].
    destruct (published_homeserver p) as [h|] eqn:Hh; [|by rewrite Hs1].
    destruct (StoredRecord_try_from p) as [rec|] eqn:Hp; [|by rewrite Hs1].
    unfold set_user_homeserver_from_record.
    pose proof (run_query_write (set_user_homeserver u h (Some rec)) s1) as Hw. rewrite Hs1 in Hw.
    destruct (run_query _ s1) as [[]  s2]; [done|]. right. exists (Published p). split; [done|].
    destruct Hw as [?|Hw]; [by left|right]. rewrite Hw. by apply applied_bind.
Qed.

(** In short: nothing, or the asked key's own record applied. *)
Lemma resolve_user_applied u w s :
  let g' := graph (snd (snd (resolve_user u (w, s)))) in
  g' = graph s ∨ ∃ record, own_record u record
    ∧ (∀ p, record = Published p → fst (resolve_record u w) = Ok (Published p))
    ∧ applied u record (graph s) g'.
Proof.
  pose proof (resolve_user_spec u w s) as Hs. pose proof (resolve_own_record_spec u w) as Ho.
  destruct (resolve_user u (w, s)) as [[res|e] [w' s']]; simpl in *.
  - unfold resolution_of in Hs. destruct (fst (resolve_own_record u w)) as [record|];
      [|left; apply Hs]. destruct Ho as [Hown Hnet].
    destruct (get_user_homeserver_query u (graph s)) as [m|] eqn:Hm.
    + right. exists record. destruct Hs as [-> _]. split_and!; [done|done|by apply applied_stale].
    + destruct (homeserver record) as [h|] eqn:Hh, (stored record) as [rec|] eqn:Hr;
        try (left; apply Hs). right. exists record. destruct Hs as [_ ->].
      split_and!; [done|done|by apply applied_bind].
  - destruct Hs as [?|(record & Hrec & Hs)]; [by left|]. rewrite Hrec in Ho.
    destruct Ho. destruct Hs as [?|?]; [by left|]. right. eauto.
Qed.
Lemma query_singleton u n h e g :
  users g !! u = Some n → hosted n = {[h := e]} →
  get_user_homeserver_query u g = Some (mapping_row (h, e)).
Proof.
  intros Hn Hh. unfold get_user_homeserver_query. rewrite Hn. simpl.
  by rewrite Hh, map_to_list_singleton.
Qed.

Lemma query_cases g u : single_homed g →
  match get_user_homeserver_query u g with
  | Some m => ∃ n e, users g !! u = Some n ∧ hosted n = {[hs_id m := e]}
                     ∧ stale m = default false (edge_stale e)
  | None => ∀ n, users g !! u = Some n → hosted n = ∅
  end.
Proof.
  intros Hg. unfold get_user_homeserver_query.
  destruct (users g !! u) as [n|] eqn:Hn; simpl; [|done].
  destruct (hosted_cases n (Hg u n Hn)) as [Hh|(h & e & Hh)]; rewrite Hh.
  - rewrite map_to_list_empty. simpl. by intros ? [= <-].
  - rewrite map_to_list_singleton. simpl. by exists n, e.
Qed.

Lemma applied_effect u record g g' :
  single_homed g → applied u record g g' →
  single_homed g' ∧ (∀ v, v ≠ u → users g' !! v = users g !! v)
  ∧ match get_user_homeserver_query u g with
    | Some m => get_user_homeserver_query u g'
                = Some {| hs_id := hs_id m; stale := flag_diverged record m |}
    | None => ∃ h, homeserver record = Some h ∧
        (is_Some (users g !! u) → get_user_homeserver_query u g' = Some {| hs_id := h; stale := false |})
        ∧ (users g !! u = None → g' = g)
    end.
Proof.
  intros Hg Ha. pose proof (query_cases g u Hg) as Hq. destruct Ha as [h rec Hm Hh Hr|m Hm];
    rewrite Hm in *.
  - unfold set_user_homeserver. destruct (users g !! u) as [n|] eqn:Hn; cycle 1.
    { split_and!; [done|done|]. exists h. split_and!; [done|by intros [? ?]|done]. }
    specialize (Hq n eq_refl). split_and!.
    + intros v nv. simpl. destruct (decide (v = u)) as [->|Hne].
      * rewrite lookup_insert_eq. intros [= <-]. simpl. by rewrite map_size_singleton.
      * rewrite lookup_insert_ne by done. apply Hg.
    + intros v Hv. simpl. by rewrite lookup_insert_ne.
    + exists h. split_and!; [done| |done]. intros _.
      erewrite query_singleton; [|apply lookup_insert_eq|reflexivity].
      by rewrite Hq, lookup_empty.
  - destruct Hq as (n & e & Hn & Hh & _). unfold set_user_homeserver_stale_query. rewrite Hn.
    split_and!.
    + intros v nv. simpl. destruct (decide (v = u)) as [->|Hne].
      * rewrite lookup_insert_eq. intros [= <-]. simpl. rewrite map_size_fmap. by apply (Hg u).
      * rewrite lookup_insert_ne by done. apply Hg.
    + intros v Hv. simpl. by rewrite lookup_insert_ne.
    + erewrite query_singleton; [|apply lookup_insert_eq|].
      2:{ simpl. by rewrite Hh, map_fmap_singleton. }
      done.
Qed.

(** C38: looking a user up never moves anyone: a user bound to a homeserver stays bound to
    it whatever is published, no other user's edge changes, and a user gets a first
    homeserver only from a packet signed with the user's own key that names it, even
    if the network answers with somebody else's packet and whatever fails. *)
Theorem resolution_never_rebinds u w s :
  single_homed (graph s) →
  let g := graph s in let g' := graph (snd (snd (resolve_user u (w, s)))) in
  single_homed g'
  ∧ (∀ v h, homeserver_of g v = Some h → homeserver_of g' v = Some h)
  ∧ (∀ v h, homeserver_of g v = None → homeserver_of g' v = Some h →
       v = u ∧ ∃ p, fst (resolve_record u w) = Ok (Published p) ∧ public_key p = u
                    ∧ published_homeserver p = Some h).
Proof.
  intros Hg g g'. destruct (resolve_user_applied u w s) as [Heq|(record & Hown & Hnet & Ha)].
  { unfold g'. rewrite Heq. split_and!; [done|done|]. intros v h Hn Hs. unfold g in Hn. congruence. }
  fold g g' in Ha. destruct (applied_effect u record g g' Hg Ha) as (Hg' & Hother & Hu).
  assert (∀ v, v ≠ u → get_user_homeserver_query v g' = get_user_homeserver_query v g) as Hv.
  { intros v Hne. unfold get_user_homeserver_query. by rewrite Hother. }
  split; [done|]. unfold homeserver_of. split.
  - intros v h Hh. destruct (decide (v = u)) as [->|Hne]; [|by rewrite Hv].
    destruct (get_user_homeserver_query u g) as [m|]; [|done]. by rewrite Hu.
  - intros v h Hn Hs. destruct (decide (v = u)) as [->|Hne]; [|rewrite Hv in Hs; congruence].
    split; [done|]. destruct (get_user_homeserver_query u g) as [m|] eqn:Hm; [done|].
    destruct Hu as (h' & Hh' & Hsome & Hnone). destruct (users g !! u) as [n|] eqn:Hn'.
    + rewrite Hsome in Hs by done. injection Hs as <-. destruct record as [|p]; [done|].
      exists p. split_and!; [by apply Hnet|apply Hown|done].
    + rewrite Hnone in Hs by done. by rewrite Hm in Hs.
Qed.

(** a resolution's result says what became of the mapping: confirmed, the user is
    active on its homeserver, which the user still publishes; diverged, it is marked
    stale, for a homeserver the user no longer publishes, so that indexing pauses; it
    never was bound, or the lookup failed, and the graph is untouched. The reported
    earlier state is the stored one, so an active mapping gone stale counts once. *)
Theorem resolution_reports_the_mapping u w s res w' s' :
  single_homed (graph s) → is_Some (users (graph s) !! u) →
  resolve_user u (w, s) = (Ok res, (w', s')) →
  let before := get_user_homeserver_query u (graph s) in
  let after := get_user_homeserver_query u (graph s') in
  let published := match fst (resolve_own_record u w) with
                   | Ok record => homeserver record | Err _ => None end in
  mapping res = MappingState.of_stored before ∧
  match res with
  | Unbound => before = None ∧ graph s' = graph s
  | Bound => before = None ∧ ∃ h, published = Some h ∧ after = Some {| hs_id := h; stale := false |}
  | Confirmed was_stale => ∃ h, before = Some {| hs_id := h; stale := was_stale |}
      ∧ published = Some h ∧ after = Some {| hs_id := h; stale := false |}
  | Diverged reason was_stale => ∃ h, before = Some {| hs_id := h; stale := was_stale |}
      ∧ published ≠ Some h ∧ (reason = Unresolved ↔ published = None)
      ∧ after = Some {| hs_id := h; stale := true |}
  | LookupFailed _ => graph s' = graph s
  end.
Proof.
  intros Hg Hu Hrun. cbv zeta. pose proof (resolve_user_spec u w s) as Hs. rewrite Hrun in Hs.
  unfold resolution_of in Hs.
  destruct (fst (resolve_own_record u w)) as [record|e]; [|by destruct Hs as [-> ->]].
  destruct (get_user_homeserver_query u (graph s)) as [m|] eqn:Hm.
  - destruct Hs as [Hgr Hres].
    destruct (applied_effect u record (graph s) (graph s') Hg) as (_ & _ & Hafter).
    { rewrite Hgr. by apply applied_stale. }
    rewrite Hm in Hafter. rewrite Hafter. unfold flag_diverged, MappingState.of_stored.
    destruct m as [h st]. simpl in *. subst res.
    destruct (homeserver record) as [h'|]; [case_decide as Hh|].
    + subst h'. split; [by destruct st|]. exists h. by rewrite bool_decide_eq_true_2.
    + split; [by destruct st|]. exists h. rewrite bool_decide_eq_false_2 by congruence.
      split_and!; [done|congruence|done|done].
    + split; [by destruct st|]. exists h. by rewrite bool_decide_eq_false_2.
  - destruct (homeserver record) as [h|] eqn:Hh; [|by destruct Hs as [-> ->]].
    destruct (stored record) as [rec|] eqn:Hr; [|by destruct Hs as [-> ->]].
    destruct Hs as [-> Hgr].
    destruct (applied_effect u record (graph s) (graph s') Hg) as (_ & _ & Hafter).
    { rewrite Hgr. by apply applied_bind. }
    rewrite Hm in Hafter. destruct Hafter as (h' & Hh' & Hsome & _).
    rewrite Hsome by done. split; [done|]. split; [done|]. exists h'. split; [congruence|done].
Qed.

(** Every record kept on an edge proves its user's publication. *)
Definition proofs_ok g : Prop :=
  ∀ u n h e rec ts, users g !! u = Some n → hosted n !! h = Some e →
    record e = Some rec → record_ts e = Some ts →
    ∃ p, verify {| packet := rec; record_timestamp := ts |} u = Some p ∧ packet_timestamp p = ts.

Context {PL : PkarrLaws}.

Lemma split_at_checked_app (k payload : string) :
  split_at_checked (String.length k) (k +:+ payload) = Some (k, payload).
Proof.
  assert (String.length (k +:+ payload) = String.length k + String.length payload)%nat as Hl.
  { pose proof (len_app k payload) as Hl. unfold len in Hl. lia. }
  unfold split_at_checked. rewrite decide_True by lia. rewrite substring_drop, (substring_all payload) by lia.
  rewrite <- (Nat.add_0_r (String.length k)) at 1. rewrite substring_app.
  replace (String.substring 0 0 payload) with "" by (by destruct payload).
  by rewrite str_nil_r.
Qed.

Lemma stored_record_verifies p rec :
  StoredRecord_try_from p = Some rec →
  verify rec (public_key p) = Some p ∧ packet_timestamp p = record_timestamp rec.
Proof.
  unfold StoredRecord_try_from, verify. case_decide; [|done]. intros [= <-]. split; [|done].
  cbn [packet]. rewrite hex_roundtrip. cbn [mbind option_bind].
  destruct (relay_payload p) as (payload & -> & Hparse).
  pose proof (split_at_checked_app (key_bytes (public_key p)) payload) as Hsplit.
  rewrite key_bytes_length in Hsplit. rewrite Hsplit. cbn [mbind option_bind].
  rewrite decide_False by auto. done.
Qed.

Lemma set_record_proof now u record0 e rec ts :
  own_record u record0 →
  record (set_record now (stored record0) e) = Some rec →
  record_ts (set_record now (stored record0) e) = Some ts →
  (record e = Some rec ∧ record_ts e = Some ts)
  ∨ ∃ p, verify {| packet := rec; record_timestamp := ts |} u = Some p ∧ packet_timestamp p = ts.
Proof.
  intros Hown. unfold set_record. simpl. destruct (stored record0) as [r|] eqn:Hr; simpl; [|auto].
  intros [= <-] [= <-]. right. destruct record0 as [|p]; [done|]. simpl in *.
  apply stored_record_verifies in Hr as [Hv Hts]. exists p. destruct Hown as [<- _], r. done.
Qed.

(** the records in the graph are proof: if every record kept on an edge verifies as a
    packet its user signed, published at the kept time, they still do after any
    resolution, under any answer of the network and any query failure. *)
Theorem kept_records_stay_proof u w s :
  proofs_ok (graph s) → proofs_ok (graph (snd (snd (resolve_user u (w, s))))).
Proof.
  intros Hg. destruct (resolve_user_applied u w s) as [->|(record0 & Hown & _ & Ha)]; [done|].
  intros v n h e rec ts Hn He Hrec Hts.
  destruct Ha as [h0 rec0 Hm Hh Hr|m Hm];
    [unfold set_user_homeserver in Hn|unfold set_user_homeserver_stale_query in Hn];
    (destruct (users (graph s) !! u) as [n0|] eqn:Hn0; [|by eapply Hg]);
    simpl in Hn; (destruct (decide (v = u)) as [->|Hne];
      [|rewrite lookup_insert_ne in Hn by done; by eapply Hg]);
    rewrite lookup_insert_eq in Hn; injection Hn as <-; simpl in He.
  - apply lookup_singleton_Some in He as [<- <-]. rewrite <- Hr in Hrec, Hts.
    destruct (set_record_proof _ u record0 _ rec ts Hown Hrec Hts) as [[Hold1 Hold2]|?]; [|done].
    destruct (hosted n0 !! h0) as [e0|] eqn:He0; [by eapply Hg|done].
  - rewrite lookup_fmap in He. destruct (hosted n0 !! h) as [e0|] eqn:He0; [|done].
    injection He as <-.
    destruct (set_record_proof _ u record0 _ rec ts Hown Hrec Hts) as [[Hold1 Hold2]|?]; [|done].
    by eapply Hg.
Qed.
End Graph_properties.

(** ** A cycle *)

Section Run_properties.
Context {W : Type} {PK : Pkarr} {RES : PkdnsHomeserverResolver W} {CL : Clock W} {SH : Shutdown W}.
Context (parse_public_key : string → option string) (ttl_ms : Z)
  (key_le : relation string) `{!RelDecision key_le}.

(** Users resolved one after the other, the shutdown signal read before each and the
    clock at most once after. *)
Inductive resolved_in_turn : list string → W * GraphSession HostingGraph → W * GraphSession HostingGraph → Prop :=
  | in_turn_nil s : resolved_in_turn [] s s
  | in_turn_cons u us s s1 s2 s3 :
      fst (lift shutdown_requested s) = false →
      snd (resolve_user u (snd (lift shutdown_requested s))) = s1 →
      s2 = s1 ∨ s2 = snd (instant_now s1) →
      resolved_in_turn us s2 s3 → resolved_in_turn (u :: us) s s3.

Lemma resolve_users_in_turn us b failed s b' failed' s' :
  resolve_users ttl_ms us b failed s = ((b', failed'), s') →
  ∃ visited rest s1, us = visited ++ rest ∧ resolved_in_turn visited s s1
    ∧ (rest = [] ∧ s' = s1 ∨ lift shutdown_requested s1 = (true, s')).
Proof.
  revert b failed s. induction us as [|u us IH]; intros b failed s; cbn [resolve_users].
  { intros [= <- <- <-]. exists [], [], s. split_and!; [done|constructor|by left]. }
  unfold bind. destruct (lift shutdown_requested s) as [stop s0] eqn:Hstop. destruct stop.
  { intros [= <- <- <-]. exists [], (u :: us), s. split_and!; [done|constructor|by right]. }
  destruct (resolve_user u s0) as [[res|e] s1] eqn:Hres.
  - destruct (record_resolution ttl_ms u res b s1) as [b1 s2] eqn:Hrec.
    intros (visited & rest & s3 & -> & Hturn & Hend)%IH.
    exists (u :: visited), rest, s3. split_and!; [done| |done].
    apply (in_turn_cons u visited s s1 s2); [by rewrite Hstop|by rewrite Hstop; simpl; rewrite Hres| |done].
    unfold record_resolution, bind, ret in Hrec.
    destruct res; try (left; congruence). right. destruct (instant_now s1). simpl. congruence.
  - intros (visited & rest & s3 & -> & Hturn & Hend)%IH.
    exists (u :: visited), rest, s3. split_and!; [done| |done].
    apply (in_turn_cons u visited s s1 s1); [by rewrite Hstop|by rewrite Hstop; simpl; rewrite Hres|by left|done].
Qed.

(** a cycle of the resolver looks up exactly the users that are due, each once: those
    the graph lists as unbound or past their TTL, without the ones waiting out an empty
    lookup, in some order of them all; it stops early only when a shutdown is seen. *)
Theorem resolver_visits_due_users_once b w s r b' s' :
  run parse_public_key ttl_ms key_le b (w, s) = ((r, b'), s') →
  match r with
  | Err e => b' = b
  | Ok _ =>
      let needing := get_users_needing_hs_resolution ttl_ms (graph s) in
      ∃ now s1 order visited rest s2,
        order ≡ₚ omap parse_public_key (fst (UnboundBackoff.retain_due needing now b))
        ∧ order = visited ++ rest ∧ resolved_in_turn visited s1 s2
        ∧ (rest = [] ∧ s' = s2 ∨ lift shutdown_requested s2 = (true, s'))
  end.
Proof.
  unfold run, bind, ret, on_graph, get_users_needing_resolution.
  pose proof (run_query_read (get_users_needing_hs_resolution ttl_ms) s) as Hq.
  destruct (run_query (reads (get_users_needing_hs_resolution ttl_ms)) s) as [[ids|e] s0];
    [|by intros [= <- <- <-]].
  destruct Hq as [_ ->]. destruct (instant_now (w, s0)) as [now s1].
  destruct (UnboundBackoff.retain_due _ now b) as [due b1] eqn:Hdue.
  destruct (resolve_users _ _ _ _ s1) as [[b2 failed] s2] eqn:Hrun. intros [= <- <- <-].
  apply resolve_users_in_turn in Hrun as (visited & rest & s3 & Horder & Hturn & Hend).
  exists now, s1, (visited ++ rest), visited, rest, s3. split_and!; [|done..].
  rewrite <- Horder, Hdue. apply bisection_order_perm.
Qed.
End Run_properties.

(** ** Witnesses

    Packets carry their key, timestamp and homeserver in the clear. *)

Module ToyPkarr.

Definition pad (k : string) : string :=
  String.substring 0 32 (k +:+ "................................").

Lemma pad_length k : String.length (pad k) = 32%nat.
Proof.
  unfold pad. assert (∀ n s, (n ≤ String.length s)%nat →
    String.length (String.substring 0 n s) = n) as H.
  { intros n s. revert n. induction s as [|c s IH]; intros [|n] Hn; simpl in *; try done; [lia|].
    by rewrite IH by lia. }
  apply H. pose proof (len_app k "................................") as Hl.
  unfold len in Hl. cbn in Hl |- *. lia.
Qed.

Definition from_payload (user payload : string) : option (string * Z * string) :=
  match Bits.read payload with
  | Some p => if decide (fst (fst p) = user) then Some p else None
  | None => None
  end.

#[export] Instance pkarr : Pkarr := {
  SignedPacket := string * Z * string;
  public_key p := fst (fst p);
  as_bytes p := pad (fst (fst p)) +:+ Bits.write p;
  packet_timestamp p := snd (fst p);
  resource_records p _ := [OtherRData; HTTPS (snd p)];
  from_relay_payload := from_payload;
  key_bytes := pad;
  try_from_z32 := Some;
  hex_encode := id;
  hex_decode := Some;
}.

#[export] Instance laws : PkarrLaws.
Proof.
  split; [apply pad_length| |done]. intros p. exists (Bits.write p). split; [done|].
  simpl. unfold from_payload. rewrite Bits.read_write. by rewrite decide_True.
Qed.

(** Key "u" publishes "hs2"; for any other key the network answers with u's packet. *)
#[export] Instance network : PkdnsHomeserverResolver unit := {|
  resolve_record := λ _, ret (Ok (Published (("u", 7, "hs2") : SignedPacket)));
|}.

Definition node (edges : gmap string HostedBy) : UserNode :=
  {| deleted := None; hosted := edges |}.

Definition bound_to (h : string) : UserNode := node {[h := new_edge]}.

Definition session (us : gmap string UserNode) : GraphSession HostingGraph :=
  {| graph := {| users := us; homeservers := ∅; timestamp := 1000 |}; graph_trips := [] |}.

#[export] Instance clock : Clock unit := {
  DateTime := Z; utc_now := ret 0; timestamp_millis := id; timestamp_nanos_opt := Some;
  instant_now := ret 0;
}.
#[export] Instance shutdown : Shutdown unit := {| shutdown_requested := ret false |}.

End ToyPkarr.

Section Witnesses.
Import ToyPkarr.

Definition u_bound : GraphSession HostingGraph := session {["u" := bound_to "hs1"]}.

Lemma u_bound_single : single_homed (graph u_bound).
Proof.
  intros u n Hn. change (({["u" := bound_to "hs1"]} : gmap string UserNode) !! u = Some n) in Hn.
  apply lookup_singleton_Some in Hn as [<- <-]. cbn [hosted bound_to node].
  by rewrite map_size_singleton.
Qed.

Lemma resolution_never_rebinds_witness :
  let s := session {["u" := bound_to "hs1"]} in
  homeserver_of (graph (snd (snd (resolve_user "u" (tt, s))))) "u" = Some "hs1".
Proof.
  apply (resolution_never_rebinds "u" tt u_bound u_bound_single). vm_compute. reflexivity.
Defined.

Lemma resolution_reports_the_mapping_witness :
  ∃ s', resolve_user "u" (tt, u_bound) = (Ok (Diverged HsChanged false), (tt, s'))
    ∧ get_user_homeserver_query "u" (graph s') = Some {| hs_id := "hs1"; stale := true |}.
Proof.
  destruct (resolve_user "u" (tt, u_bound)) as [[res|e] [[] s']] eqn:Hrun; [|by vm_compute in Hrun].
  assert (res = Diverged HsChanged false) as -> by (vm_compute in Hrun; congruence).
  exists s'. split; [done|].
  destruct (resolution_reports_the_mapping "u" tt u_bound _ _ _ u_bound_single
    (ex_intro _ _ eq_refl) Hrun) as (_ & h & Hbefore & _ & _ & Hafter).
  vm_compute in Hbefore. injection Hbefore as <-. exact Hafter.
Defined.

Lemma kept_records_stay_proof_witness :
  proofs_ok (graph (snd (snd (resolve_user "u" (tt, u_bound))))).
Proof.
  apply (kept_records_stay_proof "u" tt u_bound).
  intros u n h e rec ts Hn He. change (({["u" := bound_to "hs1"]} : gmap string UserNode) !! u = Some n) in Hn.
  apply lookup_singleton_Some in Hn as [<- <-]. cbn [hosted bound_to node] in He.
  apply lookup_singleton_Some in He as [<- <-]. discriminate.
Defined.

Lemma resolver_visits_due_users_once_witness :
  ∃ now s1 order visited rest s2,
    order ≡ₚ omap Some (fst (UnboundBackoff.retain_due ["u"] now ∅))
    ∧ order = visited ++ rest ∧ resolved_in_turn (W := unit) visited s1 s2.
Proof.
  destruct (run (W := unit) Some 10 str_le ∅ (tt, u_bound)) as [[r b'] s'] eqn:Hrun.
  pose proof (resolver_visits_due_users_once Some 10 str_le ∅ tt u_bound r b' s' Hrun) as H.
  assert (r = Ok tt) as -> by (vm_compute in Hrun; congruence).
  destruct H as (now & s1 & order & visited & rest & s2 & Ho & Hv & Ht & _).
  exists now, s1, order, visited, rest, s2. split; [exact Ho|]. split; [exact Hv|exact Ht].
Defined.
End Witnesses.
