(* ===== verification/JobLock.v ===== *)
(** * Job runs: the cross-process run lock

    nexus-common/src/db/kv/lock.rs (the Redis lease), nexusd/src/jobs/lock.rs
    ([RunLock], [acquire], [LockGuard]), jobs/runner.rs ([run_once_locked]) and
    jobs/scheduler.rs ([run_locked]). First the operations as programs, then what
    several processes do with them, interleaved. Times are milliseconds. *)

From S2P Require Import Prelude Errors Redis World.
Local Open Scope Z_scope.

(** ** The lease on Redis *)

(** The server: its clock, and the commands on string keys with an expiry. *)
Class LockServer (D : Type) := {
  server_now : D → Z;
  GET : string → prog D (option string);
  SET_NX_EX : string → string → Z → prog D (option string);
  DEL : string → prog D Z;
  (** What the laws speak of: a key's value and the time it expires. *)
  lease : D → string → option (string * Z);
}.

Definition live {D} `{LockServer D} (d : D) (k : string) : option string :=
  match lease d k with
  | Some (v, expires) => if decide (server_now d < expires) then Some v else None
  | None => None
  end.

Class LockServerLaws (D : Type) `{LockServer D} := {
  get_live k d : GET k d = (live d k, d);
  set_nx_now k v ttl d : server_now (snd (SET_NX_EX k v ttl d)) = server_now d;
  set_nx_spec k v ttl d :
    match live d k with
    | Some _ => fst (SET_NX_EX k v ttl d) = None ∧ ∀ k', lease (snd (SET_NX_EX k v ttl d)) k' = lease d k'
    | None => fst (SET_NX_EX k v ttl d) = Some "OK"
        ∧ ∀ k', lease (snd (SET_NX_EX k v ttl d)) k'
               = if decide (k' = k) then Some (v, server_now d + 1000 * ttl) else lease d k'
    end;
  del_now k d : server_now (snd (DEL k d)) = server_now d;
  del_lease k d k' : lease (snd (DEL k d)) k' = if decide (k' = k) then None else lease d k';
}.

Section Lease.
Context {D : Type} `{LockServer D}.
Local Open Scope nexus_scope.

(** Compare and delete. *)
Definition RELEASE (key token : string) : prog D Z :=
  let* value := GET key in
  if decide (value = Some token) then DEL key else ret 0.

Definition try_acquire_lock (key token : string) (ttl_secs : Z) :
    prog (Session D) (result bool Kv.RedisError) :=
  let? _ := get_redis_conn in
  let? acquired := query (SET_NX_EX key token ttl_secs) in
  ret (Ok (bool_decide (is_Some acquired))).

Definition release_lock (key token : string) : prog (Session D) (result unit Kv.RedisError) :=
  let? _ := get_redis_conn in
  let? _ := query (RELEASE key token) in
  ret (Ok tt).
End Lease.

(** ** The run lock *)

Definition MAX_RUN : Z := 3600 * 1000.
Definition LEASE_MARGIN : Z := 60 * 1000.
Definition LOCK_IO_TIMEOUT : Z := 5 * 1000.
Definition LOCK_TTL_SECS : Z := MAX_RUN / 1000 + LEASE_MARGIN / 1000.

(** The scheduler's re-check interval. *)
Definition MAX_SLEEP : Z := 30 * 1000.

Definition key (job : string) : string := "lock:job:" +:+ job.

(** [RedisRunLock]: the process id, the start time and the acquisitions so far. *)
Record RedisRunLock := { pid : N; seed : N; counter : N }.

Definition new_token (l : RedisRunLock) : string :=
  pretty (pid l) +:+ "-" +:+ pretty (seed l) +:+ "-" +:+ pretty (counter l).

Abbreviation LockError := Kv.RedisError.

(** The trait: a call that does not end within [LOCK_IO_TIMEOUT] is [None]. *)
Class RunLock (W : Type) := {
  fresh_token : prog W string;
  lock_acquire : string → string → prog W (option (result bool LockError));
  lock_unlock : string → string → prog W (option (result unit LockError));
}.

(** A job's run, given to [select!] with its deadline: how the race ends. *)
Inductive RunEnd := Finished (r : result unit string) | ShutDown | DeadlinePassed.

Inductive ReleaseOutcome := Released | NotHeld | Failed | TimedOut.

(** [LockGuard]: the token it still has to release. *)
Record LockGuard := { guard_job : string; token : option string }.

Inductive Acquired :=
  | Taken (guard : LockGuard)
  | Held
  | AcquireFailed (error : LockError) (released : bool)
  | AcquireTimedOut (released : bool).

Record CronParseError := { expr : string; reason : string }.

Inductive JobError :=
  | AlreadyRunning (job : string)
  | LockFailed (e : LockError)
  | UnknownJobConfig (unknown : list string) (available : string)
  | UnknownJobName (name available : string)
  | InvalidCron (job : string) (source : CronParseError)
  | Stack (e : string)
  | LockTimedOut (job : string)
  | RunFailed (job source : string)
  | RunTimedOut (job : string) (after : Z).

Section RunLocked.
Context {W : Type} {RL : RunLock W}.
Local Open Scope nexus_scope.

Definition release_as (guard : LockGuard) : prog W ReleaseOutcome :=
  match token guard with
  | None => ret NotHeld
  | Some token =>
      let* outcome := lock_unlock (guard_job guard) token in
      ret match outcome with
          | Some (Ok _) => Released
          | Some (Err _) => Failed
          | None => TimedOut
          end
  end.

Definition is_released (o : ReleaseOutcome) : bool :=
  match o with Released => true | _ => false end.

Definition acquire (job : string) : prog W Acquired :=
  let* token := fresh_token in
  let guard := {| guard_job := job; token := Some token |} in
  let* outcome := lock_acquire job token in
  match outcome with
  | Some (Ok true) => ret (Taken guard)
  | Some (Ok false) => ret Held
  | Some (Err error) =>
      let* released := release_as guard in
      ret (AcquireFailed error (is_released released))
  | None =>
      let* released := release_as guard in
      ret (AcquireTimedOut (is_released released))
  end.

(** [Scheduler::run_locked]: the outcome counted, [None] when the run was skipped. *)
Definition run_locked (shutdown : prog W bool) (run : prog W RunEnd) (name : string) :
    prog W (option RunEnd) :=
  let* stop := shutdown in
  if (stop : bool) then ret None
  else
    let* acquired := acquire name in
    match acquired with
    | Taken guard =>
        let* outcome := run in
        let* _ := release_as guard in
        ret (Some outcome)
    | Held | AcquireFailed _ _ | AcquireTimedOut _ => ret None
    end.

(** [run_once_locked]: on demand, without the shutdown. *)
Definition run_once_locked (run : prog W RunEnd) (name : string) : prog W (result unit JobError) :=
  let* acquired := acquire name in
  match acquired with
  | Held => ret (Err (AlreadyRunning name))
  | AcquireFailed error _ => ret (Err (LockFailed error))
  | AcquireTimedOut _ => ret (Err (LockTimedOut name))
  | Taken guard =>
      let* outcome := run in
      let* _ := release_as guard in
      ret match outcome with
          | Finished (Ok _) => Ok tt
          | Finished (Err source) => Err (RunFailed name source)
          | ShutDown | DeadlinePassed => Err (RunTimedOut name MAX_RUN)
          end
  end.
End RunLocked.

(** [RedisRunLock]'s two calls. *)
Definition redis_acquire {D} `{LockServer D} (job token : string) :
    prog (Session D) (result bool LockError) :=
  try_acquire_lock (key job) token LOCK_TTL_SECS.

Definition redis_unlock {D} `{LockServer D} (job token : string) :
    prog (Session D) (result unit LockError) :=
  release_lock (key job) token.

(** ** Processes around one lock

    Every process goes through the phases of [run_locked]: the acquire is sent and
    answered, the job runs, the release is sent. Requests reach the server at any later
    time, or never, also after their sender gave up on them or died; time passes in
    between. *)

Inductive Phase :=
  | Waiting (tok : string) (sent : Z)
  | Running (tok : string) (since : Z).

Record System (D : Type) := {
  server : D;
  phases : gmap nat Phase;
  acquires : gset string;
  answers : gmap string bool;
  releases : gset string;
  issued : gset string;
}.
Arguments server {D} _.
Arguments phases {D} _.
Arguments acquires {D} _.
Arguments answers {D} _.
Arguments releases {D} _.
Arguments issued {D} _.

Section Protocol.
Context {D : Type} `{LockServerLaws D} (job : string).
Implicit Types (s : System D) (d : D).

Definition now s : Z := server_now (server s).

(** Time passes on the server; leases stay as they are. *)
Definition later d d' : Prop :=
  server_now d ≤ server_now d' ∧ ∀ k, lease d' k = lease d k.

(** A run is abandoned at its deadline, noticed at the next re-check. *)
Definition run_cap : Z := MAX_RUN + MAX_SLEEP.

Inductive step s : System D → Prop :=
  | step_time d' :
      later (server s) d' →
      (∀ p tok since, phases s !! p = Some (Running tok since) → server_now d' ≤ since + run_cap) →
      step s {| server := d'; phases := phases s; acquires := acquires s; answers := answers s;
                releases := releases s; issued := issued s |}
  | step_send p tok :
      phases s !! p = None → tok ∉ issued s →
      step s {| server := server s; phases := <[p := Waiting tok (now s)]> (phases s);
                acquires := {[tok]} ∪ acquires s; answers := answers s;
                releases := releases s; issued := {[tok]} ∪ issued s |}
  | step_serve_set tok r d' :
      tok ∈ acquires s → SET_NX_EX (key job) tok LOCK_TTL_SECS (server s) = (r, d') →
      step s {| server := d'; phases := phases s; acquires := acquires s ∖ {[tok]};
                answers := <[tok := bool_decide (is_Some r)]> (answers s);
                releases := releases s; issued := issued s |}
  | step_taken p tok sent :
      phases s !! p = Some (Waiting tok sent) → answers s !! tok = Some true →
      now s ≤ sent + LOCK_IO_TIMEOUT →
      step s {| server := server s; phases := <[p := Running tok (now s)]> (phases s);
                acquires := acquires s; answers := answers s;
                releases := releases s; issued := issued s |}
  | step_held p tok sent :
      phases s !! p = Some (Waiting tok sent) → answers s !! tok = Some false →
      step s {| server := server s; phases := delete p (phases s);
                acquires := acquires s; answers := answers s;
                releases := releases s; issued := issued s |}
  (** An error or a timeout of the acquire, or the end of a run: the token is released. *)
  | step_release p ph tok :
      phases s !! p = Some ph → tok = match ph with Waiting tok _ | Running tok _ => tok end →
      step s {| server := server s; phases := delete p (phases s);
                acquires := acquires s; answers := answers s;
                releases := {[tok]} ∪ releases s; issued := issued s |}
  | step_crash p :
      step s {| server := server s; phases := delete p (phases s);
                acquires := acquires s; answers := answers s;
                releases := releases s; issued := issued s |}
  | step_serve_release tok n d' :
      tok ∈ releases s → RELEASE (key job) tok (server s) = (n, d') →
      step s {| server := d'; phases := phases s; acquires := acquires s; answers := answers s;
                releases := releases s ∖ {[tok]}; issued := issued s |}
  | step_lost acquires' releases' :
      acquires' ⊆ acquires s → releases' ⊆ releases s →
      step s {| server := server s; phases := phases s; acquires := acquires'; answers := answers s;
                releases := releases'; issued := issued s |}.

Definition start d : System D :=
  {| server := d; phases := ∅; acquires := ∅; answers := ∅; releases := ∅; issued := ∅ |}.

Definition tok_of (ph : Phase) : string := match ph with Waiting tok _ | Running tok _ => tok end.

(** [tok] keeps the lease until [t], or [t] has come. *)
Definition guarded d (tok : string) (t : Z) : Prop :=
  t ≤ server_now d ∨ ∃ expires, lease d (key job) = Some (tok, expires) ∧ t ≤ expires.

Definition lease_ms : Z := 1000 * LOCK_TTL_SECS.

(** The acquire's deadline, the run's and one re-check fit in the lease. *)
Lemma lease_outlasts_run : LOCK_IO_TIMEOUT + run_cap + 1 ≤ lease_ms.
Proof. by vm_compute. Qed.

Lemma run_takes_time : 0 ≤ run_cap.
Proof. by vm_compute. Qed.

Record invariant s : Prop := {
  tokens_distinct p q ph ph' :
    phases s !! p = Some ph → phases s !! q = Some ph' → tok_of ph = tok_of ph' → p = q;
  tokens_held p ph : phases s !! p = Some ph → tok_of ph ∈ issued s ∧ tok_of ph ∉ releases s;
  acquires_issued tok : tok ∈ acquires s → tok ∈ issued s ∧ answers s !! tok = None;
  answers_issued tok b : answers s !! tok = Some b → tok ∈ issued s;
  releases_issued tok : tok ∈ releases s → tok ∈ issued s;
  waiting_ok p tok sent : phases s !! p = Some (Waiting tok sent) →
    sent ≤ now s ∧ (answers s !! tok = Some true → guarded (server s) tok (sent + lease_ms));
  running_ok p tok since : phases s !! p = Some (Running tok since) →
    now s ≤ since + run_cap ∧ (tok ∉ acquires s) ∧ guarded (server s) tok (since + run_cap + 1);
}.

Lemma guarded_later d d' tok t : later d d' → guarded d tok t → guarded d' tok t.
Proof. intros [Hn Hl] [?|(e & He & ?)]; [left; lia|right]. exists e. by rewrite Hl. Qed.

Lemma guarded_set d d' r tok tok' t :
  SET_NX_EX (key job) tok' LOCK_TTL_SECS d = (r, d') → guarded d tok t → guarded d' tok t.
Proof.
  intros Hset Hg. pose proof (set_nx_spec (key job) tok' LOCK_TTL_SECS d) as Hs.
  pose proof (set_nx_now (key job) tok' LOCK_TTL_SECS d) as Hn. rewrite Hset in Hs, Hn. simpl in *.
  destruct Hg as [?|(e & He & ?)]; [left; lia|].
  unfold live in Hs. rewrite He in Hs. case_decide.
  - right. exists e. destruct Hs as [_ Hs]. by rewrite Hs.
  - left. lia.
Qed.

Lemma guarded_granted d d' r tok :
  SET_NX_EX (key job) tok LOCK_TTL_SECS d = (r, d') → is_Some r →
  guarded d' tok (server_now d + lease_ms) ∧ server_now d' = server_now d.
Proof.
  intros Hset Hr. pose proof (set_nx_spec (key job) tok LOCK_TTL_SECS d) as Hs.
  pose proof (set_nx_now (key job) tok LOCK_TTL_SECS d) as Hn. rewrite Hset in Hs, Hn. simpl in *.
  split; [|done]. destruct (live d (key job)); [destruct Hs as [-> _]; by destruct Hr|].
  right. eexists. destruct Hs as [_ Hs]. rewrite Hs, decide_True by done. done.
Qed.

Lemma guarded_release d d' n tok tok' t :
  RELEASE (key job) tok' d = (n, d') → tok ≠ tok' → guarded d tok t → guarded d' tok t.
Proof.
  unfold RELEASE, bind, ret. rewrite get_live. intros Hrel Hne Hg. case_decide as Hlive.
  - pose proof (del_now (key job) d) as Hn. rewrite Hrel in Hn. simpl in Hn.
    left. destruct Hg as [?|(e & He & ?)]; [lia|]. unfold live in Hlive. rewrite He in Hlive.
    case_decide; [congruence|done].
  - by injection Hrel as _ <-.
Qed.

Lemma release_now d d' n tok : RELEASE (key job) tok d = (n, d') → server_now d' = server_now d.
Proof.
  unfold RELEASE, bind, ret. rewrite get_live. intros Hrel. case_decide.
  - pose proof (del_now (key job) d) as Hn. by rewrite Hrel in Hn.
  - by injection Hrel as _ <-.
Qed.
Lemma start_invariant d : invariant (start d).
Proof. split; simpl; try set_solver; intros *; rewrite ?lookup_empty; done. Qed.

(** Dropping a process, or its requests, keeps everything about the others. *)
Lemma invariant_forget s phs acquires' rels' :
  invariant s → phs ⊆ phases s → acquires' ⊆ acquires s →
  (∀ tok, tok ∈ rels' → tok ∈ issued s
     ∧ ∀ p ph, phs !! p = Some ph → tok_of ph ≠ tok) →
  invariant {| server := server s; phases := phs; acquires := acquires'; answers := answers s;
               releases := rels'; issued := issued s |}.
Proof.
  intros [Hd Hh Hs Ha Hr Hw Hrun] Hphs Hsets Hrels.
  assert (∀ p ph, phs !! p = Some ph → phases s !! p = Some ph) as Hin
    by (intros p ph Hp; by eapply lookup_weaken).
  split; simpl.
  - intros p q ph ph' Hp Hq. apply Hd; by apply Hin.
  - intros p ph Hp. split; [by apply (Hh p ph), Hin|].
    intros Hrel. destruct (Hrels _ Hrel) as [_ Hne]. by apply (Hne p ph).
  - intros tok Htok. by apply Hs, Hsets.
  - done.
  - intros tok Htok. by apply Hrels.
  - intros p tok sent Hp. by apply (Hw p), Hin.
  - intros p tok since Hp. destruct (Hrun p tok since (Hin _ _ Hp)) as (? & ? & ?).
    split_and!; [done|set_solver|done].
Qed.

Lemma step_invariant s s' : invariant s → step s s' → invariant s'.
Proof.
  intros HI Hstep. pose proof HI as [Hd Hh Hs Ha Hr Hw Hrun].
  destruct Hstep as [d' Hlater Hcap|p tok Hp Hfresh|tok r d' Htok Hset|p tok sent Hp Hans Hnow
    |p tok sent Hp Hans|p ph tok Hp Htok|p|tok n d' Htok Hrel|acquires' rels' Hsets Hrels].
  - (* time *) split; simpl; try done.
    + intros p tok sent Hp. destruct (Hw p tok sent Hp) as [Hsent Hg]. split.
      * unfold now in *. simpl. destruct Hlater. lia.
      * intros Hans. by eapply guarded_later, Hg.
    + intros p tok since Hp. destruct (Hrun p tok since Hp) as (_ & ? & ?).
      split_and!; [by eapply Hcap|done|by eapply guarded_later].
  - (* send *) assert (∀ q ph, phases s !! q = Some ph → tok_of ph ≠ tok) as Hne.
    { intros q ph Hq <-. by destruct (Hh q ph Hq). }
    assert (answers s !! tok = None) as Hnone.
    { destruct (answers s !! tok) eqn:Hans; [|done]. by apply Ha in Hans. }
    split; simpl.
    + intros q1 q2 ph1 ph2 H1%lookup_insert_Some H2%lookup_insert_Some Heq.
      destruct H1 as [[<- <-]|[Hn1 H1]], H2 as [[<- <-]|[Hn2 H2]]; simpl in *; [done| | |].
      * by destruct (Hne q2 ph2).
      * by destruct (Hne q1 ph1).
      * by eapply Hd.
    + intros q ph. rewrite lookup_insert. case_decide; [intros [= <-]; simpl|].
      * split; [set_solver|]. intros Hrel. by apply Hr in Hrel.
      * intros Hq. destruct (Hh q ph Hq). set_solver.
    + intros tok' [->%elem_of_singleton|Htok]%elem_of_union; [set_solver|].
      destruct (Hs tok' Htok). set_solver.
    + intros tok' b Hb. apply Ha in Hb. set_solver.
    + intros tok' Hrel. apply Hr in Hrel. set_solver.
    + intros q tok' sent. rewrite lookup_insert. case_decide; [|apply Hw].
      intros [= <- <-]. split; [done|]. by rewrite Hnone.
    + intros q tok' since. rewrite lookup_insert. case_decide; [done|]. intros Hq.
      destruct (Hrun q tok' since Hq) as (? & ? & ?). split_and!; [done| |done].
      pose proof (Hne _ _ Hq). simpl in *. set_solver.
  - (* the server answers an acquire *)
    pose proof (set_nx_now (key job) tok LOCK_TTL_SECS (server s)) as Hn. rewrite Hset in Hn.
    simpl in Hn. destruct (Hs tok Htok) as [Hiss Hnone].
    split; simpl; try done.
    + intros tok' [Htok' Hne]%elem_of_difference. destruct (Hs tok' Htok'). split; [done|].
      rewrite lookup_insert_ne by set_solver. done.
    + intros tok' b. rewrite lookup_insert. case_decide; [by intros _; subst|apply Ha].
    + intros p tok' sent Hp. destruct (Hw p tok' sent Hp) as [Hsent Hg]. unfold now in *. simpl.
      rewrite Hn. split; [done|]. rewrite lookup_insert. case_decide as Heq.
      * subst tok'. intros [= Hr']. apply bool_decide_eq_true in Hr'.
        destruct (guarded_granted _ _ _ _ Hset Hr') as [[Hg'|(e & He & Hle)] _]; [left; lia|].
        right. exists e. split; [done|lia].
      * intros Hans. by eapply guarded_set, Hg.
    + intros p tok' since Hp. destruct (Hrun p tok' since Hp) as (Hle & Hni & Hg).
      unfold now in *. simpl. rewrite Hn. split_and!; [done|set_solver|by eapply guarded_set].
  - (* taken *) destruct (Hw p tok sent Hp) as [Hsent Hg]. specialize (Hg Hans).
    assert (∀ q ph, <[p:=Running tok (now s)]> (phases s) !! q = Some ph →
      ∃ ph', phases s !! q = Some ph' ∧ tok_of ph' = tok_of ph) as Hsame.
    { intros q ph. rewrite lookup_insert. case_decide; [intros [= <-]; subst; eauto|eauto]. }
    split; simpl; try done.
    + intros q1 q2 ph1 ph2 H1 H2 Heq. destruct (Hsame q1 ph1 H1) as (? & ? & ?),
        (Hsame q2 ph2 H2) as (? & ? & ?). eapply Hd; [done..|congruence].
    + intros q ph Hq. destruct (Hsame q ph Hq) as (ph' & Hq' & <-). by eapply Hh.
    + intros q tok' sent'. rewrite lookup_insert. case_decide; [done|apply Hw].
    + intros q tok' since. rewrite lookup_insert. case_decide; [|apply Hrun].
      intros [= <- <-]. split_and!.
      * pose proof run_takes_time. unfold now in *. simpl. lia.
      * intros Htok. destruct (Hs tok Htok). congruence.
      * pose proof lease_outlasts_run. destruct Hg as [Hg|(e & He & Hle)];
          [unfold now in *; pose proof run_takes_time; simpl in *; lia|].
        right. exists e. split; [done|lia].
  - (* held *) apply invariant_forget; [done|apply delete_subseteq|done|].
    intros tok' Hrel. split; [by apply Hr|]. intros q ph Hq%lookup_delete_Some <-.
    destruct (Hh q ph) as [_ Hno]; [apply Hq|done].
  - (* release *) apply invariant_forget; [done|apply delete_subseteq|done|].
    intros tok' Hrel. assert (tok_of ph = tok) as <- by (by destruct ph).
    apply elem_of_union in Hrel as [->%elem_of_singleton|Hrel].
    + split; [by apply (Hh p)|]. intros q ph' [Hne Hq]%lookup_delete_Some Heq.
      apply Hne. by eapply Hd.
    + split; [by apply Hr|]. intros q ph' Hq%lookup_delete_Some <-.
      destruct (Hh q ph') as [_ Hno]; [apply Hq|done].
  - (* crash *) apply invariant_forget; [done|apply delete_subseteq|done|].
    intros tok' Hrel. split; [by apply Hr|]. intros q ph Hq%lookup_delete_Some <-.
    destruct (Hh q ph) as [_ Hno]; [apply Hq|done].
  - (* the server answers a release *) pose proof (release_now _ _ _ _ Hrel) as Hn.
    assert (∀ q ph, phases s !! q = Some ph → tok_of ph ≠ tok) as Hne.
    { intros q ph Hq <-. by destruct (Hh q ph Hq). }
    split; simpl; try done.
    + intros q ph Hq. destruct (Hh q ph Hq). set_solver.
    + intros tok' Hrel'. apply Hr. set_solver.
    + intros q tok' sent Hq. destruct (Hw q tok' sent Hq) as [Hsent Hg]. unfold now in *. simpl.
      rewrite Hn. split; [done|]. intros Hans. eapply guarded_release; [done| |by apply Hg].
      by apply (Hne _ _ Hq).
    + intros q tok' since Hq. destruct (Hrun q tok' since Hq) as (? & ? & ?). unfold now in *.
      simpl. rewrite Hn. split_and!; [done|done|]. eapply guarded_release; [done| |done].
      by apply (Hne _ _ Hq).
  - (* lost *) apply invariant_forget; [done|done|done|].
    intros tok Htok. apply Hrels in Htok. split; [by apply Hr|].
    intros q ph Hq <-. destruct (Hh q ph Hq). done.
Qed.

Lemma reachable_invariant d s : rtc step (start d) s → invariant s.
Proof.
  intros Hs. assert (∀ s0, invariant s0 → rtc step s0 s → invariant s) as Hall.
  { clear Hs. intros s0 Hinv Hs. induction Hs; [done|]. eauto using step_invariant. }
  eapply Hall; [apply start_invariant|done].
Qed.

(** C1: two processes never run the same job at once: however the runs, their acquires,
    answers, releases and crashes interleave, whichever requests are lost or reach the
    server late, and whatever the server's state at the start, at most one process is
    between a granted acquire and the end of its run. *)
Theorem runs_never_overlap d s p q tok tok' since since' :
  rtc step (start d) s →
  phases s !! p = Some (Running tok since) → phases s !! q = Some (Running tok' since') → p = q.
Proof.
  intros [Hd _ _ _ _ _ Hrun]%reachable_invariant Hp Hq.
  destruct (Hrun p tok since Hp) as (Hle & _ & Hg), (Hrun q tok' since' Hq) as (Hle' & _ & Hg').
  unfold now in *. destruct Hg as [?|(e & He & _)]; [lia|]. destruct Hg' as [?|(e' & He' & _)]; [lia|].
  eapply Hd; [done..|]. simpl. congruence.
Qed.
End Protocol.

(** What a call of the code does to the server is a served request, or nothing. *)
Section Calls.
Context {D : Type} `{LockServerLaws D}.

Lemma redis_acquire_serves job token (s : Session D) :
  let '(r, s') := redis_acquire job token s in
  let served := SET_NX_EX (key job) token LOCK_TTL_SECS (db s) in
  match r with
  | Ok granted => db s' = snd served ∧ granted = bool_decide (is_Some (fst served))
  | Err _ => db s' = db s ∨ db s' = snd served
  end.
Proof.
  assert (yields (redis_acquire job token) s
    (λ granted s', db s' = snd (SET_NX_EX (key job) token LOCK_TTL_SECS (db s))
       ∧ granted = bool_decide (is_Some (fst (SET_NX_EX (key job) token LOCK_TTL_SECS (db s)))))
    (λ _ s', db s' = db s ∨ db s' = snd (SET_NX_EX (key job) token LOCK_TTL_SECS (db s)))) as Hy.
  { unfold redis_acquire, try_acquire_lock.
    apply yields_ebind, yields_conn; [intros s1 Hs1|intros e s1 Hs1; by left].
    apply yields_ebind, yields_query; rewrite Hs1; [|done].
    intros s2 Hs2. by apply yields_ret. }
  unfold yields in Hy. by destruct (redis_acquire job token s) as [[granted|e] s'].
Qed.

Lemma redis_unlock_serves job token (s : Session D) :
  let '(r, s') := redis_unlock job token s in
  let served := RELEASE (key job) token (db s) in
  match r with
  | Ok _ => db s' = snd served
  | Err _ => db s' = db s ∨ db s' = snd served
  end.
Proof.
  assert (yields (redis_unlock job token) s
    (λ _ s', db s' = snd (RELEASE (key job) token (db s)))
    (λ _ s', db s' = db s ∨ db s' = snd (RELEASE (key job) token (db s)))) as Hy.
  { unfold redis_unlock, release_lock.
    apply yields_ebind, yields_conn; [intros s1 Hs1|intros e s1 Hs1; by left].
    apply yields_ebind, yields_query; rewrite Hs1; [|done].
    intros s2 Hs2. by apply yields_ret. }
  unfold yields in Hy. by destruct (redis_unlock job token s) as [[granted|e] s'].
Qed.

(** A run that was skipped took nothing with it, and one that ran gave its token back. *)
Context {W : Type} {RL : RunLock W}.

Lemma run_locked_brackets (shutdown : prog W bool) (run : prog W RunEnd) name w :
  match run_locked shutdown run name w with
  | (Some outcome, w') =>
      ∃ tok w1 w2 w3, snd (shutdown w) = w1 ∧ fresh_token w1 = (tok, w2)
        ∧ lock_acquire name tok w2 = (Some (Ok true), w3)
        ∧ fst (run w3) = outcome ∧ w' = snd (lock_unlock name tok (snd (run w3)))
  | (None, w') => True
  end.
Proof.
  unfold run_locked, acquire, release_as, bind, ret. destruct (shutdown w) as [[] w1]; [done|].
  destruct (fresh_token w1) as [tok w2] eqn:Htok.
  destruct (lock_acquire name tok w2) as [[[[]|e]|] w3] eqn:Hacq; cbn; try done;
    try (by destruct (lock_unlock name tok w3)).
  destruct (run w3) as [outcome w4] eqn:Hrun. cbn.
  destruct (lock_unlock name tok w4) as [o w5] eqn:Hun. cbn.
  exists tok, w1, w2, w3. rewrite Hrun. cbn. by rewrite Hun.
Qed.
End Calls.

(** ** Tokens are told apart *)

Definition dash : Ascii.ascii := Ascii.ascii_of_N 45.

Lemma digits_then_dash (a b c d : string) :
  dash ∉ String.list_ascii_of_string a → dash ∉ String.list_ascii_of_string b →
  a +:+ String dash c = b +:+ String dash d → a = b ∧ c = d.
Proof.
  revert b. induction a as [|x a IH]; intros b Ha Hb.
  - destruct b as [|y b]; [by intros [= <-]|]. rewrite str_cons. intros [= <- _].
    exfalso. apply Hb. by left.
  - destruct b as [|y b]; rewrite ?str_cons.
    + intros [= -> _]. exfalso. apply Ha. by left.
    + intros [= <- Heq]. simpl in *. rewrite not_elem_of_cons in Ha. rewrite not_elem_of_cons in Hb.
      destruct (IH b) as [-> ->]; [tauto..|done|done].
Qed.

Lemma pretty_no_dash (n : N) : dash ∉ String.list_ascii_of_string (pretty n).
Proof.
  assert (∀ m, pretty_N_char m ≠ dash) as Hchar.
  { intros m. unfold pretty_N_char. by repeat case_match. }
  assert (∀ x s, dash ∉ String.list_ascii_of_string s →
    dash ∉ String.list_ascii_of_string (pretty_N_go x s)) as Hgo.
  { intros x. induction (N.lt_wf_0 x) as [x _ IH]; intros s Hs.
    destruct (decide (0 < x)%N) as [Hx|Hx]; [|by assert (x = 0)%N as -> by lia].
    rewrite pretty_N_go_step by done. apply IH; [by apply N.div_lt|].
    simpl. rewrite not_elem_of_cons. split; [|done]. intros Heq. by eapply Hchar. }
  unfold pretty, pretty_N. case_decide; [|by apply Hgo, not_elem_of_nil].
  simpl. rewrite not_elem_of_cons. split; [done|apply not_elem_of_nil].
Qed.

(** two acquisitions never share a token: tokens of different processes (by id and
    start time) or of different acquisitions of one process are different strings, so
    a release never frees another run's lease. *)
Theorem tokens_unique l l' : new_token l = new_token l' → l = l'.
Proof.
  unfold new_token. destruct l as [p s c], l' as [p' s' c']. simpl.
  change ("-" +:+ ?x) with (String dash x).
  intros [Hp Hrest]%digits_then_dash; [|apply pretty_no_dash..].
  change ("-" +:+ ?x) with (String dash x) in Hrest.
  apply digits_then_dash in Hrest as [Hs Hc]; [|apply pretty_no_dash..].
  apply (inj pretty) in Hp as ->. apply (inj pretty) in Hs as ->. by apply (inj pretty) in Hc as ->.
Qed.

(** ** Witnesses *)

Module MemLocks.

Record t := { time : Z; entries : gmap string (string * Z) }.

Definition live_entry (k : string) (d : t) : option string :=
  match entries d !! k with
  | Some (v, expires) => if decide (time d < expires) then Some v else None
  | None => None
  end.

#[export] Instance mem_server : LockServer t := {
  server_now := time;
  GET k := λ d, (live_entry k d, d);
  SET_NX_EX k v ttl := λ d,
    match live_entry k d with
    | Some _ => (None, d)
    | None => (Some "OK", {| time := time d;
                             entries := <[k := (v, time d + 1000 * ttl)]> (entries d) |})
    end;
  DEL k := λ d, (1, {| time := time d; entries := delete k (entries d) |});
  lease d k := entries d !! k;
}.

#[export] Instance laws : LockServerLaws t.
Proof.
  split; simpl.
  - done.
  - intros k v ttl d. by destruct (live_entry k d).
  - intros k v ttl d. change (live d k) with (live_entry k d).
    destruct (live_entry k d); simpl; (split; [done|]); intros k'; [done|].
    rewrite lookup_insert. repeat case_decide; congruence.
  - done.
  - intros k d k'. rewrite lookup_delete. repeat case_decide; congruence.
Qed.

Definition empty : t := {| time := 0; entries := ∅ |}.

End MemLocks.

Section Witnesses.
Import MemLocks.

(** Two processes ask; the first to be served runs. *)
Definition asked1 : System t := {|
  server := empty; phases := <[1%nat := Waiting "a" 0]> ∅; acquires := {["a"]} ∪ ∅;
  answers := ∅; releases := ∅; issued := {["a"]} ∪ ∅;
|}.

Definition asked : System t := {|
  server := empty; phases := <[2%nat := Waiting "b" 0]> (phases asked1);
  acquires := {["b"]} ∪ acquires asked1; answers := ∅; releases := ∅;
  issued := {["b"]} ∪ issued asked1;
|}.

Definition granted : t := snd (SET_NX_EX (key "job") "a" LOCK_TTL_SECS empty).

Definition served : System t := {|
  server := granted; phases := phases asked; acquires := acquires asked ∖ {["a"]};
  answers := <["a" := true]> ∅; releases := ∅; issued := issued asked;
|}.

Definition running : System t := {|
  server := granted; phases := <[1%nat := Running "a" 0]> (phases asked);
  acquires := acquires served; answers := answers served; releases := ∅; issued := issued asked;
|}.

Lemma running_reachable : rtc (step "job") (start empty) running.
Proof.
  apply (rtc_l _ _ asked1); [exact (step_send "job" (start empty) 1%nat "a" eq_refl ltac:(set_solver))|].
  apply (rtc_l _ _ asked); [refine (step_send "job" asked1 2%nat "b" eq_refl _); set_solver|].
  apply (rtc_l _ _ served);
    [refine (step_serve_set "job" asked "a" (Some "OK") granted _ eq_refl); set_solver|].
  apply (rtc_l _ _ running); [|apply rtc_refl].
  refine (step_taken "job" served 1%nat "a" 0 eq_refl eq_refl _). vm_compute. discriminate.
Qed.

Lemma runs_never_overlap_witness :
  phases running !! 1%nat = Some (Running "a" 0)
  ∧ ∀ q tok since, phases running !! q = Some (Running tok since) → q = 1%nat.
Proof.
  split; [reflexivity|]. intros q tok since Hq. symmetry.
  exact (runs_never_overlap "job" empty running 1%nat q "a" tok 0 since running_reachable eq_refl Hq).
Defined.

Lemma tokens_unique_witness :
  {| pid := 1; seed := 12; counter := 3 |} = {| pid := 1; seed := 12; counter := 3 |}.
Proof. apply tokens_unique. reflexivity. Defined.
End Witnesses.
