(* ===== verification/Scheduler.v ===== *)
(** * Scheduled jobs: the registry and the cron loop

    nexusd/src/jobs/registry.rs (which jobs a config schedules), scheduler.rs ([run_job],
    [sleep_until], [sleep_wall], [validate_cron]) and mod.rs ([job_cron]). The run itself
    and its lock are JobLock.v's. The cron and tokio crates and the clock are given: the
    clock may step either way. *)

From S2P Require Import Prelude Redis World JobLock.
Local Open Scope Z_scope.

(** ** Cron *)

Class Cron := {
  Schedule : Set;
  (** [Schedule::from_str] *)
  from_str : string → result Schedule string;
  (** [schedule.after(&t).next()] *)
  after : Schedule → Z → option Z;
}.

(** The cron crate's documented behaviour: the least fire time later than [t]. *)
Class CronLaws `{Cron} := {
  fires : Schedule → Z → Prop;
  after_some s t n : after s t = Some n → fires s n ∧ t < n ∧ ∀ m, fires s m → t < m → n ≤ m;
}.

Section Validation.
Context `{Cron}.

(** [validate_cron], at a time. *)
Definition validate_cron (now : Z) (cron_expr : string) : result Schedule CronParseError :=
  match from_str cron_expr with
  | Err e => Err {| expr := cron_expr; reason := "parse failed: " +:+ e |}
  | Ok schedule =>
      match after schedule now with
      | None => Err {| expr := cron_expr; reason := "has no upcoming fire times" |}
      | Some _ => Ok schedule
      end
  end.

Record JobConfig := { cron : option string }.

Definition job_cron (now : Z) (config : JobConfig) : result (option Schedule) CronParseError :=
  match cron config with
  | None => Ok None
  | Some cron => match validate_cron now cron with Ok s => Ok (Some s) | Err e => Err e end
  end.
End Validation.

(** ** The registry *)

Record Job := { name : string; default_cron : option string }.

Section Registry.
Context `{Cron}.

Definition JobRegistry : Type := list Job.

(** [JobRegistry::new]: [None] where it panics. *)
Definition new_registry (jobs : list Job) : option JobRegistry :=
  if decide (NoDup (name <$> jobs)) then Some jobs else None.

Definition job_names (r : JobRegistry) : list string := name <$> r.

Definition available_jobs_hint (r : JobRegistry) : string :=
  match job_names r with [] => "(none)" | names => String.concat ", " names end.

Record ScheduledJob := { schedule : Schedule; job : Job }.

Definition config_of (config : gmap string JobConfig) (j : Job) : JobConfig :=
  default {| cron := default_cron j |} (config !! name j).

(** The loop over the registered jobs. *)
Fixpoint collect (now : Z) (config : gmap string JobConfig) (jobs : list Job) :
    result (list ScheduledJob) JobError :=
  match jobs with
  | [] => Ok []
  | j :: jobs =>
      match job_cron now (config_of config j) with
      | Err source => Err (InvalidCron (name j) source)
      | Ok cron =>
          match collect now config jobs with
          | Err e => Err e
          | Ok l => Ok (match cron with Some s => {| schedule := s; job := j |} :: l | None => l end)
          end
      end
  end.

Definition scheduled_jobs (now : Z) (r : JobRegistry) (config : gmap string JobConfig) :
    result (list ScheduledJob) JobError :=
  let unknown := filter (λ n, n ∉ job_names r) (map_to_list config).*1 in
  match unknown with
  | [] => collect now config r
  | _ => Err (UnknownJobConfig (merge_sort str_le unknown) (available_jobs_hint r))
  end.

(** [JobRegistry::run_on_demand], given the stack's setup and the job's run. *)
Definition run_on_demand {W : Type} `{RunLock W} (setup : prog W (result unit string))
    (run : Job → prog W RunEnd) (now : Z) (r : JobRegistry) (n : string)
    (config : gmap string JobConfig) : prog W (result unit JobError) :=
  match scheduled_jobs now r config with
  | Err e => ret (Err e)
  | Ok _ =>
      match head (filter (λ j, name j = n) r) with
      | None => ret (Err (UnknownJobName n (available_jobs_hint r)))
      | Some j =>
          ebind (emap_err Stack setup) (λ _, run_once_locked (run j) (name j))
      end
  end.

Lemma collect_outcome now config jobs :
  match collect now config jobs with
  | Ok l =>
      (job <$> l = filter (λ j, is_Some (cron (config_of config j))) jobs)
      ∧ ∀ s, s ∈ l → ∃ e, cron (config_of config (job s)) = Some e
                          ∧ validate_cron now e = Ok (schedule s)
  | Err (InvalidCron n source) =>
      ∃ j e, j ∈ jobs ∧ name j = n ∧ cron (config_of config j) = Some e
             ∧ validate_cron now e = Err source
  | Err _ => False
  end.
Proof.
  induction jobs as [|j jobs IH]; simpl; [by split; [|intros s ?%elem_of_nil]|].
  unfold job_cron. destruct (cron (config_of config j)) as [e|] eqn:He.
  - destruct (validate_cron now e) as [s|source] eqn:Hv.
    2:{ exists j, e. split; [by left|done]. }
    destruct (collect now config jobs) as [l|[]]; try done.
    + destruct IH as [Hjobs Hl]. split.
      * rewrite filter_cons_True by (by rewrite He; eexists). by apply (f_equal (cons j)).
      * intros s' [->|?]%elem_of_cons; [by exists e|auto].
    + destruct IH as (j' & e' & ? & ?). exists j', e'. split; [by right|done].
  - destruct (collect now config jobs) as [l|[]]; try done.
    + destruct IH as [Hjobs Hl]. split; [|done]. rewrite filter_cons_False; [done|].
      rewrite He. by intros [? ?].
    + destruct IH as (j' & e' & ? & ?). exists j', e'. split; [by right|done].
Qed.

(** a config schedules exactly the registered jobs it (or the job's default) gives a cron,
    in registry order and on that cron; it is refused when a section names no registered
    job, reporting all such sections sorted, or else when a cron does not parse or will never
    fire, blaming a job that has it. *)
Theorem scheduled_jobs_outcome now r config :
  match scheduled_jobs now r config with
  | Ok l =>
      (∀ n, is_Some (config !! n) → n ∈ job_names r)
      ∧ (job <$> l = filter (λ j, is_Some (cron (config_of config j))) r)
      ∧ ∀ s, s ∈ l → ∃ e, cron (config_of config (job s)) = Some e
                          ∧ validate_cron now e = Ok (schedule s)
  | Err (UnknownJobConfig unknown _) =>
      unknown ≠ [] ∧ Sorted str_le unknown
      ∧ ∀ n, n ∈ unknown ↔ is_Some (config !! n) ∧ n ∉ job_names r
  | Err (InvalidCron n source) =>
      ∃ j e, j ∈ r ∧ name j = n ∧ cron (config_of config j) = Some e
             ∧ validate_cron now e = Err source
  | Err _ => False
  end.
Proof.
  unfold scheduled_jobs. set (unknown := filter _ _).
  assert (∀ n, n ∈ unknown ↔ is_Some (config !! n) ∧ n ∉ job_names r) as Hunknown.
  { intros n. unfold unknown. rewrite list_elem_of_filter, list_elem_of_fmap. split.
    - intros [Hn ((n' & c) & -> & Hc%elem_of_map_to_list)]. by split; [eexists|].
    - intros [[c Hc] Hn]. split; [done|]. exists (n, c). split; [done|].
      by apply elem_of_map_to_list. }
  clearbody unknown. destruct unknown as [|n unknown].
  - pose proof (collect_outcome now config r) as Hcollect.
    destruct (collect now config r) as [l|[]]; try done. split; [|done].
    intros n Hn. destruct (decide (n ∈ job_names r)) as [|Hnot]; [done|].
    exfalso. eapply not_elem_of_nil, Hunknown. by split.
  - split; [|split].
    + intros Hnil. apply (not_elem_of_nil n). rewrite <- Hnil, merge_sort_Permutation. by left.
    + apply Sorted_merge_sort. apply _.
    + intros m. by rewrite merge_sort_Permutation.
Qed.
End Registry.

(** ** The loop *)

Class Runtime (W : Type) := {
  (** [now_fn] *)
  now_fn : prog W Z;
  (** [tokio::time::sleep] *)
  sleep : Z → prog W unit;
  (** The [select!] of [sleep_until]: whether it slept, rather than saw the shutdown. *)
  sleep_unless_shutdown : Z → prog W bool;
  (** [*shutdown_rx.borrow()] *)
  shutdown_signaled : prog W bool;
}.

(** A tick run: its fire time, and the clock as it was read to choose it and to end the
    sleep towards it. *)
Record Fire := { tick : Z; anchored_at : Z; woke_at : Z }.

Inductive JobEnd := StillRunning | Stopped | ScheduleExhausted.

Section Loop.
Context {W : Type} `{Cron} {RL : RunLock W} {RT : Runtime W}.
Local Open Scope nexus_scope.

(** The time left until [deadline], zero when it has passed. *)
Definition remaining (deadline now : Z) : Z := Z.max 0 (deadline - now).

(** [Scheduler::sleep_until]: [Some n] when the deadline was reached, at the reading [n],
    [None] at a shutdown; [Err] when still waiting. *)
Fixpoint sleep_until (fuel : nat) (deadline : Z) : prog W (result (option Z) unit) :=
  match fuel with
  | O => ret (Err tt)
  | S fuel =>
      let* now := now_fn in
      if decide (remaining deadline now = 0) then ret (Ok (Some now))
      else
        let* slept := sleep_unless_shutdown (Z.min (remaining deadline now) MAX_SLEEP) in
        if (slept : bool) then sleep_until fuel deadline else ret (Ok None)
  end.

(** [Scheduler::run_job]; the fires are its "Running scheduled job" lines. *)
Fixpoint run_job (fuel : nat) (schedule : Schedule) (run : prog W RunEnd) (name : string)
    (last_fired : option Z) : prog W (JobEnd * list Fire) :=
  match fuel with
  | O => ret (StillRunning, [])
  | S fuel =>
      let* stop := shutdown_signaled in
      if (stop : bool) then ret (Stopped, [])
      else
        let* now := now_fn in
        let anchor := match last_fired with Some last => Z.max last now | None => now end in
        match after schedule anchor with
        | None => ret (ScheduleExhausted, [])
        | Some next =>
            let* reached := sleep_until fuel next in
            match reached with
            | Err _ => ret (StillRunning, [])
            | Ok None => ret (Stopped, [])
            | Ok (Some woke) =>
                let* _ := run_locked shutdown_signaled run name in
                let* (e, fs) := run_job fuel schedule run name (Some next) in
                ret (e, {| tick := next; anchored_at := now; woke_at := woke |} :: fs)
            end
        end
  end.

(** [sleep_wall]'s loop. *)
Fixpoint sleep_wall_from (fuel : nat) (dur started : Z) : prog W (option unit) :=
  match fuel with
  | O => ret None
  | S fuel =>
      let* now := now_fn in
      let elapsed := Z.max 0 (now - started) in
      if decide (dur < elapsed) then ret (Some tt)
      else if decide (dur - elapsed = 0) then ret (Some tt)
      else
        let* _ := sleep (Z.min (dur - elapsed) MAX_SLEEP) in
        sleep_wall_from fuel dur started
  end.

Definition sleep_wall (fuel : nat) (dur : Z) : prog W (option unit) :=
  let* started := now_fn in
  sleep_wall_from fuel dur started.

Lemma sleep_until_wakes fuel deadline w n w' :
  sleep_until fuel deadline w = (Ok (Some n), w') → deadline ≤ n.
Proof.
  revert w. induction fuel as [|fuel IH]; intros w; simpl; [done|].
  unfold bind, ret. destruct (now_fn w) as [now w1]. case_decide as Hr.
  - intros [= <- _]. unfold remaining in Hr. lia.
  - destruct (sleep_unless_shutdown _ w1) as [[] w2]; [apply IH|done].
Qed.

Context {CL : CronLaws}.

(** Ticks fired one after the other, the first after [last]. *)
Fixpoint fired (schedule : Schedule) (last : option Z) (fs : list Fire) : Prop :=
  match fs with
  | [] => True
  | f :: fs =>
      after schedule (match last with Some l => Z.max l (anchored_at f) | None => anchored_at f end)
        = Some (tick f)
      ∧ tick f ≤ woke_at f ∧ fired schedule (Some (tick f)) fs
  end.

Lemma run_job_fired fuel s run n last w : fired s last (snd (fst (run_job fuel s run n last w))).
Proof.
  revert last w. induction fuel as [|fuel IH]; intros last w; simpl; [done|].
  unfold bind, ret. destruct (shutdown_signaled w) as [[] w1]; [done|].
  destruct (now_fn w1) as [now w2].
  destruct (after s _) as [next|] eqn:Hnext; [|done].
  destruct (sleep_until fuel next w2) as [[[woke|]|] w3] eqn:Hsleep; try done.
  destruct (run_locked _ _ _ w3) as [o w4].
  specialize (IH (Some next) w4). destruct (run_job fuel s run n (Some next) w4) as [[e fs] w5].
  simpl. split_and!; [done|by eapply sleep_until_wakes|done].
Qed.

Lemma fired_later s l fs : fired s (Some l) fs → Forall (λ f, l < tick f) fs.
Proof.
  revert l. induction fs as [|f fs IH]; intros l; simpl; [constructor|].
  intros (Hf & _ & Hfs). apply after_some in Hf as (_ & Hlt & _).
  constructor; [lia|]. eapply Forall_impl; [by apply IH|]. simpl. lia.
Qed.

(** C37: however the clock steps, the loop runs a job at fire times of its schedule only, each
    at most once and in order, never before the clock has reached it, and between the clock
    it chose a tick by and that tick it skips no fire time but those already run. *)
Theorem ticks_fire_once_on_time fuel s run n last w :
  let fs := snd (fst (run_job fuel s run n last w)) in
  StronglySorted Z.lt (tick <$> fs)
  ∧ ∀ f, f ∈ fs →
      fires s (tick f) ∧ tick f ≤ woke_at f ∧ (∀ l, last = Some l → l < tick f)
      ∧ ∀ m, fires s m → anchored_at f < m < tick f →
          (∃ l, last = Some l ∧ m ≤ l) ∨ ∃ g, g ∈ fs ∧ m ≤ tick g < tick f.
Proof.
  intros fs. pose proof (run_job_fired fuel s run n last w) as Hfired. fold fs in Hfired.
  clearbody fs. clear w. revert last Hfired. induction fs as [|f fs IH]; intros last; simpl.
  { intros _. split; [constructor|]. by intros f ?%elem_of_nil. }
  intros (Hf & Hwoke & Hfs). destruct (IH _ Hfs) as [Hsorted Hall].
  pose proof (fired_later _ _ _ Hfs) as Hlater.
  destruct (after_some _ _ _ Hf) as (Hfires & Hlt & Hleast). split.
  { constructor; [done|]. by apply Forall_fmap. }
  intros g [->|Hg]%elem_of_cons.
  - split_and!; [done|done|intros l ->; lia|]. intros m Hm Hbetween. left.
    destruct last as [l|]; [exists l; split; [done|]|]; specialize (Hleast m Hm); lia.
  - destruct (Hall g Hg) as (? & ? & Hl & Hskip). specialize (Hl _ eq_refl). split_and!; try done.
    + intros l ->. lia.
    + intros m Hm Hbetween. right. destruct (Hskip m Hm Hbetween) as [(l & [= <-] & ?)|(g' & ? & ?)].
      * exists f. split; [by left|lia].
      * exists g'. split; [by right|done].
Qed.
End Loop.

(** ** The run deadline *)

Section Deadline.
Context {W : Type} {RT : Runtime W} (wall : W → Z).
Hypothesis reads : ∀ w, fst (now_fn w) = wall w ∧ wall (snd (now_fn w)) = wall w.
Hypothesis sleeps : ∀ d w, 0 < d → wall w + d ≤ wall (snd (sleep d w)).

(** At the last look before the end, the deadline had not passed. *)
Definition ends_within_a_chunk (deadline : Z) (w' : W) : Prop :=
  ∃ d w1, 0 < d ≤ MAX_SLEEP ∧ wall w1 < deadline ∧ w' = snd (now_fn (snd (sleep d w1))).

Lemma sleep_wall_from_ends fuel dur started w :
  started ≤ wall w → dur - (wall w - started) ≤ MAX_SLEEP * (Z.of_nat fuel - 1) →
  (0 < fuel)%nat →
  let '(r, w') := sleep_wall_from fuel dur started w in
  r = Some tt ∧ started + dur ≤ wall w'
  ∧ (started + dur ≤ wall w ∧ w' = snd (now_fn w) ∨ ends_within_a_chunk (started + dur) w').
Proof.
  revert w. induction fuel as [|fuel IH]; intros w Hle Hfuel Hpos; [lia|]. simpl. unfold bind, ret.
  destruct (reads w) as [Hread Hsame]. destruct (now_fn w) as [now w1] eqn:Hnow. simpl in Hread, Hsame.
  subst now. case_decide; [split_and!; [done|lia|left; by split; [lia|]]|].
  case_decide; [split_and!; [done|lia|left; by split; [lia|]]|].
  set (d := Z.min _ MAX_SLEEP). assert (0 < d ≤ MAX_SLEEP) as Hd by (unfold d, MAX_SLEEP in *; lia).
  pose proof (sleeps d w1 ltac:(lia)) as Hslept. destruct (sleep d w1) as [[] w2] eqn:Hs. simpl in Hslept.
  assert (0 < fuel)%nat as Hfuel' by (unfold MAX_SLEEP in *; lia).
  assert (dur - (wall w2 - started) ≤ MAX_SLEEP * (Z.of_nat fuel - 1)) as Hbound.
  { unfold d, MAX_SLEEP in *. lia. }
  specialize (IH w2 ltac:(lia) Hbound Hfuel').
  destruct (sleep_wall_from fuel dur started w2) as [r w'] eqn:Hrest.
  destruct IH as (-> & Hreach & Hcase). split_and!; [done|done|right].
  destruct Hcase as [[Hw2 ->]|Hchunk]; [|done]. exists d, w1. split_and!; [lia..|]. by rewrite Hs.
Qed.

(** the deadline of a run passes: when sleeping takes at least the time asked, the wait
    for [dur] of wall-clock time ends, no earlier than that, and at the first look after it
    has passed, of which there is one every thirty seconds slept. *)
Theorem sleep_wall_ends fuel dur w :
  0 < dur → dur ≤ MAX_SLEEP * (Z.of_nat fuel - 1) →
  let '(r, w') := sleep_wall fuel dur w in
  r = Some tt ∧ wall w + dur ≤ wall w' ∧ ends_within_a_chunk (wall w + dur) w'.
Proof.
  intros Hdur Hfuel. unfold sleep_wall, bind. destruct (reads w) as [Hread Hsame].
  destruct (now_fn w) as [started w1]. simpl in Hread, Hsame. subst started.
  pose proof (sleep_wall_from_ends fuel dur (wall w) w1 ltac:(lia)) as Hends. rewrite Hsame in Hends.
  specialize (Hends ltac:(lia) ltac:(unfold MAX_SLEEP in *; lia)).
  destruct (sleep_wall_from fuel dur (wall w) w1) as [r w'].
  destruct Hends as (-> & ? & [[? _]|?]); [lia|done].
Qed.
End Deadline.

(** ** A job every ten minutes, on a clock that steps back *)

Module Example_jobs.
Definition minute : Z := 60 * 1000.

(** Fires at the multiples of ten minutes. *)
#[local] Instance every_ten : Cron := {|
  Schedule := unit;
  from_str s := if decide (s = "0 */10 * * * *") then Ok tt else Err "bad cron";
  after _ t := Some ((t / (10 * minute) + 1) * (10 * minute));
|}.

#[local] Instance every_ten_laws : CronLaws.
Proof.
  refine {| fires _ n := n `mod` (10 * minute) = 0 |}. intros s t n [= <-]. unfold minute.
  pose proof (Z.div_mod t (10 * (60 * 1000)) ltac:(lia)).
  pose proof (Z.mod_pos_bound t (10 * (60 * 1000)) ltac:(lia)).
  split_and!; [by apply Z.mod_mul|lia|]. intros m Hm Hlt.
  apply Z.mod_divide in Hm as [k ->]; [|lia].
  assert (t / (10 * (60 * 1000)) < k) by (apply Z.div_lt_upper_bound; lia). nia.
Defined.

(** A clock in milliseconds, and what it steps by at the next readings. *)
Record Clock := { time : Z; steps : list Z; asked : nat }.

#[local] Instance stepping : Runtime Clock := {|
  now_fn c := match steps c with
              | d :: l => (time c + d, {| time := time c + d; steps := l; asked := asked c |})
              | [] => (time c, c)
              end;
  sleep d c := (tt, {| time := time c + d; steps := steps c; asked := asked c |});
  sleep_unless_shutdown d c := (true, {| time := time c + d; steps := steps c; asked := asked c |});
  shutdown_signaled c := (bool_decide (5 < asked c)%nat, {| time := time c; steps := steps c; asked := S (asked c) |});
|}.

#[local] Instance free_lock : RunLock Clock := {|
  fresh_token c := ("t", c);
  lock_acquire _ _ c := (Some (Ok true), c);
  lock_unlock _ _ c := (Some (Ok tt), c);
|}.

Definition ten : @Schedule every_ten := tt.

Definition quick : prog Clock RunEnd := λ c, (Finished (Ok tt), c).

(** The clock steps back to zero as the second tick is looked for. *)
Definition ran : list Fire :=
  snd (fst (run_job 60 ten quick "trust" None
    {| time := 5 * minute; steps := [0; 0; 0; 0; 0; 0; 0; 0; 0; 0; 0; - (8 * minute)]; asked := 0 |})).

Example ran_ticks : tick <$> ran = [10 * minute; 20 * minute; 30 * minute].
Proof. by vm_compute. Qed.

Lemma ticks_fire_once_on_time_witness : StronglySorted Z.lt (tick <$> ran) ∧ length ran = 3%nat.
Proof.
  split; [|by vm_compute].
  apply (ticks_fire_once_on_time 60 ten quick "trust" None
    {| time := 5 * minute; steps := [0; 0; 0; 0; 0; 0; 0; 0; 0; 0; 0; - (8 * minute)]; asked := 0 |}).
Defined.

#[local] Instance running : Runtime Z := {|
  now_fn c := (c, c);
  sleep d c := (tt, c + d);
  sleep_unless_shutdown d c := (true, c + d);
  shutdown_signaled c := (false, c);
|}.

Lemma sleep_wall_ends_witness :
  fst (sleep_wall 122 MAX_RUN 7) = Some tt ∧ 7 + MAX_RUN ≤ snd (sleep_wall 122 MAX_RUN 7).
Proof.
  pose proof (sleep_wall_ends (λ c : Z, c) ltac:(done) ltac:(simpl; lia) 122 MAX_RUN 7
    ltac:(done) ltac:(done)) as Hends.
  destruct (sleep_wall 122 MAX_RUN 7) as [r w']. simpl. tauto.
Defined.
End Example_jobs.
