(* ===== verification/Takedown.v ===== *)
(** * The event handler and the moderator's takedowns

    nexus-watcher/src/events/mod.rs ([handle_put_event], [remove_if_taken_down],
    [handle_del_event], [DefaultEventHandler::handle]), events/moderation.rs, and of the
    handlers of posts, tags and files the order in which they read and write the graph among
    their other work. The watcher's loops (primary, external, retry) handle events at the
    same time, so a handler is a thread: a sequence of calls between which other handlers may
    run. What a handler does besides the graph's record of its address (Redis, notifications,
    mentions, ingestion, the disk) is a thread of the class; Posts.v, Tags.v, Files.v and the
    others have it in full. *)

From S2P Require Import Prelude Threads Errors Events Graphs.

(** ** What the handler calls *)

(** [pubky_app_specs::PubkyAppObject], contents as their JSON but for a tag's fields. *)
Inductive PubkyAppObject :=
  | UserObject (user : string)
  | PostObject (post : string)
  | FollowObject
  | MuteObject
  | BookmarkObject (bookmark : string)
  | TagObject (tag_target label : string)
  | FileObject (file : string)
  | OtherObject.

(** The rest of the specs crate and of the SDK: resources by kind, the pubky.app
    address grammar (user and resource) and the SDK's own parser. *)
Class ObjectSpecs := {
  from_resource : Resource → string → result PubkyAppObject string;
  parsed_uri_try_from : string → result (string * Resource) string;
  parse_pubky_resource : string → result string Ep.EventProcessorError;
}.

Abbreviation Outcome := (result unit Ep.EventProcessorError).

(** What is written of a post: what its author published, or the tombstone of a deleted one,
    still a reply if it was one. *)
Inductive PostContent := Published (post : string) | Tombstone (parent : option string).

(** A row of [get_tag_target]. *)
Record TagRow := { row_app : option string; row_resource : option string; row_post : option (string * string) }.

Class HandlerCalls (W : Type) := {
  is_taken_down : string → prog W (result bool Model.ModelError);
  record_takedown : string → string → prog W (result unit Model.ModelError);
  get_resource : string → prog W (result string Hs.HsError);
  store_event_line : string → prog W (result unit Kv.RedisError);
  (** object, uri, user, id *)
  user_sync_put : string → string → string → thread W Outcome;
  follow_sync_put : string → string → thread W Outcome;
  bookmark_sync_put : string → string → string → thread W Outcome;
  user_del : string → thread W Outcome;
  follow_del : string → string → thread W Outcome;
  bookmark_del : string → string → thread W Outcome;
  (** Of a post: the graph's calls. *)
  post_put_to_graph : PostContent → string → string → string → prog W (result OperationOutcome Model.ModelError);
  post_get_from_graph : string → string → prog W (result (option string) Model.ModelError);
  post_is_safe_to_delete : string → string → prog W (result OperationOutcome Model.ModelError);
  post_parent : string → string → prog W (result (option string) Model.ModelError);
  delete_post : string → string → prog W (result unit Model.ModelError);
  (** The rest: the missing dependencies, the edit or recovery of one that was there, the
      index of a new one; [sync_del] up to the graph deletion, which answers the parents
      whose counts are invalidated after it. *)
  post_missing : PostContent → string → string → thread W Ep.EventProcessorError;
  post_index_existing : PostContent → string → string → string → thread W Outcome;
  post_index_new : PostContent → string → string → string → thread W Outcome;
  post_unindex : string → string → string → thread W (result (list (string * string)) Ep.EventProcessorError);
  invalidate_parents : list (string * string) → thread W Outcome;
  (** Of a tag: how it is stored, under an app or not, or that its target is refused
      ([tag_target], [classify_uri], [normalize_uri]; see Tags.v and Normalize.v). *)
  tag_form : option string → string → result (option string) Ep.EventProcessorError;
  (** target, label, uri, user, id, app *)
  tag_put_to_graph : string → string → string → string → string → option string →
    prog W (result OperationOutcome Model.ModelError);
  get_tag_target : string → string → option string → prog W (result (option TagRow) Model.ModelError);
  delete_tag : string → string → option string → prog W (result unit Model.ModelError);
  tag_missing : string → string → option string → thread W Ep.EventProcessorError;
  tag_index : OperationOutcome → string → string → string → string → option string → thread W Outcome;
  tag_unindex : string → TagRow → thread W Outcome;
  tag_invalidate : TagRow → thread W Outcome;
  (** Of a file: [ingest] fetches and stores the blob. *)
  file_ingest : string → string → string → thread W Outcome;
  file_put_to_graph : string → string → string → string → prog W (result unit Model.ModelError);
  file_get_by_ids : string → string → prog W (result (list (option string)) Model.ModelError);
  file_delete : string → string → prog W (result unit Model.ModelError);
  remove_dir_all : string → string → thread W Outcome;
}.

(** ** Moderation *)

Record Moderation := { moderator_id : string; tags : list string }.

Section Moderation.
Context {SP : Specs} {OS : ObjectSpecs}.

Definition should_delete (m : Moderation) (label tagger_id : string) : bool :=
  bool_decide (tagger_id = moderator_id m) && existsb (String.eqb label) (tags m).

Definition is_tag_storage_uri (tag_uri : string) : bool :=
  match parse_uri tag_uri with
  | Err _ => false
  | Ok parsed => match uri_resource parsed with Tag _ => true | _ => false end
  end.

Inductive ModerationTarget :=
  | TargetUser (user_id : string)
  | TakeDown (uri : string)
  | Ignore.

Definition unsupported (e : string) : Ep.EventProcessorError :=
  Ep.UnsupportedTarget ("The moderated URI is not a pubky.app URI or a universal tag: " +:+ e).

Definition moderation_target (uri : string) : result ModerationTarget Ep.EventProcessorError :=
  let take_down :=
    match parse_uri uri with
    | Err e => Err (unsupported e)
    | Ok parsed =>
        match try_to_uri_str parsed with
        | Err e => Err (unsupported e)
        | Ok canonical => Ok (TakeDown canonical)
        end
    end in
  if is_tag_storage_uri uri then take_down
  else
    match parsed_uri_try_from uri with
    | Err e => Err (unsupported e)
    | Ok (user_id, User) => Ok (TargetUser user_id)
    | Ok (_, (Post _ | Tag _ | File _)) => take_down
    | Ok _ => Ok Ignore
    end.
End Moderation.

(** ** The handler *)

Section Handler.
Context {W : Type} {SP : Specs} {OS : ObjectSpecs} {HC : HandlerCalls W}.
Local Open Scope thread_scope.

(** *** The handlers of posts, tags and files *)

(** [sync_put_details] *)
Definition post_put_details (content : PostContent) (uri author_id post_id : string) : thread W Outcome :=
  do? outcome := call (emap_err Ep.from_model (post_put_to_graph content uri author_id post_id)) in
  match outcome with
  | CreatedOrDeleted => post_index_new content uri author_id post_id
  | Updated => post_index_existing content uri author_id post_id
  | MissingDependency => do* e := post_missing content author_id post_id in Done (Err e)
  end.

Definition post_sync_put (post uri author_id post_id : string) : thread W Outcome :=
  post_put_details (Published post) uri author_id post_id.

Definition post_sync_del (author_id post_id deleted_uri : string) : thread W Outcome :=
  do? parents_to_invalidate := post_unindex author_id post_id deleted_uri in
  do? _ := call (emap_err Ep.from_model (delete_post author_id post_id)) in
  invalidate_parents parents_to_invalidate.

Definition post_del (author_id post_id : string) : thread W Outcome :=
  do? found := call (emap_err Ep.from_model (post_get_from_graph author_id post_id)) in
  match found with
  | None => Done (Err Ep.SkipIndexing)
  | Some uri =>
      do? outcome := call (emap_err Ep.from_model (post_is_safe_to_delete author_id post_id)) in
      match outcome with
      | CreatedOrDeleted => post_sync_del author_id post_id uri
      | Updated =>
          do? parent := call (emap_err Ep.from_model (post_parent author_id post_id)) in
          post_put_details (Tombstone parent) uri author_id post_id
      | MissingDependency => Done (Err Ep.SkipIndexing)
      end
  end.

(** [tag::sync_put], and [sync_put_resource] for an app's tag. *)
Definition tag_sync_put (target label uri tagger_id tag_id : string) (app : option string) : thread W Outcome :=
  match tag_form app target with
  | Err e => Done (Err e)
  | Ok form =>
      do? outcome := call (emap_err Ep.from_model (tag_put_to_graph target label uri tagger_id tag_id form)) in
      match outcome with
      | MissingDependency => do* e := tag_missing target tagger_id form in Done (Err e)
      | _ => tag_index outcome target label uri tagger_id form
      end
  end.

(** The steps of [tag::del] once the tag is found. *)
Definition tag_del_found (user_id tag_id : string) (row : TagRow) : thread W Outcome :=
  do? _ := tag_unindex user_id row in
  do? _ := call (emap_err Ep.from_model (delete_tag user_id tag_id (row_app row))) in
  tag_invalidate row.

Definition tag_del (tag_uri : string) : thread W Outcome :=
  match parse_uri tag_uri with
  | Err e => Done (Err (Ep.Generic e))
  | Ok parsed =>
      let user_id := uri_user_id parsed in
      match uri_resource parsed with
      | Tag tag_id =>
          do? row := call (emap_err Ep.from_model (get_tag_target user_id tag_id (uri_app parsed))) in
          match row, uri_app parsed with
          | Some row, _ => tag_del_found user_id tag_id row
          | None, Some _ =>
              do? row := call (emap_err Ep.from_model (get_tag_target user_id tag_id None)) in
              match row with
              | None => Done (Ok tt)
              | Some row =>
                  match row_resource row with
                  | Some _ => Done (Ok tt)
                  | None => tag_del_found user_id tag_id row
                  end
              end
          | None, None => Done (Ok tt)
          end
      | _ => Done (Err (Ep.Generic "Expected tag URI"))
      end
  end.

(** [file::sync_put] and [file::del] *)
Definition file_sync_put (file uri user_id file_id : string) : thread W Outcome :=
  do? _ := file_ingest file user_id file_id in
  call (emap_err Ep.from_model (file_put_to_graph file uri user_id file_id)).

Definition file_del (user_id file_id : string) : thread W Outcome :=
  do? result := call (emap_err Ep.from_model (file_get_by_ids user_id file_id)) in
  match result with
  | [] => Done (Ok tt)
  | file :: _ =>
      do? _ := (match file with
                | Some _ => call (emap_err Ep.from_model (file_delete user_id file_id))
                | None => Done (Ok tt)
                end) in
      remove_dir_all user_id file_id
  end.

(** *** Moderation and dispatch *)

Definition remove_taken_down (uri : string) : thread W Outcome :=
  if is_tag_storage_uri uri then tag_del uri
  else
    match parsed_uri_try_from uri with
    | Err e => Done (Err (Ep.Generic e))
    | Ok (user_id, Post post_id) => post_del user_id post_id
    | Ok (user_id, Tag _) => tag_del uri
    | Ok (user_id, File file_id) => file_del user_id file_id
    | Ok _ => Done (Ok tt)
    end.

Definition apply_moderation (m : Moderation) (target label tag_uri : string) : thread W Outcome :=
  match moderation_target target with
  | Err e => Done (Err e)
  | Ok (TargetUser user_id) => user_del user_id
  | Ok Ignore => Done (Ok tt)
  | Ok (TakeDown uri) =>
      do? _ := call (emap_err Ep.from_model (record_takedown uri tag_uri)) in
      remove_taken_down uri
  end.

Definition remove_if_taken_down (uri : string) :
    thread W (result bool Ep.EventProcessorError) :=
  do? taken := call (emap_err Ep.from_model (is_taken_down uri)) in
  if (taken : bool) then
    do* removed := remove_taken_down uri in
    match removed with
    | Ok _ | Err Ep.SkipIndexing => Done (Ok true)
    | Err e => Done (Err e)
    end
  else Done (Ok false).

(** The object's handler, by the kinds of object and resource. *)
Definition sync_put (m : Moderation) (event : Event) (object : PubkyAppObject) : thread W Outcome :=
  let uri := uri event in
  let user_id := uri_user_id (parsed_uri event) in
  match object, uri_resource (parsed_uri event) with
  | UserObject user, User => user_sync_put user uri user_id
  | PostObject post, Post post_id => post_sync_put post uri user_id post_id
  | FollowObject, Follow followee_id => follow_sync_put user_id followee_id
  | MuteObject, Mute _ => Done (Ok tt)
  | BookmarkObject bookmark, Bookmark bookmark_id => bookmark_sync_put user_id bookmark bookmark_id
  | TagObject target label, Tag tag_id =>
      if should_delete m label user_id then apply_moderation m target label uri
      else tag_sync_put target label uri user_id tag_id (uri_app (parsed_uri event))
  | FileObject file, File file_id => file_sync_put file uri user_id file_id
  | _, _ => Done (Ok tt)
  end.

Definition handle_put_event (m : Moderation) (event : Event) : thread W Outcome :=
  do? down := remove_if_taken_down (uri event) in
  if (down : bool) then Done (Ok tt)
  else
    match parse_pubky_resource (uri event) with
    | Err e => Done (Err e)
    | Ok pubky_resource =>
        do? blob := call (emap_err Ep.from_hs (get_resource pubky_resource)) in
        match from_resource (uri_resource (parsed_uri event)) blob with
        | Err e => Done (Err (Ep.SpecValidation e))
        | Ok object =>
            do? _ := sync_put m event object in
            do? _ := remove_if_taken_down (uri event) in
            Done (Ok tt)
        end
    end.

Definition handle_del_event (event : Event) : thread W Outcome :=
  let user_id := uri_user_id (parsed_uri event) in
  match uri_resource (parsed_uri event) with
  | User => user_del user_id
  | Post post_id => post_del user_id post_id
  | Follow followee_id => follow_del user_id followee_id
  | Mute _ => Done (Ok tt)
  | Bookmark bookmark_id => bookmark_del user_id bookmark_id
  | Tag _ => tag_del (uri event)
  | File file_id => file_del user_id file_id
  | _ => Done (Ok tt)
  end.

(** [DefaultEventHandler::handle] *)
Definition handle (m : Moderation) (event : Event) : thread W Outcome :=
  do? _ := match event_type event with
           | Put => handle_put_event m event
           | Del => handle_del_event event
           end in
  call (emap_err Ep.from_redis (store_event_line (to_event_line event))).
End Handler.

(** ** What the calls do to the records *)

Section Protocol.
Context {W : Type} {SP : Specs} {OS : ObjectSpecs} {HC : HandlerCalls W}.

(** [live w u]: the graph has the record at [u] with its content: a Post node that is no
    tombstone, a TAGGED edge with that address, a File node. [taken w u]: the graph has a
    Takedown node for [u]. *)
Context (live taken : W → string → Prop).

(** An address moderation can remove. *)
Definition removable (u : string) : Prop :=
  is_tag_storage_uri u = true ∨
  ∃ user id r, parsed_uri_try_from u = Ok (user, r) ∧ (r = Post id ∨ r = Tag id ∨ r = File id).

(** A call that brings [new] to life at most and leaves takedowns alone. *)
Definition enlivens {A} (p : prog W A) (new : string → Prop) : Prop :=
  ∀ w, (∀ u, taken (snd (p w)) u ↔ taken w u)
       ∧ ∀ u, live (snd (p w)) u → live w u ∨ new u.

(** An answer in [Q] means that the record at [u] is not live when the call is done. *)
Definition absent_when {A E} (p : prog W (result A E)) (Q : A → Prop) (u : string) : Prop :=
  ∀ w a, fst (p w) = Ok a → Q a → ¬ live (snd (p w)) u.

(** Only calls that bring nothing to life. *)
Fixpoint quiet {A} (t : thread W A) : Prop :=
  match t with
  | Done _ => True
  | Act p k => enlivens p (λ _, False) ∧ ∀ x, quiet (k x)
  end.

(** Whatever its calls meet, the thread ends in [Q]. *)
Fixpoint ends {A} (t : thread W A) (Q : A → Prop) : Prop :=
  match t with
  | Done a => Q a
  | Act p k => ∀ w, ends (k (fst (p w))) Q
  end.

(** Work besides the graph's records, and which does not end as if there were nothing to do. *)
Definition aside {A} (t : thread W (result A Ep.EventProcessorError)) : Prop :=
  quiet t ∧ ends t (λ r, r ≠ Err Ep.SkipIndexing).

Definition an_error (t : thread W Ep.EventProcessorError) : Prop :=
  quiet t ∧ ends t (λ e, e ≠ Ep.SkipIndexing).

Class RecordCalls := {
  is_taken_down_spec u w : (∀ v, taken (snd (is_taken_down u w)) v ↔ taken w v)
    ∧ (∀ v, live (snd (is_taken_down u w)) v ↔ live w v)
    ∧ match fst (is_taken_down u w) with Ok b => b = true ↔ taken w u | Err _ => True end;
  record_takedown_spec u tag w :
    (∀ v, taken w v → taken (snd (record_takedown u tag w)) v)
    ∧ (∀ v, taken (snd (record_takedown u tag w)) v → taken w v ∨ v = u)
    ∧ (∀ v, live (snd (record_takedown u tag w)) v → live w v);
  get_resource_spec r : enlivens (get_resource r) (λ _, False);
  store_event_line_spec l : enlivens (store_event_line l) (λ _, False);
  (** Profiles, follows and bookmarks have no record moderation removes. *)
  user_sync_put_spec o u i : quiet (user_sync_put o u i);
  follow_sync_put_spec i f : quiet (follow_sync_put i f);
  bookmark_sync_put_spec i o b : quiet (bookmark_sync_put i o b);
  user_del_spec i : quiet (user_del i);
  follow_del_spec i f : quiet (follow_del i f);
  bookmark_del_spec i b : quiet (bookmark_del i b);
  (** A post's node: written with its content or as a tombstone, found missing, deleted. *)
  post_put_spec c u i p : enlivens (post_put_to_graph c u i p) (λ v, v = u ∧ ∃ post, c = Published post);
  post_get_spec i p : enlivens (post_get_from_graph i p) (λ _, False);
  post_safe_spec i p : enlivens (post_is_safe_to_delete i p) (λ _, False);
  post_parent_spec i p : enlivens (post_parent i p) (λ _, False);
  delete_post_spec i p : enlivens (delete_post i p) (λ _, False);
  post_absent u i p : parsed_uri_try_from u = Ok (i, Post p) →
    absent_when (post_get_from_graph i p) (λ found, found = None) u
    ∧ absent_when (post_is_safe_to_delete i p) (λ o, o = MissingDependency) u
    ∧ (∀ v parent, absent_when (post_put_to_graph (Tombstone parent) v i p) (λ o, o ≠ MissingDependency) u)
    ∧ absent_when (delete_post i p) (λ _, True) u;
  post_missing_spec c i p : an_error (post_missing c i p);
  post_existing_spec c u i p : aside (post_index_existing c u i p);
  post_new_spec c u i p : aside (post_index_new c u i p);
  post_unindex_spec i p u : aside (post_unindex i p u);
  invalidate_parents_spec l : aside (invalidate_parents l);
  (** A tag's edge. Its id is a hash of its target and label, so the tags ever put at an
      address have one target, and are stored in one form: under the app of the address, or
      under none, and then not on a resource. *)
  stored_form : string → option string;
  tag_put_spec t l u i g a : enlivens (tag_put_to_graph t l u i g a) (eq u);
  tag_get_spec i g a : enlivens (get_tag_target i g a) (λ _, False);
  delete_tag_spec i g a : enlivens (delete_tag i g a) (λ _, False);
  tag_absent u parsed g : parse_uri u = Ok parsed → uri_resource parsed = Tag g →
    absent_when (get_tag_target (uri_user_id parsed) g (stored_form u)) (λ row, row = None) u
    ∧ absent_when (delete_tag (uri_user_id parsed) g (stored_form u)) (λ _, True) u;
  tag_one_form u parsed : parse_uri u = Ok parsed → stored_form u = uri_app parsed ∨ stored_form u = None;
  tag_row_spec i g a w row : fst (get_tag_target i g a w) = Ok (Some row) → row_app row = a;
  tag_form_spec u parsed g w row : parse_uri u = Ok parsed → uri_resource parsed = Tag g →
    stored_form u = None →
    (uri_app parsed ≠ None → fst (get_tag_target (uri_user_id parsed) g (uri_app parsed) w) ≠ Ok (Some row))
    ∧ (fst (get_tag_target (uri_user_id parsed) g None w) = Ok (Some row) → row_resource row = None);
  tag_missing_spec t i a : an_error (tag_missing t i a);
  tag_index_spec o t l u i a : aside (tag_index o t l u i a);
  tag_unindex_spec i row : aside (tag_unindex i row);
  tag_invalidate_spec row : aside (tag_invalidate row);
  (** A file's node. *)
  file_ingest_spec o i f : aside (file_ingest o i f);
  file_put_spec o u i f : enlivens (file_put_to_graph o u i f) (eq u);
  file_get_spec i f : enlivens (file_get_by_ids i f) (λ _, False);
  file_delete_spec i f : enlivens (file_delete i f) (λ _, False);
  remove_dir_all_spec i f : aside (remove_dir_all i f);
  file_absent u i f : parsed_uri_try_from u = Ok (i, File f) →
    absent_when (file_get_by_ids i f) (λ found, mjoin (head found) = None) u
    ∧ absent_when (file_delete i f) (λ _, True) u;
  (** The canonical form of an address names the same kind of record. *)
  canonical_removable u parsed c :
    parse_uri u = Ok parsed → try_to_uri_str parsed = Ok c → removable u → removable c;
}.
Context {RC : RecordCalls}.

(** ** Handlers at work *)

(** The handlers started so far, each with its event. *)
Record Pool := { handlers : list (Event * thread W Outcome); world : W }.

(** A loop hands an event to the handler; some handler makes its next call. *)
Inductive pool_step (m : Moderation) : Pool → Pool → Prop :=
  | step_start pool event :
      pool_step m pool
        {| handlers := handlers pool ++ [(event, handle m event)]; world := world pool |}
  | step_call pool i event (X : Set) (p : prog W X) k x w' :
      handlers pool !! i = Some (event, Act p k) → p (world pool) = (x, w') →
      pool_step m pool {| handlers := <[i := (event, k x)]> (handlers pool); world := w' |}.

(** [event] is about the record at [u]: its own address, or the one it takes down. *)
Definition about (m : Moderation) (event : Event) (u : string) : Prop :=
  u = uri event ∨
  ∃ blob target label, from_resource (uri_resource (parsed_uri event)) blob = Ok (TagObject target label)
    ∧ should_delete m label (uri_user_id (parsed_uri event)) = true
    ∧ moderation_target target = Ok (TakeDown u).

(** [t] will see to it that the record at [u], taken down, goes: some call of it leaves
    the record gone, or it ends with a result in [post]. *)
Fixpoint cleans {A} (u : string) (t : thread W A) (post : A → Prop) : Prop :=
  match t with
  | Done a => post a
  | Act p k => ∀ w, taken w u → removable u →
      cleans u (k (fst (p w))) post ∨ ¬ live (snd (p w)) u
  end.

(** A thread of [event]'s handler keeps takedowns, and a record it leaves live although
    taken down, it will clean, or end with a result that leaves it to [post]. *)
Fixpoint careful {A} (m : Moderation) (event : Event) (t : thread W A)
    (post : A → string → Prop) : Prop :=
  match t with
  | Done _ => True
  | Act p k => ∀ w, let w' := snd (p w) in
      careful m event (k (fst (p w))) post
      ∧ (∀ u, taken w u → taken w' u)
      ∧ (∀ u, taken w' u → taken w u ∨ removable u)
      ∧ ∀ u, taken w' u → live w' u →
          (taken w u ∧ live w u)
          ∨ (about m event u ∧ cleans u (k (fst (p w))) (λ a, post a u))
  end.

Lemma cleans_mono {A} u (t : thread W A) (P Q : A → Prop) :
  (∀ a, P a → Q a) → cleans u t P → cleans u t Q.
Proof.
  intros HPQ. induction t as [a|X p k IH]; simpl; [auto|].
  intros Ht w Hw Hr. destruct (Ht w Hw Hr); [left|right]; auto.
Qed.

Lemma cleans_tbind {A B} u (t : thread W A) (k : A → thread W B) (post : B → Prop) :
  cleans u t (λ a, cleans u (k a) post) → cleans u (tbind t k) post.
Proof.
  induction t as [a|X p k' IH]; simpl; [done|].
  intros Ht w Hw Hr. destruct (Ht w Hw Hr); [left|right]; auto.
Qed.

Lemma careful_mono {A} m event (t : thread W A) (R R' : A → string → Prop) :
  (∀ a u, R a u → R' a u) → careful m event t R → careful m event t R'.
Proof.
  intros HR. induction t as [a|X p k IH]; simpl; [done|].
  intros Ht w. destruct (Ht w) as (Hk & Hkeep & Hrem & Hnew). split_and!; [by apply IH|done|done|].
  intros u Hu Hi. destruct (Hnew u Hu Hi) as [?|[? Hc]]; [by left|right].
  split; [done|]. eapply cleans_mono; [|exact Hc]. auto.
Qed.

Lemma careful_tbind {A B} m event (t : thread W A) (k : A → thread W B) R :
  careful m event t (λ a u, cleans u (k a) (λ b, R b u)) →
  (∀ a, careful m event (k a) R) → careful m event (tbind t k) R.
Proof.
  intros Ht Hk. induction t as [a|X p k' IH]; simpl; [done|].
  intros w. destruct (Ht w) as (Hk' & Hkeep & Hrem & Hnew). split_and!; [by apply IH|done|done|].
  intros u Hu Hi. destruct (Hnew u Hu Hi) as [?|[? Hc]]; [by left|right].
  split; [done|]. by apply cleans_tbind.
Qed.

Lemma quiet_careful {A} m event (t : thread W A) R : quiet t → careful m event t R.
Proof.
  induction t as [a|X p k IH]; simpl; [done|]. intros [Hp Hk] w. destruct (Hp w) as [Htaken Hind].
  split_and!; [by apply IH|..].
  - intros u. apply Htaken.
  - intros u Hu. left. by apply Htaken.
  - intros u Hu Hi. left. split; [by apply Htaken|]. by destruct (Hind u Hi).
Qed.

Lemma quiet_tbind {A B} (t : thread W A) (k : A → thread W B) :
  quiet t → (∀ a, quiet (k a)) → quiet (tbind t k).
Proof.
  intros Ht Hk. induction t as [a|X p k' IH]; simpl; [done|]. destruct Ht as [Hp Ht].
  split; [done|]. intros x. by apply IH.
Qed.

Lemma enlivens_emap {A E F} (f : E → F) (p : prog W (result A E)) new :
  enlivens p new → enlivens (emap_err f p) new.
Proof. intros Hp w. specialize (Hp w). unfold emap_err. by destruct (p w) as [r w']. Qed.

Lemma quiet_call {A : Set} (p : prog W A) : enlivens p (λ _, False) → quiet (call p).
Proof. by split. Qed.

(** *** Removal *)

(** Ended with an error other than that there was nothing to remove. *)
Definition failed {A} (r : result A Ep.EventProcessorError) : Prop :=
  match r with Ok _ | Err Ep.SkipIndexing => False | Err _ => True end.

Lemma failed_from_model A e : failed (A := A) (Err (Ep.from_model e)).
Proof. by destruct e as [[]| | |]. Qed.

Lemma not_skipped {A} (r : result A Ep.EventProcessorError) :
  r ≠ Err Ep.SkipIndexing → match r with Ok _ => True | Err e => failed (Err e : Outcome) end.
Proof. destruct r as [|[]]; done. Qed.

Lemma ends_cleans {A} u (t : thread W A) (Q post : A → Prop) :
  ends t Q → (∀ a, Q a → post a) → cleans u t post.
Proof. intros Ht HQ. induction t as [a|X p k IH]; simpl in *; [auto|]. intros w _ _. left. by apply IH. Qed.

(** A step of a removal: its error fails the removal, and each answer means that the record
    is not live or leads on to a removal. *)
Lemma cleans_step {A : Set} {B} (p : prog W (result A Model.ModelError)) u
    (k : A → thread W (result B Ep.EventProcessorError)) :
  (∀ w a, fst (p w) = Ok a → ¬ live (snd (p w)) u ∨ cleans u (k a) failed) →
  cleans u (tebind (call (emap_err Ep.from_model p)) k) failed.
Proof.
  intros Hk w _ _. specialize (Hk w). unfold emap_err.
  destruct (p w) as [[a|e] w']; simpl in *; [|left; apply (failed_from_model B)].
  destruct (Hk a eq_refl); auto.
Qed.

Lemma cleans_aside {A B} u (t : thread W (result A Ep.EventProcessorError))
    (k : A → thread W (result B Ep.EventProcessorError)) :
  aside t → (∀ a, cleans u (k a) failed) → cleans u (tebind t k) failed.
Proof.
  intros [_ Ht] Hk. apply cleans_tbind. eapply ends_cleans; [exact Ht|].
  intros [a|e] He; [apply Hk|]. by destruct e.
Qed.

Lemma quiet_step {A : Set} {B} (p : prog W (result A Model.ModelError))
    (k : A → thread W (result B Ep.EventProcessorError)) :
  enlivens p (λ _, False) → (∀ a, quiet (k a)) → quiet (tebind (call (emap_err Ep.from_model p)) k).
Proof. intros Hp Hk. split; [by apply enlivens_emap|]. intros [a|e]; [apply Hk|done]. Qed.

Lemma quiet_aside {A B} (t : thread W (result A Ep.EventProcessorError))
    (k : A → thread W (result B Ep.EventProcessorError)) :
  aside t → (∀ a, quiet (k a)) → quiet (tebind t k).
Proof. intros [Ht _] Hk. apply quiet_tbind; [done|]. intros [a|e]; [apply Hk|done]. Qed.

(** After a post's node is written: nothing else comes to life, and the end is an answer or
    a failure. *)
Lemma post_rest_aside o c u i p :
  aside (match o with
         | CreatedOrDeleted => post_index_new c u i p
         | Updated => post_index_existing c u i p
         | MissingDependency => tbind (post_missing c i p) (λ e, Done (Err e))
         end).
Proof.
  destruct o; [apply post_existing_spec|apply post_new_spec|]. destruct (post_missing_spec c i p) as [Hq He].
  split; [by apply quiet_tbind|]. clear Hq. induction (post_missing c i p); simpl in *; [congruence|auto].
Qed.

Lemma tombstone_enlivens u i p parent : enlivens (post_put_to_graph (Tombstone parent) u i p) (λ _, False).
Proof.
  intros w. destruct (post_put_spec (Tombstone parent) u i p w) as [Ht Hl]. split; [done|].
  intros v Hv. destruct (Hl v Hv) as [?|[_ [? ?]]]; [by left|done].
Qed.

Lemma post_del_quiet i p : quiet (post_del i p).
Proof.
  unfold post_del. apply quiet_step; [apply post_get_spec|]. intros [uri|]; [|done].
  apply quiet_step; [apply post_safe_spec|]. intros [| |]; [| |done].
  - apply quiet_step; [apply post_parent_spec|]. intros parent.
    apply quiet_step; [apply tombstone_enlivens|]. intros o. apply (post_rest_aside o (Tombstone parent) uri i p).
  - apply quiet_aside; [apply post_unindex_spec|]. intros parents.
    apply quiet_step; [apply delete_post_spec|]. intros _. apply invalidate_parents_spec.
Qed.

Lemma post_del_cleans u i p : parsed_uri_try_from u = Ok (i, Post p) → cleans u (post_del i p) failed.
Proof.
  intros (Hget & Hsafe & Htomb & Hdel)%post_absent. unfold post_del.
  apply cleans_step. intros w [uri|] Ha; [right|left; by eapply Hget].
  apply cleans_step. intros w1 [| |] Ha1; [right|right|left; by eapply Hsafe].
  - apply cleans_step. intros w2 parent _. right. apply cleans_step. intros w3 o Ha3.
    destruct o; [left; by eapply Htomb|left; by eapply Htomb|right].
    destruct (post_missing_spec (Tombstone parent) i p) as [_ He]. apply cleans_tbind.
    eapply ends_cleans; [exact He|]. by intros [].
  - apply cleans_aside; [apply post_unindex_spec|]. intros parents.
    apply cleans_step. intros w2 [] Ha2. left. by eapply Hdel.
Qed.

Lemma tag_del_found_quiet i g row : quiet (tag_del_found i g row).
Proof.
  unfold tag_del_found. apply quiet_aside; [apply tag_unindex_spec|]. intros _.
  apply quiet_step; [apply delete_tag_spec|]. intros _. apply tag_invalidate_spec.
Qed.

Lemma tag_del_quiet u : quiet (tag_del u).
Proof.
  unfold tag_del. destruct (parse_uri u) as [parsed|e]; [|done]. destruct (uri_resource parsed); try done.
  apply quiet_step; [apply tag_get_spec|]. intros [row|]; [apply tag_del_found_quiet|].
  destruct (uri_app parsed); [|done]. apply quiet_step; [apply tag_get_spec|].
  intros [row|]; [|done]. destruct (row_resource row); [done|apply tag_del_found_quiet].
Qed.

Lemma tag_del_found_cleans u parsed g row :
  parse_uri u = Ok parsed → uri_resource parsed = Tag g → row_app row = stored_form u →
  cleans u (tag_del_found (uri_user_id parsed) g row) failed.
Proof.
  intros Hp Hg Hrow. destruct (tag_absent _ _ _ Hp Hg) as [_ Hdel].
  unfold tag_del_found. apply cleans_aside; [apply tag_unindex_spec|]. intros _.
  apply cleans_step. rewrite Hrow. intros w [] Ha. left. by eapply Hdel.
Qed.

Lemma tag_del_cleans u : cleans u (tag_del u) failed.
Proof.
  unfold tag_del. destruct (parse_uri u) as [parsed|e] eqn:Hp; [|done].
  destruct (uri_resource parsed) as [| | | | |g| | | | |] eqn:Hg; try done.
  destruct (tag_absent _ _ _ Hp Hg) as [Hget _].
  apply cleans_step. intros w [row|] Ha.
  - right. apply tag_del_found_cleans; [done..|]. pose proof (tag_row_spec _ _ _ _ _ Ha) as ->.
    destruct (tag_one_form u parsed Hp) as [->|Hform]; [done|]. rewrite Hform.
    destruct (uri_app parsed) eqn:Happ; [|done]. exfalso.
    destruct (tag_form_spec u parsed g w row Hp Hg Hform) as [Hno _]. rewrite Happ in Hno. by apply Hno.
  - destruct (decide (stored_form u = uri_app parsed)) as [Hform|Hform].
    { left. rewrite <- Hform in Ha |- *. by eapply Hget. }
    destruct (tag_one_form u parsed Hp) as [?|Hnone]; [done|]. right.
    destruct (uri_app parsed); [|congruence]. apply cleans_step. intros w1 [row|] Ha1.
    + right. destruct (tag_form_spec u parsed g w1 row Hp Hg Hnone) as [_ Hrow]. rewrite Hrow by done.
      apply tag_del_found_cleans; [done..|]. rewrite Hnone. by eapply tag_row_spec.
    + left. rewrite Hnone in Hget. by eapply Hget.
Qed.

Lemma file_del_quiet i f : quiet (file_del i f).
Proof.
  unfold file_del. apply quiet_step; [apply file_get_spec|]. intros [|[d|] l]; [done| |apply remove_dir_all_spec].
  apply quiet_step; [apply file_delete_spec|]. intros _. apply remove_dir_all_spec.
Qed.

Lemma file_del_cleans u i f : parsed_uri_try_from u = Ok (i, File f) → cleans u (file_del i f) failed.
Proof.
  intros [Hget Hdel]%file_absent. unfold file_del.
  apply cleans_step. intros w [|[d|] l] Ha; [left; by eapply Hget| |left; by eapply Hget].
  right. apply cleans_step. intros w1 [] Ha1. left. by eapply Hdel.
Qed.

Lemma remove_taken_down_quiet u : quiet (remove_taken_down u).
Proof.
  unfold remove_taken_down. destruct (is_tag_storage_uri u); [apply tag_del_quiet|].
  destruct (parsed_uri_try_from u) as [[user r]|e]; [|done].
  destruct r; try done; [apply post_del_quiet|apply tag_del_quiet|apply file_del_quiet].
Qed.

(** Found taken down, a record is removed, or the removal fails. *)
Lemma remove_taken_down_cleans u : removable u → cleans u (remove_taken_down u) failed.
Proof.
  intros Hr. unfold remove_taken_down.
  destruct (is_tag_storage_uri u) eqn:Htag; [apply tag_del_cleans|].
  destruct Hr as [Hr|(user & id & r & Hp & Hr)]; [congruence|]. rewrite Hp.
  destruct Hr as [->|[->| ->]]; [by apply post_del_cleans|apply tag_del_cleans|by apply file_del_cleans].
Qed.

Lemma remove_if_taken_down_quiet u : quiet (remove_if_taken_down u).
Proof.
  unfold remove_if_taken_down, tebind. apply quiet_tbind.
  - apply quiet_call, enlivens_emap. intros w. destruct (is_taken_down_spec u w) as (Ht & Hi & _).
    split; [apply Ht|]. intros v Hv. left. by apply Hi.
  - intros [[]|e]; [|done..]. apply quiet_tbind; [apply remove_taken_down_quiet|].
    intros [[]|e]; [done|]. by destruct e.
Qed.

Lemma remove_if_taken_down_cleans u : cleans u (remove_if_taken_down u) failed.
Proof.
  unfold remove_if_taken_down, tebind. apply cleans_tbind. intros w Hw Hr. left.
  destruct (is_taken_down_spec u w) as (_ & _ & Hb). unfold emap_err.
  destruct (is_taken_down u w) as [[b|e] w']; simpl in *; [|by destruct e as [[]| | |]].
  assert (b = true) as -> by by apply Hb. apply cleans_tbind.
  eapply cleans_mono; [|by apply remove_taken_down_cleans]. intros [[]|[]]; done.
Qed.

(** *** Each handler is careful *)

Definition own_or_failed (event : Event) (r : Outcome) (u : string) : Prop :=
  match r with Ok _ => u = uri event | Err _ => failed r end.

(** A handler whose first write is the record: what follows ends in an answer, after which
    the caller looks again, or in a failure. *)
Lemma put_careful {A : Set} m event (p : prog W (result A Model.ModelError)) (k : A → thread W Outcome) :
  enlivens p (eq (uri event)) → (∀ a, aside (k a)) →
  careful m event (tebind (call (emap_err Ep.from_model p)) k) (own_or_failed event).
Proof.
  intros Hp Hk. apply careful_tbind.
  - intros w. unfold emap_err. specialize (Hp w). destruct (p w) as [r w']; simpl in *.
    destruct Hp as [Ht Hl]. split_and!; [done|intros v; apply Ht|intros v ?; left; by apply Ht|].
    intros v Hv Hlive. destruct (Hl v Hlive) as [?|<-]; [left; split; [by apply Ht|done]|right].
    split; [by left|]. destruct r as [a|e]; simpl; [|apply (failed_from_model unit)].
    destruct (Hk a) as [_ He]. eapply ends_cleans; [exact He|]. by intros [[]|[]].
  - intros [a|e]; [apply quiet_careful, Hk|done].
Qed.

Lemma post_sync_put_careful m event post i p :
  careful m event (post_sync_put post (uri event) i p) (own_or_failed event).
Proof.
  unfold post_sync_put, post_put_details. apply put_careful.
  - intros w. destruct (post_put_spec (Published post) (uri event) i p w) as [Ht Hl]. split; [done|].
    intros v Hv. destruct (Hl v Hv) as [?|[-> _]]; auto.
  - intros o. apply (post_rest_aside o (Published post) (uri event) i p).
Qed.

Lemma tag_sync_put_careful m event target label i g app :
  careful m event (tag_sync_put target label (uri event) i g app) (own_or_failed event).
Proof.
  unfold tag_sync_put. destruct (tag_form app target) as [form|e]; [|done].
  apply put_careful; [apply tag_put_spec|]. intros [| |]; [apply tag_index_spec..|].
  destruct (tag_missing_spec target i form) as [Hq He]. split; [by apply quiet_tbind|].
  clear Hq. induction (tag_missing target i form); simpl in *; [congruence|auto].
Qed.

Lemma file_sync_put_careful m event file i f :
  careful m event (file_sync_put file (uri event) i f) (own_or_failed event).
Proof.
  unfold file_sync_put. apply careful_tbind; [apply quiet_careful, file_ingest_spec|].
  intros [[]|e]; [|done]. intros w. unfold emap_err.
  destruct (file_put_spec file (uri event) i f w) as [Ht Hl].
  destruct (file_put_to_graph file (uri event) i f w) as [r w']; simpl in *.
  split_and!; [done|intros v; apply Ht|intros v ?; left; by apply Ht|].
  intros v Hv Hlive. destruct (Hl v Hlive) as [?|<-]; [left; split; [by apply Ht|done]|right].
  split; [by left|]. destruct r as [[]|e]; [done|apply (failed_from_model unit)].
Qed.

Lemma moderation_target_removable target u :
  moderation_target target = Ok (TakeDown u) → removable u.
Proof.
  unfold moderation_target. destruct (is_tag_storage_uri target) eqn:Htag.
  - destruct (parse_uri target) as [parsed|] eqn:Hp; [|done].
    destruct (try_to_uri_str parsed) as [c|] eqn:Hc; [|done]. intros [= <-].
    eapply canonical_removable; [done..|by left].
  - destruct (parsed_uri_try_from target) as [[user r]|] eqn:Hr; [|done].
    destruct (parse_uri target) as [parsed|] eqn:Hp; cycle 1.
    { destruct r; done. }
    destruct (try_to_uri_str parsed) as [c|] eqn:Hc; [|destruct r; done].
    destruct r as [|id| | | |id|id| | | |]; try done; intros [= <-];
      (eapply canonical_removable; [done..|]); right; exists user, id; eauto 6.
Qed.

Lemma apply_moderation_careful m event target label blob :
  from_resource (uri_resource (parsed_uri event)) blob = Ok (TagObject target label) →
  should_delete m label (uri_user_id (parsed_uri event)) = true →
  careful m event (apply_moderation m target label (uri event)) (own_or_failed event).
Proof.
  intros Hblob Hdel. unfold apply_moderation.
  destruct (moderation_target target) as [[user|u|]|e] eqn:Htarget; [| |done|done].
  { apply quiet_careful, user_del_spec. }
  apply careful_tbind.
  - intros w. unfold emap_err. destruct (record_takedown_spec u (uri event) w) as (Hkeep & Hnew & Hind).
    destruct (record_takedown u (uri event) w) as [r w']; simpl in *. split_and!; [done|done|..].
    + intros v Hv. destruct (Hnew v Hv) as [?| ->]; [by left|right].
      by eapply moderation_target_removable.
    + intros v Hv Hi. destruct (Hnew v Hv) as [?| ->]; [left; auto|right]. split.
      * right. by exists blob, target, label.
      * destruct r as [[]|e]; simpl; [|by destruct e as [[]| | |]].
        eapply cleans_mono; [|by eapply remove_taken_down_cleans, moderation_target_removable].
        intros [[]|[]]; done.
  - intros [[]|e]; [|done]. apply quiet_careful, remove_taken_down_quiet.
Qed.

Lemma sync_put_careful m event blob object :
  from_resource (uri_resource (parsed_uri event)) blob = Ok object →
  careful m event (sync_put m event object) (own_or_failed event).
Proof.
  intros Hblob. unfold sync_put.
  destruct object as [o|o| | |o|target label|o|], (uri_resource (parsed_uri event)) eqn:Hres; try done;
    try first [apply post_sync_put_careful|apply file_sync_put_careful];
    try (apply quiet_careful;
         first [apply user_sync_put_spec|apply follow_sync_put_spec|apply bookmark_sync_put_spec]).
  destruct (should_delete m label (uri_user_id (parsed_uri event))) eqn:Hdel.
  - rewrite <- Hres in Hblob. by eapply apply_moderation_careful.
  - apply tag_sync_put_careful.
Qed.

Definition outcome_failed (r : Outcome) (u : string) : Prop := failed r.

Lemma handle_put_event_careful m event :
  careful m event (handle_put_event m event) outcome_failed.
Proof.
  unfold handle_put_event, tebind. apply careful_tbind.
  { apply quiet_careful, remove_if_taken_down_quiet. }
  intros [[]|e]; [done| |done]. destruct (parse_pubky_resource (uri event)) as [pr|e]; [|done].
  apply careful_tbind. { apply quiet_careful, quiet_call, enlivens_emap, get_resource_spec. }
  intros [blob|e]; [|done]. destruct (from_resource _ blob) as [object|e] eqn:Hblob; [|done].
  apply careful_tbind.
  - eapply careful_mono; [|by eapply sync_put_careful]. intros [[]|e] u Hu; [|done].
    simpl in Hu. subst u. apply cleans_tbind.
    eapply cleans_mono; [|apply remove_if_taken_down_cleans]. by intros [b|e].
  - intros [[]|e]; [|done]. apply careful_tbind.
    + apply quiet_careful, remove_if_taken_down_quiet.
    + by intros [b|e].
Qed.

Lemma handle_careful m event : careful m event (handle m event) outcome_failed.
Proof.
  unfold handle, tebind. apply careful_tbind.
  - destruct (event_type event).
    + eapply careful_mono; [|apply handle_put_event_careful]. by intros [[]|e] u.
    + apply quiet_careful. unfold handle_del_event.
      destruct (uri_resource (parsed_uri event)); try done;
        [apply user_del_spec|apply post_del_quiet|apply follow_del_spec|apply bookmark_del_spec
        |apply tag_del_quiet|apply file_del_quiet].
  - intros [[]|e]; [|done]. apply quiet_careful, quiet_call, enlivens_emap, store_event_line_spec.
Qed.

(** ** The protocol *)

(** Every record that is live although taken down is somebody's to clean. *)
Definition guarded (m : Moderation) (pool : Pool) : Prop :=
  (∀ e t, (e, t) ∈ handlers pool → careful m e t outcome_failed)
  ∧ (∀ u, taken (world pool) u → removable u)
  ∧ ∀ u, taken (world pool) u → live (world pool) u →
      ∃ e t, (e, t) ∈ handlers pool ∧ about m e u ∧ cleans u t (λ r, outcome_failed r u).

Lemma pool_step_guarded m pool pool' : guarded m pool → pool_step m pool pool' → guarded m pool'.
Proof.
  intros (Hcareful & Hrem & Hclean) Hstep. destruct Hstep as [pool event|pool i event X p k x w' Hi Hp].
  - split_and!; simpl; [|done|].
    + intros e t [?|[= -> ->]%list_elem_of_singleton]%elem_of_app; [by apply Hcareful|].
      apply handle_careful.
    + intros u Hu Hx. destruct (Hclean u Hu Hx) as (e & t & ? & ? & ?). exists e, t.
      split_and!; [|done|done]. apply elem_of_app. by left.
  - pose proof (Hcareful event (Act p k) (list_elem_of_lookup_2 _ _ _ Hi) (world pool)) as Hc.
    rewrite Hp in Hc. simpl in Hc. destruct Hc as (Hk & Hkeep & Hnewt & Hnew).
    assert ((event, k x) ∈ <[i:=(event, k x)]> (handlers pool)) as Hin.
    { apply (list_elem_of_lookup_2 _ i). apply list_lookup_insert_eq. by eapply lookup_lt_Some. }
    split_and!; simpl.
    + intros e t Het. apply list_elem_of_lookup_1 in Het as [j Hj].
      apply list_lookup_insert_Some in Hj as [(-> & [= <- <-] & _)|[_ Hj]]; [done|].
      apply Hcareful. by eapply list_elem_of_lookup_2.
    + intros u Hu. destruct (Hnewt u Hu); auto.
    + intros u Hu Hx. destruct (Hnew u Hu Hx) as [[Hut Hux]|[? ?]]; [|by exists event, (k x)].
      destruct (Hclean u Hut Hux) as (e & t & Het & Habout & Ht).
      apply list_elem_of_lookup_1 in Het as [j Hj]. destruct (decide (j = i)) as [->|Hne].
      * rewrite Hi in Hj. injection Hj as <- <-. destruct (Ht (world pool) Hut (Hrem u Hut)) as [Hc|Hgone].
        { rewrite Hp in Hc. by exists event, (k x). }
        rewrite Hp in Hgone. done.
      * exists e, t. split_and!; [|done|done]. apply (list_elem_of_lookup_2 _ j).
        by rewrite list_lookup_insert_ne.
Qed.

(** C4: in the graph, a post, tag or file the moderator took down stays down, whatever order
    events arrive in and however the calls of their handlers, in any loops, interleave: once
    every handler started has ended, the graph does not have it (or as a tombstone), unless a
    handler that was about it (an event for that record, or the moderator's tag on it) ended
    with an error other than that there was nothing to delete. Redis is another matter: see
    [Example_race.redis_copy_stays]. *)
Theorem taken_down_stays_down m w pool u :
  (∀ v, taken w v → removable v ∧ ¬ live w v) →
  rtc (pool_step m) {| handlers := []; world := w |} pool →
  (∀ e t, (e, t) ∈ handlers pool → ∃ r, t = Done r ∧ (about m e u → ¬ failed r)) →
  taken (world pool) u → ¬ live (world pool) u.
Proof.
  intros Hw Hsteps Hdone Hu Hx.
  assert (guarded m {| handlers := []; world := w |}) as Hg.
  { split_and!; simpl; [set_solver|intros v Hv; by apply Hw|].
    intros v Hv Hi. destruct (Hw v Hv). done. }
  assert (guarded m pool) as (_ & _ & Hclean).
  { clear Hw Hdone Hu Hx. induction Hsteps; [done|]. eauto using pool_step_guarded. }
  destruct (Hclean u Hu Hx) as (e & t & Het & Habout & Ht).
  destruct (Hdone e t Het) as (r & -> & Hr). by apply (Hr Habout).
Qed.

(** A schedule: which event is handed out, or which handler makes its next call. *)
Inductive Turn := StartOf (event : Event) | CallOf (i : nat).

Definition take_turn (m : Moderation) (turn : Turn) (pool : Pool) : Pool :=
  match turn with
  | StartOf event =>
      {| handlers := handlers pool ++ [(event, handle m event)]; world := world pool |}
  | CallOf i =>
      match handlers pool !! i with
      | Some (event, Act p k) =>
          let '(x, w') := p (world pool) in
          {| handlers := <[i := (event, k x)]> (handlers pool); world := w' |}
      | _ => pool
      end
  end.

Lemma take_turns_steps m turns pool :
  rtc (pool_step m) pool (foldl (λ q t, take_turn m t q) pool turns).
Proof.
  revert pool. induction turns as [|turn turns IH]; intros pool; [apply rtc_refl|]. simpl.
  assert (rtc (pool_step m) pool (take_turn m turn pool)) as Ht; [|by etrans; [apply Ht|apply IH]].
  destruct turn as [event|i]; simpl; [apply rtc_once, step_start|].
  destruct (handlers pool !! i) as [[event [r|X p k]]|] eqn:Hi; try apply rtc_refl.
  destruct (p (world pool)) as [x w'] eqn:Hp. eapply rtc_once, step_call; done.
Qed.
End Protocol.

(** ** A moderator's tag that races with the post it takes down *)

Module Example_race.
(** Addresses starting with an m are the moderator's tags, the others are posts. *)
Definition resource_at (u : string) : Resource :=
  if String.eqb (String.substring 0 1 u) "m" then Tag u else Post u.

#[export] Instance specs : Specs := {|
  ExtendedParsedUri := string;
  parse_uri := λ s, Ok s;
  try_to_uri_str := λ s, Ok s;
  uri_user_id := λ s, String.substring 0 1 s;
  uri_resource := resource_at;
  uri_app := λ _, None;
|}.

#[export] Instance objects : ObjectSpecs := {|
  from_resource := λ r blob, match r with
                             | Tag _ => Ok (TagObject blob "spam")
                             | _ => Ok (PostObject blob)
                             end;
  parsed_uri_try_from := λ s, Ok (String.substring 0 1 s, resource_at s);
  parse_pubky_resource := λ s, Ok s;
|}.

(** The records in the graph, the copies of posts in Redis, and the takedowns. *)
Record Records := { there : gset string; copies : gset string; down : gset string }.

Definition set_there (f : gset string → gset string) (w : Records) : Records :=
  {| there := f (there w); copies := copies w; down := down w |}.
Definition set_copies (f : gset string → gset string) (w : Records) : Records :=
  {| there := there w; copies := f (copies w); down := down w |}.

Definition skip {E} : prog Records (result unit E) := λ w, (Ok tt, w).
Definition nothing : thread Records Outcome := Done (Ok tt).
Definition missing : thread Records Ep.EventProcessorError := Done (Ep.Generic "missing").

Definition put_record (u : string) : prog Records (result OperationOutcome Model.ModelError) := λ w,
  (Ok (if decide (u ∈ there w) then Updated else CreatedOrDeleted), set_there ({[u]} ∪.) w).
Definition drop_record {A} (a : A) (u : string) : prog Records (result A Model.ModelError) := λ w,
  (Ok a, set_there (.∖ {[u]}) w).
Definition put_copy (u : string) : thread Records Outcome :=
  call (λ w, (Ok tt, set_copies ({[u]} ∪.) w)).

#[export] Instance calls : HandlerCalls Records := {|
  is_taken_down := λ u w, (Ok (bool_decide (u ∈ down w)), w);
  record_takedown := λ u _ w, (Ok tt, {| there := there w; copies := copies w; down := {[u]} ∪ down w |});
  get_resource := λ _ w, (Ok "a/post", w);
  store_event_line := λ _, skip;
  user_sync_put := λ _ _ _, nothing;
  follow_sync_put := λ _ _, nothing;
  bookmark_sync_put := λ _ _ _, nothing;
  user_del := λ _, nothing;
  follow_del := λ _ _, nothing;
  bookmark_del := λ _ _, nothing;
  post_put_to_graph := λ c u _ p,
    match c with Published _ => put_record u | Tombstone _ => drop_record Updated p end;
  post_get_from_graph := λ _ p w, (Ok (if decide (p ∈ there w) then Some p else None), w);
  post_is_safe_to_delete := λ _ p w, (Ok (if decide (p ∈ there w) then CreatedOrDeleted else MissingDependency), w);
  post_parent := λ _ _ w, (Ok None, w);
  delete_post := λ _ p, drop_record tt p;
  post_missing := λ _ _ _, missing;
  post_index_existing := λ _ u _ _, put_copy u;
  post_index_new := λ _ u _ _, put_copy u;
  post_unindex := λ _ p _, call (λ w, (Ok [], set_copies (.∖ {[p]}) w));
  invalidate_parents := λ _, nothing;
  tag_form := λ _ _, Ok None;
  tag_put_to_graph := λ _ _ u _ _ _, put_record u;
  get_tag_target := λ _ g a w,
    (Ok (if decide (g ∈ there w) then Some {| row_app := a; row_resource := None; row_post := None |} else None), w);
  delete_tag := λ _ g _, drop_record tt g;
  tag_missing := λ _ _ _, missing;
  tag_index := λ _ _ _ _ _ _, nothing;
  tag_unindex := λ _ _, nothing;
  tag_invalidate := λ _, nothing;
  file_ingest := λ _ _ _, nothing;
  file_put_to_graph := λ _ u _ _ w, (Ok tt, snd (put_record u w));
  file_get_by_ids := λ _ f w, (Ok [if decide (f ∈ there w) then Some f else None], w);
  file_delete := λ _ f, drop_record tt f;
  remove_dir_all := λ _ _, nothing;
|}.

Definition live (w : Records) (u : string) : Prop := u ∈ there w.
Definition taken (w : Records) (u : string) : Prop := u ∈ down w.

Lemma put_record_spec u : enlivens live taken (put_record u) (eq u).
Proof. intros w. split; [done|]. unfold live. simpl. set_solver. Qed.
Lemma drop_record_spec {A} (a : A) u new : enlivens live taken (drop_record a u) new.
Proof. intros w. split; [done|]. unfold live. simpl. set_solver. Qed.
Lemma drop_record_absent {A} (a : A) u Q : absent_when live (drop_record a u) Q u.
Proof. intros w ? _ _. unfold live. simpl. set_solver. Qed.
Lemma reads_spec {A} (f : Records → A) new : enlivens live taken (λ w, (f w, w)) new.
Proof. intros w. split; [done|]. auto. Qed.
Lemma copies_spec {A} (a : A) f new : enlivens live taken (λ w, (a, set_copies f w)) new.
Proof. intros w. split; [done|]. auto. Qed.
Lemma nothing_aside : aside live taken nothing.
Proof. by split. Qed.
Lemma missing_error : an_error live taken missing.
Proof. by split. Qed.
Lemma copy_aside {A : Set} (a : A) f : aside live taken (call (λ w, (Ok a, set_copies f w))).
Proof. split; [split; [apply copies_spec|done]|]. by intros w. Qed.

Lemma resource_at_id u r id : resource_at u = r → r = Post id ∨ r = Tag id ∨ r = File id → id = u.
Proof. intros <-. unfold resource_at. case_match; naive_solver. Qed.

#[export] Instance record_calls : RecordCalls live taken.
Proof.
  refine {| stored_form := λ _, None |}; intros;
    try first [apply nothing_aside|apply missing_error|apply copy_aside|apply put_record_spec
      |apply drop_record_spec|apply reads_spec|done].
  - split_and!; [done|done|]. simpl. by rewrite bool_decide_eq_true.
  - unfold live, taken. simpl. split_and!; [set_solver..|done].
  - destruct c as [post|parent]; [|apply drop_record_spec]. intros w. split; [done|].
    unfold live. simpl. intros v [->%elem_of_singleton|?]%elem_of_union; eauto.
  - injection H as _ Hr. pose proof (resource_at_id _ _ p Hr ltac:(auto)) as ->.
    split_and!; [|..|apply drop_record_absent].
    + intros w a. simpl. unfold live. case_decide; [by intros [= <-]|done].
    + intros w a. simpl. unfold live. case_decide; [by intros [= <-]|done].
    + intros v parent. apply drop_record_absent.
  - injection H as <-. pose proof (resource_at_id _ _ g H0 ltac:(auto)) as ->.
    split; [|apply drop_record_absent]. intros w a. simpl. unfold live. case_decide; [by intros [= <-]|done].
  - by right.
  - simpl in H. case_decide; [by injection H as <-|done].
  - split; [done|]. simpl. case_decide; [by intros [= <-]|done].
  - injection H as _ Hr. pose proof (resource_at_id _ _ f Hr ltac:(auto)) as ->.
    split; [|apply drop_record_absent]. intros w a. simpl. unfold live. case_decide; [by intros [= <-]|done].
  - injection H as <-. injection H0 as <-. done.
Qed.

Definition moderation : Moderation := {| moderator_id := "m"; tags := ["spam"] |}.
Definition put_of (u : string) : Event :=
  {| uri := u; event_type := Put; parsed_uri := u : ExtendedParsedUri; event_line := "PUT " +:+ u |}.

Definition empty : Records := {| there := ∅; copies := ∅; down := ∅ |}.

Definition after (turns : list Turn) : Pool :=
  foldl (λ q t, take_turn moderation t q) {| handlers := []; world := empty |} turns.

(** The post is found not taken down and fetched; then the moderator's tag is read and finds
    nothing to delete; then the post is written, and its handler looks again. *)
Definition race : list Turn :=
  [StartOf (put_of "a/post"); CallOf 0; CallOf 0; StartOf (put_of "m/tag")]
  ++ replicate 12 (CallOf 1) ++ replicate 12 (CallOf 0).

Definition succeeded (h : Event * thread Records Outcome) : bool :=
  match h.2 with Done (Ok _ | Err Ep.SkipIndexing) => true | _ => false end.

Lemma taken_down_stays_down_witness :
  taken (world (after race)) "a/post" ∧ ¬ live (world (after race)) "a/post".
Proof.
  assert (taken (world (after race)) "a/post") as Ht.
  { unfold taken. apply (bool_decide_eq_true_1 _). vm_compute. reflexivity. }
  split; [exact Ht|].
  apply (taken_down_stays_down live taken moderation empty (after race)).
  - clear Ht. unfold taken. cbn [down empty]. intros v Hv. exfalso. exact (not_elem_of_empty v Hv).
  - apply take_turns_steps.
  - assert (forallb succeeded (handlers (after race)) = true) as Hall by (vm_compute; reflexivity).
    intros e t Het. rewrite forallb_forall in Hall.
    apply list_elem_of_In, Hall in Het. destruct t as [r|]; [|discriminate Het].
    exists r. split; [reflexivity|]. intros _ Hr. destruct r as [|[]]; done.
  - exact Ht.
Defined.

(** The moderator's tag is read when the post is in the graph and not yet in Redis: it deletes
    both, then the post's handler writes the copy; when it looks again there is no node, which
    counts as removed. Every handler succeeds, and the copy of the post stays in Redis. *)
Definition late_copy : list Turn :=
  StartOf (put_of "a/post") :: replicate 3 (CallOf 0)
  ++ StartOf (put_of "m/tag") :: replicate 12 (CallOf 1) ++ replicate 12 (CallOf 0).

Example redis_copy_stays :
  forallb succeeded (handlers (after late_copy)) = true
  ∧ (there (world (after late_copy)), copies (world (after late_copy)), down (world (after late_copy)))
    = (∅, {["a/post"]}, {["a/post"]}).
Proof. vm_compute. done. Qed.
End Example_race.
