(* ===== verification/Migrations.v ===== *)
(** * The migration manager

    nexusd/src/migrations/manager.rs: migrations and the phase each is at, kept as
    [(:Migration)] nodes of the graph, [run], which performs the phase every registered
    migration is at and moves it on, and [check], which says what [run] has to do. A query
    may fail before or after it took effect, and a phase may fail. What the phases of a
    migration do is its own. *)

From S2P Require Import Prelude Errors Graphs Hosting.
Local Open Scope Z_scope.
Local Open Scope nexus_scope.

(** ** Phases *)

Inductive MigrationPhase := DualWrite | Backfill | Cutover | Cleanup | Done.

#[export] Instance MigrationPhase_eq_dec : EqDecision MigrationPhase.
Proof. solve_decision. Defined.

Definition next (p : MigrationPhase) : option MigrationPhase :=
  match p with
  | DualWrite => Some Backfill
  | Backfill => Some Cutover
  | Cutover => Some Cleanup
  | Cleanup => Some Done
  | Done => None
  end.

Definition to_string (p : MigrationPhase) : string :=
  match p with
  | DualWrite => "dual_write"
  | Backfill => "backfill"
  | Cutover => "cutover"
  | Cleanup => "cleanup"
  | Done => "done"
  end.

(** The derived [Deserialize], with [rename_all = "snake_case"]. *)
Definition deserialize_phase (s : string) : option MigrationPhase :=
  find (λ p, String.eqb (to_string p) s) [DualWrite; Backfill; Cutover; Cleanup; Done].

Lemma deserialize_to_string p : deserialize_phase (to_string p) = Some p.
Proof. by destruct p. Qed.

(** ** Nodes *)

(** A [(:Migration)] node: one made by the update query has no creation time. *)
Record Node := {
  node_id : string;
  node_phase : string;
  node_created_at : option Z;
  node_updated_at : Z;
}.

Record MigrationNode := {
  id : string;
  phase : MigrationPhase;
  created_at : Z;
  updated_at : Z;
}.

Definition decode_node (n : Node) : option MigrationNode :=
  p ← deserialize_phase (node_phase n);
  c ← node_created_at n;
  Some {| id := node_id n; phase := p; created_at := c; updated_at := node_updated_at n |}.

#[export] Instance Node_eq_dec : EqDecision Node.
Proof. solve_decision. Defined.

(** [MERGE] on all the properties. *)
Definition store_migration_query (i : string) (p : MigrationPhase) (now : Z) (nodes : list Node) :
    list Node :=
  let n := {| node_id := i; node_phase := to_string p; node_created_at := Some now;
              node_updated_at := 0 |} in
  if decide (n ∈ nodes) then nodes else nodes ++ [n].

Definition set_phase (i : string) (p : MigrationPhase) (now : Z) (n : Node) : Node :=
  if decide (node_id n = i) then
    {| node_id := i; node_phase := to_string p; node_created_at := node_created_at n;
       node_updated_at := now |}
  else n.

(** [MERGE] on the id, then [SET]. *)
Definition update_migration_phase_query (i : string) (p : MigrationPhase) (now : Z)
    (nodes : list Node) : list Node :=
  if decide (i ∈ map node_id nodes) then map (set_phase i p now) nodes
  else nodes ++ [{| node_id := i; node_phase := to_string p; node_created_at := None;
                    node_updated_at := now |}].

(** ** The manager *)

Inductive DynError :=
  | GraphFailed (e : Graph.GraphError)
  | GetRowError
  | GetMigrationError (e : Graph.GraphError)
  | Message (m : string).

(** A registered migration: what does not depend on the world. *)
Record Migration := { mid : string; is_multi_staged : bool }.

(** What the phases of the migrations do. *)
Class MigrationWork (W : Type) := {
  backfill : Migration → prog W (result unit DynError);
  cutover : Migration → prog W (result unit DynError);
  cleanup : Migration → prog W (result unit DynError);
}.

Record Session (W : Type) := {
  nodes : list Node;
  work : W;
  clocks : list Z;
  trips : list GraphTrip;
}.
Arguments nodes {W} _.
Arguments work {W} _.
Arguments clocks {W} _.
Arguments trips {W} _.

Section Manager.
Context {W : Type} {MW : MigrationWork W}.
Abbreviation PROG A := (prog (Session W) (result A DynError)).

(** A query, on the nodes as they are and at the server's time. *)
Definition query {A} (f : Z → list Node → A * list Node) (failed : Graph.GraphError → DynError) :
    PROG A := λ s,
  let '(a, ns) := f (hd 0 (clocks s)) (nodes s) in
  let after ns ts := {| nodes := ns; work := work s; clocks := tl (clocks s); trips := ts |} in
  match trips s with
  | [] => (Ok a, after ns [])
  | GraphServed :: ts => (Ok a, after ns ts)
  | GraphRefused e :: ts => (Err (failed e), after (nodes s) ts)
  | GraphReplyLost e :: ts => (Err (failed e), after ns ts)
  end.

Definition get_migrations : PROG (list MigrationNode) :=
  let? row := query (λ _ ns, (Some ns, ns)) GetMigrationError in
  match row with
  | Some ns => ret (match mapM decode_node ns with Some ms => Ok ms | None => Err GetRowError end)
  | None => ret (Err (Message "Migration Not found"))
  end.

Definition store_new_migration (i : string) (is_multi_stage : bool) : PROG unit :=
  let initial_phase := if is_multi_stage then DualWrite else Backfill in
  query (λ now ns, (tt, store_migration_query i initial_phase now ns)) GraphFailed.

Definition update_migration_phase (i : string) (p : MigrationPhase) : PROG unit :=
  query (λ now ns, (tt, update_migration_phase_query i p now ns)) GraphFailed.

(** The phases act on their own part of the world. *)
Definition on_work {A} (p : prog W (result A DynError)) : PROG A := λ s,
  let '(r, w) := p (work s) in
  (r, {| nodes := nodes s; work := w; clocks := clocks s; trips := trips s |}).

Definition find_stored (i : string) (stored : list MigrationNode) : option MigrationNode :=
  find (λ m, String.eqb (id m) i) stored.

(** The first loop of [run]. *)
Fixpoint mark_ready (ready : list string) (stored : list MigrationNode) : PROG unit :=
  match stored with
  | [] => ret (Ok tt)
  | m :: stored =>
      let? _ := (if decide (id m ∈ ready) then update_migration_phase (id m) Backfill
                 else ret (Ok tt)) in
      mark_ready ready stored
  end.

(** What a migration found at [p] does, if anything, and where it is then. *)
Definition perform (m : Migration) (p : MigrationPhase) : option (PROG unit) :=
  match p with
  | Backfill => Some (on_work (backfill m))
  | Cutover => Some (on_work (cutover m))
  | Cleanup => Some (on_work (cleanup m))
  | DualWrite | Done => None
  end.

Definition next_phase (m : Migration) (p : MigrationPhase) : option MigrationPhase :=
  if is_multi_staged m then next p else Some Done.

(** A migration at [p]: [continue], or its phase and the move. *)
Definition advance (m : Migration) (p : MigrationPhase) : PROG unit :=
  match perform m p with
  | None => ret (Ok tt)
  | Some performed =>
      let? _ := performed in
      match next_phase m p with
      | Some np => update_migration_phase (mid m) np
      | None => ret (Ok tt)
      end
  end.

(** The body of the second loop of [run]. *)
Definition run_one (stored : list MigrationNode) (m : Migration) : PROG unit :=
  match find_stored (mid m) stored with
  | Some n => advance m (phase n)
  | None =>
      let? _ := store_new_migration (mid m) (is_multi_staged m) in
      if is_multi_staged m then ret (Ok tt) else advance m Backfill
  end.

Fixpoint run_all (stored : list MigrationNode) (migrations : list Migration) : PROG unit :=
  match migrations with
  | [] => ret (Ok tt)
  | m :: migrations =>
      let? _ := run_one stored m in
      run_all stored migrations
  end.

Definition run (migrations : list Migration) (migrations_backfill_ready : list string) : PROG unit :=
  let? stored_migrations := get_migrations in
  let? _ := mark_ready migrations_backfill_ready stored_migrations in
  let? stored_migrations := get_migrations in
  run_all stored_migrations migrations.

Definition is_pending (stored_phase : option MigrationPhase) (backfill_ready : bool) : bool :=
  match stored_phase with
  | None => true
  | Some Done => false
  | Some DualWrite => backfill_ready
  | Some _ => true
  end.

Definition pending_of (ready : list string) (stored : list MigrationNode) (m : Migration) :
    option (string * string) :=
  let n := find_stored (mid m) stored in
  if is_pending (phase <$> n) (bool_decide (mid m ∈ ready)) then
    Some (mid m, default "new" (to_string ∘ phase <$> n))
  else None.

Definition check (migrations : list Migration) (migrations_backfill_ready : list string) :
    PROG (list (string * string)) :=
  let? stored_migrations := get_migrations in
  ret (Ok (omap (pending_of migrations_backfill_ready stored_migrations) migrations)).
End Manager.

(** ** What a run performs *)

Section Properties.
Context {W : Type} {MW : MigrationWork W}.

(** The phases performed so far, oldest first. *)
Abbreviation Log := (list (string * MigrationPhase)).

Definition recorded (i : string) (p : MigrationPhase) (q : prog W (result unit DynError)) :
    prog (W * Log) (result unit DynError) := λ '(w, l),
  let '(r, w') := q w in (r, (w', match r with Ok _ => l ++ [(i, p)] | Err _ => l end)).

#[local] Instance recorded_work : MigrationWork (W * Log) := {
  backfill m := recorded (mid m) Backfill (backfill m);
  cutover m := recorded (mid m) Cutover (cutover m);
  cleanup m := recorded (mid m) Cleanup (cleanup m);
}.

Definition log (s : Session (W * Log)) : Log := snd (work s).

(** What was performed before a migration may be at [p]. *)
Definition reached (m : Migration) (l : Log) (p : MigrationPhase) : Prop :=
  match is_multi_staged m, p with
  | true, (DualWrite | Backfill) | false, Backfill => True
  | true, Cutover | false, Done => (mid m, Backfill) ∈ l
  | true, Cleanup => (mid m, Cutover) ∈ l
  | true, Done => (mid m, Cleanup) ∈ l
  | false, _ => False
  end.

Lemma reached_mono m l l' p : l ⊆ l' → reached m l p → reached m l' p.
Proof. intros Hl. unfold reached. destruct (is_multi_staged m), p; auto. Qed.

Lemma reached_next m l p np q :
  perform (W := W * Log) m p = Some q → next_phase m p = Some np → reached m l p →
  (mid m, p) ∈ l → reached m l np.
Proof.
  unfold reached, next_phase. intros Hp Hnp.
  destruct (is_multi_staged m), p; simplify_eq/=; try done; intros; done.
Qed.

Section History.
Context (ms : list Migration) (Hms : NoDup (map mid ms)).

Lemma same_id m m' : m ∈ ms → m' ∈ ms → mid m = mid m' → m = m'.
Proof.
  intros [i Hi]%list_elem_of_lookup_1 [j Hj]%list_elem_of_lookup_1 Heq.
  assert (i = j) as ->.
  { eapply NoDup_lookup; [exact Hms|..]; rewrite list_lookup_fmap; [by rewrite Hi|].
    rewrite Hj. simpl. by rewrite Heq. }
  congruence.
Qed.

Definition nodes_ok (l : Log) (ns : list Node) : Prop :=
  ∀ n m, n ∈ ns → m ∈ ms → mid m = node_id n →
    ∃ p, node_phase n = to_string p ∧ reached m l p.

Definition in_order (l : Log) : Prop :=
  ∀ k m p, m ∈ ms → l !! k = Some (mid m, p) → reached m (take k l) p.

Definition invariant (s : Session (W * Log)) : Prop :=
  nodes_ok (log s) (nodes s) ∧ in_order (log s).

(** A list of migrations read earlier. *)
Definition read_before (stored : list MigrationNode) (l : Log) : Prop :=
  ∀ n m, n ∈ stored → m ∈ ms → mid m = id n → reached m l (phase n).

Definition good (stored : list MigrationNode) (s : Session (W * Log)) : Prop :=
  invariant s ∧ read_before stored (log s).

Lemma query_good {A} (f : Z → list Node → A * list Node) failed stored s :
  (∀ now, nodes_ok (log s) (snd (f now (nodes s)))) → good stored s →
  yields (query f failed) s
    (λ a s', good stored s' ∧ log s' = log s ∧ ∃ now, a = fst (f now (nodes s)))
    (λ _ s', invariant s').
Proof.
  intros Hf [[Hn Ho] Hr]. unfold yields, query. specialize (Hf (hd 0 (clocks s))).
  destruct (f (hd 0 (clocks s)) (nodes s)) as [a ns] eqn:Ha; simpl in Hf.
  destruct (trips s) as [|[|e|e] ts]; repeat split; try done; eexists; by rewrite Ha.
Qed.

Lemma store_nodes_ok l i p now ns :
  (∀ m, m ∈ ms → mid m = i → reached m l p) → nodes_ok l ns →
  nodes_ok l (store_migration_query i p now ns).
Proof.
  intros Hp Hns. unfold store_migration_query. case_decide; [done|].
  intros n m [Hn| ->%list_elem_of_singleton]%elem_of_app Hm Hid; [by eapply Hns|].
  simpl in *. eauto.
Qed.

Lemma update_nodes_ok l i p now ns :
  (∀ m, m ∈ ms → mid m = i → reached m l p) → nodes_ok l ns →
  nodes_ok l (update_migration_phase_query i p now ns).
Proof.
  intros Hp Hns. unfold update_migration_phase_query. case_decide.
  - intros n m (n0 & -> & Hn)%list_elem_of_fmap Hm. unfold set_phase.
    case_decide; simpl; [eauto|by apply Hns].
  - intros n m [Hn| ->%list_elem_of_singleton]%elem_of_app Hm Hid; [by eapply Hns|].
    simpl in *. eauto.
Qed.

Lemma update_good i p stored s :
  (∀ m, m ∈ ms → mid m = i → reached m (log s) p) → good stored s →
  yields (update_migration_phase i p) s (λ _, good stored) (λ _, invariant).
Proof.
  intros Hp Hg. eapply yields_mono; [apply query_good; [|exact Hg]|by intros ?? [? _]|done].
  intros now. apply update_nodes_ok; [done|apply Hg].
Qed.

Lemma decode_nodes_read l ns stored :
  nodes_ok l ns → mapM decode_node ns = Some stored → read_before stored l.
Proof.
  intros Hns Hd%mapM_Some n m [k Hk]%list_elem_of_lookup_1 Hm Hid.
  destruct (Forall2_lookup_r _ _ _ _ _ Hd Hk) as (n0 & Hn0 & Hdec).
  unfold decode_node in Hdec. destruct (deserialize_phase _) as [p|] eqn:Hp; [|done].
  destruct (node_created_at n0); simplify_eq/=.
  destruct (Hns n0 m) as (p' & Hp' & ?); [by eapply list_elem_of_lookup_2|done|done|].
  rewrite Hp', deserialize_to_string in Hp. by simplify_eq.
Qed.

Lemma get_migrations_good s :
  invariant s → yields get_migrations s good (λ _, invariant).
Proof.
  intros Hs. apply yields_ebind. eapply yields_mono; [apply (query_good _ _ []); [|split]| |done].
  - intros now. apply Hs.
  - done.
  - intros n m []%not_elem_of_nil.
  - intros a s' ([Hs' _] & Hlog & now & ->). apply yields_ret.
    simpl. destruct (mapM _ _) as [stored|] eqn:Hd; [|done]. split; [done|].
    rewrite Hlog. by eapply decode_nodes_read; [apply Hs|].
Qed.

Lemma mark_ready_good ready stored stored' s :
  good stored s → yields (mark_ready ready stored') s (λ _, invariant) (λ _, invariant).
Proof.
  revert s. induction stored' as [|n stored' IH]; intros s Hs; [apply yields_ret, Hs|].
  apply yields_ebind. case_decide; [|apply yields_ret; by apply IH].
  eapply yields_mono; [apply update_good; [|exact Hs]|intros ? s'; apply IH|done].
  intros m _ _. unfold reached. by destruct (is_multi_staged m).
Qed.

Lemma perform_good m p q stored s :
  m ∈ ms → reached m (log s) p → perform m p = Some q → good stored s →
  yields q s (λ _ s', good stored s' ∧ (mid m, p) ∈ log s' ∧ log s ⊆ log s') (λ _, invariant).
Proof.
  intros Hm Hp Hq [[Hn Ho] Hr].
  assert (∃ pr, q = on_work (recorded (mid m) p pr)) as [pr ->].
  { destruct p; simplify_eq/=; eauto. }
  destruct s as [ns [w l] cs ts]. unfold yields, on_work, recorded, log in *; simpl in *.
  destruct (pr w) as [[[]|e] w'] eqn:Hpr; simpl; [|done].
  assert (l ⊆ l ++ [(mid m, p)]) as Hl by (intros x ?; apply elem_of_app; by left).
  split_and!; [|apply elem_of_app; right; by apply list_elem_of_singleton|done].
  split; [split|]; unfold log; simpl.
  - intros n m' Hin Hm' Hid. destruct (Hn n m' Hin Hm' Hid) as (p' & ? & ?). eauto using reached_mono.
  - intros k m' p' Hm' [Hk|[Hlen Hk]]%lookup_app_Some.
    + rewrite take_app_le by (apply lookup_lt_Some in Hk; lia). by apply Ho.
    + apply list_lookup_singleton_Some in Hk as [Hk [= Hid <-]].
      rewrite (same_id m' m) by done. replace k with (length l) by lia. by rewrite take_app_length.
  - intros n m' ???. eauto using reached_mono.
Qed.

Lemma advance_good m p stored s :
  m ∈ ms → reached m (log s) p → good stored s →
  yields (advance m p) s (λ _, good stored) (λ _, invariant).
Proof.
  intros Hm Hp Hs. unfold advance. destruct (perform m p) as [q|] eqn:Hq; [|by apply yields_ret].
  apply yields_ebind. eapply yields_mono; [by apply perform_good| |done].
  intros ? s' (Hs' & Hin & Hsub). destruct (next_phase m p) as [np|] eqn:Hnp; [|by apply yields_ret].
  apply update_good; [|done]. intros m' Hm' Hid. rewrite (same_id m' m) by done.
  eapply reached_next; [done..| |done]. by eapply reached_mono.
Qed.

Lemma find_stored_Some i stored n :
  find_stored i stored = Some n → n ∈ stored ∧ id n = i.
Proof. intros [Hn Hi%String.eqb_eq]%find_some. split; [by apply list_elem_of_In|done]. Qed.

Lemma run_one_good stored m s :
  m ∈ ms → good stored s → yields (run_one stored m) s (λ _, good stored) (λ _, invariant).
Proof.
  intros Hm Hs. unfold run_one. destruct (find_stored (mid m) stored) as [n|] eqn:Hn.
  - apply find_stored_Some in Hn as [Hn Hid]. apply advance_good; [done| |done].
    by apply Hs.
  - apply yields_ebind. eapply yields_mono; [apply query_good; [|exact Hs]| |done].
    + intros now. apply store_nodes_ok; [|apply Hs]. intros m' Hm' Hid.
      rewrite (same_id m' m) by done. unfold reached. by destruct (is_multi_staged m).
    + intros ? s' [Hs' _]. destruct (is_multi_staged m) eqn:Hmulti; [by apply yields_ret|].
      apply advance_good; [done| |done]. unfold reached. by rewrite Hmulti.
Qed.

Lemma run_good ready s : invariant s → invariant (snd (run ms ready s)).
Proof.
  intros Hs. assert (yields (run ms ready) s (λ _, invariant) (λ _, invariant)) as Hy.
  { apply yields_ebind. eapply yields_mono; [by apply get_migrations_good| |done].
    intros stored s1 Hs1. apply yields_ebind.
    eapply yields_mono; [by eapply mark_ready_good| |done]. intros ? s2 Hs2.
    apply yields_ebind. eapply yields_mono; [by apply get_migrations_good| |done].
    intros stored' s3 Hs3. assert (∀ ms', ms' ⊆ ms →
      yields (run_all stored' ms') s3 (λ _, invariant) (λ _, invariant)) as Hall; [|by apply Hall].
    clear -Hs3 Hms. intros ms'. revert s3 Hs3. induction ms' as [|m ms' IH]; intros s3 Hs3 Hsub.
    { apply yields_ret, Hs3. }
    apply yields_ebind. eapply yields_mono; [apply run_one_good; [set_solver|done]| |done].
    intros ? s4 Hs4. apply IH; [done|set_solver]. }
  unfold yields in Hy. by destruct (run ms ready s) as [[|] s'].
Qed.

(** A later run: another process, time and list, the graph as it was left. *)
Definition a_run (s s' : Session (W * Log)) : Prop :=
  ∃ ready w cs ts, s' = snd (run ms ready
    {| nodes := nodes s; work := (w, log s); clocks := cs; trips := ts |}).
End History.

(** whatever queries and phases fail, and however often the manager is run again and
    with whatever migrations marked ready, phases are performed in their order, each only
    once the one before it succeeded, and a migration is recorded as past a phase, or
    done, only if that phase was performed with success. *)
Theorem phases_in_order ms s s' :
  NoDup (map mid ms) → nodes s = [] → log s = [] → rtc (a_run ms) s s' →
  ∀ m, m ∈ ms →
    (∀ k p, log s' !! k = Some (mid m, p) → reached m (take k (log s')) p)
    ∧ ∀ n, n ∈ nodes s' → node_id n = mid m →
        ∃ p, node_phase n = to_string p ∧ reached m (log s') p.
Proof.
  intros Hms Hn Hl Hruns.
  assert (invariant ms s') as [Hnodes Horder].
  { assert (invariant ms s) as Hs.
    { split; rewrite ?Hn, ?Hl; [intros n m []%not_elem_of_nil|by intros ??? _ ?]. }
    clear Hn Hl. induction Hruns as [|s s1 s2 (ready & w & cs & ts & ->) _ IH]; [done|].
    apply IH. by apply run_good. }
  intros m Hm. split; [by intros k p; apply Horder|].
  intros n ? ?. by apply Hnodes.
Qed.

(** ** What [check] promises of [run] *)

(** What a run does with a migration, by the nodes it read. *)
Definition work_of (stored : list MigrationNode) (m : Migration) : Log :=
  match phase <$> find_stored (mid m) stored with
  | None => if is_multi_staged m then [] else [(mid m, Backfill)]
  | Some DualWrite | Some Done => []
  | Some p => [(mid m, p)]
  end.

Definition ids (s : Session (W * Log)) : list string := map node_id (nodes s).

(** Every phase succeeds. *)
Context (Hbackfill : ∀ m (w : W), fst (backfill m w) = Ok tt).
Context (Hcutover : ∀ m (w : W), fst (cutover m w) = Ok tt).
Context (Hcleanup : ∀ m (w : W), fst (cleanup m w) = Ok tt).

Definition serving (s : Session (W * Log)) : Prop := trips s = [].

Lemma query_serves {A} (f : Z → list Node → A * list Node) failed s :
  serving s → ∃ now s', query f failed s = (Ok (fst (f now (nodes s))), s')
    ∧ nodes s' = snd (f now (nodes s)) ∧ log s' = log s ∧ serving s'.
Proof.
  intros Hs. exists (hd 0 (clocks s)). unfold query. rewrite Hs.
  destruct (f (hd 0 (clocks s)) (nodes s)) as [a ns]. eexists. by split_and!.
Qed.

Lemma set_phase_id i p now n : node_id (set_phase i p now n) = node_id n.
Proof. unfold set_phase. by case_decide. Qed.

Lemma update_ids i p now ns :
  map node_id (update_migration_phase_query i p now ns)
  = if decide (i ∈ map node_id ns) then map node_id ns else map node_id ns ++ [i].
Proof.
  unfold update_migration_phase_query. case_decide; [|by rewrite map_app].
  rewrite map_map. apply map_ext. intros n. apply set_phase_id.
Qed.

Lemma update_serves i p s :
  serving s → i ∈ ids s → ∃ now s', update_migration_phase i p s = (Ok tt, s')
    ∧ nodes s' = map (set_phase i p now) (nodes s) ∧ log s' = log s ∧ serving s' ∧ ids s' = ids s.
Proof.
  intros Hs Hi. unfold update_migration_phase.
  destruct (query_serves (λ now ns, (tt, update_migration_phase_query i p now ns)) GraphFailed s Hs)
    as (now & s' & Hq & Hn & Hl & Hs'). exists now, s'. split; [done|].
  unfold ids. rewrite Hn. simpl. rewrite update_ids, decide_True by done.
  split_and!; [|done..]. unfold update_migration_phase_query. by rewrite decide_True.
Qed.

Lemma perform_serves m p q s :
  serving s → perform m p = Some q → ∃ s', q s = (Ok tt, s')
    ∧ nodes s' = nodes s ∧ log s' = log s ++ [(mid m, p)] ∧ serving s'.
Proof.
  intros Hs Hq. destruct s as [ns [w l] cs ts].
  destruct p; simplify_eq/=; unfold on_work, recorded; simpl;
    [specialize (Hbackfill m w); destruct (backfill m w) as [r w']
    |specialize (Hcutover m w); destruct (cutover m w) as [r w']
    |specialize (Hcleanup m w); destruct (cleanup m w) as [r w']];
    simpl in *; subst r; eexists; by split_and!.
Qed.

Lemma advance_serves m p s :
  serving s → mid m ∈ ids s → ∃ s', advance m p s = (Ok tt, s')
    ∧ ids s' = ids s ∧ serving s'
    ∧ log s' = log s ++ match p with DualWrite | Done => [] | _ => [(mid m, p)] end.
Proof.
  intros Hs Hi. unfold advance. destruct (perform (W := W * Log) m p) as [q|] eqn:Hq; cycle 1.
  { exists s. split_and!; [done..|]. destruct p; try done; by rewrite app_nil_r. }
  destruct (perform_serves m p q s Hs Hq) as (s1 & Hrun & Hn & Hl & Hs1).
  unfold ebind. rewrite Hrun. assert (ids s1 = ids s) as Hids by (unfold ids; by rewrite Hn).
  destruct (next_phase m p) as [np|].
  - destruct (update_serves (mid m) np s1 Hs1) as (now & s2 & -> & _ & Hl2 & Hs2 & Hids2);
      [by rewrite Hids|]. exists s2. rewrite Hids2, Hl2, Hl. split_and!; [done..|]. by destruct p.
  - exists s1. rewrite Hl. split_and!; [done..|]. by destruct p.
Qed.

Lemma store_serves i b s :
  serving s → ∃ s', store_new_migration i b s = (Ok tt, s')
    ∧ (∀ j, j ∈ ids s' ↔ j ∈ ids s ∨ j = i) ∧ log s' = log s ∧ serving s'.
Proof.
  intros Hs. unfold store_new_migration.
  destruct (query_serves (λ now ns, (tt, store_migration_query i (if b then DualWrite else Backfill) now ns))
    GraphFailed s Hs) as (now & s' & Hq & Hn & Hl & Hs'). exists s'. split_and!; [done| |done..].
  intros j. unfold ids. rewrite Hn. simpl. unfold store_migration_query. case_decide as Hin.
  - split; [auto|]. intros [?| ->]; [done|]. apply list_elem_of_fmap. eexists. by split; [|exact Hin].
  - rewrite map_app, elem_of_app. simpl. by rewrite list_elem_of_singleton.
Qed.

Lemma find_stored_None i stored : find_stored i stored = None ↔ i ∉ map id stored.
Proof.
  unfold find_stored. induction stored as [|n stored IH]; simpl.
  { split; [intros _ []%not_elem_of_nil|done]. }
  destruct (String.eqb_spec (id n) i) as [<-|Hne]; [split; [done|set_solver]|].
  rewrite IH. set_solver.
Qed.

Lemma run_one_serves stored m s :
  serving s → map id stored ⊆ ids s → ∃ s', run_one stored m s = (Ok tt, s')
    ∧ serving s' ∧ log s' = log s ++ work_of stored m
    ∧ ∀ j, j ∈ ids s' ↔ j ∈ ids s ∨ j = mid m ∧ mid m ∉ map id stored.
Proof.
  intros Hs Hsub. unfold run_one, work_of.
  destruct (find_stored (mid m) stored) as [n|] eqn:Hf; simpl.
  - apply find_stored_Some in Hf as [Hn Hid].
    assert (mid m ∈ map id stored) as Hin by (rewrite <- Hid; by apply list_elem_of_fmap_2).
    destruct (advance_serves m (phase n) s Hs) as (s' & Hrun & Hids & Hs' & Hl); [by apply Hsub|].
    exists s'. rewrite Hids. split_and!; [done..|by destruct (phase n)|]. intros j. tauto.
  - apply find_stored_None in Hf.
    destruct (store_serves (mid m) (is_multi_staged m) s Hs) as (s1 & Hst & Hids & Hl & Hs1).
    unfold ebind. rewrite Hst. destruct (is_multi_staged m).
    + exists s1. rewrite Hl, app_nil_r. split_and!; [done..|]. intros j. rewrite Hids. tauto.
    + destruct (advance_serves m Backfill s1 Hs1) as (s' & Hrun & Hids' & Hs' & Hl');
        [apply Hids; auto|]. exists s'. rewrite Hl', Hl, Hids'. split_and!; [done..|].
      intros j. rewrite Hids. tauto.
Qed.

Lemma run_all_serves stored ms s :
  serving s → map id stored ⊆ ids s → ∃ s', run_all stored ms s = (Ok tt, s')
    ∧ serving s' ∧ log s' = log s ++ (ms ≫= work_of stored)
    ∧ ∀ j, j ∈ ids s' ↔ j ∈ ids s ∨ j ∈ map mid ms ∧ j ∉ map id stored.
Proof.
  revert s. induction ms as [|m ms IH]; intros s Hs Hsub; simpl.
  { exists s. rewrite app_nil_r. split_and!; [done..|]. intros j. split; [auto|].
    intros [?|[[]%not_elem_of_nil _]]; done. }
  destruct (run_one_serves stored m s Hs Hsub) as (s1 & H1 & Hs1 & Hl1 & Hids1).
  destruct (IH s1 Hs1) as (s2 & H2 & Hs2 & Hl2 & Hids2).
  { intros j Hj. apply Hids1. left. by apply Hsub. }
  exists s2. unfold ebind. rewrite H1. split_and!; [done..| |].
  - by rewrite Hl2, Hl1, <- (assoc_L (++)).
  - intros j. rewrite Hids2, Hids1, elem_of_cons. naive_solver.
Qed.

(** Marking sets the phase of the migrations that are ready, and changes no other. *)
Definition marks (ready : list string) (n n' : Node) : Prop :=
  node_id n' = node_id n ∧ node_created_at n' = node_created_at n
  ∧ node_phase n' = if decide (node_id n ∈ ready) then to_string Backfill else node_phase n.

Lemma marks_none ns : Forall2 (marks []) ns ns.
Proof.
  apply Forall_Forall2_diag, Forall_forall. intros n _. split_and!; [done..|].
  by rewrite decide_False by apply not_elem_of_nil.
Qed.

Lemma set_phase_marks i now ns : Forall2 (marks [i]) ns (map (set_phase i Backfill now) ns).
Proof.
  apply Forall2_fmap_r, Forall_Forall2_diag, Forall_forall. intros n _. simpl. unfold marks, set_phase.
  destruct (decide (node_id n = i)) as [Hi|Hi]; destruct (decide (node_id n ∈ [i])) as [Hin|Hin];
    rewrite list_elem_of_singleton in Hin; done.
Qed.

Lemma marks_app l1 l2 ns1 ns2 ns3 :
  Forall2 (marks l1) ns1 ns2 → Forall2 (marks l2) ns2 ns3 → Forall2 (marks (l1 ++ l2)) ns1 ns3.
Proof.
  intros H1. revert ns3. induction H1 as [|n1 n2 ns1 ns2 (Hi1 & Hc1 & Hp1) _ IH]; intros ns3 H2;
    inversion H2 as [|? n3 ? ns3' (Hi2 & Hc2 & Hp2) H2']; subst; constructor; [|by apply IH].
  unfold marks. rewrite Hi2, Hc2, Hp2, Hp1, Hi1, Hc1. split_and!; [done..|].
  destruct (decide (node_id n1 ∈ l1 ++ l2)) as [H|H]; rewrite elem_of_app in H;
    repeat case_decide; tauto.
Qed.

Lemma marks_ids ready ns ns' : Forall2 (marks ready) ns ns' → map node_id ns' = map node_id ns.
Proof. induction 1 as [|n n' ns ns' [Hn _] _ IH]; simpl; congruence. Qed.

Lemma mark_ready_serves ready stored s :
  serving s → map id stored ⊆ ids s → ∃ s', mark_ready ready stored s = (Ok tt, s')
    ∧ Forall2 (marks (filter (.∈ ready) (map id stored))) (nodes s) (nodes s')
    ∧ log s' = log s ∧ serving s'.
Proof.
  revert s. induction stored as [|n stored IH]; intros s Hs Hsub; simpl.
  { exists s. split_and!; [done|apply marks_none|done..]. }
  rewrite filter_cons. case_decide as Hr; unfold ebind.
  - destruct (update_serves (id n) Backfill s Hs) as (now & s1 & -> & Hn1 & Hl1 & Hs1 & Hids1);
      [set_solver|].
    destruct (IH s1 Hs1) as (s2 & Hrun & Hm & Hl2 & Hs2); [rewrite Hids1; set_solver|].
    exists s2. split_and!; [done| |congruence|done].
    apply (marks_app [id n] _ _ (nodes s1)); [|done]. rewrite Hn1. apply set_phase_marks.
  - apply IH; [done|set_solver].
Qed.

Lemma decode_ids ns stored : mapM decode_node ns = Some stored → map id stored = map node_id ns.
Proof.
  intros Hd%mapM_Some. induction Hd as [|n m ns stored Hn _ IH]; [done|]. simpl. f_equal; [|done].
  unfold decode_node in Hn. destruct (deserialize_phase _), (node_created_at n); by simplify_eq/=.
Qed.

(** The phase a run finds. *)
Definition marked (ready : list string) (n : MigrationNode) : MigrationPhase :=
  if decide (id n ∈ ready) then Backfill else phase n.

Lemma decode_marked ready ns ns' stored :
  mapM decode_node ns = Some stored →
  Forall2 (marks (filter (.∈ ready) (map id stored))) ns ns' →
  ∃ stored', mapM decode_node ns' = Some stored'
    ∧ ∀ i, phase <$> find_stored i stored' = marked ready <$> find_stored i stored.
Proof.
  intros Hd Hm. assert (∀ n m, decode_node n = Some m → m ∈ stored → ∀ n',
    marks (filter (.∈ ready) (map id stored)) n n' →
    ∃ m', decode_node n' = Some m' ∧ id m' = id m ∧ phase m' = marked ready m) as Hone.
  { intros n m Hn Hin n' (Hi & Hc & Hp). unfold decode_node in *. rewrite Hp, Hc.
    destruct (deserialize_phase (node_phase n)) as [p|] eqn:Hph; [|done].
    destruct (node_created_at n) as [c|]; [|done]. simpl in Hn. injection Hn as <-.
    unfold marked. simpl. apply (list_elem_of_fmap_2 id) in Hin. simpl in Hin.
    case_decide as Hf.
    - eexists. split_and!; [done|done|].
      apply list_elem_of_filter in Hf as [Hr _]. by rewrite decide_True.
    - rewrite Hph. simpl. eexists. split_and!; [done|done|].
      rewrite decide_False; [done|]. intros Hr. by apply Hf, list_elem_of_filter. }
  apply mapM_Some in Hd. revert Hm Hone. generalize (filter (.∈ ready) (map id stored)) as l.
  intros l. revert ns'. induction Hd as [|n m ns stored Hn _ IH]; intros ns' Hm Hone.
  { apply Forall2_nil_inv_l in Hm as ->. by exists []. }
  apply Forall2_cons_inv_l in Hm as (n' & ns'' & Hn' & Hm & ->).
  destruct (Hone n m Hn ltac:(by left) n' Hn') as (m' & Hd' & Hid & Hp).
  destruct (IH ns'' Hm) as (stored' & Hs' & Hfind); [intros n0 m0 Hn0 Hin; apply (Hone n0 m0 Hn0); by right|].
  exists (m' :: stored'). simpl. rewrite Hd'. simpl. rewrite Hs'. split; [done|].
  intros i. simpl. rewrite Hid. case_match; [|apply Hfind]. simpl. by rewrite Hp.
Qed.

Lemma get_migrations_serves s stored :
  serving s → mapM decode_node (nodes s) = Some stored →
  ∃ s', get_migrations s = (Ok stored, s') ∧ nodes s' = nodes s ∧ log s' = log s ∧ serving s'.
Proof.
  intros Hs Hd. destruct (query_serves (λ _ ns, (Some ns, ns)) GetMigrationError s Hs)
    as (now & s' & Hq & Hn & Hl & Hs'). exists s'. split_and!; [|done..].
  unfold get_migrations, ebind. rewrite Hq. simpl. unfold ret. by rewrite Hd.
Qed.

Lemma pending_iff ready stored ms m :
  m ∈ ms → (mid m ∈ map fst (omap (pending_of ready stored) ms)
    ↔ is_pending (phase <$> find_stored (mid m) stored) (bool_decide (mid m ∈ ready)) = true).
Proof.
  intros Hm. split.
  - intros ([i p] & Hi & Hex)%list_elem_of_fmap.
    apply list_elem_of_omap in Hex as (m' & _ & Hm').
    unfold pending_of in Hm'. destruct (is_pending _ _) eqn:Hp; [|done].
    injection Hm' as <- <-. simpl in Hi. by rewrite Hi.
  - intros Hp. apply list_elem_of_fmap.
    exists (mid m, default "new" (to_string ∘ phase <$> find_stored (mid m) stored)). split; [done|].
    apply list_elem_of_omap. exists m. split; [done|]. unfold pending_of. by rewrite Hp.
Qed.

(** when nothing fails, [check] changes nothing and announces exactly the registered
    migrations that the next run stores as new or performs a phase of, as long as no
    migration already done is marked ready for backfill. *)
Theorem check_mirrors_run ms ready s stored :
  serving s → mapM decode_node (nodes s) = Some stored →
  (∀ n, n ∈ stored → phase n = Done → id n ∉ ready) →
  ∃ pending s1 s2,
    check ms ready s = (Ok pending, s1) ∧ nodes s1 = nodes s ∧ log s1 = log s
    ∧ run ms ready s = (Ok tt, s2)
    ∧ ∀ m, m ∈ ms →
        (mid m ∈ map fst pending ↔
         ((mid m ∉ ids s) ∧ mid m ∈ ids s2) ∨ ∃ p, (mid m, p) ∈ drop (length (log s)) (log s2)).
Proof.
  intros Hs Hd Hdone. destruct (get_migrations_serves s stored Hs Hd) as (s1 & Hg & Hn1 & Hl1 & Hs1).
  assert (map id stored ⊆ ids s1) as Hsub by (unfold ids; by rewrite Hn1, (decode_ids _ _ Hd)).
  destruct (mark_ready_serves ready stored s1 Hs1 Hsub) as (s2 & Hmark & Hm & Hl2 & Hs2).
  rewrite Hn1 in Hm. destruct (decode_marked ready _ _ _ Hd Hm) as (stored' & Hd' & Hfind).
  destruct (get_migrations_serves s2 stored' Hs2 Hd') as (s3 & Hg' & Hn3 & Hl3 & Hs3).
  assert (ids s3 = ids s) as Hids3 by (unfold ids; by rewrite Hn3, (marks_ids _ _ _ Hm)).
  assert (map id stored' = ids s) as Hids'
    by (by rewrite (decode_ids _ _ Hd'), (marks_ids _ _ _ Hm)).
  destruct (run_all_serves stored' ms s3 Hs3) as (s4 & Hrun & _ & Hl4 & Hids4); [by rewrite Hids', Hids3|].
  eexists _, s1, s4. split_and!; [unfold check, ebind, ret; by rewrite Hg|done|done| |].
  { unfold run, ebind. by rewrite Hg, Hmark, Hg'. }
  intros m Hmm. rewrite pending_iff by done. rewrite Hids4, Hids3, Hids', Hl4, Hl3, Hl2, Hl1, drop_app_length.
  specialize (Hfind (mid m)).
  destruct (find_stored (mid m) stored) as [n|] eqn:Hf; simpl in *.
  - apply find_stored_Some in Hf as [Hn Hid]. specialize (Hdone n Hn). unfold marked in Hfind.
    assert (mid m ∈ ids s) as Hin.
    { rewrite <- Hids', (decode_ids _ _ Hd'), (marks_ids _ _ _ Hm), <- (decode_ids _ _ Hd), <- Hid.
      by apply list_elem_of_fmap_2. }
    rewrite Hid in *. transitivity (∃ p, (mid m, p) ∈ work_of stored' m); cycle 1.
    { split.
      - intros [p Hp]. right. exists p. apply list_elem_of_bind. by exists m.
      - intros [[]|[p Hp]]; [done|]. apply list_elem_of_bind in Hp as (m' & Hp & _).
        assert (mid m' = mid m) as Heq.
        { unfold work_of in Hp. repeat case_match; set_solver. }
        exists p. unfold work_of in *. rewrite Heq in Hp. rewrite Hfind in *. done. }
    unfold work_of. rewrite Hfind.
    destruct (decide (mid m ∈ ready)) as [Hr|Hr]; simpl;
      [rewrite bool_decide_true by done|rewrite bool_decide_false by done];
      destruct (phase n); simpl; (split; [try done; intros _; eexists; by left|]);
      intros [p Hp]; try done; first [by apply not_elem_of_nil in Hp|by destruct (Hdone eq_refl)].
  - split; [|done]. intros _. left.
    apply find_stored_None in Hf. rewrite (decode_ids _ _ Hd) in Hf. unfold ids in *.
    rewrite (decode_ids _ _ Hd') , (marks_ids _ _ _ Hm) in *.
    split; [done|]. right. split; [by apply list_elem_of_fmap_2|done].
Qed.
End Properties.

(** ** Two migrations, and a manager run on them *)

Module Example_manager.
(** Every phase succeeds and does nothing. *)
#[export] Instance work_done : MigrationWork unit := {
  backfill _ := ret (Ok tt);
  cutover _ := ret (Ok tt);
  cleanup _ := ret (Ok tt);
}.

Definition single : Migration := {| mid := "post_flag"; is_multi_staged := false |}.
Definition staged : Migration := {| mid := "new_keys"; is_multi_staged := true |}.
Definition registered : list Migration := [single; staged].

Abbreviation S := (Session (unit * list (string * MigrationPhase))).

Definition fresh : S := {| nodes := []; work := (tt, []); clocks := []; trips := [] |}.

#[local] Existing Instance recorded_work.

(** A run, then one with the staged migration marked ready. *)
Definition once : S := snd (run registered [] fresh).
Definition twice : S := snd (run registered ["new_keys"] once).

Lemma phases_in_order_witness :
  log twice = [("post_flag", Backfill); ("new_keys", Backfill)]
  ∧ reached staged (take 1 (log twice)) Backfill.
Proof.
  split; [reflexivity|].
  refine (proj1 (phases_in_order registered fresh twice _ _ _ _ staged _) 1%nat Backfill _).
  - apply NoDup_cons. split; [by intros ?%list_elem_of_singleton|apply NoDup_singleton].
  - reflexivity.
  - reflexivity.
  - apply (rtc_l _ fresh once); [|apply rtc_once].
    + exists [], tt, [], []. reflexivity.
    + exists ["new_keys"], tt, [], []. reflexivity.
  - right. left.
  - reflexivity.
Defined.

Lemma check_mirrors_run_witness :
  ∃ pending s1, check registered ["new_keys"] once = (Ok pending, s1)
    ∧ mid staged ∈ map fst pending.
Proof.
  destruct (check_mirrors_run (MW := work_done) ltac:(reflexivity) ltac:(reflexivity)
    ltac:(reflexivity) registered ["new_keys"] once
    [{| id := "post_flag"; phase := Done; created_at := 0; updated_at := 0 |};
     {| id := "new_keys"; phase := DualWrite; created_at := 0; updated_at := 0 |}])
    as (pending & s1 & s2 & Hcheck & _ & _ & Hrun & Hm).
  - reflexivity.
  - reflexivity.
  - intros n [->|[->|[]%elem_of_nil]%elem_of_cons]%elem_of_cons; [|done].
    intros _ ?%list_elem_of_singleton. done.
  - exists pending, s1. split; [exact Hcheck|]. apply (Hm staged); [right; left|].
    right. exists Backfill. apply (f_equal snd) in Hrun. simpl in Hrun. subst s2. left.
Defined.

(** The exception is real: a migration that is done, marked ready, is announced by
    nothing and performed again. *)
Lemma done_migration_is_redone :
  fst (check [single] ["post_flag"] once) = Ok []
  ∧ log (snd (run [single] ["post_flag"] once)) = log once ++ [("post_flag", Backfill)].
Proof. split; reflexivity. Qed.
End Example_manager.
