(* ===== verification/UriBackfill.v ===== *)
(** * A migration that fills in addresses from the event log

    nexusd/src/migrations/catalog/uri_backfill_1791196997.rs over the event list
    (models/event, db/kv/index/lists.rs): posts, users and tag edges indexed before the
    watcher stored their [uri] get one, page by page of the log, in transactions that may
    commit in part before a failure. Every instance is stopped meanwhile. *)

From S2P Require Import Prelude Errors Events.
Local Open Scope nexus_scope.
#[local] Remove Hints finite.finite_countable : typeclass_instances.

(** ** The graph, as far as the migration reads it *)

Record PostNode := { author : option string; post_uri : option string }.

Inductive TargetKind := ToPost | ToUser | ToResource.

Record TagEdge := {
  tagger : string;
  target : TargetKind;
  tag_id : option string;
  app : option string;
  edge_uri : option string;
}.

(** Posts by id, the [uri] of users by id, and tag edges by the graph's own ids. *)
Record TagGraph := {
  posts : gmap string PostNode;
  users : gmap string (option string);
  edges : gmap nat TagEdge;
}.

Definition set_posts (f : gmap string PostNode → gmap string PostNode) (g : TagGraph) : TagGraph :=
  {| posts := f (posts g); users := users g; edges := edges g |}.
Definition set_users (f : gmap string (option string) → gmap string (option string)) (g : TagGraph) : TagGraph :=
  {| posts := posts g; users := f (users g); edges := edges g |}.
Definition set_edges (f : gmap nat TagEdge → gmap nat TagEdge) (g : TagGraph) : TagGraph :=
  {| posts := posts g; users := users g; edges := f (edges g) |}.

(** A query that is not served: how many of its rows were committed before. *)
Inductive GraphTrip := Served | Failed (rows : nat) (e : Graph.GraphError).

Inductive DynError :=
  | FromGraph (e : Graph.GraphError)
  | FromRedis (e : Kv.RedisError)
  | Message (text : string).

Record BackfillWorld := {
  graph : TagGraph;
  (** the list [Event:Events] *)
  log : list string;
  graph_trips : list GraphTrip;
  redis_trips : list (option Kv.RedisError);
}.

Definition M (A : Type) : Type := prog BackfillWorld (result A DynError).

Definition with_graph (g : TagGraph) (ts : list GraphTrip) (w : BackfillWorld) : BackfillWorld :=
  {| graph := g; log := log w; graph_trips := ts; redis_trips := redis_trips w |}.

(** [run_count] of a query that writes row by row; [IN TRANSACTIONS] commits some of them
    and fails, a single transaction none or, when only the reply is lost, all. *)
Definition run_count {R} (rows : TagGraph → list R) (write : R → TagGraph → TagGraph) (in_transactions : bool) : M nat := λ w,
  let todo := rows (graph w) in
  let after rs := foldl (λ g r, write r g) (graph w) rs in
  match graph_trips w with
  | [] => (Ok (length todo), with_graph (after todo) [] w)
  | Served :: ts => (Ok (length todo), with_graph (after todo) ts w)
  | Failed n e :: ts =>
      let committed := if in_transactions then take n todo else if decide (n = 0)%nat then [] else todo in
      (Err (FromGraph e), with_graph (after committed) ts w)
  end.

(** LRANGE from [start], [limit] lines at most; no answer for none. *)
Definition try_from_index_list (start limit : nat) : prog BackfillWorld (result (option (list string)) Kv.RedisError) := λ w,
  let found := take limit (drop start (log w)) in
  let answer := match found with [] => None | _ => Some found end in
  let rest ts := {| graph := graph w; log := log w; graph_trips := graph_trips w; redis_trips := ts |} in
  match redis_trips w with
  | [] => (Ok answer, w)
  | None :: ts => (Ok answer, rest ts)
  | Some e :: ts => (Err e, rest ts)
  end.

(** [EventLine::get_from_index] *)
Definition get_from_index (cursor : option nat) (limit : nat) : prog BackfillWorld (result (list string * nat) Kv.RedisError) :=
  let start := default 0%nat cursor in
  let? result := try_from_index_list start limit in
  let events := default [] result in
  ret (Ok (events, (start + length events)%nat)).

Section Backfill.
Context {SP : Specs}.

(** ** What a page of the log says *)

Record PageUris := { edge_uris : gmap (string * string) string; profile_uris : gmap string string }.

Definition fold_line (page : PageUris) (line : string) : PageUris :=
  match parse_event line with
  | Ok (Parsed event) =>
      if decide (event_type event = Put) then
        let user_id := uri_user_id (parsed_uri event) in
        match uri_resource (parsed_uri event) with
        | Tag tag_id =>
            {| edge_uris := <[(user_id, tag_id) := uri event]> (edge_uris page); profile_uris := profile_uris page |}
        | User =>
            {| edge_uris := edge_uris page; profile_uris := <[user_id := uri event]> (profile_uris page) |}
        | _ => page
        end
      else page
  | _ => page
  end.

Definition fold_page (lines : list string) : PageUris :=
  foldl fold_line {| edge_uris := ∅; profile_uris := ∅ |} lines.

(** ** The queries *)

(** Posts of an author without a uri. *)
Definition posts_without_uri (g : TagGraph) : list (string * string) :=
  omap (λ '(p, n), match author n, post_uri n with Some a, None => Some (a, p) | _, _ => None end)
    (map_to_list (posts g)).

Definition post_address (author_id post_id : string) : string :=
  "pubky://" +:+ author_id +:+ "/pub/pubky.app/posts/" +:+ post_id.

Definition write_post (r : string * string) : TagGraph → TagGraph :=
  set_posts (alter (λ n, {| author := author n; post_uri := Some (post_address (fst r) (snd r)) |}) (snd r)).

(** What the log calls an edge: tagger and tag id; edges to resources are left out. *)
Definition edge_key (e : TagEdge) : option (string * string) :=
  match target e with
  | ToPost | ToUser => (λ i, (tagger e, i)) <$> tag_id e
  | ToResource => None
  end.

Definition with_uri (u : string) (e : TagEdge) : TagEdge :=
  {| tagger := tagger e; target := target e; tag_id := tag_id e; app := app e; edge_uri := Some u |}.

Definition write_edge (r : (string * string) * string) : TagGraph → TagGraph :=
  set_edges (fmap (λ e, if decide (edge_key e = Some (fst r)) then with_uri (snd r) e else e)).

Definition write_user (r : string * string) : TagGraph → TagGraph :=
  set_users (alter (λ _, Some (snd r)) (fst r)).

(** Tag edges with an id and still no uri. *)
Definition edges_without_uri (g : TagGraph) : list (nat * string) :=
  omap (λ '(n, e), match tag_id e, edge_uri e with Some i, None => Some (n, i) | _, _ => None end)
    (map_to_list (edges g)).

Definition folder_address (e : TagEdge) (id : string) : string :=
  "pubky://" +:+ tagger e +:+ "/pub/" +:+ default "pubky.app" (app e) +:+ "/tags/" +:+ id.

Definition write_folder (r : nat * string) : TagGraph → TagGraph :=
  set_edges (alter (λ e, with_uri (folder_address e (snd r)) e) (fst r)).

(** ** The migration *)

Definition EVENT_PAGE_SIZE : nat := Z.to_nat 1000.

(** Step 2 from a cursor on. *)
Fixpoint read_log (fuel : nat) (cursor : nat) : M unit :=
  match fuel with
  | O => ret (Err (Message "out of fuel"))
  | S fuel =>
      let? read := emap_err FromRedis (get_from_index (Some cursor) EVENT_PAGE_SIZE) in
      match fst read with
      | [] => ret (Ok tt)
      | lines =>
          let page := fold_page lines in
          let? _ := (if decide (edge_uris page = ∅) then ret (Ok 0%nat)
                     else run_count (λ _, map_to_list (edge_uris page)) write_edge false) in
          let? _ := (if decide (profile_uris page = ∅) then ret (Ok 0%nat)
                     else run_count (λ _, map_to_list (profile_uris page)) write_user false) in
          if decide (length lines < EVENT_PAGE_SIZE)%nat then ret (Ok tt) else read_log fuel (snd read)
      end
  end.

Definition backfill (fuel : nat) : M unit :=
  let? _ := run_count posts_without_uri write_post true in
  let? _ := read_log fuel 0 in
  let? _ := run_count edges_without_uri write_folder true in
  let? remaining := run_count (λ g, (fst <$> posts_without_uri g) ++ (snd <$> edges_without_uri g)) (λ _ g, g) false in
  if decide (remaining ≠ 0)%nat then
    ret (Err (Message ("UriBackfill migration: " +:+ pretty remaining +:+ " posts or tag edges still have no uri.")))
  else ret (Ok tt).

(** ** What it is to lead to *)

(** The address of a tag file, as the last line that puts it has it; and of a profile. *)
Definition tag_line (k : string * string) (line : string) : option string :=
  match parse_event line with
  | Ok (Parsed event) =>
      match event_type event, uri_resource (parsed_uri event) with
      | Put, Tag id => if decide ((uri_user_id (parsed_uri event), id) = k) then Some (uri event) else None
      | _, _ => None
      end
  | _ => None
  end.

Definition profile_line (user_id : string) (line : string) : option string :=
  match parse_event line with
  | Ok (Parsed event) =>
      match event_type event, uri_resource (parsed_uri event) with
      | Put, User => if decide (uri_user_id (parsed_uri event) = user_id) then Some (uri event) else None
      | _, _ => None
      end
  | _ => None
  end.

Definition or_else {A} (x y : option A) : option A := match x with Some _ => x | None => y end.

Definition addressed_edge (lines : list string) (e : TagEdge) : TagEdge :=
  match tag_id e with
  | None => e
  | Some id =>
      let logged := edge_key e ≫= λ k, last (omap (tag_line k) lines) in
      {| tagger := tagger e; target := target e; tag_id := Some id; app := app e;
         edge_uri := or_else logged (or_else (edge_uri e) (Some (folder_address e id))) |}
  end.

Definition addressed_post (p : string) (n : PostNode) : PostNode :=
  {| author := author n; post_uri := or_else (post_uri n) ((λ a, post_address a p) <$> author n) |}.

Definition addressed (lines : list string) (g : TagGraph) : TagGraph := {|
  posts := map_imap (λ p n, Some (addressed_post p n)) (posts g);
  users := map_imap (λ u x, Some (or_else (last (omap (profile_line u) lines)) x)) (users g);
  edges := addressed_edge lines <$> edges g;
|}.

(** One run of the migration on a graph, with calls failing as told, and several. *)
Definition attempt (fuel : nat) (lines : list string) (g : TagGraph)
    (trips : list GraphTrip * list (option Kv.RedisError)) : result unit DynError * TagGraph :=
  let '(r, w) := backfill fuel {| graph := g; log := lines; graph_trips := fst trips; redis_trips := snd trips |} in
  (r, graph w).

Definition after_attempts (fuel : nat) (lines : list string) :
    TagGraph → list (list GraphTrip * list (option Kv.RedisError)) → TagGraph :=
  foldl (λ g trips, snd (attempt fuel lines g trips)).

(** ** Folds over rows *)

Lemma foldl_kept {V V' R} (F : V → V') (step : V → R → V) v rs :
  (∀ v' r, r ∈ rs → F v' = F v → F (step v' r) = F v) → F (foldl step v rs) = F v.
Proof.
  intros Hstep. assert (∀ v', F v' = F v → F (foldl step v' rs) = F v) as H; [|by apply H].
  induction rs as [|r rs IH]; intros v' Hv'; [done|]. simpl. apply IH.
  - intros ?? Hr. apply Hstep. by right.
  - by apply Hstep; [left|].
Qed.

Lemma foldl_alter `{Countable K} {V R} (f : R → V → V) (key : R → K) (m : gmap K V) rs k :
  foldl (λ m r, alter (f r) (key r) m) m rs !! k
  = (λ v, foldl (λ v r, if decide (key r = k) then f r v else v) v rs) <$> (m !! k).
Proof.
  revert m. induction rs as [|r rs IH]; intros m; simpl; [by destruct (m !! k)|].
  rewrite IH. destruct (decide (key r = k)) as [<-|Hk].
  - rewrite lookup_alter_eq. by destruct (m !! key r).
  - by rewrite lookup_alter_ne by done.
Qed.

Lemma foldl_fmap `{Countable K} {V R} (f : R → V → V) (m : gmap K V) rs :
  foldl (λ m r, f r <$> m) m rs = (λ v, foldl (λ v r, f r v) v rs) <$> m.
Proof.
  revert m. induction rs as [|r rs IH]; intros m; simpl; [by rewrite map_fmap_id|].
  by rewrite IH, <- map_fmap_compose.
Qed.

(** Rows with keys of their own: the one row of the value's key is what counts. *)
Lemma foldl_once `{Countable K} {V} (key : V → option K) (set : string → V → V) rs v :
  (∀ u v, key (set u v) = key v) → NoDup (rs.*1) →
  foldl (λ v r, if decide (key v = Some (fst r)) then set (snd r) v else v) v rs
  = match key v ≫= λ k, (list_to_map rs : gmap K string) !! k with Some u => set u v | None => v end.
Proof.
  intros Hset. revert v. induction rs as [|[k u] rs IH]; intros v Hrs; [by destruct (key v)|].
  apply NoDup_cons in Hrs as [Hk Hrs]. cbn [foldl fst snd]. rewrite IH by done.
  case_decide as Hv; rewrite ?Hset.
  - rewrite Hv. simpl. rewrite lookup_insert_eq.
    by rewrite (not_elem_of_list_to_map_1 (M := gmap K) rs k Hk).
  - destruct (key v) as [k'|] eqn:Hk'; [|done]. simpl. rewrite lookup_insert_ne by congruence. done.
Qed.

(** ** What the queries write *)

Lemma foldl_write_posts rs g :
  foldl (λ g r, write_post r g) g rs
  = set_posts (λ m, foldl (λ m r, alter (λ n, {| author := author n;
      post_uri := Some (post_address (fst r) (snd r)) |}) (snd r) m) m rs) g.
Proof. revert g. induction rs as [|r rs IH]; intros g; [by destruct g|]. simpl. by rewrite IH. Qed.

Lemma foldl_write_edges rs g :
  foldl (λ g r, write_edge r g) g rs
  = set_edges (λ m, foldl (λ m r, (λ e, if decide (edge_key e = Some (fst r)) then with_uri (snd r) e else e) <$> m) m rs) g.
Proof. revert g. induction rs as [|r rs IH]; intros g; [by destruct g|]. simpl. by rewrite IH. Qed.

Lemma foldl_write_users rs g :
  foldl (λ g r, write_user r g) g rs = set_users (λ m, foldl (λ m r, alter (λ _, Some (snd r)) (fst r) m) m rs) g.
Proof. revert g. induction rs as [|r rs IH]; intros g; [by destruct g|]. simpl. by rewrite IH. Qed.

Lemma foldl_write_folders rs g :
  foldl (λ g r, write_folder r g) g rs
  = set_edges (λ m, foldl (λ m r, alter (λ e, with_uri (folder_address e (snd r)) e) (fst r) m) m rs) g.
Proof. revert g. induction rs as [|r rs IH]; intros g; [by destruct g|]. simpl. by rewrite IH. Qed.

Lemma elem_of_posts_without_uri g a p :
  (a, p) ∈ posts_without_uri g ↔ posts g !! p = Some {| author := Some a; post_uri := None |}.
Proof.
  unfold posts_without_uri. rewrite list_elem_of_omap. split.
  - intros ([p' [[a'|] [u|]]] & Hin & [= -> ->]). by apply elem_of_map_to_list in Hin.
  - intros Hp. by exists (p, {| author := Some a; post_uri := None |}); rewrite elem_of_map_to_list.
Qed.

Lemma elem_of_edges_without_uri g n i :
  (n, i) ∈ edges_without_uri g ↔ ∃ e, edges g !! n = Some e ∧ tag_id e = Some i ∧ edge_uri e = None.
Proof.
  unfold edges_without_uri. rewrite list_elem_of_omap. split.
  - intros ([n' e] & Hin & Heq). apply elem_of_map_to_list in Hin. simpl in Heq.
    destruct (tag_id e) eqn:?, (edge_uri e) eqn:?; simplify_eq. eauto.
  - intros (e & He & Hi & Hu). exists (n, e). rewrite elem_of_map_to_list. simpl. by rewrite Hi, Hu.
Qed.

(** ** The page of the log *)

Lemma fold_page_snoc lines line : fold_page (lines ++ [line]) = fold_line (fold_page lines) line.
Proof. unfold fold_page. by rewrite foldl_app. Qed.

Lemma last_snoc_or {A} (l : list A) (o : option A) :
  last (l ++ from_option (λ x, [x]) [] o) = or_else o (last l).
Proof. destruct o; simpl; [apply last_snoc|by rewrite app_nil_r]. Qed.

Lemma omap_snoc {A B} (f : A → option B) l x : omap f (l ++ [x]) = omap f l ++ from_option (λ y, [y]) [] (f x).
Proof. rewrite omap_app. simpl. by destruct (f x). Qed.

Lemma last_omap_app {A B} (f : A → option B) l1 l2 :
  last (omap f (l1 ++ l2)) = or_else (last (omap f l2)) (last (omap f l1)).
Proof. rewrite omap_app, last_app. by destruct (last (omap f l2)). Qed.

Lemma fold_page_lookup lines :
  (∀ k, edge_uris (fold_page lines) !! k = last (omap (tag_line k) lines))
  ∧ (∀ u, profile_uris (fold_page lines) !! u = last (omap (profile_line u) lines)).
Proof.
  induction lines as [|line lines [IHe IHp]] using rev_ind; [done|].
  split; intros k; rewrite fold_page_snoc, omap_snoc, last_snoc_or, <- ?IHe, <- ?IHp;
    unfold fold_line, tag_line, profile_line; destruct (parse_event line) as [[event| |]|]; try done;
    destruct (event_type event), (uri_resource (parsed_uri event)); try done; simpl;
    rewrite ?decide_True by done; simpl; case_decide; simplify_eq/=;
    by rewrite ?lookup_insert_eq, ?lookup_insert_ne by done.
Qed.

(** ** Rows write what the addresses are to be *)

Lemma map_imap_alter_kept `{Countable K} {V R} (F : K → V → V) (f : R → V → V) (key : R → K) (m : gmap K V) rs :
  (∀ v v' r, r ∈ rs → m !! key r = Some v → F (key r) v' = F (key r) v → F (key r) (f r v') = F (key r) v) →
  map_imap (λ k v, Some (F k v)) (foldl (λ m r, alter (f r) (key r) m) m rs) = map_imap (λ k v, Some (F k v)) m.
Proof.
  intros Hf. apply map_eq. intros k. rewrite !map_lookup_imap, foldl_alter.
  destruct (m !! k) as [v|] eqn:Hv; [|done]. simpl. f_equal. apply foldl_kept.
  intros v' r Hr Hv'. case_decide as Hk; [|done]. subst k. by eapply Hf.
Qed.

Lemma addressed_posts lines rs g :
  rs ⊆ posts_without_uri g → addressed lines (foldl (λ g r, write_post r g) g rs) = addressed lines g.
Proof.
  intros Hrs. rewrite foldl_write_posts. unfold addressed. f_equal. simpl.
  apply map_imap_alter_kept. intros v v' [a p] Hr Hv Heq. simpl in *.
  apply Hrs, elem_of_posts_without_uri in Hr. rewrite Hr in Hv. injection Hv as <-.
  unfold addressed_post in *. simpl in *. by injection Heq as ->.
Qed.

Lemma addressed_edge_as lines e e' u :
  addressed_edge lines e' = addressed_edge lines e →
  or_else (edge_key e ≫= λ k, last (omap (tag_line k) lines)) (Some u)
  = or_else (edge_key e ≫= λ k, last (omap (tag_line k) lines))
      (or_else (edge_uri e) ((λ id, folder_address e id) <$> tag_id e)) →
  is_Some (tag_id e) → addressed_edge lines (with_uri u e') = addressed_edge lines e.
Proof.
  intros Heq Hu [id Hid]. rewrite Hid in Hu. simpl in Hu.
  unfold addressed_edge in *. rewrite Hid in *. simpl. destruct (tag_id e') as [id'|] eqn:Hid'.
  - injection Heq as Htagger Htarget <- Happ _.
    assert (edge_key (with_uri u e') = edge_key e) as Hk
      by (unfold edge_key; simpl; by rewrite Htarget, Hid', Hid, Htagger).
    rewrite Hk, Htagger, Htarget, Happ, <- Hu. by destruct (edge_key e ≫= _).
  - subst e'. simpl in Hid'. done.
Qed.

Lemma addressed_folders lines rs g :
  rs ⊆ edges_without_uri g → addressed lines (foldl (λ g r, write_folder r g) g rs) = addressed lines g.
Proof.
  intros Hrs. rewrite foldl_write_folders. unfold addressed. f_equal. simpl.
  apply map_eq. intros k. rewrite !lookup_fmap, foldl_alter.
  destruct (edges g !! k) as [e|] eqn:He; [|done]. simpl. f_equal. apply foldl_kept.
  intros e' [n i] Hr He'. case_decide as Hk; [|done]. simpl in *. subst n.
  apply Hrs, elem_of_edges_without_uri in Hr as (e0 & He0 & Hi & Hu). rewrite He in He0. injection He0 as <-.
  assert (folder_address e' i = folder_address e i) as ->.
  { unfold addressed_edge in He'. rewrite Hi in He'. destruct (tag_id e'); [|by subst e'].
    injection He' as Ht _ _ Ha _. unfold folder_address. by rewrite Ht, Ha. }
  apply addressed_edge_as; [done| |by rewrite Hi]. by rewrite Hi, Hu.
Qed.

Lemma addressed_page_edges lines page g :
  (∀ k u, page !! k = Some u → is_Some (last (omap (tag_line k) lines))) →
  addressed lines (foldl (λ g r, write_edge r g) g (map_to_list page)) = addressed lines g.
Proof.
  intros Hpage. rewrite foldl_write_edges. unfold addressed. f_equal. simpl.
  rewrite foldl_fmap, <- map_fmap_compose. apply map_fmap_ext. intros n e _. simpl.
  rewrite foldl_once, list_to_map_to_list by (done || apply NoDup_fst_map_to_list).
  destruct (edge_key e) as [k|] eqn:Hk; [|done]. simpl. destruct (page !! k) as [u|] eqn:Hu; [|done].
  destruct (Hpage _ _ Hu) as [u' Hu']. apply addressed_edge_as; [done|by rewrite Hk; simpl; rewrite Hu'|].
  unfold edge_key in Hk. destruct (target e), (tag_id e); naive_solver.
Qed.

Lemma write_users_lookup page g u :
  users (foldl (λ g r, write_user r g) g (map_to_list page)) !! u
  = (λ x, or_else (page !! u) x) <$> (users g !! u).
Proof.
  rewrite foldl_write_users. simpl. rewrite foldl_alter. destruct (users g !! u) as [x|]; [|done]. simpl. f_equal.
  assert (∀ rs : list (string * string), foldl (λ (v : option string) r, if decide (fst r = u) then Some (snd r) else v) x rs
    = foldl (λ v r, if decide ((λ _, Some u) v = Some (fst r)) then Some (snd r) else v) x rs) as ->.
  { intros rs. revert x. induction rs as [|r rs IH]; intros x; [done|]. simpl. rewrite IH. f_equal.
    repeat case_decide; naive_solver. }
  rewrite (foldl_once (λ _, Some u) (λ u _, Some u)) by (done || apply NoDup_fst_map_to_list).
  simpl. rewrite list_to_map_to_list. by destruct (page !! u).
Qed.

Lemma addressed_page_users lines page g :
  (∀ u a, page !! u = Some a → is_Some (last (omap (profile_line u) lines))) →
  addressed lines (foldl (λ g r, write_user r g) g (map_to_list page)) = addressed lines g.
Proof.
  intros Hpage. unfold addressed. f_equal; [by rewrite foldl_write_users| |by rewrite foldl_write_users].
  apply map_eq. intros u. rewrite !map_lookup_imap, write_users_lookup.
  destruct (users g !! u) as [x|]; [|done]. simpl. f_equal. destruct (page !! u) as [a|] eqn:Ha; [|done].
  by destruct (Hpage _ _ Ha) as [? ->].
Qed.

(** ** What a run leads to *)

Definition quiet (w : BackfillWorld) : Prop := graph_trips w = [] ∧ redis_trips w = [].

Definition upholds (w w' : BackfillWorld) : Prop :=
  log w' = log w ∧ addressed (log w) (graph w') = addressed (log w) (graph w).

(** Whatever the answer the addresses to be are kept; an error has a call to blame. *)
Definition leads {A} (m : M A) (w : BackfillWorld) (Q : A → TagGraph → Prop) : Prop :=
  yields m w (λ a w', upholds w w' ∧ (quiet w → quiet w') ∧ Q a (graph w')) (λ _ w', upholds w w' ∧ ¬ quiet w).

Lemma upholds_refl w : upholds w w.
Proof. done. Qed.

Lemma upholds_trans w1 w2 w3 : upholds w1 w2 → upholds w2 w3 → upholds w1 w3.
Proof. intros [Hl Ha] [Hl' Ha']. split; [congruence|]. rewrite Hl in Ha'. congruence. Qed.

Lemma leads_ret {A} (a : A) w (Q : A → TagGraph → Prop) : Q a (graph w) → leads (ret (Ok a)) w Q.
Proof. intros HQ. by apply yields_ret. Qed.

Lemma leads_ebind {A B} (m : M A) (k : A → M B) w Q R :
  leads m w Q → (∀ a w', log w' = log w → Q a (graph w') → leads (k a) w' R) → leads (ebind m k) w R.
Proof.
  intros Hm Hk. apply yields_ebind. eapply yields_mono; [exact Hm| |done].
  intros a w' (Hup & Hq & HQ). eapply yields_mono; [by apply Hk; [apply Hup|]| |].
  - intros b w'' (Hup' & Hq' & HR). split; [by eapply upholds_trans|]. auto.
  - intros e w'' (Hup' & Hq'). split; [by eapply upholds_trans|]. auto.
Qed.

Lemma leads_mono {A} (m : M A) w (Q Q' : A → TagGraph → Prop) :
  leads m w Q → (∀ a g, Q a g → Q' a g) → leads m w Q'.
Proof. intros Hm HQ. eapply yields_mono; [exact Hm| |done]. naive_solver. Qed.

Lemma leads_run_count {R} (rows : TagGraph → list R) write txs w :
  (∀ rs, rs = [] ∨ rs ⊆ rows (graph w) ∧ (txs = true ∨ rs = rows (graph w)) →
    addressed (log w) (foldl (λ g r, write r g) (graph w) rs) = addressed (log w) (graph w)) →
  leads (run_count rows write txs) w
    (λ n g, n = length (rows (graph w)) ∧ g = foldl (λ g r, write r g) (graph w) (rows (graph w))).
Proof.
  intros Hrs. unfold leads, yields, run_count, upholds, quiet.
  destruct (graph_trips w) as [|[|n e] ts] eqn:Hw; simpl.
  - split_and!; try done; try (apply Hrs; auto); naive_solver.
  - split_and!; try done; try (apply Hrs; auto); naive_solver.
  - split_and!; try done; [|naive_solver]. apply Hrs.
    destruct txs; [right; split; [|by left]; intros x Hx; by eapply subseteq_take|]. case_decide; auto.
Qed.

Lemma leads_page cursor w :
  leads (emap_err FromRedis (get_from_index (Some cursor) EVENT_PAGE_SIZE)) w
    (λ read g, let lines := take EVENT_PAGE_SIZE (drop cursor (log w)) in
      fst read = lines ∧ snd read = (cursor + length lines)%nat ∧ g = graph w).
Proof.
  unfold leads. apply yields_emap_err. unfold get_from_index, yields, ebind, ret, try_from_index_list. simpl.
  set (lines := take EVENT_PAGE_SIZE (drop cursor (log w))).
  assert (default [] match lines with [] => None | _ => Some lines end = lines) as Hd by (by destruct lines).
  unfold quiet. destruct (redis_trips w) as [|[e|] ts] eqn:Hw; simpl; rewrite ?Hd.
  - split_and!; try done; naive_solver.
  - split_and!; try done; naive_solver.
  - split_and!; try done; naive_solver.
Qed.

(** ** Step 2: how far the log is read *)

(** The first [n] lines stand in the graph. *)
Definition settled (lines : list string) (n : nat) (g : TagGraph) : Prop :=
  (∀ i e k u, edges g !! i = Some e → edge_key e = Some k →
    last (omap (tag_line k) (take n lines)) = Some u → edge_uri e = Some u)
  ∧ (∀ user x u, users g !! user = Some x →
    last (omap (profile_line user) (take n lines)) = Some u → x = Some u).

Lemma write_edges_lookup page g i e' :
  edges (foldl (λ g r, write_edge r g) g (map_to_list page)) !! i = Some e' →
  ∃ e, edges g !! i = Some e ∧ edge_key e' = edge_key e
    ∧ edge_uri e' = or_else (edge_key e ≫= λ k, page !! k) (edge_uri e).
Proof.
  rewrite foldl_write_edges. simpl. rewrite foldl_fmap, lookup_fmap.
  intros (e & He & ->)%fmap_Some. exists e. split; [done|].
  rewrite foldl_once, list_to_map_to_list by (done || apply NoDup_fst_map_to_list).
  destruct (edge_key e) as [k|] eqn:Hk; simpl; [|done]. by destruct (page !! k).
Qed.

Lemma settled_page lines n g g' :
  let page := fold_page (take EVENT_PAGE_SIZE (drop n lines)) in
  settled lines n g →
  g' = foldl (λ g r, write_user r g) (foldl (λ g r, write_edge r g) g (map_to_list (edge_uris page)))
    (map_to_list (profile_uris page)) →
  settled lines (n + EVENT_PAGE_SIZE) g'.
Proof.
  intros page [Hse Hsu] ->. destruct (fold_page_lookup (take EVENT_PAGE_SIZE (drop n lines))) as [Hpe Hpp].
  fold page in Hpe, Hpp. split.
  - intros i e k u He Hk. rewrite foldl_write_users in He. simpl in He.
    apply write_edges_lookup in He as (e0 & He0 & Hk0 & ->).
    rewrite <- take_take_drop, last_omap_app, <- Hpe, <- Hk0, Hk. simpl.
    destruct (edge_uris page !! k); simpl; [done|]. intros Hu. eapply Hse; [done|by rewrite <- Hk0|done].
  - intros user x u Hx. rewrite write_users_lookup in Hx. apply fmap_Some in Hx as (x0 & Hx0 & ->).
    rewrite <- take_take_drop, last_omap_app, <- Hpp.
    destruct (profile_uris page !! user); simpl; [done|]. apply Hsu.
    by rewrite foldl_write_edges in Hx0.
Qed.

Lemma page_rows_logged {K} (f : K → string → option string) k n m lines u :
  last (omap (f k) (take m (drop n lines))) = Some u → is_Some (last (omap (f k) lines)).
Proof.
  intros Hu. rewrite <- (take_drop n lines), <- (take_drop m (drop n lines)), !last_omap_app, Hu.
  by destruct (last (omap (f k) (drop m (drop n lines)))); simpl.
Qed.

(** The query of a page, skipped when the page has no rows for it. *)
Lemma leads_page_query {K} `{Countable K} (page : gmap K string) write w :
  addressed (log w) (foldl (λ g r, write r g) (graph w) (map_to_list page)) = addressed (log w) (graph w) →
  leads (if decide (page = ∅) then ret (Ok 0%nat) else run_count (λ _, map_to_list page) write false) w
    (λ _ g, g = foldl (λ g r, write r g) (graph w) (map_to_list page)).
Proof.
  intros Hpage. case_decide as Hp.
  - apply leads_ret. by rewrite Hp, map_to_list_empty.
  - eapply leads_mono; [apply leads_run_count|by intros ?? [? ?]].
    intros rs [->|[_ [?| ->]]]; by simpl.
Qed.

Lemma leads_read_log fuel n w :
  settled (log w) n (graph w) → (n ≤ length (log w))%nat → (length (log w) < n + fuel * EVENT_PAGE_SIZE)%nat →
  leads (read_log fuel n) w (λ _ g, settled (log w) (length (log w)) g ∧ posts g = posts (graph w)).
Proof.
  revert n w. induction fuel as [|fuel IH]; intros n w Hs Hn Hfuel; [simpl in Hfuel; lia|].
  cbn [read_log]. eapply leads_ebind; [apply leads_page|]. intros [lines next] w1 Hl1 (Hlines & Hnext & Hw1).
  cbn [fst snd] in Hlines, Hnext |- *. rewrite <- Hl1, <- Hw1 in *. clear w Hl1 Hw1.
  destruct (fold_page_lookup lines) as [Hpe Hpp].
  assert (∀ g', settled (log w1) (n + EVENT_PAGE_SIZE) g' → (length (log w1) ≤ n + EVENT_PAGE_SIZE)%nat →
    settled (log w1) (length (log w1)) g') as Hend.
  { intros g' Hg' Hlen. unfold settled in *. by rewrite !take_ge in Hg' |- * by lia. }
  assert (length lines = min EVENT_PAGE_SIZE (length (log w1) - n)) as Hlen
    by (by rewrite Hlines, length_take, length_drop).
  destruct lines as [|line lines'] eqn:Hl.
  { apply leads_ret. split; [|done]. rewrite length_nil in Hlen. assert (n = length (log w1)) as <- by (unfold EVENT_PAGE_SIZE in Hlen; lia).
    done. }
  rewrite <- Hl in *. clear Hl line lines'.
  eapply leads_ebind.
  { apply leads_page_query, addressed_page_edges. intros k u Hu. rewrite Hpe, Hlines in Hu. by eapply page_rows_logged. }
  intros c2 w2 Hl2 Hw2. eapply leads_ebind.
  { apply leads_page_query, addressed_page_users. intros k u Hu. rewrite Hpp, Hlines in Hu. rewrite Hl2. by eapply page_rows_logged. }
  intros c3 w3 Hl3 Hw3. rewrite Hl2 in Hl3. rewrite Hw2 in Hw3.
  assert (settled (log w1) (n + EVENT_PAGE_SIZE) (graph w3)) as Hs3
    by (eapply settled_page; [done|by rewrite <- Hlines]).
  assert (posts (graph w3) = posts (graph w1)) as Hp3
    by (rewrite Hw3, foldl_write_users, foldl_write_edges; done).
  rewrite <- Hl3, <- Hp3 in *. case_decide as Hlast.
  - apply leads_ret. split; [|done]. apply Hend; [done|]. lia.
  - apply IH; rewrite Hnext, <- Hlines; [|lia|lia].
    by replace (n + length lines)%nat with (n + EVENT_PAGE_SIZE)%nat by lia.
Qed.

(** ** The other steps leave nothing behind *)

Lemma empty_of_none {A} (l : list A) : (∀ x, x ∉ l) → l = [].
Proof. destruct l as [|x l]; [done|]. intros Hl. by destruct (Hl x); left. Qed.

(** What a row asks for stays the case once the row has had its turn. *)
Lemma foldl_reaches {V R} (P : V → Prop) (step : V → R → V) v rs :
  (∀ v' r, P v' → P (step v' r)) → (P v ∨ ∃ r, r ∈ rs ∧ ∀ v', P (step v' r)) → P (foldl step v rs).
Proof.
  intros Hkeep Hv. revert v Hv. induction rs as [|r rs IH]; intros v Hv; simpl.
  - destruct Hv as [?|(r & Hr & _)]; [done|by apply elem_of_nil in Hr].
  - apply IH. destruct Hv as [Hv|(r' & [->|Hr]%elem_of_cons & Hset)]; eauto.
Qed.

Lemma write_posts_leave_none g :
  posts_without_uri (foldl (λ g r, write_post r g) g (posts_without_uri g)) = [].
Proof.
  apply empty_of_none. intros [a p] Hp. apply elem_of_posts_without_uri in Hp.
  rewrite foldl_write_posts in Hp. simpl in Hp. rewrite foldl_alter in Hp. apply fmap_Some in Hp as (n & Hn & Heq).
  assert (∀ v : PostNode, v = {| author := Some a; post_uri := None |} →
    ¬ (author v = None ∨ is_Some (post_uri v))) as Hopen by (intros v -> [?|[??]]; done).
  apply (Hopen _ (eq_sym Heq)), foldl_reaches.
  - intros v r Hv. case_decide; [right; by eexists|done].
  - destruct (author n) as [a'|] eqn:Ha; [|auto]. destruct (post_uri n) as [u|] eqn:Hu; [eauto|].
    right. exists (a', p). split; [apply elem_of_posts_without_uri; rewrite Hn; destruct n; by simplify_eq/=|].
    intros v. simpl. rewrite decide_True by done. right. by eexists.
Qed.

Lemma write_folders_leave_none g :
  edges_without_uri (foldl (λ g r, write_folder r g) g (edges_without_uri g)) = [].
Proof.
  apply empty_of_none. intros [n i] Hi. apply elem_of_edges_without_uri in Hi as (e' & He' & Hi & Hu).
  rewrite foldl_write_folders in He'. simpl in He'. rewrite foldl_alter in He'. apply fmap_Some in He' as (e & He & ->).
  assert (∀ v : TagEdge, tag_id v = Some i → edge_uri v = None →
    ¬ (tag_id v = None ∨ is_Some (edge_uri v))) as Hopen by (intros v -> -> [?|[??]]; done).
  apply (Hopen _ Hi Hu), foldl_reaches.
  - intros v r Hv. case_decide; [right; by eexists|done].
  - destruct (tag_id e) as [i'|] eqn:Hi'; [|auto]. destruct (edge_uri e) as [u|] eqn:Hu'; [eauto|].
    right. exists (n, i'). split; [apply elem_of_edges_without_uri; by exists e|].
    intros v. simpl. rewrite decide_True by done. right. by eexists.
Qed.

(** Folders are recorded on edges the log does not name. *)
Lemma settled_folders lines rs g :
  settled lines (length lines) g → rs ⊆ edges_without_uri g →
  settled lines (length lines) (foldl (λ g r, write_folder r g) g rs).
Proof.
  intros [Hse Hsu] Hrs. rewrite foldl_write_folders. split; [|done]. simpl.
  intros i e' k u He' Hk Hu. rewrite foldl_alter in He'. apply fmap_Some in He' as (e & He & ->).
  assert (edge_key e = Some k ∧ edge_uri e = Some u) as [Hke Hue].
  { rewrite <- Hk. assert (edge_key e = edge_key (foldl (λ v r, if decide (fst r = i)
      then with_uri (folder_address v (snd r)) v else v) e rs)) as Hsame.
    { symmetry. apply (foldl_kept edge_key). intros v' r _ Hv'. by case_decide. }
    split; [done|]. eapply Hse; [done|by rewrite Hsame|done]. }
  rewrite <- Hue. apply (foldl_kept edge_uri). intros v' [n id] Hr Hv'. case_decide as Hn; [|done]. simpl in Hn. subst n.
  apply Hrs, elem_of_edges_without_uri in Hr as (e0 & He0 & _ & Hu0). congruence.
Qed.

Lemma settled_addressed lines g :
  settled lines (length lines) g → posts_without_uri g = [] → edges_without_uri g = [] →
  g = addressed lines g.
Proof.
  intros [Hse Hsu] Hposts Hedges. unfold settled in *. rewrite take_ge in Hse, Hsu by lia.
  destruct g as [ps us es]. unfold addressed. simpl in *. f_equal; apply map_eq; intros k.
  - rewrite map_lookup_imap. destruct (ps !! k) as [[[a|] [u|]]|] eqn:Hp; try done. exfalso.
    eapply (not_elem_of_nil (a, k)). rewrite <- Hposts. by apply elem_of_posts_without_uri.
  - rewrite map_lookup_imap. destruct (us !! k) as [x|] eqn:Hu; [|done]. simpl. f_equal.
    destruct (last (omap (profile_line k) lines)) eqn:Hl; [|done]. by eapply Hsu.
  - rewrite lookup_fmap. destruct (es !! k) as [e|] eqn:He; [|done]. simpl. f_equal. unfold addressed_edge.
    destruct (tag_id e) as [id|] eqn:Hid; [|done].
    destruct (edge_uri e) as [u|] eqn:Hu.
    + assert (or_else (edge_key e ≫= λ k, last (omap (tag_line k) lines)) (Some u) = Some u) as Hlogged.
      { destruct (edge_key e ≫= _) as [u'|] eqn:Hl; [|done]. apply bind_Some in Hl as (key & Hkey & Hl).
        simpl. rewrite <- Hu. symmetry. by eapply Hse. }
      simpl. rewrite Hlogged. destruct e. by simplify_eq/=.
    + exfalso. eapply (not_elem_of_nil (k, id)). rewrite <- Hedges. apply elem_of_edges_without_uri. by exists e.
Qed.

Lemma posts_without_uri_posts g g' : posts g = posts g' → posts_without_uri g = posts_without_uri g'.
Proof. unfold posts_without_uri. by intros ->. Qed.

Lemma leads_backfill fuel w :
  (length (log w) < fuel * EVENT_PAGE_SIZE)%nat →
  leads (backfill fuel) w (λ _ g, settled (log w) (length (log w)) g ∧ posts_without_uri g = [] ∧ edges_without_uri g = []).
Proof.
  intros Hfuel. unfold backfill. eapply leads_ebind.
  { apply leads_run_count. intros rs [->|[Hrs _]]; [done|by apply addressed_posts]. }
  intros n1 w1 Hl1 [_ Hg1]. eapply leads_ebind.
  { apply leads_read_log; [|lia|by rewrite Hl1]. by split. }
  intros [] w2 Hl2 [Hs2 Hp2]. rewrite Hl1 in *.
  assert (posts_without_uri (graph w2) = []) as Hn2
    by (rewrite (posts_without_uri_posts _ _ Hp2), Hg1; apply write_posts_leave_none).
  eapply leads_ebind.
  { apply leads_run_count. intros rs [->|[Hrs _]]; [done|by apply addressed_folders]. }
  intros n3 w3 Hl3 [_ Hg3]. rewrite Hl2 in Hl3.
  assert (posts_without_uri (graph w3) = []) as Hn3.
  { rewrite <- Hn2. apply posts_without_uri_posts. by rewrite Hg3, foldl_write_folders. }
  assert (edges_without_uri (graph w3) = []) as He3 by (rewrite Hg3; apply write_folders_leave_none).
  eapply leads_ebind.
  { apply leads_run_count. intros rs _. f_equal. by induction rs. }
  intros n4 w4 Hl4 [Hn4 Hg4]. rewrite Hn3, He3 in Hn4, Hg4. simpl in Hn4, Hg4. subst n4. simpl.
  apply leads_ret. rewrite Hg4. split; [|done]. rewrite Hg3. by apply settled_folders.
Qed.

Lemma attempt_keeps fuel lines g trips :
  (length lines < fuel * EVENT_PAGE_SIZE)%nat →
  addressed lines (snd (attempt fuel lines g trips)) = addressed lines g.
Proof.
  intros Hfuel. unfold attempt.
  pose proof (leads_backfill fuel {| graph := g; log := lines; graph_trips := fst trips; redis_trips := snd trips |} Hfuel) as Hl.
  unfold leads, yields in Hl. destruct (backfill _ _) as [[a|e] w']; apply Hl.
Qed.

Lemma after_attempts_keep fuel lines g failed :
  (length lines < fuel * EVENT_PAGE_SIZE)%nat →
  addressed lines (after_attempts fuel lines g failed) = addressed lines g.
Proof.
  intros Hfuel. revert g. induction failed as [|trips failed IH]; intros g; [done|].
  simpl. by rewrite IH, attempt_keeps.
Qed.

(** C29: A repeat of the address backfill ends where one clean run would have. Wherever the
    calls of earlier attempts failed, some of a step's transactions committed or not, the attempt
    that answers [Ok] leaves every post, user and tag edge with exactly the address that is
    due by the first graph and the event log: what was stored, or for an edge and a
    profile what their latest PUT line says, or for an edge the log does not name its
    folder's. An attempt whose calls are all served does answer [Ok]: it reads the log to
    its end and finds nothing left over. *)
Theorem repeated_backfill_is_one_clean_run fuel lines g failed trips :
  (length lines < fuel * EVENT_PAGE_SIZE)%nat →
  let answer := attempt fuel lines (after_attempts fuel lines g failed) trips in
  (fst answer = Ok tt → snd answer = addressed lines g) ∧ (trips = ([], []) → fst answer = Ok tt).
Proof.
  intros Hfuel answer. rewrite <- (after_attempts_keep fuel lines g failed) by done.
  subst answer. generalize (after_attempts fuel lines g failed). clear g failed. intros g. unfold attempt.
  pose proof (leads_backfill fuel {| graph := g; log := lines; graph_trips := fst trips; redis_trips := snd trips |} Hfuel) as Hl.
  unfold leads, yields in Hl. destruct (backfill _ _) as [[[]|e] w']; simpl in *.
  - destruct Hl as ([_ Hup] & _ & Hs & Hp & He). split; [|done]. intros _.
    simpl in Hup. rewrite <- Hup. by apply settled_addressed.
  - destruct Hl as [_ Hloud]. split; [done|]. intros ->. by destruct Hloud.
Qed.
End Backfill.

(** ** An example: a run cut in its last step, then one that could not read the log *)

Module Example_backfill.
(** An address is a user, and for a tag file a folder and an id behind it. *)
#[export] Instance specs : Specs := {|
  ExtendedParsedUri := string;
  parse_uri := λ s, Ok s;
  try_to_uri_str := λ s, Ok s;
  uri_user_id := λ s, String.substring 0 1 s;
  uri_resource := λ s, match s with String _ (String _ id) => Tag id | _ => User end;
  uri_app := λ _, None;
|}.

Definition lines : list string := ["PUT a"; "PUT a:x1"; "DEL a:x1"; "PUT a;x1"; "PUT b:"; "nonsense"].

Definition edge (tagger : string) (target : TargetKind) (id app : option string) : TagEdge :=
  {| tagger := tagger; target := target; tag_id := id; app := app; edge_uri := None |}.

Definition graph0 : TagGraph := {|
  posts := {["p1" := {| author := Some "a"; post_uri := None |}; "p2" := {| author := None; post_uri := None |}]};
  users := {["a" := None; "c" := None]};
  edges := {[0%nat := edge "a" ToPost (Some "x1") None; 1%nat := edge "a" ToResource (Some "x1") (Some "mapky");
             2%nat := edge "c" ToUser (Some "z1") None; 3%nat := edge "c" ToUser None None]};
|}.

(** Step 3 commits one of its rows and fails; the second attempt fails at its first LRANGE. *)
Definition failed : list (list GraphTrip * list (option Kv.RedisError)) :=
  [([Served; Served; Served; Failed 1 (Graph.QueryTimeout)], []); ([], [Some (Kv.IoError "refused")])].

Abbreviation answer := (attempt 1 lines (after_attempts 1 lines graph0 failed) ([], [])).

Lemma repeated_backfill_is_one_clean_run_witness :
  fst answer = Ok tt
  ∧ (edges (snd answer) !! 0%nat ≫= edge_uri) = Some "a;x1"
  ∧ (edges (snd answer) !! 1%nat ≫= edge_uri) = Some "pubky://a/pub/mapky/tags/x1"
  ∧ (edges (snd answer) !! 2%nat ≫= edge_uri) = Some "pubky://c/pub/pubky.app/tags/z1"
  ∧ users (snd answer) !! "c" = Some None.
Proof.
  destruct (repeated_backfill_is_one_clean_run 1 lines graph0 failed ([], [])) as [Hok Hserved].
  { vm_compute. lia. }
  specialize (Hserved eq_refl). split; [exact Hserved|]. rewrite (Hok Hserved).
  vm_compute. repeat split.
Defined.
End Example_backfill.
