(* ===== verification/Ingest.v ===== *)
(** * Ingestion of unknown users

    nexus-common/src/models/user/ingestor.rs: when an event names a user the indexer has
    not seen, the user's own PKDNS record is looked up, and the user is given a stub node,
    the binding the record proves, and a cursor to start from, unless their homeserver is
    blacklisted. It composes the records and queries of [Hosting], the cursors of
    [Cursor] and the blacklist of [Cursor.Homeserver]. *)

From S2P Require Import Prelude Errors Redis Cursor Graphs Hosting Resolver.
Local Open Scope Z_scope.

Record IngestWorld (W D : Type) := {
  pkdns : W;
  redis : Session D;
  hosting : GraphSession HostingGraph;
}.
Arguments pkdns {W D} _.
Arguments redis {W D} _.
Arguments hosting {W D} _.

Section Ingest.
Context {W D : Type} {PK : Pkarr} {RES : PkdnsHomeserverResolver W}.
Context {RS : RedisServer D} {RL : RedisLaws D}.
Abbreviation IW := (IngestWorld W D).
Abbreviation M A := (prog IW (result A Model.ModelError)).
Local Open Scope nexus_scope.

Definition on_pkdns {A} (p : prog W A) : prog IW A := λ w,
  let '(a, o) := p (pkdns w) in (a, {| pkdns := o; redis := redis w; hosting := hosting w |}).
Definition on_redis {A} (p : prog (Session D) A) : prog IW A := λ w,
  let '(a, s) := p (redis w) in (a, {| pkdns := pkdns w; redis := s; hosting := hosting w |}).
Definition on_hosting {A} (p : prog (GraphSession HostingGraph) A) : prog IW A := λ w,
  let '(a, g) := p (hosting w) in (a, {| pkdns := pkdns w; redis := redis w; hosting := g |}).

(** [UserDetails::get_by_id(user).await?.is_some()] *)
Context (user_known : string → M bool).
(** [UserIngestor::hs_blacklist]; [to_public_key] is the id itself. *)
Context (hs_blacklist : Homeserver.HsBlacklist).
(** The text of a lookup's failure. *)
Context (lookup_text : Pubky.PubkyClientError → string).

(** [put_to_graph] of [UserDetails::from_pubky]: a stub node, on what hosting keeps. *)
Definition put_stub (user_id : string) (g : HostingGraph) : HostingGraph :=
  put_user user_id {| deleted := Some false; hosted := match users g !! user_id with
                                                        | Some u => hosted u | None => ∅ end |} g.

Definition resolve_unless_blacklisted (user_id : string) : M (option (string * StoredRecord)) :=
  if Homeserver.is_blacklisted hs_blacklist user_id then ret (Err (Model.HsBlacklisted user_id))
  else
    let? record := emap_err (λ e, Model.from_generic (lookup_text e))
                     (on_pkdns (resolve_own_record user_id)) in
    match stored record, homeserver record with
    | Some stored, Some hs_id =>
        if Homeserver.is_blacklisted hs_blacklist hs_id then ret (Err (Model.HsBlacklisted hs_id))
        else ret (Ok (Some (hs_id, stored)))
    | _, _ => ret (Ok None)
    end.

Definition ensure_hs_not_blacklisted (user_id : string) : M (option string) :=
  let? resolved := resolve_unless_blacklisted user_id in
  ret (Ok (fst <$> resolved)).

Definition maybe_ingest_user (user_id : string) : M unit :=
  let? known := user_known user_id in
  if (known : bool) then ret (Ok tt)
  else
    let? resolved := resolve_unless_blacklisted user_id in
    match resolved with
    | None => ret (Ok tt)
    | Some (hs_id, record) =>
        let? _ := emap_err Model.GraphOperationFailed
                    (on_hosting (run_query (Graphs.writes (put_stub user_id)))) in
        let? _ := emap_err Model.GraphOperationFailed
                    (on_hosting (set_user_homeserver_from_record user_id hs_id record)) in
        emap_err Model.KvOperationFailed (on_redis (UserHsCursor.init user_id hs_id))
    end.

(** The author of a referenced post, by the parsed address's user. *)
Definition maybe_ingest_author_of_post (post_user_id : string) : M unit :=
  maybe_ingest_user post_user_id.

(** ** What ingestion writes *)

(** Neither bindings nor cursors changed. *)
Definition same_bindings (w w' : IW) : Prop :=
  graph (hosting w') = graph (hosting w) ∧ unchanged (redis w) (redis w').

(** Looking a user up in the cache and the graph writes neither. *)
Definition lookup_writes_nothing : Prop := ∀ u w,
  cursors_ok (redis w) → same_bindings w (snd (user_known u w)).
Context (Hknown : lookup_writes_nothing).

(** The user's own packet names an allowed homeserver. *)
Record accepted (u : string) (w : IW) (p : SignedPacket) (hs_id : string) (rec : StoredRecord) : Prop := {
  accepted_user : Homeserver.is_blacklisted hs_blacklist u = false;
  accepted_hs : Homeserver.is_blacklisted hs_blacklist hs_id = false;
  accepted_answer : fst (resolve_record u (pkdns w)) = Ok (Published p);
  accepted_key : public_key p = u;
  accepted_target : published_homeserver p = Some hs_id;
  accepted_record : StoredRecord_try_from p = Some rec;
}.

Lemma same_stores w w' :
  cursors_ok (redis w) → redis w' = redis w → hosting w' = hosting w → same_bindings w w'.
Proof. intros Hw Hr Hh. unfold same_bindings. by rewrite Hr, Hh. Qed.

Lemma same_bindings_trans w1 w2 w3 :
  same_bindings w1 w2 → same_bindings w2 w3 → same_bindings w1 w3.
Proof.
  intros [G1 [_ S1]] [G2 [C2 S2]]. split; [congruence|]. split; [done|].
  intros u h. by rewrite S2, S1.
Qed.

Lemma on_pkdns_yields {A E} (p : prog W (result A E)) w Q R :
  (∀ o, let w' := {| pkdns := o; redis := redis w; hosting := hosting w |} in
     match fst (p (pkdns w)) with Ok a => Q a w' | Err e => R e w' end) →
  yields (on_pkdns p) w Q R.
Proof. unfold yields, on_pkdns. intros H. destruct (p (pkdns w)) as [[] o]; apply (H o). Qed.

Lemma redis_step_yields {A E} (p : prog (Session D) (result A E)) w Q R :
  yields p (redis w)
    (λ a s, Q a {| pkdns := pkdns w; redis := s; hosting := hosting w |})
    (λ e s, R e {| pkdns := pkdns w; redis := s; hosting := hosting w |}) →
  yields (on_redis p) w Q R.
Proof. unfold yields, on_redis. by destruct (p (redis w)) as [[] ?]. Qed.

Lemma on_hosting_yields {A E} (p : prog (GraphSession HostingGraph) (result A E)) w Q R :
  yields p (hosting w)
    (λ a s, Q a {| pkdns := pkdns w; redis := redis w; hosting := s |})
    (λ e s, R e {| pkdns := pkdns w; redis := redis w; hosting := s |}) →
  yields (on_hosting p) w Q R.
Proof. unfold yields, on_hosting. by destruct (p (hosting w)) as [[] ?]. Qed.

Lemma resolve_yields u w :
  cursors_ok (redis w) →
  yields (resolve_unless_blacklisted u) w
    (λ r w', same_bindings w w' ∧
       match r with
       | Some (hs_id, rec) => ∃ p, accepted u w p hs_id rec
       | None => True
       end)
    (λ _ w', same_bindings w w').
Proof.
  intros Hw. unfold resolve_unless_blacklisted.
  destruct (Homeserver.is_blacklisted hs_blacklist u) eqn:Hu; [by apply yields_ret, same_stores|].
  apply yields_ebind, yields_emap_err, on_pkdns_yields. intros o.
  pose proof (resolve_own_record_spec u (pkdns w)) as Hspec.
  destruct (fst (resolve_own_record u (pkdns w))) as [record|e]; [|by apply same_stores].
  destruct Hspec as [Hown Hanswer]. destruct record as [|p].
  { apply yields_ret. by split; [apply same_stores|]. }
  destruct Hown as [Hkey _]. specialize (Hanswer p eq_refl).
  simpl. destruct (StoredRecord_try_from p) as [rec|] eqn:Hrec.
  2: { apply yields_ret. by split; [apply same_stores|]. }
  destruct (published_homeserver p) as [hs_id|] eqn:Hhs.
  2: { apply yields_ret. by split; [apply same_stores|]. }
  destruct (Homeserver.is_blacklisted hs_blacklist hs_id) eqn:Hb; apply yields_ret.
  - by apply same_stores.
  - split; [by apply same_stores|]. by exists p.
Qed.

Definition bind_stub (u hs_id : string) (rec : StoredRecord) (g : HostingGraph) : HostingGraph :=
  set_user_homeserver u hs_id (Some rec) (put_stub u g).

(** A cursor is only ever added, at 0, for this user and homeserver. *)
Definition cursor_added (u hs_id : string) (w w' : IW) : Prop :=
  unchanged (redis w) (redis w')
  ∨ score (redis w) u hs_id = None ∧ set_to (redis w) (redis w') u hs_id 0.

(** What an ingestion that was not refused may have written when it stopped. *)
Definition written (u hs_id : string) (rec : StoredRecord) (w w' : IW) : Prop :=
  (graph (hosting w') = put_stub u (graph (hosting w))
   ∨ graph (hosting w') = bind_stub u hs_id rec (graph (hosting w)))
  ∧ cursor_added u hs_id w w'.

Definition ingested (u hs_id : string) (rec : StoredRecord) (w w' : IW) : Prop :=
  graph (hosting w') = bind_stub u hs_id rec (graph (hosting w))
  ∧ cursor_added u hs_id w w' ∧ score (redis w') u hs_id ≠ None.

Definition the_answer (u : string) (w : IW) : IW := snd (user_known u w).

(** C13: ingestion writes a binding or a cursor only for a user whose own signed packet,
    as the lookup returned it, names a homeserver that is not blacklisted, the user's own
    key not being blacklisted either; then, whatever fails, it writes at most the user's
    stub, their one binding with that packet and a cursor at 0 where there was none, and
    when it succeeds it has written all of them. *)
Theorem only_allowed_homeservers_are_bound u w :
  cursors_ok (redis w) →
  yields (maybe_ingest_user u) w
    (λ _ w', same_bindings w w' ∨ ∃ p hs_id rec,
       accepted u (the_answer u w) p hs_id rec ∧ ingested u hs_id rec w w')
    (λ _ w', same_bindings w w' ∨ ∃ p hs_id rec,
       accepted u (the_answer u w) p hs_id rec ∧ written u hs_id rec w w').
Proof.
  intros Hw. unfold maybe_ingest_user, the_answer.
  pose proof (Hknown u w Hw) as Hsame. apply yields_ebind. unfold yields at 1.
  destruct (user_known u w) as [[known|e] w1]; simpl in *; [|by left].
  destruct known; [apply yields_ret; by left|].
  assert (cursors_ok (redis w1)) as Hw1 by apply Hsame.
  apply yields_ebind. eapply yields_mono; [by apply resolve_yields| |].
  2: { intros e w2 H2. left. by eapply same_bindings_trans. }
  intros [[hs_id rec]|] w2 [Hs2 Hacc].
  2: { apply yields_ret. left. by eapply same_bindings_trans. }
  destruct Hacc as [p Hacc]. pose proof (same_bindings_trans _ _ _ Hsame Hs2) as [Hg Hr].
  assert (cursors_ok (redis w2)) as Hw2 by apply Hr.
  assert (∀ s, unchanged (redis w) s ↔ unchanged (redis w2) s) as Hun.
  { intros s. destruct Hr as [_ Hr]. unfold unchanged. by setoid_rewrite Hr. }
  apply yields_ebind, yields_emap_err, on_hosting_yields, run_query_yields; simpl; rewrite Hg.
  2: { intros e s [Hs|Hs]; [left; by split|right]. exists p, hs_id, rec. split; [done|].
       split; [by left|by left]. }
  intros s Hs. apply yields_ebind, yields_emap_err, on_hosting_yields, run_query_yields; simpl; rewrite Hs.
  2: { intros e s' Hs'. right. exists p, hs_id, rec. split; [done|].
       split; [by destruct Hs'; [left|right]|by left]. }
  intros s' Hs'. apply yields_emap_err, redis_step_yields. simpl.
  assert (score (redis w2) u hs_id = score (redis w) u hs_id) as Hscore by apply Hr.
  assert (∀ s2, set_to (redis w2) s2 u hs_id 0 → set_to (redis w) s2 u hs_id 0) as Hset.
  { intros s2 [Hc2 H2]. split; [done|]. intros u' h'. rewrite H2. case_decide; [done|apply Hr]. }
  eapply yields_mono; [by apply (init_yields (redis w2) u hs_id)|..].
  - intros ? s2 H2. right. exists p, hs_id, rec. split; [done|]. split; [done|].
    rewrite Hscore in H2. destruct (score (redis w) u hs_id) as [c|] eqn:Hc.
    + split; [left; by apply Hun|]. destruct H2 as [_ H2]. simpl. by rewrite H2, Hscore.
    + split; [right; split; [done|by apply Hset]|]. destruct H2 as [_ H2]. simpl.
      rewrite H2, decide_True by done. done.
  - intros e s2 H2. right. exists p, hs_id, rec. split; [done|]. split; [by right|].
    rewrite Hscore in H2. destruct H2 as [H2|[Hc H2]]; [left; by apply Hun|].
    right. split; [done|by apply Hset].
Qed.

(** A blacklisted homeserver, and a user key that is one, end ingestion with an error. *)
Lemma blacklisted_is_refused u w p :
  cursors_ok (redis w) → fst (user_known u w) = Ok false →
  Homeserver.is_blacklisted hs_blacklist u = true
  ∨ (fst (resolve_record u (pkdns (the_answer u w))) = Ok (Published p) ∧ public_key p = u
     ∧ StoredRecord_try_from p ≠ None
     ∧ ∃ hs_id, published_homeserver p = Some hs_id
                ∧ Homeserver.is_blacklisted hs_blacklist hs_id = true) →
  ∃ hs_id, fst (maybe_ingest_user u w) = Err (Model.HsBlacklisted hs_id).
Proof.
  intros Hw Hk Hb. unfold maybe_ingest_user, the_answer, ebind in *.
  destruct (user_known u w) as [r w1]. simpl in *. subst r. unfold resolve_unless_blacklisted.
  destruct (Homeserver.is_blacklisted hs_blacklist u) eqn:Hu; [by eexists|].
  destruct Hb as [?|(Hans & Hkey & Hrec & hs_id & Hhs & Hb)]; [done|].
  unfold ebind, emap_err, on_pkdns, resolve_own_record, ebind.
  destruct (resolve_record u (pkdns w1)) as [r o]. simpl in Hans. subst r.
  rewrite decide_False by (by intros Hne; apply Hne).
  destruct (StoredRecord_try_from p) as [rec|] eqn:Hp; [|done]. simpl. rewrite Hp, Hhs, Hb.
  by eexists.
Qed.
End Ingest.

Section Witnesses.
Import ToyPkarr.
#[local] Instance mem_server : RedisServer MemRedis.t := MemRedis.server (λ _ t, t).
#[local] Instance mem_laws : RedisLaws MemRedis.t := MemRedis.laws (λ _ t, t).

Definition newcomer : IngestWorld unit MemRedis.t := {|
  pkdns := tt; redis := MemRedis.fresh MemRedis.empty; hosting := session ∅;
|}.

Definition unknown (u : string) : prog (IngestWorld unit MemRedis.t) (result bool Model.ModelError) :=
  ret (Ok false).

Lemma unknown_writes_nothing : lookup_writes_nothing unknown.
Proof. intros u w Hw. by apply same_stores. Qed.

Lemma newcomer_cursors : cursors_ok (redis newcomer).
Proof. intros u. split; [done|]. by intros h c Hs. Qed.

Lemma only_allowed_homeservers_are_bound_witness :
  cursors_ok (redis newcomer)
  ∧ yields (maybe_ingest_user unknown ["hs1"] (λ _, "") "u") newcomer
      (λ _ w', same_bindings newcomer w' ∨ ∃ p hs_id rec,
         accepted ["hs1"] "u" (the_answer unknown "u" newcomer) p hs_id rec
         ∧ ingested "u" hs_id rec newcomer w')
      (λ _ _, False)
  ∧ fst (maybe_ingest_user unknown ["hs2"] (λ _, "") "u" newcomer) = Err (Model.HsBlacklisted "hs2").
Proof.
  split; [exact newcomer_cursors|]. split; [|vm_compute; reflexivity].
  pose proof (only_allowed_homeservers_are_bound unknown ["hs1"] (λ _, "") unknown_writes_nothing
    "u" newcomer newcomer_cursors) as Hend.
  assert (∃ w', maybe_ingest_user unknown ["hs1"] (λ _, "") "u" newcomer = (Ok tt, w')) as [w' Hrun]
    by (eexists; vm_compute; reflexivity).
  unfold yields in Hend |- *. rewrite Hrun in Hend |- *. exact Hend.
Defined.
End Witnesses.
