(* ===== verification/Users.v ===== *)
(** * Users: profiles, their cache and their search indexes

    nexus-watcher/src/events/handlers/user.rs over models/user/details.rs,
    models/user/search.rs and the read-through cache of models/traits.rs (the trait
    [Collection]). A profile is a node in the graph, a JSON document in Redis, a member
    of the search indexes, and, when it is tagged, a member of per-label sorted sets. The
    operations are threads: the API reads the same stores while the watcher writes, and a
    failed call cuts the operation short. *)

From S2P Require Import Prelude Ranges Threads Errors Graphs.
Local Open Scope Z_scope.
Local Open Scope thread_scope.

(** ** Profiles *)

Inductive Epoch := V0 | V1.

Record UserDetails := {
  name : string;
  bio : option string;
  id : string;
  (** title and url *)
  links : option (list (string * string));
  status : option string;
  image : option string;
  indexed_at : Z;
  deleted : bool;
  epoch : Epoch;
}.

#[export] Instance Epoch_eq_dec : EqDecision Epoch.
Proof. solve_decision. Defined.
#[export] Instance UserDetails_eq_dec : EqDecision UserDetails.
Proof. solve_decision. Defined.

(** The homeserver's [PubkyAppUser]. *)
Record PubkyAppUser := {
  user_name : string;
  user_bio : option string;
  user_image : option string;
  user_links : option (list (string * string));
  user_status : option string;
}.

Definition from_pubky (user_id : string) (now : Z) : UserDetails :=
  {| name := user_id; bio := None; id := user_id; links := None; status := None; image := None;
     indexed_at := now; deleted := false; epoch := V0 |}.

Definition from_homeserver (homeserver_user : PubkyAppUser) (user_id : string) (now : Z) : UserDetails :=
  {| name := user_name homeserver_user; bio := user_bio homeserver_user; id := user_id;
     links := user_links homeserver_user; status := user_status homeserver_user;
     image := user_image homeserver_user; indexed_at := now; deleted := false; epoch := V0 |}.

Definition tombstone (user_id : string) (now : Z) : UserDetails :=
  {| name := ""; bio := None; id := user_id; links := None; status := None; image := None;
     indexed_at := now; deleted := true; epoch := V0 |}.

(** ** The stores *)

(** A node reads back as details; [uri] is where its profile was read from. *)
Record UserNode := { details : UserDetails; uri : option string }.

Record Db := {
  (** the graph: user nodes, and which of them have a relationship *)
  nodes : gmap string UserNode;
  related : gset string;
  (** Redis: [User:Details:<id>] *)
  cache : gmap string UserDetails;
  (** [Sorted:Users:Name] and [Sorted:Users:ID], all scores 0 *)
  names : gset string;
  ids : gset string;
  (** [Sorted:Users:Tag:<user>]: the labels on a user's profile *)
  user_tags : gmap string (gmap string Z);
  (** [Tag:User:<user>:<label>]: who put the label there *)
  taggers : gmap (string * string) (gset string);
  (** [Sorted:Tags:Global:User:Taggers:<label>] *)
  by_label : gmap string (gmap string Z);
}.

Definition set_nodes (f : gmap string UserNode → gmap string UserNode) (w : Db) : Db :=
  {| nodes := f (nodes w); related := related w; cache := cache w; names := names w; ids := ids w;
     user_tags := user_tags w; taggers := taggers w; by_label := by_label w |}.
Definition set_cache (f : gmap string UserDetails → gmap string UserDetails) (w : Db) : Db :=
  {| nodes := nodes w; related := related w; cache := f (cache w); names := names w; ids := ids w;
     user_tags := user_tags w; taggers := taggers w; by_label := by_label w |}.
Definition set_names (f : gset string → gset string) (w : Db) : Db :=
  {| nodes := nodes w; related := related w; cache := cache w; names := f (names w); ids := ids w;
     user_tags := user_tags w; taggers := taggers w; by_label := by_label w |}.
Definition set_ids (f : gset string → gset string) (w : Db) : Db :=
  {| nodes := nodes w; related := related w; cache := cache w; names := names w; ids := f (ids w);
     user_tags := user_tags w; taggers := taggers w; by_label := by_label w |}.
Definition set_by_label (f : gmap string (gmap string Z) → gmap string (gmap string Z)) (w : Db) : Db :=
  {| nodes := nodes w; related := related w; cache := cache w; names := names w; ids := ids w;
     user_tags := user_tags w; taggers := taggers w; by_label := f (by_label w) |}.

Definition read {A} (f : Db → A) : prog Db A := λ w, (f w, w).
Definition write (f : Db → Db) : prog Db unit := λ w, (tt, f w).

(** ** The queries *)

(** [create_user]: the properties are set, the epoch and an unset [uri] are kept. *)
Definition create_user (user : UserDetails) (new_uri : option string) : Db → Db :=
  set_nodes (λ m,
    let old := m !! id user in
    <[id user := {|
        details := {| name := name user; bio := bio user; id := id user; links := links user;
                      status := status user; image := image user; indexed_at := indexed_at user;
                      deleted := deleted user;
                      epoch := match old with Some n => epoch (details n) | None => V0 end |};
        uri := match new_uri with Some u => Some u | None => old ≫= uri end |}]> m).

(** A row per id, in order. *)
Definition get_users_details_by_ids (user_ids : list string) (w : Db) : list (option UserDetails) :=
  (λ i, details <$> nodes w !! i) <$> user_ids.

(** The flag says the user has a relationship; no row for an unknown user. *)
Definition user_is_safe_to_delete (user_id : string) (w : Db) : option bool :=
  match nodes w !! user_id with
  | None => None
  | Some _ => Some (bool_decide (user_id ∈ related w))
  end.

(** [DETACH DELETE] *)
Definition delete_user (user_id : string) (w : Db) : Db :=
  let w := set_nodes (delete user_id) w in
  {| nodes := nodes w; related := related w ∖ {[user_id]}; cache := cache w; names := names w;
     ids := ids w; user_tags := user_tags w; taggers := taggers w; by_label := by_label w |}.

Definition users_exist (user_ids : list string) (w : Db) : bool :=
  forallb (λ i, bool_decide (is_Some (nodes w !! i))) user_ids.

Create HintDb stable.
#[export] Hint Resolve stable_and : stable.

Section Users.
(** Rust's [str::to_lowercase]. *)
Context (to_lowercase : string → string).

(** ** UserSearch *)

Definition name_member (user_name user_id : string) : string := user_name +:+ ":" +:+ user_id.

(** [delete_existing_records]: the name members of the cached names, and the ids; returns
    the ids whose name is not cached. *)
Definition delete_existing_records (user_ids : list string) : thread Db (list string) :=
  match user_ids with
  | [] => Done []
  | _ =>
      do* cached := call (read (λ w, (λ i, cache w !! i) <$> user_ids : list (option UserDetails))) in
      let cached_users := omap (λ u, u) cached in
      let found i := head (filter (λ u, id u = i) cached_users) in
      let records_to_delete :=
        omap (λ i, (λ u, name_member (to_lowercase (name u)) i) <$> found i) user_ids in
      let unresolved := filter (λ i, found i = None) user_ids in
      do* _ := (match records_to_delete with
                | [] => Done tt
                | _ => call (write (set_names (λ z, z ∖ list_to_set records_to_delete)))
                end) in
      do* _ := call (write (set_ids (λ z, z ∖ list_to_set user_ids))) in
      Done unresolved
  end.

Definition search_put_to_index (details_list : list UserDetails) : thread Db unit :=
  do* _ := delete_existing_records (id <$> details_list) in
  let live := filter (λ d, deleted d = false) details_list in
  let pairs := (λ d, name_member (to_lowercase (name d)) (id d)) <$> live in
  match live with
  | [] => Done tt
  | _ =>
      do* _ := call (write (set_names (λ z, list_to_set pairs ∪ z))) in
      call (write (set_ids (λ z, list_to_set (id <$> live) ∪ z)))
  end.

(** [UserSearch::delete] *)
Definition search_delete (user_id : string) : thread Db unit :=
  do* _ := delete_existing_records [user_id] in Done tt.

(** ** Collection, for users *)

(** [put_to_index]: the documents found, then [extend_on_index_miss]. *)
Definition put_to_index (user_ids : list string) (records : list (option UserDetails)) : thread Db unit :=
  let found := omap (λ '(i, r), pair i <$> r) (zip user_ids records) in
  do* _ := (match found with
            | [] => Done tt
            | _ => call (write (set_cache (λ m, foldl (λ m '(i, d), <[i := d]> m) m found)))
            end) in
  search_put_to_index (omap (λ r, r) records).

Definition get_from_graph (user_ids : list string) : thread Db (list (option UserDetails)) :=
  call (read (get_users_details_by_ids user_ids)).

(** The positions of the ids that were not cached. *)
Definition missing (user_ids : list string) (collection : list (option UserDetails)) :
    list (nat * string) :=
  omap (λ '(i, (user_id, r)), match r with None => Some (i, user_id) | Some _ => None end)
    (imap pair (zip user_ids collection)).

(** The fetched records at their positions; [None] when there is no record for one, where
    the code panics. *)
Fixpoint fill (collection : list (option UserDetails)) (missing_ids : list (nat * string))
    (fetched : list (option UserDetails)) : option (list (option UserDetails)) :=
  match missing_ids, fetched with
  | [], _ => Some collection
  | (i, _) :: missing_ids, r :: fetched => fill (<[i := r]> collection) missing_ids fetched
  | _ :: _, [] => None
  end.

Definition get_by_ids (user_ids : list string) : thread Db (option (list (option UserDetails))) :=
  do* collection := call (read (λ w, (λ i, cache w !! i) <$> user_ids : list (option UserDetails))) in
  let missing_ids := missing user_ids collection in
  match missing_ids with
  | [] => Done (Some collection)
  | _ =>
      let flat_missing_ids := snd <$> missing_ids in
      do* fetched_details := get_from_graph flat_missing_ids in
      match fetched_details with
      | [] => Done (Some collection)
      | _ =>
          match fill collection missing_ids fetched_details with
          | None => Done None
          | Some collection =>
              do* _ := put_to_index flat_missing_ids fetched_details in
              Done (Some collection)
          end
      end
  end.

(** [UserDetails::get_by_id] *)
Definition get_by_id (user_id : string) : thread Db (option UserDetails) :=
  do* collection := get_by_ids [user_id] in
  Done (head (omap (λ r, r) (default [] collection))).

(** [Collection::reindex]; a failed graph read is logged. *)
Definition reindex (user_ids : list string) : thread Db unit :=
  do* records := get_from_graph user_ids in
  match records with
  | [] => Done tt
  | _ => put_to_index user_ids records
  end.

Definition put_to_graph (user : UserDetails) : thread Db unit := call (write (create_user user None)).
Definition put_profile_to_graph (user : UserDetails) (profile_uri : string) : thread Db unit :=
  call (write (create_user user (Some profile_uri))).

(** ** UsersByTagSearch *)

Definition label_set (label : string) (w : Db) : gmap string Z := default ∅ (by_label w !! label).
Definition taggers_of (user_id label : string) (w : Db) : gset string :=
  default ∅ (taggers w !! (user_id, label)).

(** [sync_score_from_set_cardinality] with the tombstone guard: one script. *)
Definition sync_index_score (user_id label : string) : thread Db unit :=
  call (write (λ w,
    let cardinality := size (taggers_of user_id label w) in
    let gone := bool_decide ((deleted <$> cache w !! user_id) = Some true)
                || bool_decide (cardinality = 0%nat) in
    set_by_label (λ m,
      <[label := (if gone then delete user_id else <[user_id := Z.of_nat cardinality]>)
                   (label_set label w)]> m) w)).

Definition EVICT_PAGE_SIZE : nat := 500.

(** A page of the user's labels; [None] when the user has none. *)
Definition label_page (user_id : string) (skip : nat) (w : Db) : option (list string) :=
  let labels := default ∅ (user_tags w !! user_id) in
  if decide (labels = ∅) then None
  else Some (fst <$> take EVICT_PAGE_SIZE (drop skip (merge_sort rank_ge (map_to_list labels)))).

Fixpoint sync_page (user_id : string) (labels : list string) : thread Db unit :=
  match labels with
  | [] => Done tt
  | label :: labels =>
      do* _ := sync_index_score user_id label in sync_page user_id labels
  end.

(** The loop of [sync_user_labels]; [false] when [fuel] runs out. *)
Fixpoint sync_user_labels (fuel : nat) (user_id : string) (skip : nat) : thread Db bool :=
  match fuel with
  | O => Done false
  | S fuel =>
      do* page := call (read (label_page user_id skip)) in
      match page with
      | None | Some [] => Done true
      | Some page =>
          do* _ := sync_page user_id page in
          if decide (length page < EVICT_PAGE_SIZE)%nat then Done true
          else sync_user_labels fuel user_id (skip + length page)
      end
  end.

(** ** The handlers *)

(** [now] is what the clock says when the details are built; [fuel] bounds the pages of
    labels. *)
Definition sync_put (fuel : nat) (now : Z) (user : PubkyAppUser) (profile_uri user_id : string) :
    thread Db (result unit Ep.EventProcessorError) :=
  let user_details := from_homeserver user user_id now in
  do* _ := put_profile_to_graph user_details profile_uri in
  do* _ := search_put_to_index [user_details] in
  do* _ := put_to_index [id user_details] [Some user_details] in
  do* _ := sync_user_labels fuel user_id 0 in
  Done (Ok tt).

Definition del (fuel : nat) (now : Z) (user_id : string) :
    thread Db (result unit Ep.EventProcessorError) :=
  do* maybe_flag := call (read (user_is_safe_to_delete user_id)) in
  match outcome_of_flag maybe_flag with
  | CreatedOrDeleted =>
      do* _ := search_delete user_id in
      do* _ := call (write (set_cache (delete user_id))) in
      do* _ := call (write (delete_user user_id)) in
      Done (Ok tt)
  | Updated =>
      do* _ := search_delete user_id in
      let tombstone := tombstone user_id now in
      do* _ := put_to_graph tombstone in
      do* _ := put_to_index [id tombstone] [Some tombstone] in
      do* _ := sync_user_labels fuel user_id 0 in
      Done (Ok tt)
  | MissingDependency => Done (Err Ep.SkipIndexing)
  end.

(** ** One user among others *)

Lemma name_member_inj n n' x : name_member n x = name_member n' x → n = n'.
Proof. apply str_app_inj_r. Qed.

Section One_user.
Context (x : string).

(** Names x may be indexed under though neither the cached document nor the profile being
    written has them, as a rename that failed half-way leaves. *)
Context (stray : string → Prop).

(** Steps of the others leave x's records alone. *)
Record untouched (w w' : Db) : Prop := {
  untouched_node : nodes w' !! x = nodes w !! x;
  untouched_cache : cache w' !! x = cache w !! x;
  untouched_names n : name_member n x ∈ names w' ↔ name_member n x ∈ names w;
  untouched_ids : x ∈ ids w' ↔ x ∈ ids w;
  untouched_tags : user_tags w' !! x = user_tags w !! x;
  untouched_taggers l : taggers w' !! (x, l) = taggers w !! (x, l);
  untouched_labels l : label_set l w' !! x = label_set l w !! x;
}.

Definition lower (d : UserDetails) : string := to_lowercase (name d).

(** The only name members of x are its cached name's, a live [d]'s, and strays. *)
Definition recoverable (d : UserDetails) (w : Db) : Prop :=
  (∀ u, cache w !! x = Some u → id u = x)
  ∧ ∀ n, name_member n x ∈ names w →
      (∃ u, cache w !! x = Some u ∧ n = lower u) ∨ (deleted d = false ∧ n = lower d) ∨ stray n.

(** The only name members of x are a live [d]'s and strays. *)
Definition narrowed (d : UserDetails) (w : Db) : Prop :=
  ∀ n, name_member n x ∈ names w → (deleted d = false ∧ n = lower d) ∨ stray n.

(** x is searchable by [d]'s name, and by no other but a stray one; a deleted profile only by
    strays. *)
Definition searchable (d : UserDetails) (w : Db) : Prop :=
  ((deleted d = false → name_member (lower d) x ∈ names w) ∧ narrowed d w)
  ∧ (x ∈ ids w ↔ deleted d = false).

(** The entry of x under a label is its number of taggers. *)
Definition label_synced (d : UserDetails) (w : Db) (label : string) : Prop :=
  label_set label w !! x =
    if deleted d || bool_decide (size (taggers_of x label w) = 0%nat) then None
    else Some (Z.of_nat (size (taggers_of x label w))).

(** The node [create_user] leaves. *)
Definition stored (d : UserDetails) (u : option string) (w : Db) : Prop :=
  ∃ n, nodes w !! x = Some n ∧ (∀ v, u = Some v → uri n = Some v)
  ∧ ∃ e, details n = {| name := name d; bio := bio d; id := id d; links := links d;
                        status := status d; image := image d; indexed_at := indexed_at d;
                        deleted := deleted d; epoch := e |}.

Lemma untouched_recoverable d : stable untouched (recoverable d).
Proof. intros w w' []. unfold recoverable. rewrite untouched_cache0. setoid_rewrite untouched_names0. done. Qed.

Lemma untouched_searchable d : stable untouched (searchable d).
Proof. intros w w' []. unfold searchable, narrowed. setoid_rewrite untouched_names0. by rewrite untouched_ids0. Qed.

Lemma untouched_narrowed d : stable untouched (narrowed d).
Proof. intros w w' []. unfold narrowed. by setoid_rewrite untouched_names0. Qed.

Lemma untouched_stored d u : stable untouched (stored d u).
Proof. intros w w' []. unfold stored. by rewrite untouched_node0. Qed.

Lemma untouched_cached o : stable untouched (λ w, cache w !! x = o).
Proof. intros w w' []. by rewrite untouched_cache0. Qed.

Lemma untouched_tagged t : stable untouched (λ w, default ∅ (user_tags w !! x) = t).
Proof. intros w w' []. by rewrite untouched_tags0. Qed.

Lemma untouched_label_synced d l : stable untouched (λ w, label_synced d w l).
Proof.
  intros w w' []. unfold label_synced, taggers_of. by rewrite untouched_labels0, untouched_taggers0.
Qed.

Context (d : UserDetails) (Hd : id d = x).

#[local] Hint Resolve untouched_recoverable untouched_searchable untouched_narrowed untouched_stored
  untouched_cached untouched_tagged untouched_label_synced : stable.

(** What the search operations leave alone. *)
Record carried (F : Db → Prop) : Prop := {
  carried_stable : stable untouched F;
  carried_names f w : F w → F (set_names f w);
  carried_ids f w : F w → F (set_ids f w);
}.

Abbreviation HOARE := (hoare untouched (recoverable d)).

Lemma cached_member (o : option UserDetails) :
  (∀ u, o = Some u → id u = x) →
  omap (λ i, (λ u, name_member (to_lowercase (name u)) i)
               <$> head (filter (λ u, id u = i) (omap (λ u, u) [o]))) [x]
  = match o with Some u => [name_member (lower u) x] | None => [] end.
Proof.
  intros Hid. destruct o as [u|]; [|done].
  change (omap (λ u, u) [Some u]) with [u]. unfold omap, list_omap.
  rewrite filter_cons_True by by apply Hid. done.
Qed.

Lemma delete_existing_hoare F o :
  carried F → (∀ w, F w → cache w !! x = o) → (∀ u, o = Some u → id u = x) →
  HOARE (λ w, F w ∧ recoverable d w) (delete_existing_records [x])
    (λ _ w, F w ∧ recoverable d w ∧ narrowed d w ∧ x ∉ ids w).
Proof.
  intros HF Ho Hid.
  assert (stable untouched (λ w, F w ∧ recoverable d w)) as Hstable
    by (apply stable_and; [by apply HF|apply untouched_recoverable]).
  unfold delete_existing_records. eapply hoare_tbind.
  { apply (hoare_read _ _ _ _ [o]); [done|by intros w [_ ?]|]. intros w [Hw _]. simpl. by rewrite Ho. }
  intros cached. apply hoare_pure. intros ->.
  eapply (hoare_tbind _ _ _ _ _ (λ _ w, (F w ∧ recoverable d w) ∧ narrowed d w)).
  { cbv zeta. rewrite cached_member by done. destruct o as [u|] eqn:Hou.
    - apply hoare_call; try done.
      + by intros w [_ ?].
      + intros _. apply stable_and; [done|apply untouched_narrowed].
      + by intros _ w [[_ ?] _].
      + intros w [HFw Hw]. simpl. split; [split|].
        * by apply HF.
        * destruct Hw as [Hc Hn]. split; [done|]. intros n Hin. apply Hn. simpl in Hin. set_solver.
        * intros n Hin. simpl in Hin. apply elem_of_difference in Hin as [Hin Hnot].
          destruct Hw as [Hc Hn]. destruct (Hn n Hin) as [(u' & Hu' & ->)|?]; [|done].
          rewrite (Ho w HFw) in Hu'. injection Hu' as ->. set_solver.
    - apply hoare_done; [done|]. intros w [HFw Hw]. split; [by apply Hw|]. split; [done|].
      intros n Hin. destruct Hw as [Hc Hn]. destruct (Hn n Hin) as [(u & Hu & _)|?]; [|done].
      by rewrite (Ho w HFw) in Hu. }
  intros ?. eapply hoare_tbind.
  - apply (hoare_call _ _ _ _ (λ _ w, F w ∧ recoverable d w ∧ narrowed d w ∧ x ∉ ids w)).
    + apply stable_and; [done|apply untouched_narrowed].
    + by intros w [[_ ?] _].
    + intros _ w w' Hstep (? & ? & ? & Hids). split; [by eapply HF|]. split; [by eapply untouched_recoverable|].
      split; [by eapply untouched_narrowed|]. by rewrite (untouched_ids _ _ Hstep).
    + by intros _ w (_ & ? & _).
    + intros w [[HFw Hw] Hn]. simpl. split; [by apply HF|]. split; [done|]. split; [done|]. set_solver.
  - intros []. apply hoare_done.
    + intros w w' Hstep (? & ? & ? & Hids). split; [by eapply HF|]. split; [by eapply untouched_recoverable|].
      split; [by eapply untouched_narrowed|]. by rewrite (untouched_ids _ _ Hstep).
    + intros w (? & ? & ? & ?). done.
Qed.

Lemma search_put_hoare F o :
  carried F → (∀ w, F w → cache w !! x = o) → (∀ u, o = Some u → id u = x) →
  HOARE (λ w, F w ∧ recoverable d w) (search_put_to_index [d])
    (λ _ w, (F w ∧ recoverable d w) ∧ searchable d w).
Proof.
  intros HF Ho Hid. unfold search_put_to_index. eapply hoare_tbind.
  { simpl. rewrite Hd. by apply delete_existing_hoare with o. }
  intros ?. destruct (decide (deleted d = false)) as [Hdel|Hdel].
  2: { rewrite filter_cons_False by done. apply hoare_done.
    - intros w w' Hstep (? & ? & Hn & Hids). split; [by eapply HF|].
      split; [by eapply untouched_recoverable|]. split; [by eapply untouched_narrowed|].
      by rewrite (untouched_ids _ _ Hstep).
    - intros w (? & ? & Hn & Hids). by split_and!; [..|split; [split|]]. }
  cbv zeta. rewrite filter_cons_True by done. change (filter _ []) with (@nil UserDetails).
  cbv beta iota. rewrite !list_fmap_singleton, Hd.
  set (named := λ w, (deleted d = false → name_member (lower d) x ∈ names w) ∧ narrowed d w).
  assert (stable untouched named) as Hnamed.
  { intros w w' []. unfold named, narrowed. by setoid_rewrite untouched_names0. }
  assert (∀ w, named w → (∀ u, cache w !! x = Some u → id u = x) → recoverable d w) as Hrec.
  { intros w [_ Hn] Hc. split; [done|]. intros n Hin. right. by apply Hn. }
  eapply (hoare_tbind _ _ _ _ _ (λ _ w, (F w ∧ recoverable d w) ∧ named w)).
  - apply hoare_call.
    + intros w w' Hstep (? & ? & Hn & Hids). split; [by eapply HF|].
      split; [by eapply untouched_recoverable|]. split; [by eapply untouched_narrowed|].
      by rewrite (untouched_ids _ _ Hstep).
    + by intros w (_ & ? & _).
    + intros _. apply stable_and; [apply stable_and; [by apply HF|apply untouched_recoverable]|done].
    + by intros _ w [[_ ?] _].
    + intros w (HFw & Hw & Hn & _). simpl.
      assert (named (set_names (λ z, list_to_set [name_member (to_lowercase (name d)) x] ∪ z) w)) as Hn'.
      { split; [intros _; simpl; set_solver|]. intros n. simpl.
        rewrite elem_of_union, elem_of_union, elem_of_singleton.
        intros [[Heq|?]|?]; [left; split; [done|by apply name_member_inj in Heq]|set_solver|by apply Hn]. }
      split; [|done]. split; [by apply HF|]. apply Hrec; [done|]. apply Hw.
  - intros []. apply hoare_call.
    + apply stable_and; [apply stable_and; [by apply HF|apply untouched_recoverable]|done].
    + by intros w [[_ ?] _].
    + intros _. apply stable_and; [apply stable_and; [by apply HF|apply untouched_recoverable]|].
      apply untouched_searchable.
    + by intros _ w [[_ ?] _].
    + intros w [[HFw Hw] Hn]. simpl. split; [split; [by apply HF|done]|]. split; [done|].
      simpl. split; [done|]. intros _. set_solver.
Qed.

Lemma put_to_index_hoare (F : Db → Prop) :
  carried F → (∀ f w, F w → F (set_cache f w)) →
  HOARE (λ w, F w ∧ recoverable d w ∧ narrowed d w) (put_to_index [x] [Some d])
    (λ _ w, ((F w ∧ cache w !! x = Some d) ∧ recoverable d w) ∧ searchable d w).
Proof.
  intros HF Hcache. unfold put_to_index.
  change (omap (λ '(i, r), pair i <$> r) (zip [x] [Some d])) with [(x, d)].
  change (omap (λ r, r) [Some d]) with [d]. cbv zeta beta iota.
  assert (carried (λ w, F w ∧ cache w !! x = Some d)) as HF'.
  { split.
    - apply stable_and; [by apply HF|apply untouched_cached].
    - intros f w [??]. split; [by apply HF|done].
    - intros f w [??]. split; [by apply HF|done]. }
  eapply (hoare_tbind _ _ _ _ _ (λ _ w, (F w ∧ cache w !! x = Some d) ∧ recoverable d w)).
  - apply hoare_call.
    + apply stable_and; [by apply HF|]. apply stable_and; [apply untouched_recoverable|apply untouched_narrowed].
    + by intros w (_ & ? & _).
    + intros _. apply stable_and; [by apply HF'|apply untouched_recoverable].
    + by intros _ w [_ ?].
    + intros w (HFw & Hw & Hn). simpl. rewrite lookup_insert_eq.
      split; [split; [by apply Hcache|done]|]. split; simpl; rewrite lookup_insert_eq.
      * by intros u [= <-].
      * intros n Hin. right. by apply Hn.
  - intros []. apply (search_put_hoare _ (Some d)); [done|by intros w [_ ?]|by intros u [= <-]].
Qed.

(** ** The labels *)

(** What syncing a label leaves alone. *)
Record synced_frame (F : Db → Prop) : Prop := {
  sync_stable : stable untouched F;
  sync_labels f w : F w → F (set_by_label f w);
  sync_recoverable w : F w → recoverable d w;
  sync_cached w : F w → cache w !! x = Some d;
}.

Definition labels_synced (ls : list string) (w : Db) : Prop := Forall (label_synced d w) ls.

Lemma untouched_labels_synced ls : stable untouched (labels_synced ls).
Proof.
  intros w w' Hstep. unfold labels_synced. rewrite !Forall_forall. intros Hall l Hl.
  eapply untouched_label_synced; [done|]. by apply Hall.
Qed.

Lemma sync_index_score_hoare F ls label :
  synced_frame F →
  HOARE (λ w, F w ∧ labels_synced ls w) (sync_index_score x label)
    (λ _ w, F w ∧ labels_synced (label :: ls) w).
Proof.
  intros HF. unfold sync_index_score. apply hoare_call.
  - apply stable_and; [by apply HF|apply untouched_labels_synced].
  - intros w [? _]. by apply HF.
  - intros _. apply stable_and; [by apply HF|apply untouched_labels_synced].
  - intros _ w [? _]. by apply HF.
  - intros w [HFw Hls]. simpl. split; [by apply HF|].
    assert (∀ l, label_synced d (set_by_label (λ m, <[label :=
        (if bool_decide ((deleted <$> cache w !! x) = Some true)
            || bool_decide (size (taggers_of x label w) = 0%nat)
         then delete x else <[x := Z.of_nat (size (taggers_of x label w))]>) (label_set label w)]> m) w) l
      ↔ l = label ∨ l ≠ label ∧ label_synced d w l) as Hsync.
    { intros l. rewrite (sync_cached _ HF) by done. unfold label_synced, label_set at 1. simpl.
      change (taggers_of x l _) with (taggers_of x l w). simpl.
      destruct (decide (l = label)) as [->|Hne].
      - rewrite lookup_insert_eq. simpl. split; [auto|]. intros _.
        destruct (deleted d); simpl; [by rewrite lookup_delete_eq|].
        case_bool_decide; [by rewrite lookup_delete_eq|by rewrite lookup_insert_eq].
      - rewrite lookup_insert_ne by done. fold (label_set l w). naive_solver. }
    apply Forall_cons. split; [by apply Hsync; left|].
    unfold labels_synced in *. rewrite Forall_forall in Hls |- *. intros l Hl. apply Hsync.
    destruct (decide (l = label)); auto.
Qed.

Lemma sync_page_hoare F ls page :
  synced_frame F →
  HOARE (λ w, F w ∧ labels_synced ls w) (sync_page x page)
    (λ _ w, F w ∧ labels_synced (rev page ++ ls) w).
Proof.
  intros HF. revert ls. induction page as [|l page IH]; intros ls.
  - apply hoare_done; [apply stable_and; [by apply HF|apply untouched_labels_synced]|].
    intros w [??]. split; [by apply HF|done].
  - change (sync_page x (l :: page)) with (do* _ := sync_index_score x l in sync_page x page).
    replace (rev (l :: page) ++ ls) with (rev page ++ l :: ls) by (simpl; by rewrite <- app_assoc).
    eapply hoare_tbind; [by apply sync_index_score_hoare|]. intros []. apply IH.
Qed.

Lemma take_length_take {A} n (l : list A) : take (length (take n l)) l = take n l.
Proof.
  rewrite length_take. destruct (decide (n ≤ length l)%nat); [by rewrite Nat.min_l|].
  rewrite Nat.min_r by lia. rewrite !take_ge; lia || done.
Qed.

(** The labels in the order they are paged. *)
Definition label_order (tags : gmap string Z) : list string :=
  fst <$> merge_sort rank_ge (map_to_list tags).

Lemma label_page_order (w : Db) (tags : gmap string Z) skip :
  default ∅ (user_tags w !! x) = tags →
  label_page x skip w =
    if decide (tags = ∅) then None else Some (take EVICT_PAGE_SIZE (drop skip (label_order tags))).
Proof.
  intros <-. unfold label_page, label_order. case_decide; [done|].
  by rewrite fmap_take, fmap_drop.
Qed.

Lemma sync_user_labels_hoare F tags fuel skip :
  synced_frame F → (∀ w, F w → default ∅ (user_tags w !! x) = tags) →
  (length (label_order tags) - skip < fuel)%nat →
  HOARE (λ w, F w ∧ labels_synced (rev (take skip (label_order tags))) w)
    (sync_user_labels fuel x skip)
    (λ r w, r = true ∧ F w ∧ labels_synced (label_order tags) w).
Proof.
  intros HF Htags. revert skip. induction fuel as [|fuel IH]; intros skip Hfuel; [lia|].
  change (sync_user_labels (S fuel) x skip) with
    (do* page := call (read (label_page x skip)) in
      match page with
      | None | Some [] => Done true
      | Some page =>
          do* _ := sync_page x page in
          if decide (length page < EVICT_PAGE_SIZE)%nat then Done true
          else sync_user_labels fuel x (skip + length page)
      end).
  set (L := label_order tags) in *.
  assert (∀ ls, stable untouched (λ w, F w ∧ labels_synced ls w)) as Hstable
    by (intros ls; apply stable_and; [by apply HF|apply untouched_labels_synced]).
  assert (∀ ls w, F w ∧ labels_synced ls w → recoverable d w) as Hrec
    by (intros ls w [? _]; by apply HF).
  assert (∀ ls w, labels_synced (rev ls) w ↔ labels_synced ls w) as Hrev
    by (intros; unfold labels_synced; rewrite !Forall_forall; setoid_rewrite list_elem_of_In;
        by setoid_rewrite <- in_rev).
  assert (∀ ls, L = ls → HOARE (λ w, F w ∧ labels_synced (rev ls) w) (Done true)
      (λ r w, r = true ∧ F w ∧ labels_synced L w)) as Hdone.
  { intros ls <-. apply hoare_done; [done|]. intros w [HFw Hls]. split; [by apply HF|].
    split; [done|]. split; [done|]. by apply Hrev. }
  eapply hoare_tbind.
  { apply (hoare_read _ _ _ _ (if decide (tags = ∅) then None
                               else Some (take EVICT_PAGE_SIZE (drop skip L)))); [done|by apply Hrec|].
    intros w [HFw _]. by apply label_page_order, Htags. }
  intros page. apply hoare_pure. intros ->. case_decide as Hempty.
  { apply Hdone. assert (L = []) as -> by (subst L; rewrite Hempty; unfold label_order;
      by rewrite map_to_list_empty). by rewrite take_nil. }
  destruct (take EVICT_PAGE_SIZE (drop skip L)) as [|l page] eqn:Hpage.
  { apply Hdone. symmetry. apply take_ge. apply (f_equal length) in Hpage.
    rewrite length_take, length_drop, length_nil in Hpage. unfold EVICT_PAGE_SIZE in Hpage. lia. }
  assert (rev (l :: page) ++ rev (take skip L) = rev (take (skip + length (l :: page)) L)) as Hnext.
  { rewrite <- rev_app_distr. f_equal. rewrite <- take_take_drop. f_equal. rewrite <- Hpage.
    symmetry. apply take_length_take. }
  eapply hoare_tbind; [by apply sync_page_hoare|]. intros []. rewrite Hnext.
  apply (f_equal length) in Hpage. rewrite length_take, length_drop in Hpage.
  case_decide as Hlast.
  - apply Hdone. symmetry. apply take_ge. unfold EVICT_PAGE_SIZE in *. lia.
  - apply IH. fold L. unfold EVICT_PAGE_SIZE in *. lia.
Qed.

Lemma label_order_elem (tags : gmap string Z) l : l ∈ label_order tags ↔ is_Some (tags !! l).
Proof.
  unfold label_order. rewrite list_elem_of_fmap. setoid_rewrite merge_sort_Permutation. split.
  - intros ([l' z] & -> & Hl%elem_of_map_to_list). by exists z.
  - intros [z Hz]. exists (l, z). split; [done|]. by apply elem_of_map_to_list.
Qed.

Definition tags_of (w : Db) : gmap string Z := default ∅ (user_tags w !! x).

(** All of x's records are [d]'s. *)
Definition settled (u : option string) (tags : gmap string Z) (w : Db) : Prop :=
  stored d u w ∧ cache w !! x = Some d ∧ searchable d w
  ∧ ∀ l, is_Some (tags !! l) → label_synced d w l.

(** The last steps of both handlers: the cache, its search entry, the labels. *)
Lemma refresh_hoare u tags fuel r :
  (length (label_order tags) < fuel)%nat →
  HOARE (λ w, (stored d u w ∧ tags_of w = tags) ∧ recoverable d w ∧ narrowed d w)
    (do* _ := put_to_index [x] [Some d] in
     do* _ := sync_user_labels fuel x 0 in Done (r : result unit Ep.EventProcessorError))
    (λ a w, a = r ∧ settled u tags w).
Proof.
  intros Hfuel.
  assert (stable untouched (λ w, stored d u w ∧ tags_of w = tags)) as Hstable by auto with stable.
  set (F := λ w, ((stored d u w ∧ tags_of w = tags) ∧ cache w !! x = Some d)
                 ∧ recoverable d w ∧ searchable d w).
  assert (synced_frame F) as HF.
  { split.
    - unfold F; auto 8 with stable.
    - intros f w ?. done.
    - by intros w (_ & ? & _).
    - by intros w ([_ ?] & _). }
  eapply hoare_tbind; [apply (put_to_index_hoare (λ w, stored d u w ∧ tags_of w = tags))|].
  { split; [done|done|done]. }
  { done. }
  intros []. eapply hoare_tbind.
  { eapply (hoare_mono _ _ (λ w, F w ∧ labels_synced (rev (take 0 (label_order tags))) w)).
    - apply (sync_user_labels_hoare F tags fuel 0); [done|by intros w [[[_ ?] _] _]|lia].
    - intros w [[? ?] ?]. split; [done|]. constructor.
    - intros a w H. exact H. }
  intros a. apply hoare_pure. intros _. apply hoare_done.
  - apply stable_and; [by apply HF|apply untouched_labels_synced].
  - intros w [([[? ?] ?] & ? & ?) Hls]. split; [done|]. split; [done|]. split; [done|].
    split; [done|]. split; [done|]. intros l Hl. unfold labels_synced in Hls.
    rewrite Forall_forall in Hls. by apply Hls, label_order_elem.
Qed.

Lemma create_user_hoare u tags o :
  HOARE (λ w, (recoverable d w ∧ cache w !! x = o) ∧ tags_of w = tags)
    (call (write (create_user d u)))
    (λ _ w, ((recoverable d w ∧ cache w !! x = o) ∧ tags_of w = tags) ∧ stored d u w).
Proof.
  assert (stable untouched (λ w, (recoverable d w ∧ cache w !! x = o) ∧ tags_of w = tags)) as Hs by auto with stable.
  apply hoare_call; [done|by intros w [[? _] _]| |by intros _ w [[[? _] _] _]|].
  - intros _. apply stable_and; [done|apply untouched_stored].
  - intros w Hw. simpl. split; [done|]. unfold stored, create_user. simpl. rewrite Hd, lookup_insert_eq.
    eexists. split; [done|]. split; [by intros v ->|]. simpl. by eexists.
Qed.
End One_user.

#[local] Hint Resolve untouched_recoverable untouched_searchable untouched_narrowed untouched_stored
  untouched_cached untouched_tagged untouched_label_synced : stable.

(** The names x is indexed under that its cached document does not have. *)
Definition strays (x : string) (w : Db) (n : string) : Prop :=
  name_member n x ∈ names w ∧ ∀ u, cache w !! x = Some u → n ≠ lower u.

Lemma strays_recoverable x d w :
  (∀ u, cache w !! x = Some u → id u = x) → recoverable x (strays x w) d w.
Proof.
  intros Hid. split; [done|]. intros n Hn. destruct (cache w !! x) as [u|] eqn:Hu.
  - destruct (decide (n = lower u)); [by left; exists u|]. do 2 right. split; [done|].
    rewrite Hu. by intros u' [= <-].
  - do 2 right. split; [done|]. by rewrite Hu.
Qed.

(** C9: writing a profile either settles all of the user's records (the node and its
    address, the cached document, a search entry under the new name, one score per label on
    the profile) or, cut short anywhere, leaves them so that writing the same profile again
    settles them. Others work all along, on anything but this user's own records; and no
    search entry of the user is left but the new name's and those that were there before
    without being the cached name's (a rename that failed half-way leaves one, see
    [Example_users.interrupted_rename_leaks]). *)
Theorem profile_write_settles fuel now user profile_uri x w o w' :
  let d := from_homeserver user x now in
  (∀ u, cache w !! x = Some u → id u = x) →
  (length (label_order (tags_of x w)) < fuel)%nat →
  runs (untouched x) (sync_put fuel now user profile_uri x) w o w' →
  recoverable x (strays x w) d w'
  ∧ ∀ r, o = Some r → r = Ok tt ∧ settled x (strays x w) d (Some profile_uri) (tags_of x w) w'.
Proof.
  intros d Hcached Hfuel. set (S := strays x w). assert (recoverable x S d w) as Hw by by apply strays_recoverable.
  set (P := λ w1, (recoverable x S d w1 ∧ cache w1 !! x = cache w !! x) ∧ tags_of x w1 = tags_of x w).
  assert (hoare (untouched x) (recoverable x S d) P (sync_put fuel now user profile_uri x)
    (λ r w', r = Ok tt ∧ settled x S d (Some profile_uri) (tags_of x w) w')) as Hput.
  { unfold sync_put. eapply hoare_tbind; [by apply create_user_hoare|]. intros [].
    eapply hoare_tbind.
    - eapply (hoare_mono _ _ (λ w1, ((stored x d (Some profile_uri) w1 ∧ tags_of x w1 = tags_of x w)
                                    ∧ cache w1 !! x = cache w !! x) ∧ recoverable x S d w1)).
      + apply (search_put_hoare x S d eq_refl _ (cache w !! x)).
        * split; [auto with stable|done|done].
        * by intros w1 [_ ?].
        * done.
      + intros w1 (((? & ?) & ?) & ?). done.
      + intros a w1 H. exact H.
    - intros []. eapply hoare_mono;
        [by apply (refresh_hoare x S d eq_refl (Some profile_uri) (tags_of x w))| |].
      + by intros w1 [[[[? ?] ?] ?] [[_ ?] ?]].
      + intros a w1 H. exact H. }
  intros Hruns. apply (Hput w o w'); [|done]. done.
Qed.

Lemma search_delete_hoare x S d F o :
  id d = x → carried x F → (∀ w, F w → cache w !! x = o) → (∀ u, o = Some u → id u = x) →
  hoare (untouched x) (recoverable x S d) (λ w, F w ∧ recoverable x S d w) (search_delete x)
    (λ _ w, F w ∧ recoverable x S d w ∧ narrowed x S d w ∧ x ∉ ids w).
Proof.
  intros Hd HF Ho Hid. unfold search_delete. eapply hoare_tbind; [by eapply delete_existing_hoare|].
  intros ?. apply hoare_done; [|by intros w (? & ? & ? & ?)].
  intros w w' Hstep (? & ? & ? & Hids). split; [by eapply HF|].
  split; [by eapply untouched_recoverable|]. split; [by eapply untouched_narrowed|].
  by rewrite (untouched_ids _ _ _ Hstep).
Qed.

(** x has no record but, perhaps, labels. *)
Definition erased (x : string) (S : string → Prop) (d : UserDetails) (w : Db) : Prop :=
  nodes w !! x = None ∧ cache w !! x = None ∧ searchable x S d w.

(** Deletion of a user without relationships: the index, the document, then the node. *)
Lemma erase_hoare x S d o :
  id d = x → deleted d = true → (∀ u, o = Some u → id u = x) →
  hoare (untouched x) (recoverable x S d) (λ w, cache w !! x = o ∧ recoverable x S d w)
    (do* _ := search_delete x in
     do* _ := call (write (set_cache (delete x))) in
     do* _ := call (write (delete_user x)) in
     Done (Ok tt : result unit Ep.EventProcessorError))
    (λ r w, r = Ok tt ∧ erased x S d w).
Proof.
  intros Hd Hdel Hid. eapply hoare_tbind.
  { eapply search_delete_hoare; [done| |by intros w ?|done]. by split; [apply untouched_cached|..]. }
  intros []. set (Gone := λ w, cache w !! x = None ∧ recoverable x S d w ∧ searchable x S d w).
  assert (stable (untouched x) Gone) as HGone by (unfold Gone; auto 8 with stable).
  assert (∀ w, narrowed x S d w → x ∉ ids w → searchable x S d w) as Hsearch.
  { intros w Hn Hids. by split; [split|]; rewrite ?Hdel. }
  eapply (hoare_tbind _ _ _ _ _ (λ _, Gone)).
  { apply hoare_call.
    - intros w w' Hstep (? & ? & ? & Hids). split; [by eapply untouched_cached|].
      split; [by eapply untouched_recoverable|]. split; [by eapply untouched_narrowed|].
      by rewrite (untouched_ids _ _ _ Hstep).
    - by intros w (_ & ? & _).
    - done.
    - by intros _ w (_ & ? & _).
    - intros w (_ & _ & Hn & Hids). unfold Gone. simpl. rewrite lookup_delete_eq.
      split; [done|]. split; [|by apply Hsearch].
      split; simpl; rewrite lookup_delete_eq; [done|]. intros n Hin. right. by apply Hn. }
  intros []. eapply (hoare_tbind _ _ _ _ _ (λ _ w, nodes w !! x = None ∧ Gone w)).
  { apply hoare_call; [done|by intros w (_ & ? & _)| |by intros _ w (_ & _ & ? & _)|].
    - intros _ w w' Hstep [? ?]. split; [by rewrite (untouched_node _ _ _ Hstep)|by eapply HGone].
    - intros w Hw. simpl. split; [by rewrite lookup_delete_eq|done]. }
  intros []. apply hoare_done.
  - intros w w' Hstep [? ?]. split; [by rewrite (untouched_node _ _ _ Hstep)|by eapply HGone].
  - intros w (? & ? & ? & ?). by split.
Qed.

(** C12: deleting a user, while others work on anything but this user's own records, leaves
    no way to find them: when it ends, the user has no node, document or search entry, or,
    having had relationships, is a tombstone in the graph and in the cache, with no search
    entry and no entry under any label on the profile; cut anywhere, the only search entry
    left is the cached name's, so a later attempt removes it. Search entries that were there
    before under a name other than the cached one (a rename that failed half-way leaves one)
    are the only ones to remain. Only an unknown user is refused. *)
Theorem profile_delete_settles fuel now x w o w' :
  let d := tombstone x now in
  (∀ u, cache w !! x = Some u → id u = x) →
  (length (label_order (tags_of x w)) < fuel)%nat →
  runs (untouched x) (del fuel now x) w o w' →
  recoverable x (strays x w) d w'
  ∧ ∀ r, o = Some r →
      (r = Ok tt ∧ (erased x (strays x w) d w' ∨ settled x (strays x w) d None (tags_of x w) w'))
      ∨ (r = Err Ep.SkipIndexing ∧ nodes w' !! x = None).
Proof.
  intros d Hid Hfuel. set (S := strays x w). assert (recoverable x S d w) as Hw by by apply strays_recoverable.
  set (P := λ w1, (recoverable x S d w1 ∧ cache w1 !! x = cache w !! x)
                                     ∧ tags_of x w1 = tags_of x w).
  assert (stable (untouched x) P) as HP by (unfold P; auto with stable).
  assert (hoare (untouched x) (recoverable x S d) P (del fuel now x) (λ r w',
      (r = Ok tt ∧ (erased x S d w' ∨ settled x S d None (tags_of x w) w'))
      ∨ (r = Err Ep.SkipIndexing ∧ nodes w' !! x = None))) as Hdel.
  { unfold del. eapply (hoare_tbind _ _ _ _ _ (λ flag w, P w ∧ (flag = None → nodes w !! x = None))).
    { apply hoare_call; [done|by intros w1 [[? _] _]| |by intros _ w1 [[[? _] _] _]|].
      - intros flag w1 w2 Hstep [? Hn]. split; [by eapply HP|]. by rewrite (untouched_node _ _ _ Hstep).
      - intros w1 Hw1. simpl. split; [done|]. unfold user_is_safe_to_delete. by destruct (nodes w1 !! x). }
    intros [[|]|]; cbn [outcome_of_flag].
    - eapply hoare_tbind.
      { eapply hoare_mono; [apply (search_delete_hoare x S d
          (λ w1, cache w1 !! x = cache w !! x ∧ tags_of x w1 = tags_of x w) (cache w !! x))|..].
        + done.
        + split; [auto with stable|done|done].
        + by intros w1 [? _].
        + done.
        + by intros w1 [[[? ?] ?] _].
        + intros a w1 H. exact H. }
      intros []. set (N := λ w1, narrowed x S d w1).
      eapply (hoare_tbind _ _ _ _ _ (λ _ w1, (stored x d None w1 ∧ tags_of x w1 = tags_of x w)
                                           ∧ recoverable x S d w1 ∧ narrowed x S d w1)).
      { apply hoare_call.
        - intros w1 w2 Hstep ((? & ?) & ? & ? & Hids). split; [|split; [by eapply untouched_recoverable|]].
          + split; [by eapply untouched_cached|by eapply untouched_tagged].
          + split; [by eapply untouched_narrowed|by rewrite (untouched_ids _ _ _ Hstep)].
        - by intros w1 (_ & ? & _).
        - intros _. auto with stable.
        - by intros _ w1 (_ & ? & _).
        - intros w1 ((? & ?) & ? & ? & ?). simpl. split; [split; [|done]|done].
          unfold stored, create_user. simpl. rewrite lookup_insert_eq. eexists. split; [done|].
          split; [done|]. by eexists. }
      intros []. eapply hoare_mono; [by apply (refresh_hoare x S d eq_refl None (tags_of x w))|done|].
      intros r w1 [-> ?]. auto.
    - eapply hoare_mono; [by apply (erase_hoare x S d (cache w !! x))|by intros w1 [[[? ?] ?] _]|].
      intros r w1 [-> ?]. auto.
    - apply hoare_done.
      + intros w1 w2 Hstep [? Hn]. split; [by eapply HP|]. by rewrite (untouched_node _ _ _ Hstep).
      + intros w1 [[[? _] _] Hn]. split; [done|]. right. auto. }
  intros Hruns. apply (Hdel w o w'); [|done]. done.
Qed.

(** ** The read-through cache *)

(** What a user's details are: the cached document, or else the node. *)
Definition known_details (w : Db) (i : string) : option UserDetails :=
  match cache w !! i with Some d => Some d | None => details <$> nodes w !! i end.

(** Nobody else runs. *)
Definition nobody (w w' : Db) : Prop := False.

Lemma nobody_stable P : stable nobody P.
Proof. by intros w w' []. Qed.

Definition keeps {A} (P : Db → Prop) (t : thread Db A) : Prop := hoare nobody P P t (λ _, P).

Lemma keeps_call {A : Set} P (p : prog Db A) : (∀ w, P w → P (snd (p w))) → keeps P (call p).
Proof. intros Hp. by apply hoare_call; try done; intros; apply nobody_stable. Qed.

Lemma keeps_done {A} P (a : A) : keeps P (Done a).
Proof. by apply hoare_done; [apply nobody_stable|]. Qed.

Lemma keeps_tbind {A B} P (t : thread Db A) (k : A → thread Db B) :
  keeps P t → (∀ a, keeps P (k a)) → keeps P (tbind t k).
Proof. intros Ht Hk. by eapply hoare_tbind. Qed.

Lemma keeps_run {A} P (t : thread Db A) w : keeps P t → P w → P (snd (run_thread t w)).
Proof. intros Ht Hw. exact (proj1 (Ht w _ _ Hw (run_thread_runs _ t w))). Qed.

Lemma search_put_stores details_list w :
  let w' := snd (run_thread (search_put_to_index details_list) w) in
  cache w' = cache w ∧ nodes w' = nodes w.
Proof.
  apply (keeps_run (λ w', cache w' = cache w ∧ nodes w' = nodes w)); [|done].
  unfold search_put_to_index, delete_existing_records.
  repeat first [ progress cbv zeta | apply keeps_done | apply keeps_call; intros ? [? ?]; done | case_match
               | apply keeps_tbind; [|intros ?] ].
Qed.

(** The positions still to fill, from [k] on. *)
Definition missing_from (k : nat) (user_ids : list string) (collection : list (option UserDetails)) :
    list (nat * string) :=
  omap (λ '(i, (user_id, r)), match r with None => Some (i, user_id) | Some _ => None end)
    (imap (λ i, pair (k + i)%nat) (zip user_ids collection)).

Lemma missing_from_cons k i user_ids r collection :
  missing_from k (i :: user_ids) (r :: collection) =
    match r with None => [(k, i)] | Some _ => [] end ++ missing_from (S k) user_ids collection.
Proof.
  unfold missing_from. simpl. rewrite Nat.add_0_r.
  rewrite (imap_ext _ (λ j, pair (S k + j)%nat)) by (intros; simpl; f_equal; lia).
  by destruct r.
Qed.

Lemma fill_missing (f : string → option UserDetails) before user_ids collection :
  length user_ids = length collection →
  let todo := missing_from (length before) user_ids collection in
  fill (before ++ collection) todo (f <$> (snd <$> todo))
  = Some (before ++ zip_with (λ i r, match r with Some d => Some d | None => f i end) user_ids collection).
Proof.
  revert before collection. induction user_ids as [|i user_ids IH]; intros before [|r collection] Hlen;
    try done.
  cbv zeta. rewrite missing_from_cons. simpl in Hlen. injection Hlen as Hlen.
  destruct r as [d|]; cbn [zip_with app].
  - rewrite (cons_middle (Some d)), app_assoc.
    specialize (IH (before ++ [Some d]) collection Hlen). cbv zeta in IH.
    rewrite length_app, Nat.add_1_r in IH. rewrite IH. by rewrite <- app_assoc.
  - rewrite !fmap_cons. cbn [fill snd].
    rewrite insert_app_r_alt, Nat.sub_diag by done. cbn [list_insert insert].
    rewrite (cons_middle (f i)), app_assoc.
    specialize (IH (before ++ [f i]) collection Hlen). cbv zeta in IH.
    rewrite length_app, Nat.add_1_r in IH. rewrite IH. by rewrite <- app_assoc.
Qed.

Lemma foldl_found (f : string → option UserDetails) m (c : gmap string UserDetails) i :
  foldl (λ m '(i, d), <[i := d]> m) c (omap (λ '(i, r), pair i <$> r) (zip m (f <$> m))) !! i
  = if decide (i ∈ m) then match f i with Some d => Some d | None => c !! i end else c !! i.
Proof.
  revert c. induction m as [|j m IH]; intros c; [done|].
  rewrite fmap_cons. cbn [zip_with]. unfold omap in *. cbn [list_omap].
  destruct (f j) as [d|] eqn:Hj; cbn [fmap option_fmap option_map foldl].
  - rewrite IH. destruct (decide (i = j)) as [->|Hne].
    + rewrite lookup_insert_eq, Hj, (decide_True (P := j ∈ j :: m)) by set_solver. by case_decide.
    + rewrite lookup_insert_ne by done. repeat case_decide; set_solver.
  - rewrite IH. destruct (decide (i = j)) as [->|Hne].
    + rewrite Hj. by repeat case_decide.
    + repeat case_decide; set_solver.
Qed.

Lemma missing_elem w user_ids i :
  i ∈ (snd <$> missing user_ids ((λ i, cache w !! i) <$> user_ids)) ↔
  i ∈ user_ids ∧ cache w !! i = None.
Proof.
  change (missing user_ids) with (missing_from 0 user_ids). generalize 0%nat.
  induction user_ids as [|j user_ids IH]; intros k; [set_solver|].
  rewrite fmap_cons, missing_from_cons. specialize (IH (S k)).
  destruct (cache w !! j) eqn:Hj; simpl; [set_solver|]. set_solver.
Qed.

(** reading users through the cache never panics and gives, for each id in turn, the
    cached profile or else the graph's; what was missing and found is cached, and nothing
    else changes there. *)
Theorem get_by_ids_reads_through user_ids w :
  let '(r, w') := run_thread (get_by_ids user_ids) w in
  r = Some (known_details w <$> user_ids) ∧ nodes w' = nodes w
  ∧ ∀ i, cache w' !! i = if decide (i ∈ user_ids) then known_details w i else cache w !! i.
Proof.
  unfold get_by_ids. rewrite run_thread_tbind. unfold call at 1, read. cbn [run_thread]. cbv zeta.
  set (collection := (λ i, cache w !! i) <$> user_ids). set (f := λ i, details <$> nodes w !! i).
  assert (length user_ids = length collection) as Hlen by (subst collection; by rewrite length_fmap).
  assert (zip_with (λ i r, match r with Some d => Some d | None => f i end) user_ids collection
          = known_details w <$> user_ids) as Hzip.
  { subst collection. clear. induction user_ids as [|i user_ids IH]; [done|].
    rewrite !fmap_cons. cbn [zip_with]. by rewrite IH. }
  pose proof (fill_missing f [] user_ids collection Hlen) as Hfill. cbv zeta in Hfill.
  rewrite Hzip in Hfill. cbn [app length] in Hfill.
  change (missing_from 0 user_ids collection) with (missing user_ids collection) in Hfill.
  assert (∀ i, i ∈ (snd <$> missing user_ids collection) ↔ i ∈ user_ids ∧ cache w !! i = None)
    as Hmiss by (intros; apply missing_elem).
  assert (∀ i (c : gmap string UserDetails), c !! i =
      (if decide (i ∈ (snd <$> missing user_ids collection))
       then match f i with Some d => Some d | None => cache w !! i end else cache w !! i) →
    c !! i = if decide (i ∈ user_ids) then known_details w i else cache w !! i) as Hcache.
  { intros i c ->. specialize (Hmiss i). unfold known_details. fold (f i).
    destruct (cache w !! i) as [d|]; repeat case_decide; try done; try (by destruct (f i)); naive_solver. }
  destruct (missing user_ids collection) as [|m ms] eqn:Hm.
  { cbn [run_thread]. split; [|split; [done|]].
    - cbn in Hfill. congruence.
    - intros i. apply Hcache. by rewrite decide_False by set_solver. }
  rewrite <- Hm in *. unfold get_from_graph, call at 1, read.
  rewrite run_thread_tbind. cbn [run_thread].
  change (get_users_details_by_ids (snd <$> missing user_ids collection) w)
    with (f <$> (snd <$> missing user_ids collection)).
  set (flat := snd <$> missing user_ids collection) in *.
  destruct (f <$> flat) as [|r rs] eqn:Hf; [by unfold flat in Hf; rewrite Hm in Hf|].
  rewrite <- Hf in *. rewrite Hfill. rewrite run_thread_tbind.
  unfold put_to_index. cbv zeta. rewrite run_thread_tbind.
  set (found := omap (λ '(i, r), pair i <$> r) (zip flat (f <$> flat))).
  set (t := match found with [] => _ | _ => _ end).
  assert (∃ u, run_thread t w = (u, set_cache (λ m, foldl (λ m '(i, d), <[i := d]> m) m found) w)) as [u Ht].
  { subst t. destruct found; [|by eexists]. exists tt. by destruct w. }
  rewrite Ht. set (w1 := set_cache _ w).
  pose proof (search_put_stores (omap (λ r, r) (f <$> flat)) w1) as Hsearch.
  destruct (run_thread (search_put_to_index (omap (λ r, r) (f <$> flat))) w1) as [u2 w2].
  cbn [run_thread]. cbv zeta in Hsearch. cbn [snd] in Hsearch. destruct Hsearch as [Hc Hn]. split; [done|]. split; [by rewrite Hn|].
  intros i. apply Hcache. rewrite Hc. subst w1. cbn [set_cache cache]. apply foldl_found.
Qed.
End Users.

(** ** Ann, who renames herself *)

Module Example_users.

Definition low (s : string) : string := s.

Definition empty : Db := {|
  nodes := ∅; related := ∅; cache := ∅; names := ∅; ids := ∅; user_tags := ∅; taggers := ∅; by_label := ∅;
|}.

Definition profile (n : string) : PubkyAppUser := {|
  user_name := n; user_bio := None; user_image := None; user_links := None; user_status := None;
|}.

Definition run {A} (t : thread Db A) (w : Db) : Db := snd (run_thread t w).

Definition put (n : string) : thread Db (result unit Ep.EventProcessorError) :=
  sync_put low 2 7 (profile n) "pubky://u/pub/pubky.app/profile.json" "u".

Definition ann : Db := run (put "ann") empty.

(** She is tagged "dev" by two users, so she has relationships. *)
Definition tagged_ann : Db := {|
  nodes := nodes ann; related := {["u"]}; cache := cache ann; names := names ann; ids := ids ann;
  user_tags := {["u" := {["dev" := 2]}]}; taggers := {[("u", "dev") := {["v"; "w"]}]};
  by_label := {["dev" := {["u" := 2]}]};
|}.

Lemma ann_names n : name_member n "u" ∈ names tagged_ann → n = "ann".
Proof.
  assert (names tagged_ann = {["ann:u"]}) as -> by (vm_compute; reflexivity).
  intros Heq%elem_of_singleton. by apply (name_member_inj n "ann" "u").
Qed.

Lemma ann_cached : ∀ u, cache tagged_ann !! "u" = Some u → id u = "u".
Proof.
  assert (cache tagged_ann !! "u" = Some (from_homeserver (profile "ann") "u" 7)) as ->
    by (vm_compute; reflexivity).
  by intros u [= <-].
Qed.

Lemma ann_strays n : ¬ strays low "u" tagged_ann n.
Proof.
  assert (cache tagged_ann !! "u" = Some (from_homeserver (profile "ann") "u" 7)) as Hc
    by (vm_compute; reflexivity).
  intros [->%ann_names Hn]. by apply (Hn _ Hc).
Qed.

Lemma profile_write_settles_witness :
  let w' := run (put "bob") tagged_ann in
  ((∀ u, cache tagged_ann !! "u" = Some u → id u = "u")
   ∧ (length (label_order (tags_of "u" tagged_ann)) < 2)%nat)
  ∧ (∀ n, ¬ strays low "u" tagged_ann n)
  ∧ settled low "u" (strays low "u" tagged_ann) (from_homeserver (profile "bob") "u" 7)
      (Some "pubky://u/pub/pubky.app/profile.json") (tags_of "u" tagged_ann) w'.
Proof.
  assert (length (label_order (tags_of "u" tagged_ann)) < 2)%nat as Hfuel by (vm_compute; lia).
  split; [split; [apply ann_cached|exact Hfuel]|]. split; [apply ann_strays|].
  destruct (profile_write_settles low 2 7 (profile "bob") "pubky://u/pub/pubky.app/profile.json" "u"
    tagged_ann _ _ ann_cached Hfuel (run_thread_runs _ (put "bob") tagged_ann)) as [_ Hend].
  exact (proj2 (Hend _ eq_refl)).
Defined.

Lemma profile_delete_settles_witness :
  let w' := run (del low 2 8 "u") tagged_ann in
  let S := strays low "u" tagged_ann in
  ((∀ u, cache tagged_ann !! "u" = Some u → id u = "u")
   ∧ (length (label_order (tags_of "u" tagged_ann)) < 2)%nat)
  ∧ (∀ n, ¬ S n)
  ∧ (erased low "u" S (tombstone "u" 8) w' ∨ settled low "u" S (tombstone "u" 8) None (tags_of "u" tagged_ann) w'
     ∨ nodes w' !! "u" = None)
  ∧ label_set "dev" w' !! "u" = None.
Proof.
  assert (length (label_order (tags_of "u" tagged_ann)) < 2)%nat as Hfuel by (vm_compute; lia).
  split; [split; [apply ann_cached|exact Hfuel]|]. split; [apply ann_strays|].
  split; [|vm_compute; reflexivity].
  destruct (profile_delete_settles low 2 8 "u" tagged_ann _ _ ann_cached Hfuel
    (run_thread_runs _ (del low 2 8 "u") tagged_ann)) as [_ Hend].
  destruct (Hend _ eq_refl) as [[_ [?|?]]|[_ ?]]; auto.
Defined.

(** A write of "bob" cut before it refreshed the cache, then a write of "cat": the entry
    of "bob" is never removed. *)
Lemma interrupted_rename_leaks :
  let w1 := run_steps 6 (put "bob") tagged_ann in
  runs (untouched "u") (put "bob") tagged_ann None w1
  ∧ name_member "bob" "u" ∈ names (run (put "cat") w1)
  ∧ name <$> cache (run (put "cat") w1) !! "u" = Some "cat".
Proof.
  cbv zeta. split; [apply run_steps_runs|]. split; [|vm_compute; reflexivity].
  apply (bool_decide_eq_true_1 (name_member "bob" "u" ∈ names (run (put "cat")
    (run_steps 6 (put "bob") tagged_ann)))). vm_compute. reflexivity.
Qed.

(** A read of Ann between the removal of her document and that of her node: she is gone
    from the graph, and stays in the cache and in the search index. *)
Lemma read_during_delete_resurrects :
  let t := del low 2 8 "u" in
  let w1 := run_steps 5 t ann in
  let w2 := run (get_by_ids low ["u"]) w1 in
  let w3 := run (rest 5 t ann) w2 in
  nodes w3 !! "u" = None ∧ name <$> cache w3 !! "u" = Some "ann" ∧ names w3 = {["ann:u"]}.
Proof. vm_compute. done. Qed.

End Example_users.
