(* ===== verification/Follows.v ===== *)
(** * Follows

    nexus-watcher/src/events/handlers/follow.rs over models/follow and the follow
    notifications of models/notification: a FOLLOWS edge in the graph, mirrored in the
    follower's Following set and the followee's Followers set. Any call may fail before
    or after it took effect, and a failed event is attempted again. The calls of a join
    all run, in any order; they touch different keys, so they are run in turn. *)

From S2P Require Import Prelude Errors Events Redis RedisSets World Graphs Notifications.
Local Open Scope Z_scope.

(** ** The graph *)

(** [User] nodes, and FOLLOWS edges with their [indexed_at]. *)
Record FollowGraph := {
  users : gset string;
  follows : gmap (string * string) Z;
}.

(** The flag says the edge existed; no row when a user is missing. *)
Definition create_follow (follower_id followee_id : string) (indexed_at : Z) :
    prog FollowGraph (option bool) := λ g,
  if decide (follower_id ∈ users g ∧ followee_id ∈ users g) then
    (Some (bool_decide (is_Some (follows g !! (follower_id, followee_id)))),
     {| users := users g; follows := <[(follower_id, followee_id) := indexed_at]> (follows g) |})
  else (None, g).

(** The flag says there was no edge to delete. *)
Definition delete_follow (follower_id followee_id : string) : prog FollowGraph (option bool) := λ g,
  if decide (follower_id ∈ users g ∧ followee_id ∈ users g) then
    (Some (bool_decide (follows g !! (follower_id, followee_id) = None)),
     {| users := users g; follows := delete (follower_id, followee_id) (follows g) |})
  else (None, g).

(** The only row of the queries below: whether the user exists, and the ids. *)
Definition get_user_followers (user_id : string) (g : FollowGraph) : option (list string) :=
  if decide (user_id ∈ users g) then
    Some (omap (λ '(a, b), if decide (b = user_id) then Some a else None) (elements (dom (follows g))))
  else None.

Definition get_user_following (user_id : string) (g : FollowGraph) : option (list string) :=
  if decide (user_id ∈ users g) then
    Some (omap (λ '(a, b), if decide (a = user_id) then Some b else None) (elements (dom (follows g))))
  else None.

(** ** The world of the handlers *)

Record FollowWorld (W D : Type) := {
  outside : W;
  redis : Session D;
  social : GraphSession FollowGraph;
}.
Arguments outside {W D} _.
Arguments redis {W D} _.
Arguments social {W D} _.

Section Follows.
Context {W D Kind : Type} {CL : Clock W}.
Context {RS : RedisServer D} {RL : RedisLaws D} {RP : RedisSets D} {SL : SetLaws D}.
Abbreviation FW := (FollowWorld W D).
Abbreviation KV A := (prog FW (result A Kv.RedisError)).
Abbreviation EP A := (prog FW (result A Ep.EventProcessorError)).
Local Open Scope nexus_scope.

(** serde's rendering of a body. *)
Context (to_json : NotificationBody Kind → result string string).
(** [PubkyId::to_uri], rendered. *)
Context (user_uri : string → result string string).
(** [UserIngestor::maybe_ingest_user] *)
Context (maybe_ingest_user : string → prog FW (result unit Model.ModelError)).

Definition on_outside {A} (p : prog W A) : prog FW A := λ w,
  let '(a, o) := p (outside w) in (a, {| outside := o; redis := redis w; social := social w |}).
Definition on_redis {A} (p : prog (Session D) A) : prog FW A := λ w,
  let '(a, s) := p (redis w) in (a, {| outside := outside w; redis := s; social := social w |}).
Definition on_graph {A} (p : prog (GraphSession FollowGraph) A) : prog FW A := λ w,
  let '(a, g) := p (social w) in (a, {| outside := outside w; redis := redis w; social := g |}).

Definition now : prog FW Z :=
  let* t := on_outside utc_now in ret (timestamp_millis t).

(** ** models/follow *)

(** The two implementations of [UserFollows], with their [RedisOps::prefix]. *)
Inductive UserFollows := Followers | Following.

Definition prefix (f : UserFollows) : string :=
  match f with Followers => "Followers" | Following => "Following" end.

Definition get_query (f : UserFollows) : string → FollowGraph → option (list string) :=
  match f with Followers => get_user_followers | Following => get_user_following end.

Definition put_to_graph (follower_id followee_id : string) :
    prog FW (result OperationOutcome Graph.GraphError) :=
  let* indexed_at := now in
  on_graph (execute_graph_operation (create_follow follower_id followee_id indexed_at)).

Definition del_from_graph (follower_id followee_id : string) :
    prog FW (result OperationOutcome Graph.GraphError) :=
  on_graph (execute_graph_operation (delete_follow follower_id followee_id)).

Definition get_from_graph (f : UserFollows) (user_id : string) :
    prog FW (result (option (list string)) Graph.GraphError) :=
  on_graph (run_query (Graphs.reads (get_query f user_id))).

Definition put_to_index (f : UserFollows) (ids : list string) (user_id : string) : KV unit :=
  on_redis (put (prefix f) user_id ids).

Definition del_from_index (f : UserFollows) (ids : list string) (user_id : string) : KV unit :=
  on_redis (del (prefix f) user_id ids).

Definition check_in_index (f : UserFollows) (user_a_id user_b_id : string) : KV bool :=
  let? (_, follow) := on_redis (check_member (prefix f) user_a_id user_b_id) in
  ret (Ok follow).

Definition reindex (f : UserFollows) (user_id : string) : prog FW (result unit Model.ModelError) :=
  let? follow := emap_err Model.GraphOperationFailed (get_from_graph f user_id) in
  match follow with
  | Some ids => emap_err Model.KvOperationFailed (put_to_index f ids user_id)
  | None => ret (Ok tt)
  end.

(** [Friends::check] *)
Definition friends_check (user_a_id user_b_id : string) : prog FW (result bool Model.ModelError) :=
  let? (_, a_follows_b) :=
    emap_err Model.KvOperationFailed (on_redis (check_member (prefix Following) user_a_id user_b_id)) in
  let? (_, b_follows_a) :=
    emap_err Model.KvOperationFailed (on_redis (check_member (prefix Following) user_b_id user_a_id)) in
  ret (Ok (a_follows_b && b_follows_a)).

(** ** Notification *)

Definition SORTED_PREFIX : string := "Sorted".
Definition notification_key (user_id : string) : string := "Notification:" +:+ user_id.

(** [Notification::new], then [put_to_index]. *)
Definition notify (body : NotificationBody Kind) (user_id : string) : KV unit :=
  let* timestamp := now in
  let? notification_body_json := ret (map_err Kv.SerializationFailed (to_json body)) in
  on_redis (sorted_sets_put SORTED_PREFIX (notification_key user_id)
              [(as_f64 timestamp, notification_body_json)]).

Definition new_follow (user_id followee_id : string) (new_friend : bool) : KV unit :=
  notify (if new_friend then NewFriend user_id else FollowBody user_id) followee_id.

Definition lost_follow (user_id followee_id : string) (were_friends : bool) : KV unit :=
  if negb were_friends then ret (Ok tt) else notify (LostFriend user_id) followee_id.

(** ** The handlers *)

(** Any ingestion error but a blacklisted homeserver is swallowed. *)
Definition fail_on_blacklisted_hs (ingest_result : result unit Model.ModelError) :
    result unit Ep.EventProcessorError :=
  match ingest_result with
  | Err (Model.HsBlacklisted hs_id) => Err (Ep.from_model (Model.HsBlacklisted hs_id))
  | _ => Ok tt
  end.

Definition is_followee_following_follower (user_a_id user_b_id : string) : EP bool :=
  let? a_follows_b := emap_err Ep.from_redis (check_in_index Following user_a_id user_b_id) in
  let? b_follows_a := emap_err Ep.from_redis (check_in_index Following user_b_id user_a_id) in
  ret (Ok (negb a_follows_b && b_follows_a)).

Definition sync_put (follower_id followee_id : string) : EP unit :=
  if decide (follower_id = followee_id) then ret (Ok tt)
  else
    let? outcome := emap_err Ep.from_graph (put_to_graph follower_id followee_id) in
    match outcome with
    | Updated =>
        let* r0 := put_to_index Followers [follower_id] followee_id in
        let* r1 := put_to_index Following [followee_id] follower_id in
        let? _ := ret (map_err Ep.from_redis r0) in
        let? _ := ret (map_err Ep.from_redis r1) in
        ret (Ok tt)
    | MissingDependency =>
        let* ingested := maybe_ingest_user followee_id in
        let? _ := ret (fail_on_blacklisted_hs ingested) in
        let? followee_uri := ret (map_err Ep.Generic (user_uri followee_id)) in
        ret (Err (Ep.MissingDependency [followee_uri]))
    | CreatedOrDeleted =>
        let? will_be_friends := is_followee_following_follower follower_id followee_id in
        let* r0 := put_to_index Followers [follower_id] followee_id in
        let* r1 := put_to_index Following [followee_id] follower_id in
        let* r2 := new_follow follower_id followee_id will_be_friends in
        let? _ := ret (map_err Ep.from_redis r0) in
        let? _ := ret (map_err Ep.from_redis r1) in
        let? _ := ret (map_err Ep.from_redis r2) in
        ret (Ok tt)
    end.

Definition sync_del (follower_id followee_id : string) : EP unit :=
  let? were_friends := emap_err Ep.from_model (friends_check follower_id followee_id) in
  let? still_indexed := emap_err Ep.from_redis (check_in_index Followers followee_id follower_id) in
  let* r0 := del_from_index Followers [follower_id] followee_id in
  let* r1 := del_from_index Following [followee_id] follower_id in
  let? _ := ret (map_err Ep.from_redis r0) in
  let? _ := ret (map_err Ep.from_redis r1) in
  let? _ := (if still_indexed : bool
             then emap_err Ep.from_redis (lost_follow follower_id followee_id were_friends)
             else ret (Ok tt)) in
  let? _ := emap_err Ep.from_graph (del_from_graph follower_id followee_id) in
  ret (Ok tt).

(** Attempts of an event, whatever each of them answers. *)
Fixpoint attempts {A} (p : prog FW A) (n : nat) (w : FW) : FW :=
  match n with
  | O => w
  | S n => attempts p n (snd (p w))
  end.

(** ** What is kept about a pair *)

Record Links := { edge : bool; follower : bool; followed : bool }.

Definition Fk (u : string) : string := full_key (prefix Followers) u.
Definition Gk (u : string) : string := full_key (prefix Following) u.
Definition Nk (u : string) : string := full_key SORTED_PREFIX (notification_key u).

Definition links (w : FW) (u v : string) : Links := {|
  edge := bool_decide (is_Some (follows (graph (social w)) !! (u, v)));
  follower := bool_decide (u ∈ smembers (Fk v) (db (redis w)));
  followed := bool_decide (v ∈ smembers (Gk u) (db (redis w)));
|}.

Definition notes (w : FW) (v : string) : gmap string Z := zset (db (redis w)) (Nk v).

(** Keys hold what they are for, and edges join known users. *)
Definition typed (d : D) : Prop :=
  ∀ u, plain d (Fk u) ∧ plain d (Gk u) ∧ json_doc d (Nk u) = None ∧ smembers (Nk u) d = ∅.

Record wf (w : FW) : Prop := {
  wf_typed : typed (db (redis w));
  wf_edges : ∀ u v, edge (links w u v) = true →
    u ∈ users (graph (social w)) ∧ v ∈ users (graph (social w));
}.

(** Only the pair (u, v) and v's notifications may differ, and users be added. *)
Record frame (u v : string) (w w' : FW) : Prop := {
  frame_wf : wf w → wf w';
  frame_users : users (graph (social w)) ⊆ users (graph (social w'));
  frame_links a b : (a, b) ≠ (u, v) → links w' a b = links w a b;
  frame_notes b : b ≠ v → notes w' b = notes w b;
}.

#[export] Instance frame_preorder u v : PreOrder (frame u v).
Proof.
  split; [by split|]. intros w1 w2 w3 [W1 U1 L1 N1] [W2 U2 L2 N2].
  split; [by auto|by etrans|..]; intros; [by rewrite L2, L1|by rewrite N2, N1].
Qed.

Context (Htime : ∀ t : DateTime, exact_score (timestamp_millis t)).

(** Ingestion adds at most users. *)
Definition ingestion_adds_users : Prop := ∀ x w u v,
  let w' := snd (maybe_ingest_user x w) in
  frame u v w w' ∧ links w' u v = links w u v ∧ notes w' v = notes w v.
Context (Hingest : ingestion_adds_users).

Definition set_link (f : UserFollows) (b : bool) (l : Links) : Links :=
  match f with
  | Followers => {| edge := edge l; follower := b; followed := followed l |}
  | Following => {| edge := edge l; follower := follower l; followed := b |}
  end.

(** Whose set a link is kept in, and as which member. *)
Definition owner (f : UserFollows) (u v : string) : string :=
  match f with Followers => v | Following => u end.
Definition member (f : UserFollows) (u v : string) : string :=
  match f with Followers => u | Following => v end.

Lemma full_key_inj p a b : full_key p a = full_key p b → a = b.
Proof. unfold full_key. by intros Heq%(inj _)%(inj _). Qed.

Definition index_write (add : bool) (f : UserFollows) (u v : string) (d : D) : D :=
  (if add then SADD else SREM) (full_key (prefix f) (owner f u v)) [member f u v] d.

Lemma index_write_spec add f u v d : typed d →
  typed (index_write add f u v d)
  ∧ (∀ k, zset (index_write add f u v d) k = zset d k)
  ∧ (∀ k, k ≠ full_key (prefix f) (owner f u v) → smembers k (index_write add f u v d) = smembers k d)
  ∧ (∀ x, x ∈ smembers (full_key (prefix f) (owner f u v)) (index_write add f u v d) ↔
       if add then x = member f u v ∨ x ∈ smembers (full_key (prefix f) (owner f u v)) d
       else x ≠ member f u v ∧ x ∈ smembers (full_key (prefix f) (owner f u v)) d).
Proof.
  intros Ht. set (k0 := full_key (prefix f) (owner f u v)).
  assert (plain d k0) as Hk0 by (subst k0; destruct f; apply Ht).
  assert (∀ k, json_doc (index_write add f u v d) k = json_doc d k) as Hdoc
    by (intros; unfold index_write; destruct add; [by apply sadd_doc|by apply srem_doc]).
  assert (∀ k, zset (index_write add f u v d) k = zset d k) as Hz
    by (intros; unfold index_write; destruct add; [by apply sadd_zset|by apply srem_zset]).
  assert (∀ k, k ≠ k0 → smembers k (index_write add f u v d) = smembers k d) as Hm.
  { intros k Hk. unfold index_write. fold k0.
    destruct add; [rewrite sadd_members by done|rewrite srem_members by done]; by rewrite decide_False. }
  split; [|split; [done|split; [done|]]].
  - intros a. unfold plain. rewrite !Hdoc, !Hz. destruct (Ht a) as ([? ?] & [? ?] & ? & ?).
    repeat split; try done. rewrite Hm; [done|]. subst k0. by destruct f.
  - intros x. unfold index_write. fold k0.
    destruct add; [rewrite sadd_members by done|rewrite srem_members by done]; rewrite decide_True by done;
      set_solver.
Qed.

Lemma index_write_frame add f u v w w' :
  wf w → social w' = social w → db (redis w') = index_write add f u v (db (redis w)) →
  frame u v w w' ∧ links w' u v = set_link f add (links w u v) ∧ notes w' v = notes w v.
Proof.
  intros [Ht He] Hs Hd. destruct (index_write_spec add f u v _ Ht) as (Ht' & Hz & Hm & Hx).
  rewrite <- Hd in Ht', Hz, Hm, Hx.
  assert (∀ k x, bool_decide (x ∈ smembers (full_key (prefix f) k) (db (redis w'))) =
      if decide (k = owner f u v ∧ x = member f u v) then add
      else bool_decide (x ∈ smembers (full_key (prefix f) k) (db (redis w)))) as Hf.
  { intros k x. destruct (decide (k = owner f u v)) as [->|Hk].
    - case_decide as Heq.
      + destruct Heq as [_ ->].
        destruct add; [apply bool_decide_eq_true_2|apply bool_decide_eq_false_2]; rewrite Hx; naive_solver.
      + apply bool_decide_ext. rewrite Hx. destruct add; naive_solver.
    - rewrite decide_False by naive_solver. rewrite Hm; [done|]. by intros ?%full_key_inj. }
  assert (∀ a b, links w' a b = if decide ((a, b) = (u, v)) then set_link f add (links w u v)
                                else links w a b) as Hl.
  { intros a b. unfold links. rewrite Hs. destruct f; simpl in *.
    - change (Fk b) with (full_key "Followers" b). rewrite Hf, (Hm (Gk a)) by done.
      destruct (decide (b = v ∧ a = u)) as [[-> ->]|Hne]; [by rewrite decide_True|].
      rewrite decide_False; [done|]. intros [= -> ->]. by apply Hne.
    - change (Gk a) with (full_key "Following" a). rewrite Hf, (Hm (Fk b)) by done.
      destruct (decide (a = u ∧ b = v)) as [[-> ->]|Hne]; [by rewrite decide_True|].
      rewrite decide_False; [done|]. intros [= -> ->]. by apply Hne. }
  assert (∀ b, notes w' b = notes w b) as Hn by (intros b; apply Hz).
  split; [|split; [by rewrite Hl, decide_True|done]]. split.
  - intros _. split; [done|]. intros a b. rewrite Hs. intros Hedge. apply He. rewrite <- Hedge, Hl.
    case_decide; [|done]. simplify_eq. by destruct f.
  - by rewrite Hs.
  - intros a b Hab. by rewrite Hl, decide_False.
  - done.
Qed.

(** ** What each call does *)

(** The pair's links became one of [Q]'s, its notifications one of [N]'s. *)
Definition became (u v : string) (w : FW) (Q : Links → Prop) (N : gmap string Z → Prop) (w' : FW) : Prop :=
  wf w' ∧ frame u v w w' ∧ Q (links w' u v) ∧ N (notes w' v).

Lemma on_redis_yields {A} (p : prog (Session D) (result A Kv.RedisError)) w Q R :
  yields p (redis w)
    (λ a s, Q a {| outside := outside w; redis := s; social := social w |})
    (λ e s, R e {| outside := outside w; redis := s; social := social w |}) →
  yields (on_redis p) w Q R.
Proof. unfold yields, on_redis. by destruct (p (redis w)) as [[] ?]. Qed.

Lemma on_graph_yields {A} (p : prog (GraphSession FollowGraph) (result A Graph.GraphError)) w Q R :
  yields p (social w)
    (λ a s, Q a {| outside := outside w; redis := redis w; social := s |})
    (λ e s, R e {| outside := outside w; redis := redis w; social := s |}) →
  yields (on_graph p) w Q R.
Proof. unfold yields, on_graph. by destruct (p (social w)) as [[] ?]. Qed.

(** A read leaves everything as it is. *)
Lemma same_stores_became u v w w' :
  wf w → db (redis w') = db (redis w) → graph (social w') = graph (social w) →
  became u v w (λ l, l = links w u v) (λ n, n = notes w v) w'.
Proof.
  intros [Ht He] Hd Hg. unfold became, links, notes. rewrite Hd, Hg.
  assert (wf w') as Hwf by (split; [by rewrite Hd|intros a b; unfold links; rewrite Hg; apply He]).
  split; [done|]. split; [|done]. split; [done|by rewrite Hg|..];
    intros; unfold links, notes; by rewrite ?Hd, ?Hg.
Qed.

Lemma index_write_became add f u v w w' :
  wf w → social w' = social w → db (redis w') = index_write add f u v (db (redis w)) →
  became u v w (λ l, l = set_link f add (links w u v)) (λ n, n = notes w v) w'.
Proof.
  intros Hw Hs Hd. destruct (index_write_frame add f u v w w' Hw Hs Hd) as (Hf & Hl & Hn).
  split; [by apply Hf|done].
Qed.

Definition index_call (add : bool) (f : UserFollows) (u v : string) : KV unit :=
  (if add then put_to_index f else del_from_index f) [member f u v] (owner f u v).

Lemma index_call_yields add f u v w :
  wf w →
  yields (index_call add f u v) w
    (λ _, became u v w (λ l, l = set_link f add (links w u v)) (λ n, n = notes w v))
    (λ _, became u v w (λ l, l = links w u v ∨ l = set_link f add (links w u v))
                       (λ n, n = notes w v)).
Proof.
  intros Hw. unfold index_call.
  assert (∀ s, db s = db (redis w) ∨ db s = index_write add f u v (db (redis w)) →
    became u v w (λ l, l = links w u v ∨ l = set_link f add (links w u v)) (λ n, n = notes w v)
      {| outside := outside w; redis := s; social := social w |}) as Herr.
  { intros s [Hs|Hs].
    - destruct (same_stores_became u v w {| outside := outside w; redis := s; social := social w |}
        Hw Hs eq_refl) as (? & ? & ? & ?). split; auto.
    - destruct (index_write_became add f u v w {| outside := outside w; redis := s; social := social w |}
        Hw eq_refl Hs) as (? & ? & ? & ?). split; auto. }
  destruct add; apply on_redis_yields; [apply put_yields|apply del_yields]; try done.
  all: first [intros s Hs; by apply index_write_became|intros _ s Hs; by apply Herr].
Qed.

Definition link (f : UserFollows) (l : Links) : bool :=
  match f with Followers => follower l | Following => followed l end.

Lemma check_in_index_yields f u v a b w :
  wf w →
  yields (check_in_index f (owner f a b) (member f a b)) w
    (λ r w', r = link f (links w a b) ∧ became u v w (λ l, l = links w u v) (λ n, n = notes w v) w')
    (λ _, became u v w (λ l, l = links w u v) (λ n, n = notes w v)).
Proof.
  intros Hw. apply yields_ebind, on_redis_yields, check_member_yields.
  - destruct f; apply Hw.
  - intros s' Hs'. apply yields_ret. split; [by destruct f|]. by apply same_stores_became.
  - intros e s' Hs'. by apply same_stores_became.
Qed.

Lemma friends_check_yields u v a b w :
  wf w →
  yields (friends_check a b) w
    (λ r w', r = followed (links w a b) && followed (links w b a)
             ∧ became u v w (λ l, l = links w u v) (λ n, n = notes w v) w')
    (λ _, became u v w (λ l, l = links w u v) (λ n, n = notes w v)).
Proof.
  intros Hw. unfold friends_check.
  apply yields_ebind, yields_emap_err, on_redis_yields, check_member_yields; [apply Hw| |].
  2: { intros e s' Hs'. by apply same_stores_became. }
  intros s1 Hs1. apply yields_ebind, yields_emap_err, on_redis_yields, check_member_yields; simpl.
  - rewrite Hs1. apply Hw.
  - intros s2 Hs2. apply yields_ret. split; [|apply same_stores_became; simpl; congruence || done].
    unfold links. simpl. by rewrite Hs1.
  - intros e s2 Hs2. apply same_stores_became; simpl; congruence || done.
Qed.

Definition set_edge (b : bool) (l : Links) : Links :=
  {| edge := b; follower := follower l; followed := followed l |}.

Lemma graph_write_became b u v (w w' : FW) :
  wf w → redis w' = redis w → users (graph (social w')) = users (graph (social w)) →
  (∀ p, is_Some (follows (graph (social w')) !! p) ↔
     if decide (p = (u, v)) then b = true else is_Some (follows (graph (social w)) !! p)) →
  (b = true → u ∈ users (graph (social w)) ∧ v ∈ users (graph (social w))) →
  became u v w (λ l, l = set_edge b (links w u v)) (λ n, n = notes w v) w'.
Proof.
  intros [Ht He] Hr Hu Hp Hb.
  assert (∀ x y, links w' x y = if decide ((x, y) = (u, v)) then set_edge b (links w u v)
                                else links w x y) as Hl.
  { intros x y. unfold links. rewrite Hr. specialize (Hp (x, y)). case_decide as Hxy.
    - injection Hxy as -> ->. unfold set_edge. simpl. f_equal.
      destruct b; [by apply bool_decide_eq_true_2, Hp|apply bool_decide_eq_false_2].
      intros Hsome. by apply Hp in Hsome.
    - f_equal. by apply bool_decide_ext. }
  assert (wf w') as Hw'.
  { split; [by rewrite Hr|]. intros x y. rewrite Hu, Hl. case_decide as Hxy; [|apply He].
    injection Hxy as -> ->. apply Hb. }
  split; [done|]. split; [|split; [by rewrite Hl, decide_True|by unfold notes; rewrite Hr]].
  split; [done|by rewrite Hu| |intros; unfold notes; by rewrite Hr].
  intros x y Hxy. by rewrite Hl, decide_False.
Qed.

Lemma now_same u v w : wf w →
  let w' := snd (now w) in
  became u v w (λ l, l = links w u v) (λ n, n = notes w v) w'
  ∧ redis w' = redis w ∧ social w' = social w ∧ exact_score (fst (now w)).
Proof.
  intros Hw. unfold now, bind, on_outside. destruct (utc_now (outside w)) as [t o]. simpl.
  split; [by apply same_stores_became|]. by split; [|split].
Qed.

Lemma edge_links w u v : edge (links w u v) = bool_decide (is_Some (follows (graph (social w)) !! (u, v))).
Proof. done. Qed.

Lemma set_edge_id (l : Links) b : edge l = b → set_edge b l = l.
Proof. by destruct l; simpl; intros ->. Qed.

(** A graph operation by its answer. *)
Definition graph_answer (u v : string) (w : FW) (o : OperationOutcome) : FW → Prop :=
  match o with
  | Updated => became u v w (λ l, l = links w u v ∧ edge l = true) (λ n, n = notes w v)
  | CreatedOrDeleted => became u v w
      (λ l, l = set_edge true (links w u v) ∧ edge (links w u v) = false) (λ n, n = notes w v)
  | MissingDependency => became u v w (λ l, l = links w u v ∧ edge l = false) (λ n, n = notes w v)
  end.

Lemma became_after u v (w w1 w2 : FW) Q N :
  frame u v w w1 → links w1 u v = links w u v → notes w1 v = notes w v →
  became u v w1 Q N w2 → became u v w Q N w2.
Proof. intros Hf _ _ (? & ? & ? & ?). split; [done|]. by split; [etrans|]. Qed.

Lemma became_mono u v (w w' : FW) (Q Q' : Links → Prop) (N N' : gmap string Z → Prop) :
  became u v w Q N w' → (∀ l, Q l → Q' l) → (∀ n, N n → N' n) → became u v w Q' N' w'.
Proof. intros (? & ? & ? & ?) HQ HN. split; [done|]. split; [done|]. auto. Qed.

Lemma execute_yields (q : prog FollowGraph (option bool)) (w : FW) Q R :
  (∀ s', graph s' = snd (q (graph (social w))) →
     Q (outcome_of_flag (fst (q (graph (social w)))))
       {| outside := outside w; redis := redis w; social := s' |}) →
  (∀ e s', graph s' = graph (social w) ∨ graph s' = snd (q (graph (social w))) →
     R e {| outside := outside w; redis := redis w; social := s' |}) →
  yields (on_graph (execute_graph_operation q)) w Q R.
Proof.
  intros HQ HR. apply on_graph_yields. unfold execute_graph_operation.
  apply yields_ebind, run_query_yields; [|done]. intros s' Hs'. apply yields_ret. by apply HQ.
Qed.

Lemma put_to_graph_yields u v w :
  wf w →
  yields (put_to_graph u v) w (graph_answer u v w)
    (λ _, became u v w (λ l, l = links w u v ∨ l = set_edge true (links w u v))
                       (λ n, n = notes w v)).
Proof.
  intros Hw0. unfold put_to_graph. apply yields_bind. intros t w1 Hnow.
  pose proof (now_same u v w Hw0) as (Hb1 & Hr & Hs & _). rewrite Hnow in Hb1, Hr, Hs. simpl in *.
  destruct Hb1 as (Hw & Hf & Hl & Hn). rewrite <- Hl, <- Hn.
  assert (∀ Q N w', became u v w1 Q N w' → became u v w Q N w') as Hafter
    by (intros Q N w'; by apply became_after).
  unfold graph_answer. rewrite <- Hl, <- Hn. clear Hl Hn Hr Hs Hnow.
  set (q := create_follow u v t).
  assert (q (graph (social w1)) = (None, graph (social w1))
            ∧ ¬ (u ∈ users (graph (social w1)) ∧ v ∈ users (graph (social w1)))
          ∨ fst (q (graph (social w1))) = Some (edge (links w1 u v))
            ∧ ∀ s', graph s' = snd (q (graph (social w1))) → became u v w1
                (λ l, l = set_edge true (links w1 u v)) (λ n, n = notes w1 v)
                {| outside := outside w1; redis := redis w1; social := s' |}) as Hq.
  { unfold q, create_follow. case_decide as Hboth; [right|by left]. simpl. split; [done|].
    intros s' Hs'. apply graph_write_became; simpl; rewrite ?Hs'; try done. simpl. intros pr.
    case_decide as Hp; [subst; by rewrite lookup_insert_eq|by rewrite lookup_insert_ne]. }
  assert (∀ s', graph s' = graph (social w1) → became u v w1 (λ l, l = links w1 u v)
            (λ n, n = notes w1 v) {| outside := outside w1; redis := redis w1; social := s' |}) as Hsame
    by (intros; by apply same_stores_became).
  apply execute_yields.
  - intros s' Hs'. destruct Hq as [[Hq Hboth]|[Hflag Hbec]].
    + rewrite Hq in Hs' |- *. simpl in *. apply Hafter.
      eapply became_mono; [by apply Hsame| |done]. intros l ->. split; [done|].
      destruct (edge (links w1 u v)) eqn:He; [|done]. by apply Hw in He.
    + rewrite Hflag. destruct (edge (links w1 u v)) eqn:He; simpl; apply Hafter;
        (eapply became_mono; [by apply Hbec| |done]); intros l ->; [|done].
      split; [by apply set_edge_id|done].
  - intros e s' Hs'. apply Hafter. destruct Hs' as [Hs'|Hs'].
    + eapply became_mono; [by apply Hsame| |done]. auto.
    + destruct Hq as [[Hq _]|[_ Hbec]].
      * rewrite Hq in Hs'. eapply became_mono; [by apply Hsame| |done]. auto.
      * eapply became_mono; [by apply Hbec| |done]. auto.
Qed.

Lemma del_from_graph_yields u v w :
  wf w →
  yields (del_from_graph u v) w
    (λ _, became u v w (λ l, l = set_edge false (links w u v)) (λ n, n = notes w v))
    (λ _, became u v w (λ l, l = links w u v ∨ l = set_edge false (links w u v))
                       (λ n, n = notes w v)).
Proof.
  intros Hw. set (q := delete_follow u v).
  assert (∀ s', graph s' = snd (q (graph (social w))) → became u v w
            (λ l, l = set_edge false (links w u v)) (λ n, n = notes w v)
            {| outside := outside w; redis := redis w; social := s' |}) as Hq.
  { intros s'. unfold q, delete_follow. case_decide as Hboth; simpl; intros Hs'.
    - apply graph_write_became; simpl; rewrite ?Hs'; try done. simpl. intros pr.
      case_decide as Hp; [subst; rewrite lookup_delete_eq; split; [by intros [? ?]|done]
                         |by rewrite lookup_delete_ne].
    - eapply became_mono; [by apply (same_stores_became u v w)| |done]. intros l ->.
      rewrite set_edge_id; [done|]. destruct (edge (links w u v)) eqn:He; [|done]. by apply Hw in He. }
  apply execute_yields; [done|]. intros e s' [Hs'|Hs'].
  - eapply became_mono; [by apply (same_stores_became u v w)| |done]. auto.
  - eapply became_mono; [by apply Hq| |done]. auto.
Qed.

(** At most one more notification. *)
Definition one_more (n n' : gmap string Z) : Prop := ∃ x t, n' = <[x := t]> n.

Lemma notify_yields body u v w :
  wf w →
  yields (notify body v) w
    (λ _, became u v w (λ l, l = links w u v) (one_more (notes w v)))
    (λ _, became u v w (λ l, l = links w u v) (λ n, n = notes w v ∨ one_more (notes w v) n)).
Proof.
  intros Hw0. unfold notify. apply yields_bind. intros t w1 Hnow.
  pose proof (now_same u v w Hw0) as (Hb1 & _ & _ & Ht). rewrite Hnow in Hb1, Ht. simpl in *.
  destruct Hb1 as (Hw & Hf & Hl & Hn). rewrite <- Hl, <- Hn.
  assert (∀ Q N w', became u v w1 Q N w' → became u v w Q N w') as Hafter
    by (intros Q N w'; by apply became_after).
  apply yields_ebind, yields_ret. destruct (to_json body) as [x|e]; simpl.
  2: { apply Hafter. split; [done|]. split; [done|]. auto. }
  assert (as_f64 t = t) as Hexact by by apply as_f64_exact.
  assert (∀ s, db s = ZADD (Nk v) t x (db (redis w1)) → became u v w1 (λ l, l = links w1 u v)
            (λ n, n = <[x := t]> (notes w1 v))
            {| outside := outside w1; redis := s; social := social w1 |}) as Hadd.
  { intros s Hs. destruct Hw as [Hty He]. destruct (Hty v) as (_ & _ & Hdoc & Hmem).
    assert (∀ k, json_doc (db s) k = json_doc (db (redis w1)) k) as Hd'
      by (intros; rewrite Hs; by apply zadd_doc).
    assert (∀ k, smembers k (db s) = smembers k (db (redis w1))) as Hm'
      by (intros; rewrite Hs; by apply zadd_members).
    assert (∀ k, zset (db s) k = if decide (k = Nk v) then <[x := t]> (zset (db (redis w1)) (Nk v))
                                 else zset (db (redis w1)) k) as Hz'
      by (intros; rewrite Hs; by apply zadd_zset).
    assert (wf {| outside := outside w1; redis := s; social := social w1 |}) as Hw'.
    { split; simpl.
      - intros a. destruct (Hty a) as ([? ?] & [? ?] & ? & ?). unfold plain.
        rewrite !Hd', !Hz', Hm', !decide_False by done. done.
      - exact He. }
    assert (∀ a b, links {| outside := outside w1; redis := s; social := social w1 |} a b
                   = links w1 a b) as Hl' by (intros; unfold links; simpl; rewrite Hm'; by rewrite Hm').
    split; [done|]. split; [|split; [by rewrite Hl'|unfold notes; simpl; by rewrite Hz', decide_True]].
    split; [done|done|by intros; apply Hl'|].
    intros b Hb. unfold notes. simpl. rewrite Hz', decide_False; [done|].
    unfold Nk, notification_key. by intros Heq%full_key_inj%(inj _). }
  apply on_redis_yields. unfold sorted_sets_put. fold (Nk v).
  apply yields_ebind, yields_conn; [|intros e s' Hs'; apply Hafter].
  - intros s' Hs'. apply yields_query; simpl; rewrite Hexact, Hs'.
    + intros s2 Hs2. apply Hafter. eapply became_mono; [by apply Hadd|done|]. intros ? ->. by exists x, t.
    + intros e s2 [Hs2|Hs2]; apply Hafter.
      * eapply became_mono; [by apply (same_stores_became u v w1)|done|]. auto.
      * eapply became_mono; [by apply Hadd|done|]. intros ? ->. right. by exists x, t.
  - eapply became_mono; [by apply (same_stores_became u v w1)|done|]. auto.
Qed.

(** ** The handlers *)

#[local] Opaque links.

(** The two index calls of a join. *)
Definition indexed (add : bool) (l : Links) (r0 r1 : result unit Kv.RedisError) (l' : Links) : Prop :=
  edge l' = edge l
  ∧ (follower l' = add ∨ follower l' = follower l ∧ r0 ≠ Ok tt)
  ∧ (followed l' = add ∨ followed l' = followed l ∧ r1 ≠ Ok tt).

Lemma index_join_yields {A} add u v w (k : _ → _ → EP A) Q R :
  wf w →
  (∀ r0 r1 w', became u v w (indexed add (links w u v) r0 r1) (λ n, n = notes w v) w' →
     yields (k r0 r1) w' Q R) →
  yields (let* r0 := index_call add Followers u v in
          let* r1 := index_call add Following u v in k r0 r1) w Q R.
Proof.
  intros Hw Hk. apply yields_bind. intros r0 w1 H1. apply yields_bind. intros r1 w2 H2. apply Hk.
  pose proof (yields_run _ _ _ _ _ _ (index_call_yields add Followers u v w Hw) H1) as B1.
  assert (wf w1) as Hw1 by (destruct r0; by apply B1).
  pose proof (yields_run _ _ _ _ _ _ (index_call_yields add Following u v w1 Hw1) H2) as B2.
  unfold indexed. split; [destruct r1; by apply B2|].
  split; [etrans; destruct r0, r1; by first [apply B1|apply B2]|].
  destruct r0 as [[]|e0], r1 as [[]|e1]; destruct B1 as (_ & _ & L1 & N1), B2 as (_ & _ & L2 & N2);
    (split; [|congruence]); repeat match goal with H : _ ∨ _ |- _ => destruct H as [H|H] end;
    rewrite L2, L1; simpl; intuition congruence.
Qed.

(** What an attempt of a put may do to the pair, when it fails. *)
Definition put_moves (l : Links) (n : gmap string Z) (l' : Links) (n' : gmap string Z) : Prop :=
  (edge l = true → edge l' = true)
  ∧ (follower l' = true → follower l = true ∨ edge l' = true)
  ∧ (followed l' = true → followed l = true ∨ edge l' = true)
  ∧ (n' = n ∨ edge l = false ∧ edge l' = true ∧ one_more n n').

Definition all_linked : Links := {| edge := true; follower := true; followed := true |}.
Definition unlinked : Links := {| edge := false; follower := false; followed := false |}.

Definition put_done (u v : string) (w w' : FW) : Prop :=
  wf w' ∧ frame u v w w' ∧ links w' u v = all_linked
  ∧ (notes w' v = notes w v ∨ edge (links w u v) = false ∧ one_more (notes w v) (notes w' v)).

Definition put_failed (u v : string) (w w' : FW) : Prop :=
  wf w' ∧ frame u v w w' ∧ put_moves (links w u v) (notes w v) (links w' u v) (notes w' v).

Lemma ingest_same u v w x : wf w →
  became u v w (λ l, l = links w u v) (λ n, n = notes w v) (snd (maybe_ingest_user x w)).
Proof. intros Hw. destruct (Hingest x w u v) as (Hf & Hl & Hn). by split; [apply Hf|]. Qed.

Lemma is_followee_yields u v w :
  wf w →
  yields (is_followee_following_follower u v) w
    (λ r w', r = negb (followed (links w u v)) && followed (links w v u)
       ∧ became u v w (λ l, l = links w u v) (λ n, n = notes w v) w')
    (λ _, became u v w (λ l, l = links w u v) (λ n, n = notes w v)).
Proof.
  intros Hw. apply yields_ebind, yields_emap_err.
  eapply yields_mono; [exact (check_in_index_yields Following u v u v w Hw)| |done].
  intros r w1 [-> (Hw1 & Hf & Hl & Hn)]. rewrite <- Hl, <- Hn.
  apply yields_ebind, yields_emap_err.
  eapply yields_mono; [exact (check_in_index_yields Following u v v u w1 Hw1)|..].
  - intros r w2 [-> Hb]. apply yields_ret. split; [|by eapply became_after].
    enough (links w1 v u = links w v u) as <- by done.
    destruct (decide ((v, u) = (u, v))) as [Heq|Hne].
    + injection Heq as Heq _. by subst v.
    + by apply (frame_links _ _ _ _ Hf).
  - intros e w2 Hb. by eapply became_after.
Qed.

(** What is left after the calls of a join: their results, in order. *)
Lemma results_yields {A} (r : result A Kv.RedisError) (k : A → EP unit) w Q R :
  (∀ a, r = Ok a → yields (k a) w Q R) → (∀ e, r = Err e → R (Ep.from_redis e) w) →
  yields (let? a := ret (map_err Ep.from_redis r) in k a) w Q R.
Proof. intros HQ HR. apply yields_ebind, yields_ret. destruct r; simpl; auto. Qed.

Lemma sync_put_yields u v w :
  wf w → u ≠ v →
  yields (sync_put u v) w (λ _, put_done u v w) (λ _, put_failed u v w).
Proof.
  intros Hw Huv. unfold sync_put. rewrite decide_False by done.
  apply yields_ebind, yields_emap_err.
  eapply yields_mono; [by apply put_to_graph_yields| |].
  2: { intros e w' (? & ? & Hl & Hn). split; [done|]. split; [done|]. unfold put_moves.
       destruct Hl as [-> | ->]; simpl; auto. }
  intros [] w1; simpl; intros (Hw1 & Hf1 & [Hl1 He] & Hn1).
  - apply (index_join_yields true u v); [done|]. intros r0 r1 w2 (Hw2 & Hf2 & (E & L0 & L1) & Hn2).
    assert (frame u v w w2) as Hf by by etrans. rewrite Hn1 in Hn2. rewrite Hl1 in *.
    assert (put_failed u v w w2) as Hbad.
    { split; [done|]. split; [done|]. unfold put_moves. rewrite E, He. auto. }
    apply results_yields; [|done]. intros [] ->. apply results_yields; [|done]. intros [] ->.
    apply yields_ret. split; [done|]. split; [done|]. split; [|by left].
    destruct (links w2 u v); unfold all_linked. simpl in *. f_equal; intuition congruence.
  - apply yields_ebind.
    assert (∀ w2, became u v w1 (λ l, l = links w1 u v) (λ n, n = notes w1 v) w2 →
              put_failed u v w w2) as Hbad.
    { intros w2 (Hw2 & Hf2 & Hl2 & Hn2). split; [done|]. split; [by etrans|].
      rewrite Hl2, Hl1, Hn2, Hn1. simpl. unfold put_moves. auto. }
    eapply yields_mono; [by apply (is_followee_yields u v w1)| |by intros e w2; apply Hbad].
    intros friends w2 [_ (Hw2 & Hf2 & Hl2 & Hn2)]. rewrite Hl1 in Hl2. rewrite Hn1 in Hn2.
    apply (index_join_yields true u v); [done|]. intros r0 r1 w3 (Hw3 & Hf3 & (E & L0 & L1) & Hn3).
    rewrite Hl2 in *. rewrite Hn2 in Hn3. simpl in *.
    apply yields_bind. intros r2 w4 Hnotify. unfold new_follow in Hnotify.
    pose proof (yields_run _ _ _ _ _ _ (notify_yields _ u v w3 Hw3) Hnotify) as Hb.
    assert (wf w4 ∧ frame u v w3 w4 ∧ links w4 u v = links w3 u v
            ∧ (notes w4 v = notes w v ∨ one_more (notes w v) (notes w4 v))) as (Hw4 & Hf4 & Hl4 & Hn4).
    { rewrite <- Hn3. destruct r2; destruct Hb as (? & ? & ? & ?); auto. }
    assert (frame u v w w4) as Hf by (etrans; [done|]; etrans; [done|]; by etrans).
    assert (put_failed u v w w4) as Hbad'.
    { split; [done|]. split; [done|]. unfold put_moves. rewrite Hl4, E. intuition. }
    apply results_yields; [|done]. intros [] ->. apply results_yields; [|done]. intros [] ->.
    apply results_yields; [|done]. intros [] ->.
    apply yields_ret. split; [done|]. split; [done|]. split; [|intuition].
    rewrite Hl4. destruct (links w3 u v); unfold all_linked. simpl in *. f_equal; intuition congruence.
  - apply yields_bind. intros r w2 Hr. pose proof (ingest_same u v w1 v Hw1) as Hb. rewrite Hr in Hb.
    simpl in Hb. destruct Hb as (Hw2 & Hf2 & Hl2 & Hn2).
    assert (put_failed u v w w2) as Hbad.
    { split; [done|]. split; [by etrans|]. rewrite Hl2, Hl1, Hn2, Hn1. unfold put_moves. auto. }
    apply yields_ebind, yields_ret. destruct (fail_on_blacklisted_hs r); [|done].
    apply yields_ebind, yields_ret. destruct (user_uri v); simpl; [|done]. by apply yields_ret.
Qed.

(** What an attempt of a delete may do to the pair, when it fails. *)
Definition del_moves (l : Links) (n : gmap string Z) (l' : Links) (n' : gmap string Z) : Prop :=
  (edge l' = true → edge l = true)
  ∧ (follower l' = true → follower l = true)
  ∧ (followed l' = true → followed l = true)
  ∧ (edge l' = edge l ∨ follower l' = false ∧ followed l' = false)
  ∧ (n' = n ∨ follower l = true ∧ follower l' = false ∧ one_more n n').

Definition del_done (u v : string) (w w' : FW) : Prop :=
  wf w' ∧ frame u v w w' ∧ links w' u v = unlinked
  ∧ (notes w' v = notes w v ∨ follower (links w u v) = true ∧ one_more (notes w v) (notes w' v)).

Definition del_failed (u v : string) (w w' : FW) : Prop :=
  wf w' ∧ frame u v w w' ∧ del_moves (links w u v) (notes w v) (links w' u v) (notes w' v).

Lemma del_failed_same u v w w' :
  became u v w (λ l, l = links w u v) (λ n, n = notes w v) w' → del_failed u v w w'.
Proof.
  intros (Hw & Hf & Hl & Hn). split; [done|]. split; [done|]. unfold del_moves. rewrite Hl, Hn.
  intuition.
Qed.

Lemma sync_del_yields u v w :
  wf w → yields (sync_del u v) w (λ _, del_done u v w) (λ _, del_failed u v w).
Proof.
  intros Hw. unfold sync_del. apply yields_ebind, yields_emap_err.
  eapply yields_mono; [by apply (friends_check_yields u v)| |by intros; apply del_failed_same].
  intros friends w1 [_ (Hw1 & Hf1 & Hl1 & Hn1)]. apply yields_ebind, yields_emap_err.
  eapply yields_mono; [exact (check_in_index_yields Followers u v u v w1 Hw1)|..].
  2: { intros e w2 (Hw2 & Hf2 & Hl2 & Hn2). apply del_failed_same.
       split; [done|]. split; [by etrans|]. by rewrite Hl2, Hl1, Hn2, Hn1. }
  intros still w2 [-> (Hw2 & Hf2 & Hl2 & Hn2)]. rewrite Hl1 in *. rewrite Hn1 in Hn2.
  apply (index_join_yields false u v); [done|]. intros r0 r1 w3 (Hw3 & Hf3 & (E & L0 & L1) & Hn3).
  rewrite Hl2, Hn2 in *. assert (frame u v w w3) as Hf by (etrans; [done|]; by etrans).
  assert (del_failed u v w w3) as Hbad.
  { split; [done|]. split; [done|]. unfold del_moves. rewrite E, Hn3. intuition congruence. }
  apply results_yields; [|done]. intros [] ->. apply results_yields; [|done]. intros [] ->.
  assert (follower (links w3 u v) = false ∧ followed (links w3 u v) = false) as [F G]
    by intuition congruence.
  assert (∀ w4, became u v w3 (λ l, l = links w3 u v ∨ l = set_edge false (links w3 u v))
      (λ n, n = notes w v ∨ follower (links w u v) = true ∧ one_more (notes w v) n) w4 →
    del_failed u v w w4) as Hbad'.
  { intros w4 (Hw4 & Hf4 & Hl4 & Hn4). split; [done|]. split; [by etrans|]. unfold del_moves.
    destruct Hl4 as [-> | ->]; simpl; rewrite ?E, F, G; intuition congruence. }
  apply yields_ebind.
  apply (yields_mono _ _ (λ _, became u v w3 (λ l, l = links w3 u v)
      (λ n, n = notes w v ∨ follower (links w u v) = true ∧ one_more (notes w v) n))
    _ (λ _, became u v w3 (λ l, l = links w3 u v)
      (λ n, n = notes w v ∨ follower (links w u v) = true ∧ one_more (notes w v) n))).
  - simpl. destruct (follower (links w u v)) eqn:Hstill.
    + apply yields_emap_err. unfold lost_follow. destruct (negb friends).
      { apply yields_ret. split; [done|]. by split; [|split; [|left]]. }
      eapply yields_mono; [by apply (notify_yields _ u v w3)|..]; rewrite Hn3.
      * intros _ w4 (? & ? & ? & ?). split; [done|]. split; [done|]. auto.
      * intros _ w4 (? & ? & ? & [?|?]); (split; [done|]; split; [done|]); auto.
    + apply yields_ret. split; [done|]. by split; [|split; [|left]].
  - intros _ w4 (Hw4 & Hf4 & Hl4 & Hn4). apply yields_ebind, yields_emap_err.
    eapply yields_mono; [by apply (del_from_graph_yields u v w4)|..]; rewrite Hl4.
    + intros _ w5 (Hw5 & Hf5 & Hl5 & Hn5). apply yields_ret. split; [done|].
      split; [etrans; [done|]; by etrans|]. rewrite Hl5, Hn5. split; [|done].
      unfold set_edge. by rewrite F, G.
    + intros _ w5 (Hw5 & Hf5 & Hl5 & Hn5). apply Hbad'. split; [done|]. split; [by etrans|].
      by rewrite Hn5.
  - intros e w4 (Hw4 & Hf4 & Hl4 & Hn4). apply Hbad'. split; [done|]. split; [done|]. auto.
Qed.

(** ** Histories of events *)

Inductive event :=
  | PutEvent (follower_id followee_id : string)
  | DelEvent (follower_id followee_id : string)
  | ReindexEvent (f : UserFollows) (user_id : string).

Definition is_ok {A E} (r : result A E) : bool := match r with Ok _ => true | Err _ => false end.

(** Whether it was answered [Ok], and the world after it. *)
Definition run_event (e : event) (w : FW) : bool * FW :=
  match e with
  | PutEvent u v => let '(r, w) := sync_put u v w in (is_ok r, w)
  | DelEvent u v => let '(r, w) := sync_del u v w in (is_ok r, w)
  | ReindexEvent f u => let '(r, w) := reindex f u w in (is_ok r, w)
  end.

(** What an event says of a pair. *)
Definition says (e : event) (u v : string) : option bool :=
  match e with
  | PutEvent a b => if decide ((a, b) = (u, v) ∧ a ≠ b) then Some true else None
  | DelEvent a b => if decide ((a, b) = (u, v)) then Some false else None
  | ReindexEvent _ _ => None
  end.

(** Runs the events; what the last one on the pair said, if it was answered [Ok]. *)
Fixpoint history (u v : string) (es : list event) (w : FW) (last : option bool) : FW * option bool :=
  match es with
  | [] => (w, last)
  | e :: es =>
      let '(ok, w) := run_event e w in
      history u v es w
        match says e u v with
        | Some b => if ok then Some b else None
        | None => last
        end
  end.

Definition target (b : bool) : Links := if b then all_linked else unlinked.

(** The indexes hold nothing the graph does not. *)
Definition mirrored (w : FW) : Prop := ∀ a b,
  follower (links w a b) = true ∨ followed (links w a b) = true → edge (links w a b) = true.

(** Links gained only from edges that are there. *)
Definition refreshed (w w' : FW) : Prop :=
  wf w' ∧ ∀ a b,
    edge (links w' a b) = edge (links w a b)
    ∧ (follower (links w a b) = true → follower (links w' a b) = true)
    ∧ (followed (links w a b) = true → followed (links w' a b) = true)
    ∧ (follower (links w' a b) = true → follower (links w a b) = true ∨ edge (links w a b) = true)
    ∧ (followed (links w' a b) = true → followed (links w a b) = true ∨ edge (links w a b) = true).

Lemma get_query_edges f user_id (w : FW) ids :
  get_query f user_id (graph (social w)) = Some ids →
  ∀ x, x ∈ ids → edge (match f with Followers => links w x user_id
                              | Following => links w user_id x end) = true.
Proof.
  destruct f; simpl; unfold get_user_followers, get_user_following; case_decide; try done;
    intros [= <-] x ([a b] & Hab%elem_of_elements%elem_of_dom & Heq)%list_elem_of_omap;
    case_decide; simplify_eq; by apply bool_decide_eq_true_2.
Qed.

#[local] Transparent links.

Lemma bulk_write_refreshed f ids user_id w w' :
  wf w → social w' = social w → db (redis w') = SADD (full_key (prefix f) user_id) ids (db (redis w)) →
  (∀ x, x ∈ ids → edge (match f with Followers => links w x user_id
                              | Following => links w user_id x end) = true) →
  refreshed w w'.
Proof.
  intros [Ht He] Hs Hd Hids. set (k0 := full_key (prefix f) user_id).
  assert (plain (db (redis w)) k0) as Hk0 by (subst k0; destruct f; apply Ht).
  assert (∀ k, smembers k (db (redis w')) = if decide (k = k0)
     then list_to_set ids ∪ smembers k0 (db (redis w)) else smembers k (db (redis w))) as Hm
    by (intros; rewrite Hd; by apply sadd_members).
  split.
  - split; [|unfold links; rewrite Hs; exact He].
    intros a. destruct (Ht a) as ([? ?] & [? ?] & ? & ?). unfold plain.
    rewrite Hd, !sadd_doc, !sadd_zset by done. rewrite <- Hd, Hm, decide_False by by destruct f.
    done.
  - intros a b. unfold links. cbn [edge follower followed]. rewrite Hs, !Hm, !bool_decide_eq_true.
    split; [done|]. destruct f.
    + rewrite (decide_False (P := Gk a = k0)) by done.
      case_decide as Hb; [|tauto]. apply full_key_inj in Hb. subst b.
      specialize (Hids a). unfold links in Hids. cbn [edge] in Hids. rewrite bool_decide_eq_true in Hids.
      set_solver.
    + rewrite (decide_False (P := Fk b = k0)) by done.
      case_decide as Hb; [|tauto]. apply full_key_inj in Hb. subst a.
      specialize (Hids b). unfold links in Hids. cbn [edge] in Hids. rewrite bool_decide_eq_true in Hids.
      set_solver.
Qed.

Lemma same_refreshed w w' :
  wf w → db (redis w') = db (redis w) → graph (social w') = graph (social w) → refreshed w w'.
Proof.
  intros Hw Hd Hg. assert (∀ a b, links w' a b = links w a b) as Hl
    by (intros; unfold links; by rewrite Hd, Hg).
  split; [by apply (same_stores_became "" "" w w')|]. intros a b. rewrite Hl. tauto.
Qed.

#[local] Opaque links.

Lemma reindex_yields f user_id w :
  wf w → yields (reindex f user_id) w (λ _, refreshed w) (λ _, refreshed w).
Proof.
  intros Hw. unfold reindex, get_from_graph.
  apply yields_ebind, yields_emap_err, on_graph_yields, run_query_reads.
  2: { intros e s' Hs'. by apply same_refreshed. }
  intros s' Hs'. destruct (get_query f user_id (graph (social w))) as [ids|] eqn:Hids.
  2: { apply yields_ret. by apply same_refreshed. }
  apply yields_emap_err, on_redis_yields.
  destruct ids as [|x ids]; [apply yields_ret; by apply same_refreshed|].
  set (w1 := {| outside := outside w; redis := redis w; social := s' |}).
  destruct (same_refreshed w w1 Hw eq_refl Hs') as [Hw1 _].
  assert (∀ a b, links w1 a b = links w a b) as Hl1
    by (intros a b; by destruct (same_stores_became a b w w1 Hw eq_refl Hs') as (_ & _ & ? & _)).
  assert (∀ s, db s = SADD (full_key (prefix f) user_id) (x :: ids) (db (redis w)) →
    refreshed w {| outside := outside w; redis := s; social := s' |}) as Hwrite.
  { intros s Hs.
    destruct (bulk_write_refreshed f (x :: ids) user_id w1
      {| outside := outside w; redis := s; social := s' |} Hw1 eq_refl Hs) as [Hw2 Hl2].
    { intros y Hy. pose proof (get_query_edges f user_id w _ Hids y Hy). destruct f; by rewrite Hl1. }
    split; [done|]. intros a b. rewrite <- !Hl1. apply Hl2. }
  apply put_yields; simpl; [done|by apply Hwrite|].
  intros e s [Hs|Hs]; [by apply same_refreshed|by apply Hwrite].
Qed.

(** What a step keeps, and what it settles. *)
Definition settles (e : event) (ok : bool) (w w' : FW) : Prop :=
  wf w' ∧ mirrored w' ∧ ∀ u v,
    match says e u v with
    | Some b => ok = true → links w' u v = target b
    | None => ∀ b, links w u v = target b → links w' u v = target b
    end.

Lemma frame_settles e ok u v w w' :
  wf w' → frame u v w w' → mirrored w →
  (follower (links w' u v) = true ∨ followed (links w' u v) = true → edge (links w' u v) = true) →
  (∀ a b, (a, b) ≠ (u, v) → says e a b = None) →
  (match says e u v with
   | Some b => ok = true → links w' u v = target b
   | None => links w' u v = links w u v
   end) →
  settles e ok w w'.
Proof.
  intros Hw' Hf Hm Hm' Hothers Hpair. split; [done|]. split.
  - intros a b. destruct (decide ((a, b) = (u, v))) as [[= -> ->]|Hab]; [done|].
    rewrite (frame_links _ _ _ _ Hf) by done. apply Hm.
  - intros a b. destruct (decide ((a, b) = (u, v))) as [[= -> ->]|Hab].
    + destruct (says e u v); [done|]. by rewrite Hpair.
    + rewrite Hothers by done. by rewrite (frame_links _ _ _ _ Hf).
Qed.

Lemma run_event_settles e w :
  wf w → mirrored w → let '(ok, w') := run_event e w in settles e ok w w'.
Proof.
  intros Hw Hm. destruct e as [u v|u v|f user_id]; simpl.
  - destruct (sync_put u v w) as [r w'] eqn:Hrun.
    destruct (decide (u = v)) as [->|Huv].
    { revert Hrun. unfold sync_put. rewrite decide_True by done. intros [= <- <-].
      split; [done|]. split; [done|]. intros a b. simpl. by rewrite decide_False by naive_solver. }
    pose proof (yields_run _ _ _ _ _ _ (sync_put_yields u v w Hw Huv) Hrun) as Hspec.
    assert (says (PutEvent u v) u v = Some true) as Hsays by (simpl; by rewrite decide_True).
    assert (∀ a b, (a, b) ≠ (u, v) → says (PutEvent u v) a b = None) as Hothers
      by (intros a b Hab; simpl; rewrite decide_False by naive_solver; done).
    destruct r as [[]|err]; destruct Hspec as (Hw' & Hf & Hspec).
    + destruct Hspec as [Hl _]. apply (frame_settles _ _ u v); try done; rewrite ?Hsays, Hl; done.
    + destruct Hspec as (HE & HF & HG & _). pose proof (Hm u v).
      apply (frame_settles _ _ u v); try done; [tauto|by rewrite Hsays].
  - destruct (sync_del u v w) as [r w'] eqn:Hrun.
    pose proof (yields_run _ _ _ _ _ _ (sync_del_yields u v w Hw) Hrun) as Hspec.
    assert (says (DelEvent u v) u v = Some false) as Hsays by (simpl; by rewrite decide_True).
    assert (∀ a b, (a, b) ≠ (u, v) → says (DelEvent u v) a b = None) as Hothers
      by (intros a b Hab; simpl; rewrite decide_False by naive_solver; done).
    destruct r as [[]|err]; destruct Hspec as (Hw' & Hf & Hspec).
    + destruct Hspec as [Hl _]. apply (frame_settles _ _ u v); try done; rewrite ?Hsays, Hl; naive_solver.
    + destruct Hspec as (HE & HF & HG & [Heq|[Hoff Hoff']] & _); pose proof (Hm u v);
        (apply (frame_settles _ _ u v); try done; [|by rewrite Hsays]);
        [rewrite Heq; tauto|rewrite Hoff, Hoff'; naive_solver].
  - destruct (reindex f user_id w) as [r w'] eqn:Hrun.
    pose proof (yields_run _ _ _ _ _ _ (reindex_yields f user_id w Hw) Hrun) as Hspec.
    assert (refreshed w w') as [Hw' Hl] by by destruct r. split; [done|]. split.
    + intros a b. destruct (Hl a b) as (-> & _ & _ & HF & HG). specialize (Hm a b). tauto.
    + intros a b t Ht. destruct (Hl a b) as (HE & HF1 & HG1 & HF & HG). rewrite Ht in *.
      destruct (links w' a b) as [e0 f0 g0], t; simpl in *; subst e0; unfold all_linked, unlinked.
      * by rewrite HF1, HG1.
      * f_equal; [destruct f0; [by destruct (HF eq_refl)|done]|destruct g0; [by destruct (HG eq_refl)|done]].
Qed.

Lemma history_settles u v es w last :
  wf w → mirrored w → (∀ b, last = Some b → links w u v = target b) →
  let '(w', last') := history u v es w last in
  wf w' ∧ mirrored w' ∧ ∀ b, last' = Some b → links w' u v = target b.
Proof.
  revert w last. induction es as [|e es IH]; intros w last Hw Hm Hlast; simpl; [done|].
  pose proof (run_event_settles e w Hw Hm) as Hstep.
  destruct (run_event e w) as [ok w1]. destruct Hstep as (Hw1 & Hm1 & Hpair).
  apply IH; [done|done|]. intros b. specialize (Hpair u v).
  destruct (says e u v); [destruct ok; [intros [= <-]; by apply Hpair|done]|].
  intros Hb. by apply Hpair, Hlast.
Qed.

(** C7: through any history of follows, unfollows and reindexings, with calls failing
    anywhere, before or after they took effect, the Followers and Following sets hold
    nothing the graph does not; and a pair whose last event was answered [Ok] is linked
    in the graph and in both sets when that event was a follow, and in none of the three
    when it was an unfollow. *)
Theorem answered_follows_agree u v es w :
  wf w → mirrored w →
  let '(w', last) := history u v es w None in
  mirrored w' ∧ ∀ b, last = Some b → links w' u v = if b then all_linked else unlinked.
Proof.
  intros Hw Hm. pose proof (history_settles u v es w None Hw Hm) as Hh.
  destruct (history u v es w None) as [w' last]. destruct Hh as (_ & ? & ?); done.
Qed.

(** C19: however often a follow or an unfollow is attempted, and whichever of its calls
    fail, the followee is notified of it at most once, and nobody else is. *)
Theorem follows_notify_at_most_once u v n w :
  wf w → u ≠ v →
  (let w' := attempts (sync_put u v) n w in
   (notes w' v = notes w v ∨ one_more (notes w v) (notes w' v)) ∧ ∀ x, x ≠ v → notes w' x = notes w x)
  ∧ (let w' := attempts (sync_del u v) n w in
     (notes w' v = notes w v ∨ one_more (notes w v) (notes w' v)) ∧ ∀ x, x ≠ v → notes w' x = notes w x).
Proof.
  intros Hw Huv. split.
  - enough (wf (attempts (sync_put u v) n w)
      ∧ (∀ x, x ≠ v → notes (attempts (sync_put u v) n w) x = notes w x)
      ∧ (notes (attempts (sync_put u v) n w) v = notes w v ∨ edge (links w u v) = false
           ∧ one_more (notes w v) (notes (attempts (sync_put u v) n w) v)))
      as (_ & HB & HC) by (split; [destruct HC as [?|[_ ?]]; auto|exact HB]).
    revert w Hw. induction n as [|n IH]; intros w Hw; simpl; [auto|].
    assert (put_failed u v w (snd (sync_put u v w))) as (Hw1 & Hf & HE & _ & _ & HN).
    { pose proof (sync_put_yields u v w Hw Huv) as Hspec. unfold yields in Hspec.
      destruct (sync_put u v w) as [[[]|e] w1]; simpl; [|done].
      destruct Hspec as (? & ? & Hl & HN). split; [done|]. split; [done|].
      unfold put_moves. rewrite Hl. simpl. naive_solver. }
    destruct (IH _ Hw1) as (Hw2 & Hothers & HN2). split; [done|].
    split; [intros x Hx; rewrite Hothers by done; by apply Hf|].
    destruct HN as [HN|(He & He1 & Hone)].
    + rewrite <- HN. destruct HN2 as [?|[He2 ?]]; [by left|right]. split; [|done].
      destruct (edge (links w u v)) eqn:He; [|done]. by rewrite HE in He2.
    + right. split; [done|]. destruct HN2 as [-> |[He2 _]]; [done|congruence].
  - enough (wf (attempts (sync_del u v) n w)
      ∧ (∀ x, x ≠ v → notes (attempts (sync_del u v) n w) x = notes w x)
      ∧ (notes (attempts (sync_del u v) n w) v = notes w v ∨ follower (links w u v) = true
           ∧ one_more (notes w v) (notes (attempts (sync_del u v) n w) v)))
      as (_ & HB & HC) by (split; [destruct HC as [?|[_ ?]]; auto|exact HB]).
    revert w Hw. induction n as [|n IH]; intros w Hw; simpl; [auto|].
    assert (del_failed u v w (snd (sync_del u v w))) as (Hw1 & Hf & _ & HF & _ & _ & HN).
    { pose proof (sync_del_yields u v w Hw) as Hspec. unfold yields in Hspec.
      destruct (sync_del u v w) as [[[]|e] w1]; simpl; [|done].
      destruct Hspec as (? & ? & Hl & HN). split; [done|]. split; [done|].
      unfold del_moves. rewrite Hl. simpl. naive_solver. }
    destruct (IH _ Hw1) as (Hw2 & Hothers & HN2). split; [done|].
    split; [intros x Hx; rewrite Hothers by done; by apply Hf|].
    destruct HN as [HN|(He & He1 & Hone)].
    + rewrite <- HN. destruct HN2 as [?|[He2 ?]]; [by left|right]. auto.
    + right. split; [done|]. destruct HN2 as [-> |[He2 _]]; [done|congruence].
Qed.
End Follows.

(** ** A small server and its users *)

Module Example_follow.
Import MemSets.

#[export] Instance server : RedisServer store := both (λ _ t, t).
#[export] Instance server_laws : RedisLaws store := base_laws (λ _ t, t).
#[export] Instance server_set_laws : SetLaws store := set_laws (λ _ t, t).

#[export] Instance clock : Clock nat := {
  DateTime := nat; utc_now := λ n, (n, S n); timestamp_millis := λ n, Z.of_nat n `mod` 2 ^ 53;
  timestamp_nanos_opt := λ n, None; instant_now := ret 0;
}.

Abbreviation world := (FollowWorld nat store).

Definition to_json (b : NotificationBody unit) : result string string :=
  Ok match b with
     | FollowBody u => "follow " +:+ u
     | NewFriend u => "new_friend " +:+ u
     | LostFriend u => "lost_friend " +:+ u
     | _ => "other"
     end.

Definition user_uri (u : string) : result string string := Ok ("pubky://" +:+ u).

(** Every unknown user is found and given a node. *)
Definition ingest (u : string) : prog world (result unit Model.ModelError) := λ w,
  (Ok tt, {| outside := outside w; redis := redis w;
             social := {| graph := {| users := {[u]} ∪ users (graph (social w));
                                      follows := follows (graph (social w)) |};
                          graph_trips := graph_trips (social w) |} |}).

Lemma times_exact (t : nat) : exact_score (timestamp_millis t).
Proof. unfold exact_score. simpl. pose proof (Z.mod_pos_bound (Z.of_nat t) (2 ^ 53)). lia. Qed.

Lemma ingest_adds_users : ingestion_adds_users ingest.
Proof.
  intros x w u v. simpl. split; [|done]. split; [|simpl; set_solver|done|done].
  intros [Ht He]. split; [done|]. intros a b Hedge. simpl in *. destruct (He a b Hedge). set_solver.
Qed.

Definition gone : Kv.DriverError := {|
  Kv.is_connection_refusal := false; Kv.is_timeout := false; Kv.is_io_error := true;
  Kv.text := "connection reset";
|}.

(** b follows a; the first SADD of the next follow will be refused. *)
Definition start : world := {|
  outside := 7%nat;
  redis := {| db := (MemRedis.empty, {["Followers:a" := {["b"]}; "Following:b" := {["a"]}]});
              conns := [];
              trips := [Served; Served; Served; Refused gone] |};
  social := {| graph := {| users := {["a"; "b"]}; follows := {[("b", "a") := 3]} |};
               graph_trips := [] |};
|}.

Lemma start_wf : wf start.
Proof.
  split.
  - intros u. unfold plain, Fk, Gk, Nk. simpl. unfold MemSets.members. simpl.
    repeat split; done.
  - intros u v Hedge. apply bool_decide_eq_true_1 in Hedge. simpl in *.
    destruct Hedge as [t [[= <- <-] _]%lookup_singleton_Some]. set_solver.
Qed.

Lemma start_mirrored : mirrored start.
Proof.
  intros a b. unfold links. cbn [edge follower followed]. rewrite !bool_decide_eq_true.
  unfold Fk, Gk, full_key. simpl. unfold MemSets.members. simpl.
  rewrite !lookup_insert, !lookup_singleton. intros [Hin|Hin];
    repeat case_decide; simplify_eq/=; try set_solver;
    apply elem_of_singleton in Hin as ->;
    match goal with
    | Hk : "Followers:a" = _ |- _ => by apply (full_key_inj "Followers" "a") in Hk as <-
    | Hk : "Following:b" = _ |- _ => by apply (full_key_inj "Following" "b") in Hk as <-
    end.
Qed.

Definition events : list event := [PutEvent "a" "b"; PutEvent "a" "b"; DelEvent "b" "a"; ReindexEvent Followers "b"].

Example events_answers :
  snd (history to_json user_uri ingest "a" "b" events start None) = Some true.
Proof. vm_compute. reflexivity. Qed.

Lemma answered_follows_agree_witness :
  (wf start ∧ mirrored start)
  ∧ links (fst (history to_json user_uri ingest "a" "b" events start None)) "a" "b" = all_linked.
Proof.
  split; [exact (conj start_wf start_mirrored)|].
  pose proof (answered_follows_agree to_json user_uri ingest times_exact ingest_adds_users
    "a" "b" events start start_wf start_mirrored) as Hagree.
  revert Hagree. pose proof events_answers as Hlast. revert Hlast.
  destruct (history _ _ _ _ _ _ _ _) as [w' last]. simpl. intros -> [_ Hagree].
  exact (Hagree true eq_refl).
Defined.

Lemma follows_notify_at_most_once_witness :
  (wf start ∧ "a" ≠ "b")
  ∧ (let w' := attempts (sync_put to_json user_uri ingest "a" "b") 3 start in
     notes w' "b" = notes start "b" ∨ one_more (notes start "b") (notes w' "b"))
  ∧ notes (attempts (sync_put to_json user_uri ingest "a" "b") 3 start) "b" ≠ ∅.
Proof.
  split; [split; [exact start_wf|done]|]. split.
  - exact (proj1 (proj1 (follows_notify_at_most_once to_json user_uri ingest times_exact
      ingest_adds_users "a" "b" 3 start start_wf ltac:(done)))).
  - intros Hnone. assert (size (notes (attempts (sync_put to_json user_uri ingest "a" "b") 3 start) "b") = 1%nat)
      as Hsize by (vm_compute; reflexivity). by rewrite Hnone in Hsize.
Defined.

End Example_follow.
