(* ===== verification/Media.v ===== *)
(** * Media variants: deriving resized copies of uploaded files on demand

    nexus-common/src/media/mod.rs (variants and kinds), nexus-webapi/src/media: the
    permits and gates (concurrency.rs), the subprocess runner (subprocess.rs), the
    processors (processors/) and the controller (mod.rs). Every call on the shared state
    (permits, queue counter, files, children) is a step of a thread; what a future owns
    and Rust drops with it is a ledger next to the world. *)

From S2P Require Import Prelude Threads Text.
Local Open Scope Z_scope.

(** ** Variants and kinds *)

Inductive FileVariant := Main | Large | Feed | Small.

#[export] Instance FileVariant_eq_dec : EqDecision FileVariant.
Proof. solve_decision. Defined.

Definition show_variant (v : FileVariant) : string :=
  match v with Main => "main" | Large => "large" | Feed => "feed" | Small => "small" end.

Definition variant_from_str (s : string) : result FileVariant string :=
  if decide (s = "main") then Ok Main
  else if decide (s = "large") then Ok Large
  else if decide (s = "feed") then Ok Feed
  else if decide (s = "small") then Ok Small
  else Err "Invalid file version".

Inductive MediaKind := Image | Video.

Definition slash : Ascii.ascii := Ascii.ascii_of_N 47.

Definition from_content_type (content_type : string) : option MediaKind :=
  '(top_level, _) ← split_once slash content_type;
  if eq_ignore_ascii_case top_level "image" then Some Image
  else if eq_ignore_ascii_case top_level "video" then Some Video
  else None.

Definition get_valid_variants_for_content_type (content_type : string) : list FileVariant :=
  match from_content_type content_type with
  | Some Image => [Main; Large; Feed; Small]
  | Some Video => [Main]
  | None => []
  end.

Definition validate_variant_for_content_type (content_type : string) (variant : FileVariant) : bool :=
  bool_decide (variant = Main)
  || bool_decide (variant ∈ get_valid_variants_for_content_type content_type).

Record FileUrls := {
  main : string;
  large : option string;
  feed : option string;
  small : option string;
}.

Record FileDetails := {
  id : string;
  uri : string;
  owner_id : string;
  indexed_at : Z;
  created_at : Z;
  src : string;
  name : string;
  size : Z;
  content_type : string;
  urls : FileUrls;
  metadata_of : option (gmap string string);
}.

(** [FileUrls::new] *)
Definition new_urls (owner_id file_id content_type : string) : FileUrls :=
  let variants := get_valid_variants_for_content_type content_type in
  let url variant := owner_id +:+ "/" +:+ file_id +:+ "/" +:+ show_variant variant in
  let derived variant := if decide (variant ∈ variants) then Some (url variant) else None in
  {| main := url Main; large := derived Large; feed := derived Feed; small := derived Small |}.

(** ** Errors *)

Inductive MediaProcessorError :=
  | CommandFailed (source : string)
  | NotImplemented
  | UnsupportedContentType (content_type : string)
  | UnsupportedFileVariant
  | InvalidFilePath (path : string)
  | AtCapacity
  | Timeout (command : string) (deadline : Z)
  | SkippedAfterTimeout (file : string).

Definition is_load_shed (e : MediaProcessorError) : bool :=
  match e with AtCapacity | Timeout _ _ | SkippedAfterTimeout _ => true | _ => false end.

(** ** The host: programs, paths and text *)

Record Command := { program : string; args : list string }.

Record Output := { success : bool; stdout : string; stderr : string }.

(** What a started program will do: how long it runs, what it answers (or how reading its
    pipes fails) and which files it leaves, ended by itself or killed at the deadline. *)
Record Child := {
  lasts : option Z;
  answer : result Output string;
  leaves : list (string * string);
  wreckage : list (string * string);
}.

Class Host := {
  (** Starting a command at a time. *)
  spawn_child : Command → Z → result Child string;
  utf8 : string → bool;
  to_lowercase : string → string;
  from_utf8_lossy : string → string;
  process_id : N;
}.

(** [Path::join] *)
Definition ends_with_slash (path : string) : bool :=
  match rev path with String c _ => bool_decide (c = slash) | EmptyString => false end.

Definition join (path s : string) : string :=
  match s with
  | String c _ =>
      if decide (c = slash) then s
      else if bool_decide (path = "") || ends_with_slash path then path +:+ s
      else path +:+ "/" +:+ s
  | EmptyString => if bool_decide (path = "") || ends_with_slash path then path else path +:+ "/"
  end.

Definition to_str `{Host} (path : string) : option string :=
  if utf8 path then Some path else None.

(** ** The world and the ledger *)

Record Stored := { content : string; modified : Z }.

(** What a spawned conversion captures. *)
Record Options := { width : string; format : string; content_type_of : string }.

Record Job := {
  kind : MediaKind;
  origin : string;
  temp : string;
  output : string;
  marker : string;
  file_id : string;
  options : Options;
}.

(** The semaphore's free permits, the gate's queue counter, the files under their paths, the
    wall clock in nanoseconds, whether each coming file operation fails, the conversions
    spawned and not yet started, and what awaiting a conversion's handle resolves to. *)
Record World := {
  available : Z;
  waiting : Z;
  disk : gmap string Stored;
  clock : Z;
  faults : list bool;
  spawned : list Job;
  joined : list (result (result string MediaProcessorError) string);
}.

(** What a future holds and gives back when it ends or is dropped: queue slots it has
    counted and guards, queue slots it has counted and not yet taken back, permits, and
    running children. *)
Record Owned := { guards : Z; surplus : Z; permits : Z; children : Z }.

Definition owns_nothing : Owned := {| guards := 0; surplus := 0; permits := 0; children := 0 |}.

Definition W : Type := World * Owned.

Definition set_available f (w : World) : World :=
  {| available := f (available w); waiting := waiting w; disk := disk w; clock := clock w;
     faults := faults w; spawned := spawned w; joined := joined w |}.
Definition set_waiting f (w : World) : World :=
  {| available := available w; waiting := f (waiting w); disk := disk w; clock := clock w;
     faults := faults w; spawned := spawned w; joined := joined w |}.
Definition set_disk f (w : World) : World :=
  {| available := available w; waiting := waiting w; disk := f (disk w); clock := clock w;
     faults := faults w; spawned := spawned w; joined := joined w |}.
Definition set_faults l (w : World) : World :=
  {| available := available w; waiting := waiting w; disk := disk w; clock := clock w;
     faults := l; spawned := spawned w; joined := joined w |}.

Definition hold (guards' surplus' permits' children' : Z) (o : Owned) : Owned :=
  {| guards := guards o + guards'; surplus := surplus o + surplus';
     permits := permits o + permits'; children := children o + children' |}.

(** Dropping what is owned: guards take their slots back, permits return, children are
    killed. *)
Definition dropped (o : Owned) (w : World) : World :=
  set_waiting (λ n, n - guards o) (set_available (λ n, n + permits o) w).

(** ** Files *)

Section Files.

Definition attempt {A : Set} (p : prog World (result A string)) : prog World (result A string) :=
  λ w, match faults w with
       | true :: rest => (Err "i/o error", set_faults rest w)
       | false :: rest => p (set_faults rest w)
       | [] => p w
       end.

Definition metadata (path : string) : prog World (result Stored string) :=
  attempt (λ w, (match disk w !! path with Some f => Ok f | None => Err "not found" end, w)).

Definition remove_file (path : string) : prog World (result unit string) :=
  attempt (λ w, match disk w !! path with
                | Some _ => (Ok tt, set_disk (delete path) w)
                | None => (Err "not found", w)
                end).

Definition write (path bytes : string) : prog World (result unit string) :=
  attempt (λ w, (Ok tt, set_disk <[path := {| content := bytes; modified := clock w |}]> w)).

Definition rename (from to : string) : prog World (result unit string) :=
  attempt (λ w, match disk w !! from with
                | Some f => (Ok tt, set_disk (λ d, <[to := f]> (delete from d)) w)
                | None => (Err "not found", w)
                end).

Definition create_dir_all (path : string) : prog World (result unit string) :=
  attempt (λ w, (Ok tt, w)).

(** The paths of a directory's entries. *)
Definition entry_of (dir path : string) : bool :=
  match strip_prefix (join dir "") path with
  | Some (String c name) => negb (contains slash (String c name))
  | _ => false
  end.

Definition read_dir (dir : string) : prog World (result (list string) string) :=
  attempt (λ w, (Ok (filter (λ p, entry_of dir p = true) (map_to_list (disk w)).*1 : list string), w)).

(** [ReadDir::next_entry]: whether the next entry can be read. *)
Definition next_entry : prog World (result unit string) := attempt (λ w, (Ok tt, w)).

Definition now : prog World Z := λ w, (clock w, w).
End Files.

(** [SystemTime::elapsed]: an error for a time yet to come. *)
Definition elapsed (since now : Z) : option Z :=
  if decide (since ≤ now) then Some (now - since) else None.

(** ** Permits and gates *)

Section Gates.
Local Open Scope thread_scope.

Definition MAX_WAITING_PER_PERMIT : Z := 4.

(** The pool's size; its free permits are the world's. *)
Record MediaPermits := { capacity : Z }.

(** The semaphore is never closed. *)
Definition try_acquire : prog W (result unit MediaProcessorError) :=
  λ '(w, o),
    if decide (0 < available w) then (Ok tt, (set_available Z.pred w, hold 0 0 1 0 o))
    else (Err AtCapacity, (w, o)).

Record QueuedGate := { pool : MediaPermits; max_waiting : Z }.

Definition with_limits (p : MediaPermits) (max : Z) : QueuedGate :=
  {| pool := p; max_waiting := max |}.

(** [QueuedGate::new]. The semaphore holds at most 2^61 permits: the product is in range. *)
Definition new_gate (p : MediaPermits) : QueuedGate :=
  with_limits p (Z.max (capacity p) 1 * MAX_WAITING_PER_PERMIT).

(** [fetch_add], whose slot is a guard's when there was room for one. Making the guard
    touches nothing shared. *)
Definition fetch_add (max : Z) : prog W Z :=
  λ '(w, o),
    (waiting w,
     (set_waiting Z.succ w,
      if decide (max ≤ waiting w) then hold 0 1 0 0 o else hold 1 0 0 0 o)).

Definition fetch_sub : prog W unit :=
  λ '(w, o), (tt, (set_waiting Z.pred w, hold 0 (-1) 0 0 o)).

(** [WaitingGuard::enter] *)
Definition enter (max : Z) : thread W (result unit MediaProcessorError) :=
  do* before := call (fetch_add max) in
  if decide (max ≤ before) then
    do* _ := call fetch_sub in
    Done (Err AtCapacity)
  else Done (Ok tt).

(** [WaitingGuard::drop] *)
Definition leave : prog W unit :=
  λ '(w, o), (tt, (set_waiting Z.pred w, hold (-1) 0 0 0 o)).

(** The moment the wait for a permit ends: with one that is free then, or because the
    timeout has elapsed. *)
Definition end_of_wait : prog W (result unit MediaProcessorError) := try_acquire.

(** [QueuedGate::acquire] *)
Definition queued_acquire (g : QueuedGate) : thread W (result unit MediaProcessorError) :=
  do* permit := call try_acquire in
  match permit with
  | Ok _ => Done (Ok tt)
  | Err _ =>
      if decide (capacity (pool g) = 0) then Done (Err AtCapacity)
      else
        do? _ := enter (max_waiting g) in
        do* result := call end_of_wait in
        do* _ := call leave in
        Done result
  end.

(** [FailFastGate::acquire] *)
Definition fail_fast_acquire : thread W (result unit MediaProcessorError) := call try_acquire.

(** A permit going out of scope. *)
Definition drop_permit : prog W unit :=
  λ '(w, o), (tt, (set_available Z.succ w, hold 0 0 (-1) 0 o)).
End Gates.

(** ** Subprocesses and processors *)

Section Processors.
Context `{Host}.
Local Open Scope thread_scope.

Record MediaSubprocess := { deadline : Z }.

(** Starting a child; its pipes are always captured, for [run] asks for them. *)
Definition start (command : Command) : prog W (result Child string) :=
  λ '(w, o), match spawn_child command (clock w) with
             | Ok c => (Ok c, (w, hold 0 0 0 1 o))
             | Err e => (Err e, (w, o))
             end.

Definition store_all (clock : Z) (files : list (string * string)) (d : gmap string Stored) :=
  foldr (λ '(path, bytes) d, <[path := {| content := bytes; modified := clock |}]> d) d files.

Definition in_time (s : MediaSubprocess) (c : Child) : bool :=
  match lasts c with Some l => bool_decide (l ≤ deadline s) | None => false end.

(** The end of the wait: the child has ended, or the deadline has passed and it is killed
    and reaped. *)
Definition finish (s : MediaSubprocess) (c : Child) : prog W (option (result Output string)) :=
  λ '(w, o),
    let left_behind := if in_time s c then leaves c else wreckage c in
    (if in_time s c then Some (answer c) else None,
     (set_disk (store_all (clock w) left_behind) w, hold 0 0 0 (-1) o)).

(** [MediaSubprocess::run] *)
Definition run (s : MediaSubprocess) (command : Command) :
    thread W (result Output MediaProcessorError) :=
  do* child := call (start command) in
  match child with
  | Err e => Done (Err (CommandFailed e))
  | Ok child =>
      do* outcome := call (finish s child) in
      Done (match outcome with
            | Some status => map_err CommandFailed status
            | None => Err (Timeout (program command) (deadline s))
            end)
  end.

Definition SMALL_IMAGE_WIDTH : string := "320".
Definition FEED_IMAGE_WIDTH : string := "720".
Definition LARGE_IMAGE_WIDTH : string := "1440".
Definition IMAGE_FORMAT : string := "webp".
Definition VIDEO_FORMAT : string := "mp4".

Definition image_variant_content_type : string := "image/" +:+ IMAGE_FORMAT.
Definition video_variant_content_type : string := "video/" +:+ VIDEO_FORMAT.

Definition resize_geometry (width : string) : string := width +:+ "x>".

Definition get_image_options (variant : FileVariant) : result Options MediaProcessorError :=
  let options width :=
    Ok {| width := width; format := IMAGE_FORMAT; content_type_of := image_variant_content_type |} in
  match variant with
  | Small => options SMALL_IMAGE_WIDTH
  | Feed => options FEED_IMAGE_WIDTH
  | Large => options LARGE_IMAGE_WIDTH
  | Main => Err UnsupportedFileVariant
  end.

Definition get_video_options (_ : FileVariant) : result Options MediaProcessorError :=
  Err NotImplemented.

Record SourceImage := { source_format : string; frames : Z }.

(** [str::parse::<u32>] *)
Definition parse_u32 (s : string) : option Z :=
  n ← parse_u64 s; if decide (n ≤ u32_max) then Some n else None.

(** [SourceImage::parse] *)
Definition parse (listing : string) : option SourceImage :=
  line ← head (lines listing);
  '(format, frames) ← split_once (Ascii.ascii_of_N 32) (trim line);
  n ← parse_u32 frames;
  Some {| source_format := to_lowercase format; frames := n |}.

Definition identify_command (file_path : string) : Command :=
  {| program := "identify"; args := ["-format"; "%m %n\n"; file_path] |}.

Definition identify (file_path : string) (s : MediaSubprocess) :
    thread W (result SourceImage MediaProcessorError) :=
  do? child_output := run s (identify_command file_path) in
  Done (if negb (success child_output) then
          Err (CommandFailed ("ImageMagick format extraction failed: "
                              +:+ from_utf8_lossy (stderr child_output)))
        else
          let listing := from_utf8_lossy (stdout child_output) in
          match parse listing with
          | Some origin => Ok origin
          | None => Err (CommandFailed ("ImageMagick format extraction returned unexpected output: "
                                        +:+ listing))
          end).

(** The conversion's command. *)
Definition convert_command (origin_path output_path : string) (source : SourceImage) (o : Options) :
    Command :=
  let output := if decide (source_format source = format o) then output_path
                else format o +:+ ":" +:+ output_path in
  {| program := "convert";
     args := [origin_path] ++ (if decide (1 < frames source) then ["-coalesce"] else [])
             ++ ["-resize"; resize_geometry (width o); "-auto-orient"; output] |}.

Definition process_image (origin_path output_path : string) (o : Options) (s : MediaSubprocess) :
    thread W (result string MediaProcessorError) :=
  do? origin := identify origin_path s in
  do? child_output := run s (convert_command origin_path output_path origin o) in
  Done (if success child_output then Ok (from_utf8_lossy (stdout child_output))
        else Err (CommandFailed ("ImageMagick command failed: "
                                 +:+ from_utf8_lossy (stderr child_output)))).

Definition ffmpeg_command (origin_path output_path : string) (o : Options) : Command :=
  {| program := "ffmpeg";
     args := ["-i"; origin_path; "-vf"; "scale=" +:+ width o +:+ ":-1"; "-c:a"; "copy"; "-f";
              format o; output_path] |}.

Definition process_video (origin_path output_path : string) (o : Options) (s : MediaSubprocess) :
    thread W (result string MediaProcessorError) :=
  do? child_output := run s (ffmpeg_command origin_path output_path o) in
  Done (if success child_output then Ok (from_utf8_lossy (stdout child_output))
        else Err (CommandFailed ("FFmpeg command failed: "
                                 +:+ from_utf8_lossy (stderr child_output)))).

(** The [VariantProcessor] of a kind. *)
Definition get_options_for_variant (k : MediaKind) : FileVariant → result Options MediaProcessorError :=
  match k with Image => get_image_options | Video => get_video_options end.

Definition process (k : MediaKind) :=
  match k with Image => process_image | Video => process_video end.
End Processors.

(** ** Deriving a variant *)

Section Deriving.
Context `{Host}.
Local Open Scope thread_scope.

Definition HOUR : Z := 60 * 60 * 10 ^ 9.
Definition TEMP_FILE_MAX_AGE : Z := HOUR.
Definition TEMP_DIR_NAME : string := ".tmp".
Definition TIMEDOUT_MARKER_TTL : Z := HOUR.
Definition TIMEDOUT_MARKER_NAME : string := ".timedout".

Definition on_files {A : Set} (p : prog World A) : thread W A := call (lift p).

Definition timed_out_recently (marker_path : string) : thread W bool :=
  do* m := on_files (metadata marker_path) in
  match m with
  | Err _ => Done false
  | Ok f =>
      do* t := on_files now in
      let recent := match elapsed (modified f) t with
                    | Some age => bool_decide (age < TIMEDOUT_MARKER_TTL)
                    | None => false
                    end in
      if recent then Done true
      else do* _ := on_files (remove_file marker_path) in Done false
  end.

Definition temp_variant_name (file : FileDetails) (variant : FileVariant) (clock : Z) : string :=
  let nanos := Z.to_N (Z.max 0 clock) in
  owner_id file +:+ "." +:+ id file +:+ "." +:+ show_variant variant +:+ "."
  +:+ pretty process_id +:+ "." +:+ pretty nanos.

(** The loop over the entries read. *)
Fixpoint sweep (entries : list string) : thread W unit :=
  match entries with
  | [] => Done tt
  | path :: entries =>
      do* entry := on_files next_entry in
      match entry with
      | Err _ => Done tt
      | Ok _ =>
          do* m := on_files (metadata path) in
          do* t := on_files now in
          let aged := match m with
                      | Ok f => match elapsed (modified f) t with
                                | Some age => bool_decide (TEMP_FILE_MAX_AGE < age)
                                | None => false
                                end
                      | Err _ => false
                      end in
          if aged then do* _ := on_files (remove_file path) in sweep entries
          else sweep entries
      end
  end.

Definition sweep_stale_temp_files (temp_dir : string) : thread W unit :=
  do* entries := on_files (read_dir temp_dir) in
  match entries with Err _ => Done tt | Ok entries => sweep entries end.

(** The spawned task. *)
Definition convert (s : MediaSubprocess) (j : Job) : thread W (result string MediaProcessorError) :=
  do* processed := process (kind j) (origin j) (temp j) (options j) s in
  match processed with
  | Err error =>
      do* _ := on_files (remove_file (temp j)) in
      do* _ := (match error with
                | Timeout _ _ => do* _ := on_files (write (marker j) "") in Done tt
                | _ => Done tt
                end) in
      Done (Err error)
  | Ok _ =>
      do* m := on_files (metadata (temp j)) in
      let written := match m with Ok f => len (content f) | Err _ => 0 end in
      if decide (written = 0) then
        do* _ := on_files (remove_file (temp j)) in
        Done (Err (CommandFailed ("conversion produced no output for file " +:+ file_id j)))
      else
        do* r := on_files (rename (temp j) (output j)) in
        Done (match r with
              | Ok _ => Ok (content_type_of (options j))
              | Err e => Err (CommandFailed e)
              end)
  end.

(** What a controller holds: its gate and its subprocess runner. *)
Record VariantController := {
  gate : thread W (result unit MediaProcessorError);
  subprocess : MediaSubprocess;
}.

(** [tokio::spawn] of a conversion, and what awaiting its handle gives. *)
Context (spawn : MediaSubprocess → Job → thread W (result (result string MediaProcessorError) string)).

(** [VariantProcessor::create_variant] *)
Definition create_variant (k : MediaKind) (file : FileDetails) (variant : FileVariant)
    (file_path : string) (c : VariantController) : thread W (result string MediaProcessorError) :=
  match get_options_for_variant k variant with
  | Err _ => Done (Ok (content_type file))
  | Ok options =>
      let origin_path := join (join file_path (owner_id file)) (id file) in
      let origin_file := join origin_path (show_variant Main) in
      match to_str origin_file with
      | None => Done (Err (InvalidFilePath "Original file"))
      | Some origin_file_path =>
      let output := join origin_path (show_variant variant) in
      match to_str output with
      | None => Done (Err (InvalidFilePath "Output file"))
      | Some output_path =>
      let marker_path := join origin_path TIMEDOUT_MARKER_NAME in
      do* skip := timed_out_recently marker_path in
      if skip then Done (Err (SkippedAfterTimeout (id file)))
      else
        let temp_dir := join file_path TEMP_DIR_NAME in
        do* made := on_files (create_dir_all temp_dir) in
        match made with
        | Err e => Done (Err (CommandFailed e))
        | Ok _ =>
        do* _ := sweep_stale_temp_files temp_dir in
        do* t := on_files now in
        let temp_file := join temp_dir (temp_variant_name file variant t) in
        match to_str temp_file with
        | None => Done (Err (InvalidFilePath "Temp file"))
        | Some temp_path =>
        do? _ := gate c in
        do* existing := on_files (metadata output) in
        match existing with
        | Ok _ => do* _ := call drop_permit in Done (Ok (content_type_of options))
        | Err _ =>
        do* skip := timed_out_recently marker_path in
        if skip then do* _ := call drop_permit in Done (Err (SkippedAfterTimeout (id file)))
        else
          do* processed := spawn (subprocess c)
            {| kind := k; origin := origin_file_path; temp := temp_path; output := output_path;
               marker := marker_path; file_id := id file; options := options |} in
          Done (match processed with
                | Ok processed => processed
                | Err join_error => Err (CommandFailed join_error)
                end)
        end end end end end
  end.

Definition get_content_type_for_variant (file : FileDetails) (variant : FileVariant) : string :=
  if decide (variant = Main) then content_type file
  else match from_content_type (content_type file) with
       | Some Image => image_variant_content_type
       | Some Video => video_variant_content_type
       | None => content_type file
       end.

Definition check_variant_exists (file : FileDetails) (variant : FileVariant) (file_path : string) :
    thread W bool :=
  if decide (variant = Main) then Done true
  else
    let path := join (join (join file_path (owner_id file)) (id file)) (show_variant variant) in
    do* m := on_files (metadata path) in
    Done (match m with Ok _ => true | Err _ => false end).

Definition create_file_variant (c : VariantController) (file : FileDetails) (variant : FileVariant)
    (file_path : string) : thread W (result string MediaProcessorError) :=
  match from_content_type (content_type file) with
  | Some k => create_variant k file variant file_path c
  | None => Done (Err (UnsupportedContentType (content_type file)))
  end.

Definition ensure_variant (c : VariantController) (file : FileDetails) (variant : FileVariant)
    (file_path : string) : thread W (result string MediaProcessorError) :=
  do* exists_ := check_variant_exists file variant file_path in
  if exists_ then Done (Ok (get_content_type_for_variant file variant))
  else create_file_variant c file variant file_path.
End Deriving.

(** ** The tables agree *)

Section Tables.
Context `{Host}.

(** The URL a file record advertises for a variant. *)
Definition url_of (urls : FileUrls) (v : FileVariant) : option string :=
  match v with
  | Main => Some (main urls) | Large => large urls | Feed => feed urls | Small => small urls
  end.

Lemma variant_from_str_show v : variant_from_str (show_variant v) = Ok v.
Proof. by destruct v. Qed.

(** C40: a derived variant is granted to a content type exactly when the type's processor has
    options for it, it is then served under the type that processor writes, and a file's
    record advertises a URL for it exactly when it is granted. *)
Theorem variant_tables_agree file v :
  v ≠ Main →
  (validate_variant_for_content_type (content_type file) v = true ↔
     ∃ k o, from_content_type (content_type file) = Some k
            ∧ get_options_for_variant k v = Ok o
            ∧ content_type_of o = get_content_type_for_variant file v)
  ∧ (is_Some (url_of (new_urls (owner_id file) (id file) (content_type file)) v) ↔
     validate_variant_for_content_type (content_type file) v = true).
Proof.
  intros Hv. unfold validate_variant_for_content_type, get_valid_variants_for_content_type, new_urls,
    get_content_type_for_variant, get_valid_variants_for_content_type.
  rewrite (decide_False (P := v = Main)) by done.
  destruct (from_content_type (content_type file)) as [[]|], v; try done; cbv zeta; split; split;
    first
      [ by intros _; do 2 eexists | intros _; vm_compute; by eauto
      | intros Hc; vm_compute in Hc; first [discriminate|by destruct Hc]
      | by intros (k & o & [= <-] & ? & ?) ].
Qed.
End Tables.

Definition a_file (owner content_type : string) : FileDetails :=
  {| id := "f"; uri := "pubky://" +:+ owner +:+ "/pub/pubky.app/files/f"; owner_id := owner;
     indexed_at := 0; created_at := 0; src := ""; name := "photo"; size := 1;
     content_type := content_type; urls := new_urls owner "f" content_type; metadata_of := None |}.

Lemma variant_tables_agree_witness :
  validate_variant_for_content_type (content_type (a_file "u" "Image/png")) Feed = true.
Proof. apply (variant_tables_agree (a_file "u" "Image/png") Feed ltac:(done)). by do 2 eexists.
Defined.

(** ** A host whose [convert] writes the file it is told to, at once, or hangs *)

Module Example_host.
Definition colon : Ascii.ascii := Ascii.ascii_of_N 58.

Definition written_path (arg : string) : string :=
  match split_once colon arg with
  | Some (before, after) => if contains slash before then arg else after
  | None => arg
  end.

Definition exits (stdout : string) (files : list (string * string)) : Child :=
  {| lasts := Some 1; answer := Ok {| success := true; stdout := stdout; stderr := "" |};
     leaves := files; wreckage := [] |}.

Definition hangs : Child :=
  {| lasts := None; answer := Err "killed"; leaves := []; wreckage := [] |}.

(** [identify] reports a still PNG; [convert] hangs on the file of user [bad]. *)
#[export] Instance host : Host := {|
  spawn_child c t :=
    if decide (program c = "identify") then Ok (exits ("PNG 1" +:+ String newline "") [])
    else if decide (head (args c) = Some "/files/bad/f/main") then Ok hangs
    else Ok (exits "" [(written_path (default "" (last (args c))), "pixels")]);
  utf8 _ := true;
  to_lowercase s := s;
  from_utf8_lossy s := s;
  process_id := 7;
|}.

Definition file (owner : string) : FileDetails := a_file owner "image/png".

Definition minute : MediaSubprocess := {| deadline := 60 * 10 ^ 9 |}.

Definition empty (permits : Z) : World :=
  {| available := permits; waiting := 0; disk := ∅; clock := 5; faults := []; spawned := []; joined := [] |}.
End Example_host.
