(* ===== verification/MediaPool.v ===== *)
(** * The server's media work: requests and conversions sharing one pool of permits

    nexus-webapi/src/routes/mod.rs ([AppState]: two controllers over one pool) and what
    tokio does with the futures of Media.v: runs them a call at a time, drops a request's
    at an await when it is cancelled, and lets a spawned conversion outlive it. *)

From S2P Require Import Prelude Threads Text Media.
Local Open Scope Z_scope.

Section Pool.
Context `{Host}.
Local Open Scope thread_scope.

(** [tokio::spawn]: the permit moves into the task. *)
Definition submit (j : Job) : prog W unit :=
  λ '(w, o),
    (tt, ({| available := available w; waiting := waiting w; disk := disk w; clock := clock w;
             faults := faults w; spawned := spawned w ++ [j]; joined := joined w |},
          hold 0 0 (-1) 0 o)).

Definition join_handle : prog W (result (result string MediaProcessorError) string) :=
  λ '(w, o),
    match joined w with
    | r :: rest =>
        (r, ({| available := available w; waiting := waiting w; disk := disk w; clock := clock w;
                faults := faults w; spawned := spawned w; joined := rest |}, o))
    | [] => (Err "cancelled", (w, o))
    end.

Definition spawn (s : MediaSubprocess) (j : Job) :
    thread W (result (result string MediaProcessorError) string) :=
  do* _ := call (submit j) in
  call join_handle.

Record AppState := {
  queued_variant_controller : VariantController;
  fail_fast_variant_controller : VariantController;
}.

(** [AppState::new] *)
Definition new_state (p : MediaPermits) (s : MediaSubprocess) : AppState :=
  {| queued_variant_controller := {| gate := queued_acquire (new_gate p); subprocess := s |};
     fail_fast_variant_controller := {| gate := fail_fast_acquire; subprocess := s |} |}.

(** *** The server *)

Record Task := {
  (** A spawned conversion: no request's future owns it. *)
  detached : bool;
  owned : Owned;
  code : thread W (result string MediaProcessorError);
}.

Record Server := { tasks : list Task; world : World }.

Definition owns_permit : Owned := hold 0 0 1 0 owns_nothing.

Definition unqueue (before after : list Job) (w : World) : World :=
  {| available := available w; waiting := waiting w; disk := disk w; clock := clock w;
     faults := faults w; spawned := before ++ after; joined := joined w |}.

Inductive server_step (p : MediaPermits) (s : MediaSubprocess) : Server → Server → Prop :=
  | step_request S c file variant file_path :
      c = queued_variant_controller (new_state p s) ∨ c = fail_fast_variant_controller (new_state p s) →
      server_step p s S
        {| tasks := tasks S ++ [{| detached := false; owned := owns_nothing;
                                   code := ensure_variant spawn c file variant file_path |}];
           world := world S |}
  (** A task's next call. *)
  | step_call S i d o (X : Set) (q : prog W X) k x w' o' :
      tasks S !! i = Some {| detached := d; owned := o; code := Act q k |} →
      q (world S, o) = (x, (w', o')) →
      server_step p s S
        {| tasks := <[i := {| detached := d; owned := o'; code := k x |}]> (tasks S); world := w' |}
  (** A task's end. *)
  | step_end S i d o r :
      tasks S !! i = Some {| detached := d; owned := o; code := Done r |} →
      server_step p s S {| tasks := delete i (tasks S); world := dropped o (world S) |}
  (** A request's future dropped, at an await: never between counting a slot and what
      becomes of it. *)
  | step_cancel S i o t :
      tasks S !! i = Some {| detached := false; owned := o; code := t |} → surplus o = 0 →
      server_step p s S {| tasks := delete i (tasks S); world := dropped o (world S) |}
  (** A spawned conversion starts. *)
  | step_start S before j after :
      spawned (world S) = before ++ j :: after →
      server_step p s S
        {| tasks := tasks S ++ [{| detached := true; owned := owns_permit; code := convert s j |}];
           world := unqueue before after (world S) |}
  (** Time, files and whatever else others touch. *)
  | step_outside S w' :
      available w' = available (world S) → waiting w' = waiting (world S) →
      spawned w' = spawned (world S) →
      server_step p s S {| tasks := tasks S; world := w' |}.

Definition fresh (p : MediaPermits) (S : Server) : Prop :=
  tasks S = [] ∧ available (world S) = capacity p ∧ waiting (world S) = 0 ∧ spawned (world S) = [].

(** *** What each task owns *)

Definition total (f : Owned → Z) (ts : list Task) : Z := foldr (λ t n, f (owned t) + n) 0 ts.

Lemma total_app f ts ts' : total f (ts ++ ts') = total f ts + total f ts'.
Proof. induction ts as [|t ts IH]; simpl; [done|]. rewrite IH. lia. Qed.

Lemma total_insert f ts i t t' :
  ts !! i = Some t → total f (<[i := t']> ts) = total f ts - f (owned t) + f (owned t').
Proof.
  revert i. induction ts as [|t0 ts IH]; intros [|i]; simpl; try done; intros Ht.
  - injection Ht as ->. lia.
  - rewrite (IH i) by done. lia.
Qed.

Lemma total_delete f ts i t : ts !! i = Some t → total f (delete i ts) = total f ts - f (owned t).
Proof.
  revert i. induction ts as [|t0 ts IH]; intros [|i]; simpl; try done; intros Ht.
  - injection Ht as ->. lia.
  - rewrite (IH i) by done. lia.
Qed.

Lemma total_le f g ts : (∀ t, t ∈ ts → f (owned t) ≤ g (owned t)) → total f ts ≤ total g ts.
Proof.
  induction ts as [|t ts IH]; intros Hle; simpl; [done|].
  pose proof (Hle t (list_elem_of_here t ts)).
  pose proof (IH (λ t' Ht', Hle t' (list_elem_of_further _ _ _ Ht'))). lia.
Qed.

Definition sound (o : Owned) : Prop :=
  0 ≤ guards o ∧ 0 ≤ surplus o ∧ 0 ≤ children o ≤ permits o.

Definition moves (max : Z) (w : World) (o : Owned) (w' : World) (o' : Owned) : Prop :=
  available w' + permits o' + Z.of_nat (length (spawned w'))
    = available w + permits o + Z.of_nat (length (spawned w))
  ∧ waiting w' - guards o' - surplus o' = waiting w - guards o - surplus o
  ∧ (guards o' ≤ guards o ∨ guards o' = guards o + 1 ∧ waiting w < max)
  ∧ (0 ≤ available w → 0 ≤ available w').

(** [fit max o t Q]: from owning [o], every call of [t] balances what it does to the shared
    counters against what its task owns, and [t] ends owning what [Q] says. *)
Fixpoint fit {A} (max : Z) (o : Owned) (t : thread W A) (Q : A → Owned → Prop) : Prop :=
  sound o ∧
  match t with
  | Done a => Q a o
  | Act p k => ∀ w, let '(x, (w', o')) := p (w, o) in moves max w o w' o' ∧ fit max o' (k x) Q
  end.

Section Fit.
Context (max : Z).

Lemma fit_done {A} o (a : A) (Q : A → Owned → Prop) : sound o → Q a o → fit max o (Done a) Q.
Proof. by split. Qed.

Lemma fit_tbind {A B} o (t : thread W A) (k : A → thread W B) R Q :
  fit max o t R → (∀ a o', sound o' → R a o' → fit max o' (k a) Q) → fit max o (tbind t k) Q.
Proof.
  revert o. induction t as [a|X p k' IH]; intros o [Ho Ht] Hk; simpl; [by apply Hk|].
  split; [done|]. intros w. specialize (Ht w). destruct (p (w, o)) as [x [w' o']].
  destruct Ht as [? Ht]. split; [done|]. by apply IH.
Qed.

Lemma fit_tebind {A B E} o (t : thread W (result A E)) (k : A → thread W (result B E)) R Q :
  fit max o t R → (∀ a o', sound o' → R (Ok a) o' → fit max o' (k a) Q) →
  (∀ e o', R (Err e) o' → Q (Err e) o') → fit max o (tebind t k) Q.
Proof.
  intros Ht Hk He. eapply fit_tbind; [done|]. intros [a|e] o' Ho Hr; [by apply Hk|].
  apply fit_done; auto.
Qed.

Lemma fit_mono {A} o (t : thread W A) (Q Q' : A → Owned → Prop) :
  fit max o t Q → (∀ a o', Q a o' → Q' a o') → fit max o t Q'.
Proof.
  revert o. induction t as [a|X p k IH]; intros o [Ho Ht] HQ; (split; [done|]); [by apply HQ|].
  intros w. specialize (Ht w). destruct (p (w, o)) as [x [w' o']]. destruct Ht. split; [done|]. by apply IH.
Qed.

Lemma fit_call {A : Set} o (p : prog W A) (Q : A → Owned → Prop) :
  sound o →
  (∀ w, let '(x, (w', o')) := p (w, o) in moves max w o w' o' ∧ sound o' ∧ Q x o') →
  fit max o (call p) Q.
Proof.
  intros Ho Hp. split; [done|]. intros w. specialize (Hp w). destruct (p (w, o)) as [x [w' o']].
  destruct Hp as (? & ? & ?). split; [done|]. by apply fit_done.
Qed.

(** What touches no counter. *)
Definition quiet {A} (p : prog World A) : Prop :=
  ∀ w, available (snd (p w)) = available w ∧ waiting (snd (p w)) = waiting w
       ∧ spawned (snd (p w)) = spawned w.

Lemma quiet_attempt {A : Set} (p : prog World (result A string)) : quiet p → quiet (attempt p).
Proof.
  intros Hp w. unfold attempt. destruct (faults w) as [|[] l]; [apply Hp|done|].
  apply (Hp (set_faults l w)).
Qed.

Lemma quiet_files :
  (∀ path, quiet (metadata path)) ∧ (∀ path, quiet (remove_file path))
  ∧ (∀ path bytes, quiet (write path bytes)) ∧ (∀ from to, quiet (rename from to))
  ∧ (∀ path, quiet (create_dir_all path)) ∧ (∀ dir, quiet (read_dir dir))
  ∧ quiet next_entry ∧ quiet now.
Proof.
  split_and!; intros; [apply quiet_attempt..|]; intros w; try case_match; by split_and!.
Qed.

Lemma fit_on_files {A : Set} o (p : prog World A) :
  quiet p → sound o → fit max o (on_files p) (λ _ o', o' = o).
Proof.
  intros Hp Ho. apply fit_call; [done|]. intros w. simpl. specialize (Hp w).
  destruct (p w) as [x w']. destruct Hp as (Ha & Hw & Hs). simpl in *.
  unfold moves. rewrite Ha, Hw, Hs. split_and!; auto; lia.
Qed.

(** A task that keeps what it owns until its end. *)
Definition retains {A} (t : thread W A) : Prop := ∀ o, sound o → fit max o t (λ _ o', o' = o).

Lemma retains_done {A} (a : A) : retains (Done a).
Proof. intros o Ho. by apply fit_done. Qed.

Lemma retains_tbind {A B} (t : thread W A) (k : A → thread W B) :
  retains t → (∀ a, retains (k a)) → retains (tbind t k).
Proof. intros Ht Hk o Ho. eapply fit_tbind; [by apply Ht|]. intros a o' ? ->. by apply Hk. Qed.

Lemma retains_files {A : Set} (p : prog World A) : quiet p → retains (on_files p).
Proof. intros Hp o. by apply fit_on_files. Qed.

Lemma fit_retains {A B} o (t : thread W A) (k : A → thread W B) Q :
  retains t → sound o → (∀ a, fit max o (k a) Q) → fit max o (tbind t k) Q.
Proof. intros Ht Ho Hk. eapply fit_tbind; [by apply Ht|]. intros a o' ? ->. apply Hk. Qed.

Ltac keep :=
  cbv zeta;
  try match goal with
  | |- retains (Done _) => apply retains_done
  | |- retains (on_files _) => apply retains_files, quiet_files
  | |- retains (tbind _ _) => apply retains_tbind; [keep|intros ?; keep]
  | |- retains (match ?x with _ => _ end) => destruct x; keep
  end.

Lemma timed_out_recently_retains path : retains (timed_out_recently path).
Proof. unfold timed_out_recently. keep. Qed.

Lemma sweep_retains entries : retains (sweep entries).
Proof. induction entries; cbn [sweep]; keep; done. Qed.

Lemma sweep_stale_temp_files_retains dir : retains (sweep_stale_temp_files dir).
Proof. unfold sweep_stale_temp_files. keep. apply sweep_retains. Qed.

(** *** The gates *)

Definition gained (o : Owned) {A} (r : result A MediaProcessorError) (o' : Owned) : Prop :=
  o' = match r with Ok _ => hold 0 0 1 0 o | Err _ => o end.

Lemma try_acquire_fit o : sound o → fit max o (call try_acquire) (gained o).
Proof.
  intros Ho. apply fit_call; [done|]. intros w. unfold try_acquire, sound, moves, gained in *.
  case_decide; simpl; split_and!; try done; lia.
Qed.

(** Owning nothing, a gate ends with one permit or nothing, its queue slot given back. *)
Definition gate_ok (g : thread W (result unit MediaProcessorError)) : Prop :=
  fit max owns_nothing g (gained owns_nothing).

Lemma fail_fast_ok : gate_ok fail_fast_acquire.
Proof. by apply try_acquire_fit. Qed.

Lemma queued_ok p : max_waiting (new_gate p) = max → gate_ok (queued_acquire (new_gate p)).
Proof.
  intros Hmax. unfold gate_ok, queued_acquire. rewrite Hmax.
  eapply fit_tbind; [by apply try_acquire_fit|]. intros [[]|e] o Ho ->; [by apply fit_done|].
  case_decide; [by apply fit_done|].
  apply (fit_tebind _ _ _ (λ r o', o' = match r with Ok _ => hold 1 0 0 0 owns_nothing | Err _ => owns_nothing end));
    [|intros [] o' _ ->|by intros e' o' ->].
  - unfold enter. apply (fit_tbind _ _ _ (λ before o',
      o' = if decide (max ≤ before) then hold 0 1 0 0 owns_nothing else hold 1 0 0 0 owns_nothing)).
    + apply fit_call; [done|]. intros w. unfold fetch_add, moves, sound. case_decide; simpl; split_and!; try done; lia.
    + intros before o' Ho' ->. case_decide; [|by apply fit_done].
      eapply fit_tbind with (R := λ _ o', o' = owns_nothing).
      * apply fit_call; [done|]. intros w. unfold fetch_sub, moves, sound. simpl. split_and!; try done; lia.
      * intros ? o' ? ->. by apply fit_done.
  - eapply fit_tbind; [by apply try_acquire_fit|]. intros result o' Ho' Hr.
    apply (fit_tbind _ _ _ (λ _ o', gained owns_nothing result o')).
    + apply fit_call; [done|]. intros w. unfold leave, moves, sound, gained in *. subst o'.
      destruct result; simpl in *; split_and!; try done; lia.
    + intros ? o2 ? ?. by apply fit_done.
Qed.

(** *** Conversions and requests *)

Lemma run_retains s command o : sound o → children o < permits o → fit max o (run s command) (λ _ o', o' = o).
Proof.
  intros Ho Hfree. unfold run.
  apply (fit_tbind _ _ _ (λ c o', o' = match c with Ok _ => hold 0 0 0 1 o | Err _ => o end)).
  - apply fit_call; [done|]. intros w. unfold start.
    destruct (spawn_child command (clock w)); unfold moves, sound in *; simpl; split_and!; try done; lia.
  - intros [c|e] o' Ho' ->; [|by apply fit_done].
    apply (fit_tbind _ _ _ (λ _ o', o' = o)); [|by intros ? ? ? ->; apply fit_done].
    apply fit_call; [done|]. intros w. unfold finish, moves, sound in *. simpl.
    split_and!; try done; try lia. unfold hold. destruct o; simpl. f_equal; lia.
Qed.

Lemma tebind_retains {A B E} o (t : thread W (result A E)) (k : A → thread W (result B E)) :
  fit max o t (λ _ o', o' = o) → (∀ a, fit max o (k a) (λ _ o', o' = o)) →
  fit max o (tebind t k) (λ _ o', o' = o).
Proof. intros Ht Hk. eapply fit_tebind; [done|by intros a o' _ ->|done]. Qed.

Lemma process_retains k origin output opts s o :
  sound o → children o < permits o → fit max o (process k origin output opts s) (λ _ o', o' = o).
Proof.
  intros Ho Hfree.
  destruct k; cbn [process]; unfold process_image, process_video, identify.
  - apply tebind_retains.
    + apply tebind_retains; [by apply run_retains|intros; by apply fit_done].
    + intros. apply tebind_retains; [by apply run_retains|intros; by apply fit_done].
  - apply tebind_retains; [by apply run_retains|intros; by apply fit_done].
Qed.

Lemma convert_retains s j : fit max owns_permit (convert s j) (λ _ o', o' = owns_permit).
Proof.
  unfold convert. eapply fit_tbind; [by apply process_retains|]. intros r o Ho ->.
  revert Ho. generalize owns_permit. intros o Ho.
  match goal with |- fit _ _ ?t _ => assert (retains t) as Hk; [keep|by apply Hk] end.
Qed.

Definition balanced (t : thread W (result string MediaProcessorError)) : Prop :=
  fit max owns_nothing t (λ _ o', o' = owns_nothing).

Lemma balanced_done r : balanced (Done r).
Proof. by apply fit_done. Qed.

Lemma balanced_drop (r : result string MediaProcessorError) :
  fit max owns_permit (tbind (call drop_permit) (λ _, Done r)) (λ _ o', o' = owns_nothing).
Proof.
  apply (fit_tbind _ _ _ (λ _ o', o' = owns_nothing)); [|by intros ? ? ? ->; apply balanced_done].
  apply fit_call; [done|]. intros w. unfold drop_permit, moves, sound. simpl. split_and!; try done; lia.
Qed.

Lemma spawn_fit s j : fit max owns_permit (spawn s j) (λ _ o', o' = owns_nothing).
Proof.
  apply (fit_tbind _ _ _ (λ _ o', o' = owns_nothing)).
  - apply fit_call; [done|]. intros w. unfold submit, moves, sound. simpl. rewrite length_app.
    simpl. split_and!; try done; lia.
  - intros ? o Ho ->. apply fit_call; [done|]. intros w. unfold join_handle, moves, sound.
    destruct (joined w); simpl; split_and!; try done; lia.
Qed.

Lemma ensure_variant_balanced c file variant file_path :
  gate_ok (gate c) → balanced (ensure_variant spawn c file variant file_path).
Proof.
  intros Hgate. unfold balanced, ensure_variant. apply fit_retains;
    [unfold check_variant_exists; keep|done|intros [|]; [apply balanced_done|]].
  unfold create_file_variant. destruct (from_content_type _) as [k|]; [|apply balanced_done].
  unfold create_variant. destruct (get_options_for_variant k variant) as [opts|]; [|apply balanced_done].
  cbv zeta. do 2 (case_match; [|apply balanced_done]).
  apply fit_retains; [apply timed_out_recently_retains|done|intros [|]; [apply balanced_done|]].
  apply fit_retains; [keep|done|intros [[]|]; [|apply balanced_done]].
  apply fit_retains; [apply sweep_stale_temp_files_retains|done|intros []].
  apply fit_retains; [keep|done|intros t]. case_match; [|apply balanced_done].
  eapply fit_tebind; [exact Hgate| |by intros e o' ->]. intros [] o Ho ->. fold owns_permit.
  apply fit_retains; [keep|done|intros [|]; [apply balanced_drop|]].
  apply fit_retains; [apply timed_out_recently_retains|done|intros [|]; [apply balanced_drop|]].
  eapply fit_tbind; [apply spawn_fit|]. intros r o' _ ->. apply balanced_done.
Qed.
End Fit.

(** *** The invariant *)

#[local] Opaque new_gate.

Definition accounted (p : MediaPermits) (S : Server) : Prop :=
  let max := max_waiting (new_gate p) in
  0 ≤ available (world S)
  ∧ available (world S) + total permits (tasks S) + Z.of_nat (length (spawned (world S))) = capacity p
  ∧ waiting (world S) = total guards (tasks S) + total surplus (tasks S)
  ∧ total guards (tasks S) ≤ max
  ∧ ∀ t, t ∈ tasks S → fit max (owned t) (code t) (λ _ o, surplus o = 0).

Lemma fit_sound {A} max o (t : thread W A) Q : fit max o t Q → sound o.
Proof. by destruct t as [|X q k]; intros [? _]. Qed.

Lemma total_nonneg f ts : (∀ t, t ∈ ts → 0 ≤ f (owned t)) → 0 ≤ total f ts.
Proof.
  intros Hf. induction ts as [|t ts IH]; simpl; [done|].
  pose proof (Hf t (list_elem_of_here t ts)).
  pose proof (IH (λ t' Ht', Hf t' (list_elem_of_further _ _ _ Ht'))). lia.
Qed.

Lemma in_insert {A} (l : list A) i x y : y ∈ <[i := x]> l → y = x ∨ y ∈ l.
Proof.
  revert i. induction l as [|z l IH]; intros [|i]; simpl; try by auto.
  - intros [->|?]%elem_of_cons; [by left|right; by right].
  - intros [->|Hy]%elem_of_cons; [right; by left|]. destruct (IH _ Hy); [by left|right; by right].
Qed.

Lemma in_delete {A} (l : list A) i y : y ∈ delete i l → y ∈ l.
Proof.
  revert i. induction l as [|z l IH]; intros [|i]; simpl; try by auto.
  - intros ?. by right.
  - intros [->|Hy]%elem_of_cons; [by left|right; eauto].
Qed.

Lemma accounted_drop p S i t :
  accounted p S → tasks S !! i = Some t → surplus (owned t) = 0 →
  accounted p {| tasks := delete i (tasks S); world := dropped (owned t) (world S) |}.
Proof.
  intros (Ha & Hcap & Hwait & Hmax & Hfit) Hi Hs.
  pose proof (fit_sound _ _ _ _ (Hfit t (list_elem_of_lookup_2 _ _ _ Hi))) as (? & ? & ?).
  unfold accounted. simpl. rewrite !(total_delete _ _ _ _ Hi), Hs. split_and!; try lia.
  intros t' Ht'. apply Hfit. by eapply in_delete.
Qed.

Lemma accounted_spawn p S t w' :
  accounted p S → fit (max_waiting (new_gate p)) (owned t) (code t) (λ _ o, surplus o = 0) →
  owned t = hold 0 0 (permits (owned t)) 0 owns_nothing →
  available w' = available (world S) → waiting w' = waiting (world S) →
  Z.of_nat (length (spawned w')) + permits (owned t) = Z.of_nat (length (spawned (world S))) →
  accounted p {| tasks := tasks S ++ [t]; world := w' |}.
Proof.
  intros (Ha & Hcap & Hwait & Hmax & Hfit) Ht Ho Hwa Hww Hws.
  unfold accounted. simpl. rewrite !total_app, Hwa, Hww. simpl. rewrite Ho in Hws |- *. simpl in *.
  split_and!; try lia. intros t' [Ht'|Ht']%elem_of_app; [by apply Hfit|].
  apply list_elem_of_singleton in Ht' as ->. done.
Qed.

Lemma accounted_step p s S S' : accounted p S → server_step p s S S' → accounted p S'.
Proof.
  intros Hacc Hstep. destruct Hstep as [S c file variant file_path Hc|S i d o X q k x w' o' Hi Hq
    |S i d o r Hi|S i o t Hi Hs|S before j after Hj|S w' Hwa Hww Hws].
  - apply accounted_spawn; simpl; auto; [|lia].
    eapply fit_mono; [apply ensure_variant_balanced|by intros ? o ->].
    destruct Hc as [-> | ->]; [by apply queued_ok|apply fail_fast_ok].
  - destruct Hacc as (Ha & Hcap & Hwait & Hmax & Hfit).
    assert (0 ≤ total surplus (tasks S)) as Hsur.
    { apply total_nonneg. intros t Ht. by destruct (fit_sound _ _ _ _ (Hfit t Ht)) as (? & ? & ?). }
    destruct (Hfit _ (list_elem_of_lookup_2 _ _ _ Hi)) as [Ho Hcall]. simpl in *.
    specialize (Hcall (world S)). rewrite Hq in Hcall.
    destruct Hcall as [(Hp & Hw & Hg & Ha') Hk]. unfold accounted. simpl.
    rewrite !(total_insert _ _ _ _ _ Hi). simpl. specialize (Ha' Ha). split_and!; try lia.
    intros t [->|Ht]%in_insert; [done|by apply Hfit].
  - apply (accounted_drop p S i _ Hacc Hi).
    destruct Hacc as (_ & _ & _ & _ & Hfit). by destruct (Hfit _ (list_elem_of_lookup_2 _ _ _ Hi)).
  - by apply (accounted_drop p S i _ Hacc Hi).
  - apply accounted_spawn; simpl; auto.
    + eapply fit_mono; [apply convert_retains|by intros ? o ->].
    + rewrite Hj, !length_app. simpl. lia.
  - destruct Hacc as (Ha & Hcap & Hwait & Hmax & Hfit). unfold accounted. simpl.
    rewrite Hwa, Hww, Hws. done.
Qed.

#[local] Transparent new_gate.

(** C2: however requests through both gates, cancellations and conversions interleave, no
    more subprocesses run than the pool has permits, no more requests are parked than the
    queue's cap, the queue counter is what requests hold of it, and once the work is over
    every permit is back and the counter is zero: a cancelled request leaks neither. *)
Theorem media_work_is_bounded p s S0 S :
  0 ≤ capacity p → fresh p S0 → rtc (server_step p s) S0 S →
  total children (tasks S) ≤ capacity p
  ∧ total guards (tasks S) ≤ max_waiting (new_gate p)
  ∧ waiting (world S) = total guards (tasks S) + total surplus (tasks S)
  ∧ (tasks S = [] → spawned (world S) = [] →
     available (world S) = capacity p ∧ waiting (world S) = 0).
Proof.
  intros Hpos (Ht & Ha & Hw & Hs) Hsteps.
  assert (accounted p S0) as H0.
  { unfold accounted. rewrite Ht, Ha, Hw, Hs. unfold new_gate, MAX_WAITING_PER_PERMIT. simpl.
    split_and!; try lia. by intros t ?%elem_of_nil. }
  assert (accounted p S) as (Havail & Hcap & Hwait & Hmax & Hfit).
  { clear Ht Ha Hw Hs. induction Hsteps as [|S1 S2 S3 Hstep _ IH]; [done|].
    apply IH. by eapply accounted_step. }
  assert (total children (tasks S) ≤ total permits (tasks S)) as Hchildren.
  { apply total_le. intros t Hin. by destruct (fit_sound _ _ _ _ (Hfit t Hin)) as (? & ? & ? & ?). }
  split_and!; try lia. intros Hnone Hempty. rewrite Hnone, Hempty in *. simpl in *. lia.
Qed.
End Pool.

(** ** A run: a conversion, a request parked behind it and cancelled *)

Module Example_pool.
Import Example_host.

Definition one : MediaPermits := {| capacity := 1 |}.

(** A task's next step. *)
Definition turn (i : nat) (S : Server) : Server :=
  match tasks S !! i with
  | Some {| detached := d; owned := o; code := Act q k |} =>
      let '(x, (w', o')) := q (world S, o) in
      {| tasks := <[i := {| detached := d; owned := o'; code := k x |}]> (tasks S); world := w' |}
  | Some {| owned := o; code := Done _ |} =>
      {| tasks := delete i (tasks S); world := dropped o (world S) |}
  | None => S
  end.

Lemma turn_steps p s S i : rtc (server_step p s) S (turn i S).
Proof.
  unfold turn. destruct (tasks S !! i) as [[d o [r|X q k]]|] eqn:Hi; [| |done].
  - eapply rtc_once, step_end, Hi.
  - destruct (q (world S, o)) as [x [w' o']] eqn:Hq. eapply rtc_once, step_call; [apply Hi|done].
Qed.

Definition turns (n i : nat) (S : Server) : Server := Nat.iter n (turn i) S.

Lemma turns_steps p s n i S : rtc (server_step p s) S (turns n i S).
Proof. induction n as [|n IH]; [done|]. etrans; [apply IH|]. apply turn_steps. Qed.

Definition request (owner : string) (S : Server) : Server :=
  {| tasks := tasks S ++ [{| detached := false; owned := owns_nothing;
       code := ensure_variant spawn (queued_variant_controller (new_state one minute)) (file owner) Small "/files" |}];
     world := world S |}.

Lemma request_steps owner S : rtc (server_step one minute) S (request owner S).
Proof. apply rtc_once, step_request. by left. Qed.

Definition idle : Server := {| tasks := []; world := empty 1 |}.

(** The first request holds the permit, the second is parked behind it. *)
Definition parked_behind : Server := turns 7 1 (request "v" (turns 6 0 (request "u" idle))).

Lemma media_work_is_bounded_witness :
  total permits (tasks parked_behind) = 1 ∧ total guards (tasks parked_behind) = 1
  ∧ waiting (world parked_behind) = 1 ∧ total children (tasks parked_behind) ≤ 1.
Proof.
  split_and!; [reflexivity..|].
  apply (media_work_is_bounded one minute idle parked_behind); [done|by split_and!|].
  unfold parked_behind. etrans; [apply request_steps|]. etrans; [apply turns_steps|].
  etrans; [apply request_steps|apply turns_steps].
Defined.
End Example_pool.
