(* ===== verification/MediaPublish.v ===== *)
(** * What a conversion publishes, among other requests and conversions

    The spawned task of processors/mod.rs ([Media.convert]) run while others touch the
    files, and what a killed conversion leaves for the requests after it. *)

From S2P Require Import Prelude Threads Text Media.
Local Open Scope Z_scope.

(** A path no converter takes for [format:path]: a slash comes before any colon. *)
Definition plain_path (path : string) : bool :=
  match split_once (Ascii.ascii_of_N 58) path with
  | Some (before, _) => contains slash before
  | None => true
  end.

(** ImageMagick's tools write the file their last argument names and nothing else. *)
Class Tools `{Host} := {
  identify_writes path t c :
    spawn_child (identify_command path) t = Ok c → leaves c = [] ∧ wreckage c = [];
  convert_writes origin out src o t c f :
    plain_path out = true → format o = IMAGE_FORMAT →
    spawn_child (convert_command origin out src o) t = Ok c → f ∈ leaves c ++ wreckage c → fst f = out;
}.

Section Publishing.
Context `{Tools}.
Local Open Scope thread_scope.

(** [bytes] is what a run of the converter on the job's file, ended by itself with success
    before the deadline, wrote as its output, and is not empty. *)
Definition whole (s : MediaSubprocess) (j : Job) (bytes : string) : Prop :=
  bytes ≠ "" ∧ ∃ out src t c answered t',
    spawn_child (convert_command (origin j) out src (options j)) t = Ok c ∧ in_time s c = true
    ∧ answer c = Ok answered ∧ success answered = true
    ∧ content <$> store_all t' (leaves c) ∅ !! out = Some bytes.

(** The variant's file, when there is one, holds whole output. *)
Definition published (s : MediaSubprocess) (j : Job) (w : World) : Prop :=
  ∀ f, disk w !! output j = Some f → whole s j (content f).

Lemma store_all_miss t files d path :
  (∀ f, f ∈ files → fst f ≠ path) → store_all t files d !! path = d !! path.
Proof.
  induction files as [|[p b] files IH]; intros Hf; simpl; [done|].
  rewrite lookup_insert_ne; [|apply (Hf (p, b)); by left]. apply IH. intros f Hin. apply Hf. by right.
Qed.

Lemma store_all_empty t files d path :
  d !! path = None → store_all t files d !! path = store_all t files ∅ !! path.
Proof.
  intros Hd. induction files as [|[p b] files IH]; simpl; [by rewrite Hd, lookup_empty|].
  destruct (decide (p = path)) as [->|Hne]; [by rewrite !lookup_insert_eq|].
  by rewrite !lookup_insert_ne.
Qed.

Section Among.
Context (s : MediaSubprocess) (j : Job) (other : World → World → Prop) (calm : bool).

(** What the job counts on: its temp file is its own, the others publish what they made,
    nobody deletes the file, and, when [calm], no file operation fails. *)
Hypothesis apart : temp j ≠ output j ∧ temp j ≠ marker j ∧ marker j ≠ output j.
Hypothesis image : kind j = Image ∧ format (options j) = IMAGE_FORMAT ∧ plain_path (temp j) = true.
Hypothesis own_temp : ∀ w w', other w w' → disk w' !! temp j = disk w !! temp j.
Hypothesis whole_outputs : ∀ w w', other w w' → published s j w → published s j w'.
Hypothesis kept_outputs :
  ∀ w w', other w w' → is_Some (disk w !! output j) → is_Some (disk w' !! output j).
Hypothesis no_faults : ∀ w w', other w w' → calm = true → faults w = [] → faults w' = [].

Definition others (x y : W) : Prop := other (fst x) (fst y) ∧ snd x = snd y.

Definition fine (x : W) : Prop := published s j (fst x) ∧ (calm = true → faults (fst x) = []).

(** [fine], with the temp file as [φ] says. *)
Definition held (φ : option Stored → Prop) (x : W) : Prop := fine x ∧ φ (disk (fst x) !! temp j).

Lemma held_stable φ : stable others (held φ).
Proof.
  intros x y [Hxy _] [[Hp Hf] Hφ]. split; [split; [eauto|]|by rewrite (own_temp _ _ Hxy)].
  intros Hc. eauto.
Qed.

Lemma held_fine φ x : held φ x → fine x.
Proof. by intros []. Qed.

#[local] Abbreviation HOARE := (hoare others fine).

Lemma held_done {A} (φ : option Stored → Prop) (a : A) Q :
  (∀ x, held φ x → Q a x) → HOARE (held φ) (Done a) Q.
Proof. intros HQ. apply hoare_done; [apply held_stable|]. intros x Hx. split; [apply Hx|by apply HQ]. Qed.

Lemma held_call {A : Set} φ (p : prog W A) (ψ : A → option Stored → Prop) :
  (∀ x, held φ x → held (ψ (fst (p x))) (snd (p x))) →
  HOARE (held φ) (call p) (λ a, held (ψ a)).
Proof.
  intros Hp. apply hoare_call; auto using held_stable; intros; by eapply held_fine.
Qed.

Lemma attempt_cases {A : Set} (p : prog World (result A string)) w :
  (∃ e l, attempt p w = (Err e, set_faults l w) ∧ faults w ≠ [])
  ∨ ∃ l, attempt p w = p (set_faults l w) ∧ (faults w = [] → l = []).
Proof.
  unfold attempt. destruct (faults w) as [|[] l] eqn:Hf; [right; exists []|left; by eexists _, l|right; by exists l].
  split; [|done]. f_equal. destruct w. simpl in *. by subst.
Qed.

(** A file operation that leaves the outputs whole, and may fail unless [calm]. *)
Lemma held_files {A : Set} φ (p : prog World (result A string)) (ψ : result A string → option Stored → Prop) :
  (∀ w, published s j w → φ (disk w !! temp j) →
        published s j (snd (p w)) ∧ faults (snd (p w)) = faults w
        ∧ ψ (fst (p w)) (disk (snd (p w)) !! temp j)) →
  (∀ e d, calm = false → φ d → ψ (Err e) d) →
  HOARE (held φ) (on_files (attempt p)) (λ r, held (ψ r)).
Proof.
  intros Hp Herr. apply held_call. intros [w o] [[Hpub Hf] Hφ]. simpl in *.
  destruct (attempt_cases p w) as [(e & l & -> & Hne)|(l & -> & Hl)].
  - split; [split; [done|]|].
    + intros Hc. by destruct Hne; apply Hf.
    + apply Herr; [|done]. destruct calm; [|done]. by destruct Hne; apply Hf.
  - destruct (Hp (set_faults l w) Hpub Hφ) as (Hp' & Hf' & Hψ).
    destruct (p (set_faults l w)) as [r w']. simpl in *. split; [split; [done|]|done].
    intros Hc. simpl. rewrite Hf'. auto.
Qed.

Definition gone (d : option Stored) : Prop := d = None.
Definition gone_if_calm (d : option Stored) : Prop := calm = true → d = None.
Definition produced (d : option Stored) : Prop :=
  ∀ f, d = Some f → content f ≠ "" → whole s j (content f).

Lemma remove_temp φ : HOARE (held φ) (on_files (remove_file (temp j))) (λ _, held gone_if_calm).
Proof.
  apply (held_files _ _ (λ _, gone_if_calm)); [|by intros e d Hc _ ?; rewrite Hc in *].
  intros w Hpub _. destruct (disk w !! temp j) as [f|] eqn:Hd; simpl; split_and!; try done.
  - intros f'. simpl. rewrite lookup_delete_ne by apply apart. apply Hpub.
  - intros _. apply lookup_delete_eq.
  - by intros _.
Qed.

Lemma write_marker φ : HOARE (held φ) (on_files (write (marker j) "")) (λ _, held φ).
Proof.
  apply (held_files _ _ (λ _, φ)); [|done].
  intros w Hpub Hφ. simpl. split_and!; [|done|by rewrite lookup_insert_ne by (symmetry; apply apart)].
  intros f. simpl. rewrite lookup_insert_ne by apply apart. apply Hpub.
Qed.

(** *** The converter *)

Lemma run_hoare command :
  (∀ t c f, spawn_child command t = Ok c → f ∈ leaves c ++ wreckage c → fst f = temp j) →
  HOARE (held gone) (run s command)
    (λ r, held (λ d, match r with
                     | Ok answered => ∃ t c t', spawn_child command t = Ok c ∧ in_time s c = true
                         ∧ answer c = Ok answered ∧ d = store_all t' (leaves c) ∅ !! temp j
                     | Err _ => True
                     end)).
Proof.
  intros Hout. unfold run. eapply hoare_tbind.
  - apply (held_call _ _ (λ r d, match r with
                                 | Ok c => (∃ t, spawn_child command t = Ok c) ∧ gone d
                                 | Err _ => True end)).
    intros [w o] [Hfine Hd]. simpl in *. destruct (spawn_child command (clock w)) eqn:Hc; simpl.
    + split; [done|]. split; [by eexists|done].
    + by split.
  - intros [c|e]; [|by apply held_done; intros x Hx].
    eapply hoare_tbind.
    + apply (held_call _ _ (λ r d, match r with
        | Some status => ∃ t t', spawn_child command t = Ok c ∧ in_time s c = true ∧ answer c = status
                                ∧ d = store_all t' (leaves c) ∅ !! temp j
        | None => True end)).
      intros [w o] [[Hpub Hf] [[t Ht] Hd]]. simpl in *.
      assert (∀ files d, (∀ f, f ∈ files → f ∈ leaves c ++ wreckage c) →
                store_all (clock w) files d !! output j = d !! output j) as Hmiss.
      { intros files d Hin. apply store_all_miss. intros f Hfi. rewrite (Hout t c f Ht (Hin f Hfi)).
        apply apart. }
      split; [split; [|done]|].
      * intros f. simpl. rewrite Hmiss; [apply Hpub|]. intros f'. destruct (in_time s c); set_solver.
      * destruct (in_time s c) eqn:Hin; [|done]. exists t, (clock w).
        split_and!; try done. by apply store_all_empty.
    + intros [[answered|e]|]; apply held_done; intros x [Hfine Hx]; split; try done.
      destruct Hx as (t & t' & ? & ? & ? & ?). by exists t, c, t'.
Qed.

Lemma process_hoare :
  HOARE (held gone) (process (kind j) (origin j) (temp j) (options j) s)
    (λ r, held (λ d, match r with Ok _ => produced d | Err _ => True end)).
Proof.
  destruct image as (Hkind & Hformat & Hplain). rewrite Hkind. cbn [process]. unfold process_image.
  apply (hoare_tbind _ _ _ _ _ (λ r : result SourceImage MediaProcessorError,
    held (λ d, match r with Ok _ => gone d | Err _ => True end))).
  - unfold identify. eapply hoare_tbind.
    { apply run_hoare. intros t c f Hc. destruct (identify_writes _ _ _ Hc) as [-> ->].
      by intros ?%elem_of_nil. }
    intros r. apply (hoare_mono _ _ (held (λ d, match r with Ok _ => gone d | Err _ => True end)) _ _
      (λ (r : result SourceImage MediaProcessorError),
         held (λ d, match r with Ok _ => gone d | Err _ => True end))); [|intros x [Hfine Hx]|by intros].
    + destruct r as [answered|e]; apply held_done; intros x [Hfine Hx]; (split; [done|]); [|done].
      by destruct (negb _); [|destruct (parse _)].
    + split; [done|]. destruct r as [answered|e]; [|done].
      destruct Hx as (t & c & t' & Hc & _ & _ & ->).
      destruct (identify_writes _ _ _ Hc) as [-> _]. apply lookup_empty.
  - intros [src|e]; [|by apply held_done]. eapply hoare_tbind; [apply run_hoare|].
    { intros t c f Hc. by apply (convert_writes (origin j) (temp j) src (options j) t c f). }
    intros [answered|e]; apply held_done; intros x [Hfine Hx]; (split; [done|]); [|done].
    destruct (success answered) eqn:Hok; [|done]. intros f Hf Hne.
    destruct Hx as (t & c & t' & ? & ? & ? & Hd). split; [done|].
    exists (temp j), src, t, c, answered, t'. split_and!; try done. by rewrite <- Hd, Hf.
Qed.

(** *** The whole task *)

Definition outcome (r : result string MediaProcessorError) (x : W) : Prop :=
  held gone_if_calm x
  ∧ ∀ t, r = Ok t → t = content_type_of (options j) ∧ is_Some (disk (fst x) !! output j).

Lemma outcome_stable r : stable others (outcome r).
Proof.
  intros x y Hxy [Hx Hr]. split; [by eapply held_stable|]. intros t Ht.
  destruct (Hr t Ht) as [? Hd]. split; [done|]. eapply kept_outputs; [apply Hxy|done].
Qed.

Lemma failed_outcome e x : held gone_if_calm x → outcome (Err e) x.
Proof. by split. Qed.

Lemma rename_hoare f :
  content f ≠ "" →
  HOARE (held (λ d, d = Some f ∧ whole s j (content f))) (on_files (rename (temp j) (output j)))
    (λ r x, outcome (match r with
                     | Ok _ => Ok (content_type_of (options j))
                     | Err e => Err (CommandFailed e)
                     end) x).
Proof.
  intros Hne. apply hoare_call; [apply held_stable|apply held_fine|..].
  - intros r. apply outcome_stable.
  - intros r x [Hx _]. by eapply held_fine.
  - intros [w o] [[Hpub Hf] [Hd Hwhole]]. simpl in *. unfold rename.
    match goal with |- context [attempt ?p w] => set (q := p); destruct (attempt_cases q w)
      as [(e & l & -> & Hl)|(l & -> & Hl)] end; simpl.
    + apply failed_outcome. split; [split; [done|]|]; intros Hc; by destruct Hl; apply Hf.
    + unfold q. simpl. rewrite Hd. simpl. split; [split; [split|]|].
      * intros f'. simpl. rewrite lookup_insert_eq. by intros [= <-].
      * intros Hc. simpl. auto.
      * intros _. simpl. rewrite lookup_insert_ne by (symmetry; apply apart). apply lookup_delete_eq.
      * intros t [= <-]. split; [done|]. simpl. rewrite lookup_insert_eq. by eexists.
Qed.

Lemma convert_hoare : HOARE (held gone) (convert s j) outcome.
Proof.
  unfold convert. eapply hoare_tbind; [apply process_hoare|]. intros [t|e].
  - eapply hoare_tbind.
    { apply (held_files produced _ (λ r d, match r with
        | Ok f => d = Some f ∧ (content f ≠ "" → whole s j (content f)) | Err _ => True end)); [|done].
      intros w Hpub Hprod. simpl. split_and!; [done..|]. destruct (disk w !! temp j) as [f|]; [|done].
      split; [done|]. by apply Hprod. }
    assert (∀ φ e, HOARE (held φ) (tbind (on_files (remove_file (temp j))) (λ _, Done (Err e))) outcome)
      as Hfail.
    { intros φ e. eapply hoare_tbind; [apply remove_temp|]. intros r. by apply held_done. }
    intros [f|e]; cbv zeta; case_decide as Hlen; try apply Hfail; [|done].
    assert (content f ≠ "") as Hne by by intros Hc; rewrite Hc in Hlen.
    eapply hoare_tbind.
    { eapply hoare_mono; [by apply (rename_hoare f)| |by intros r x]. intros x [Hx [Hd Hw]].
      split; [done|]. auto. }
    intros r. apply hoare_done; [apply outcome_stable|]. intros x Hx. split; [apply Hx|].
    by destruct r.
  - eapply hoare_tbind; [apply remove_temp|]. intros r.
    apply (hoare_tbind _ _ _ _ _ (λ _ : unit, held gone_if_calm)); [|by intros; apply held_done].
    destruct e; try by apply held_done.
    eapply hoare_tbind; [apply write_marker|]. by intros; apply held_done.
Qed.
End Among.

(** *** The paths of a job *)

(** A name that is one path segment, as user and file ids are. *)
Definition segment (s : string) : Prop := s ≠ "" ∧ contains slash s = false.

(** What [create_variant] makes a job of. *)
Definition job_for (file : FileDetails) (v : FileVariant) (file_path : string) (t : Z) (j : Job) : Prop :=
  let origin_path := join (join file_path (owner_id file)) (id file) in
  get_options_for_variant (kind j) v = Ok (options j)
  ∧ temp j = join (join file_path TEMP_DIR_NAME) (temp_variant_name file v t)
  ∧ output j = join origin_path (show_variant v)
  ∧ marker j = join origin_path TIMEDOUT_MARKER_NAME.

Definition root (path : string) : string :=
  if bool_decide (path = "") || ends_with_slash path then path else path +:+ "/".

Lemma join_segment path s : segment s → join path s = root path +:+ s.
Proof.
  intros [Hne Hs]. unfold join, root. destruct s as [|c s]; [done|]. simpl in Hs.
  apply orb_false_iff in Hs as [Hc _]. apply bool_decide_eq_false in Hc. rewrite decide_False by done.
  destruct (bool_decide (path = "") || _); [done|]. by rewrite str_assoc.
Qed.

Lemma root_join path s : segment s → root (root path +:+ s) = root path +:+ s +:+ "/".
Proof.
  intros [Hne Hs]. unfold root at 1. rewrite bool_decide_false.
  2:{ intros Heq. apply (f_equal String.length) in Heq. rewrite str_length_app in Heq.
      destruct s; [done|]. simpl in Heq. lia. }
  assert (ends_with_slash (root path +:+ s) = false) as ->; [|by rewrite <- str_assoc].
  unfold ends_with_slash. rewrite rev_app. destruct (rev s) as [|c t] eqn:Hr.
  - by destruct Hne; rewrite <- (rev_involutive s), Hr.
  - rewrite <- contains_rev, Hr in Hs. simpl in Hs. apply orb_false_iff in Hs as [Hc _].
    by rewrite str_cons.
Qed.

Lemma join_two path a b :
  segment a → segment b → join (join path a) b = root path +:+ (a +:+ "/" +:+ b).
Proof. intros. by rewrite !join_segment, root_join, !str_assoc by done. Qed.

Lemma join_three path a b c :
  segment a → segment b → segment c →
  join (join (join path a) b) c = root path +:+ (a +:+ "/" +:+ b +:+ "/" +:+ c).
Proof.
  intros. by rewrite join_two, join_segment, root_join, !str_assoc by done.
Qed.

Lemma show_variant_segment v : segment (show_variant v).
Proof. by destruct v. Qed.

Lemma pretty_segment (n : N) : contains slash (pretty n) = false.
Proof.
  assert (∀ s, contains slash s = false → contains slash (pretty_N_go n s) = false) as Hgo.
  { induction (N.lt_wf_0 n) as [n _ IH]. intros s Hs. destruct (decide (0 < n)%N) as [Hn|Hn].
    - rewrite pretty_N_go_step by done. apply IH; [by apply N.div_lt|]. simpl. rewrite Hs, orb_false_r.
      apply bool_decide_eq_false. unfold pretty_N_char. by repeat case_match.
    - assert (n = 0)%N as -> by lia. by rewrite pretty_N_go_0. }
  unfold pretty, pretty_N. case_decide; [done|]. by apply Hgo.
Qed.

Lemma temp_variant_name_segment file v t :
  segment (owner_id file) → segment (id file) → segment (temp_variant_name file v t).
Proof.
  intros [Hne Ho] [_ Hi]. unfold temp_variant_name. split.
  - intros Heq. apply (f_equal String.length) in Heq. rewrite str_length_app in Heq.
    destruct (owner_id file); [done|]. simpl in Heq. lia.
  - rewrite !contains_app, Ho, Hi, !pretty_segment. by destruct v.
Qed.

Lemma paths_apart file v file_path t j :
  segment (owner_id file) → segment (id file) → owner_id file ≠ TEMP_DIR_NAME →
  job_for file v file_path t j →
  temp j ≠ output j ∧ temp j ≠ marker j ∧ marker j ≠ output j.
Proof.
  intros Ho Hi Htmp (Hv & -> & -> & ->).
  assert (v ≠ Main) as Hv' by by intros ->; destruct (kind j). clear Hv.
  pose proof (temp_variant_name_segment file v t Ho Hi) as Hname.
  assert (segment TEMP_DIR_NAME) as Hdir by done.
  assert (segment TIMEDOUT_MARKER_NAME) as Hmarker by done.
  pose proof (show_variant_segment v) as Hsv.
  rewrite join_two, !join_three by done.
  assert (∀ x y, TEMP_DIR_NAME +:+ "/" +:+ x ≠ owner_id file +:+ "/" +:+ y) as Hdiff.
  { intros x y Heq. destruct Htmp. symmetry.
    by apply (app_inj_before slash _ _ x y (proj2 Hdir) (proj2 Ho)). }
  split_and!; intros Heq; apply str_app_inj_l in Heq; try by eapply Hdiff.
  do 2 (apply str_app_inj_l, (str_app_inj_l "/") in Heq). by destruct v.
Qed.


(** *** After a killed conversion *)

(** Run alone, [t] leaves the clock and the file system's health as they are. *)
Definition steady {A} (t : thread W A) : Prop :=
  ∀ x, clock (fst (snd (run_thread t x))) = clock (fst x)
       ∧ faults (fst (snd (run_thread t x))) = faults (fst x).

Lemma steady_done {A} (a : A) : steady (Done a).
Proof. by intros x. Qed.

Lemma steady_tebind {A B E} (t : thread W (result A E)) (k : A → thread W (result B E)) :
  steady t → (∀ a, steady (k a)) → steady (tebind t k).
Proof.
  intros Ht Hk x. unfold tebind. rewrite run_thread_tbind. specialize (Ht x).
  destruct (run_thread t x) as [[a|e] y]; simpl in *; [|done].
  destruct Ht as [Hc Hf]. rewrite <- Hc, <- Hf. apply Hk.
Qed.

Lemma run_steady s command : steady (run s command).
Proof.
  intros [w o]. unfold run. cbn. destruct (spawn_child command (clock w)) as [c|e]; cbn; [|done].
  by destruct (in_time s c); [destruct (answer c)|].
Qed.

Lemma process_steady k origin out opts s : steady (process k origin out opts s).
Proof.
  destruct k; cbn [process]; unfold process_image, process_video, identify.
  - apply steady_tebind; [|intros src]; (apply steady_tebind; [apply run_steady|intros ?; apply steady_done]).
  - apply steady_tebind; [apply run_steady|intros ?; apply steady_done].
Qed.

(** A conversion killed at the deadline leaves its marker, dated. *)
Lemma killed_leaves_marker s j w o command d x :
  temp j ≠ marker j → faults w = [] →
  run_thread (convert s j) (w, o) = (Err (Timeout command d), x) →
  disk (fst x) !! marker j = Some {| content := ""; modified := clock w |}.
Proof.
  intros Hne Hf. unfold convert. rewrite run_thread_tbind.
  destruct (process_steady (kind j) (origin j) (temp j) (options j) s (w, o)) as [Hc Hf'].
  destruct (run_thread (process _ _ _ _ _) (w, o)) as [[t|e] [w1 o1]]; simpl in Hc, Hf'.
  - unfold on_files, call, metadata, attempt. cbn. rewrite Hf', Hf. cbn. case_decide; cbn.
    + unfold remove_file, attempt. cbn. rewrite Hf', Hf. destruct (disk w1 !! temp j); cbn; by intros [= ].
    + unfold rename, attempt. cbn. rewrite Hf', Hf. destruct (disk w1 !! temp j); cbn; by intros [= ].
  - rewrite run_thread_tbind. unfold on_files, call, remove_file, attempt. cbn. rewrite Hf', Hf. cbn.
    destruct (disk w1 !! temp j) as [f|]; cbn; rewrite run_thread_tbind; destruct e; try done; cbn;
      unfold write, attempt; cbn; rewrite Hf', Hf; cbn; intros [= _ _ <-]; cbn; rewrite Hc; apply lookup_insert_eq.
Qed.

(** a file whose conversion was killed is shed for an hour: a request for any variant not
    yet on disk is refused at the marker, touching neither gate nor converter; when the hour
    has passed the marker is cleared and conversions are tried again. *)
Theorem killed_file_is_shed spawn s j c file v v' k opts file_path t command d w w1 w2 o o1 o2 :
  segment (owner_id file) → segment (id file) → owner_id file ≠ TEMP_DIR_NAME →
  job_for file v file_path t j →
  v' ≠ Main → from_content_type (content_type file) = Some k → get_options_for_variant k v' = Ok opts →
  let origin_path := join (join file_path (owner_id file)) (id file) in
  utf8 (join origin_path (show_variant Main)) = true → utf8 (join origin_path (show_variant v')) = true →
  faults w = [] → run_thread (convert s j) (w, o) = (Err (Timeout command d), (w1, o1)) →
  faults w2 = [] → disk w2 !! marker j = disk w1 !! marker j →
  disk w2 !! join origin_path (show_variant v') = None → clock w ≤ clock w2 →
  if decide (clock w2 < clock w + TIMEDOUT_MARKER_TTL)
  then run_thread (ensure_variant spawn c file v' file_path) (w2, o2)
       = (Err (SkippedAfterTimeout (id file)), (w2, o2))
  else run_thread (timed_out_recently (marker j)) (w2, o2)
       = (false, (set_disk (delete (marker j)) w2, o2)).
Proof.
  intros Ho Hi Htmp Hpaths Hv' Hk Hopts origin_path Hmain Hout Hf Hrun Hf2 Hmarker Habsent Hle.
  destruct (paths_apart file v file_path t j Ho Hi Htmp Hpaths) as (_ & Hne & _).
  pose proof (killed_leaves_marker s j w o command d _ Hne Hf Hrun) as Hleft. simpl in Hleft.
  rewrite Hleft in Hmarker. destruct Hpaths as (_ & _ & _ & Hm). fold origin_path in Hm.
  assert (∀ {A : Set} (p : prog World (result A string)), attempt p w2 = p w2) as Hfine
    by (intros; unfold attempt; by rewrite Hf2).
  assert (run_thread (timed_out_recently (marker j)) (w2, o2)
          = if decide (clock w2 < clock w + TIMEDOUT_MARKER_TTL) then (true, (w2, o2))
            else (false, (set_disk (delete (marker j)) w2, o2))) as Hskip.
  { unfold timed_out_recently, on_files, call, metadata. cbn. rewrite Hfine. cbn. rewrite Hmarker. cbn.
    unfold elapsed. rewrite decide_True by done.
    destruct (decide (clock w2 < clock w + TIMEDOUT_MARKER_TTL)); case_bool_decide; try lia; [done|].
    unfold remove_file. cbn. rewrite Hfine. by rewrite Hmarker. }
  case_decide as Htime; [|done].
  unfold ensure_variant, check_variant_exists. rewrite decide_False by done. fold origin_path.
  rewrite run_thread_tbind, run_thread_tbind. unfold on_files at 1, call at 1, metadata. cbn [run_thread lift].
  rewrite Hfine, Habsent. cbn. unfold create_file_variant. rewrite Hk. unfold create_variant. rewrite Hopts.
  cbv zeta. fold origin_path. unfold to_str. rewrite Hmain, Hout, <- Hm, run_thread_tbind, Hskip. done.
Qed.
End Publishing.

(** ** One conversion that ends well, one that hangs *)

Module Example_publish.
Import Example_host.

Definition owns_permit : Owned := hold 0 0 1 0 owns_nothing.

#[local] Instance tools : Tools.
Proof.
  split.
  - intros path t c. simpl. by intros [= <-].
  - intros origin out src o t c f Hplain Hformat. simpl.
    case_decide; intros [= <-]; simpl; [by intros ?%elem_of_nil|].
    intros ->%list_elem_of_singleton. simpl.
    set (out' := if decide (source_format src = format o) then out else format o +:+ ":" +:+ out).
    assert (∀ l x y z, last (l ++ [x; y; z; out'] : list string) = Some out') as Hlast.
    { intros l x y z. change [x; y; z; out'] with ([x; y; z] ++ [out']). by rewrite app_assoc, last_snoc. }
    rewrite app_comm_cons, Hlast. simpl. unfold out', written_path, plain_path, colon in *. rewrite Hformat.
    destruct (decide (source_format src = IMAGE_FORMAT)).
    + destruct (split_once _ out) as [[before after]|]; [|done]. by rewrite Hplain.
    + by simpl.
Qed.

Definition job (owner : string) : Job :=
  {| kind := Image; origin := "/files/" +:+ owner +:+ "/f/main";
     temp := join (join "/files" TEMP_DIR_NAME) (temp_variant_name (file owner) Small 3);
     output := "/files/" +:+ owner +:+ "/f/small"; marker := "/files/" +:+ owner +:+ "/f/.timedout";
     file_id := "f";
     options := {| width := SMALL_IMAGE_WIDTH; format := IMAGE_FORMAT;
                   content_type_of := image_variant_content_type |} |}.

(** Others touch other things than files. *)
Definition elsewhere (x y : World) : Prop := disk y = disk x ∧ faults y = faults x.


(** What a request for [bad]'s feed image finds a minute after the small one hung. *)
Definition after_hang : World :=
  let w := fst (snd (run_thread (convert minute (job "bad")) (empty 1, owns_permit))) in
  {| available := available w; waiting := waiting w; disk := disk w; clock := clock w + 60 * 10 ^ 9;
     faults := faults w; spawned := spawned w; joined := joined w |}.

Definition never (s : MediaSubprocess) (j : Job) :
    thread W (result (result string MediaProcessorError) string) := Done (Err "not started").
Definition controller : VariantController := {| gate := fail_fast_acquire; subprocess := minute |}.

Lemma killed_file_is_shed_witness :
  run_thread (ensure_variant never controller (file "bad") Feed "/files") (after_hang, owns_nothing)
  = (Err (SkippedAfterTimeout "f"), (after_hang, owns_nothing)).
Proof.
  pose (x := run_thread (convert minute (job "bad")) (empty 1, owns_permit)).
  pose proof (killed_file_is_shed never minute (job "bad") controller (file "bad") Small Feed Image
    {| width := FEED_IMAGE_WIDTH; format := IMAGE_FORMAT; content_type_of := image_variant_content_type |}
    "/files" 3 "convert" (60 * 10 ^ 9) (empty 1) (fst (snd x)) after_hang owns_permit (snd (snd x))
    owns_nothing) as Hshed.
  cbv zeta in Hshed. rewrite decide_True in Hshed by by vm_compute.
  apply Hshed; clear Hshed; first [by vm_compute|by split].
Defined.
End Example_publish.
