(* ===== verification/Files.v ===== *)
(** * Uploaded files

    nexus-watcher/src/events/handlers/file.rs over models/file: a File node in the graph and
    a directory on disk whose [main] is the blob the file points at. The API publishes
    derived variants into the same directory while files come and go. Any call may fail
    before, after or in the middle of taking effect. *)

From S2P Require Import Prelude Histories Errors Events World Graphs Media.
Local Open Scope nexus_scope.
#[local] Remove Hints finite.finite_countable : typeclass_instances.

(** pubky-app-specs and the SDK: file events, the addresses in them, and the objects found there. *)
Class FileSpecs := {
  Target : Type;
  Resource : Type;
  parse_source : string → result (string * Target) string;
  parse_resource : string → result Resource Pubky.SdkError;
  sdk_server_error : Z → bool;
}.

(** What a blob's bytes are read as: a blob, or another kind of object. *)
Inductive AppObject := Blob (bytes : string) | OtherObject.

Class FileHost `{FileSpecs} (W : Type) := {
  get_blob : Resource → prog W (result string Hs.HsError);
  from_resource : Target → string → result AppObject string;
}.

Record PubkyAppFile := {
  app_name : string;
  app_created_at : Z;
  app_src : string;
  app_content_type : string;
  app_size : Z;
}.

(** A File node: what [create_file] sets, by owner and id. *)
Record FileNode := {
  node_uri : string;
  node_indexed_at : Z;
  node_created_at : Z;
  node_size : Z;
  node_src : string;
  node_name : string;
  node_content_type : string;
}.

Abbreviation FileKey := (string * string)%type.
Abbreviation FileGraph := (gmap FileKey FileNode).
(** The directories of the files, and what is in them by name. *)
Abbreviation Disk := (gmap FileKey (gmap string string)).

(** What the coming calls on the disk meet: how much of a failing one took effect. *)
Inductive DiskTrip :=
  | DiskServed
  | DiskFailed (done : nat) (gone : gset string) (text : string).

Record FileWorld (W : Type) := {
  outside : W;
  disk : Disk;
  disk_trips : list DiskTrip;
  files : GraphSession FileGraph;
}.
Arguments outside {W} _.
Arguments disk {W} _.
Arguments disk_trips {W} _.
Arguments files {W} _.

Section Files.
Context {W : Type} {CL : Clock W} `{FH : FileHost W}.
Abbreviation FW := (FileWorld W).
Abbreviation EP A := (prog FW (result A Ep.EventProcessorError)).

Definition on_outside {A} (m : prog W A) : prog FW A := λ w,
  let '(a, o) := m (outside w) in
  (a, {| outside := o; disk := disk w; disk_trips := disk_trips w; files := files w |}).

Definition on_graph {A} (m : prog (GraphSession FileGraph) A) : prog FW A := λ w,
  let '(a, g) := m (files w) in
  (a, {| outside := outside w; disk := disk w; disk_trips := disk_trips w; files := g |}).

(** A disk operation: [ok] when it is served, [cut] of a failing one. *)
Definition on_disk {A} (ok : prog Disk A) (cut : nat → gset string → Disk → Disk) : prog FW (result A string) := λ w,
  match disk_trips w with
  | [] =>
      let '(a, d) := ok (disk w) in
      (Ok a, {| outside := outside w; disk := d; disk_trips := []; files := files w |})
  | DiskServed :: ts =>
      let '(a, d) := ok (disk w) in
      (Ok a, {| outside := outside w; disk := d; disk_trips := ts; files := files w |})
  | DiskFailed done gone text :: ts =>
      (Err text, {| outside := outside w; disk := cut done gone (disk w); disk_trips := ts; files := files w |})
  end.

Definition now : prog FW Z := λ w,
  let '(t, o) := utc_now (outside w) in
  (timestamp_millis t, {| outside := o; disk := disk w; disk_trips := disk_trips w; files := files w |}).

(** ** Details *)

(** [FileDetails::from_homeserver]; the size is cast to [i64]. *)
Definition from_homeserver (file : PubkyAppFile) (uri_ user_id file_id : string) (indexed_at_ : Z) : FileDetails :=
  {| urls := new_urls user_id file_id (app_content_type file);
     name := app_name file; src := app_src file; content_type := app_content_type file;
     uri := uri_; id := file_id; created_at := app_created_at file; indexed_at := indexed_at_;
     owner_id := user_id; size := wrap_i64 (app_size file); metadata_of := None |}.

Definition create_file (d : FileDetails) (g : FileGraph) : FileGraph :=
  <[(owner_id d, id d) := {| node_uri := uri d; node_indexed_at := indexed_at d;
      node_created_at := created_at d; node_size := size d; node_src := src d;
      node_name := name d; node_content_type := content_type d |}]> g.

(** A node as it is read back: the URLs are rebuilt. *)
Definition from_stored (k : FileKey) (n : FileNode) : FileDetails :=
  {| urls := new_urls (fst k) (snd k) (node_content_type n);
     id := snd k; uri := node_uri n; owner_id := fst k; indexed_at := node_indexed_at n;
     created_at := node_created_at n; src := node_src n; name := node_name n; size := node_size n;
     content_type := node_content_type n; metadata_of := None |}.

(** [get_by_ids], a row for each pair. *)
Definition get_by_ids (ids : list FileKey) : prog FW (result (list (option FileDetails)) Model.ModelError) :=
  match ids with
  | [] => ret (Ok [])
  | _ =>
      emap_err Model.GraphOperationFailed
        (on_graph (run_query (reads (λ g : FileGraph, (λ k, from_stored k <$> g !! k) <$> ids))))
  end.

Definition put_to_graph (d : FileDetails) : prog FW (result unit Graph.GraphError) :=
  on_graph (run_query (writes (create_file d))).

(** [FileDetails::delete] *)
Definition delete_details (d : FileDetails) : prog FW (result unit Model.ModelError) :=
  emap_err Model.GraphOperationFailed
    (on_graph (run_query (writes (λ g : FileGraph, delete (owner_id d, id d) g)))).

(** ** The disk *)

Definition create_dir_all (k : FileKey) : prog FW (result unit string) :=
  let create (d : Disk) := <[k := default ∅ (d !! k)]> d in
  on_disk (λ d, (tt, create d)) (λ done _ d, if decide (done = 0)%nat then d else create d).

(** Truncates the file, then writes it from the start. *)
Definition write (k : FileKey) (entry bytes : string) : prog FW (result unit string) :=
  on_disk (λ d, (tt, alter (insert entry bytes) k d))
    (λ done _ d, match done with
                 | O => d
                 | S n => alter (insert entry (prefix_bytes (Z.of_nat n) bytes)) k d
                 end).

(** Whether there was a directory; a failing call may have removed some of it. *)
Definition remove_dir_all (k : FileKey) : prog FW (result bool string) :=
  on_disk (λ d, (bool_decide (is_Some (d !! k)), delete k d))
    (λ _ gone d, alter (filter (λ e : string * string, fst e ∉ gone)) k d).

(** ** The handlers *)

(** The ingestor's check, on its own stores. *)
Context (ensure_hs_not_blacklisted : string → prog W (result (option string) Model.ModelError)).

Definition file_source (src_ : string) : result (string * Target) Ep.EventProcessorError :=
  match parse_source src_ with
  | Ok p => Ok p
  | Err e => Err (Ep.UnsupportedTarget ("Invalid file source URI " +:+ src_ +:+ ": " +:+ e))
  end.

Definition write_main_variant (k : FileKey) (blob : string) : prog FW (result unit string) :=
  let? _ := create_dir_all k in
  write k (show_variant Main) blob.

Definition ingest (user_id file_id : string) (pubkyapp_file : PubkyAppFile) : EP unit :=
  let file_src := app_src pubkyapp_file in
  let? parsed_source_uri := ret (file_source file_src) in
  let? _ := emap_err Ep.from_model (on_outside (ensure_hs_not_blacklisted (fst parsed_source_uri))) in
  let? source := ret (map_err (Ep.from_pubky sdk_server_error) (parse_resource file_src)) in
  let? blob := emap_err Ep.from_hs (on_outside (get_blob source)) in
  let? object := ret (map_err Ep.Generic (from_resource (snd parsed_source_uri) blob)) in
  match object with
  | Blob bytes => emap_err Ep.StaticSaveFailed (write_main_variant (user_id, file_id) bytes)
  | OtherObject =>
      ret (Err (Ep.InvalidEventLine ("The file has a source uri that is not a blob path: " +:+ file_src)))
  end.

Definition sync_put (file : PubkyAppFile) (uri_ user_id file_id : string) : EP unit :=
  let? _ := ingest user_id file_id file in
  let* indexed_at_ := now in
  emap_err Ep.from_graph (put_to_graph (from_homeserver file uri_ user_id file_id indexed_at_)).

Definition del (user_id file_id : string) : EP unit :=
  let? result := emap_err Ep.from_model (get_by_ids [(user_id, file_id)]) in
  match result with
  | [] => ret (Ok tt)
  | file :: _ =>
      let? _ := match file with
                | Some file_details => emap_err Ep.from_model (delete_details file_details)
                | None => ret (Ok tt)
                end in
      let? _ := emap_err Ep.from_io (remove_dir_all (user_id, file_id)) in
      ret (Ok tt)
  end.
End Files.

(** A slot for each key asked for: what the graph has under it. *)
Lemma file_slots {W} ids (w : FileWorld W) l w' :
  get_by_ids ids w = (Ok l, w') → l = (λ k, from_stored k <$> graph (files w) !! k) <$> ids.
Proof.
  destruct ids as [|k ids]; [by intros [= <- _]|].
  unfold get_by_ids, emap_err, on_graph, run_query, reads. destruct (graph_trips (files w)) as [|[|e|e] ts]; by intros [= <- _].
Qed.

(** ** What a program does to the disk and the graph *)

Section Does.
Context {W : Type} {CL : Clock W} `{FH : FileHost W}.
Abbreviation FW := (FileWorld W).
Abbreviation State := (Disk * FileGraph)%type.

Definition view (w : FW) : State := (disk w, graph (files w)).

Abbreviation does := (does_on view).

Lemma files_now {B E} (k : Z → prog FW (result B E)) (s : State) Q R : (∀ t, does (k t) s Q R) → does (bind now k) s Q R.
Proof.
  intros Hk w Hw. apply yields_bind. intros t w' Hnow. apply Hk.
  unfold now in Hnow. destruct (utc_now _). by injection Hnow as _ <-.
Qed.

(** Its answer is one the outside gave. *)
Lemma files_outside {A E} (m : prog W (result A E)) (s : State) (Q : A → State → Prop) (R : State → Prop) :
  (∀ o a o', m o = (Ok a, o') → Q a s) → R s → does (on_outside m) s Q R.
Proof.
  intros HQ HR w <-. unfold yields, on_outside. destruct (m (outside w)) as [[a|e] o'] eqn:Hm; simpl; [by eapply HQ|done].
Qed.

Lemma files_graph {A} (q : prog FileGraph A) (s : State) (Q : A → State → Prop) (R : State → Prop) :
  Q (fst (q (snd s))) (fst s, snd (q (snd s))) → R s → R (fst s, snd (q (snd s))) →
  does (on_graph (run_query q)) s Q R.
Proof.
  intros HQ HR HR' w <-. unfold yields, on_graph, run_query, view. simpl in *.
  destruct (q (graph (files w))) as [a g]. destruct (graph_trips (files w)) as [|[|e|e] ts]; done.
Qed.

Lemma files_disk {A} (ok : prog Disk A) (cut : nat → gset string → Disk → Disk) (s : State) (Q : A → State → Prop) (R : State → Prop) :
  Q (fst (ok (fst s))) (snd (ok (fst s)), snd s) → (∀ done gone, R (cut done gone (fst s), snd s)) →
  does (on_disk ok cut) s Q R.
Proof.
  intros HQ HR w <-. unfold yields, on_disk, view. simpl in *.
  destruct (ok (disk w)) as [a d]. destruct (disk_trips w) as [|[|n gone t] ts]; simpl; [done|done|apply HR].
Qed.
End Does.

(** ** Histories of files *)

Section Runs.
Context {W : Type} {CL : Clock W} `{FH : FileHost W}.
Context (ensure_hs_not_blacklisted : string → prog W (result (option string) Model.ModelError)).
Abbreviation FW := (FileWorld W).
Abbreviation State := (Disk * FileGraph)%type.
Abbreviation does := (does_on (view (W:=W))).

(** Events of the homeservers, and the API publishing a derived variant. *)
Inductive FileEvent :=
  | FilePut (file : PubkyAppFile) (uri_ user_id file_id : string)
  | FileDel (user_id file_id : string)
  | VariantPublished (k : FileKey) (variant : FileVariant) (bytes : string).

(** A rename into the directory, if it is still there; [main] is never published. *)
Definition publish (k : FileKey) (variant : FileVariant) (bytes : string) : prog FW (result unit Ep.EventProcessorError) :=
  if decide (variant = Main) then ret (Ok tt)
  else emap_err Ep.from_io (on_disk (λ d, (tt, alter (insert (show_variant variant) bytes) k d)) (λ _ _ d, d)).

Definition handle (e : FileEvent) : prog FW (result unit Ep.EventProcessorError) :=
  match e with
  | FilePut file uri_ user_id file_id => sync_put ensure_hs_not_blacklisted file uri_ user_id file_id
  | FileDel user_id file_id => del user_id file_id
  | VariantPublished k variant bytes => publish k variant bytes
  end.

Definition about (e : FileEvent) : option FileKey :=
  match e with
  | FilePut _ _ user_id file_id | FileDel user_id file_id => Some (user_id, file_id)
  | VariantPublished _ _ _ => None
  end.

Definition main_of (k : FileKey) (s : State) : option string := fst s !! k ≫= lookup (show_variant Main).

(** A blob the file's source was once fetched as. *)
Definition fetched (file : PubkyAppFile) (bytes : string) : Prop :=
  ∃ u t source raw o o', parse_source (app_src file) = Ok (u, t) ∧ parse_resource (app_src file) = Ok source
    ∧ get_blob source o = (Ok raw, o') ∧ from_resource t raw = Ok (Blob bytes).

Definition established (e : FileEvent) (s : State) : Prop :=
  match e with
  | FilePut file uri_ user_id file_id =>
      (∃ bytes, main_of (user_id, file_id) s = Some bytes ∧ fetched file bytes)
      ∧ ∃ t, from_stored (user_id, file_id) <$> snd s !! (user_id, file_id)
             = Some (from_homeserver file uri_ user_id file_id t)
  | FileDel user_id file_id => fst s !! (user_id, file_id) = None ∧ snd s !! (user_id, file_id) = None
  | VariantPublished _ _ _ => True
  end.

(** Other events leave a file's node, directory and [main] alone. *)
Definition undisturbed (k : FileKey) (s s' : State) : Prop :=
  snd s' !! k = snd s !! k ∧ main_of k s' = main_of k s ∧ (fst s' !! k = None ↔ fst s !! k = None).

(** No node without its [main]. *)
Definition backed (s : State) : Prop := ∀ k, is_Some (snd s !! k) → is_Some (main_of k s).

(** Nothing but the directory of [k] changed, and its [main] is still there. *)
Definition touched (k : FileKey) (s s' : State) : Prop :=
  snd s' = snd s ∧ (∀ k', k' ≠ k → fst s' !! k' = fst s !! k') ∧ (is_Some (main_of k s) → is_Some (main_of k s')).

Lemma touched_refl k (s : State) : touched k s s.
Proof. done. Qed.

Lemma touched_trans k (s1 s2 s3 : State) : touched k s1 s2 → touched k s2 s3 → touched k s1 s3.
Proof.
  intros (H1 & H2 & H3) (H1' & H2' & H3'). split; [by rewrite H1'|]. split; [|auto].
  intros k' Hk. by rewrite H2', H2.
Qed.

Lemma touched_others k (s s' : State) e : backed s → about e = Some k → touched k s s' → others about undisturbed backed e s s'.
Proof.
  intros Hb He (Hg & Hd & Hm). split.
  - intros k' Hk'. rewrite Hg in Hk'. destruct (decide (k' = k)) as [->|Hne]; [by apply Hm, Hb|].
    unfold main_of. rewrite Hd by done. by apply Hb.
  - intros k' Hk'. rewrite He in Hk'. assert (k' ≠ k) by congruence. unfold undisturbed, main_of.
    by rewrite Hg, Hd.
Qed.

Lemma write_main_does k bytes (s : State) :
  does (write_main_variant k bytes) s (λ _ s', touched k s s' ∧ main_of k s' = Some bytes) (touched k s).
Proof.
  assert (∀ b, touched k s (if decide (b = 0%nat) then fst s else <[k:=default ∅ (fst s !! k)]> (fst s), snd s)) as Hc.
  { intros b. case_decide; [by destruct s|]. split; [done|]. split; [intros k' Hk; by apply lookup_insert_ne|].
    unfold main_of. simpl. rewrite lookup_insert_eq. destruct (fst s !! k); simpl; done. }
  unfold write_main_variant. apply does_on_ebind, files_disk; [|intros b _; apply Hc].
  specialize (Hc 1%nat). set (s1 := (_, snd s)) in *. assert (∃ d, fst s1 !! k = Some d) as [d Hd]
    by (eexists; apply lookup_insert_eq). simpl in Hc. fold s1 in Hc. cbn [fst snd]. fold s1.
  assert (∀ b, touched k s1 (alter (insert (show_variant Main) b) k (fst s1), snd s1)
               ∧ main_of k (alter (insert (show_variant Main) b) k (fst s1), snd s1) = Some b) as Hw.
  { intros b. assert (main_of k (alter (insert (show_variant Main) b) k (fst s1), snd s1) = Some b) as Hm.
    { unfold main_of. cbn [fst]. rewrite lookup_alter_eq, Hd. cbn [fmap option_fmap option_map mbind option_bind]. apply lookup_insert_eq. }
    split; [|done]. split; [done|]. split; [intros k' Hk; by apply lookup_alter_ne|]. by rewrite Hm. }
  apply files_disk.
  - cbn [fst snd]. split; [|apply Hw]. eapply touched_trans; [exact Hc|apply Hw].
  - intros [|n] _; [by destruct s1|]. eapply touched_trans; [exact Hc|apply Hw].
Qed.

Lemma ingest_does user_id file_id file (s : State) :
  does (ingest ensure_hs_not_blacklisted user_id file_id file) s
    (λ _ s', touched (user_id, file_id) s s' ∧ ∃ bytes, main_of (user_id, file_id) s' = Some bytes ∧ fetched file bytes)
    (touched (user_id, file_id) s).
Proof.
  unfold ingest, file_source. apply does_on_ebind, does_on_ret.
  destruct (parse_source (app_src file)) as [[u t]|e] eqn:Hp; [|done].
  apply does_on_ebind, does_on_emap_err, files_outside; [|done]. intros _ _ _ _.
  apply does_on_ebind, does_on_ret. destruct (parse_resource (app_src file)) as [source|e] eqn:Hr; [|done].
  apply does_on_ebind, does_on_emap_err, files_outside; [|done]. intros o raw o' Hget.
  apply does_on_ebind, does_on_ret. cbn [snd]. destruct (from_resource t raw) as [object|e] eqn:Ho; [|done]. cbn [map_err].
  destruct object as [bytes|]; [|by apply does_on_ret]. apply does_on_emap_err.
  eapply does_on_mono; [apply write_main_does| |done]. intros [] s' [Ht Hm]. split; [done|].
  exists bytes. split; [done|]. by exists u, t, source, raw, o, o'.
Qed.

Lemma file_put_does file uri_ u f (s : State) :
  backed s →
  let e := FilePut file uri_ u f in
  does (sync_put ensure_hs_not_blacklisted file uri_ u f) s
    (λ _ s', established e s' ∧ others about undisturbed backed e s s') (others about undisturbed backed e s).
Proof.
  intros Hb e. unfold sync_put. apply does_on_ebind. eapply does_on_mono; [apply ingest_does| |].
  2:{ intros s' Ht. by eapply touched_others. }
  intros [] s1 [Ht (bytes & Hm & Hf)]. apply files_now. intros t. apply does_on_emap_err. unfold put_to_graph.
  pose proof (touched_others _ _ _ e Hb eq_refl Ht) as [Hb1 Ho1].
  assert (others about undisturbed backed e s (fst s1, create_file (from_homeserver file uri_ u f t) (snd s1))) as Ho2.
  { split.
    - intros k Hk. destruct (decide (k = (u, f))) as [->|Hne]; [exists bytes; exact Hm|].
      apply (Hb1 k). unfold create_file in Hk. simpl in Hk. by rewrite lookup_insert_ne in Hk.
    - intros k Hk. destruct (Ho1 k Hk) as (Hg & Hma & Hd). split; [|done]. simpl. rewrite <- Hg.
      apply lookup_insert_ne. simpl. unfold e in Hk. simpl in Hk. congruence. }
  apply files_graph; [|by split|exact Ho2]. split; [|exact Ho2].
  split; [by exists bytes|]. exists t. cbn [fst snd writes]. unfold create_file. cbn [owner_id id from_homeserver].
  by rewrite lookup_insert_eq.
Qed.

Lemma file_remove_does k (s : State) :
  does (remove_dir_all (W:=W) k) s (λ _ s', s' = (delete k (fst s), snd s))
    (λ s', snd s' = snd s ∧ ∀ k', k' ≠ k → fst s' !! k' = fst s !! k').
Proof.
  unfold remove_dir_all. apply files_disk; [done|]. intros done_ gone. split; [done|].
  intros k' Hk. by apply lookup_alter_ne.
Qed.

Lemma file_del_does u f (s : State) :
  backed s →
  let e := FileDel u f in
  does (del u f) s (λ _ s', established e s' ∧ others about undisturbed backed e s s')
    (others about undisturbed backed e s).
Proof.
  intros Hb e. set (k := (u, f)). assert (others about undisturbed backed e s s) as Hsame by by split.
  assert (∀ d g, g = delete k (snd s) → (∀ k', k' ≠ k → d !! k' = fst s !! k') →
    others about undisturbed backed e s (d, g)) as Hgone.
  { intros d g -> Hd. split.
    - intros k' Hk'. simpl in Hk'. apply lookup_delete_is_Some in Hk' as [Hne Hk'].
      unfold main_of. simpl. rewrite Hd by done. by apply Hb.
    - intros k' Hk'. assert (k' ≠ k) by (unfold e, k in *; simpl in Hk'; congruence).
      unfold undisturbed, main_of. simpl. rewrite Hd, lookup_delete_ne by done. done. }
  unfold del, get_by_ids. apply does_on_ebind, does_on_emap_err, does_on_emap_err, files_graph; [|done..]. cbn [fst snd reads fmap list_fmap].
  destruct s as [d0 g0]. cbn [fst snd] in *.
  assert (∀ s1 : State, snd s1 = delete k g0 → fst s1 = d0 →
    does (let? _ := emap_err Ep.from_io (remove_dir_all (u, f)) in ret (Ok tt)) s1
      (λ _ s', established e s' ∧ others about undisturbed backed e (d0, g0) s') (others about undisturbed backed e (d0, g0))) as Hrm.
  { intros [d1 g1] Hg Hd. cbn [fst snd] in *. subst. apply does_on_ebind, does_on_emap_err. eapply does_on_mono; [apply file_remove_does| |].
    - intros _ s' ->. apply does_on_ret. cbn [fst snd]. split.
      + split; [apply lookup_delete_eq|apply lookup_delete_eq].
      + apply Hgone; [done|]. intros k' Hk'. by apply lookup_delete_ne.
    - intros [d2 g2] [Hg Hd]. cbn [fst snd] in *. by apply Hgone. }
  apply does_on_ebind. change ((u, f) :: []) with [k]. fold k. destruct (g0 !! k) as [n|] eqn:Hn; cbn [fmap option_fmap option_map].
  - apply does_on_emap_err. unfold delete_details. apply does_on_emap_err, files_graph; cbn [fst snd].
    + by apply Hrm.
    + done.
    + by apply Hgone.
  - apply does_on_ret. apply Hrm; [|done]. cbn [snd]. symmetry. by apply delete_id.
Qed.

Lemma file_publish_does k variant bytes (s : State) :
  backed s →
  let e := VariantPublished k variant bytes in
  does (publish k variant bytes) s (λ _ s', established e s' ∧ others about undisturbed backed e s s')
    (others about undisturbed backed e s).
Proof.
  intros Hb e. unfold publish. assert (others about undisturbed backed e s s) as Hsame by by split.
  case_decide as Hv; [by apply does_on_ret|]. apply does_on_emap_err, files_disk; [|intros; by destruct s]. split; [done|].
  assert (∀ k', main_of k' (alter (insert (show_variant variant) bytes) k (fst s), snd s) = main_of k' s) as Hm.
  { intros k'. unfold main_of. cbn [fst]. destruct (decide (k' = k)) as [->|Hne]; [|by rewrite lookup_alter_ne].
    rewrite lookup_alter_eq. destruct (fst s !! k) as [d|]; [|done]. cbn. apply lookup_insert_ne.
    by destruct variant. }
  split; [intros k' Hk'; rewrite Hm; by apply Hb|]. intros k' _. split; [done|]. split; [apply Hm|].
  cbn [fst snd]. destruct (decide (k' = k)) as [->|Hne]; [|by rewrite lookup_alter_ne].
  rewrite lookup_alter_eq. by destruct (fst s !! k).
Qed.

Lemma handle_file_does e (s : State) :
  True → backed s →
  does (handle e) s (λ _ s', established e s' ∧ others about undisturbed backed e s s') (others about undisturbed backed e s).
Proof. intros _ Hb. destruct e; [by apply file_put_does|by apply file_del_does|by apply file_publish_does]. Qed.

Lemma file_established_stable e k (s s' : State) :
  True → about e = Some k → undisturbed k s s' → established e s → established e s'.
Proof.
  intros _. destruct e as [file uri_ u f|u f|k0 v b]; [| |done]; intros [= <-] (Hg & Hm & Hd).
  - intros [(bytes & Hb & Hf) Ht]. split; [exists bytes; by rewrite Hm|by rewrite Hg].
  - intros [Hn1 Hn2]. split; [by apply Hd|by rewrite Hg].
Qed.

(** C11: Through any history of files put and deleted, with variants published in between and
    calls failing before, after or in the middle of taking effect: no file is listed without
    its [main] on disk; when the last event about a file was an answered put, its node is
    that event's and [main] is a blob its source was fetched as; and when it was an answered
    deletion, neither node nor directory is left. *)
Theorem answered_files_agree es (w : FW) :
  backed (view w) →
  let run := run_events handle es [] w in
  backed (view (snd run))
  ∧ ∀ k e, last_about about k (fst run) = Some (e, true) → established e (view (snd run)).
Proof.
  intros Hb run. assert (Forall (λ _ : FileEvent, True) es) as Hes by (by apply Forall_forall). split.
  - by apply (run_events_inv view _ _ established _ _ _ handle_file_does file_established_stable es w Hes).
  - intros k e. by apply (answered_stands view _ _ established _ _ _ handle_file_does file_established_stable es w k e Hes).
Qed.
End Runs.

(** ** A file that is replaced *)

Module Example_files.
#[export] Instance clock : Clock Z := {
  DateTime := Z; utc_now := λ n, (n, (n + 1)%Z); timestamp_millis := λ n, n;
  timestamp_nanos_opt := λ _, None; instant_now := λ n, (n, n);
}.

(** A source names its bytes. *)
#[export] Instance specs : FileSpecs := {
  Target := unit; Resource := string;
  parse_source := λ s, if bool_decide (s = "") then Err "empty" else Ok ("host", tt);
  parse_resource := Ok; sdk_server_error := λ _, false;
}.

#[export] Instance host : FileHost Z := {
  get_blob := λ r, ret (Ok r);
  from_resource := λ _ raw, Ok (Blob raw);
}.

Definition open_host (user_id : string) : prog Z (result (option string) Model.ModelError) := ret (Ok None).

Definition picture (src_ : string) : PubkyAppFile :=
  {| app_name := "picture"; app_created_at := 5%Z; app_src := src_; app_content_type := "image/png"; app_size := 3%Z |}.

(** The second put is cut in the middle of the write, and the deletion after the node is gone. *)
Definition events : list FileEvent :=
  [FilePut (picture "abc") "uri" "u" "f"; VariantPublished ("u", "f") Small "small abc";
   FilePut (picture "xyz") "uri" "u" "f"; FilePut (picture "xyz") "uri" "u" "f";
   FilePut (picture "old") "uri" "u" "g"; FileDel "u" "g"; FileDel "u" "g"].

Definition start : FileWorld Z := {|
  outside := 100%Z; disk := ∅;
  disk_trips := [DiskServed; DiskServed; DiskServed; DiskServed; DiskFailed 2 ∅ "no space";
                 DiskServed; DiskServed; DiskServed; DiskServed; DiskFailed 0 {["main"]} "busy"];
  files := {| graph := ∅; graph_trips := [] |} |}.

Abbreviation after := (run_events (handle open_host) events [] start).

Example file_answers : snd <$> reverse (fst after) = [true; true; false; true; true; false; true].
Proof. by vm_compute. Qed.

Lemma answered_files_agree_witness :
  main_of ("u", "f") (view (snd after)) = Some "xyz"
  ∧ backed (view (snd after))
  ∧ established (FileDel "u" "g") (view (snd after)).
Proof.
  split; [by vm_compute|].
  destruct (answered_files_agree open_host events start) as [Hb Hlast]; [by intros k [? [=]]|].
  split; [exact Hb|]. apply (Hlast ("u", "g")). by vm_compute.
Defined.

(** The variant of the picture that was replaced is still there to be served. *)
Example replaced_file_keeps_variants :
  disk (snd after) !! ("u", "f") = Some {["main" := "xyz"; "small" := "small abc"]}.
Proof. by vm_compute. Qed.
End Example_files.
