(* ===== verification/TrustFilter.v ===== *)
(** * The trust filter of the shared post sets

    nexus-common/src/models/post/trust_filter: posts by authors outside the published
    trust ranking are kept out of the sorted sets every viewer shares. Every write goes
    through a gate script; [reconcile] applies a new ranking, or a toggled switch, to the
    posts already there. It takes no lock and may be cut short anywhere, while writers go
    on: it runs as a thread among them. The ranking and its copy are given by their
    members, the graph by the posts it holds. *)

From S2P Require Import Prelude Threads.
Local Open Scope Z_scope.
Local Open Scope thread_scope.

(** ** Posts and their entries *)

(** [AuthorPost] *)
Record AuthorPost := {
  author : string;
  id : string;
  indexed_at : Z;
  is_reply : bool;
  labels : list string;
  engagement : Z;
  mentions : Z;
}.

Fixpoint join (sep : string) (parts : list string) : string :=
  match parts with
  | [] => ""
  | [p] => p
  | p :: parts => p +:+ sep +:+ join sep parts
  end.

Definition SORTED_PREFIX : string := "Sorted".

Definition sorted_key (key_parts : list string) : string :=
  SORTED_PREFIX +:+ ":" +:+ join ":" key_parts.

Definition POST_TIMELINE_KEY_PARTS : list string := ["Posts"; "Global"; "Timeline"].
Definition POST_TOTAL_ENGAGEMENT_KEY_PARTS : list string := ["Posts"; "Global"; "TotalEngagement"].
Definition TAG_GLOBAL_POST_TIMELINE : list string := ["Tags"; "Global"; "Post"; "Timeline"].
Definition TAG_GLOBAL_POST_ENGAGEMENT : list string := ["Tags"; "Global"; "Post"; "TotalEngagement"].

(** [PostStream::shared_set_entries] *)
Definition stream_entries (post : AuthorPost) : list (string * Z) :=
  if is_reply post then []
  else [(join ":" POST_TIMELINE_KEY_PARTS, as_f64 (indexed_at post));
        (join ":" POST_TOTAL_ENGAGEMENT_KEY_PARTS, as_f64 (engagement post))].

(** [PostsByTagSearch::shared_set_entries] *)
Definition tag_entries (post : AuthorPost) : list (string * Z) :=
  let engagement := as_f64 (wrap_i64 (engagement post + mentions post)) in
  let key family label := join ":" family +:+ ":" +:+ label in
  labels post ≫= λ label,
    [(key TAG_GLOBAL_POST_TIMELINE label, as_f64 (indexed_at post));
     (key TAG_GLOBAL_POST_ENGAGEMENT label, engagement)].

Definition member_of (post : AuthorPost) : string := author post +:+ ":" +:+ id post.

(** [shared_entries], as the pairs its map is built from: set, score, member. *)
Definition post_entries (post : AuthorPost) : list (string * (Z * string)) :=
  (λ '(key_parts, score), (sorted_key [key_parts], (score, member_of post)))
    <$> (stream_entries post ++ tag_entries post).

(** The map, in the order of its keys. *)
Definition pair_le (x y : string * (Z * string)) : Prop := str_le x.1 y.1.
#[export] Instance pair_le_dec : RelDecision pair_le.
Proof. intros x y. unfold pair_le. apply _. Defined.

Definition push (entries : list (string * list (Z * string))) (e : string * (Z * string)) :
    list (string * list (Z * string)) :=
  match entries with
  | (key, batch) :: rest =>
      if decide (key = e.1) then (key, batch ++ [e.2]) :: rest else (e.1, [e.2]) :: entries
  | [] => [(e.1, [e.2])]
  end.

Definition shared_entries (posts : list AuthorPost) : list (string * list (Z * string)) :=
  rev (foldl push [] (merge_sort pair_le (posts ≫= post_entries))).

(** ** The stores *)

Record Db := {
  (** [Sorted:Users:SocialGraph], the ranking; an empty sorted set has no key *)
  ranking : gset string;
  (** [Sorted:TrustFilter:Applied] *)
  applied : gset string;
  filtered : bool;
  showing : bool;
  on : bool;
  (** the sets every viewer shares: key, member, score *)
  shared : gmap string (gmap string Z);
  (** the graph *)
  posts : list AuthorPost;
}.

Definition zset (key : string) (db : Db) : gmap string Z := default ∅ (shared db !! key).

Definition set_shared (key : string) (z : gmap string Z) (db : Db) : Db :=
  {| ranking := ranking db; applied := applied db; filtered := filtered db; showing := showing db;
     on := on db; shared := <[key := z]> (shared db); posts := posts db |}.

Definition ZADD (key : string) (kept : list (Z * string)) (db : Db) : Db :=
  set_shared key (foldl (λ z '(score, member), <[member := score]> z) (zset key db) kept) db.

Definition ZREM (key : string) (gone : list string) (db : Db) : Db :=
  set_shared key (foldl (λ z member, delete member z) (zset key db) gone) db.

(** ** The gate scripts *)

Fixpoint before_colon (s : string) : option string :=
  match s with
  | EmptyString => None
  | String c s =>
      if decide (c = Ascii.ascii_of_N 58) then Some "" else String c <$> before_colon s
  end.

(** [author_of] *)
Definition author_of (member : string) : string := default "" (before_colon member).

(** [admitted], for one author *)
Definition admitted (db : Db) (a : string) : bool :=
  if decide (ranking db ≠ ∅ ∧ on db = true) then bool_decide (a ∈ ranking db) else true.

Definition ADD (key : string) (entries : list (Z * string)) : prog Db Z := λ db,
  let keep := filter (λ e, admitted db (author_of e.2) = true) entries in
  (Z.of_nat (length keep), match keep with [] => db | _ => ZADD key keep db end).

Definition INCR (key : string) (delta : Z) (member : string) : prog Db Z := λ db,
  match zset key db !! member with
  | Some score => (1, set_shared key (<[member := as_f64 (score + delta)]> (zset key db)) db)
  | None =>
      if bool_decide (0 < delta) && admitted db (author_of member) then
        (1, set_shared key (<[member := delta]> (zset key db)) db)
      else (0, db)
  end.

Definition REMOVE (key : string) (members : list string) : prog Db Z := λ db,
  let gone := filter (λ m, admitted db (author_of m) = false) members in
  match gone with
  | [] => (0, db)
  | _ => (Z.of_nat (length (filter (λ m, is_Some (zset key db !! m)) gone)), ZREM key gone db)
  end.

(** ** The world of the runs *)

(** The stores, and the entries handed to [ADD] or created by [INCR] so far, by whoever:
    this last is not kept by the program. *)
Record World := { db : Db; written : gset (string * string) }.

Definition on_db {A} (p : prog Db A) : prog World A := λ w,
  let '(a, d) := p (db w) in (a, {| db := d; written := written w |}).

Definition read {A} (f : Db → A) : prog World A := λ w, (f (db w), w).

Definition set_keys (d : Db) (applied' : gset string) (filtered' showing' on' : bool) : Db :=
  {| ranking := ranking d; applied := applied'; filtered := filtered'; showing := showing';
     on := on'; shared := shared d; posts := posts d |}.

Definition entries_of (key : string) (entries : list (Z * string)) : list (string * string) :=
  (λ e, (key, e.2)) <$> entries.

Definition issue_add (key : string) (entries : list (Z * string)) : prog World Z := λ w,
  let '(n, d) := ADD key entries (db w) in
  (n, {| db := d; written := list_to_set (entries_of key entries) ∪ written w |}).

Definition issue_incr (key : string) (delta : Z) (member : string) : prog World Z := λ w,
  let '(n, d) := INCR key delta member (db w) in
  (n, {| db := d;
         written := (if decide (0 < delta) then {[(key, member)]} else ∅) ∪ written w |}).

(** [switch] *)
Definition switch (b : bool) : prog World unit := on_db (λ d,
  (tt, if b then set_keys d (applied d) true (showing d) true
       else set_keys d (applied d) (filtered d) (showing d) false)).

(** ** Reconciling *)

Definition BATCH : nat := 500.
Definition POSTS_PAGE : nat := 1000.

Fixpoint chunks_from {A} (fuel n : nat) (l : list A) : list (list A) :=
  match fuel, l with
  | 0%nat, _ | _, [] => []
  | S fuel, _ => take n l :: chunks_from fuel n (drop n l)
  end.

(** [slice::chunks]; as many steps as elements are enough. *)
Definition chunks {A} (n : nat) (l : list A) : list (list A) := chunks_from (length l) n l.

Fixpoint each {W X} (f : X → thread W unit) (l : list X) : thread W unit :=
  match l with
  | [] => Done tt
  | x :: l => do* _ := f x in each f l
  end.

Inductive Write := Hide | Show.

(** [Write::call], invoked *)
Definition write_call (w : Write) (key : string) (batch : list (Z * string)) : prog World Z :=
  match w with
  | Hide => on_db (REMOVE key (snd <$> batch))
  | Show => issue_add key batch
  end.

Definition write_entries (w : Write) (entries : list (string * list (Z * string))) :
    thread World unit :=
  each (λ '(key, entries),
          each (λ batch, do* _ := call (write_call w key batch) in Done tt) (chunks BATCH entries))
    entries.

(** The order of a page: [ORDER BY p.indexed_at, p.id]. *)
Abbreviation Position := (Z * string)%type.
Definition pos_le (x y : Position) : Prop := x.1 < y.1 ∨ (x.1 = y.1 ∧ str_le x.2 y.2).
#[export] Instance pos_le_dec : RelDecision pos_le.
Proof. intros x y. unfold pos_le. apply _. Defined.
Definition pos_lt (x y : Position) : Prop := pos_le x y ∧ x ≠ y.
#[export] Instance pos_lt_dec : RelDecision pos_lt.
Proof. intros x y. unfold pos_lt. apply _. Defined.

Definition position (p : AuthorPost) : Position := (indexed_at p, id p).
Definition post_le (p q : AuthorPost) : Prop := pos_le (position p) (position q).
#[export] Instance post_le_dec : RelDecision post_le.
Proof. intros x y. unfold post_le. apply _. Defined.

(** The query [author_post_entries] *)
Definition author_post_entries (a : string) (after : Position) (limit : nat)
    (posts : list AuthorPost) : list AuthorPost :=
  take limit (merge_sort post_le (filter (λ p, author p = a ∧ pos_lt after (position p)) posts)).

Definition max_position (x : Position) (l : list Position) : Position :=
  foldl (λ m y, if decide (pos_le m y) then y else m) x l.

Definition next_page (page : list AuthorPost) (page_size : nat) : option Position :=
  match position <$> page with
  | [] => None
  | p :: ps => if decide (page_size ≤ length page)%nat then Some (max_position p ps) else None
  end.

(** The pages of an author, from [after] on; [false] when the fuel runs out. *)
Fixpoint write_pages (fuel : nat) (a : string) (w : Write) (page_size : nat)
    (after : Position) : thread World bool :=
  match fuel with
  | 0%nat => Done false
  | S fuel =>
      do* page := call (read (author_post_entries a after page_size ∘ posts)) in
      do* _ := write_entries w (shared_entries page) in
      match next_page page page_size with
      | Some cursor => write_pages fuel a w page_size cursor
      | None => Done true
      end
  end.

Fixpoint write_all (fuel : nat) (authors : list (string * Write)) : thread World bool :=
  match authors with
  | [] => Done true
  | (a, w) :: authors =>
      do* finished := write_pages fuel a w POSTS_PAGE (i64_min, "") in
      if (finished : bool) then write_all fuel authors else Done false
  end.

Definition write_authors (fuel : nat) (hide show : list string) : thread World bool :=
  write_all fuel (((λ a, (a, Hide)) <$> hide) ++ ((λ a, (a, Show)) <$> show)).

(** [members]: none when the key is missing. *)
Definition members (s : gset string) : option (gset string) :=
  if decide (s = ∅) then None else Some s.

(** [post_author_ids], those in [set] aside. *)
Definition authors_outside (set : gset string) : prog World (list string) :=
  read (λ d, filter (λ a, a ∉ set) (remove_dups (author <$> posts d))).

Definition differences (a b : gset string) : list string := elements (a ∖ b).

Definition rank_changes (applied ranking : option (gset string)) :
    thread World (list string * list string) :=
  match applied, ranking with
  | None, None => Done ([], [])
  | None, Some ranking => do* out := call (authors_outside ranking) in Done (out, [])
  | Some applied, Some ranking =>
      Done (differences applied ranking, differences ranking applied)
  | Some applied, None => do* out := call (authors_outside applied) in Done ([], out)
  end.

Definition changes_after_showing (applied : option (gset string)) (ranking : gset string) :
    thread World (list string * list string) :=
  let show := match applied with Some applied => differences ranking applied | None => [] end in
  do* out := call (authors_outside ranking) in Done (out, show).

Definition record_applied (ranking : option (gset string)) : prog World unit :=
  on_db (λ d, (tt, set_keys d (default ∅ ranking) (filtered d) (showing d) (on d))).

Definition set_filtered : prog World unit :=
  on_db (λ d, (tt, set_keys d (applied d) true (showing d) (on d))).
Definition set_showing : prog World unit :=
  on_db (λ d, (tt, set_keys d (applied d) (filtered d) true (on d))).
Definition del_showing : prog World unit :=
  on_db (λ d, (tt, set_keys d (applied d) (filtered d) false (on d))).
Definition del_filtered_showing : prog World unit :=
  on_db (λ d, (tt, set_keys d (applied d) false false (on d))).

Definition apply_ranking (fuel : nat) : thread World bool :=
  do* _ := call set_filtered in
  do* ranking := call (read (members ∘ ranking)) in
  do* applied := call (read (members ∘ applied)) in
  do* showing := call (read showing) in
  if decide (applied = ranking ∧ showing = false) then Done true
  else
    do* changes := (match showing, ranking with
                    | true, Some ranking => changes_after_showing applied ranking
                    | _, _ => rank_changes applied ranking
                    end) in
    do* finished := write_authors fuel changes.1 changes.2 in
    if (finished : bool) then
      do* _ := call (record_applied ranking) in
      do* _ := call del_showing in
      Done true
    else Done false.

Definition show_all (fuel : nat) : thread World bool :=
  do* filtered := call (read filtered) in
  do* applied := call (read (members ∘ applied)) in
  if negb filtered && bool_decide (applied = None) then Done true
  else
    do* _ := call set_showing in
    do* ranking := call (read (members ∘ ranking)) in
    let admitted :=
      match applied, ranking with
      | Some applied, Some ranking => Some (applied ∩ ranking)
      | Some applied, None => Some applied
      | None, ranking => ranking
      end in
    do* show := (match admitted with
                 | Some admitted => call (authors_outside admitted)
                 | None => Done []
                 end) in
    do* finished := write_authors fuel [] show in
    if (finished : bool) then
      do* _ := call (record_applied None) in
      do* _ := call del_filtered_showing in
      Done true
    else Done false.

Definition reconcile (fuel : nat) : thread World bool :=
  do* on := call (read on) in
  if (on : bool) then apply_ranking fuel else show_all fuel.

(** [SocialGraphStatus::reindex]: the ranking read from the graph replaces the old. *)
Definition reindex (ranked : gset string) : prog World unit := on_db (λ d,
  (tt, {| ranking := ranked; applied := applied d; filtered := filtered d; showing := showing d;
          on := on d; shared := shared d; posts := posts d |})).

(** [SocialGraphStatus::publish] *)
Definition publish (fuel : nat) (ranked : gset string) : thread World bool :=
  do* finished := reconcile fuel in
  if (finished : bool) then
    do* _ := call (reindex ranked) in
    reconcile fuel
  else Done false.
