(* ===== verification/TrustFilterRuns.v ===== *)
(** * The trust filter: what its runs leave behind

    The entries of the shared sets and what the gate scripts do to them; the invariant
    every writer, switch, publication and reconciliation keeps, however it is cut; that a
    run that ends leaves the sets as the ranking and the switch want them, and that it
    ends. *)

From S2P Require Import Prelude Threads TrustFilter.
Local Open Scope Z_scope.
Local Open Scope thread_scope.

(** ** Entries *)

Abbreviation Entry := (string * string)%type.

#[export] Instance AuthorPost_eq_dec : EqDecision AuthorPost.
Proof. solve_decision. Defined.

(** The shared set and member of each entry of a post. *)
Definition entry_keys (p : AuthorPost) : list Entry := (λ e, (e.1, e.2.2)) <$> post_entries p.

Definition eauthor (e : Entry) : string := author_of e.2.

(** Users' ids have no colon. *)
Definition no_colon (s : string) : Prop := before_colon s = None.

Lemma before_colon_app a i : no_colon a → before_colon (a +:+ ":" +:+ i) = Some a.
Proof.
  unfold no_colon. induction a as [|c a IH]; [done|]. rewrite str_cons. simpl.
  case_decide; [done|]. destruct (before_colon a); [done|]. intros _. by rewrite IH.
Qed.

Lemma author_of_member a i : no_colon a → author_of (a +:+ ":" +:+ i) = a.
Proof. intros Ha. unfold author_of. by rewrite before_colon_app. Qed.

Lemma entry_keys_author p e : no_colon (author p) → e ∈ entry_keys p → eauthor e = author p.
Proof.
  intros Hc (e' & -> & He)%list_elem_of_fmap. unfold eauthor. simpl.
  apply list_elem_of_fmap in He as ([k s] & -> & _). simpl. by apply author_of_member.
Qed.

Definition flatten (l : list (string * list (Z * string))) : list Entry :=
  l ≫= λ '(key, entries), entries_of key entries.

Lemma flatten_cons key entries l : flatten ((key, entries) :: l) = entries_of key entries ++ flatten l.
Proof. done. Qed.

Lemma push_flatten acc x e :
  e ∈ flatten (push acc x) ↔ e ∈ flatten acc ∨ e = (x.1, x.2.2).
Proof.
  destruct x as [k [s m]]. destruct acc as [|[key batch] acc]; cbn [push fst snd].
  { rewrite flatten_cons, elem_of_app. unfold entries_of. simpl. rewrite list_elem_of_singleton.
    split; [by intros [?|[]%not_elem_of_nil]; right|intros [[]%not_elem_of_nil|?]; by left]. }
  case_decide as Hk; rewrite !flatten_cons; unfold entries_of;
    rewrite ?fmap_app, ?elem_of_app; simpl; rewrite ?list_elem_of_singleton; subst; tauto.
Qed.

Lemma shared_entries_flatten ps e :
  e ∈ flatten (shared_entries ps) ↔ ∃ p, p ∈ ps ∧ e ∈ entry_keys p.
Proof.
  unfold shared_entries. transitivity (e ∈ flatten (foldl push [] (merge_sort pair_le (ps ≫= post_entries)))).
  { unfold flatten. rewrite !list_elem_of_bind. setoid_rewrite list_elem_of_In.
    setoid_rewrite <- in_rev. done. }
  assert (∀ l acc, e ∈ flatten (foldl push acc l) ↔ e ∈ flatten acc ∨ ∃ x, x ∈ l ∧ e = (x.1, x.2.2)) as Hfold.
  { intros l. induction l as [|x l IH]; intros acc; simpl.
    { split; [auto|]. by intros [?|(? & []%not_elem_of_nil & _)]. }
    rewrite IH, push_flatten. setoid_rewrite elem_of_cons. naive_solver. }
  rewrite Hfold. split.
  - intros [[]%not_elem_of_nil|(x & Hx & ->)]. rewrite merge_sort_Permutation in Hx.
    apply list_elem_of_bind in Hx as (p & Hx & Hp). exists p. split; [done|].
    apply list_elem_of_fmap. by exists x.
  - intros (p & Hp & (x & -> & Hx)%list_elem_of_fmap). right. exists x. split; [|done].
    rewrite merge_sort_Permutation. apply list_elem_of_bind. by exists p.
Qed.

Lemma concat_chunks {A} n (l : list A) : (0 < n)%nat → concat (chunks n l) = l.
Proof.
  intros Hn. unfold chunks. assert (∀ fuel l', (length l' ≤ fuel)%nat → concat (chunks_from (A := A) fuel n l') = l')
    as Hc; [|by apply Hc].
  induction fuel as [|fuel IH]; intros l' Hl.
  { by destruct l'; simpl in *; [|lia]. }
  destruct l' as [|x l']; [done|]. cbn [chunks_from concat]. rewrite IH.
  - by rewrite take_drop.
  - rewrite length_drop. simpl in *. lia.
Qed.

(** ** What the scripts do *)

Definition present (d : Db) (e : Entry) : Prop := is_Some (zset e.1 d !! e.2).

Abbreviation Keys := (gset string * gset string * bool * bool * bool)%type.
Definition keys (d : Db) : Keys := (ranking d, applied d, filtered d, showing d, on d).

Lemma zset_set_shared key z d k : zset k (set_shared key z d) = if decide (k = key) then z else zset k d.
Proof.
  unfold zset, set_shared. simpl. case_decide as Hk; [subst; by rewrite lookup_insert_eq|].
  by rewrite lookup_insert_ne.
Qed.

Lemma lookup_zadd (kept : list (Z * string)) z m :
  is_Some (foldl (λ z '(score, member), <[member := score]> z) z kept !! m)
  ↔ is_Some ((z : gmap string Z) !! m) ∨ m ∈ kept.*2.
Proof.
  revert z. induction kept as [|[s k] kept IH]; intros z; simpl.
  { split; [auto|]. by intros [?|[]%not_elem_of_nil]. }
  rewrite IH, elem_of_cons. destruct (decide (k = m)) as [->|Hne].
  - rewrite lookup_insert_eq. naive_solver.
  - rewrite lookup_insert_ne by done. naive_solver.
Qed.

Lemma lookup_zrem (gone : list string) z m :
  foldl (λ z member, delete member z) z gone !! m = if decide (m ∈ gone) then None else (z : gmap string Z) !! m.
Proof.
  revert z. induction gone as [|k gone IH]; intros z; cbn [foldl].
  { by rewrite decide_False by apply not_elem_of_nil. }
  rewrite IH. destruct (decide (k = m)) as [->|Hne].
  - rewrite lookup_delete_eq. repeat case_decide; set_solver.
  - rewrite lookup_delete_ne by done. repeat case_decide; set_solver.
Qed.

Lemma ADD_keys key entries d :
  keys (snd (ADD key entries d)) = keys d ∧ posts (snd (ADD key entries d)) = posts d.
Proof. unfold ADD. simpl. by destruct (filter _ entries). Qed.

Lemma ADD_present key entries d e :
  present (snd (ADD key entries d)) e
  ↔ present d e ∨ (e ∈ entries_of key entries ∧ admitted d (eauthor e) = true).
Proof.
  unfold ADD. simpl. set (keep := filter _ entries).
  assert (∀ m, m ∈ keep.*2 ↔ (key, m) ∈ entries_of key entries ∧ admitted d (author_of m) = true) as Hkeep.
  { intros m. unfold keep, entries_of. rewrite !list_elem_of_fmap. split.
    - intros ([s m'] & -> & [Ha He]%list_elem_of_filter). split; [|done]. by exists (s, m').
    - intros [([s m'] & [= ->] & He) Ha]. exists (s, m'). split; [done|].
      by apply list_elem_of_filter. }
  destruct e as [k m]. unfold eauthor. simpl.
  transitivity (present (ZADD key keep d) (k, m)).
  { destruct keep; [|done]. unfold ZADD, present. rewrite zset_set_shared. simpl. by case_decide; subst. }
  unfold ZADD, present. rewrite zset_set_shared. simpl. case_decide as Hk.
  - subst. rewrite lookup_zadd, Hkeep. done.
  - split; [auto|]. intros [?|[(? & [= ? _] & _)%list_elem_of_fmap _]]; [done|congruence].
Qed.

Lemma REMOVE_keys key ms d :
  keys (snd (REMOVE key ms d)) = keys d ∧ posts (snd (REMOVE key ms d)) = posts d.
Proof. unfold REMOVE. by destruct (filter _ ms). Qed.

Lemma REMOVE_present key ms d e :
  present (snd (REMOVE key ms d)) e
  ↔ present d e ∧ ¬ (e.1 = key ∧ e.2 ∈ ms ∧ admitted d (eauthor e) = false).
Proof.
  unfold REMOVE. set (gone := filter _ ms). destruct e as [k m]. unfold eauthor. simpl.
  assert (m ∈ gone ↔ m ∈ ms ∧ admitted d (author_of m) = false) as Hgone.
  { unfold gone. rewrite list_elem_of_filter. tauto. }
  transitivity (present (ZREM key gone d) (k, m)).
  { destruct gone; [|done]. unfold ZREM, present. rewrite zset_set_shared. simpl. by case_decide; subst. }
  unfold ZREM, present. rewrite zset_set_shared. simpl. case_decide as Hk; [|tauto].
  subst k. rewrite lookup_zrem, <- Hgone. case_decide; [|tauto].
  split; [by intros []|]. tauto.
Qed.

Lemma INCR_keys key delta m d :
  keys (snd (INCR key delta m d)) = keys d ∧ posts (snd (INCR key delta m d)) = posts d.
Proof. unfold INCR. destruct (_ !! m); [done|]. by destruct (_ && _). Qed.

Lemma INCR_present key delta m d e :
  present (snd (INCR key delta m d)) e
  ↔ present d e ∨ (e = (key, m) ∧ 0 < delta ∧ admitted d (author_of m) = true).
Proof.
  destruct e as [k m']. unfold INCR, present. simpl.
  destruct (zset key d !! m) as [s|] eqn:Hm; simpl.
  - rewrite zset_set_shared. case_decide as Hk; [|naive_solver]. subst k.
    destruct (decide (m' = m)) as [->|Hne]; [rewrite lookup_insert_eq, Hm; naive_solver|].
    rewrite lookup_insert_ne by done. naive_solver.
  - destruct (bool_decide (0 < delta) && admitted d (author_of m)) eqn:Hb; simpl.
    + apply andb_true_iff in Hb as [Hd%bool_decide_eq_true Ha].
      rewrite zset_set_shared. case_decide as Hk; [|naive_solver]. subst k.
      destruct (decide (m' = m)) as [->|Hne]; [rewrite lookup_insert_eq, Hm; naive_solver|].
      rewrite lookup_insert_ne by done. naive_solver.
    + apply andb_false_iff in Hb. rewrite bool_decide_eq_false in Hb.
      split; [auto|]. intros [?|([= -> ->] & ? & Ha)]; [done|]. destruct Hb; [lia|congruence].
Qed.

(** ** Other writers *)

Definition posts_ok (ps : list AuthorPost) : Prop :=
  (∀ p, p ∈ ps → no_colon (author p) ∧ pos_lt (i64_min, "") (position p))
  ∧ ∀ p q, p ∈ ps → q ∈ ps → author p = author q → id p = id q → p = q.

(** Posts come and gain tags, replies and mentions. *)
Definition extends (ps ps' : list AuthorPost) : Prop :=
  ∀ p, p ∈ ps → ∃ p', p' ∈ ps' ∧ author p' = author p ∧ position p' = position p
    ∧ entry_keys p ⊆ entry_keys p'.

Definition entry_of (ps : list AuthorPost) (e : Entry) : Prop := ∃ p, p ∈ ps ∧ e ∈ entry_keys p.

Definition set_posts (ps : list AuthorPost) (w : World) : World :=
  let d := db w in
  {| db := {| ranking := ranking d; applied := applied d; filtered := filtered d;
              showing := showing d; on := on d; shared := shared d; posts := ps |};
     written := written w |}.

(** A writer indexes a change it made in the graph, through the gate. *)
Inductive other : World → World → Prop :=
  | other_add w key entries ps :
      extends (posts (db w)) ps → posts_ok ps →
      (∀ e, e ∈ entries_of key entries → entry_of ps e) →
      other w (snd (issue_add key entries (set_posts ps w)))
  | other_incr w key delta member ps :
      extends (posts (db w)) ps → posts_ok ps →
      (0 < delta → entry_of ps (key, member)) →
      other w (snd (issue_incr key delta member (set_posts ps w))).

(** What a gated write changes: [new] entries, admitted or not. *)
Record gated (w w' : World) (new : gset Entry) : Prop := {
  g_written : written w' = new ∪ written w;
  g_keys : keys (db w') = keys (db w);
  g_extends : extends (posts (db w)) (posts (db w'));
  g_posts : posts_ok (posts (db w)) → posts_ok (posts (db w'));
  g_new : ∀ e, e ∈ new → entry_of (posts (db w')) e;
  g_present : ∀ e, present (db w') e ↔
    present (db w) e ∨ (e ∈ new ∧ admitted (db w) (eauthor e) = true);
}.

Lemma extends_refl ps : extends ps ps.
Proof. intros p Hp. by exists p. Qed.

Lemma extends_entry ps ps' e : extends ps ps' → entry_of ps e → entry_of ps' e.
Proof. intros Hext (p & Hp & He). destruct (Hext p Hp) as (p' & ? & _ & _ & Hsub). exists p'. auto. Qed.

Lemma admitted_keys d d' a : keys d = keys d' → admitted d a = admitted d' a.
Proof. unfold keys, admitted. by intros [= -> _ _ _ ->]. Qed.

Lemma issue_add_gated key entries ps w :
  extends (posts (db w)) ps → (posts_ok (posts (db w)) → posts_ok ps) →
  (∀ e, e ∈ entries_of key entries → entry_of ps e) →
  gated w (snd (issue_add key entries (set_posts ps w))) (list_to_set (entries_of key entries)).
Proof.
  intros Hext Hok Hnew. unfold issue_add.
  destruct (ADD_keys key entries (db (set_posts ps w))) as [Hk Hp].
  pose proof (ADD_present key entries (db (set_posts ps w))) as Hpres.
  destruct (ADD key entries (db (set_posts ps w))) as [n d]; simpl in *.
  split; simpl; rewrite ?Hk, ?Hp; try done.
  - intros e He%elem_of_list_to_set. auto.
  - intros e. rewrite Hpres, elem_of_list_to_set. done.
Qed.

Lemma other_gated w w' : other w w' → ∃ new, gated w w' new ∧ posts_ok (posts (db w')).
Proof.
  intros [w0 key entries ps Hext Hok Hnew|w0 key delta m ps Hext Hok Hnew].
  - assert (gated w0 _ _) as Hg by (apply (issue_add_gated key entries ps w0 Hext); done).
    exists (list_to_set (entries_of key entries)). split; [done|].
    unfold issue_add. destruct (ADD_keys key entries (db (set_posts ps w0))) as [_ Hp].
    destruct (ADD key entries (db (set_posts ps w0))) as [n d]; simpl in *. by rewrite Hp.
  - exists (if decide (0 < delta) then {[(key, m)]} else ∅). unfold issue_incr.
    destruct (INCR_keys key delta m (db (set_posts ps w0))) as [Hk Hp].
    pose proof (INCR_present key delta m (db (set_posts ps w0))) as Hpres.
    destruct (INCR key delta m (db (set_posts ps w0))) as [n d]; simpl in *.
    split; [|by rewrite Hp]. split; simpl; rewrite ?Hk, ?Hp; try done.
    + intros e. case_decide; [|by intros []%not_elem_of_empty].
      intros ->%elem_of_singleton. auto.
    + intros e. rewrite Hpres. case_decide; [rewrite elem_of_singleton|rewrite elem_of_empty];
        naive_solver lia.
Qed.

(** ** The invariant *)

(** Does the ranking, or its copy, take the author's posts? *)
Definition in_new (d : Db) (a : string) : Prop := ranking d = ∅ ∨ a ∈ ranking d.
Definition in_old (d : Db) (a : string) : Prop := applied d = ∅ ∨ a ∈ applied d.

#[export] Instance in_new_dec d a : Decision (in_new d a).
Proof. unfold in_new. apply _. Defined.
#[export] Instance in_old_dec d a : Decision (in_old d a).
Proof. unfold in_old. apply _. Defined.

Record inv (w : World) : Prop := {
  i_posts : posts_ok (posts (db w));
  i_covered : ∀ e, e ∈ written w → entry_of (posts (db w)) e;
  i_written : ∀ e, present (db w) e → e ∈ written w;
  (** Without the filtered record nothing is hidden. *)
  i_unfiltered : filtered (db w) = false →
    on (db w) = false ∧ applied (db w) = ∅ ∧ showing (db w) = false
    ∧ ∀ e, e ∈ written w → present (db w) e;
  (** An author in both the ranking and its copy has all its entries. *)
  i_shown : ∀ e, e ∈ written w → in_old (db w) (eauthor e) → in_new (db w) (eauthor e) →
    present (db w) e;
  (** One in neither has none, unless a switch-off has begun to show authors. *)
  i_hidden : on (db w) = true → showing (db w) = false →
    ∀ e, e ∈ written w → ¬ in_old (db w) (eauthor e) → ¬ in_new (db w) (eauthor e) →
    ¬ present (db w) e;
}.

Lemma admitted_true d a : admitted d a = true ↔ on d = false ∨ in_new d a.
Proof.
  unfold admitted, in_new. case_decide as H.
  - rewrite bool_decide_eq_true. destruct H as [Hr Ho]. rewrite Ho. naive_solver.
  - split; [|done]. intros _. destruct (on d); [|auto]. right. left.
    destruct (decide (ranking d = ∅)); tauto.
Qed.

Lemma admitted_on d a : on d = true → (admitted d a = true ↔ in_new d a).
Proof. rewrite admitted_true. intros ->. split; [by intros [?|?]|auto]. Qed.

(** An entry is where the filter wants it. *)
Definition right (w : World) (e : Entry) : Prop :=
  present (db w) e ↔ admitted (db w) (eauthor e) = true.

Lemma right_gated w w' new e :
  inv w → gated w w' new → (e ∈ written w → right w e) → e ∈ written w' → right w' e.
Proof.
  intros Hw Hg Hr He. unfold right. rewrite (g_present _ _ _ Hg), (admitted_keys _ _ _ (g_keys _ _ _ Hg)).
  rewrite (g_written _ _ _ Hg) in He. destruct (decide (e ∈ written w)) as [Hold|Hold].
  - specialize (Hr Hold). unfold right in Hr. tauto.
  - apply elem_of_union in He as [He|He]; [|done]. split; [|auto].
    intros [Hp|[_ ?]]; [|done]. by apply (i_written _ Hw) in Hp.
Qed.

Lemma inv_gated w w' new : inv w → gated w w' new → inv w'.
Proof.
  intros Hw Hg. pose proof (g_keys _ _ _ Hg) as Hk. unfold keys in Hk. injection Hk as Hrk Hap Hfi Hsh Hon.
  assert (∀ a, in_new (db w') a ↔ in_new (db w) a) as Hnew by (intros; unfold in_new; by rewrite Hrk).
  assert (∀ a, in_old (db w') a ↔ in_old (db w) a) as Hold by (intros; unfold in_old; by rewrite Hap).
  pose proof (g_written _ _ _ Hg) as Hwr. pose proof (g_present _ _ _ Hg) as Hpr.
  split.
  - apply (g_posts _ _ _ Hg), Hw.
  - intros e. rewrite Hwr, elem_of_union. intros [He|He]; [by apply (g_new _ _ _ Hg)|].
    eapply extends_entry; [apply (g_extends _ _ _ Hg)|by apply Hw].
  - intros e [?%(i_written _ Hw)|[? _]]%Hpr; rewrite Hwr; apply elem_of_union; auto.
  - rewrite Hfi, Hon, Hap, Hsh. intros Hf. destruct (i_unfiltered _ Hw Hf) as (Ho & Ha & Hs & Hall).
    split_and!; [done..|]. intros e. rewrite Hwr, Hpr, elem_of_union. intros [He|He]; [|auto].
    right. split; [done|]. apply admitted_true. auto.
  - intros e. rewrite Hwr, Hpr, Hnew, Hold, elem_of_union. intros [He|He] Ho Hn.
    + right. split; [done|]. apply admitted_true. auto.
    + left. by apply (i_shown _ Hw).
  - rewrite Hon, Hsh. intros Ho Hs e. rewrite Hwr, Hpr, Hnew, Hold, elem_of_union.
    intros He Hno Hnn [Hp|[_ Ha%admitted_on]]; [|done..].
    by apply (i_hidden _ Hw Ho Hs e (i_written _ Hw e Hp)).
Qed.

(** ** Runs among the writers *)

Definition later (tail : option (string * Position)) (w : World) (e : Entry) : Prop :=
  match tail with
  | None => False
  | Some (a, cur) => ∃ p, p ∈ posts (db w) ∧ author p = a ∧ pos_lt cur (position p) ∧ e ∈ entry_keys p
  end.

(** A run that found the keys [f]: every entry is right, or by an author in [todo], or in
    [rem], or in a page to come. *)
Record ctx (f : Keys) (todo : list string) (rem : list Entry) (tail : option (string * Position))
    (w : World) : Prop := {
  c_inv : inv w;
  c_keys : keys (db w) = f;
  c_rem : ∀ e, e ∈ rem → entry_of (posts (db w)) e;
  c_done : ∀ e, e ∈ written w → right w e ∨ eauthor e ∈ todo ∨ e ∈ rem ∨ later tail w e;
}.

Lemma later_extends tail w w' e :
  extends (posts (db w)) (posts (db w')) → later tail w e → later tail w' e.
Proof.
  destruct tail as [[a cur]|]; [|done]. intros Hext (p & Hp & Ha & Hlt & He).
  destruct (Hext p Hp) as (p' & Hp' & Ha' & Hpos & Hsub). exists p'.
  rewrite Ha', Hpos. auto.
Qed.

Lemma ctx_gated f todo rem tail w w' new :
  ctx f todo rem tail w → gated w w' new → ctx f todo rem tail w'.
Proof.
  intros [Hinv Hk Hrem Hd] Hg. split.
  - by eapply inv_gated.
  - by rewrite (g_keys _ _ _ Hg).
  - intros e He. eapply extends_entry; [apply (g_extends _ _ _ Hg)|auto].
  - intros e He. destruct (decide (e ∈ written w)) as [Hw|Hw].
    + destruct (Hd e Hw) as [Hr|[?|[?|Hl]]]; [left|auto..].
      * by apply (right_gated w w' new).
      * do 3 right. eapply later_extends; [apply (g_extends _ _ _ Hg)|done].
    + left. by apply (right_gated w w' new).
Qed.

Lemma ctx_stable f todo rem tail : stable other (ctx f todo rem tail).
Proof. intros w w' (new & Hg & _)%other_gated Hw. by eapply ctx_gated. Qed.

Lemma inv_stable : stable other inv.
Proof. intros w w' (new & Hg & _)%other_gated Hw. by eapply inv_gated. Qed.

Lemma ctx_mono f todo todo' rem rem' tail tail' w :
  ctx f todo rem tail w →
  (∀ e, e ∈ rem' → entry_of (posts (db w)) e) →
  (∀ e, e ∈ written w → eauthor e ∈ todo ∨ e ∈ rem ∨ later tail w e →
     right w e ∨ eauthor e ∈ todo' ∨ e ∈ rem' ∨ later tail' w e) →
  ctx f todo' rem' tail' w.
Proof. intros [Hinv Hk Hrem Hd] Hrem' Hd'. split; [done..|]. intros e He. destruct (Hd e He); auto. Qed.

(** What the gate answers when the keys are [f]. *)
Definition admits (f : Keys) (a : string) : bool :=
  let '(r, _, _, _, o) := f in if decide (r ≠ ∅ ∧ o = true) then bool_decide (a ∈ r) else true.

Lemma admitted_admits d a : admitted d a = admits (keys d) a.
Proof. done. Qed.

Definition wants (w : Write) : bool := match w with Hide => false | Show => true end.

Lemma inv_removed w d gone :
  inv w → keys d = keys (db w) → posts d = posts (db w) →
  (∀ e, present d e ↔ present (db w) e ∧ ¬ (gone e ∧ admitted (db w) (eauthor e) = false)) →
  inv {| db := d; written := written w |}.
Proof.
  intros Hw Hk Hp Hpr. unfold keys in Hk. injection Hk as Hrk Hap Hfi Hsh Hon.
  assert (∀ a, in_new d a ↔ in_new (db w) a) as Hnew by (intros; unfold in_new; by rewrite Hrk).
  assert (∀ a, in_old d a ↔ in_old (db w) a) as Hold by (intros; unfold in_old; by rewrite Hap).
  split; simpl; rewrite ?Hp, ?Hfi, ?Hon, ?Hap, ?Hsh; try apply Hw.
  - intros e [He _]%Hpr. by apply (i_written _ Hw).
  - intros Hf. destruct (i_unfiltered _ Hw Hf) as (Ho & Ha & Hs & Hall). split_and!; [done..|].
    intros e He. apply Hpr. split; [auto|]. intros [_ Hadm].
    assert (admitted (db w) (eauthor e) = true) by (apply admitted_true; auto). congruence.
  - intros e He Ho Hn. apply Hpr. split; [apply (i_shown _ Hw); [done|by apply Hold|by apply Hnew]|].
    apply Hnew in Hn. intros [_ Hadm].
    assert (admitted (db w) (eauthor e) = true) by (apply admitted_true; auto). congruence.
  - intros Ho Hs e He Hno Hnn [Hpres _]%Hpr. rewrite Hold in Hno. rewrite Hnew in Hnn.
    by apply (i_hidden _ Hw Ho Hs e He).
Qed.

Lemma write_call_ctx f todo wr key batch rem tail w :
  (∀ e, e ∈ entries_of key batch → admits f (eauthor e) = wants wr) →
  ctx f todo (entries_of key batch ++ rem) tail w →
  ctx f todo rem tail (snd (write_call wr key batch w)).
Proof.
  intros Hmode Hc. pose proof Hc as [Hinv Hk Hrem Hd]. destruct wr; simpl.
  - unfold on_db. destruct (REMOVE_keys key batch.*2 (db w)) as [Hk' Hp'].
    pose proof (REMOVE_present key batch.*2 (db w)) as Hpr.
    destruct (REMOVE key batch.*2 (db w)) as [n d]; simpl in *.
    assert (∀ e, e.1 = key ∧ e.2 ∈ batch.*2 ↔ e ∈ entries_of key batch) as Hin.
    { intros [k m]. unfold entries_of. rewrite !list_elem_of_fmap. simpl. naive_solver. }
    assert (∀ e, e ∈ entries_of key batch → admitted (db w) (eauthor e) = false) as Hadm.
    { intros e He. rewrite admitted_admits, Hk. by apply Hmode. }
    split; simpl.
    + apply (inv_removed w d (λ e, e.1 = key ∧ e.2 ∈ batch.*2)); [done..|].
      intros e. rewrite Hpr. tauto.
    + by rewrite Hk'.
    + intros e He. rewrite Hp'. apply Hrem, elem_of_app. auto.
    + intros e He. unfold right. simpl. rewrite (admitted_keys d (db w)), Hpr by done.
      destruct (decide (e ∈ entries_of key batch)) as [Hb|Hb].
      * left. pose proof (Hadm e Hb) as Hf. rewrite Hf. apply Hin in Hb. naive_solver.
      * destruct (Hd e He) as [Hr|[?|[[?|?]%elem_of_app|Hl]]]; [left| |done| |]; [|auto|auto|].
        -- unfold right in Hr. rewrite <- Hr. pose proof (Hin e). tauto.
        -- do 3 right. eapply later_extends; [|exact Hl]. simpl. rewrite Hp'. apply extends_refl.
  - assert (gated w (snd (issue_add key batch w)) (list_to_set (entries_of key batch))) as Hg.
    { pose proof (issue_add_gated key batch (posts (db w)) w (extends_refl _) (λ H, H)) as Hg.
      destruct w as [[] ?]. apply Hg. intros e He. apply Hrem, elem_of_app. auto. }
    pose proof (ctx_gated _ _ _ _ _ _ _ Hc Hg) as [Hinv' Hk' Hrem' Hd']. split; [done|done|..].
    + intros e He. apply Hrem', elem_of_app. auto.
    + intros e He. destruct (Hd' e He) as [?|[?|[[Hb|?]%elem_of_app|?]]]; [by left|by eauto..| |by eauto|by eauto].
      left. unfold right.
      assert (admitted (db (snd (issue_add key batch w))) (eauthor e) = true) as Ha.
      { rewrite admitted_admits, Hk'. by apply Hmode. }
      split; [done|]. intros _. apply (g_present _ _ _ Hg). right.
      split; [by apply elem_of_list_to_set|]. by rewrite (admitted_admits (db w)), Hk, <- Hk', <- admitted_admits.
Qed.

Lemma hoare_each {X} (f : X → thread World unit) (P : list X → World → Prop) l :
  (∀ l, stable other (P l)) → (∀ l w, P l w → inv w) →
  (∀ x l', suffix (x :: l') l → hoare other inv (P (x :: l')) (f x) (λ _, P l')) →
  hoare other inv (P l) (each f l) (λ _, P []).
Proof.
  intros Hstable Hinv. induction l as [|x l IH]; intros Hf; simpl.
  - apply hoare_done; [done|]. intros w Hw. split; [by eapply Hinv|done].
  - eapply hoare_tbind; [by apply Hf|]. intros u. apply IH.
    intros y l' Hsuf. apply Hf. by apply suffix_cons_r.
Qed.

Lemma suffix_elem {A} (x : A) l l' : suffix (x :: l') l → x ∈ l.
Proof. intros [k ->]. apply elem_of_app. right. left. Qed.

Lemma write_entries_hoare f todo wr l tail :
  (∀ e, e ∈ flatten l → admits f (eauthor e) = wants wr) →
  hoare other inv (ctx f todo (flatten l) tail) (write_entries wr l)
    (λ _, ctx f todo [] tail).
Proof.
  intros Hmode. apply (hoare_each _ (λ l, ctx f todo (flatten l) tail));
    [intros; apply ctx_stable|intros ? w Hw; apply Hw|].
  intros [key entries] l' Hsuf.
  assert (∀ e, e ∈ entries_of key entries → admits f (eauthor e) = wants wr) as Hkey.
  { intros e He. apply Hmode. apply list_elem_of_bind. exists (key, entries).
    split; [done|]. by eapply suffix_elem. }
  set (P := λ cs, ctx f todo (entries_of key (concat cs) ++ flatten l') tail).
  eapply (hoare_mono _ _ (P (chunks BATCH entries)) _ _ (λ _, P [])).
  - apply (hoare_each _ P); [intros; apply ctx_stable|intros ? w Hw; apply Hw|].
    intros batch cs Hcs. apply (hoare_act other inv _ _ _ (λ _, P cs)); [apply ctx_stable|intros w Hw; apply Hw| |].
    + intros w Hw. apply (write_call_ctx f todo wr key batch (entries_of key (concat cs) ++ flatten l') tail).
      * intros e (x & -> & Hx)%list_elem_of_fmap. apply Hkey. apply list_elem_of_fmap.
        exists x. split; [done|]. rewrite <- (concat_chunks BATCH entries) by (unfold BATCH; lia).
        apply list_elem_of_In, in_concat. exists batch.
        split; apply list_elem_of_In; [by eapply suffix_elem|done].
      * unfold P, entries_of in Hw. simpl in Hw. rewrite fmap_app, <- (assoc_L (++)) in Hw. exact Hw.
    + intros n. apply hoare_done; [apply ctx_stable|]. intros w Hw. split; [apply Hw|done].
  - intros w Hw. unfold P. rewrite concat_chunks by (unfold BATCH; lia). exact Hw.
  - intros _ w Hw. exact Hw.
Qed.

(** *** Pages *)

#[export] Instance pos_le_total : Total pos_le.
Proof.
  intros [x s] [y t]. unfold pos_le. simpl. destruct (Z.lt_total x y) as [?|[->|?]]; [auto..|].
  - destruct (total str_le s t); auto.
  - auto.
Qed.

#[export] Instance pos_le_trans : Transitive pos_le.
Proof.
  intros [x s] [y t] [z u]. unfold pos_le. simpl. intros [?|[-> ?]] [?|[-> ?]]; [left; lia|auto..|].
  right. split; [done|]. by etrans.
Qed.

#[export] Instance post_le_total : Total post_le.
Proof. intros p q. unfold post_le. apply total, _. Qed.
#[export] Instance post_le_trans : Transitive post_le.
Proof. intros p q r. unfold post_le. apply transitivity. Qed.

Lemma max_position_in x l : max_position x l ∈ x :: l.
Proof.
  unfold max_position. revert x. induction l as [|y l IH]; intros x; cbn [foldl]; [left|].
  case_decide; [by right|]. destruct (proj1 (elem_of_cons _ _ _) (IH x)) as [->|?]; [left|by do 2 right].
Qed.

Lemma next_page_in page n cur : next_page page n = Some cur → ∃ q, q ∈ page ∧ position q = cur.
Proof.
  unfold next_page. destruct (position <$> page) as [|x l] eqn:Hl; [done|].
  case_decide; [|done]. intros [= <-]. pose proof (max_position_in x l) as Hin. rewrite <- Hl in Hin.
  apply list_elem_of_fmap in Hin as (q & ? & ?). by exists q.
Qed.

Lemma page_after a cur n ps p :
  p ∈ author_post_entries a cur n ps → p ∈ ps ∧ author p = a ∧ pos_lt cur (position p).
Proof.
  unfold author_post_entries. intros Hp. assert (p ∈ merge_sort post_le
    (filter (λ p, author p = a ∧ pos_lt cur (position p)) ps)) as Hs.
  { rewrite <- (take_drop n (merge_sort _ _)). apply elem_of_app. by left. }
  rewrite merge_sort_Permutation in Hs. by apply list_elem_of_filter in Hs as [[? ?] ?].
Qed.

Lemma page_in a cur n ps p : p ∈ author_post_entries a cur n ps → p ∈ ps ∧ author p = a.
Proof. by intros (? & ? & _)%page_after. Qed.

(** A post after the cursor is in the page, or after the next cursor. *)
Lemma page_covers a cur n ps p :
  posts_ok ps → (0 < n)%nat → p ∈ ps → author p = a → pos_lt cur (position p) →
  p ∈ author_post_entries a cur n ps
  ∨ ∃ next, next_page (author_post_entries a cur n ps) n = Some next ∧ pos_lt next (position p).
Proof.
  intros [_ Huniq] Hn Hp Ha Hlt. set (page := author_post_entries a cur n ps).
  destruct (decide (p ∈ page)) as [?|Hout]; [by left|right].
  set (all := merge_sort post_le (filter (λ p, author p = a ∧ pos_lt cur (position p)) ps)).
  assert (p ∈ all) as Hall by (unfold all; rewrite merge_sort_Permutation; by apply list_elem_of_filter).
  assert (page = take n all) as Hpage by done.
  assert (p ∈ drop n all) as Hdrop.
  { rewrite <- (take_drop n all) in Hall. apply elem_of_app in Hall as [?|?]; [|done].
    by rewrite Hpage in Hout. }
  assert (length page = n) as Hlen.
  { rewrite Hpage, length_take. apply list_elem_of_lookup in Hdrop as [i Hi].
    apply lookup_lt_Some in Hi. rewrite length_drop in Hi. lia. }
  destruct (next_page page n) as [next|] eqn:Hnext; cycle 1.
  { unfold next_page in Hnext. destruct page as [|q page']; simpl in *; [lia|].
    by rewrite decide_True in Hnext by lia. }
  exists next. split; [done|]. destruct (next_page_in _ _ _ Hnext) as (q & Hq & <-).
  assert (post_le q p) as Hle.
  { assert (StronglySorted post_le all) as Hs by (apply StronglySorted_merge_sort; apply _).
    rewrite <- (take_drop n all) in Hs. rewrite Hpage in Hq.
    by eapply StronglySorted_app_1_elem_of. }
  split; [exact Hle|]. intros Heq. apply Hout. destruct (page_in _ _ _ _ _ Hq) as [Hqp Hqa].
  assert (q = p) as <-; [|done].
  apply Huniq; [done|done|congruence|]. unfold position in Heq. by injection Heq.
Qed.

Lemma hoare_ex {A X} P (t : thread World A) Q :
  (∀ x : X, hoare other inv (P x) t Q) → hoare other inv (λ w, ∃ x, P x w) t Q.
Proof. intros H w o w' [x Hw]. by apply (H x). Qed.

(** What is left of a page being written. *)
Definition next_tail (a : string) (next : option Position) : option (string * Position) :=
  pair a <$> next.

Lemma write_pages_hoare f todo a wr n cur fuel :
  (0 < n)%nat → admits f a = wants wr →
  hoare other inv (ctx f todo [] (Some (a, cur))) (write_pages fuel a wr n cur)
    (λ b w, if (b : bool) then ctx f todo [] None w else inv w).
Proof.
  intros Hn Hmode. revert cur. induction fuel as [|fuel IH]; intros cur; simpl.
  { apply hoare_done; [apply ctx_stable|]. intros w Hw. by split; apply Hw. }
  apply (hoare_act other inv _ _ _ (λ page w, (∀ p, p ∈ page → no_colon (author p) ∧ author p = a)
    ∧ ctx f todo (flatten (shared_entries page)) (next_tail a (next_page page n)) w)).
  - apply ctx_stable.
  - intros w Hw. apply Hw.
  - intros w Hw. cbn [read fst snd compose]. split.
    { intros p [Hp Ha]%page_in. split; [|done].
      by apply (proj1 (i_posts _ (c_inv _ _ _ _ _ Hw)) p Hp). }
    eapply ctx_mono; [exact Hw|..].
    + intros e (p & [Hp _]%page_in & He)%shared_entries_flatten. by exists p.
    + intros e _ [?|[[]%not_elem_of_nil|(p & Hp & Ha & Hlt & He)]]; [auto|right].
      destruct (page_covers a cur n (posts (db w)) p) as [Hin|(next & Hnext & Hlt')]; try done.
      * apply Hw.
      * right. left. apply shared_entries_flatten. by exists p.
      * do 2 right. cbn [compose]. rewrite Hnext. by exists p.
  - intros page. apply hoare_pure. intros Hpage.
    eapply hoare_tbind.
    + apply write_entries_hoare. intros e (p & Hp & He)%shared_entries_flatten.
      destruct (Hpage p Hp) as [Hc Ha]. by rewrite (entry_keys_author p e Hc He), Ha.
    + intros u. cbn beta. destruct (next_page page n) as [next|]; simpl.
      * apply IH.
      * apply hoare_done; [apply ctx_stable|]. intros w Hw. by split; [apply Hw|].
Qed.

Lemma write_all_hoare f authors fuel :
  (∀ a wr, (a, wr) ∈ authors → admits f a = wants wr) →
  hoare other inv (ctx f authors.*1 [] None) (write_all fuel authors)
    (λ b w, if (b : bool) then ctx f [] [] None w else inv w).
Proof.
  induction authors as [|[a wr] authors IH]; intros Hmode; simpl.
  { apply hoare_done; [apply ctx_stable|]. intros w Hw. by split; [apply Hw|]. }
  eapply hoare_tbind.
  - eapply hoare_mono; [apply (write_pages_hoare f (authors.*1) a wr POSTS_PAGE (i64_min, "") fuel)| |].
    + unfold POSTS_PAGE. lia.
    + apply Hmode. left.
    + intros w Hw. eapply ctx_mono; [exact Hw|by intros e []%not_elem_of_nil|].
      intros e He [Ha|[[]%not_elem_of_nil|[]]]. right. simpl in Ha.
      apply elem_of_cons in Ha as [Ha|Ha]; [right; right|by left].
      destruct (i_covered _ (c_inv _ _ _ _ _ Hw) e He) as (p & Hp & Hpe). exists p.
      destruct (proj1 (i_posts _ (c_inv _ _ _ _ _ Hw)) p Hp) as [Hc Hlt].
      split_and!; [done| |done|done]. by rewrite <- Ha, (entry_keys_author p e).
    + intros b w Hb. exact Hb.
  - intros [|]; simpl.
    + apply IH. intros a' wr' Ha. apply Hmode. by right.
    + apply hoare_done; [apply inv_stable|]. by split.
Qed.

(** *** Reconciling *)

(** The keys a run found, and has not changed since. *)
Definition base (f : Keys) (w : World) : Prop := inv w ∧ keys (db w) = f.

Lemma base_stable f : stable other (base f).
Proof.
  intros w w' Hstep [Hw Hk]. split; [by eapply inv_stable|].
  apply other_gated in Hstep as (new & Hg & _). by rewrite (g_keys _ _ _ Hg).
Qed.

Lemma hoare_base_read {X : Set} (g : Db → X) (x : X) f :
  (∀ d, keys d = f → g d = x) →
  hoare other inv (base f) (call (read g)) (λ y w, y = x ∧ base f w).
Proof.
  intros Hg. apply hoare_call; [apply base_stable|by intros w []|..].
  - intros y w w' Hstep [? Hw]. split; [done|by eapply base_stable].
  - by intros y w [_ []].
  - intros w [Hw Hk]. simpl. split; [by apply Hg|done].
Qed.

(** [hide] and [show] cover every entry that is not right, on the side of the gate. *)
Definition covering (f : Keys) (changes : list string * list string) (w : World) : Prop :=
  (∀ a, a ∈ changes.1 → admits f a = false) ∧ (∀ a, a ∈ changes.2 → admits f a = true)
  ∧ ctx f (changes.1 ++ changes.2) [] None w.

Lemma covering_stable f changes : stable other (covering f changes).
Proof. intros w w' Hstep (? & ? & ?). split_and!; [done..|by eapply ctx_stable]. Qed.

Lemma write_authors_hoare f changes fuel :
  hoare other inv (covering f changes) (write_authors fuel changes.1 changes.2)
    (λ b w, if (b : bool) then ctx f [] [] None w else inv w).
Proof.
  apply (hoare_mono _ _ (λ w, ((∀ a, a ∈ changes.1 → admits f a = false)
    ∧ (∀ a, a ∈ changes.2 → admits f a = true)) ∧ ctx f (changes.1 ++ changes.2) [] None w) _ _
    (λ b w, if (b : bool) then ctx f [] [] None w else inv w)); [|unfold covering; tauto|done].
  apply hoare_pure. intros [Hhide Hshow].
  eapply hoare_mono; [apply (write_all_hoare f)| |done].
  - intros a wr [Hin|Hin]%elem_of_app; apply list_elem_of_fmap in Hin as (? & [= -> ->] & ?); auto.
  - intros w Hw. rewrite fmap_app, <- !list_fmap_compose. unfold compose. cbn.
    by rewrite !list_fmap_id.
Qed.

(** Every entry is right, or by one of the [authors]. *)
Definition at_fault (authors : list string) (w : World) : Prop :=
  ∀ e, e ∈ written w → right w e ∨ eauthor e ∈ authors.

Lemma covering_intro f hide show w :
  base f w → (∀ a, a ∈ hide → admits f a = false) → (∀ a, a ∈ show → admits f a = true) →
  at_fault (hide ++ show) w → covering f (hide, show) w.
Proof.
  intros [Hw Hk] Hhide Hshow Hf. split_and!; [done..|]. split; [done|done|by intros e []%not_elem_of_nil|].
  intros e He. destruct (Hf e He); auto.
Qed.

(** Authors read from the graph: the entries written since are right. *)
Definition outside (f : Keys) (set : gset string) (out : list string) (w : World) : Prop :=
  base f w ∧ (∀ a, a ∈ out → a ∉ set)
  ∧ ∀ e, e ∈ written w → right w e ∨ eauthor e ∈ set ∨ eauthor e ∈ out.

Lemma outside_stable f set out : stable other (outside f set out).
Proof.
  intros w w' Hstep (Hb & Hset & Hout). pose proof (base_stable f w w' Hstep Hb) as Hb'.
  apply other_gated in Hstep as (new & Hg & _). split_and!; [done..|]. intros e He.
  destruct (decide (e ∈ written w)) as [Hw|Hw].
  - destruct (Hout e Hw) as [Hr|?]; [left|by right]. by apply (right_gated w w' new); [apply Hb|..].
  - left. by apply (right_gated w w' new); [apply Hb|..].
Qed.

Lemma authors_outside_hoare f set :
  hoare other inv (base f) (call (authors_outside set)) (outside f set).
Proof.
  apply hoare_call; [apply base_stable|by intros w []|intros; apply outside_stable|by intros ? w [[] _]|].
  intros w Hb. split_and!; [done|..]; simpl.
  - by intros a [? _]%list_elem_of_filter.
  - intros e He. right. destruct (decide (eauthor e ∈ set)) as [?|Hout]; [by left|right].
    apply list_elem_of_filter. split; [done|]. rewrite elem_of_remove_dups.
    destruct (i_covered _ (proj1 Hb) e He) as (p & Hp & Hpe).
    destruct (proj1 (i_posts _ (proj1 Hb)) p Hp) as [Hc _].
    rewrite (entry_keys_author p e Hc Hpe). by apply list_elem_of_fmap_2.
Qed.

Definition takes (s : gset string) (a : string) : Prop := s = ∅ ∨ a ∈ s.
#[export] Instance takes_dec s a : Decision (takes s a).
Proof. unfold takes. apply _. Defined.

(** An author in the ranking and its copy, and while the filter is on one in neither, is
    right already. *)
Lemma agreed_right r a fi s o w e :
  base (r, a, fi, s, o) w → e ∈ written w →
  (takes r (eauthor e) ∧ takes a (eauthor e))
  ∨ (o = true ∧ s = false ∧ ¬ takes r (eauthor e) ∧ ¬ takes a (eauthor e)) →
  right w e.
Proof.
  intros [Hw Hk] He Hcase. unfold keys in Hk. injection Hk as <- <- _ <- <-.
  unfold right. rewrite admitted_true. destruct Hcase as [[Hn Ho]|(Hon & Hs & Hn & Ho)].
  - split; [auto|]. intros _. by apply (i_shown _ Hw).
  - split; [|by rewrite Hon; intros [?|?]]. intros Hp.
    by destruct (i_hidden _ Hw Hon Hs e He Ho Hn).
Qed.

Lemma members_empty : members ∅ = None.
Proof. unfold members. by rewrite decide_True. Qed.
Lemma members_some s : s ≠ ∅ → members s = Some s.
Proof. intros Hs. unfold members. by rewrite decide_False. Qed.

Lemma admits_hidden r a fi s x : r ≠ ∅ → x ∉ r → admits (r, a, fi, s, true) x = false.
Proof. intros Hr Hx. unfold admits. rewrite decide_True by done. by apply bool_decide_eq_false. Qed.

Lemma admits_shown r a fi s o x : (o = true → takes r x) → admits (r, a, fi, s, o) x = true.
Proof.
  intros Hx. unfold admits. case_decide as H; [|done]. apply bool_decide_eq_true.
  destruct H as [Hr Ho]. by destruct (Hx Ho).
Qed.

Lemma rank_changes_hoare r a fi s :
  s = false ∨ r = ∅ →
  hoare other inv (base (r, a, fi, s, true)) (rank_changes (members a) (members r))
    (covering (r, a, fi, s, true)).
Proof.
  intros Hs. destruct (decide (a = ∅)) as [->|Ha], (decide (r = ∅)) as [->|Hr];
    rewrite ?members_empty, ?members_some by done; unfold rank_changes.
  - apply hoare_done; [apply base_stable|]. intros w Hb. split; [apply Hb|].
    apply covering_intro; [done|by intros ? []%not_elem_of_nil..|]. intros e He. left.
    eapply agreed_right; [done..|]. left. by split; left.
  - eapply hoare_tbind; [apply authors_outside_hoare|]. intros out.
    apply (hoare_done other inv (outside _ _ out)); [apply outside_stable|]. intros w (Hb & Hset & Hout). split; [apply Hb|].
    apply covering_intro; [done| |by intros ? []%not_elem_of_nil|].
    + intros x Hx. by apply admits_hidden; [|apply Hset].
    + intros e He. rewrite app_nil_r. destruct (Hout e He) as [?|[Hin|?]]; [by left| |by right].
      left. eapply agreed_right; [done..|]. left. split; [by right|by left].
  - eapply hoare_tbind; [apply authors_outside_hoare|]. intros out.
    apply (hoare_done other inv (outside _ _ out)); [apply outside_stable|]. intros w (Hb & Hset & Hout). split; [apply Hb|].
    apply covering_intro; [done|by intros ? []%not_elem_of_nil| |].
    + intros x Hx. apply admits_shown. intros _. by left.
    + intros e He. destruct (Hout e He) as [?|[Hin|?]]; [by left| |by right].
      left. eapply agreed_right; [done..|]. left. split; [by left|by right].
  - apply hoare_done; [apply base_stable|]. intros w Hb. split; [apply Hb|]. unfold differences.
    destruct Hs as [->|?]; [|done]. apply covering_intro; [done|..].
    + intros x [Hx Hn]%elem_of_elements%elem_of_difference. by apply admits_hidden.
    + intros x [Hx Hn]%elem_of_elements%elem_of_difference. apply admits_shown. intros _. by right.
    + intros e He. rewrite elem_of_app, !elem_of_elements, !elem_of_difference.
      destruct (decide (eauthor e ∈ r)), (decide (eauthor e ∈ a)); [|auto..|].
      * left. eapply agreed_right; [done..|]. left. split; by right.
      * left. eapply agreed_right; [done..|]. right. unfold takes. tauto.
Qed.

Lemma changes_after_showing_hoare r a fi s :
  r ≠ ∅ →
  hoare other inv (base (r, a, fi, s, true)) (changes_after_showing (members a) r)
    (covering (r, a, fi, s, true)).
Proof.
  intros Hr. unfold changes_after_showing.
  eapply hoare_tbind; [apply authors_outside_hoare|]. intros out.
  apply (hoare_done other inv (outside _ _ out)); [apply outside_stable|]. intros w (Hb & Hset & Hout). split; [apply Hb|].
  assert (∀ x, x ∈ match members a with Some applied => differences r applied | None => [] end
    ↔ a ≠ ∅ ∧ x ∈ r ∧ x ∉ a) as Hshow.
  { intros x. destruct (decide (a = ∅)) as [->|Ha]; rewrite ?members_empty, ?members_some by done.
    - split; [by intros []%not_elem_of_nil|by intros []].
    - unfold differences. rewrite elem_of_elements, elem_of_difference. tauto. }
  apply covering_intro; [done|..].
  - intros x Hx. by apply admits_hidden; [|apply Hset].
  - intros x (_ & Hx & _)%Hshow. apply admits_shown. intros _. by right.
  - intros e He. rewrite elem_of_app, Hshow. destruct (Hout e He) as [?|[Hin|?]]; [by left| |by auto].
    destruct (decide (takes a (eauthor e))) as [Ho|Ho].
    + left. eapply agreed_right; [done..|]. left. split; [by right|done].
    + right. right. unfold takes in Ho. tauto.
Qed.

(** The shared sets are as the ranking and the switch want them. *)
Record settled (w : World) : Prop := {
  s_inv : inv w;
  s_right : ∀ e, e ∈ written w → right w e;
  s_on : on (db w) = true → applied (db w) = ranking (db w) ∧ showing (db w) = false;
  s_off : on (db w) = false → filtered (db w) = false;
}.

Lemma settled_stable : stable other settled.
Proof.
  intros w w' Hstep [Hw Hr Hon Hoff]. pose proof (inv_stable w w' Hstep Hw) as Hw'.
  apply other_gated in Hstep as (new & Hg & _). pose proof (g_keys _ _ _ Hg) as Hk.
  unfold keys in Hk. injection Hk as Hrk Hap Hfi Hsh Ho.
  split; [done| |rewrite Ho, Hrk, Hap, Hsh; done|rewrite Ho, Hfi; done].
  intros e He. apply (right_gated w w' new); auto.
Qed.

(** Every entry is right, and the run goes on to record it. *)
Definition all_right (f : Keys) (w : World) : Prop := base f w ∧ ∀ e, e ∈ written w → right w e.

Lemma ctx_all_right f w : ctx f [] [] None w → all_right f w.
Proof.
  intros [Hw Hk _ Hd]. split; [done|]. intros e He.
  by destruct (Hd e He) as [?|[[]%not_elem_of_nil|[[]%not_elem_of_nil|[]]]].
Qed.

Lemma all_right_stable f : stable other (all_right f).
Proof.
  intros w w' Hstep [Hb Hr]. split; [by eapply base_stable|]. intros e He.
  apply other_gated in Hstep as (new & Hg & _). apply (right_gated w w' new); [apply Hb|done|auto|done].
Qed.

(** Writing the keys of the filter, when every entry is right. *)
Lemma set_keys_inv w a' fi' s' o :
  inv w → on (db w) = o → (∀ e, e ∈ written w → right w e) →
  (fi' = false → o = false ∧ a' = ∅ ∧ s' = false) →
  inv {| db := set_keys (db w) a' fi' s' o; written := written w |}.
Proof.
  intros Hw Ho Hr Hfi. split; simpl; try apply Hw.
  - intros Hf. destruct (Hfi Hf) as (-> & -> & ->). split_and!; [done..|]. intros e He.
    apply (Hr e He), admitted_true. auto.
  - intros e He _ Hn. apply (Hr e He), admitted_true. by right.
  - intros Hon _ e He _ Hn Hp. apply Hn. apply (admitted_on (db w)); [congruence|]. by apply (Hr e He).
Qed.

Lemma set_keys_right w a' fi' s' o :
  on (db w) = o → (∀ e, e ∈ written w → right w e) →
  ∀ e, e ∈ written w → right {| db := set_keys (db w) a' fi' s' o; written := written w |} e.
Proof. intros Ho Hr e He. specialize (Hr e He). unfold right in *. simpl. by rewrite <- Ho. Qed.

(** The key writes of a run, which keep what they do not name. *)
Lemma hoare_set_keys r a fi s o (p : prog World unit) a' fi' s' :
  (∀ w, keys (db w) = (r, a, fi, s, o) →
     p w = (tt, {| db := set_keys (db w) a' fi' s' o; written := written w |})) →
  (fi' = false → o = false ∧ a' = ∅ ∧ s' = false) →
  hoare other inv (all_right (r, a, fi, s, o)) (call p) (λ _, all_right (r, a', fi', s', o)).
Proof.
  intros Hp Hfi. apply hoare_call; [apply all_right_stable|by intros w [[] _]|intros; apply all_right_stable
    |by intros _ w [[] _]|].
  intros w [[Hw Hk] Hr]. rewrite (Hp w Hk). unfold keys in Hk. injection Hk as Hrk _ _ _ Ho.
  simpl. split; [split|].
  - by apply set_keys_inv.
  - unfold keys. simpl. by rewrite Hrk.
  - apply (set_keys_right w a' fi' s' o Ho Hr).
Qed.

(** Keys as they are, but for [TrustFilter:Filtered] or [TrustFilter:Showing]: set before
    anything is written. *)
Lemma hoare_mark f f' (p : prog World unit) :
  (∀ w, base f w → base f' (snd (p w))) →
  hoare other inv (base f) (call p) (λ _, base f').
Proof.
  intros Hp. apply hoare_call; [apply base_stable|by intros w []|intros; apply base_stable
    |by intros _ w []|done].
Qed.

Lemma set_filtered_base r a fi s w :
  base (r, a, fi, s, true) w → base (r, a, true, s, true) (snd (set_filtered w)).
Proof.
  intros [Hw Hk]. unfold keys in Hk. injection Hk as Hrk Ha _ Hs Ho.
  split; [|unfold keys; simpl; congruence]. split; simpl; try apply Hw. done.
Qed.

Lemma set_showing_base r a s w :
  base (r, a, true, s, false) w → base (r, a, true, true, false) (snd (set_showing w)).
Proof.
  intros [Hw Hk]. unfold keys in Hk. injection Hk as Hrk Ha Hf Hs Ho.
  split; [|unfold keys; simpl; congruence]. split; simpl; try apply Hw; [by rewrite Hf|done].
Qed.

Lemma all_right_settled r s w : all_right (r, r, true, s, true) w → s = false → settled w.
Proof.
  intros [[Hw Hk] Hr] ->. unfold keys in Hk. injection Hk as ? ? ? ? ?.
  split; [done|done|by intros; split; congruence|congruence].
Qed.

Lemma apply_ranking_hoare fuel r a fi s :
  hoare other inv (base (r, a, fi, s, true)) (apply_ranking fuel)
    (λ b w, if (b : bool) then settled w else inv w).
Proof.
  eapply hoare_tbind; [apply (hoare_mark _ (r, a, true, s, true)); intros w; apply set_filtered_base|].
  intros []. cbn beta.
  eapply hoare_tbind; [apply (hoare_base_read (members ∘ ranking) (members r)); by intros d [= <- _ _ _ _]|].
  intros rk. apply hoare_pure. intros ->.
  eapply hoare_tbind; [apply (hoare_base_read (members ∘ applied) (members a)); by intros d [= _ <- _ _ _]|].
  intros ap. apply hoare_pure. intros ->.
  eapply hoare_tbind; [apply (hoare_base_read showing s); by intros d [= _ _ _ <- _]|].
  intros sh. apply hoare_pure. intros ->.
  case_decide as Hsame.
  - destruct Hsame as [Hm ->]. assert (a = r) as ->.
    { unfold members in Hm. repeat case_decide; congruence. }
    apply hoare_done; [apply base_stable|]. intros w Hb. split; [apply Hb|].
    apply (all_right_settled r false); [|done]. split; [done|]. intros e He.
    eapply agreed_right; [done..|]. destruct (decide (takes r (eauthor e))); [by left|by right].
  - eapply (hoare_tbind _ _ _ _ _ (covering (r, a, true, s, true))).
    + destruct s.
      * destruct (decide (r = ∅)) as [->|Hr].
        -- rewrite members_empty. rewrite <- members_empty. apply rank_changes_hoare. by right.
        -- rewrite (members_some r) by done. by apply changes_after_showing_hoare.
      * apply rank_changes_hoare. by left.
    + intros changes. eapply hoare_tbind; [apply write_authors_hoare|].
      intros [|]; cbn beta; [|apply hoare_done; [apply inv_stable|done]].
      eapply hoare_mono; [|intros w Hw; by apply (ctx_all_right (r, a, true, s, true))|intros b w Hb; exact Hb].
      eapply hoare_tbind; [apply (hoare_set_keys r a true s true _ r true s)|].
      * intros w Hk. unfold keys in Hk. injection Hk as Hrk Ha Hf Hs Ho.
        unfold record_applied, on_db. rewrite Hf, Hs, Ho. do 3 f_equal.
        destruct (decide (r = ∅)) as [->|?]; [by rewrite members_empty|by rewrite members_some].
      * done.
      * intros []. cbn beta. eapply hoare_tbind; [apply (hoare_set_keys r r true s true _ r true false)|].
        -- intros w Hk. unfold keys in Hk. injection Hk as Hrk Ha Hf Hs Ho.
           unfold del_showing, on_db. by rewrite Ha, Hf, Ho.
        -- done.
        -- intros []. cbn beta. apply hoare_done; [apply all_right_stable|]. intros w Hw.
           split; [apply Hw|]. by apply (all_right_settled r false).
Qed.

(** Without the filtered record there is nothing to do. *)
Lemma unfiltered_settled r a s w : base (r, a, false, s, false) w → settled w.
Proof.
  intros [Hw Hk]. unfold keys in Hk. injection Hk as Hrk Ha Hf Hs Ho.
  destruct (i_unfiltered _ Hw Hf) as (_ & _ & _ & Hall).
  split; [done| |congruence|done]. intros e He. unfold right. rewrite admitted_true. naive_solver.
Qed.

Lemma outside_admitted_hoare r a set :
  (∀ x, x ∈ set → takes r x ∧ takes a x) →
  hoare other inv (base (r, a, true, true, false)) (call (authors_outside set))
    (λ show, covering (r, a, true, true, false) ([], show)).
Proof.
  intros Hset. eapply hoare_mono; [apply authors_outside_hoare|done|].
  intros show w (Hb & _ & Hout). apply covering_intro; [done|by intros ? []%not_elem_of_nil|..].
  - intros x _. by apply admits_shown.
  - intros e He. destruct (Hout e He) as [?|[Hin|?]]; [by left| |by right].
    left. eapply agreed_right; [done..|]. left. by apply Hset.
Qed.

Lemma show_all_hoare fuel r a fi s :
  hoare other inv (base (r, a, fi, s, false)) (show_all fuel)
    (λ b w, if (b : bool) then settled w else inv w).
Proof.
  eapply hoare_tbind; [apply (hoare_base_read filtered fi); by intros d [= _ _ <- _ _]|].
  intros f'. apply hoare_pure. intros ->.
  eapply hoare_tbind; [apply (hoare_base_read (members ∘ applied) (members a)); by intros d [= _ <- _ _ _]|].
  intros ap. apply hoare_pure. intros ->.
  destruct fi; cbn [negb andb]; cycle 1.
  { case_bool_decide as Hm.
    - apply hoare_done; [apply base_stable|]. intros w Hb. split; [apply Hb|].
      by eapply unfiltered_settled.
    - intros w o w' [Hw Hk]. exfalso. unfold keys in Hk. injection Hk as Hrk Ha Hf Hs Ho.
      destruct (i_unfiltered _ Hw Hf) as (_ & Hap & _). apply Hm.
      by rewrite <- Ha, Hap, members_empty. }
  eapply hoare_tbind; [apply (hoare_mark _ (r, a, true, true, false)); intros w; apply set_showing_base|].
  intros []. cbn beta.
  eapply hoare_tbind; [apply (hoare_base_read (members ∘ ranking) (members r)); by intros d [= <- _ _ _ _]|].
  intros rk. apply hoare_pure. intros ->. cbn zeta.
  eapply (hoare_tbind _ _ _ _ _ (λ show, covering (r, a, true, true, false) ([], show))).
  { destruct (decide (a = ∅)) as [->|Ha], (decide (r = ∅)) as [->|Hr];
      rewrite ?members_empty, ?members_some by done.
    - apply hoare_done; [apply base_stable|]. intros w Hb. split; [apply Hb|].
      apply covering_intro; [done|by intros ? []%not_elem_of_nil..|]. intros e He. left.
      eapply agreed_right; [done..|]. left. by split; left.
    - apply outside_admitted_hoare. intros x Hx. split; [by right|by left].
    - apply outside_admitted_hoare. intros x Hx. split; [by left|by right].
    - apply outside_admitted_hoare. intros x [Hx Hx']%elem_of_intersection. split; by right. }
  intros show. eapply hoare_tbind; [apply (write_authors_hoare _ ([], show))|].
  intros [|]; cbn beta; [|apply hoare_done; [apply inv_stable|done]].
  eapply hoare_mono; [|intros w Hw; by apply (ctx_all_right (r, a, true, true, false))|intros b w Hb; exact Hb].
  eapply hoare_tbind; [apply (hoare_set_keys r a true true false _ ∅ true true)|].
  - intros w Hk. unfold keys in Hk. injection Hk as Hrk Ha Hf Hs Ho.
    unfold record_applied, on_db. by rewrite Hf, Hs, Ho.
  - done.
  - intros []. cbn beta.
    eapply hoare_tbind; [apply (hoare_set_keys r ∅ true true false _ ∅ false false)|].
    + intros w Hk. unfold keys in Hk. injection Hk as Hrk Ha Hf Hs Ho.
      unfold del_filtered_showing, on_db. by rewrite Ha, Ho.
    + done.
    + intros []. cbn beta. apply hoare_done; [apply all_right_stable|]. intros w Hw.
      split; [apply Hw|]. by eapply unfiltered_settled, Hw.
Qed.

Lemma reconcile_hoare fuel :
  hoare other inv inv (reconcile fuel) (λ b w, if (b : bool) then settled w else inv w).
Proof.
  apply (hoare_mono _ _ (λ w, ∃ f, base f w) _ _ (λ b w, if (b : bool) then settled w else inv w));
    [|intros w Hw; by exists (keys (db w))|done].
  apply hoare_ex. intros [[[[r a] fi] s] o].
  eapply hoare_tbind; [apply (hoare_base_read on o); by intros d [= _ _ _ _ <-]|].
  intros on'. apply hoare_pure. intros ->. destruct o; [apply apply_ranking_hoare|apply show_all_hoare].
Qed.

(** A new ranking, put in place of one the shared sets agree with. *)
Lemma reindex_inv ranked w : settled w → inv (snd (reindex ranked w)).
Proof.
  intros [Hw Hr Hon Hoff]. split; simpl; try apply Hw.
  - intros e He Ho Hn. destruct (on (db w)) eqn:Hon'.
    + destruct (Hon eq_refl) as [Ha _]. apply (Hr e He), admitted_true. right.
      unfold in_new. rewrite <- Ha. exact Ho.
    + by apply (i_unfiltered _ Hw (Hoff eq_refl)).
  - intros Ho Hs e He Hno _ Hp. destruct (Hon Ho) as [Ha _].
    apply Hno. unfold in_old. simpl. rewrite Ha. apply (admitted_on _ _ Ho). by apply (Hr e He).
Qed.

Lemma publish_hoare fuel ranked :
  hoare other inv inv (publish fuel ranked) (λ b w, if (b : bool) then settled w else inv w).
Proof.
  eapply hoare_tbind; [apply reconcile_hoare|]. intros [|]; cbn beta.
  - eapply (hoare_tbind _ _ _ _ _ (λ _, inv)).
    + apply hoare_call; [apply settled_stable|by intros w []|intros; apply inv_stable|done|].
      intros w. apply reindex_inv.
    + intros []. apply reconcile_hoare.
  - apply hoare_done; [apply inv_stable|done].
Qed.

(** ** The filter over time *)

Inductive history : World → World → Prop :=
  | h_write w w' : other w w' → history w w'
  | h_switch_on w : history w (snd (switch true w))
  | h_switch_off w : history w (snd (switch false w))
  | h_reconcile w fuel o w' : runs other (reconcile fuel) w o w' → history w w'
  | h_publish w fuel ranked o w' : runs other (publish fuel ranked) w o w' → history w w'.

(** The filter was switched on again after a stored switch-off that no run has begun to apply:
    posts written meanwhile went to the shared sets whoever wrote them, and nothing takes them
    out ([Example_filter.unranked_post_stays]). *)
Definition switched_back_early (w w' : World) : Prop :=
  on (db w) = false ∧ filtered (db w) = true ∧ showing (db w) = false ∧ on (db w') = true.

(** Before the filter was ever used. *)
Definition fresh (w : World) : Prop :=
  keys (db w) = (∅, ∅, false, false, false) ∧ posts_ok (posts (db w))
  ∧ (∀ e, e ∈ written w → entry_of (posts (db w)) e)
  ∧ ∀ e, present (db w) e ↔ e ∈ written w.

Lemma fresh_inv w : fresh w → inv w.
Proof.
  intros (Hk & Hp & Hc & Hpr). unfold keys in Hk. injection Hk as Hr Ha Hf Hs Ho.
  split; [done|done|apply Hpr|intros _; split_and!; [done..|apply Hpr]| |congruence].
  intros e He _ _. by apply Hpr.
Qed.

Lemma switch_on_inv w :
  on (db w) = true ∨ filtered (db w) = false ∨ showing (db w) = true →
  inv w → inv (snd (switch true w)).
Proof.
  intros Hcase Hw. split; simpl; try apply Hw; [done|].
  intros _ Hs e He Hno Hnn. destruct Hcase as [Ho|[Hf|?]]; [|exfalso|congruence].
  - by apply (i_hidden _ Hw Ho Hs e He).
  - destruct (i_unfiltered _ Hw Hf) as (_ & Ha & _). apply Hno. by left.
Qed.

Lemma history_inv w w' :
  history w w' → ¬ switched_back_early w w' → inv w → inv w'.
Proof.
  unfold switched_back_early.
  intros [? ? Hstep|v|?|? ? ? ? Hruns|? ? ? ? ? Hruns] Hearly Hw.
  - by eapply inv_stable.
  - apply switch_on_inv; [|done]. simpl in Hearly.
    destruct (on (db v)), (filtered (db v)), (showing (db v)); naive_solver.
  - split; simpl; try apply Hw; [|done]. intros Hf.
    destruct (i_unfiltered _ Hw Hf) as (_ & ? & ? & ?). done.
  - by eapply reconcile_hoare.
  - by eapply publish_hoare.
Qed.

(** C5: whatever rankings were published and switches toggled, with any of those runs cut
    short anywhere and posts indexed all along, once a run of the reconciliation (or of a
    publication) ends, the shared sets hold exactly the entries of the authors the filter
    admits: everybody's when it is off or there is no ranking, else those of the ranked
    authors; and a filter that is off leaves no record of hiding. The one history it does not
    cover is switching the filter back on after a stored switch-off that no run has begun to
    apply, where posts written in between stay shown. *)
Theorem trust_filter_converges w0 w w' t fuel :
  fresh w0 → rtc (λ x y, history x y ∧ ¬ switched_back_early x y) w0 w →
  t = reconcile fuel ∨ (∃ ranked, t = publish fuel ranked) →
  runs other t w (Some true) w' →
  (∀ e, e ∈ written w' →
     present (db w') e ↔
       on (db w') = false ∨ ranking (db w') = ∅ ∨ eauthor e ∈ ranking (db w'))
  ∧ (on (db w') = true → applied (db w') = ranking (db w'))
  ∧ (on (db w') = false → filtered (db w') = false).
Proof.
  intros Hfresh Hhist Ht Hruns. assert (inv w) as Hw.
  { apply fresh_inv in Hfresh. clear Ht Hruns. induction Hhist as [|? ? ? []]; eauto using history_inv. }
  assert (settled w') as [_ Hr Hon Hoff].
  { destruct Ht as [->|[ranked ->]].
    - by apply (proj2 (reconcile_hoare fuel w (Some true) w' Hw Hruns) true).
    - by apply (proj2 (publish_hoare fuel ranked w (Some true) w' Hw Hruns) true). }
  split_and!; [|by intros [? _]%Hon|done]. intros e He. specialize (Hr e He). unfold right in Hr.
  by rewrite Hr, admitted_true.
Qed.

(** ** Runs end *)

Definition keeps_posts {A} (t : thread World A) : Prop :=
  ∀ w, posts (db (snd (run_thread t w))) = posts (db w).

Lemma keeps_posts_tbind {A B} (t : thread World A) (k : A → thread World B) :
  keeps_posts t → (∀ a, keeps_posts (k a)) → keeps_posts (tbind t k).
Proof.
  intros Ht Hk w. rewrite run_thread_tbind. specialize (Ht w).
  destruct (run_thread t w) as [a w1]. simpl in *. by rewrite Hk.
Qed.

Lemma keeps_posts_each {X} (f : X → thread World unit) l :
  (∀ x, keeps_posts (f x)) → keeps_posts (each f l).
Proof. intros Hf. induction l; simpl; [done|]. apply keeps_posts_tbind; auto. Qed.

Lemma write_entries_posts wr l : keeps_posts (write_entries wr l).
Proof.
  apply keeps_posts_each. intros [key entries]. apply keeps_posts_each. intros batch w. simpl.
  destruct wr; simpl; unfold on_db, issue_add.
  - destruct (REMOVE_keys key batch.*2 (db w)) as [_ Hp].
    by destruct (REMOVE key batch.*2 (db w)).
  - change (posts (snd (ADD key batch (db w))) = posts (db w)). apply ADD_keys.
Qed.

(** How many posts of the author are left after the cursor. *)
Definition left_after (a : string) (cur : Position) (ps : list AuthorPost) : nat :=
  length (filter (λ p, author p = a ∧ pos_lt cur (position p)) ps).

Lemma pos_lt_trans x y z : pos_lt x y → pos_lt y z → pos_lt x z.
Proof.
  intros [Hxy Hne] [Hyz _]. split; [by etrans|]. intros <-. apply Hne.
  destruct x as [x s], y as [y t]. unfold pos_le in *. simpl in *.
  destruct Hxy as [?|[-> Hst]], Hyz as [?|[? Hts]]; try lia. f_equal. by apply (anti_symm str_le).
Qed.

Lemma length_filter_lt {A} (P Q : A → Prop) `{∀ x, Decision (P x), ∀ x, Decision (Q x)} l x :
  (∀ y, Q y → P y) → x ∈ l → P x → ¬ Q x → (length (filter Q l) < length (filter P l))%nat.
Proof.
  intros HQP Hx HPx HQx. assert (∀ l', (length (filter Q l') ≤ length (filter P l'))%nat) as Hle.
  { intros l'. induction l' as [|y l' IH]; [done|]. rewrite !filter_cons.
    repeat case_decide; simpl; try lia. naive_solver. }
  induction l as [|y l IH]; [by apply not_elem_of_nil in Hx|]. rewrite !filter_cons.
  apply elem_of_cons in Hx as [<-|Hx].
  - rewrite (decide_True (P := P x)), (decide_False (P := Q x)) by done. simpl. specialize (Hle l). lia.
  - specialize (IH Hx). repeat case_decide; simpl; try lia. naive_solver.
Qed.

Lemma write_pages_ends fuel a wr n cur w :
  (left_after a cur (posts (db w)) < fuel)%nat →
  fst (run_thread (write_pages fuel a wr n cur) w) = true
  ∧ posts (db (snd (run_thread (write_pages fuel a wr n cur) w))) = posts (db w).
Proof.
  revert cur w. induction fuel as [|fuel IH]; intros cur w Hlt; [lia|].
  cbn [write_pages call tbind run_thread read]. rewrite run_thread_tbind.
  set (page := (author_post_entries a cur n ∘ posts) (db w)).
  pose proof (write_entries_posts wr (shared_entries page) w) as Hposts.
  destruct (run_thread (write_entries wr (shared_entries page)) w) as [u w1]. simpl in Hposts.
  destruct (next_page page n) as [next|] eqn:Hnext; [|done].
  destruct (next_page_in _ _ _ Hnext) as (q & Hq & <-).
  apply page_after in Hq as (Hqp & Hqa & Hqc). rewrite <- Hposts. apply IH.
  rewrite Hposts. eapply Nat.lt_le_trans; [|apply (proj1 (Nat.lt_succ_r _ _)), Hlt].
  apply (length_filter_lt _ _ _ q); [|done|done|].
  - intros y [Hy Hyc]. split; [done|]. by eapply pos_lt_trans.
  - intros [_ [_ Hne]]. done.
Qed.

Lemma write_all_ends fuel authors w :
  (length (posts (db w)) < fuel)%nat → fst (run_thread (write_all fuel authors) w) = true.
Proof.
  revert w. induction authors as [|[a wr] authors IH]; intros w Hlt; [done|].
  cbn [write_all]. rewrite run_thread_tbind.
  destruct (write_pages_ends fuel a wr POSTS_PAGE (i64_min, "") w) as [Hb Hp].
  { eapply Nat.le_lt_trans; [|exact Hlt]. apply length_filter. }
  destruct (run_thread (write_pages _ _ _ _ _) w) as [b w1]. simpl in *. subst b.
  apply IH. by rewrite Hp.
Qed.

(** A thread whose result is [true] wherever it starts with these posts. *)
Definition ends (ps : list AuthorPost) (t : thread World bool) : Prop :=
  ∀ w, posts (db w) = ps → fst (run_thread t w) = true.

Lemma ends_tbind {A} ps (t : thread World A) k :
  keeps_posts t → (∀ a, ends ps (k a)) → ends ps (tbind t k).
Proof.
  intros Ht Hk w Hw. rewrite run_thread_tbind. specialize (Ht w).
  destruct (run_thread t w) as [a w1]. simpl in Ht. apply Hk. congruence.
Qed.

Lemma keeps_posts_call {A : Set} (p : prog World A) :
  (∀ w, posts (db (snd (p w))) = posts (db w)) → keeps_posts (call p).
Proof. intros Hp w. simpl. specialize (Hp w). by destruct (p w). Qed.

Lemma write_pages_posts fuel a wr n cur : keeps_posts (write_pages fuel a wr n cur).
Proof.
  revert cur. induction fuel as [|fuel IH]; intros cur; [done|]. cbn [write_pages].
  apply keeps_posts_tbind; [by apply keeps_posts_call|]. intros page.
  apply keeps_posts_tbind; [apply write_entries_posts|]. intros _.
  by destruct (next_page page n).
Qed.

Lemma write_all_posts fuel authors : keeps_posts (write_all fuel authors).
Proof.
  induction authors as [|[a wr] authors IH]; [done|]. cbn [write_all].
  apply keeps_posts_tbind; [apply write_pages_posts|]. by intros [].
Qed.

Lemma ends_write_authors ps fuel hide show (rest : thread World bool) :
  (length ps < fuel)%nat → ends ps rest →
  ends ps (do* finished := write_authors fuel hide show in
           if (finished : bool) then rest else Done false).
Proof.
  intros Hlt Hrest w Hw. unfold write_authors. rewrite run_thread_tbind.
  set (authors := _ ++ _). pose proof (write_all_ends fuel authors w) as Hb.
  pose proof (write_all_posts fuel authors w) as Hp.
  destruct (run_thread (write_all fuel authors) w) as [b w1]. simpl in *.
  rewrite Hb by congruence. apply Hrest. congruence.
Qed.

Lemma changes_posts (s : bool) ap rk :
  keeps_posts (match s, rk with
               | true, Some rk => changes_after_showing ap rk
               | _, _ => rank_changes ap rk
               end).
Proof. destruct s, ap, rk; try done; by apply keeps_posts_tbind; [apply keeps_posts_call|]. Qed.

(** left to itself, a reconciliation ends, whatever the state of the filter: each page
    it reads starts after the one before it, so it reads at most as many pages as there
    are posts. *)
Theorem reconcile_ends fuel w :
  (length (posts (db w)) < fuel)%nat → fst (run_thread (reconcile fuel) w) = true.
Proof.
  intros Hlt. assert (ends (posts (db w)) (reconcile fuel)) as Hends; [|by apply Hends].
  unfold reconcile. apply ends_tbind; [by apply keeps_posts_call|]. intros [|].
  - unfold apply_ranking. do 4 (apply ends_tbind; [by apply keeps_posts_call|]; intros ?).
    case_decide; [by intros ? _|]. apply ends_tbind; [apply changes_posts|]. intros changes.
    apply ends_write_authors; [done|].
    do 2 (apply ends_tbind; [by apply keeps_posts_call|]; intros ?). by intros ? _.
  - unfold show_all. do 2 (apply ends_tbind; [by apply keeps_posts_call|]; intros ?).
    destruct (negb _ && _); [by intros ? _|].
    do 2 (apply ends_tbind; [by apply keeps_posts_call|]; intros ?).
    apply ends_tbind; [by repeat case_match; try apply keeps_posts_call|]. intros show.
    apply ends_write_authors; [done|].
    do 2 (apply ends_tbind; [by apply keeps_posts_call|]; intros ?). by intros ? _.
Qed.

(** ** Two authors, one of them ranked *)

Module Example_filter.
Definition post_by (a : string) : AuthorPost :=
  {| author := a; id := "1"; indexed_at := 7; is_reply := false; labels := ["x"];
     engagement := 2; mentions := 0 |}.

Definition empty : World :=
  {| db := {| ranking := ∅; applied := ∅; filtered := false; showing := false; on := false;
              shared := ∅; posts := [] |};
     written := ∅ |}.

Definition timeline : string := sorted_key POST_TIMELINE_KEY_PARTS.
Definition entry_by (a : string) : Entry := (timeline, a +:+ ":" +:+ "1").

(** Both index a post, *)
Definition indexed : World :=
  snd (issue_add timeline [(7, "a:1"); (7, "b:1")] (set_posts [post_by "a"; post_by "b"] empty)).
(** the filter is switched on, *)
Definition switched : World := snd (switch true indexed).
(** and a ranking without b is published. *)
Definition published : World := snd (run_thread (publish 5 {["a"]}) switched).

Lemma posts_ok_both : posts_ok [post_by "a"; post_by "b"].
Proof.
  split.
  - intros p [->|[->|[]%not_elem_of_nil]%elem_of_cons]%elem_of_cons;
      (split; [reflexivity|split; [left; reflexivity|discriminate]]).
  - intros p q [->|[->|[]%not_elem_of_nil]%elem_of_cons]%elem_of_cons
      [->|[->|[]%not_elem_of_nil]%elem_of_cons]%elem_of_cons; done.
Qed.

Lemma trust_filter_converges_witness :
  present (db published) (entry_by "a") ∧ ¬ present (db published) (entry_by "b").
Proof.
  destruct (trust_filter_converges empty switched published (publish 5 {["a"]}) 5) as (Hshown & _ & _).
  - split_and!; [reflexivity| |by intros e []%not_elem_of_empty|].
    + split; [by intros p []%not_elem_of_nil|by intros p q []%not_elem_of_nil].
    + intros e. split; [intros [? [=]]|by intros []%not_elem_of_empty].
  - apply (rtc_l _ _ indexed);
      [split; [|by intros (_ & [=] & _)]|apply rtc_once; split; [apply h_switch_on|by intros (_ & [=] & _)]].
    apply h_write, other_add; [by intros p []%not_elem_of_nil|apply posts_ok_both|].
    intros e [->|[->|[]%not_elem_of_nil]%elem_of_cons]%elem_of_cons;
      [exists (post_by "a")|exists (post_by "b")]; (split; [|left]).
    + left.
    + right. left.
  - right. exists {["a"]}. reflexivity.
  - pose proof (run_thread_runs other (publish 5 {["a"]}) switched) as Hruns.
    assert (fst (run_thread (publish 5 {["a"]}) switched) = true) as Htrue by (vm_compute; reflexivity).
    rewrite Htrue in Hruns. exact Hruns.
  - split.
    + apply Hshown; [apply (bool_decide_eq_true_1 _); vm_compute; reflexivity|].
      right. right. apply (bool_decide_eq_true_1 _). vm_compute. reflexivity.
    + intros Hb. apply Hshown in Hb; [|apply (bool_decide_eq_true_1 _); vm_compute; reflexivity].
      apply (bool_decide_eq_false_1 (on (db published) = false ∨ ranking (db published) = ∅
        ∨ eauthor (entry_by "b") ∈ ranking (db published))) in Hb; [done|]. vm_compute. reflexivity.
Defined.

Lemma reconcile_ends_witness : fst (run_thread (reconcile 5) published) = true.
Proof. apply reconcile_ends. vm_compute. lia. Defined.

(** What [switched_back_early] leaves open: b posts once more while the switch-off waits for a
    run, and the run after the switch-on finds the copy matching the ranking. *)
Definition posted_while_off : World :=
  snd (issue_add timeline [(8, "b:2")] (snd (switch false published))).

Lemma unranked_post_stays :
  fst (run_thread (reconcile 5) (snd (switch true posted_while_off))) = true
  ∧ present (db (snd (run_thread (reconcile 5) (snd (switch true posted_while_off)))))
      (timeline, "b:2").
Proof. split; [vm_compute; reflexivity|]. vm_compute. by eexists. Qed.
End Example_filter.
