(* ===== verification/PostStore.v ===== *)
(** * Posts: what the graph and Redis keep about them

    The records of nexus-common/src/models/post (details, relationships, counts,
    bookmarks), their queries and index operations, and the sorted sets of
    models/post/stream.rs. Every call may fail before or after it took effect. Keys of
    plain sorted sets are given by their parts; the sets every viewer shares are those of
    the trust filter, the user records those of the users component. A stored document
    reads back as it was written; documents that expire are not modelled. *)

From S2P Require Import Prelude Histories Threads Text Errors Users TrustFilter Graphs Events World Ranges Notifications.
Local Open Scope Z_scope.

Abbreviation PostKey := (string * string)%type.

(** ** The specs crate *)

(** Its [ParsedUri]. *)
Record ParsedUri := { uri_user : string; uri_target : Resource }.

Class PostSpecs := {
  Kind : Type;
  Kind_eq_dec :: EqDecision Kind;
  Short : Kind;
  Collection : Kind;
  UnknownKind : Kind;
  (** [ParsedUri::try_from] and [try_to_uri_str] *)
  parse_post_uri : string → result ParsedUri string;
  uri_str : ParsedUri → result string string;
  (** [Debug] of a [Resource] *)
  debug_resource : Resource → string;
  (** [PubkyId::to_uri], rendered *)
  user_uri_str : string → result string string;
  bookmark_uri_builder : string → string → string;
  (** [PubkyId::try_from] *)
  pubky_id : string → option string;
  (** the items of a [PubkyAppCollectionContent], read by serde *)
  collection_envelope : string → result (list string) string;
  (** serde's rendering of a notification *)
  body_json : NotificationBody Kind → result string string;
}.

(** ** Records *)

Section Records.
Context {SP : PostSpecs}.

(** The homeserver's [PubkyAppPost]; of its embed the address. *)
Record PubkyAppPost := {
  app_content : string;
  app_kind : Kind;
  app_parent : option string;
  app_embed : option string;
  app_attachments : option (list string);
  app_lock : option string;
}.

Record PostDetails := {
  content : string;
  id : string;
  indexed_at : Z;
  author : string;
  kind : Kind;
  uri : string;
  attachments : option (list string);
  lock : option string;
  deleted : bool;
}.

Record PostRelationships := {
  replied : option ParsedUri;
  reposted : option ParsedUri;
  mentioned : list string;
}.

Record PostCounts := { tags : Z; unique_tags : Z; replies : Z; reposts : Z; collections : Z }.

Record Bookmark := { bookmark_id : string; bookmarked_at : Z }.

Definition no_relationships : PostRelationships :=
  {| replied := None; reposted := None; mentioned := [] |}.

Definition no_counts : PostCounts :=
  {| tags := 0; unique_tags := 0; replies := 0; reposts := 0; collections := 0 |}.

(** [PostDetails::from_homeserver] *)
Definition from_homeserver (post : PubkyAppPost) (post_uri author_id post_id : string) (now : Z) :
    PostDetails :=
  {| content := app_content post; id := post_id; indexed_at := now; author := author_id;
     kind := app_kind post; uri := post_uri; attachments := app_attachments post;
     lock := app_lock post; deleted := false |}.

Definition content_differs_from (a b : PostDetails) : bool :=
  bool_decide (content a ≠ content b) || bool_decide (attachments a ≠ attachments b).

Definition is_different_than (a b : PostDetails) : bool :=
  content_differs_from a b || bool_decide (lock a ≠ lock b) || bool_decide (deleted a ≠ deleted b).

(** [PostRelationships::from_homeserver] *)
Definition relationships_from_homeserver (post : PubkyAppPost) : PostRelationships :=
  let parsed u := match parse_post_uri u with Ok p => Some p | Err _ => None end in
  {| replied := app_parent post ≫= parsed;
     reposted := app_embed post ≫= λ u,
       p ← parsed u; match uri_target p with Post _ => Some p | _ => None end;
     mentioned := [] |}.

(** ** The graph *)

(** What a tag points at; a resource's tags belong to an app. *)
Inductive Target :=
  | OnUser (user_id : string)
  | OnPost (post : PostKey)
  | OnResource (resource_id app : string).

#[export] Instance Target_eq_dec : EqDecision Target.
Proof. solve_decision. Defined.

#[export] Instance Target_countable : Countable Target.
Proof.
  apply (inj_countable'
    (λ t, match t with OnUser u => inl u | OnPost p => inr (inl p) | OnResource r a => inr (inr (r, a)) end)
    (λ x, match x with inl u => OnUser u | inr (inl p) => OnPost p | inr (inr (r, a)) => OnResource r a end)).
  by intros [].
Defined.

Record TagEdge := { tag_id : string; tag_uri : string; tagged_at : Z }.

Record ResourceNode := { resource_uri : string; scheme : string; resource_at : Z }.

(** A [Post] node and the edges that leave it. *)
Record PostNode := {
  details : PostDetails;
  replied_to : gset PostKey;
  reposted_of : gset PostKey;
  mentions : gset string;
  collected : gset PostKey;
}.

Record PostGraph := {
  posts : gmap PostKey PostNode;
  (** one edge per tagger, target and label *)
  tagged : gmap (string * Target * string) TagEdge;
  resources : gmap string ResourceNode;
  bookmarked : gmap (string * PostKey) Bookmark;
}.

(** ** Redis *)

Record PostCache := {
  details_docs : gmap PostKey PostDetails;
  relationships_docs : gmap PostKey PostRelationships;
  counts_docs : gmap PostKey PostCounts;
  bookmark_docs : gmap (PostKey * string) Bookmark;
  (** plain sorted sets, by the parts of their keys *)
  zsets : gmap (list string) (gmap string Z);
  (** [Post:Taggers:<author>:<post>:<label>] *)
  post_taggers : gmap (PostKey * string) (gset string);
}.

(** The user nodes and records are in [people], the shared sets in [gate]. *)
Record Stores := {
  people : Users.Db;
  gate : TrustFilter.Db;
  graph : PostGraph;
  cache : PostCache;
}.

Definition set_people (f : Users.Db → Users.Db) (s : Stores) : Stores :=
  {| people := f (people s); gate := gate s; graph := graph s; cache := cache s |}.
Definition set_gate (f : TrustFilter.Db → TrustFilter.Db) (s : Stores) : Stores :=
  {| people := people s; gate := f (gate s); graph := graph s; cache := cache s |}.
Definition set_graph (f : PostGraph → PostGraph) (s : Stores) : Stores :=
  {| people := people s; gate := gate s; graph := f (graph s); cache := cache s |}.
Definition set_cache (f : PostCache → PostCache) (s : Stores) : Stores :=
  {| people := people s; gate := gate s; graph := graph s; cache := f (cache s) |}.

Definition set_posts (f : gmap PostKey PostNode → gmap PostKey PostNode) : Stores → Stores :=
  set_graph (λ g, {| posts := f (posts g); tagged := tagged g; resources := resources g;
                     bookmarked := bookmarked g |}).
Definition set_tagged f : Stores → Stores :=
  set_graph (λ g, {| posts := posts g; tagged := f (tagged g); resources := resources g;
                     bookmarked := bookmarked g |}).
Definition set_resources f : Stores → Stores :=
  set_graph (λ g, {| posts := posts g; tagged := tagged g; resources := f (resources g);
                     bookmarked := bookmarked g |}).
Definition set_bookmarked f : Stores → Stores :=
  set_graph (λ g, {| posts := posts g; tagged := tagged g; resources := resources g;
                     bookmarked := f (bookmarked g) |}).

Definition set_details_docs f : Stores → Stores :=
  set_cache (λ c, {| details_docs := f (details_docs c); relationships_docs := relationships_docs c;
    counts_docs := counts_docs c; bookmark_docs := bookmark_docs c; zsets := zsets c;
    post_taggers := post_taggers c |}).
Definition set_relationships_docs f : Stores → Stores :=
  set_cache (λ c, {| details_docs := details_docs c; relationships_docs := f (relationships_docs c);
    counts_docs := counts_docs c; bookmark_docs := bookmark_docs c; zsets := zsets c;
    post_taggers := post_taggers c |}).
Definition set_counts_docs f : Stores → Stores :=
  set_cache (λ c, {| details_docs := details_docs c; relationships_docs := relationships_docs c;
    counts_docs := f (counts_docs c); bookmark_docs := bookmark_docs c; zsets := zsets c;
    post_taggers := post_taggers c |}).
Definition set_bookmark_docs f : Stores → Stores :=
  set_cache (λ c, {| details_docs := details_docs c; relationships_docs := relationships_docs c;
    counts_docs := counts_docs c; bookmark_docs := f (bookmark_docs c); zsets := zsets c;
    post_taggers := post_taggers c |}).
Definition set_zsets f : Stores → Stores :=
  set_cache (λ c, {| details_docs := details_docs c; relationships_docs := relationships_docs c;
    counts_docs := counts_docs c; bookmark_docs := bookmark_docs c; zsets := f (zsets c);
    post_taggers := post_taggers c |}).
Definition set_post_taggers f : Stores → Stores :=
  set_cache (λ c, {| details_docs := details_docs c; relationships_docs := relationships_docs c;
    counts_docs := counts_docs c; bookmark_docs := bookmark_docs c; zsets := zsets c;
    post_taggers := f (post_taggers c) |}).
End Records.

(** ** Calls *)

Inductive Trip (E : Type) := Served | Refused (e : E) | ReplyLost (e : E).
Arguments Served {E}.
Arguments Refused {E} _.
Arguments ReplyLost {E} _.

(** What the coming calls to each server will meet; past the end they are served. *)
Record Site {SP : PostSpecs} (W : Type) := {
  outside : W;
  stores : Stores;
  redis_trips : list (Trip Kv.RedisError);
  graph_trips : list (Trip Graph.GraphError);
}.
Arguments outside {SP W} _.
Arguments stores {SP W} _.
Arguments redis_trips {SP W} _.
Arguments graph_trips {SP W} _.

Section Calls.
Context {SP : PostSpecs} {W : Type} {CL : Clock W}.

(** A call on [s], and what it met. *)
Definition meet {A E} (f : prog Stores A) (trips : list (Trip E)) (s : Stores) :
    result A E * Stores * list (Trip E) :=
  let '(a, s') := f s in
  match trips with
  | [] => (Ok a, s', [])
  | Served :: trips => (Ok a, s', trips)
  | Refused e :: trips => (Err e, s, trips)
  | ReplyLost e :: trips => (Err e, s', trips)
  end.

Definition on_redis {A} (f : prog Stores A) : prog (Site W) (result A Kv.RedisError) := λ w,
  let '(r, s, trips) := meet f (redis_trips w) (stores w) in
  (r, {| outside := outside w; stores := s; redis_trips := trips; graph_trips := graph_trips w |}).

Definition on_graph {A} (f : prog Stores A) : prog (Site W) (result A Graph.GraphError) := λ w,
  let '(r, s, trips) := meet f (graph_trips w) (stores w) in
  (r, {| outside := outside w; stores := s; redis_trips := redis_trips w; graph_trips := trips |}).

Definition gets {A} (f : Stores → A) : prog Stores A := λ s, (f s, s).
Definition puts (f : Stores → Stores) : prog Stores unit := λ s, (tt, f s).

(** [Utc::now().timestamp_millis()] *)
Definition now : prog (Site W) Z := λ w,
  let '(t, o) := utc_now (outside w) in
  (timestamp_millis t,
   {| outside := o; stores := stores w; redis_trips := redis_trips w; graph_trips := graph_trips w |}).

(** [execute_graph_operation] *)
Definition execute_graph_operation (f : prog Stores (option bool)) :
    prog (Site W) (result OperationOutcome Graph.GraphError) :=
  (let? maybe_flag := on_graph f in ret (Ok (outcome_of_flag maybe_flag)))%nexus.

(** [traced_join!]: every arm is run, whatever the others answer; then the first error in
    their order. The arms touch different keys, so they are run in turn. *)
Fixpoint join_all {E} (arms : list (prog (Site W) (result unit E))) : prog (Site W) (result unit E) :=
  match arms with
  | [] => ret (Ok tt)
  | arm :: arms =>
      (let* r := arm in
       let* rest := join_all arms in
       ret match r with Ok _ => rest | Err e => Err e end)%nexus
  end.
End Calls.

(** ** What a program does to the stores, whatever its calls meet *)

Create HintDb keeps.

Section Does.
Context {SP : PostSpecs} {W : Type} {CL : Clock W}.
Local Open Scope nexus_scope.

(** From the stores [s]: [Q] of an [Ok] answer, [R] after an [Err]. *)
Definition does {A E} (m : prog (Site W) (result A E)) (s : Stores) (Q : A → Stores → Prop)
    (R : Stores → Prop) : Prop := does_on stores m s Q R.

Lemma does_run {A E} (m : prog (Site W) (result A E)) s Q R w r w' :
  does m s Q R → stores w = s → m w = (r, w') →
  match r with Ok a => Q a (stores w') | Err _ => R (stores w') end.
Proof. apply does_on_run. Qed.

Lemma does_ret {A E} (r : result A E) s (Q : A → Stores → Prop) (R : Stores → Prop) :
  match r with Ok a => Q a s | Err _ => R s end → does (ret r) s Q R.
Proof. apply does_on_ret. Qed.

Lemma does_ebind {A B E} (m : prog (Site W) (result A E)) (k : A → prog (Site W) (result B E)) s Q R :
  does m s (λ a s', does (k a) s' Q R) R → does (ebind m k) s Q R.
Proof. apply does_on_ebind. Qed.

Lemma does_emap_err {A E F} (f : E → F) (m : prog (Site W) (result A E)) s Q R :
  does m s Q R → does (emap_err f m) s Q R.
Proof. apply does_on_emap_err. Qed.

Lemma does_bind {A B E F} (m : prog (Site W) (result A E)) (k : result A E → prog (Site W) (result B F))
    s (Q : B → Stores → Prop) (R : Stores → Prop) :
  does m s (λ a s', does (k (Ok a)) s' Q R) (λ s', ∀ e, does (k (Err e)) s' Q R) →
  does (bind m k) s Q R.
Proof.
  intros Hm w Hw. apply yields_bind. intros r w' Hrun.
  pose proof (does_run _ _ _ _ _ _ _ Hm Hw Hrun) as Hk. destruct r as [a|e]; by apply Hk.
Qed.

Lemma does_now {B E} (k : Z → prog (Site W) (result B E)) s Q R :
  (∀ t, does (k t) s Q R) → does (bind now k) s Q R.
Proof.
  intros Hk w Hw. apply yields_bind. intros t w' Hnow. apply Hk.
  unfold now in Hnow. destruct (utc_now _). by injection Hnow as _ <-.
Qed.

Lemma does_redis {A} (f : prog Stores A) s (Q : A → Stores → Prop) (R : Stores → Prop) :
  Q (fst (f s)) (snd (f s)) → R s → R (snd (f s)) → does (on_redis f) s Q R.
Proof.
  intros HQ HR HR' w <-. unfold yields, on_redis, meet. destruct (f (stores w)) as [a s'].
  destruct (redis_trips w) as [|[|e|e] ts]; done.
Qed.

Lemma does_graph {A} (f : prog Stores A) s (Q : A → Stores → Prop) (R : Stores → Prop) :
  Q (fst (f s)) (snd (f s)) → R s → R (snd (f s)) → does (on_graph f) s Q R.
Proof.
  intros HQ HR HR' w <-. unfold yields, on_graph, meet. destruct (f (stores w)) as [a s'].
  destruct (graph_trips w) as [|[|e|e] ts]; done.
Qed.

Lemma does_execute (f : prog Stores (option bool)) s (Q : OperationOutcome → Stores → Prop)
    (R : Stores → Prop) :
  Q (outcome_of_flag (fst (f s))) (snd (f s)) → R s → R (snd (f s)) →
  does (execute_graph_operation f) s Q R.
Proof. intros HQ HR HR'. apply does_ebind, does_graph; [|done..]. by apply does_ret. Qed.

Lemma does_mono {A E} (m : prog (Site W) (result A E)) s (Q Q' : A → Stores → Prop) (R R' : Stores → Prop) :
  does m s Q R → (∀ a s', Q a s' → Q' a s') → (∀ s', R s' → R' s') → does m s Q' R'.
Proof. apply does_on_mono. Qed.

Lemma does_join_nil {E} s (Q : unit → Stores → Prop) (R : Stores → Prop) :
  Q tt s → does (join_all (E:=E) []) s Q R.
Proof. intros. by apply does_ret. Qed.

(** An arm that fails does not stop the others. *)
Lemma does_join_cons {E} (arm : prog (Site W) (result unit E)) arms s (Q : unit → Stores → Prop)
    (R : Stores → Prop) :
  does arm s (λ _ s', does (join_all arms) s' Q R) (λ s', does (join_all arms) s' (λ _, R) R) →
  does (join_all (arm :: arms)) s Q R.
Proof.
  intros Harm. cbn [join_all]. apply does_bind. eapply does_mono; [exact Harm|..].
  - intros [] s' Hrest. apply does_bind. eapply does_mono; [exact Hrest|..].
    + intros [] s'' HQ. by apply does_ret.
    + intros s'' HR e. by apply does_ret.
  - intros s' Hrest e. apply does_bind. eapply does_mono; [exact Hrest|..].
    + intros [] s'' HR. by apply does_ret.
    + intros s'' HR e'. by apply does_ret.
Qed.

(** *** Invariants of a program *)

Context (P : Stores → Prop).

Definition keeps {A E} (m : prog (Site W) (result A E)) : Prop := ∀ s, P s → does m s (λ _, P) P.

Lemma keeps_ret {A E} (r : result A E) : keeps (ret r).
Proof. intros s Hs. apply does_ret. by destruct r. Qed.

Lemma keeps_ebind {A B E} (m : prog (Site W) (result A E)) (k : A → prog (Site W) (result B E)) :
  keeps m → (∀ a, keeps (k a)) → keeps (ebind m k).
Proof.
  intros Hm Hk s Hs. apply does_ebind. eapply does_mono; [by apply Hm|intros a s' Hs'; by apply Hk|done].
Qed.

Lemma keeps_emap_err {A E F} (f : E → F) (m : prog (Site W) (result A E)) : keeps m → keeps (emap_err f m).
Proof. intros Hm s Hs. by apply does_emap_err, Hm. Qed.

Lemma keeps_bind {A B E F} (m : prog (Site W) (result A E)) (k : result A E → prog (Site W) (result B F)) :
  keeps m → (∀ r, keeps (k r)) → keeps (bind m k).
Proof.
  intros Hm Hk s Hs. apply does_bind. eapply does_mono; [by apply Hm|..].
  - intros a s' Hs'. by apply Hk.
  - intros s' Hs' e. by apply Hk.
Qed.

Lemma keeps_now {B E} (k : Z → prog (Site W) (result B E)) : (∀ t, keeps (k t)) → keeps (bind now k).
Proof. intros Hk s Hs. apply does_now. intros t. by apply Hk. Qed.

Lemma keeps_redis {A} (f : prog Stores A) : (∀ s, P s → P (snd (f s))) → keeps (on_redis f).
Proof. intros Hf s Hs. apply does_redis; auto. Qed.

Lemma keeps_graph {A} (f : prog Stores A) : (∀ s, P s → P (snd (f s))) → keeps (on_graph f).
Proof. intros Hf s Hs. apply does_graph; auto. Qed.

Lemma keeps_gets_redis {A} (f : Stores → A) : keeps (on_redis (gets f)).
Proof. by apply keeps_redis. Qed.

Lemma keeps_gets_graph {A} (f : Stores → A) : keeps (on_graph (gets f)).
Proof. by apply keeps_graph. Qed.

Lemma keeps_execute (f : prog Stores (option bool)) :
  (∀ s, P s → P (snd (f s))) → keeps (execute_graph_operation f).
Proof. intros Hf. apply keeps_ebind; [by apply keeps_graph|intros; apply keeps_ret]. Qed.

Lemma keeps_join {E} (arms : list (prog (Site W) (result unit E))) :
  Forall keeps arms → keeps (join_all arms).
Proof.
  induction 1 as [|arm arms Harm _ IH]; [apply keeps_ret|]. cbn [join_all].
  apply keeps_bind; [done|]. intros r. apply keeps_bind; [done|]. intros. apply keeps_ret.
Qed.

Lemma keeps_if {A E} (b : bool) (m m' : prog (Site W) (result A E)) :
  keeps m → keeps m' → keeps (if b then m else m').
Proof. by destruct b. Qed.

Lemma keeps_does {A E} (m : prog (Site W) (result A E)) s (Q : A → Stores → Prop) (R : Stores → Prop) :
  keeps m → P s → (∀ a s', P s' → Q a s') → (∀ s', P s' → R s') → does m s Q R.
Proof. intros Hm Hs HQ HR. eapply does_mono; [by apply Hm|auto|auto]. Qed.
End Does.

Section Join.
Context {SP : PostSpecs} {W : Type} {CL : Clock W}.

(** An arm of a join takes [P] to [P']. *)
Lemma does_join_arm {E} (arm : prog (Site W) (result unit E)) arms s (P' : Stores → Prop)
    (Q : unit → Stores → Prop) (R : Stores → Prop) :
  does arm s (λ _, P') R → (∀ s', P' s' → does (join_all arms) s' Q R) → keeps R (join_all arms) →
  does (join_all (arm :: arms)) s Q R.
Proof.
  intros Harm Hrest HR. apply does_join_cons. eapply does_mono; [exact Harm|auto|].
  intros s' Hs'. by apply HR.
Qed.
End Join.

#[export] Hint Resolve keeps_ret keeps_ebind keeps_emap_err keeps_bind keeps_now keeps_gets_redis
  keeps_gets_graph keeps_if : keeps.

(** Splits a program that keeps a property down to its calls. *)
Ltac keeps_step :=
  match goal with
  | |- keeps _ (ret _) => apply keeps_ret
  | |- keeps _ (ebind _ _) => apply keeps_ebind; [|intros ?]
  | |- keeps _ (emap_err _ _) => apply keeps_emap_err
  | |- keeps _ (bind now _) => apply keeps_now; intros ?
  | |- keeps _ (bind _ _) => apply keeps_bind; [|intros ?]
  | |- keeps _ (on_redis (gets _)) => apply keeps_gets_redis
  | |- keeps _ (on_graph (gets _)) => apply keeps_gets_graph
  | |- keeps _ (join_all _) => apply keeps_join; repeat (apply Forall_cons_2 || apply Forall_nil_2)
  | |- keeps _ (match ?x with _ => _ end) => destruct x
  end.
Ltac keeps_tac := repeat (keeps_step || by eauto with keeps).

(** ** A small world *)

(** Addresses are [<user>] and [<user>/<post>]; a tick of the clock is a millisecond. *)
Module Small_world.

Definition parse (u : string) : result ParsedUri string :=
  match split_once (Ascii.ascii_of_N 47) u with
  | Some (a, p) => Ok {| uri_user := a; uri_target := Post p |}
  | None => if bool_decide (u = "") then Err "empty" else Ok {| uri_user := u; uri_target := User |}
  end.

Definition render (p : ParsedUri) : result string string :=
  match uri_target p with
  | Post post_id => Ok (uri_user p +:+ "/" +:+ post_id)
  | User => Ok (uri_user p)
  | _ => Err "not a user or a post"
  end.

#[export] Instance specs : PostSpecs := {
  Kind := nat; Short := 0%nat; Collection := 1%nat; UnknownKind := 2%nat;
  parse_post_uri := parse; uri_str := render; debug_resource := λ _, "resource";
  user_uri_str := Ok; bookmark_uri_builder := λ u b, u +:+ "/bookmarks/" +:+ b;
  pubky_id := λ u, if bool_decide (u = "") then None else Some u;
  collection_envelope := λ c, Ok [c];
  body_json := λ _, Ok "notification";
}.

#[export] Instance clock : Clock Z := {
  DateTime := Z; utc_now := λ n, (n, n + 1); timestamp_millis := λ n, n;
  timestamp_nanos_opt := λ _, None; instant_now := λ n, (n, n);
}.

Definition user (name_ : string) : Users.UserNode := {|
  Users.details := {| Users.name := name_; Users.bio := None; Users.id := name_; Users.links := None;
    Users.status := None; Users.image := None; Users.indexed_at := 0; Users.deleted := false; Users.epoch := Users.V1 |};
  Users.uri := None |}.

Definition with_users (us : list string) : Users.Db := {|
  Users.nodes := list_to_map ((λ u, (u, user u)) <$> us);
  Users.related := ∅; Users.cache := ∅; Users.names := ∅;
  Users.ids := ∅; Users.user_tags := ∅; Users.taggers := ∅; Users.by_label := ∅ |}.

Definition no_gate : TrustFilter.Db := {| ranking := ∅; applied := ∅; filtered := false; showing := false;
  on := false; shared := ∅; TrustFilter.posts := [] |}.

Definition no_posts : PostGraph := {| posts := ∅; tagged := ∅; resources := ∅; bookmarked := ∅ |}.

Definition no_cache : PostCache := {| details_docs := ∅; relationships_docs := ∅; counts_docs := ∅;
  bookmark_docs := ∅; zsets := ∅; post_taggers := ∅ |}.

Definition site (s : Stores) redis graph : Site Z :=
  {| outside := 100; stores := s; redis_trips := redis; graph_trips := graph |}.
End Small_world.
