(* ===== verification/PostIndex.v ===== *)
(** * Posts: their index operations, queries and notifications

    models/post/details.rs, relationships.rs, counts.rs, stream.rs, search.rs and
    collection.rs, the senders of models/notification/mod.rs, and the queries they run
    (db/graph/queries), over the stores of the previous file. *)

From S2P Require Import Prelude Threads Errors Users TrustFilter Graphs Events World Ranges Notifications PostStore.
Local Open Scope Z_scope.
Local Open Scope nexus_scope.

Inductive ScoreAction := Increment (value : Z) | Decrement (value : Z).

Definition delta_of (action : ScoreAction) : Z :=
  match action with Increment value => value | Decrement value => - value end.

Section PostIndex.
Context {SP : PostSpecs} {W : Type} {CL : Clock W}.
Abbreviation KV A := (prog (Site W) (result A Kv.RedisError)).
Abbreviation GR A := (prog (Site W) (result A Graph.GraphError)).
Abbreviation MO A := (prog (Site W) (result A Model.ModelError)).
Abbreviation EP A := (prog (Site W) (result A Ep.EventProcessorError)).

Definition post_member (author_id post_id : string) : string := author_id +:+ ":" +:+ post_id.

(** ** Plain sorted sets *)

Definition zset_of (key : list string) (s : Stores) : gmap string Z := default ∅ (zsets (cache s) !! key).

Definition update_zset (key : list string) (f : gmap string Z → gmap string Z) : Stores → Stores :=
  λ s, set_zsets (λ m, <[key := f (zset_of key s)]> m) s.

(** [put_index_sorted_set] *)
Definition zset_put (key : list string) (elements : list (Z * string)) : KV unit :=
  match elements with
  | [] => ret (Ok tt)
  | _ => on_redis (puts (update_zset key (λ z, foldl (λ z '(score, m), <[m := score]> z) z elements)))
  end.

(** [add_index_sorted_set_if_absent] *)
Definition zset_put_once (key : list string) (score : Z) (m : string) : KV unit :=
  on_redis (puts (update_zset key (λ z, if decide (is_Some (z !! m)) then z else <[m := score]> z))).

(** [put_score_index_sorted_set] *)
Definition zset_incr (key : list string) (m : string) (action : ScoreAction) : KV unit :=
  on_redis (puts (update_zset key (λ z, <[m := as_f64 (default 0 (z !! m) + delta_of action)]> z))).

(** [remove_from_index_sorted_set] *)
Definition zset_remove (key : list string) (items : list string) : KV unit :=
  match items with
  | [] => ret (Ok tt)
  | _ => on_redis (puts (update_zset key (λ z, foldl (λ z m, delete m z) z items)))
  end.

(** ** The shared sets, behind the trust filter *)

Fixpoint trust_batches (key : string) (batches : list (list (Z * string))) : KV unit :=
  match batches with
  | [] => ret (Ok tt)
  | batch :: batches =>
      let? _ := on_redis (λ s, let '(n, d) := ADD key batch (gate s) in (n, set_gate (λ _, d) s)) in
      trust_batches key batches
  end.

(** [trust_filter::add] *)
Definition trust_add (key_parts : list string) (entries : list (Z * string)) : KV unit :=
  trust_batches (sorted_key key_parts) (chunks BATCH entries).

(** [trust_filter::incr] *)
Definition trust_incr (key_parts : list string) (author_id post_id : string) (action : ScoreAction) :
    KV unit :=
  let? _ := on_redis (λ s,
    let '(n, d) := INCR (sorted_key key_parts) (delta_of action) (post_member author_id post_id) (gate s) in
    (n, set_gate (λ _, d) s)) in
  ret (Ok tt).

Definition shared_remove (key_parts : list string) (items : list string) : KV unit :=
  match items with
  | [] => ret (Ok tt)
  | _ => on_redis (puts (set_gate (ZREM (sorted_key key_parts) items)))
  end.

(** [check_sorted_set_member] *)
Definition shared_score (key_parts : list string) (m : string) : KV (option Z) :=
  on_redis (gets (λ s, TrustFilter.zset (sorted_key key_parts) (gate s) !! m)).

(** ** PostStream *)

Definition POST_PER_USER_KEY_PARTS : list string := ["Posts"; "AuthorParents"].
Definition POST_REPLIES_PER_USER_KEY_PARTS : list string := ["Posts"; "AuthorReplies"].
Definition POST_REPLIES_PER_POST_KEY_PARTS : list string := ["Posts"; "PostReplies"].
Definition BOOKMARKS_USER_KEY_PARTS : list string := ["Bookmarks"; "User"].

Definition add_to_timeline_sorted_set (d : PostDetails) : KV unit :=
  trust_add POST_TIMELINE_KEY_PARTS
    [(as_f64 (indexed_at d), post_member (author d) (id d))].

Definition remove_from_timeline_sorted_set (author_id post_id : string) : KV unit :=
  shared_remove POST_TIMELINE_KEY_PARTS [post_member author_id post_id].

Definition add_to_per_user_sorted_set (d : PostDetails) : KV unit :=
  zset_put (POST_PER_USER_KEY_PARTS ++ [author d]) [(as_f64 (indexed_at d), id d)].

Definition remove_from_per_user_sorted_set (author_id post_id : string) : KV unit :=
  zset_remove (POST_PER_USER_KEY_PARTS ++ [author_id]) [post_id].

Definition add_to_post_reply_sorted_set (parent : PostKey) (author_id reply_id : string) (at_ : Z) :
    KV unit :=
  zset_put (POST_REPLIES_PER_POST_KEY_PARTS ++ [fst parent; snd parent])
    [(as_f64 at_, post_member author_id reply_id)].

Definition remove_from_post_reply_sorted_set (parent : PostKey) (author_id reply_id : string) : KV unit :=
  zset_remove (POST_REPLIES_PER_POST_KEY_PARTS ++ [fst parent; snd parent])
    [post_member author_id reply_id].

Definition add_to_replies_per_user_sorted_set (d : PostDetails) : KV unit :=
  zset_put (POST_REPLIES_PER_USER_KEY_PARTS ++ [author d]) [(as_f64 (indexed_at d), id d)].

Definition remove_from_replies_per_user_sorted_set (author_id post_id : string) : KV unit :=
  zset_remove (POST_REPLIES_PER_USER_KEY_PARTS ++ [author_id]) [post_id].

Definition add_to_bookmarks_sorted_set (b : Bookmark) (bookmarker_id post_id author_id : string) :
    KV unit :=
  zset_put (BOOKMARKS_USER_KEY_PARTS ++ [bookmarker_id])
    [(as_f64 (bookmarked_at b), post_member author_id post_id)].

Definition remove_from_bookmarks_sorted_set (bookmarker_id post_id author_id : string) : KV unit :=
  zset_remove (BOOKMARKS_USER_KEY_PARTS ++ [bookmarker_id]) [post_member author_id post_id].

Definition add_to_engagement_sorted_set (c : PostCounts) (author_id post_id : string) : KV unit :=
  let score := wrap_u32 (wrap_u32 (tags c + replies c) + reposts c) in
  trust_add POST_TOTAL_ENGAGEMENT_KEY_PARTS [(score, post_member author_id post_id)].

Definition delete_from_engagement_sorted_set (author_id post_id : string) : KV unit :=
  shared_remove POST_TOTAL_ENGAGEMENT_KEY_PARTS [post_member author_id post_id].

(** [PostStream::update_index_score] *)
Definition stream_update_index_score (author_id post_id : string) (action : ScoreAction) : KV unit :=
  trust_incr POST_TOTAL_ENGAGEMENT_KEY_PARTS author_id post_id action.

(** ** PostCounts *)

Definition counts_get_from_index (author_id post_id : string) : KV (option PostCounts) :=
  on_redis (gets (λ s, counts_docs (cache s) !! (author_id, post_id))).

(** How many of the keys [k] the map holds satisfy [P]. *)
Definition count_keys {K A} `{Countable K} (P : K → Prop) `{∀ k, Decision (P k)} (m : gmap K A) : Z :=
  Z.of_nat (size (filter P (dom m))).

Definition tag_labels (k : PostKey) (g : PostGraph) : gset string :=
  list_to_set (omap (λ '(_, t, label), if decide (t = OnPost k) then Some label else None)
                 (elements (dom (tagged g)))).

Definition count_posts (P : PostNode → Prop) `{∀ n, Decision (P n)} (g : PostGraph) : Z :=
  Z.of_nat (size (filter (λ '(_, n), P n) (posts g))).

(** [post_counts]: the counts and whether the post is a reply. *)
Definition post_counts (k : PostKey) (s : Stores) : option (PostCounts * bool) :=
  let g := graph s in
  node ← posts g !! k;
  Some ({| tags := count_keys (λ '(_, t, _), t = OnPost k) (tagged g);
           unique_tags := Z.of_nat (size (tag_labels k g));
           replies := count_posts (λ n, k ∈ replied_to n) g;
           reposts := count_posts (λ n, k ∈ reposted_of n) g;
           collections := count_posts (λ n, k ∈ collected n) g |},
        bool_decide (replied_to node ≠ ∅)).

Definition counts_get_from_graph (author_id post_id : string) : GR (option (PostCounts * bool)) :=
  on_graph (gets (post_counts (author_id, post_id))).

Definition cache_json (c : PostCounts) (author_id post_id : string) : KV unit :=
  on_redis (puts (set_counts_docs <[(author_id, post_id) := c]>)).

Definition counts_put_to_index (c : PostCounts) (author_id post_id : string) (is_reply : bool) : KV unit :=
  let? _ := cache_json c author_id post_id in
  if is_reply then ret (Ok tt) else add_to_engagement_sorted_set c author_id post_id.

(** [PostCounts::invalidate] *)
Definition invalidate (author_id post_id : string) : KV unit :=
  on_redis (puts (set_counts_docs (delete (author_id, post_id)))).

Definition invalidate_many (keys : list PostKey) : KV unit :=
  match keys with
  | [] => ret (Ok tt)
  | _ => on_redis (puts (set_counts_docs (λ m, foldl (λ m k, delete k m) m keys)))
  end.

Definition counts_get_by_id (author_id post_id : string) : MO (option PostCounts) :=
  let? cached := emap_err Model.KvOperationFailed (counts_get_from_index author_id post_id) in
  match cached with
  | Some c => ret (Ok (Some c))
  | None =>
      let? found := emap_err Model.GraphOperationFailed (counts_get_from_graph author_id post_id) in
      match found with
      | Some (c, _) =>
          let? _ := emap_err Model.KvOperationFailed (cache_json c author_id post_id) in
          ret (Ok (Some c))
      | None => ret (Ok None)
      end
  end.

Definition counts_reindex (author_id post_id : string) : MO unit :=
  let? found := emap_err Model.GraphOperationFailed (counts_get_from_graph author_id post_id) in
  match found with
  | Some (c, is_reply) =>
      emap_err Model.KvOperationFailed (counts_put_to_index c author_id post_id is_reply)
  | None => ret (Ok tt)
  end.

(** [PostCounts::delete] *)
Definition counts_delete (author_id post_id : string) (remove_from_feeds : bool) : KV unit :=
  let? _ := invalidate author_id post_id in
  if remove_from_feeds then delete_from_engagement_sorted_set author_id post_id else ret (Ok tt).

(** ** PostRelationships *)

(** [post_relationships], its first row: the stored addresses of the parents. *)
Definition post_relationships (k : PostKey) (s : Stores) : option PostRelationships :=
  let g := graph s in
  node ← posts g !! k;
  let parent keys :=
    p ← head (elements keys : list PostKey);
    n ← posts g !! p;
    match parse_post_uri (uri (details n)) with Ok u => Some u | Err _ => None end in
  Some {| replied := parent (replied_to node); reposted := parent (reposted_of node);
          mentioned := elements (mentions node) |}.

Definition relationships_get_from_index (author_id post_id : string) : KV (option PostRelationships) :=
  on_redis (gets (λ s, relationships_docs (cache s) !! (author_id, post_id))).

Definition relationships_get_from_graph (author_id post_id : string) : GR (option PostRelationships) :=
  on_graph (gets (post_relationships (author_id, post_id))).

Definition relationships_put_to_index (r : PostRelationships) (author_id post_id : string) : KV unit :=
  on_redis (puts (set_relationships_docs <[(author_id, post_id) := r]>)).

Definition relationships_delete (author_id post_id : string) : KV unit :=
  on_redis (puts (set_relationships_docs (delete (author_id, post_id)))).

Definition relationships_get_by_id (author_id post_id : string) : MO (option PostRelationships) :=
  let? cached := emap_err Model.KvOperationFailed (relationships_get_from_index author_id post_id) in
  match cached with
  | Some r => ret (Ok (Some r))
  | None =>
      let? found := emap_err Model.GraphOperationFailed (relationships_get_from_graph author_id post_id) in
      match found with
      | Some r =>
          let? _ := emap_err Model.KvOperationFailed (relationships_put_to_index r author_id post_id) in
          ret (Ok (Some r))
      | None => ret (Ok None)
      end
  end.

Definition relationships_reindex (author_id post_id : string) : MO unit :=
  let? found := emap_err Model.GraphOperationFailed (relationships_get_from_graph author_id post_id) in
  match found with
  | Some r => emap_err Model.KvOperationFailed (relationships_put_to_index r author_id post_id)
  | None => ret (Ok tt)
  end.

(** A missing post counts as a reply. *)
Definition post_relationships_is_reply (author_id post_id : string) : EP bool :=
  let? found := emap_err Ep.from_model (relationships_get_by_id author_id post_id) in
  ret (Ok match found with
          | Some r => bool_decide (is_Some (replied r))
          | None => true
          end).

(** ** PostDetails *)

(** [get_post_by_id]: the details, and the key of a post it replies to. *)
Definition get_post_by_id (k : PostKey) (s : Stores) : option (PostDetails * option PostKey) :=
  node ← posts (graph s) !! k;
  Some (details node, head (elements (replied_to node))).

Definition details_get_from_index (author_id post_id : string) : KV (option PostDetails) :=
  on_redis (gets (λ s, details_docs (cache s) !! (author_id, post_id))).

Definition details_get_from_graph (author_id post_id : string) :
    GR (option (PostDetails * option PostKey)) :=
  on_graph (gets (get_post_by_id (author_id, post_id))).

(** [PostDetails::put_to_index] *)
Definition details_put_to_index (d : PostDetails) (author_id : string) (parent : option PostKey)
    (is_edit : bool) : KV unit :=
  let? _ := on_redis (puts (set_details_docs <[(author_id, id d) := d]>)) in
  if is_edit then ret (Ok tt)
  else
    match parent with
    | None =>
        let? _ := add_to_timeline_sorted_set d in
        add_to_per_user_sorted_set d
    | Some parent =>
        let? _ := add_to_post_reply_sorted_set parent author_id (id d) (indexed_at d) in
        add_to_replies_per_user_sorted_set d
    end.

(** [PostDetails::get_by_id] *)
Definition details_get_by_id (author_id post_id : string) : MO (option PostDetails) :=
  let? cached := emap_err Model.KvOperationFailed (details_get_from_index author_id post_id) in
  match cached with
  | Some d => ret (Ok (Some d))
  | None =>
      let? found := emap_err Model.GraphOperationFailed (details_get_from_graph author_id post_id) in
      match found with
      | Some (d, reply) =>
          let? _ := emap_err Model.KvOperationFailed (details_put_to_index d author_id reply false) in
          ret (Ok (Some d))
      | None => ret (Ok None)
      end
  end.

(** [PostDetails::delete_from_index] *)
Definition details_delete_from_index (author_id post_id : string) (parent : option PostKey) : KV unit :=
  let? _ := on_redis (puts (set_details_docs (delete (author_id, post_id)))) in
  match parent with
  | None =>
      let? _ := remove_from_timeline_sorted_set author_id post_id in
      remove_from_per_user_sorted_set author_id post_id
  | Some parent =>
      let? _ := remove_from_post_reply_sorted_set parent author_id post_id in
      remove_from_replies_per_user_sorted_set author_id post_id
  end.

(** A missing target reads as [UnknownKind]. *)
Definition post_kind (author_id post_id : string) : EP Kind :=
  let? found := emap_err Ep.from_model (details_get_by_id author_id post_id) in
  ret (Ok (default UnknownKind (kind <$> found))).

(** *** [create_post] *)

(** The parameter of a parent; [None] when its address does not render, and the query is
    sent without it. *)
Definition relationship_param (parent : option ParsedUri) : result (option PostKey) Graph.GraphError :=
  match parent with
  | None => Ok None
  | Some p =>
      match uri_str p with
      | Err _ => Ok None
      | Ok s =>
          match parse_post_uri s with
          | Err e => Err (Graph.UriParseError e)
          | Ok p =>
              match uri_target p with
              | Post i => Ok (Some (uri_user p, i))
              | _ => Err (Graph.InvalidResourceType "Reposted uri is not a Post resource")
              end
          end
      end
  end.

Definition user_exists (user_id : string) (s : Stores) : bool :=
  bool_decide (is_Some (Users.nodes (people s) !! user_id)).

Definition add_edge (parent : option PostKey) (edges : gset PostKey) : gset PostKey :=
  match parent with Some p => {[p]} ∪ edges | None => edges end.

(** [ON CREATE SET] belongs to the last [MERGE] of the query: the edge to a reposted post,
    else the edge to a parent, else the node. *)
Definition last_merge_creates (old : option PostNode) (reply_parent repost_parent : option PostKey) : bool :=
  match repost_parent, reply_parent, old with
  | Some p, _, Some n => bool_decide (p ∉ reposted_of n)
  | None, Some p, Some n => bool_decide (p ∉ replied_to n)
  | None, None, Some _ => false
  | _, _, None => true
  end.

Definition post_written (d : PostDetails) (reply_parent repost_parent : option PostKey)
    (old : option PostNode) : PostNode :=
  let at_ :=
    if last_merge_creates old reply_parent repost_parent then indexed_at d
    else default (indexed_at d) ((λ n, indexed_at (details n)) <$> old) in
  {| details := {| content := content d; id := id d; indexed_at := at_; author := author d;
                   kind := kind d; uri := uri d; attachments := Some (default [] (attachments d));
                   lock := lock d; deleted := deleted d |};
     replied_to := add_edge reply_parent (from_option replied_to ∅ old);
     reposted_of := add_edge repost_parent (from_option reposted_of ∅ old);
     mentions := from_option mentions ∅ old;
     collected := from_option collected ∅ old |}.

(** Another author's post of the same id violates the uniqueness of post ids. *)
Definition create_post (d : PostDetails) (reply_parent repost_parent : option PostKey) :
    prog Stores (result (option bool) Graph.GraphError) := λ s,
  let g := graph s in
  let k := (author d, id d) in
  let there p := match p with Some p => bool_decide (is_Some (posts g !! p)) | None => true end in
  if user_exists (author d) s && there reply_parent && there repost_parent then
    if decide (filter (λ p, snd p = id d ∧ p ≠ k) (elements (dom (posts g))) ≠ []) then
      (Err (Graph.QueryFailed "uniquePostId"), s)
    else
      (Ok (Some (bool_decide (is_Some (posts g !! k)))),
       set_posts (λ m, <[k := post_written d reply_parent repost_parent (m !! k)]> m) s)
  else (Ok None, s).

(** [PostDetails::put_to_graph] *)
Definition details_put_to_graph (d : PostDetails) (r : PostRelationships) : GR OperationOutcome :=
  let? reply_parent := ret (relationship_param (replied r)) in
  let? repost_parent := ret (relationship_param (reposted r)) in
  if decide ((is_Some (replied r) ∧ reply_parent = None) ∨ (is_Some (reposted r) ∧ repost_parent = None)) then
    let? _ := on_graph (gets (λ _, tt)) in
    ret (Err (Graph.QueryFailed "missing parameter"))
  else
    let? answer := on_graph (create_post d reply_parent repost_parent) in
    let? maybe_flag := ret answer in
    ret (Ok (outcome_of_flag maybe_flag)).

(** ** Collections *)

(** [collection_item_keys] *)
Definition collection_item_keys (c : string) : result (list PostKey) string :=
  match collection_envelope c with
  | Err e => Err e
  | Ok items =>
      Ok (omap (λ u,
        match parse_post_uri u with
        | Ok p => match uri_target p with Post i => Some (uri_user p, i) | _ => None end
        | Err _ => None
        end) items)
  end.

Definition key_le (a b : PostKey) : Prop :=
  (str_le (fst a) (fst b) ∧ fst a ≠ fst b) ∨ (fst a = fst b ∧ str_le (snd a) (snd b)).
#[local] Instance key_le_dec : RelDecision key_le.
Proof. intros a b. unfold key_le. apply _. Defined.

(** The query's row: the keys of the posts whose edges it removed or merged. *)
Definition sync_collection_items (k : PostKey) (items : list PostKey) (derived_from : option PostDetails) :
    prog Stores (option (list PostKey)) := λ s,
  let g := graph s in
  match posts g !! k with
  | None => (None, s)
  | Some c =>
      let current_state :=
        match derived_from with
        | Some d => bool_decide (kind (details c) = kind d ∧ content (details c) = content d)
        | None => true
        end in
      if current_state then
        let items := remove_dups (merge_sort key_le items) in
        let current := filter (λ p, is_Some (posts g !! p) ∧ p ≠ k) items in
        (Some (elements (collected c) ++ current),
         set_posts <[k := {| details := details c; replied_to := replied_to c;
                             reposted_of := reposted_of c; mentions := mentions c;
                             collected := list_to_set current |}]> s)
      else (None, s)
  end.

(** [sync_collected_edges] *)
Definition sync_collected_edges (author_id post_id : string) (items : list PostKey)
    (derived_from : option PostDetails) : MO unit :=
  let? touched := emap_err Model.GraphOperationFailed
    (on_graph (sync_collection_items (author_id, post_id) items derived_from)) in
  match touched with
  | None => ret (Ok tt)
  | Some touched => emap_err Model.KvOperationFailed (invalidate_many touched)
  end.

(** ** Deleting a node *)

(** Every edge but [AUTHORED], the post's own [REPLIED] and [REPOSTED], and [COLLECTED]. *)
Definition has_relationships (k : PostKey) (g : PostGraph) : Prop :=
  (∃ n, posts g !! k = Some n ∧ mentions n ≠ ∅)
  ∨ (∃ e, e ∈ dom (tagged g) ∧ snd (fst e) = OnPost k)
  ∨ (∃ e, e ∈ dom (bookmarked g) ∧ snd e = k)
  ∨ (∃ k' n, posts g !! k' = Some n ∧ (k ∈ replied_to n ∨ k ∈ reposted_of n)).

Definition has_relationships_b (k : PostKey) (g : PostGraph) : bool :=
  bool_decide (from_option mentions ∅ (posts g !! k) ≠ ∅)
  || bool_decide (filter (λ e, snd (fst e) = OnPost k) (elements (dom (tagged g))) ≠ [])
  || bool_decide (filter (λ e, snd e = k) (elements (dom (bookmarked g))) ≠ [])
  || bool_decide (filter (λ kn, k ∈ replied_to (snd kn) ∨ k ∈ reposted_of (snd kn))
                    (map_to_list (posts g)) ≠ []).

(** The flag says the post has relationships; no row for a missing post. *)
Definition post_is_safe_to_delete (k : PostKey) (s : Stores) : option bool :=
  _ ← posts (graph s) !! k; Some (has_relationships_b k (graph s)).

(** [DETACH DELETE] *)
Definition delete_post (k : PostKey) : Stores → Stores := λ s,
  if decide (is_Some (posts (graph s) !! k)) then
    set_graph (λ g, {|
      posts := (λ n, {| details := details n; replied_to := replied_to n ∖ {[k]};
                        reposted_of := reposted_of n ∖ {[k]}; mentions := mentions n;
                        collected := collected n ∖ {[k]} |}) <$> delete k (posts g);
      tagged := filter (λ e, snd (fst (fst e)) ≠ OnPost k) (tagged g);
      resources := resources g;
      bookmarked := filter (λ e, snd (fst e) ≠ k) (bookmarked g) |}) s
  else s.

(** Of an existing post, author and user. *)
Definition create_mention_relationship (k : PostKey) (mentioned_user_id : string) : Stores → Stores := λ s,
  match posts (graph s) !! k with
  | Some n =>
      if user_exists mentioned_user_id s then
        set_posts <[k := {| details := details n; replied_to := replied_to n;
                            reposted_of := reposted_of n;
                            mentions := {[mentioned_user_id]} ∪ mentions n;
                            collected := collected n |}]> s
      else s
  | None => s
  end.

(** ** Notifications *)

Definition notification_key (user_id : string) : list string := ["Notification"; user_id].

(** [Notification::new], then [put_to_index]. *)
Definition notify (body : NotificationBody Kind) (user_id : string) : KV unit :=
  let* timestamp := now in
  let? json := ret (map_err Kv.SerializationFailed (body_json body)) in
  zset_put (notification_key user_id) [(as_f64 timestamp, json)].

Definition notify_once (body : NotificationBody Kind) (user_id : string) : KV unit :=
  let* timestamp := now in
  let? json := ret (map_err Kv.SerializationFailed (body_json body)) in
  zset_put_once (notification_key user_id) (as_f64 timestamp) json.

Definition new_post_tag (user_id author_id label post_uri : string) (k : Kind) : KV unit :=
  if decide (user_id = author_id) then ret (Ok tt) else notify (TagPost user_id label post_uri k) author_id.

Definition new_user_tag (tagger_id tagged_id label : string) : KV unit :=
  if decide (tagger_id = tagged_id) then ret (Ok tt) else notify (TagProfile tagger_id label) tagged_id.

Definition new_post_untag (user_id author_id label post_uri : string) (k : Kind) : KV unit :=
  if decide (user_id = author_id) then ret (Ok tt) else notify (UntagPost user_id label post_uri k) author_id.

Definition new_user_untag (tagger_id tagged_id label : string) : KV unit :=
  if decide (tagger_id = tagged_id) then ret (Ok tt) else notify (UntagProfile tagger_id label) tagged_id.

Definition new_post_reply (user_id parent_uri reply_uri parent_author : string) (k : Kind) : KV unit :=
  if decide (user_id = parent_author) then ret (Ok tt)
  else notify_once (ReplyBody user_id parent_uri reply_uri k) parent_author.

Definition new_mention (user_id mentioned_id post_uri : string) (k : Kind) : KV (option string) :=
  if decide (user_id = mentioned_id) then ret (Ok None)
  else
    let? _ := notify_once (Mention user_id post_uri k) mentioned_id in
    ret (Ok (Some mentioned_id)).

Definition new_repost (user_id embed_uri repost_uri embed_author : string) (k : Kind) : KV unit :=
  if decide (user_id = embed_author) then ret (Ok tt)
  else notify_once (RepostBody user_id embed_uri repost_uri k) embed_author.

Definition changed_body (user_id linked_uri changed_uri : string) (source : PostChangedSource)
    (type : PostChangedType) (k : Kind) : NotificationBody Kind :=
  match type with
  | Deleted => PostDeleted source user_id changed_uri linked_uri k
  | Edited => PostEdited source user_id changed_uri linked_uri k
  end.

Definition post_children_changed (user_id linked_uri linked_author changed_uri : string)
    (source : PostChangedSource) (type : PostChangedType) (k : Kind) : KV unit :=
  if decide (user_id = linked_author) then ret (Ok tt)
  else notify (changed_body user_id linked_uri changed_uri source type k) linked_author.
End PostIndex.
