(* ===== verification/Leaves.v ===== *)
(** * What a program leaves alone

    A relation between the stores before and after, kept by every program that neither
    looks into it nor writes to what it is about: sorted sets, shared sets, notifications. *)

From S2P Require Import Prelude Errors Users TrustFilter Graphs Scan Events World Notifications PostStore PostIndex.
Local Open Scope Z_scope.
Local Open Scope nexus_scope.

Section Leaves.
Context {SP : PostSpecs} {W : Type} {CL : Clock W} (R : Stores → Stores → Prop) `{!PreOrder R}.

Definition leaves {A E} (m : prog (Site W) (result A E)) : Prop := ∀ s, keeps (R s) m.

(** A program that cannot fail. *)
Definition leaves_quietly {A} (m : prog (Site W) A) : Prop :=
  ∀ s w, R s (stores w) → R s (stores (snd (m w))).

Lemma leaves_does {A E} (m : prog (Site W) (result A E)) s (Q : A → Stores → Prop) (Q' : Stores → Prop) :
  leaves m → (∀ a s', R s s' → Q a s') → (∀ s', R s s' → Q' s') → does m s Q Q'.
Proof. intros Hm HQ HQ'. eapply keeps_does; [apply (Hm s)|done|auto|auto]. Qed.

(** What follows it starts from related stores. *)
Lemma leaves_then {A B E} (m : prog (Site W) (result A E)) (k : A → prog (Site W) (result B E)) s Q Q' :
  leaves m → (∀ s', R s s' → Q' s') → (∀ a s', R s s' → does (k a) s' Q Q') → does (ebind m k) s Q Q'.
Proof. intros Hm HQ' Hk. apply does_ebind. by apply leaves_does. Qed.

Lemma quietly_then {A B E} (m : prog (Site W) A) (k : A → prog (Site W) (result B E)) s Q Q' :
  leaves_quietly m → (∀ a s', R s s' → does (k a) s' Q Q') → does (bind m k) s Q Q'.
Proof.
  intros Hm Hk w Hw. unfold bind. apply yields_bind. intros a w' Hrun. apply (Hk a (stores w')); [|done].
  subst s. pose proof (Hm (stores w) w (reflexivity _)) as Hs. by rewrite Hrun in Hs.
Qed.

Lemma leaves_quietly_of {A E} (m : prog (Site W) (result A E)) : leaves m → leaves_quietly m.
Proof.
  intros Hm s w Hs. destruct (m w) as [r w'] eqn:Hrun.
  pose proof (does_run _ _ _ _ _ _ _ (Hm s (stores w) Hs) eq_refl Hrun) as Hr. by destruct r.
Qed.

Lemma leaves_of_quietly {A E} (m : prog (Site W) (result A E)) : leaves_quietly m → leaves m.
Proof. intros Hm s s' Hs w <-. unfold yields. pose proof (Hm s w Hs). destruct (m w) as [[a|e] w']; done. Qed.

Lemma leaves_scan {C E} `{CursorOrder C} (from_graph : Graph.GraphError → E) fuel batch_size context
    (step : C → prog (Site W) (result (nat * option C) E)) c :
  (∀ c, leaves (step c)) → leaves_quietly (scan_from from_graph fuel batch_size context step c).
Proof.
  intros Hstep. revert c. induction fuel as [|fuel IH]; intros c s w Hs; [done|]. cbn [scan_from].
  unfold bind. pose proof (leaves_quietly_of _ (Hstep c) s w Hs) as Hs'.
  destruct (step c w) as [[[count last]|e] w']; simpl in *; [|done].
  case_decide; [done|]. destruct last as [next|]; [|done]. case_decide; [done|]. by apply IH.
Qed.

Lemma leaves_ret {A E} (r : result A E) : leaves (ret r).
Proof. intros s. apply keeps_ret. Qed.
Lemma leaves_ebind {A B E} (m : prog (Site W) (result A E)) (k : A → prog (Site W) (result B E)) :
  leaves m → (∀ a, leaves (k a)) → leaves (ebind m k).
Proof. intros Hm Hk s. apply keeps_ebind; [apply Hm|intros a; apply Hk]. Qed.
Lemma leaves_bind {A B E F} (m : prog (Site W) (result A E)) (k : result A E → prog (Site W) (result B F)) :
  leaves m → (∀ r, leaves (k r)) → leaves (bind m k).
Proof. intros Hm Hk s. apply keeps_bind; [apply Hm|intros r; apply Hk]. Qed.
Lemma leaves_after {A B E} (m : prog (Site W) A) (k : A → prog (Site W) (result B E)) :
  leaves_quietly m → (∀ a, leaves (k a)) → leaves (bind m k).
Proof.
  intros Hm Hk s s' Hs. apply quietly_then; [done|]. intros a s2 Hs2.
  apply leaves_does; [apply Hk|intros _ s3 Hs3|intros s3 Hs3]; (etrans; [exact Hs|]); by etrans.
Qed.
Lemma leaves_emap_err {A E F} (f : E → F) (m : prog (Site W) (result A E)) : leaves m → leaves (emap_err f m).
Proof. intros Hm s. apply keeps_emap_err, Hm. Qed.
Lemma leaves_now {B E} (k : Z → prog (Site W) (result B E)) : (∀ t, leaves (k t)) → leaves (bind now k).
Proof. intros Hk s. apply keeps_now. intros t. apply Hk. Qed.
Lemma leaves_redis {A} (f : prog Stores A) : (∀ s, R s (snd (f s))) → leaves (on_redis f).
Proof. intros Hf s. apply keeps_redis. intros s' Hs. by etrans. Qed.
Lemma leaves_graph {A} (f : prog Stores A) : (∀ s, R s (snd (f s))) → leaves (on_graph f).
Proof. intros Hf s. apply keeps_graph. intros s' Hs. by etrans. Qed.
Lemma leaves_gets {A} (f : Stores → A) : leaves (on_redis (gets f)).
Proof. by apply leaves_redis. Qed.
Lemma leaves_gets_graph {A} (f : Stores → A) : leaves (on_graph (gets f)).
Proof. by apply leaves_graph. Qed.
Lemma leaves_if {A E} (b : bool) (m m' : prog (Site W) (result A E)) :
  leaves m → leaves m' → leaves (if b then m else m').
Proof. by destruct b. Qed.
Lemma leaves_join {E} (arms : list (prog (Site W) (result unit E))) :
  Forall leaves arms → leaves (join_all arms).
Proof. intros Harms s. apply keeps_join. eapply Forall_impl; [exact Harms|]. intros m Hm. apply Hm. Qed.

(** ** Relations that do not look into the sorted sets *)

Class Blind := {
  blind_gate f s : R s (set_gate f s);
  blind_zsets f s : R s (set_zsets f s);
}.
Context {RB : Blind}.

Lemma leaves_zset_put key elements : leaves (zset_put key elements).
Proof. unfold zset_put. destruct elements; [apply leaves_ret|]. apply leaves_redis. intros. apply blind_zsets. Qed.
Lemma leaves_zset_put_once key score m : leaves (zset_put_once key score m).
Proof. apply leaves_redis. intros. apply blind_zsets. Qed.
Lemma leaves_zset_remove key items : leaves (zset_remove key items).
Proof. unfold zset_remove. destruct items; [apply leaves_ret|]. apply leaves_redis. intros. apply blind_zsets. Qed.
Lemma leaves_shared_remove key items : leaves (shared_remove key items).
Proof. unfold shared_remove. destruct items; [apply leaves_ret|]. apply leaves_redis. intros. apply blind_gate. Qed.
Lemma leaves_trust_incr key a p action : leaves (trust_incr key a p action).
Proof.
  apply leaves_ebind; [|intros; apply leaves_ret]. apply leaves_redis. intros s.
  destruct (INCR _ _ _ _). apply blind_gate.
Qed.
Lemma leaves_trust_add key entries : leaves (trust_add key entries).
Proof.
  unfold trust_add. induction (chunks BATCH entries) as [|batch batches IH]; [apply leaves_ret|].
  apply leaves_ebind; [|done]. apply leaves_redis. intros s. destruct (ADD _ _ _). apply blind_gate.
Qed.
Lemma leaves_notify body u : leaves (notify body u).
Proof.
  apply leaves_now. intros t. apply leaves_ebind; [apply leaves_ret|intros; apply leaves_zset_put].
Qed.
Lemma leaves_notify_once body u : leaves (notify_once body u).
Proof.
  apply leaves_now. intros t. apply leaves_ebind; [apply leaves_ret|intros; apply leaves_zset_put_once].
Qed.
Lemma leaves_stream_score a p action : leaves (stream_update_index_score a p action).
Proof. apply leaves_trust_incr. Qed.
Lemma leaves_children_changed a l a' u source type k : leaves (post_children_changed a l a' u source type k).
Proof. unfold post_children_changed. case_decide; [apply leaves_ret|apply leaves_notify]. Qed.
Lemma leaves_new_reply a pu ru pa k : leaves (new_post_reply a pu ru pa k).
Proof. unfold new_post_reply. case_decide; [apply leaves_ret|apply leaves_notify_once]. Qed.
Lemma leaves_new_repost a pu ru pa k : leaves (new_repost a pu ru pa k).
Proof. unfold new_repost. case_decide; [apply leaves_ret|apply leaves_notify_once]. Qed.
Lemma leaves_new_mention a u pu k : leaves (new_mention a u pu k).
Proof.
  unfold new_mention. case_decide; [apply leaves_ret|].
  apply leaves_ebind; [apply leaves_notify_once|intros; apply leaves_ret].
Qed.
End Leaves.

(** What leaves one relation alone leaves a coarser one alone. *)
Lemma leaves_weaken {SP : PostSpecs} {W : Type} {CL : Clock W} (R R' : Stores → Stores → Prop) `{!PreOrder R, !PreOrder R'}
    {A E} (m : prog (Site W) (result A E)) :
  (∀ s s', R s s' → R' s s') → leaves R m → leaves R' m.
Proof.
  intros Hle Hm s0 s Hs. apply (leaves_does R); [done|..].
  - intros _ s' Hs'. etrans; [exact Hs|auto].
  - intros s' Hs'. etrans; [exact Hs|auto].
Qed.

Lemma quietly_weaken {SP : PostSpecs} {W : Type} (R R' : Stores → Stores → Prop) `{!PreOrder R, !PreOrder R'}
    {A} (m : prog (Site W) A) :
  (∀ s s', R s s' → R' s s') → leaves_quietly R m → leaves_quietly R' m.
Proof. intros Hle Hm s w Hs. etrans; [exact Hs|]. apply Hle, Hm. reflexivity. Qed.

Create HintDb leaves.
#[export] Hint Resolve leaves_ret leaves_gets leaves_gets_graph leaves_zset_put leaves_zset_put_once
  leaves_zset_remove leaves_shared_remove leaves_trust_incr leaves_trust_add leaves_notify leaves_notify_once
  leaves_stream_score leaves_children_changed leaves_new_reply leaves_new_repost leaves_new_mention : leaves.

(** Splits a program down to calls that are known to leave the relation alone. *)
Ltac leaves_step :=
  match goal with
  | |- leaves _ _ => solve [assumption | typeclasses eauto with leaves typeclass_instances]
  | |- leaves _ (ebind _ _) => apply leaves_ebind; [|intros ?]
  | |- leaves _ (emap_err _ _) => apply leaves_emap_err
  | |- leaves _ (bind now _) => apply leaves_now; intros ?
  | |- leaves _ (join_all _) => apply leaves_join; repeat (apply Forall_cons_2 || apply Forall_nil_2)
  | |- leaves _ (match ?x with _ => _ end) => destruct x
  end.
Ltac leaves_tac := repeat leaves_step.
