(* ===== verification/Bookmarks.v ===== *)
(** * Bookmarks

    nexus-watcher/src/events/handlers/bookmark.rs over models/post/bookmark.rs: a BOOKMARKED
    edge in the graph, its copy in Redis, and the bookmarker's sorted set of posts. *)

From S2P Require Import Prelude Errors Users TrustFilter TrustFilterRuns Graphs Scan Events World PostStore Histories PostIndex.
Local Open Scope Z_scope.
Local Open Scope nexus_scope.

Section Bookmarks.
Context {SP : PostSpecs} {W : Type} {CL : Clock W}.

(** ** Queries *)

Definition create_post_bookmark (user_id author_id post_id id_ : string) (at_ : Z) :
    prog Stores (option bool) := λ s,
  if user_exists user_id s && bool_decide (is_Some (posts (graph s) !! (author_id, post_id))) then
    (Some (bool_decide (is_Some (bookmarked (graph s) !! (user_id, (author_id, post_id))))),
     set_bookmarked <[(user_id, (author_id, post_id)) := {| bookmark_id := id_; bookmarked_at := at_ |}]> s)
  else (None, s).

Definition post_bookmark (author_id post_id viewer_id : string) (s : Stores) : option Bookmark :=
  bookmarked (graph s) !! (viewer_id, (author_id, post_id)).

(** Whether an edge is the user's bookmark of that id. *)
Definition is_bookmark (user_id id_ : string) (e : (string * PostKey) * Bookmark) : Prop :=
  fst (fst e) = user_id ∧ bookmark_id (snd e) = id_.

(** Its first row. *)
Definition get_bookmark_target (user_id id_ : string) (s : Stores) : option PostKey :=
  e ← head (filter (is_bookmark user_id id_) (map_to_list (bookmarked (graph s)))); Some (snd (fst e)).

Definition delete_bookmark (user_id id_ : string) : prog Stores (option PostKey) := λ s,
  (get_bookmark_target user_id id_ s,
   set_bookmarked (filter (λ e, ¬ is_bookmark user_id id_ e)) s).

Definition by_post_id (r r' : Bookmark * PostKey) : Prop := str_le (snd (snd r)) (snd (snd r')).
#[export] Instance by_post_id_dec : RelDecision by_post_id.
Proof. intros r r'. unfold by_post_id. apply _. Defined.

Definition bookmarks_of (user_id : string) (s : Stores) : list (Bookmark * PostKey) :=
  merge_sort by_post_id (omap (λ e : (string * PostKey) * Bookmark,
    if decide (fst (fst e) = user_id) then Some (snd e, snd (fst e)) else None)
    (map_to_list (bookmarked (graph s)))).

(** One page of a user's bookmarks, by post id. *)
Definition user_bookmarks (user_id cursor : string) (limit : nat) (s : Stores) :
    list (Bookmark * PostKey) :=
  take limit (filter (λ r, ¬ str_le (snd (snd r)) cursor) (bookmarks_of user_id s)).

(** ** The model *)

Definition bookmark_put_to_graph (author_id post_id user_id id_ : string) (at_ : Z) :
    prog (Site W) (result OperationOutcome Graph.GraphError) :=
  execute_graph_operation (create_post_bookmark user_id author_id post_id id_ at_).

Definition bookmark_get_from_index (author_id post_id viewer_id : string) :
    prog (Site W) (result (option Bookmark) Kv.RedisError) :=
  on_redis (gets (λ s, bookmark_docs (cache s) !! ((author_id, post_id), viewer_id))).

Definition bookmark_get_from_graph (author_id post_id viewer_id : string) :
    prog (Site W) (result (option Bookmark) Graph.GraphError) :=
  on_graph (gets (post_bookmark author_id post_id viewer_id)).

Definition bookmark_put_to_index (b : Bookmark) (author_id post_id viewer_id : string) :
    prog (Site W) (result unit Kv.RedisError) :=
  let? _ := on_redis (puts (set_bookmark_docs <[((author_id, post_id), viewer_id) := b]>)) in
  add_to_bookmarks_sorted_set b viewer_id post_id author_id.

Definition bookmark_get_by_id (author_id post_id : string) (viewer_id : option string) :
    prog (Site W) (result (option Bookmark) Model.ModelError) :=
  match viewer_id with
  | None => ret (Ok None)
  | Some viewer_id =>
      let? cached := emap_err Model.KvOperationFailed (bookmark_get_from_index author_id post_id viewer_id) in
      match cached with
      | Some b => ret (Ok (Some b))
      | None =>
          let? found := emap_err Model.GraphOperationFailed
            (bookmark_get_from_graph author_id post_id viewer_id) in
          match found with
          | Some b =>
              let? _ := emap_err Model.KvOperationFailed (bookmark_put_to_index b author_id post_id viewer_id) in
              ret (Ok (Some b))
          | None => ret (Ok None)
          end
      end
  end.

Definition BOOKMARK_PAGE_SIZE : nat := 500.

(** The rows of a page, put one by one. *)
Fixpoint reindex_rows (user_id : string) (rows : list (Bookmark * PostKey)) :
    prog (Site W) (result unit Model.ModelError) :=
  match rows with
  | [] => ret (Ok tt)
  | (b, (author_id, post_id)) :: rows =>
      let? _ := emap_err Model.KvOperationFailed (bookmark_put_to_index b author_id post_id user_id) in
      reindex_rows user_id rows
  end.

Definition reindex_step (user_id cursor : string) :
    prog (Site W) (result (nat * option string) Model.ModelError) :=
  let? rows := emap_err Model.GraphOperationFailed
    (on_graph (gets (user_bookmarks user_id cursor BOOKMARK_PAGE_SIZE))) in
  let? _ := reindex_rows user_id rows in
  ret (Ok (length rows,
           p ← last rows; if decide (snd (snd p) = "") then None else Some (snd (snd p)))).

(** [Bookmark::reindex] *)
Definition bookmark_reindex (fuel : nat) (user_id : string) :
    prog (Site W) (option (result unit Model.ModelError)) :=
  keyset_scan Model.GraphOperationFailed fuel BOOKMARK_PAGE_SIZE "bookmark_reindex" (reindex_step user_id).

Definition get_target_from_graph (user_id id_ : string) :
    prog (Site W) (result (option PostKey) Graph.GraphError) :=
  on_graph (gets (get_bookmark_target user_id id_)).

Definition bookmark_del_from_graph (user_id id_ : string) :
    prog (Site W) (result (option PostKey) Graph.GraphError) :=
  on_graph (delete_bookmark user_id id_).

Definition bookmark_del_from_index (bookmarker_id post_id author_id : string) :
    prog (Site W) (result unit Kv.RedisError) :=
  let? _ := on_redis (puts (set_bookmark_docs (delete ((author_id, post_id), bookmarker_id)))) in
  remove_from_bookmarks_sorted_set bookmarker_id post_id author_id.

(** ** The handlers *)

Definition bookmark_target (u : string) : result PostKey Ep.EventProcessorError :=
  match parse_post_uri u with
  | Err e => Err (Ep.UnsupportedTarget ("The bookmarked URI is not a pubky resource: " +:+ e))
  | Ok parsed =>
      match uri_target parsed with
      | Post post_id => Ok (uri_user parsed, post_id)
      | other => Err (Ep.UnsupportedTarget ("The bookmarked resource is not a Post, instead is: "
                                            +:+ debug_resource other))
      end
  end.

(** Of a homeserver's [PubkyAppBookmark], its address. *)
Definition sync_put (user_id bookmark_uri id_ : string) : prog (Site W) (result unit Ep.EventProcessorError) :=
  let? (author_id, post_id) := ret (bookmark_target bookmark_uri) in
  let* at_ := now in
  let? outcome := emap_err Ep.from_graph (bookmark_put_to_graph author_id post_id user_id id_ at_) in
  match outcome with
  | MissingDependency => ret (Err (Ep.MissingDependency [author_id +:+ ":posts:" +:+ post_id]))
  | CreatedOrDeleted | Updated =>
      emap_err Ep.from_redis
        (bookmark_put_to_index {| bookmark_id := id_; bookmarked_at := at_ |} author_id post_id user_id)
  end.

Definition sync_del (user_id id_ : string) : prog (Site W) (result unit Ep.EventProcessorError) :=
  let? target := emap_err Ep.from_graph (get_target_from_graph user_id id_) in
  match target with
  | None => ret (Ok tt)
  | Some (author_id, post_id) =>
      let? _ := emap_err Ep.from_redis (bookmark_del_from_index user_id post_id author_id) in
      let? _ := emap_err Ep.from_graph (bookmark_del_from_graph user_id id_) in
      ret (Ok tt)
  end.
End Bookmarks.

(** ** What is kept about a bookmark *)

Section Runs.
Context {SP : PostSpecs} {W : Type} {CL : Clock W}.
(** The specs derive a bookmark's id from its post. *)
Context (bookmark_key : string → option PostKey).
Context (bookmark_key_inj : ∀ i j k, bookmark_key i = Some k → bookmark_key j = Some k → i = j).

Abbreviation Mark := (string * PostKey)%type.

Definition marked (s : Stores) (m : Mark) : option Bookmark := bookmarked (graph s) !! m.
Definition copy (s : Stores) (m : Mark) : option Bookmark := bookmark_docs (cache s) !! (snd m, fst m).
(** The post's score among the user's. *)
Definition shelved (s : Stores) (m : Mark) : option Z :=
  zset_of (BOOKMARKS_USER_KEY_PARTS ++ [fst m]) s !! post_member (fst (snd m)) (snd (snd m)).

Definition plain (m : Mark) : Prop := no_colon (fst (snd m)).

Definition undisturbed (m : Mark) (s s' : Stores) : Prop :=
  plain m → marked s' m = marked s m ∧ copy s' m = copy s m ∧ shelved s' m = shelved s m.

#[export] Instance undisturbed_preorder m : PreOrder (undisturbed m).
Proof.
  split; [by intros s _|]. intros s1 s2 s3 H1 H2 Hm.
  destruct (H2 Hm) as (-> & -> & ->). by apply H1.
Qed.

(** Ids are their posts', and Redis holds nothing the graph does not. *)
Definition agreed (s : Stores) : Prop :=
  (∀ m b, marked s m = Some b → bookmark_key (bookmark_id b) = Some (snd m))
  ∧ ∀ m, plain m → marked s m = None → copy s m = None ∧ shelved s m = None.

(** From agreed stores, only the one bookmark was touched. *)
Definition around (m0 : Mark) (s0 s : Stores) : Prop :=
  agreed s ∧ ∀ m, m ≠ m0 → undisturbed m s0 s.

Lemma post_member_inj k k' :
  no_colon (fst k) → no_colon (fst k') →
  post_member (fst k) (snd k) = post_member (fst k') (snd k') → k = k'.
Proof.
  destruct k as [a i], k' as [a' i']. unfold post_member. simpl. intros Ha Ha' Heq.
  assert (a = a') as <-.
  { apply (f_equal before_colon) in Heq. rewrite !before_colon_app in Heq by done. by injection Heq. }
  by apply str_app_inj_l, str_app_inj_l in Heq as ->.
Qed.

(** Writing Redis's entries of a bookmark that has its edge. *)
Lemma around_redis m0 s0 s s' :
  around m0 s0 s → is_Some (marked s m0) → (∀ m, marked s' m = marked s m) →
  (∀ m, m ≠ m0 → undisturbed m s s') → around m0 s0 s'.
Proof.
  intros [[Hid Hag] Ho] He Hm Hu. split; [split|].
  - intros m b. rewrite Hm. apply Hid.
  - intros m Hpl. rewrite Hm. intros Hnone. assert (m ≠ m0) as Hne by (intros ->; destruct He; congruence).
    destruct (Hu m Hne Hpl) as (_ & -> & ->). by apply Hag.
  - intros m Hne. etrans; [by apply Ho|by apply Hu].
Qed.

Lemma docs_around m0 s0 s f :
  around m0 s0 s → is_Some (marked s m0) → (∀ k, k ≠ (snd m0, fst m0) → ∀ d, f d !! k = (d !! k : option Bookmark)) →
  around m0 s0 (set_bookmark_docs f s).
Proof.
  intros Ha He Hf. eapply around_redis; [done..|]. intros [u k] Hne _. split; [done|]. split; [|done].
  unfold copy. simpl. apply Hf. intros [= -> ->]. apply Hne. by destruct m0.
Qed.

Lemma shelf_around m0 s0 s f :
  plain m0 → around m0 s0 s → is_Some (marked s m0) →
  (∀ x, x ≠ post_member (fst (snd m0)) (snd (snd m0)) → ∀ z, f z !! x = (z !! x : option Z)) →
  around m0 s0 (update_zset (BOOKMARKS_USER_KEY_PARTS ++ [fst m0]) f s).
Proof.
  intros Hpl Ha He Hf. eapply around_redis; [done..|]. intros [u k] Hne Hk. split; [done|]. split; [done|].
  unfold shelved, update_zset, zset_of at 1. simpl.
  destruct (decide (fst m0 = u)) as [<-|Hu].
  - rewrite lookup_insert_eq. simpl. apply Hf. intros Heq. apply Hne.
    apply post_member_inj in Heq as ->; [|done..]. by destruct m0.
  - rewrite lookup_insert_ne; [done|]. by intros [= ?].
Qed.

(** *** The handlers *)

Definition written (m0 : Mark) (s0 : Stores) (id_ : string) (s : Stores) : Prop :=
  around m0 s0 s ∧ ∃ b, marked s m0 = Some b ∧ bookmark_id b = id_ ∧ copy s m0 = Some b
    ∧ shelved s m0 = Some (as_f64 (bookmarked_at b)).

Definition erased (m0 : Mark) (s0 s : Stores) : Prop :=
  around m0 s0 s ∧ marked s m0 = None ∧ copy s m0 = None ∧ shelved s m0 = None.

Lemma created_around u k s id_ at_ :
  agreed s → bookmark_key id_ = Some k →
  let s' := set_bookmarked <[(u, k) := {| bookmark_id := id_; bookmarked_at := at_ |}]> s in
  around (u, k) s s' ∧ marked s' (u, k) = Some {| bookmark_id := id_; bookmarked_at := at_ |}.
Proof.
  intros [Hid Hag] Hk s'.
  assert (∀ m, m ≠ (u, k) → marked s' m = marked s m) as Hne by (intros; by apply lookup_insert_ne).
  assert (marked s' (u, k) = Some _) as Heq by apply lookup_insert_eq.
  split; [|done]. split; [split|].
  - intros m b. destruct (decide (m = (u, k))) as [->|Hm]; [|rewrite Hne by done; apply Hid].
    rewrite Heq. by intros [= <-].
  - intros m Hpl. destruct (decide (m = (u, k))) as [->|Hm]; [by rewrite Heq|].
    rewrite Hne by done. by apply Hag.
  - intros m Hm _. by rewrite Hne.
Qed.

Lemma bookmark_put_to_index_does b u k s0 s :
  plain (u, k) → around (u, k) s0 s → marked s (u, k) = Some b →
  does (W:=W) (bookmark_put_to_index b (fst k) (snd k) u) s
    (λ _, written (u, k) s0 (bookmark_id b)) (around (u, k) s0).
Proof.
  intros Hpl Ha He. destruct k as [a p]. unfold bookmark_put_to_index. simpl.
  set (s1 := set_bookmark_docs <[(((a, p), u) : PostKey * string) := b]> s).
  assert (around (u, (a, p)) s0 s1) as Ha1.
  { apply docs_around; [done|by exists b|]. intros k Hk d. by apply lookup_insert_ne. }
  apply does_ebind, does_redis; [|done..]. change (snd (puts _ s)) with s1.
  unfold add_to_bookmarks_sorted_set, zset_put.
  set (s2 := update_zset (BOOKMARKS_USER_KEY_PARTS ++ [u])
    (λ z, foldl (λ z '(score, m), <[m := score]> z) z [(as_f64 (bookmarked_at b), post_member a p)]) s1).
  assert (around (u, (a, p)) s0 s2) as Ha2.
  { apply (shelf_around (u, (a, p))); [done..|by exists b|]. intros x Hx z. simpl. by apply lookup_insert_ne. }
  apply does_redis; [|done..]. change (snd (puts _ s1)) with s2. split; [done|]. exists b.
  split; [done|]. split; [done|]. split; [apply lookup_insert_eq|].
  unfold shelved, s2, update_zset, zset_of at 1. simpl. rewrite lookup_insert_eq. simpl. apply lookup_insert_eq.
Qed.

Lemma bookmark_put_does u bookmark_uri id_ k s :
  bookmark_target bookmark_uri = Ok k → bookmark_key id_ = Some k → plain (u, k) → agreed s →
  does (W:=W) (sync_put u bookmark_uri id_) s (λ _, written (u, k) s id_) (around (u, k) s).
Proof.
  intros Ht Hk Hpl Hs. assert (around (u, k) s s) as Hsame by (split; [done|by intros]).
  unfold sync_put. rewrite Ht. destruct k as [a p]. apply does_ebind, does_ret, does_now. intros at_.
  destruct (created_around u (a, p) s id_ at_) as [Ha He]; [done..|].
  apply does_ebind, does_emap_err, does_execute; [|done|unfold create_post_bookmark; by destruct (_ && _)].
  unfold create_post_bookmark. destruct (_ && _); simpl; [|by apply does_ret].
  destruct (bool_decide _); apply does_emap_err; 
    by apply (bookmark_put_to_index_does {| bookmark_id := id_; bookmarked_at := at_ |} u (a, p)).
Qed.

Lemma mark_found u id_ k s :
  agreed s → bookmark_key id_ = Some k →
  get_bookmark_target u id_ s = (λ _, k) <$> marked s (u, k).
Proof.
  intros [Hid _] Hk. unfold get_bookmark_target.
  assert (∀ m b, marked s m = Some b → is_bookmark u id_ (m, b) ↔ m = (u, k)) as Hiff.
  { intros [u' k'] b Hb. unfold is_bookmark. simpl. pose proof (Hid _ _ Hb) as Hkb. simpl in Hkb. split.
    - intros [-> Hi]. rewrite Hi, Hk in Hkb. by injection Hkb as ->.
    - intros [= -> ->]. split; [done|]. by eapply bookmark_key_inj. }
  destruct (filter _ _) as [|[m b] l] eqn:Hl; simpl.
  - destruct (marked s (u, k)) as [b|] eqn:Hb; [|done]. exfalso.
    assert (((u, k), b) ∈ filter (is_bookmark u id_) (map_to_list (bookmarked (graph s)))) as Hin.
    { apply list_elem_of_filter. split; [by apply (Hiff _ _ Hb)|by apply elem_of_map_to_list]. }
    rewrite Hl in Hin. by apply elem_of_nil in Hin.
  - assert ((m, b) ∈ filter (is_bookmark u id_) (map_to_list (bookmarked (graph s)))) as Hin
      by (rewrite Hl; by left).
    apply list_elem_of_filter in Hin as [Hm Hin%elem_of_map_to_list].
    apply (Hiff _ _ Hin) in Hm as ->. unfold marked. by rewrite Hin.
Qed.

Lemma deleted_erased u id_ k s0 s :
  bookmark_key id_ = Some k → around (u, k) s0 s → copy s (u, k) = None → shelved s (u, k) = None →
  erased (u, k) s0 (snd (delete_bookmark u id_ s)).
Proof.
  intros Hk [[Hid Hag] Ho] Hc Hsh.
  assert (∀ m, marked (snd (delete_bookmark u id_ s)) m = if decide (m = (u, k)) then None else marked s m) as Hm.
  { intros [u' k']. unfold marked. simpl. rewrite map_lookup_filter.
    destruct (bookmarked (graph s) !! (u', k')) as [b|] eqn:Hb; simpl; [|by case_decide].
    pose proof (Hid _ _ Hb) as Hkb. simpl in Hkb. case_decide as Heq.
    - injection Heq as -> ->. rewrite option_guard_False; [done|]. intros Hn. apply Hn. split; [done|].
      by eapply bookmark_key_inj.
    - rewrite option_guard_True; [done|]. intros [Hu Hi]. simpl in *. apply Heq. congruence. }
  split; [|split; [by rewrite Hm, decide_True|done]]. split; [split|].
  - intros m b. rewrite Hm. case_decide; [done|]. apply Hid.
  - intros m Hpl. rewrite Hm. case_decide as Hmk; [by subst|]. by apply Hag.
  - intros m Hne. etrans; [by apply Ho|]. intros _. by rewrite Hm, decide_False.
Qed.

Lemma bookmark_del_does u id_ k s :
  bookmark_key id_ = Some k → plain (u, k) → agreed s →
  does (W:=W) (sync_del u id_) s (λ _, erased (u, k) s) (around (u, k) s).
Proof.
  intros Hk Hpl Hs. assert (around (u, k) s s) as Hsame by (split; [done|by intros]).
  unfold sync_del. apply does_ebind, does_emap_err, does_graph; [|done..]. simpl.
  rewrite (mark_found u id_ k) by done. destruct (marked s (u, k)) as [b|] eqn:Hb; simpl.
  2: { apply does_ret. split; [done|]. split; [done|]. by apply Hs. }
  destruct k as [a p]. apply does_ebind, does_emap_err. unfold bookmark_del_from_index.
  set (s1 := set_bookmark_docs (delete (((a, p), u) : PostKey * string)) s).
  assert (around (u, (a, p)) s s1) as Ha1.
  { apply docs_around; [done|by exists b|]. intros k Hne d. by apply lookup_delete_ne. }
  apply does_ebind, does_redis; [|done..]. change (snd (puts _ s)) with s1.
  unfold remove_from_bookmarks_sorted_set, zset_remove.
  set (s2 := update_zset (BOOKMARKS_USER_KEY_PARTS ++ [u]) (λ z, foldl (λ z m, delete m z) z [post_member a p]) s1).
  assert (around (u, (a, p)) s s2) as Ha2.
  { apply (shelf_around (u, (a, p))); [done..|by exists b|]. intros x Hx z. simpl. by apply lookup_delete_ne. }
  apply does_redis; [|done..]. change (snd (puts _ s1)) with s2.
  assert (erased (u, (a, p)) s (snd (delete_bookmark u id_ s2))) as Hend.
  { apply deleted_erased; [done..|apply lookup_delete_eq|].
    unfold shelved, s2, update_zset, zset_of at 1. simpl. rewrite lookup_insert_eq. simpl. apply lookup_delete_eq. }
  apply does_ebind, does_emap_err, does_graph; [by apply does_ret|done|apply Hend].
Qed.

(** ** Histories *)

Inductive bookmark_event :=
  | PutBookmark (user_id bookmark_uri bookmark_id_ : string)
  | DelBookmark (user_id bookmark_id_ : string).

Definition handle_bookmark (e : bookmark_event) : prog (Site W) (result unit Ep.EventProcessorError) :=
  match e with
  | PutBookmark u bookmark_uri id_ => sync_put u bookmark_uri id_
  | DelBookmark u id_ => sync_del u id_
  end.

Definition about (e : bookmark_event) : option Mark :=
  match e with
  | PutBookmark u bookmark_uri _ =>
      match bookmark_target bookmark_uri with Ok k => Some (u, k) | Err _ => None end
  | DelBookmark u id_ => pair u <$> bookmark_key id_
  end.

(** Ids are derived from posts, and authors' ids have no colon. *)
Definition well_formed (e : bookmark_event) : Prop :=
  match e with
  | PutBookmark u bookmark_uri id_ =>
      ∀ k, bookmark_target bookmark_uri = Ok k → bookmark_key id_ = Some k ∧ plain (u, k)
  | DelBookmark u id_ => ∃ k, bookmark_key id_ = Some k ∧ plain (u, k)
  end.

(** An answered put has the edge, its copy and its place on the shelf, with the time it was put;
    after an answered deletion none is left. *)
Definition established (e : bookmark_event) (s : Stores) : Prop :=
  ∀ m, about e = Some m →
  match e with
  | PutBookmark _ _ id_ =>
      ∃ b, marked s m = Some b ∧ bookmark_id b = id_ ∧ copy s m = Some b
        ∧ shelved s m = Some (as_f64 (bookmarked_at b))
  | DelBookmark _ _ => marked s m = None ∧ copy s m = None ∧ shelved s m = None
  end.

Lemma around_others e m s s' : about e = Some m → around m s s' → others about undisturbed agreed e s s'.
Proof. intros He [Ha Ho]. split; [done|]. intros m' Hm'. apply Ho. intros ->. done. Qed.

Lemma handle_bookmark_does e s :
  well_formed e → agreed s →
  does (handle_bookmark e) s (λ _ s', established e s' ∧ others about undisturbed agreed e s s')
    (others about undisturbed agreed e s).
Proof.
  intros Hwf Hs. destruct e as [u bookmark_uri id_|u id_]; simpl in *.
  - destruct (bookmark_target bookmark_uri) as [k|err] eqn:Ht.
    + destruct (Hwf k eq_refl) as [Hk Hpl].
      assert (about (PutBookmark u bookmark_uri id_) = Some (u, k)) as Hab by (simpl; by rewrite Ht).
      eapply does_mono; [by apply (bookmark_put_does u bookmark_uri id_ k)| |intros s' Hs'; by eapply around_others].
      intros _ s' [Ha Hw]. split; [|by eapply around_others]. intros m. rewrite Hab. by intros [= <-].
    + unfold sync_put. rewrite Ht. apply does_ebind, does_ret. split; [done|]. by intros m _ _.
  - destruct Hwf as (k & Hk & Hpl).
    assert (about (DelBookmark u id_) = Some (u, k)) as Hab by (simpl; by rewrite Hk).
    eapply does_mono; [by apply (bookmark_del_does u id_ k)| |intros s' Hs'; by eapply around_others].
    intros _ s' (Ha & Hw). split; [|by eapply around_others]. intros m. rewrite Hab. by intros [= <-].
Qed.

Lemma established_stable e m s s' :
  well_formed e → about e = Some m → undisturbed m s s' → established e s → established e s'.
Proof.
  intros Hwf Hab Hu He m' Hm'. rewrite Hab in Hm'. injection Hm' as <-. specialize (He m Hab).
  assert (plain m) as Hpl.
  { destruct e as [u bookmark_uri id_|u id_]; simpl in *.
    - destruct (bookmark_target bookmark_uri) as [k|]; [|done]. injection Hab as <-. by apply Hwf.
    - destruct Hwf as (k & Hk & Hpl). rewrite Hk in Hab. by injection Hab as <-. }
  destruct (Hu Hpl) as (Hm1 & Hm2 & Hm3). destruct e; [|by rewrite Hm1, Hm2, Hm3].
  destruct He as (b & ? & ? & ? & ?). exists b. by rewrite Hm1, Hm2, Hm3.
Qed.

(** C10: Through any history of bookmarks put and deleted, with any call to Redis or the graph
    failing before or after its effect, Redis holds no bookmark the graph does not; and of the
    last event about a user and a post, if it was answered, the edge, its copy in Redis and the
    post's score among the user's bookmarks all agree: there with one time if it was a put,
    and all gone if it was a deletion. *)
Theorem answered_bookmarks_agree es w m e :
  Forall well_formed es → agreed (stores w) →
  let '(log, w') := run_events handle_bookmark es [] w in
  agreed (stores w') ∧ (last_about about m log = Some (e, true) → established e (stores w')).
Proof.
  intros Hes Hw.
  pose proof (run_events_inv stores _ _ established _ _ _ handle_bookmark_does established_stable es w Hes Hw) as Hinv.
  pose proof (answered_stands stores _ _ established _ _ _ handle_bookmark_does established_stable es w m e Hes Hw)
    as Hst. by destruct (run_events _ _ _ _).
Qed.

(** *** Reindexing *)

(** The user's bookmarks on posts after the cursor. *)
Definition bookmarks_above (u : string) (s : Stores) (cursor : string) : nat :=
  length (filter (λ r, ¬ str_le (snd (snd r)) cursor) (bookmarks_of u s)).

Lemma reindex_rows_keeps u rows g : keeps (W:=W) (λ s, bookmarked (graph s) = g) (reindex_rows u rows).
Proof.
  induction rows as [|[b [a p]] rows IH]; [apply keeps_ret|]. cbn [reindex_rows].
  apply keeps_ebind; [|done]. apply keeps_emap_err, keeps_ebind; [by apply keeps_redis|intros _].
  by apply keeps_redis.
Qed.

Lemma reindex_step_does u c s :
  does (W:=W) (reindex_step u c) s
    (λ r s', bookmarked (graph s') = bookmarked (graph s)
       ∧ ∀ next, snd r = Some next → (bookmarks_above u s next < bookmarks_above u s c)%nat)
    (λ s', bookmarked (graph s') = bookmarked (graph s)).
Proof.
  apply does_ebind, does_emap_err, does_graph; [|done..]. simpl. apply does_ebind.
  eapply keeps_does; [apply (reindex_rows_keeps u _ (bookmarked (graph s)))|done| |done].
  intros _ s' Hs'. apply does_ret. split; [done|]. intros next Hnext. simpl in Hnext.
  destruct (last _) as [r|] eqn:Hlast; [|done]. simpl in Hnext. case_decide; [done|]. injection Hnext as <-.
  apply last_Some_elem_of in Hlast. unfold user_bookmarks in Hlast. apply elem_of_take in Hlast as (n & Hn & _).
  apply list_elem_of_lookup_2 in Hn.
  exact (fewer_above (λ r : Bookmark * PostKey, snd (snd r)) (bookmarks_of u s) r c Hn).
Qed.

(** Whatever fails, a reindexing ends: more fuel than the user has bookmarks is enough. *)
Lemma bookmark_reindex_ends u (w : Site W) fuel :
  (bookmarks_above u (stores w) "" < fuel)%nat → ∃ r w', bookmark_reindex fuel u w = (Some r, w').
Proof.
  intros Hfuel. destruct (scan_ends Model.GraphOperationFailed (reindex_step u) BOOKMARK_PAGE_SIZE "bookmark_reindex"
    (bookmarks_above u (stores w)) (λ w' : Site W, bookmarked (graph (stores w')) = bookmarked (graph (stores w))))
    with (fuel := fuel) (c := "") (w := w) as (r & w' & Hr & _); [|done|done|by exists r, w'].
  intros c w1 r w2 Hw1 Hstep.
  pose proof (does_run _ _ _ _ _ _ _ (reindex_step_does u c (stores w1)) eq_refl Hstep) as Hr.
  assert (∀ c, bookmarks_above u (stores w1) c = bookmarks_above u (stores w) c) as Habove
    by (intros c'; unfold bookmarks_above, bookmarks_of; by rewrite Hw1).
  destruct r as [[count [next|]]|e]; simpl in Hr; [|by rewrite Hw1 in Hr; destruct Hr|by rewrite Hw1 in Hr].
  destruct Hr as [Hsame Hnext]. rewrite Hw1 in Hsame. split; [done|]. right. right.
  rewrite <- !Habove. by apply Hnext.
Qed.
End Runs.

(** ** Two bookmarks *)

Module Example_bookmarks.
Import Small_world.

Definition key_of (i : string) : option PostKey :=
  if bool_decide (i = "1") then Some ("bob", "p") else if bool_decide (i = "2") then Some ("bob", "q") else None.

Lemma key_of_post_inj i j k : key_of i = Some k → key_of j = Some k → i = j.
Proof. unfold key_of. intros. repeat case_bool_decide; simplify_eq/=; done. Qed.

Definition post (i : string) : PostNode := {|
  details := {| content := "hi"; id := i; indexed_at := 1; author := "bob"; kind := 0%nat;
                uri := "bob/" +:+ i; attachments := None; lock := None; deleted := false |};
  replied_to := ∅; reposted_of := ∅; mentions := ∅; collected := ∅ |}.

Definition start : Stores := {| people := with_users ["ann"; "bob"]; gate := no_gate; cache := no_cache;
  graph := {| posts := {[("bob", "p") := post "p"; ("bob", "q") := post "q"]};
              tagged := ∅; resources := ∅; bookmarked := ∅ |} |}.

Definition world : Site Z := site start [Served; ReplyLost (Kv.IoError "reset")] [Served; Served; Refused Graph.QueryTimeout].

(** The first put is answered at the second attempt, and the first deletion then fails. *)
Definition events : list bookmark_event := [
  PutBookmark "ann" "bob/p" "1"; PutBookmark "ann" "bob/p" "1"; PutBookmark "ann" "bob/q" "2";
  DelBookmark "ann" "2"; PutBookmark "ann" "bob" "3"].

Definition after := run_events handle_bookmark events [] world.

Example bookmark_answers : snd <$> reverse (fst after) = [false; true; false; true; false].
Proof. vm_compute. reflexivity. Qed.

Lemma answered_bookmarks_agree_witness :
  ∃ b, marked (stores (snd after)) ("ann", ("bob", "p")) = Some b
    ∧ shelved (stores (snd after)) ("ann", ("bob", "p")) = Some (as_f64 (bookmarked_at b)).
Proof.
  assert (Forall (well_formed key_of) events) as Hwf.
  { repeat (apply Forall_cons_2 || apply Forall_nil_2); [..|exists ("bob", "q"); by split|];
      intros k; vm_compute; intros [= <-]; by split. }
  assert (agreed key_of (stores world)) as Hstart by (by split; [intros m b|intros m]).
  pose proof (answered_bookmarks_agree (W:=Z) key_of key_of_post_inj events world ("ann", ("bob", "p"))
    (PutBookmark "ann" "bob/p" "1") Hwf Hstart) as Hrun.
  change (run_events handle_bookmark events [] world) with after in Hrun.
  assert (fst after = reverse (zip events [false; true; false; true; false])) as Hlog
    by (vm_compute; reflexivity).
  destruct after as [log w]. simpl in Hlog. subst log. destruct Hrun as [_ Hrun].
  destruct (Hrun eq_refl ("ann", ("bob", "p")) eq_refl) as (b & Hb & _ & _ & Hsh). by exists b.
Defined.
End Example_bookmarks.
