(* ===== verification/Posts.v ===== *)
(** * Posts: indexing, editing and deleting them

    nexus-watcher/src/events/handlers/post.rs, and the notifications of a changed post to
    everyone who replied to it, tagged it, bookmarked it or reposted it
    (models/notification/mod.rs, changed_post). *)

From S2P Require Import Prelude Errors Users TrustFilter Graphs Scan Events World Notifications PostStore PostIndex.
Local Open Scope Z_scope.
Local Open Scope nexus_scope.

(** ** Mentions in a post's content *)

(** What follows each match of [needle], left to right without overlaps. *)
Fixpoint after_matches (needle s : string) (skip : nat) : list string :=
  match s with
  | EmptyString => []
  | String _ rest =>
      match skip with
      | S skip => after_matches needle rest skip
      | O =>
          if String.prefix needle s then
            String.substring (String.length needle) (String.length s) s
              :: after_matches needle rest (String.length needle - 1)
          else after_matches needle rest 0
      end
  end.

(** [str::is_char_boundary] *)
Definition is_char_boundary (s : string) (n : nat) : bool :=
  match String.get n s with
  | Some c => bool_decide (Ascii.N_of_ascii c < 128 ∨ 192 ≤ Ascii.N_of_ascii c)%N
  | None => bool_decide (n = String.length s)
  end.

(** The first [n] bytes, as [str::get] gives them. *)
Definition get_prefix (n : nat) (s : string) : option string :=
  if is_char_boundary s n then Some (String.substring 0 n s) else None.

Definition user_id_len : nat := 52.

(** The items not seen before. *)
Fixpoint first_seen (seen : gset string) (l : list string) : list string :=
  match l with
  | [] => []
  | x :: l => if decide (x ∈ seen) then first_seen seen l else x :: first_seen ({[x]} ∪ seen) l
  end.

Section Posts.
Context {SP : PostSpecs} {W : Type} {CL : Clock W}.
(** [UserIngestor::maybe_ingest_user]; the author of a post is its address's user. *)
Context (maybe_ingest_user : string → prog (Site W) (result unit Model.ModelError)).

Abbreviation KV A := (prog (Site W) (result A Kv.RedisError)).
Abbreviation MO A := (prog (Site W) (result A Model.ModelError)).
Abbreviation EP A := (prog (Site W) (result A Ep.EventProcessorError)).
Local Abbreviation kv m := (emap_err Ep.from_redis m).
Local Abbreviation mo m := (emap_err Ep.from_model m).
Local Abbreviation gr m := (emap_err Ep.from_graph m).

Definition find_mentioned_ids (content_ prefix : string) : list string :=
  first_seen ∅ (omap (λ rest, c ← get_prefix user_id_len rest; pubky_id c) (after_matches prefix content_ 0)).

Fixpoint mention_all (author_id post_id post_uri : string) (k : Kind) (ids : list string) : EP (list string) :=
  match ids with
  | [] => ret (Ok [])
  | u :: ids =>
      let? _ := gr (on_graph (puts (create_mention_relationship (author_id, post_id) u))) in
      let? mentioned_ := kv (new_mention author_id u post_uri k) in
      let? rest := mention_all author_id post_id post_uri k ids in
      ret (Ok (option_list mentioned_ ++ rest))
  end.

(** The users notified, as they are pushed to the relationships. *)
Definition put_mentioned_relationships (author_id post_id post_uri content_ : string) (k : Kind) :
    EP (list string) :=
  let? old := mention_all author_id post_id post_uri k (find_mentioned_ids content_ "pk:") in
  let? new := mention_all author_id post_id post_uri k (find_mentioned_ids content_ "pubky") in
  ret (Ok (old ++ new)).

(** ** Who interacted with a post *)

(** A row: its cursor, the user, and the address that links them. *)
Definition Row : Type := list string * (string * string).

Definition by_cursor (r r' : Row) : Prop := columns_le (fst r) (fst r').
#[export] Instance by_cursor_dec : RelDecision by_cursor.
Proof. intros r r'. unfold by_cursor. apply _. Defined.

(** The rows of [get_post_replies], [get_post_tags], [get_post_bookmarks] and
    [get_post_reposts], in the order of their cursors. *)
Definition interactions (source : PostChangedSource) (k : PostKey) (g : PostGraph) : list Row :=
  let posts_on (edges : PostNode → gset PostKey) : list Row :=
    omap (λ '((a, i), n), if decide (k ∈ edges n) then Some ([i], (a, uri (details n))) else None)
      (map_to_list (posts g)) in
  let rows :=
    match source with
    | ReplyParent => posts_on replied_to
    | RepostEmbed => posts_on reposted_of
    | TaggedPost =>
        omap (λ '((u, t, _), e), if decide (t = OnPost k) then Some ([u; tag_id e], (u, tag_uri e)) else None)
          (map_to_list (tagged g))
    | BookmarkSource =>
        omap (λ '((u, k'), b),
          if decide (k' = k) then Some ([u], (u, bookmark_uri_builder u (bookmark_id b))) else None)
          (map_to_list (bookmarked g))
    | _ => []
    end in
  if decide (is_Some (posts g !! k)) then merge_sort by_cursor rows else [].

Definition NOTIFICATION_FANOUT_PAGE_SIZE : nat := 1000.

Definition interactions_page (source : PostChangedSource) (k : PostKey) (cursor : list string) (s : Stores) :
    list Row :=
  take NOTIFICATION_FANOUT_PAGE_SIZE
    (filter (λ r : Row, ¬ columns_le (fst r) cursor) (interactions source k (graph s))).

(** Everyone on a page but the author. *)
Fixpoint notify_rows (author_id changed_uri : string) (source : PostChangedSource) (type : PostChangedType)
    (k : Kind) (rows : list Row) : MO unit :=
  match rows with
  | [] => ret (Ok tt)
  | (_, (user_id, linked_uri)) :: rows =>
      let? _ := (if decide (author_id = user_id) then ret (Ok tt)
                 else emap_err Model.KvOperationFailed
                        (notify (changed_body author_id linked_uri changed_uri source type k) user_id)) in
      notify_rows author_id changed_uri source type k rows
  end.

Definition fanout_step (author_id post_id changed_uri : string) (source : PostChangedSource)
    (type : PostChangedType) (k : Kind) (cursor : list string) : MO (nat * option (list string)) :=
  let? rows := emap_err Model.GraphOperationFailed
    (on_graph (gets (interactions_page source (author_id, post_id) cursor))) in
  let? _ := notify_rows author_id changed_uri source type k rows in
  ret (Ok (length rows, fst <$> last rows)).

Definition label_of (source : PostChangedSource) : string :=
  match source with
  | ReplyParent => "get_post_replies"
  | TaggedPost => "get_post_tags"
  | BookmarkSource => "get_post_bookmarks"
  | _ => "get_post_reposts"
  end.

(** With as much fuel as there are rows the scan always answers. *)
Definition fan_out (author_id post_id changed_uri : string) (type : PostChangedType) (k : Kind)
    (source : PostChangedSource) : MO unit := λ w,
  let fuel := S (length (interactions source (author_id, post_id) (graph (stores w)))) in
  match keyset_scan Model.GraphOperationFailed fuel NOTIFICATION_FANOUT_PAGE_SIZE (label_of source)
          (fanout_step author_id post_id changed_uri source type k) w with
  | (Some r, w) => (r, w)
  | (None, w) => (Err (stalled Model.GraphOperationFailed (label_of source) "still scanning"), w)
  end.

(** [Notification::changed_post] *)
Definition changed_post (author_id post_id changed_uri : string) (type : PostChangedType) (k : Kind) : MO unit :=
  let? _ := fan_out author_id post_id changed_uri type k ReplyParent in
  let? _ := fan_out author_id post_id changed_uri type k TaggedPost in
  let? _ := fan_out author_id post_id changed_uri type k BookmarkSource in
  fan_out author_id post_id changed_uri type k RepostEmbed.

(** ** Collections *)

Definition curated_items (d : PostDetails) : list PostKey :=
  if decide (kind d = Collection) then
    match collection_item_keys (content d) with Ok items => items | Err _ => [] end
  else [].

(** Failures are logged and skipped. *)
Fixpoint ingest_users_of (items : list string) : prog (Site W) unit :=
  match items with
  | [] => ret tt
  | item :: items =>
      match parse_post_uri item with
      | Ok parsed => let* _ := maybe_ingest_user (uri_user parsed) in ingest_users_of items
      | Err _ => ingest_users_of items
      end
  end.

Definition ingest_collection_item_authors (post : PubkyAppPost) : prog (Site W) unit :=
  if decide (app_kind post = Collection) then
    match collection_envelope (app_content post) with
    | Ok items => ingest_users_of items
    | Err _ => ret tt
    end
  else ret tt.

(** ** Editing *)

Definition sync_edit (post : PubkyAppPost) (author_id post_id : string) (d : PostDetails)
    (notify_them : bool) (was_kind : Kind) : EP unit :=
  let? _ := kv (details_put_to_index d author_id None true) in
  let* _ := ingest_collection_item_authors post in
  if negb notify_them then ret (Ok tt)
  else
    let change_type := if deleted d then Deleted else Edited in
    let changed_kind := match change_type with Deleted => was_kind | Edited => kind d end in
    let? _ := mo (changed_post author_id post_id (uri d) change_type changed_kind) in
    match app_parent post with
    | None => ret (Ok tt)
    | Some parent =>
        let? parsed_parent := ret (map_err Ep.Generic (parse_post_uri parent)) in
        kv (post_children_changed author_id parent (uri_user parsed_parent) (uri d) Reply change_type changed_kind)
    end.

(** ** Indexing *)

(** Of a parent address, its key. *)
Definition parent_key (parent : ParsedUri) : option PostKey :=
  match uri_target parent with Post i => Some (uri_user parent, i) | _ => None end.

(** A parent a put waits for, whose author is ingested. *)
Definition wait_for (parent : option ParsedUri) : EP (list string) :=
  match parent with
  | None => ret (Ok [])
  | Some parent =>
      let? parent_uri := ret (map_err Ep.Generic (uri_str parent)) in
      let* ingested := maybe_ingest_user (uri_user parent) in
      let? _ := ret (match ingested with
                     | Err (Model.HsBlacklisted hs_id) => Err (Ep.from_model (Model.HsBlacklisted hs_id))
                     | _ => Ok tt
                     end) in
      ret (Ok [parent_uri])
  end.

(** The parents' addresses, or its author's. *)
Definition missing_dependencies (r : PostRelationships) (author_id : string) : EP unit :=
  let? replied_ := wait_for (replied r) in
  let? reposted_ := wait_for (reposted r) in
  match replied_ ++ reposted_ with
  | [] =>
      let? author_uri := ret (map_err Ep.Generic (user_uri_str author_id)) in
      ret (Err (Ep.MissingDependency [author_uri]))
  | dependencies => ret (Err (Ep.MissingDependency dependencies))
  end.

(** A parent's engagement, which a reply has none of. *)
Definition engage (parent : PostKey) (action : ScoreAction) : EP unit :=
  let? is_reply := post_relationships_is_reply (fst parent) (snd parent) in
  if is_reply : bool then ret (Ok tt) else kv (stream_update_index_score (fst parent) (snd parent) action).

Definition resend_parent (author_id : string) (d : PostDetails) (parent : option ParsedUri) (is_reply : bool) :
    EP unit :=
  match parent with
  | None => ret (Ok tt)
  | Some parent =>
      match parent_key parent with
      | None => ret (Ok tt)
      | Some (parent_author, parent_id) =>
          let? _ := kv (invalidate parent_author parent_id) in
          if deleted d then ret (Ok tt)
          else
            let? parent_uri := ret (map_err Ep.Generic (uri_str parent)) in
            let? parent_kind := post_kind parent_author parent_id in
            kv (if is_reply then new_post_reply author_id parent_uri (uri d) parent_author parent_kind
                else new_repost author_id parent_uri (uri d) parent_author parent_kind)
      end
  end.

Definition recover_post_index_state (author_id post_id : string) : EP unit :=
  let? found := gr (details_get_from_graph author_id post_id) in
  match found with
  | None =>
      ret (Err (Ep.Generic "Post recovery: graph reported existing post but get_from_graph returned None"))
  | Some (d, reply) =>
      let? r := gr (relationships_get_from_graph author_id post_id) in
      let r := default no_relationships r in
      let? _ := resend_parent author_id d (replied r) true in
      let? _ := resend_parent author_id d (reposted r) false in
      let? _ := put_mentioned_relationships author_id post_id (uri d) (content d) (kind d) in
      let? _ := mo (sync_collected_edges author_id post_id (curated_items d) (Some d)) in
      join_all [
        kv (details_put_to_index d author_id reply false);
        mo (relationships_reindex author_id post_id);
        mo (counts_reindex author_id post_id)]
  end.

Definition is_collection (k : Kind) : bool := bool_decide (k = Collection).

(** The graph already had the post: an edit, or what a failed attempt left. *)
Definition index_existing (post : PubkyAppPost) (d : PostDetails) (author_id post_id : string) : EP unit :=
  let? existing := kv (details_get_from_index author_id post_id) in
  match existing with
  | Some existing =>
      let was_collection := is_collection (kind existing) in
      let collection_toggled := negb (eqb was_collection (is_collection (app_kind post))) in
      let kind_changed := bool_decide (kind existing ≠ kind d) in
      let? _ := (if was_collection || is_collection (app_kind post)
                 then mo (sync_collected_edges author_id post_id (curated_items d) (Some d))
                 else ret (Ok tt)) in
      if is_different_than existing d || kind_changed then
        let deleted_toggled := negb (eqb (deleted existing) (deleted d)) in
        sync_edit post author_id post_id d
          (content_differs_from existing d || collection_toggled || deleted_toggled) (kind existing)
      else ret (Ok tt)
  | None => recover_post_index_state author_id post_id
  end.

(** Phase 1 *)
Definition start_counts (author_id post_id : string) (is_reply : bool) : EP unit :=
  let? counts := kv (counts_get_from_index author_id post_id) in
  match counts with
  | Some _ => ret (Ok tt)
  | None => kv (counts_put_to_index no_counts author_id post_id is_reply)
  end.

(** Phase 2: the parent a reply is listed under. *)
Definition index_reply (author_id post_id : string) (d : PostDetails) (parent : option ParsedUri) :
    EP (option PostKey) :=
  match parent with
  | None => ret (Ok None)
  | Some parent =>
      match parent_key parent with
      | None => ret (Err (Ep.Generic "Replied URI is not a Post resource"))
      | Some ((parent_author, parent_id) as key) =>
          let? parent_uri := ret (map_err Ep.Generic (uri_str parent)) in
          let? _ := join_all [
            kv (invalidate parent_author parent_id);
            engage key (Increment 1);
            kv (add_to_post_reply_sorted_set key author_id post_id (indexed_at d));
            (let? parent_kind := post_kind parent_author parent_id in
             kv (new_post_reply author_id parent_uri (uri d) parent_author parent_kind))] in
          ret (Ok (Some key))
      end
  end.

(** Phase 3 *)
Definition index_repost (author_id : string) (d : PostDetails) (parent : option ParsedUri) : EP unit :=
  match parent with
  | None => ret (Ok tt)
  | Some parent =>
      match parent_key parent with
      | None => ret (Err (Ep.Generic "Reposted uri is not a Post resource"))
      | Some ((parent_author, parent_id) as key) =>
          let? parent_uri := ret (map_err Ep.Generic (uri_str parent)) in
          join_all [
            kv (invalidate parent_author parent_id);
            engage key (Increment 1);
            (let? embed_kind := post_kind parent_author parent_id in
             kv (new_repost author_id parent_uri (uri d) parent_author embed_kind))]
      end
  end.

Definition index_new (post : PubkyAppPost) (d : PostDetails) (r : PostRelationships)
    (author_id post_id : string) : EP unit :=
  let is_reply := bool_decide (is_Some (app_parent post)) in
  let? mentioned_ := put_mentioned_relationships author_id post_id (uri d) (content d) (app_kind post) in
  let r := {| replied := replied r; reposted := reposted r; mentioned := mentioned r ++ mentioned_ |} in
  let* _ := (match mentioned r with
             | [] => ret tt
             | u :: _ => let* _ := maybe_ingest_user u in ret tt
             end) in
  let* _ := ingest_collection_item_authors post in
  let? _ := (if is_collection (app_kind post)
             then mo (sync_collected_edges author_id post_id (curated_items d) (Some d))
             else ret (Ok tt)) in
  let? _ := start_counts author_id post_id is_reply in
  let? reply_parent := index_reply author_id post_id d (replied r) in
  let? _ := index_repost author_id d (reposted r) in
  join_all [
    kv (relationships_put_to_index r author_id post_id);
    kv (details_put_to_index d author_id reply_parent false)].

Definition sync_put_details (post : PubkyAppPost) (d : PostDetails) (author_id post_id : string) : EP unit :=
  let r := relationships_from_homeserver post in
  let? outcome := gr (details_put_to_graph d r) in
  match outcome with
  | CreatedOrDeleted => index_new post d r author_id post_id
  | Updated => index_existing post d author_id post_id
  | MissingDependency => missing_dependencies r author_id
  end.

Definition sync_put (post : PubkyAppPost) (post_uri author_id post_id : string) : EP unit :=
  let* at_ := now in
  sync_put_details post (from_homeserver post post_uri author_id post_id at_) author_id post_id.

(** ** Deletion *)

(** A parent that loses the post; its counts are invalidated once the node is gone. *)
Definition unlink_parent (author_id deleted_uri : string) (parent : option ParsedUri)
    (source : PostChangedSource) (not_a_post : string) (post_in_index : bool) (deleted_kind : Kind) :
    EP (option PostKey) :=
  match parent with
  | None => ret (Ok None)
  | Some parent =>
      match parent_key parent with
      | None => ret (Err (Ep.Generic not_a_post))
      | Some ((parent_author, parent_id) as key) =>
          let? parent_uri := ret (map_err Ep.Generic (uri_str parent)) in
          let? _ := join_all [
            (if post_in_index then kv (stream_update_index_score parent_author parent_id (Decrement 1))
             else ret (Ok tt));
            (if post_in_index
             then kv (post_children_changed author_id parent_uri parent_author deleted_uri source Deleted deleted_kind)
             else ret (Ok tt))] in
          ret (Ok (Some key))
      end
  end.

Fixpoint invalidate_each (keys : list PostKey) : EP unit :=
  match keys with
  | [] => ret (Ok tt)
  | (a, p) :: keys => let? _ := kv (invalidate a p) in invalidate_each keys
  end.

Definition sync_del (author_id post_id deleted_uri : string) : EP unit :=
  let? from_index := kv (relationships_get_from_index author_id post_id) in
  let post_in_index := bool_decide (is_Some from_index) in
  let? deleted_kind := (if post_in_index then post_kind author_id post_id else ret (Ok UnknownKind)) in
  let? _ := (if post_in_index then kv (relationships_delete author_id post_id) else ret (Ok tt)) in
  let? relationships := (match from_index with
                         | Some r => ret (Ok (Some r))
                         | None => gr (relationships_get_from_graph author_id post_id)
                         end) in
  let r := default no_relationships relationships in
  let is_reply := bool_decide (is_Some (replied r)) in
  let? _ := kv (counts_delete author_id post_id (negb is_reply)) in
  let? reply_parent := unlink_parent author_id deleted_uri (replied r) Reply
    "Replied uri is not a Post resource" post_in_index deleted_kind in
  let? repost_parent := unlink_parent author_id deleted_uri (reposted r) Repost
    "Reposted uri is not a Post resource" post_in_index deleted_kind in
  let? _ := kv (details_delete_from_index author_id post_id reply_parent) in
  let? _ := mo (sync_collected_edges author_id post_id [] None) in
  let? _ := gr (on_graph (puts (delete_post (author_id, post_id)))) in
  invalidate_each (option_list reply_parent ++ option_list repost_parent).

(** A cleared Short that keeps its parent. *)
Definition tombstone (parent : option string) : PubkyAppPost :=
  {| app_content := ""; app_kind := Short; app_parent := parent; app_embed := None;
     app_attachments := None; app_lock := None |}.

Definition del (author_id post_id : string) : EP unit :=
  let? found := gr (details_get_from_graph author_id post_id) in
  match found with
  | None => ret (Err Ep.SkipIndexing)
  | Some (d, _) =>
      let? outcome := gr (execute_graph_operation (gets (post_is_safe_to_delete (author_id, post_id)))) in
      match outcome with
      | CreatedOrDeleted => sync_del author_id post_id (uri d)
      | Updated =>
          let? existing := mo (relationships_get_by_id author_id post_id) in
          let parent := r ← existing; p ← replied r; match uri_str p with Ok u => Some u | Err _ => None end in
          let* at_ := now in
          let t := from_homeserver (tombstone parent) (uri d) author_id post_id at_ in
          let t := {| content := content t; id := id t; indexed_at := indexed_at t; author := author t;
                      kind := kind t; uri := uri t; attachments := attachments t; lock := lock t;
                      deleted := true |} in
          sync_put_details (tombstone parent) t author_id post_id
      | MissingDependency => ret (Err Ep.SkipIndexing)
      end
  end.
End Posts.
