(* ===== verification/PostRuns.v ===== *)
(** * Posts: what the handlers leave behind

    Through any history of posts put and deleted, with calls failing anywhere, what an
    answered event leaves in the graph and in the documents served from Redis. *)

From S2P Require Import Prelude Errors Users TrustFilter Graphs Scan Events World Notifications PostStore Histories PostIndex Leaves Posts.
Local Open Scope Z_scope.
Local Open Scope nexus_scope.

Section Observations.
Context {SP : PostSpecs}.

Definition node (s : Stores) (k : PostKey) : option PostDetails := details <$> posts (graph s) !! k.
Definition doc (s : Stores) (k : PostKey) : option PostDetails := details_docs (cache s) !! k.
Definition links_doc (s : Stores) (k : PostKey) : option PostRelationships := relationships_docs (cache s) !! k.
Definition counts_doc (s : Stores) (k : PostKey) : option PostCounts := counts_docs (cache s) !! k.

(** A node carries its key. *)
Definition keyed (s : Stores) : Prop := ∀ k d, node s k = Some d → (author d, id d) = k.

(** What others may do to a post: a missing document is read through from the graph, and a
    post that is gone stays gone. *)
Record undisturbed (k : PostKey) (s s' : Stores) : Prop := {
  undisturbed_node : node s' k = node s k;
  undisturbed_doc : doc s' k = doc s k ∨ (doc s k = None ∧ doc s' k = node s k);
  undisturbed_links : node s k = None → links_doc s k = None → links_doc s' k = None;
  undisturbed_counts : node s k = None → counts_doc s k = None → counts_doc s' k = None;
}.

#[export] Instance undisturbed_preorder k : PreOrder (undisturbed k).
Proof.
  split; [intros s; split; auto|]. intros s1 s2 s3 [N1 D1 L1 C1] [N2 D2 L2 C2]. split.
  - by rewrite N2.
  - destruct D2 as [-> |[D2 ->]]; [done|]. rewrite N1. right. split; [|done].
    destruct D1 as [D1|[D1 _]]; [|done]. by rewrite <- D1.
  - intros. apply L2; [by rewrite N1|auto].
  - intros. apply C2; [by rewrite N1|auto].
Qed.

(** Nothing but reads, and writes that disturb no post. *)
Definition quiet (s s' : Stores) : Prop := keyed s → keyed s' ∧ ∀ k, undisturbed k s s'.

#[export] Instance quiet_preorder : PreOrder quiet.
Proof.
  split; [intros s Hs; split; [done|reflexivity]|]. intros s1 s2 s3 H12 H23 H1.
  destruct (H12 H1) as [H2 U12]. destruct (H23 H2) as [H3 U23]. split; [done|]. intros k. etrans; [apply U12|apply U23].
Qed.

(** Stores that hold the same of every post. *)
Lemma quiet_same s s' :
  (∀ k, node s' k = node s k) → (∀ k, doc s' k = doc s k) → (∀ k, links_doc s' k = links_doc s k) →
  (∀ k, counts_doc s' k = counts_doc s k) → quiet s s'.
Proof.
  intros N D L C Hk. split; [intros k d; rewrite N; apply Hk|]. intros k. split; [done|by left|..].
  - by rewrite L.
  - by rewrite C.
Qed.

#[export] Instance quiet_blind : Blind quiet.
Proof. split; intros; by apply quiet_same. Qed.

(** One post's documents may differ as well. *)
Definition near (k0 : PostKey) (s s' : Stores) : Prop :=
  keyed s → keyed s' ∧ node s' k0 = node s k0 ∧ ∀ k, k ≠ k0 → undisturbed k s s'.

#[export] Instance near_preorder k0 : PreOrder (near k0).
Proof.
  split; [intros s Hs; by split|]. intros s1 s2 s3 H12 H23 H1.
  destruct (H12 H1) as (H2 & N2 & U12). destruct (H23 H2) as (H3 & N3 & U23).
  split; [done|]. split; [by rewrite N3|]. intros k Hk. etrans; [by apply U12|by apply U23].
Qed.

(** Its details document stays. *)
Definition only (k0 : PostKey) (s s' : Stores) : Prop :=
  near k0 s s' ∧ (keyed s → ∀ e, doc s k0 = Some e → doc s' k0 = Some e).

#[export] Instance only_post_preorder k0 : PreOrder (only k0).
Proof.
  split; [intros s; split; [reflexivity|done]|]. intros s1 s2 s3 [H12 D12] [H23 D23]. split; [by etrans|].
  intros Hk e He. apply D23; [by apply H12|]. by apply D12.
Qed.

Lemma quiet_only k0 s s' : quiet s s' → only k0 s s'.
Proof.
  intros Hq. split.
  - intros Hk. destruct (Hq Hk) as [Hk' U]. split; [done|]. split; [apply U|auto].
  - intros Hk e He. destruct (Hq Hk) as [_ U]. destruct (undisturbed_doc _ _ _ (U k0)) as [-> |[Hn _]]; [done|].
    by rewrite Hn in He.
Qed.

Lemma only_near k0 s s' : only k0 s s' → near k0 s s'.
Proof. by intros []. Qed.

Lemma quiet_near k0 s s' : quiet s s' → near k0 s s'.
Proof. intros. by apply only_near, quiet_only. Qed.
End Observations.

Section Quiet.
Context {SP : PostSpecs} {W : Type} {CL : Clock W}.
Abbreviation hushed m := (leaves (W:=W) quiet m).

Lemma quiet_links_put k r s : is_Some (node s k) → quiet s (set_relationships_docs <[k := r]> s).
Proof.
  intros Hn Hk. split; [done|]. intros k'. split; [done|by left| |by intros]. intros Hn' Hl.
  unfold links_doc. simpl. rewrite lookup_insert_ne; [done|]. intros ->. rewrite Hn' in Hn. by destruct Hn.
Qed.

Lemma quiet_doc_put k d s : node s k = Some d → doc s k = None → quiet s (set_details_docs <[k := d]> s).
Proof.
  intros Hn Hd Hk. split; [done|]. intros k'. split; [done| |by intros..].
  unfold doc at 1 4. simpl. destruct (decide (k' = k)) as [->|Hne].
  - right. by rewrite lookup_insert_eq, Hn.
  - left. by rewrite lookup_insert_ne.
Qed.

Lemma quiet_counts_shrink f s :
  (∀ k m, m !! k = None → (f m : gmap PostKey PostCounts) !! k = None) → quiet s (set_counts_docs f s).
Proof. intros Hf Hk. split; [done|]. intros k. split; [done|by left|by intros|]. intros _. apply Hf. Qed.

(** Writing a node but for its details. *)
Lemma quiet_edges k n n' s :
  posts (graph s) !! k = Some n → details n' = details n → quiet s (set_posts <[k := n']> s).
Proof.
  intros Hn Hd. assert (∀ k', node (set_posts <[k := n']> s) k' = node s k') as Hnode.
  { intros k'. unfold node. simpl. destruct (decide (k' = k)) as [->|Hne].
    - by rewrite lookup_insert_eq, Hn; simpl; rewrite Hd.
    - by rewrite lookup_insert_ne. }
  by apply quiet_same.
Qed.

Lemma hushed_invalidate a p : hushed (invalidate a p).
Proof.
  apply (leaves_redis quiet). intros s. apply quiet_counts_shrink. intros k m Hm.
  apply lookup_delete_None. by right.
Qed.

Lemma foldl_delete_None {A} (keys : list PostKey) (k : PostKey) (m : gmap PostKey A) :
  m !! k = None → foldl (λ m k, delete k m) m keys !! k = None.
Proof.
  revert m. induction keys as [|k' keys IH]; intros m Hm; [done|]. simpl. apply IH.
  apply lookup_delete_None. by right.
Qed.

Lemma hushed_invalidate_many keys : hushed (invalidate_many keys).
Proof.
  unfold invalidate_many. destruct keys; [apply leaves_ret|]. apply (leaves_redis quiet). intros s.
  apply quiet_counts_shrink. intros k m Hm. by apply foldl_delete_None.
Qed.

Lemma hushed_relationships_get_by_id a p : hushed (relationships_get_by_id a p).
Proof.
  intros s0 s Hs. unfold relationships_get_by_id. apply does_ebind, does_emap_err, does_redis; [|done..].
  simpl. destruct (relationships_docs (cache s) !! (a, p)) as [r|]; [by apply does_ret|].
  apply does_ebind, does_emap_err, does_graph; [|done..]. simpl.
  destruct (post_relationships (a, p) s) as [r|] eqn:Hr; [|by apply does_ret].
  assert (quiet s (set_relationships_docs <[(a, p) := r]> s)) as Hq.
  { apply quiet_links_put. unfold post_relationships in Hr. unfold node.
    destruct (posts (graph s) !! (a, p)); [by eexists|done]. }
  apply does_ebind, does_emap_err, does_redis; [apply does_ret|done|]; by etrans.
Qed.

Lemma hushed_details_put_sets d a parent is_edit s :
  does (W:=W) (details_put_to_index d a parent is_edit) s
    (λ _, quiet (set_details_docs <[(a, id d) := d]> s))
    (λ s', s' = s ∨ quiet (set_details_docs <[(a, id d) := d]> s) s').
Proof.
  unfold details_put_to_index. apply does_ebind, does_redis; [|by left|by right]. simpl.
  apply (leaves_does quiet); [|auto..].
  unfold add_to_timeline_sorted_set, add_to_per_user_sorted_set, add_to_post_reply_sorted_set,
    add_to_replies_per_user_sorted_set. leaves_tac.
Qed.

Lemma hushed_details_get_by_id a p : hushed (details_get_by_id a p).
Proof.
  intros s0 s Hs. unfold details_get_by_id. apply does_ebind, does_emap_err, does_redis; [|done..].
  simpl. destruct (details_docs (cache s) !! (a, p)) as [d|] eqn:Hd; [by apply does_ret|].
  apply does_ebind, does_emap_err, does_graph; [|done..]. simpl. unfold get_post_by_id.
  destruct (posts (graph s) !! (a, p)) as [n|] eqn:Hn; [|by apply does_ret]. simpl.
  assert (quiet s (set_details_docs <[(a, id (details n)) := details n]> s)) as Hq.
  { intros Hk. assert (node s (a, p) = Some (details n)) as Hnode by (unfold node; by rewrite Hn).
    pose proof (Hk _ _ Hnode) as [= Ha Hp]. rewrite Hp. by apply quiet_doc_put. }
  apply does_ebind, does_emap_err. eapply does_mono; [apply hushed_details_put_sets|..].
  - intros [] s' Hs'. apply does_ret. etrans; [exact Hs|]. by etrans.
  - intros s' [Heq|Hs']; [by rewrite Heq|]. etrans; [exact Hs|]. by etrans.
Qed.

Lemma hushed_post_kind a p : hushed (post_kind a p).
Proof. pose proof (hushed_details_get_by_id a p). unfold post_kind. leaves_tac. Qed.

Lemma hushed_is_reply a p : hushed (post_relationships_is_reply a p).
Proof. pose proof (hushed_relationships_get_by_id a p). unfold post_relationships_is_reply. leaves_tac. Qed.

Lemma hushed_mention k u : hushed (on_graph (puts (create_mention_relationship k u))).
Proof.
  apply (leaves_graph quiet). intros s. simpl. unfold create_mention_relationship.
  destruct (posts (graph s) !! k) as [n|] eqn:Hn; [|done]. destruct (user_exists u s); [|done].
  by eapply quiet_edges.
Qed.

Lemma hushed_collected a p items d : hushed (sync_collected_edges a p items d).
Proof.
  unfold sync_collected_edges. apply leaves_ebind.
  - apply leaves_emap_err, (leaves_graph quiet). intros s. unfold sync_collection_items.
    destruct (posts (graph s) !! (a, p)) as [n|] eqn:Hn; [|done].
    destruct (match d with Some _ => _ | None => _ end); [|done]. simpl. by eapply quiet_edges.
  - intros [touched|]; [|apply leaves_ret]. apply leaves_emap_err, hushed_invalidate_many.
Qed.
End Quiet.

#[export] Hint Resolve hushed_invalidate hushed_invalidate_many hushed_relationships_get_by_id
  hushed_details_get_by_id hushed_post_kind hushed_is_reply hushed_mention hushed_collected : leaves.

Section Handlers.
Context {SP : PostSpecs} {W : Type} {CL : Clock W}.
Context (maybe_ingest_user : string → prog (Site W) (result unit Model.ModelError)).

(** Ingestion may add users; it leaves the posts alone. *)
Context (Hingest : ∀ u, leaves quiet (maybe_ingest_user u)).

Abbreviation hushed m := (leaves (W:=W) quiet m).
Local Abbreviation kv m := (emap_err Ep.from_redis m).
Local Abbreviation mo m := (emap_err Ep.from_model m).

(** ** What disturbs no post *)

Lemma ingest_users_quietly items : leaves_quietly quiet (ingest_users_of maybe_ingest_user items).
Proof.
  induction items as [|item items IH]; intros s w Hs; [done|]. cbn [ingest_users_of].
  destruct (parse_post_uri item) as [parsed|e]; [|by apply IH]. unfold bind.
  pose proof (leaves_quietly_of _ _ (Hingest (uri_user parsed)) s w Hs) as Hs'.
  destruct (maybe_ingest_user _ w) as [r w']. by apply IH.
Qed.

Lemma ingest_authors_quietly post : leaves_quietly quiet (ingest_collection_item_authors maybe_ingest_user post).
Proof.
  unfold ingest_collection_item_authors. case_decide; [|by intros s w].
  destruct (collection_envelope _); [apply ingest_users_quietly|by intros s w].
Qed.

Lemma hushed_mention_all a p u k ids : hushed (mention_all a p u k ids).
Proof. induction ids as [|x ids IH]; cbn [mention_all]; leaves_tac. Qed.

Lemma hushed_put_mentioned a p u c k : hushed (put_mentioned_relationships a p u c k).
Proof. pose proof (hushed_mention_all a p u k). unfold put_mentioned_relationships. leaves_tac. Qed.

Lemma hushed_notify_rows a u source type k rows : hushed (notify_rows a u source type k rows).
Proof. induction rows as [|[c [x l]] rows IH]; cbn [notify_rows]; leaves_tac. Qed.

Lemma hushed_fanout_step a p u source type k c : hushed (fanout_step a p u source type k c).
Proof. pose proof (hushed_notify_rows a u source type k). unfold fanout_step. leaves_tac. Qed.

Lemma hushed_fan_out a p u type k source : hushed (fan_out a p u type k source).
Proof.
  apply leaves_of_quietly. intros s w Hs. unfold fan_out, keyset_scan.
  pose proof (leaves_scan quiet Model.GraphOperationFailed
    (S (length (interactions source (a, p) (graph (stores w))))) NOTIFICATION_FANOUT_PAGE_SIZE (label_of source)
    (fanout_step a p u source type k) start (hushed_fanout_step a p u source type k) s w Hs) as Hs'.
  by destruct (scan_from _ _ _ _ _ _ w) as [[r|] w'].
Qed.

Lemma hushed_changed_post a p u type k : hushed (changed_post a p u type k).
Proof. pose proof (hushed_fan_out a p u type k). unfold changed_post. leaves_tac. Qed.

Lemma hushed_engage parent action : hushed (engage parent action).
Proof. unfold engage. leaves_tac. Qed.

Lemma hushed_resend a d parent is_reply : hushed (resend_parent a d parent is_reply).
Proof. unfold resend_parent. leaves_tac. Qed.

Lemma hushed_index_reply a p d parent : hushed (index_reply a p d parent).
Proof.
  pose proof hushed_engage. unfold index_reply, add_to_post_reply_sorted_set. leaves_tac.
Qed.

Lemma hushed_index_repost a d parent : hushed (index_repost a d parent).
Proof. pose proof hushed_engage. unfold index_repost. leaves_tac. Qed.

(** ** The post's own documents *)

Definition same_post (d x : PostDetails) : Prop :=
  content x = content d ∧ kind x = kind d ∧ default [] (attachments x) = default [] (attachments d)
  ∧ lock x = lock d ∧ deleted x = deleted d.

Lemma only_links_put k r s : only k s (set_relationships_docs <[k := r]> s).
Proof.
  split; [|done]. intros Hk. split; [done|]. split; [done|]. intros k' Hne. split; [done|by left| |by intros].
  intros _ Hl. unfold links_doc. simpl. by rewrite lookup_insert_ne.
Qed.

Lemma only_counts_put k c s : only k s (set_counts_docs <[k := c]> s).
Proof.
  split; [|done]. intros Hk. split; [done|]. split; [done|]. intros k' Hne. split; [done|by left|by intros|].
  intros _ Hc. unfold counts_doc. simpl. by rewrite lookup_insert_ne.
Qed.

Lemma near_doc f k s : (∀ k' m, k' ≠ k → (f m : gmap PostKey PostDetails) !! k' = m !! k') →
  near k s (set_details_docs f s).
Proof.
  intros Hf Hk. split; [done|]. split; [done|]. intros k' Hne. split; [done| |by intros..]. left. by apply Hf.
Qed.

Lemma minds_links_put r a p : leaves (W:=W) (only (a, p)) (relationships_put_to_index r a p).
Proof. apply (leaves_redis (only (a, p))). intros s. apply only_links_put. Qed.

Lemma minds_counts_put c a p is_reply : leaves (W:=W) (only (a, p)) (counts_put_to_index c a p is_reply).
Proof.
  unfold counts_put_to_index, cache_json, add_to_engagement_sorted_set. apply leaves_ebind.
  - apply (leaves_redis (only (a, p))). intros s. apply only_counts_put.
  - intros _. apply leaves_if; [apply leaves_ret|]. apply (leaves_weaken quiet (only (a, p))); [apply quiet_only|leaves_tac].
Qed.

Lemma minds_links_reindex a p : leaves (W:=W) (only (a, p)) (relationships_reindex a p).
Proof. pose proof (λ r, minds_links_put r a p). unfold relationships_reindex, relationships_get_from_graph. leaves_tac. Qed.

Lemma minds_counts_reindex a p : leaves (W:=W) (only (a, p)) (counts_reindex a p).
Proof. pose proof (λ c, minds_counts_put c a p). unfold counts_reindex, counts_get_from_graph. leaves_tac. Qed.

Lemma minds_start_counts a p is_reply : leaves (W:=W) (only (a, p)) (start_counts a p is_reply).
Proof. pose proof (λ c, minds_counts_put c a p). unfold start_counts, counts_get_from_index. leaves_tac. Qed.

(** From the stores [s0], the post's details now served. *)
Definition served (k : PostKey) (s0 : Stores) (e : PostDetails) (s : Stores) : Prop :=
  near k s0 s ∧ (keyed s0 → doc s k = Some e).

Lemma served_quiet k s0 e s s' : served k s0 e s → only k s s' → served k s0 e s'.
Proof.
  intros [Hn Hd] [Hn' Hd']. split; [by etrans|]. intros Hk. apply Hd'; [by apply Hn|auto].
Qed.

Lemma details_put_does d a parent is_edit s0 s :
  near (a, id d) s0 s →
  does (W:=W) (details_put_to_index d a parent is_edit) s
    (λ _, served (a, id d) s0 d) (near (a, id d) s0).
Proof.
  intros Hs. assert (served (a, id d) s0 d (set_details_docs <[(a, id d) := d]> s)) as Hput.
  { split; [|intros _; apply lookup_insert_eq]. etrans; [exact Hs|]. apply near_doc.
    intros k' m Hne. by apply lookup_insert_ne. }
  eapply does_mono; [apply hushed_details_put_sets|..].
  - intros [] s' Hq. by eapply served_quiet, quiet_only.
  - intros s' [->|Hq]; [done|]. etrans; [apply Hput|by apply quiet_near].
Qed.

Lemma near_then {A B E} k (m : prog (Site W) (result A E)) (f : A → prog (Site W) (result B E)) s0 s Q :
  near k s0 s → leaves (near k) m → (∀ a s', near k s0 s' → does (f a) s' Q (near k s0)) →
  does (ebind m f) s Q (near k s0).
Proof.
  intros Hs Hm Hf. apply (leaves_then (near k)); [done|..].
  - intros s' Hs'. by etrans.
  - intros a s' Hs'. apply Hf. by etrans.
Qed.

Lemma near_after {A B E} k (m : prog (Site W) A) (f : A → prog (Site W) (result B E)) s0 s Q :
  near k s0 s → leaves_quietly quiet m → (∀ a s', near k s0 s' → does (f a) s' Q (near k s0)) →
  does (bind m f) s Q (near k s0).
Proof.
  intros Hs Hm Hf. apply (quietly_then quiet); [done|]. intros a s' Hs'. apply Hf.
  etrans; [exact Hs|by apply quiet_near].
Qed.

Lemma hushed_near {A E} k (m : prog (Site W) (result A E)) : hushed m → leaves (near k) m.
Proof. apply (leaves_weaken quiet (near k)), quiet_near. Qed.

Lemma only_near_leaves {A E} k (m : prog (Site W) (result A E)) : leaves (only k) m → leaves (near k) m.
Proof. apply (leaves_weaken (only k) (near k)), only_near. Qed.

(** *** A post the graph did not have *)

Lemma index_new_does post d r a p s0 s :
  id d = p → near (a, p) s0 s →
  does (index_new maybe_ingest_user post d r a p) s (λ _, served (a, p) s0 d) (near (a, p) s0).
Proof.
  intros <- Hs. unfold index_new.
  apply near_then; [done|apply hushed_near, hushed_put_mentioned|]. clear s Hs. intros ids s Hs. cbn zeta.
  apply near_after; [done|by destruct (mentioned _ ++ ids) as [|u l]; [intros s1 w1|
    intros s1 w1 Hs1; pose proof (leaves_quietly_of _ _ (Hingest u) s1 w1 Hs1); unfold bind;
    simpl; destruct (maybe_ingest_user u w1)]|].
  clear s Hs. intros _ s Hs.
  apply near_after; [done|apply ingest_authors_quietly|]. clear s Hs. intros _ s Hs.
  apply near_then; [done|apply hushed_near; leaves_tac|]. clear s Hs. intros _ s Hs.
  apply near_then; [done|apply only_near_leaves, minds_start_counts|]. clear s Hs. intros _ s Hs.
  apply near_then; [done|apply hushed_near, hushed_index_reply|]. clear s Hs. intros parent s Hs.
  apply near_then; [done|apply hushed_near, hushed_index_repost|]. clear s Hs. intros _ s Hs.
  assert (∀ s1, near (a, id d) s0 s1 →
    does (W:=W) (join_all [kv (details_put_to_index d a parent false)]) s1
      (λ _, served (a, id d) s0 d) (near (a, id d) s0)) as Hlast.
  { intros s1 Hs1. apply does_join_cons, does_emap_err. eapply does_mono; [by apply details_put_does|..].
    - intros [] s2 Hs2. by apply does_join_nil.
    - intros s2 Hs2. by apply does_join_nil. }
  apply (does_join_arm _ _ _ (near (a, id d) s0)).
  - apply does_emap_err, (leaves_does (near (a, id d))); [apply only_near_leaves, minds_links_put|..];
      [intros _|]; intros s1 Hs1; by etrans.
  - intros s1 Hs1. by apply Hlast.
  - intros s1 Hs1. eapply does_mono; [by apply Hlast|by intros _ s2 []|done].
Qed.

(** *** What a failed attempt left *)

Lemma recover_does a p n s0 s :
  near (a, p) s0 s → keyed s0 → node s0 (a, p) = Some n →
  does (recover_post_index_state a p) s (λ _, served (a, p) s0 n) (near (a, p) s0).
Proof.
  intros Hs Hk Hn. assert (node s (a, p) = Some n) as Hns by (by destruct (Hs Hk) as (_ & -> & _)).
  assert (id n = p) as Hid by (pose proof (Hk _ _ Hn); congruence).
  unfold recover_post_index_state. apply does_ebind, does_emap_err, does_graph; [|done..].
  cbn [gets fst snd]. unfold get_post_by_id. unfold node in Hns. destruct (posts (graph s) !! (a, p)) as [node_|]; [|done].
  injection Hns as Hns. cbn [mbind option_bind]. rewrite Hns. generalize (head (elements (replied_to node_))) as reply. intros reply.
  apply near_then; [done|apply hushed_near; unfold relationships_get_from_graph; leaves_tac|].
  clear s Hs. intros r s Hs.
  do 2 (apply near_then; [done|apply hushed_near, hushed_resend|]; clear s Hs; intros _ s Hs).
  apply near_then; [done|apply hushed_near, hushed_put_mentioned|]. clear s Hs. intros _ s Hs.
  apply near_then; [done|apply hushed_near; leaves_tac|]. clear s Hs. intros _ s Hs.
  assert (leaves (W:=W) (only (a, p)) (join_all [mo (relationships_reindex a p); mo (counts_reindex a p)])) as Hrest.
  { apply leaves_join. repeat (apply Forall_cons_2 || apply Forall_nil_2); apply leaves_emap_err;
      [apply minds_links_reindex|apply minds_counts_reindex]. }
  subst p. apply (does_join_arm _ _ _ (served (a, id n) s0 n)).
  - by apply does_emap_err, details_put_does.
  - intros s1 Hs1. apply (leaves_does (only (a, id n))); [done|intros _|]; intros s2 Hs2;
      [by eapply served_quiet|]. etrans; [apply Hs1|by apply only_near].
  - intros s1 Hs1. apply (leaves_does (only (a, id n))); [done|intros _|]; intros s2 Hs2;
      (etrans; [exact Hs1|by apply only_near]).
Qed.

(** *** Edits *)

Lemma sync_edit_does post a p d notify_them was_kind s0 s :
  id d = p → near (a, p) s0 s →
  does (sync_edit maybe_ingest_user post a p d notify_them was_kind) s
    (λ _, served (a, p) s0 d) (near (a, p) s0).
Proof.
  intros <- Hs. unfold sync_edit. apply does_ebind, does_emap_err.
  eapply does_mono; [by apply details_put_does| |done]. intros [] s1 Hs1.
  apply (quietly_then quiet); [apply ingest_authors_quietly|]. intros _ s2 Hs2.
  assert (served (a, id d) s0 d s2) as Hs2' by (by eapply served_quiet, quiet_only).
  apply (leaves_does quiet).
  - pose proof (hushed_changed_post a (id d)). leaves_tac.
  - intros _ s3 Hs3. by eapply served_quiet, quiet_only.
  - intros s3 Hs3. etrans; [apply Hs2'|by apply quiet_near].
Qed.

Lemma same_unless d e :
  is_different_than e d || bool_decide (kind e ≠ kind d) = false → same_post d e.
Proof.
  unfold is_different_than, content_differs_from, same_post. intros H.
  repeat (apply orb_false_iff in H as [H ?]).
  repeat match goal with Hb : bool_decide _ = false |- _ => apply bool_decide_eq_false in Hb; apply dec_stable in Hb end.
  repeat split; congruence.
Qed.

(** The post served: as it was put, whatever was served before. *)
Definition served_same (k : PostKey) (s0 : Stores) (d : PostDetails) (s : Stores) : Prop :=
  ∃ e, served k s0 e s ∧ same_post d e.

Lemma index_existing_does post d a p n s0 :
  keyed s0 → id d = p → node s0 (a, p) = Some n → same_post d n →
  does (index_existing maybe_ingest_user post d a p) s0 (λ _, served_same (a, p) s0 d) (near (a, p) s0).
Proof.
  intros Hk Hid Hn Hsame. assert (near (a, p) s0 s0) as Hs0 by reflexivity.
  unfold index_existing, details_get_from_index. apply does_ebind, does_emap_err, does_redis; [|done..]. simpl.
  destruct (details_docs (cache s0) !! (a, p)) as [e|] eqn:He.
  - assert (hushed (if is_collection (kind e) || is_collection (app_kind post)
      then mo (sync_collected_edges a p (curated_items d) (Some d)) else ret (Ok tt))) as Hh by leaves_tac.
    apply (leaves_then quiet); [done|intros s'; apply quiet_near|]. intros _ s Hq.
    destruct (_ || bool_decide _) eqn:Hdiff.
    + eapply does_mono; [apply (sync_edit_does _ _ _ _ _ _ s0 s); [done|by apply quiet_near]| |done].
      intros [] s' Hs'. by exists d.
    + apply does_ret. exists e. split; [|by apply same_unless].
      apply (served_quiet _ _ _ s0); [|by apply quiet_only]. split; [done|]. by intros _.
  - eapply does_mono; [by apply (recover_does a p n s0 s0)| |done]. intros [] s' Hs'. by exists n.
Qed.

(** *** Puts *)

Definition others (k : PostKey) (s0 s : Stores) : Prop :=
  keyed s ∧ ∀ k', k' ≠ k → undisturbed k' s0 s.

Lemma near_others k s0 s : keyed s0 → near k s0 s → others k s0 s.
Proof. intros Hk Hn. destruct (Hn Hk) as (? & _ & ?). by split. Qed.

Lemma others_trans k s1 s2 s3 : others k s1 s2 → others k s2 s3 → others k s1 s3.
Proof. intros [K2 U12] [K3 U23]. split; [done|]. intros k' Hne. etrans; [by apply U12|by apply U23]. Qed.

(** The graph has the post. *)
Definition in_graph (k : PostKey) (d : PostDetails) (s0 s : Stores) : Prop :=
  others k s0 s ∧ ∃ n, node s k = Some n ∧ same_post d n.

Lemma post_written_in_graph d reply_parent repost_parent s :
  keyed s →
  in_graph (author d, id d) d s
    (set_posts (λ m, <[(author d, id d) := post_written d reply_parent repost_parent (m !! (author d, id d))]> m) s).
Proof.
  intros Hk. set (s' := set_posts _ s).
  assert (∀ k', k' ≠ (author d, id d) → node s' k' = node s k') as Hne.
  { intros k' Hne. unfold node, s'. simpl. by rewrite lookup_insert_ne. }
  assert (node s' (author d, id d) = Some _) as Heq by (unfold node, s'; simpl; rewrite lookup_insert_eq; reflexivity).
  split; [split|eexists; split; [exact Heq|done]].
  - intros k' x. destruct (decide (k' = (author d, id d))) as [->|Hk']; [|rewrite Hne by done; apply Hk].
    rewrite Heq. by intros [= <-].
  - intros k' Hk'. split; [by apply Hne|by left|by intros..].
Qed.

Lemma put_to_graph_does d r s :
  keyed s →
  does (W:=W) (details_put_to_graph d r) s
    (λ o s', match o with MissingDependency => s' = s | _ => in_graph (author d, id d) d s s' end)
    (others (author d, id d) s).
Proof.
  intros Hk. assert (others (author d, id d) s s) as Hsame by by split.
  unfold details_put_to_graph. apply does_ebind, does_ret.
  destruct (relationship_param (replied r)) as [reply_parent|]; [|done]. apply does_ebind, does_ret.
  destruct (relationship_param (reposted r)) as [repost_parent|]; [|done]. case_decide.
  { apply does_ebind, does_graph; [by apply does_ret|done..]. }
  pose proof (post_written_in_graph d reply_parent repost_parent s Hk) as Hw.
  apply does_ebind, does_graph; [|done|]; unfold create_post; destruct (_ && _); simpl;
    try (case_decide; simpl); try done; try (by apply does_ebind, does_ret; try apply does_ret);
    try apply Hw.
  apply does_ebind, does_ret, does_ret. by destruct (bool_decide _).
Qed.

(** An answered put, or the answered rewriting of a deleted post. *)
Definition published (k : PostKey) (d : PostDetails) (s : Stores) : Prop :=
  ∃ n e, node s k = Some n ∧ same_post d n ∧ doc s k = Some e ∧ same_post d e.

Lemma served_published k d n s0 s :
  keyed s0 → node s0 k = Some n → same_post d n → served_same k s0 d s → published k d s ∧ others k s0 s.
Proof.
  intros Hk Hn Hd (e & [Hnear He] & Hsame). split; [|by apply near_others].
  exists n, e. destruct (Hnear Hk) as (_ & -> & _). auto.
Qed.

Lemma missing_never_answers r a s :
  does (missing_dependencies maybe_ingest_user r a) s (λ _ _, False) (quiet s).
Proof.
  assert (∀ parent, hushed (wait_for maybe_ingest_user parent)) as Hwait.
  { intros [parent|]; [|apply leaves_ret]. cbn [wait_for]. apply leaves_ebind; [apply leaves_ret|intros u].
    apply leaves_bind; [apply Hingest|]. intros r'. apply leaves_ebind; [apply leaves_ret|intros; apply leaves_ret]. }
  unfold missing_dependencies. apply (leaves_then quiet); [apply Hwait|done|]. intros l s1 Hs1.
  apply (leaves_then quiet); [apply Hwait|intros; by etrans|]. intros l' s2 Hs2.
  assert (quiet s s2) as Hs by by etrans.
  destruct (l ++ l'); [apply does_ebind, does_ret|by apply does_ret].
  destruct (map_err _ _); [by apply does_ret|done].
Qed.

Lemma sync_put_details_does post d s :
  keyed s →
  does (sync_put_details maybe_ingest_user post d (author d) (id d)) s
    (λ _ s', published (author d, id d) d s' ∧ others (author d, id d) s s') (others (author d, id d) s).
Proof.
  intros Hk. unfold sync_put_details. apply does_ebind, does_emap_err.
  eapply does_mono; [by apply put_to_graph_does| |done]. intros o s1 Ho.
  assert (∀ s2, near (author d, id d) s1 s2 → o ≠ MissingDependency → others (author d, id d) s s2) as Hnear.
  { intros s2 Hs2 Hne. assert (in_graph (author d, id d) d s s1) as [Ho1 _] by by destruct o.
    eapply others_trans; [exact Ho1|]. apply near_others; [apply Ho1|done]. }
  destruct o.
  1,2: destruct Ho as [Ho (n & Hn & Hsame)]; assert (keyed s1) as Hk1 by apply Ho.
  - eapply does_mono; [by apply (index_existing_does post d (author d) (id d) n s1)| |intros; by apply Hnear].
    intros [] s2 Hs2. destruct (served_published (author d, id d) d n s1 s2) as [Hp Ho2]; [done..|].
    split; [done|]. by eapply others_trans.
  - eapply does_mono; [by apply (index_new_does post d _ (author d) (id d) s1 s1)| |intros; by apply Hnear].
    intros [] s2 Hs2. destruct (served_published (author d, id d) d n s1 s2) as [Hp Ho2]; [done..|by exists d|].
    split; [done|]. by eapply others_trans.
  - subst s1. eapply does_mono; [apply missing_never_answers|done|].
    intros s2 Hs2. by apply near_others, quiet_near.
Qed.

(** *** Deletion *)

Definition gone (k : PostKey) (s : Stores) : Prop :=
  node s k = None ∧ doc s k = None ∧ links_doc s k = None ∧ counts_doc s k = None.

(** The post's own documents may only go. *)
Definition fading (k : PostKey) (s s' : Stores) : Prop :=
  near k s s' ∧ (doc s k = None → doc s' k = None) ∧ (links_doc s k = None → links_doc s' k = None)
  ∧ (counts_doc s k = None → counts_doc s' k = None).

#[local] Instance fading_preorder k : PreOrder (fading k).
Proof.
  split; [intros s; split; [reflexivity|auto]|].
  intros s1 s2 s3 (N12 & D12 & L12 & C12) (N23 & D23 & L23 & C23). split; [by etrans|auto].
Qed.

Lemma fading_same k s s' :
  (∀ k, node s' k = node s k) → (∀ k, doc s' k = doc s k) → (∀ k, links_doc s' k = links_doc s k) →
  (∀ k, counts_doc s' k = counts_doc s k) → fading k s s'.
Proof. intros N D L C. split; [by apply quiet_near, quiet_same|]. by rewrite D, L, C. Qed.

#[local] Instance fading_blind k : Blind (fading k).
Proof. split; intros; by apply fading_same. Qed.

Lemma fading_counts k f s :
  (∀ k m, m !! k = None → (f m : gmap PostKey PostCounts) !! k = None) → fading k s (set_counts_docs f s).
Proof. intros Hf. split; [by apply quiet_near, quiet_counts_shrink|]. split; [done|]. split; [done|]. apply Hf. Qed.

Lemma fading_doc k s : fading k s (set_details_docs (delete k) s).
Proof.
  split; [apply near_doc; intros k' m Hne; by apply lookup_delete_ne|]. split; [|done]. intros _. apply lookup_delete_eq.
Qed.

Lemma fades_invalidate k a p : leaves (W:=W) (fading k) (invalidate a p).
Proof.
  apply (leaves_redis (fading k)). intros s. apply fading_counts. intros k' m Hm. apply lookup_delete_None. by right.
Qed.

Lemma fades_invalidate_each k keys : leaves (W:=W) (fading k) (invalidate_each keys).
Proof. pose proof (fades_invalidate k). induction keys as [|[a p] keys IH]; cbn [invalidate_each]; leaves_tac. Qed.

Lemma fades_collected k a p items d : leaves (W:=W) (fading k) (sync_collected_edges a p items d).
Proof.
  unfold sync_collected_edges. apply leaves_ebind.
  - apply leaves_emap_err, (leaves_graph (fading k)). intros s. unfold sync_collection_items.
    destruct (posts (graph s) !! (a, p)) as [n|] eqn:Hn; [|done].
    destruct (match d with Some _ => _ | None => _ end); [|done]. simpl.
    split; [by eapply quiet_near, quiet_edges|done].
  - intros [touched|]; [|apply leaves_ret]. apply leaves_emap_err. unfold invalidate_many.
    destruct touched; [apply leaves_ret|]. apply (leaves_redis (fading k)). intros s. apply fading_counts.
    intros k' m Hm. by apply foldl_delete_None.
Qed.

Lemma fades_unlink k a u parent source e b kd : leaves (W:=W) (fading k) (unlink_parent a u parent source e b kd).
Proof. unfold unlink_parent. leaves_tac. Qed.

(** Of the index entries, from the details document on. *)
Lemma details_delete_does a p parent s :
  does (W:=W) (details_delete_from_index a p parent) s
    (λ _ s', fading (a, p) s s' ∧ doc s' (a, p) = None) (fading (a, p) s).
Proof.
  unfold details_delete_from_index. pose proof (fading_doc (a, p) s) as Hd.
  assert (doc (set_details_docs (delete (a, p)) s) (a, p) = None) as Hnone by apply lookup_delete_eq.
  apply does_ebind, does_redis; [|done..]. cbn [puts fst snd]. apply (leaves_does (fading (a, p))).
  - unfold remove_from_timeline_sorted_set, remove_from_per_user_sorted_set, remove_from_post_reply_sorted_set,
      remove_from_replies_per_user_sorted_set. leaves_tac.
  - intros _ s' Hs'. split; [by etrans|]. by apply Hs'.
  - intros s' Hs'. by etrans.
Qed.

Lemma delete_post_near k s :
  keyed s → others k s (delete_post k s) ∧ node (delete_post k s) k = None
  ∧ (∀ k', doc (delete_post k s) k' = doc s k') ∧ (∀ k', links_doc (delete_post k s) k' = links_doc s k')
  ∧ (∀ k', counts_doc (delete_post k s) k' = counts_doc s k').
Proof.
  intros Hk. unfold delete_post. case_decide as Hn.
  2: { assert (node s k = None) as Hnone.
       { unfold node. destruct (posts (graph s) !! k); [by destruct Hn|done]. }
       split; [by split|auto]. }
  set (s' := set_graph _ s). assert (∀ k', node s' k' = if decide (k' = k) then None else node s k') as Hnode.
  { intros k'. unfold node, s'. simpl. rewrite lookup_fmap. case_decide as Hkk.
    - subst. by rewrite lookup_delete_eq.
    - rewrite lookup_delete_ne by done. by destruct (posts (graph s) !! k'). }
  split; [split|split; [by rewrite Hnode, decide_True|done]].
  - intros k' d. rewrite Hnode. case_decide; [done|]. apply Hk.
  - intros k' Hne. split; [by rewrite Hnode, decide_False|by left|by intros..].
Qed.

(** The end of a deletion, once the gate is down. *)
Lemma delete_rest_does a p u r b kd s0 s :
  keyed s0 → near (a, p) s0 s → links_doc s (a, p) = None →
  does (W:=W) (
    let? _ := kv (counts_delete a p (negb (bool_decide (is_Some (replied r))))) in
    let? reply_parent := unlink_parent a u (replied r) Reply "Replied uri is not a Post resource" b kd in
    let? repost_parent := unlink_parent a u (reposted r) Repost "Reposted uri is not a Post resource" b kd in
    let? _ := kv (details_delete_from_index a p reply_parent) in
    let? _ := mo (sync_collected_edges a p [] None) in
    let? _ := emap_err Ep.from_graph (on_graph (puts (delete_post (a, p)))) in
    invalidate_each (option_list reply_parent ++ option_list repost_parent)) s
    (λ _ s', gone (a, p) s' ∧ others (a, p) s0 s') (others (a, p) s0).
Proof.
  intros Hk Hs Hl. assert (∀ s', fading (a, p) s s' → others (a, p) s0 s') as Hfad.
  { intros s' [Hs' _]. apply near_others; [done|by etrans]. }
  assert (counts_doc (set_counts_docs (delete (a, p)) s) (a, p) = None) as Hc by apply lookup_delete_eq.
  assert (fading (a, p) s (set_counts_docs (delete (a, p)) s)) as Hf.
  { apply fading_counts. intros k' m Hm. apply lookup_delete_None. by right. }
  assert (fading (a, p) s s) as Hs_ by reflexivity.
  apply does_ebind, does_emap_err. unfold counts_delete, invalidate. apply does_ebind, does_redis; [|auto..].
  cbn [puts fst snd]. set (s1 := set_counts_docs _ s) in *. clear Hs_.
  apply (leaves_does (fading (a, p))); [unfold delete_from_engagement_sorted_set; leaves_tac| |].
  2: { intros s' Hs'. apply Hfad. by etrans. }
  intros _ s2 Hs2. assert (fading (a, p) s s2) as Hf2 by by etrans.
  assert (counts_doc s2 (a, p) = None) as Hc2 by by apply Hs2.
  apply (leaves_then (fading (a, p))); [apply fades_unlink|intros s' Hs'; apply Hfad; by etrans|].
  intros reply_parent s3 Hs3.
  apply (leaves_then (fading (a, p))); [apply fades_unlink|intros s' Hs'; apply Hfad; etrans; [exact Hf2|by etrans]|].
  intros repost_parent s4 Hs4. assert (fading (a, p) s2 s4) as Hf4 by by etrans.
  apply does_ebind, does_emap_err. eapply does_mono; [apply details_delete_does| |].
  2: { intros s' Hs'. apply Hfad. etrans; [exact Hf2|by etrans]. }
  intros [] s5 [Hf5 Hd5].
  apply (leaves_then (fading (a, p))); [apply leaves_emap_err, fades_collected| |].
  { intros s' Hs'. apply Hfad. etrans; [exact Hf2|]. etrans; [exact Hf4|by etrans]. }
  intros _ s6 Hf6. assert (fading (a, p) s s6) as Hall
    by (etrans; [exact Hf2|]; etrans; [exact Hf4|by etrans]).
  assert (others (a, p) s0 s6) as Ho6 by by apply Hfad.
  destruct (delete_post_near (a, p) s6 ltac:(apply Ho6)) as (Ho7 & Hn7 & Hd7 & Hl7 & Hc7).
  assert (others (a, p) s0 (delete_post (a, p) s6)) as Ho by by eapply others_trans.
  assert (gone (a, p) (delete_post (a, p) s6)) as Hgone.
  { split; [done|]. rewrite Hd7, Hl7, Hc7. split; [by apply Hf6|]. split; [by apply Hall|].
    apply Hf6, Hf5, Hf4, Hc2. }
  apply does_ebind, does_emap_err, does_graph; [|done..]. cbn [puts fst snd].
  apply (leaves_does (fading (a, p))); [apply fades_invalidate_each| |].
  - intros _ s8 (Hn8 & Hd8 & Hl8 & Hc8). destruct Hgone as (? & ? & ? & ?).
    split; [|eapply others_trans; [exact Ho|]; apply near_others; [apply Ho|done]].
    destruct (Hn8 ltac:(apply Ho)) as (_ & Hnn & _). unfold gone. rewrite Hnn. auto.
  - intros s8 (Hn8 & _). eapply others_trans; [exact Ho|]. apply near_others; [apply Ho|done].
Qed.

Lemma sync_del_does a p u s :
  keyed s →
  does (W:=W) (sync_del a p u) s (λ _ s', gone (a, p) s' ∧ others (a, p) s s') (others (a, p) s).
Proof.
  intros Hk. assert (others (a, p) s s) as Hsame by by split.
  unfold sync_del. apply does_ebind, does_emap_err, does_redis; [|done..]. cbn [gets fst snd].
  destruct (relationships_docs (cache s) !! (a, p)) as [r|] eqn:Hr.
  - rewrite bool_decide_eq_true_2 by by eexists.
    apply (leaves_then quiet); [leaves_tac|intros s' Hs'; by apply near_others, quiet_near|]. intros kd s1 Hs1.
    assert (near (a, p) s (set_relationships_docs (delete (a, p)) s1)) as Hn2.
    { etrans; [by apply quiet_near|]. intros Hk1. split; [done|]. split; [done|]. intros k' Hne.
      split; [done|by left| |by intros]. intros _ Hl. unfold links_doc. simpl. by rewrite lookup_delete_ne. }
    apply does_ebind, does_emap_err, does_redis; [|by apply near_others, quiet_near|by apply near_others].
    apply does_ebind, does_ret. apply (delete_rest_does a p u r true kd s); [done..|apply lookup_delete_eq].
  - rewrite bool_decide_eq_false_2 by (intros []; done).
    do 2 (apply does_ebind, does_ret). apply does_ebind, does_emap_err, does_graph; [|done..].
    by apply (delete_rest_does a p u (default no_relationships _) false UnknownKind s).
Qed.

(** The details left of a post that others still link to. *)
Definition cleared (x : PostDetails) : Prop := content x = "" ∧ deleted x = true.

Definition unpublished (k : PostKey) (s : Stores) : Prop :=
  gone k s ∨ ∃ n e, node s k = Some n ∧ doc s k = Some e ∧ cleared n ∧ cleared e.

Lemma del_post_does a p s :
  keyed s →
  does (del maybe_ingest_user a p) s (λ _ s', unpublished (a, p) s' ∧ others (a, p) s s') (others (a, p) s).
Proof.
  intros Hk. assert (others (a, p) s s) as Hsame by by split.
  unfold del. apply does_ebind, does_emap_err, does_graph; [|done..]. cbn [gets fst snd].
  destruct (get_post_by_id (a, p) s) as [[d reply]|]; [|by apply does_ret].
  apply does_ebind, does_emap_err, does_execute; [|done..]. cbn [gets fst snd].
  destruct (outcome_of_flag _).
  - apply (leaves_then quiet); [leaves_tac|intros s' Hs'; by apply near_others, quiet_near|]. intros r s1 Hs1.
    apply does_now. intros at_. cbn zeta. set (t := {| content := _ |}). set (post := tombstone _).
    assert (keyed s1) as Hk1 by by apply Hs1.
    assert (others (a, p) s s1) as Ho1 by by apply near_others, quiet_near.
    eapply does_mono; [apply (sync_put_details_does post t s1 Hk1)| |intros s2 Hs2; by eapply others_trans].
    intros [] s2 [(n & e & Hn & (Hc & _ & _ & _ & Hd) & He & (Hc' & _ & _ & _ & Hd')) Ho2].
    split; [|by eapply others_trans]. right. exists n, e. by split.
  - eapply does_mono; [by apply sync_del_does| |done]. intros [] s' [Hg Ho]. split; [by left|done].
  - by apply does_ret.
Qed.

(** ** Histories *)

Inductive post_event :=
  | PutPost (post : PubkyAppPost) (post_uri author_id post_id : string)
  | DelPost (author_id post_id : string).

Definition handle_post (e : post_event) : prog (Site W) (result unit Ep.EventProcessorError) :=
  match e with
  | PutPost post post_uri a p => sync_put maybe_ingest_user post post_uri a p
  | DelPost a p => del maybe_ingest_user a p
  end.

Definition about (e : post_event) : option PostKey :=
  match e with PutPost _ _ a p | DelPost a p => Some (a, p) end.

(** The graph and the document served from Redis both hold the post as it was put, or nothing
    of it: no node, or one that says it was deleted. *)
Definition established (e : post_event) (s : Stores) : Prop :=
  match e with
  | PutPost post post_uri a p =>
      ∃ n e, node s (a, p) = Some n ∧ doc s (a, p) = Some e ∧ ∀ x, x = n ∨ x = e →
        content x = app_content post ∧ kind x = app_kind post
        ∧ default [] (attachments x) = default [] (app_attachments post) ∧ lock x = app_lock post
        ∧ deleted x = false
  | DelPost a p => unpublished (a, p) s
  end.

Lemma others_history e k s s' :
  about e = Some k → others k s s' → Histories.others about undisturbed keyed e s s'.
Proof. intros He [Hk Ho]. split; [done|]. intros k' Hk'. apply Ho. intros ->. done. Qed.

Lemma handle_post_does e s :
  True → keyed s →
  does (handle_post e) s (λ _ s', established e s' ∧ Histories.others about undisturbed keyed e s s')
    (Histories.others about undisturbed keyed e s).
Proof.
  intros _ Hk. destruct e as [post post_uri a p|a p]; cbn [handle_post].
  - unfold sync_put. apply does_now. intros at_.
    eapply does_mono; [apply (sync_put_details_does post (from_homeserver post post_uri a p at_) s Hk)| |].
    + intros [] s' [(n & e & Hn & Hsn & He & Hse) Ho]. split; [|by eapply others_history].
      exists n, e. split; [done|]. split; [done|]. by intros x [-> | ->].
    + intros s' Ho. by eapply others_history.
  - eapply does_mono; [by apply del_post_does| |intros s' Ho; by eapply others_history].
    intros [] s' [Hu Ho]. split; [done|by eapply others_history].
Qed.

Lemma post_established_stable e k s s' :
  True → about e = Some k → undisturbed k s s' → established e s → established e s'.
Proof.
  intros _ Hab [N D L C] He.
  assert (∀ x, doc s k = Some x → doc s' k = Some x) as Hdoc.
  { intros x Hx. destruct D as [-> |[Hn _]]; [done|congruence]. }
  destruct e as [post post_uri a p|a p]; injection Hab as <-; simpl in *.
  - destruct He as (n & e & Hn & He & Hx). exists n, e. rewrite N. auto.
  - destruct He as [(Hn & Hd & Hl & Hc)|(n & e & Hn & He & Hx)]; [left|right].
    + split; [by rewrite N|]. split; [destruct D as [-> |[_ ->]]; done|]. auto.
    + exists n, e. rewrite N. auto.
Qed.

(** C6: Through any history of posts put and deleted, with ingestion and any call to Redis or
    the graph failing before or after its effect, in any handler, an answered put stands until
    another event about that post: the graph's node and the document served from Redis both
    have its content, kind, attachments and lock. After an answered deletion either nothing of
    the post is left in the graph or in Redis's documents of it, or both hold it cleared and
    marked deleted. *)
Theorem answered_posts_are_served es w k e :
  keyed (stores w) →
  let '(log, w') := run_events handle_post es [] w in
  last_about about k log = Some (e, true) → established e (stores w').
Proof.
  intros Hw. assert (Forall (λ _ : post_event, True) es) as Hes by (by apply Forall_forall).
  pose proof (answered_stands stores _ _ established _ _ _ handle_post_does post_established_stable es w k e Hes Hw)
    as Hst. by destruct (run_events _ _ _ _).
Qed.
End Handlers.

(** ** A post, its edit and its deletion *)

Module Example_posts.
Import Small_world.

Definition ingest (_ : string) : prog (Site Z) (result unit Model.ModelError) := ret (Ok tt).

Definition short (text : string) (parent : option string) : PubkyAppPost := {|
  app_content := text; app_kind := Short; app_parent := parent; app_embed := None;
  app_attachments := None; app_lock := None |}.

Definition start : Stores :=
  {| people := with_users ["ann"; "bob"]; gate := no_gate; graph := no_posts; cache := no_cache |}.

Definition hello : post_event := PutPost (short "hello" None) "ann/p" "ann" "p".
Definition reply : post_event := PutPost (short "hi" (Some "ann/p")) "bob/q" "bob" "q".

(** Ann's post fails halfway and is put again; bob replies; ann edits her post and deletes it, at
    the second attempt. *)
Definition events : list post_event := [
  hello; hello; reply; PutPost (short "bye" None) "ann/p" "ann" "p"; DelPost "ann" "p"; DelPost "ann" "p"].

Definition world : Site Z := site start [Served; Served; Refused (Kv.IoError "reset")]
  (repeat Served 15 ++ [ReplyLost Graph.QueryTimeout]).

Definition after := run_events (handle_post ingest) events [] world.

Example post_answers : snd <$> reverse (fst after) = [false; true; true; true; false; true].
Proof. vm_compute. reflexivity. Qed.

(** Bob's reply stands, and ann's post, which he replied to, is served cleared. *)
Lemma answered_posts_are_served_witness :
  established reply (stores (snd after)) ∧ unpublished ("ann", "p") (stores (snd after)).
Proof.
  assert (keyed (stores world)) as Hstart by by intros k d.
  pose proof (answered_posts_are_served (W:=Z) ingest (λ u, leaves_ret quiet _) events world) as Hrun.
  change (run_events (handle_post ingest) events [] world) with after in Hrun.
  assert (fst after = reverse (zip events [false; true; true; true; false; true])) as Hlog
    by (vm_compute; reflexivity).
  destruct after as [log w]. simpl in Hlog. subst log. split.
  - exact (Hrun ("bob", "q") reply Hstart eq_refl).
  - exact (Hrun ("ann", "p") (DelPost "ann" "p") Hstart eq_refl).
Defined.

Definition run1 (redis : list (Trip Kv.RedisError)) (graph : list (Trip Graph.GraphError)) (es : list post_event) :
    list (post_event * bool) * Site Z :=
  run_events (handle_post ingest) es [] (site start redis graph).

(** Its first attempt fails between the document and the timeline; the retry finds the document
    unchanged and is answered, with the post in neither the timeline nor its author's posts. *)
Definition unlisted := run1 (repeat Served 5 ++ [Refused (Kv.IoError "reset")]) [] [hello; hello].

Example retried_put_is_not_listed :
  snd <$> reverse (fst unlisted) = [false; true]
  ∧ content <$> doc (stores (snd unlisted)) ("ann", "p") = Some "hello"
  ∧ TrustFilter.zset (sorted_key POST_TIMELINE_KEY_PARTS) (gate (stores (snd unlisted))) !! "ann:p" = None
  ∧ zset_of (POST_PER_USER_KEY_PARTS ++ ["ann"]) (stores (snd unlisted)) !! "p" = None.
Proof. vm_compute. repeat split. Qed.

(** An edit: the document takes its time, the graph keeps the first one. *)
Definition edited := run1 [] [] [hello; PutPost (short "bye" None) "ann/p" "ann" "p"].

Example edited_post_has_two_times :
  snd <$> reverse (fst edited) = [true; true]
  ∧ indexed_at <$> node (stores (snd edited)) ("ann", "p") = Some 100
  ∧ indexed_at <$> doc (stores (snd edited)) ("ann", "p") = Some 101.
Proof. vm_compute. repeat split. Qed.

(** An edit that makes the post a reply is created anew in the graph's eyes. *)
Definition attached := run1 [] [] [hello; PutPost (short "hey" None) "bob/q" "bob" "q"; reply].

Example attached_parent_resets_the_time :
  snd <$> reverse (fst attached) = [true; true; true]
  ∧ indexed_at <$> node (stores (snd (run1 [] [] [hello; PutPost (short "hey" None) "bob/q" "bob" "q"]))) ("bob", "q")
    = Some 101
  ∧ indexed_at <$> node (stores (snd attached)) ("bob", "q") = Some 102.
Proof. vm_compute. repeat split. Qed.

(** A recovered post has an empty list of attachments where the put had none, so putting it again
    is an edit. *)
Definition recovered := run1 [Refused (Kv.IoError "reset")] [] [hello; hello].

Example recovered_post_differs_from_itself :
  snd <$> reverse (fst recovered) = [false; true]
  ∧ (λ e, content_differs_from e (from_homeserver (short "hello" None) "ann/p" "ann" "p" 200))
      <$> doc (stores (snd recovered)) ("ann", "p") = Some true.
Proof. vm_compute. repeat split. Qed.
End Example_posts.
