(* ===== verification/PostFanout.v ===== *)
(** * Posts: everyone who interacted is notified

    The paged fan-out of a changed post (models/notification/mod.rs, changed_post): the
    scans always end, and while the graph answers they notify exactly whom a single unpaged
    read of each kind of interaction would. *)

From S2P Require Import Prelude Errors Users TrustFilter Graphs Scan Events World Notifications PostStore PostIndex Leaves Posts.
Local Open Scope Z_scope.
Local Open Scope nexus_scope.

Lemma columns_le_antisymm l1 l2 : columns_le l1 l2 → columns_le l2 l1 → l1 = l2.
Proof.
  revert l2. induction l1 as [|a l1 IH]; intros [|b l2]; simpl; try done.
  intros [[Hab Hne]|[-> H12]] [[Hba Hne']|[Heq H21]]; [|congruence|congruence|f_equal; auto].
  exfalso. by apply Hne, (anti_symm str_le).
Qed.

#[export] Instance by_cursor_trans : Transitive by_cursor.
Proof. intros r1 r2 r3. unfold by_cursor. apply transitivity. Qed.
#[export] Instance by_cursor_total : Total by_cursor.
Proof. intros r1 r2. unfold by_cursor. apply (total columns_le). Qed.

Lemma NoDup_fmap_omap {A B C} (f : A → option B) (g : B → C) (l : list A) :
  NoDup l → (∀ x y a b, x ∈ l → y ∈ l → f x = Some a → f y = Some b → g a = g b → x = y) →
  NoDup (g <$> omap f l).
Proof.
  intros Hnd Hinj. induction Hnd as [|x l Hx Hnd IH]; [constructor|].
  assert (NoDup (g <$> omap f l)) as Htail by (apply IH; intros; eapply Hinj; eauto; by right).
  cbn [omap list_omap]. destruct (f x) as [a|] eqn:Ha; [|done]. rewrite fmap_cons. constructor; [|done].
  intros (b & Hb & Hin)%list_elem_of_fmap. apply list_elem_of_omap in Hin as (y & Hy & Hfy).
  assert (x = y) as <- by (eapply Hinj; eauto; [by left|by right]). done.
Qed.

(** Sorted rows with distinct keys are strictly sorted. *)
Lemma distinct_sorted (rows : list Row) :
  StronglySorted by_cursor rows → NoDup (fst <$> rows) → StronglySorted (below fst) rows.
Proof.
  induction 1 as [|r rows Hs IH Hr]; [constructor|]. rewrite fmap_cons, NoDup_cons. intros [Hin Hnd].
  constructor; [by apply IH|]. apply Forall_forall. intros r' Hr'. pose proof (proj1 (Forall_forall _ _) Hr r' Hr') as Hle.
  split; [exact Hle|]. intros Hge. apply Hin. rewrite (columns_le_antisymm (fst r) (fst r')) by done.
  by apply list_elem_of_fmap_2.
Qed.

Section Fanout.
Context {SP : PostSpecs} {W : Type} {CL : Clock W}.

(** Post ids are unique among all authors', and a tagger's tags of a target are told apart by
    their ids. *)
Definition told_apart (g : PostGraph) : Prop :=
  (∀ k k', is_Some (posts g !! k) → is_Some (posts g !! k') → snd k = snd k' → k = k')
  ∧ ∀ u t l l' x x', tagged g !! (u, t, l) = Some x → tagged g !! (u, t, l') = Some x' →
      tag_id x = tag_id x' → l = l'.

Lemma interactions_distinct source k g : told_apart g → NoDup (fst <$> interactions source k g).
Proof.
  intros [Hposts Htags]. unfold interactions. case_decide; [|constructor].
  assert (∀ edges : PostNode → gset PostKey, NoDup (fst <$> omap (λ '((a, i), n),
    if decide (k ∈ edges n) then Some ([i], (a, uri (details n))) else None) (map_to_list (posts g)))) as Hon.
  { intros edges. apply NoDup_fmap_omap; [apply NoDup_map_to_list|].
    intros [[a i] n] [[a' i'] n'] r r' Hx Hy Hr Hr' Heq. apply elem_of_map_to_list in Hx, Hy.
    repeat case_decide; simplify_eq/=.
    assert ((a, i') = (a', i')) as [= ->] by (apply Hposts; [by eexists|by eexists|done]). congruence. }
  rewrite merge_sort_Permutation.
  destruct source; try apply Hon; try constructor.
  - apply NoDup_fmap_omap; [apply NoDup_map_to_list|].
    intros [[u k'] b] [[u' k''] b'] r r' Hx Hy Hr Hr' Heq. apply elem_of_map_to_list in Hx, Hy.
    repeat case_decide; simplify_eq/=; congruence.
  - apply NoDup_fmap_omap; [apply NoDup_map_to_list|].
    intros [[[u t] l] x] [[[u' t'] l'] x'] r r' Hx Hy Hr Hr' Heq. apply elem_of_map_to_list in Hx, Hy.
    repeat case_decide; simplify_eq/=. assert (l = l') as -> by by eapply Htags. congruence.
Qed.

Lemma interactions_sorted source k g : told_apart g → StronglySorted (below fst) (interactions source k g).
Proof.
  intros Hg. apply distinct_sorted; [|by apply interactions_distinct].
  unfold interactions. case_decide; [|constructor]. apply StronglySorted_merge_sort; apply _.
Qed.

Lemma interactions_nonempty source k g r : r ∈ interactions source k g → fst r ≠ [].
Proof.
  unfold interactions. case_decide; [|by intros ?%elem_of_nil]. rewrite merge_sort_Permutation.
  destruct source; try (by intros ?%elem_of_nil); intros (x & _ & Hx)%list_elem_of_omap;
    repeat match goal with y : (_ * _)%type |- _ => destruct y end; cbn in Hx;
    case_decide; simplify_eq/=; done.
Qed.

(** ** Ends *)

(** How many rows lie above the cursor. *)
Definition rows_above (source : PostChangedSource) (k : PostKey) (s : Stores) (cursor : list string) : nat :=
  length (filter (λ r : Row, ¬ cursor_le (fst r) cursor) (interactions source k (graph s))).

Definition same_graph (s s' : Stores) : Prop := graph s' = graph s.
#[local] Instance same_graph_preorder : PreOrder same_graph.
Proof. split; [done|]. intros s1 s2 s3 H12 H23. unfold same_graph in *. congruence. Qed.
#[local] Instance same_graph_blind : Blind same_graph.
Proof. by split. Qed.

Lemma notify_rows_graph a u source type k rows : leaves (W:=W) same_graph (notify_rows a u source type k rows).
Proof. induction rows as [|[c [x l]] rows IH]; cbn [notify_rows]; leaves_tac. Qed.

Lemma fanout_step_does a p u source type k c s :
  does (W:=W) (fanout_step a p u source type k c) s
    (λ r s', same_graph s s' ∧
       ∀ next, snd r = Some next → (rows_above source (a, p) s next < rows_above source (a, p) s c)%nat)
    (same_graph s).
Proof.
  unfold fanout_step. apply does_ebind, does_emap_err, does_graph; [|done..]. cbn [gets fst snd].
  apply (leaves_then same_graph); [apply notify_rows_graph|done|]. intros _ s1 Hs1. apply does_ret.
  split; [done|]. cbn [snd]. intros next Hnext.
  destruct (last _) as [r|] eqn:Hlast; [|done]. injection Hnext as <-.
  apply last_Some_elem_of in Hlast. unfold interactions_page in Hlast. apply elem_of_take in Hlast as (n & Hn & _).
  apply list_elem_of_lookup_2 in Hn.
  exact (fewer_above (C:=list string) fst (interactions source (a, p) (graph s)) r c Hn).
Qed.

(** Whatever fails, the scan of one kind of interaction answers: [fan_out]'s fuel is enough. *)
Lemma fan_out_ends a p u type k source (w : Site W) :
  ∃ r w', keyset_scan Model.GraphOperationFailed (S (length (interactions source (a, p) (graph (stores w)))))
    NOTIFICATION_FANOUT_PAGE_SIZE (label_of source) (fanout_step a p u source type k) w = (Some r, w').
Proof.
  destruct (scan_ends Model.GraphOperationFailed (fanout_step a p u source type k) NOTIFICATION_FANOUT_PAGE_SIZE
    (label_of source) (rows_above source (a, p) (stores w)) (λ w' : Site W, same_graph (stores w) (stores w'))) with
    (fuel := S (length (interactions source (a, p) (graph (stores w))))) (c := start : list string) (w := w)
    as (r & w' & Hr & _); [|done| |by exists r, w'].
  - intros c w1 r w2 Hw1 Hstep.
    pose proof (does_run _ _ _ _ _ _ _ (fanout_step_does a p u source type k c (stores w1)) eq_refl Hstep) as Hr.
    assert (∀ c, rows_above source (a, p) (stores w1) c = rows_above source (a, p) (stores w) c) as Habove
      by (intros c'; unfold rows_above; by rewrite Hw1).
    destruct r as [[count [next|]]|e]; [|split; [by etrans; [|apply Hr]|done]|split; [by etrans|done]].
    destruct Hr as [Hsame Hnext]. split; [by etrans|]. right. right. rewrite <- !Habove. by apply Hnext.
  - unfold rows_above. pose proof (length_filter (λ r : Row, ¬ cursor_le (fst r) (start : list string))
      (interactions source (a, p) (graph (stores w)))). lia.
Qed.

(** ** One read *)

(** The graph answers, and has these interactions. *)
Definition answering (g : PostGraph) (w : Site W) : Prop := graph_trips w = [] ∧ graph (stores w) = g.

Lemma notify_rows_app a u source type k l l' (w : Site W) :
  notify_rows a u source type k (l ++ l') w
  = ebind (notify_rows a u source type k l) (λ _, notify_rows a u source type k l') w.
Proof.
  revert w. induction l as [|[c [x x']] l IH]; intros w; [done|]. cbn [app notify_rows]. unfold ebind.
  match goal with |- context [match ?m w with _ => _ end] => destruct (m w) as [[[]|e] w1] end; [|done].
  apply IH.
Qed.

Lemma notify_answering body u g w : answering g w → answering g (snd (notify body u w)).
Proof.
  intros [Ht Hg]. unfold notify, now, bind, ebind, ret, map_err. destruct (utc_now (outside w)) as [t o].
  destruct (body_json body) as [json|e]; [|done]. unfold zset_put, on_redis, meet. simpl.
  destruct (redis_trips w) as [|[|e|e] trips]; done.
Qed.

Lemma notify_rows_answering a u source type k rows g w :
  answering g w → answering g (snd (notify_rows a u source type k rows w)).
Proof.
  revert w. induction rows as [|[c [x l]] rows IH]; intros w Hw; [done|]. cbn [notify_rows]. unfold ebind.
  case_decide; [by apply IH|]. unfold emap_err, map_err.
  pose proof (notify_answering (changed_body a l u source type k) x g w Hw) as Hw1.
  destruct (notify _ x w) as [[[]|e] w1]; [by apply IH|done].
Qed.

Lemma fanout_step_answering a p u source type k c w :
  answering (graph (stores w)) w →
  fanout_step a p u source type k c w
  = page_step fst (interactions source (a, p) (graph (stores w))) (notify_rows a u source type k)
      NOTIFICATION_FANOUT_PAGE_SIZE c w.
Proof.
  intros [Ht _]. unfold fanout_step, page_step, on_graph, ebind, emap_err, meet, gets. rewrite Ht. simpl.
  assert ({| outside := outside w; stores := stores w; redis_trips := redis_trips w; graph_trips := [] |} = w) as ->
    by (destruct w; simpl in *; by subst).
  reflexivity.
Qed.

Lemma fan_out_reads_once a p u type k source g w :
  answering g w → told_apart g →
  fan_out a p u type k source w = notify_rows a u source type k (interactions source (a, p) g) w.
Proof.
  intros Hw Hg. unfold fan_out, keyset_scan. assert (graph (stores w) = g) as -> by apply Hw.
  rewrite (scan_visits Model.GraphOperationFailed fst (interactions source (a, p) g)
    (notify_rows a u source type k) (λ _, eq_refl) (λ l l' w, notify_rows_app a u source type k l l' w)
    (answering g) (λ l w, notify_rows_answering a u source type k l g w) _ _ _ _ []
    (interactions source (a, p) g)); try done; try (unfold NOTIFICATION_FANOUT_PAGE_SIZE; lia).
  - by destruct (notify_rows _ _ _ _ _ _ _).
  - intros c w1 Hw1. rewrite fanout_step_answering by (split; [apply Hw1|done]). by destruct Hw1 as [_ ->].
  - apply Nat.le_refl.
  - by apply interactions_sorted.
  - apply Forall_forall. intros r Hr Hle. by eapply interactions_nonempty, (columns_le_antisymm _ []).
Qed.

(** While the graph answers, and post ids are unique and a tagger's tags told apart by their
    ids, a changed post's fan-out in pages of 1000 does exactly what one unpaged read of each
    kind of interaction would: everyone who replied to the post, then who tagged it, bookmarked
    it and reposted it, but for its author, is sent one notification per interaction, in the
    order of the queries, up to the first failure of Redis. *)
Theorem changed_post_reads_once a p u type k (w : Site W) :
  graph_trips w = [] → told_apart (graph (stores w)) →
  let rows source := notify_rows a u source type k (interactions source (a, p) (graph (stores w))) in
  changed_post a p u type k w
  = (let? _ := rows ReplyParent in
     let? _ := rows TaggedPost in
     let? _ := rows BookmarkSource in
     rows RepostEmbed) w.
Proof.
  intros Ht Hg. set (g := graph (stores w)) in *. assert (answering g w) as Hw by by split.
  cbn zeta. unfold changed_post, ebind.
  assert (∀ source w1 r w2, answering g w1 → notify_rows a u source type k (interactions source (a, p) g) w1 = (r, w2) →
    answering g w2) as Hnext.
  { intros source w1 r w2 Hw1 Hrun. pose proof (notify_rows_answering a u source type k
      (interactions source (a, p) g) g w1 Hw1) as H. by rewrite Hrun in H. }
  rewrite (fan_out_reads_once _ _ _ _ _ _ g) by done.
  destruct (notify_rows _ _ ReplyParent _ _ _ w) as [[[]|e] w1] eqn:H1; [|done].
  rewrite (fan_out_reads_once _ _ _ _ _ _ g) by eauto.
  destruct (notify_rows _ _ TaggedPost _ _ _ w1) as [[[]|e] w2] eqn:H2; [|done].
  rewrite (fan_out_reads_once _ _ _ _ _ _ g) by eauto.
  destruct (notify_rows _ _ BookmarkSource _ _ _ w2) as [[[]|e] w3] eqn:H3; [|done].
  by rewrite (fan_out_reads_once _ _ _ _ _ _ g) by eauto.
Qed.
End Fanout.

(** ** A reply and a tag *)

Module Example_fanout.
Import Small_world.

Definition post (a i : string) (parent : gset PostKey) : PostNode := {|
  details := {| content := "hi"; id := i; indexed_at := 1; author := a; kind := 0%nat;
                uri := a +:+ "/" +:+ i; attachments := None; lock := None; deleted := false |};
  replied_to := parent; reposted_of := ∅; mentions := ∅; collected := ∅ |}.

Definition graph_of : PostGraph := {|
  posts := {[("ann", "p") := post "ann" "p" ∅; ("bob", "q") := post "bob" "q" {[("ann", "p")]}]};
  tagged := {[("cat", OnPost ("ann", "p"), "kind") := {| tag_id := "1"; tag_uri := "cat/1"; tagged_at := 1 |}]};
  resources := ∅; bookmarked := ∅ |}.

Definition world : Site Z :=
  site {| people := with_users ["ann"; "bob"; "cat"]; gate := no_gate; graph := graph_of; cache := no_cache |} [] [].

Example interactions_of : (λ source, fst ∘ snd <$> interactions source ("ann", "p") graph_of)
  <$> [ReplyParent; TaggedPost; BookmarkSource; RepostEmbed] = [["bob"]; ["cat"]; []; []].
Proof. vm_compute. reflexivity. Qed.

Lemma graph_told_apart : told_apart graph_of.
Proof.
  split.
  - intros k k' [n Hn] [n' Hn']. simpl in *.
    apply lookup_insert_Some in Hn as [[<- _]|[_ [<- _]%lookup_singleton_Some]];
    apply lookup_insert_Some in Hn' as [[<- _]|[_ [<- _]%lookup_singleton_Some]]; done.
  - intros u t l l' x x' Hx Hx' _. simpl in *.
    apply lookup_singleton_Some in Hx as [[= <- <- <-] _]. by apply lookup_singleton_Some in Hx' as [[= ->] _].
Qed.

Lemma changed_post_reads_once_witness :
  changed_post "ann" "p" "ann/p" Edited 0%nat world
  = (let? _ := notify_rows "ann" "ann/p" ReplyParent Edited 0%nat [(["q"], ("bob", "bob/q"))] in
     let? _ := notify_rows "ann" "ann/p" TaggedPost Edited 0%nat [(["cat"; "1"], ("cat", "cat/1"))] in
     let? _ := ret (Ok tt) in
     ret (Ok tt)) world.
Proof. exact (changed_post_reads_once "ann" "p" "ann/p" Edited 0%nat world eq_refl graph_told_apart). Defined.
End Example_fanout.
