(* ===== verification/Streams.v ===== *)
(** * Post streams served from Redis

    nexus-common/src/models/post/stream.rs: which streams the sorted sets can serve, the
    pages read from them, and the global timeline with the viewer's own hidden posts merged
    back in. What a viewer follows is given; streams served by a graph query are not here. *)

From S2P Require Import Prelude Errors Users TrustFilter Graphs Events World Ranges PostStore PostIndex.
Local Open Scope Z_scope.
Local Open Scope nexus_scope.

Inductive SortOrder := Ascending | Descending.
Inductive StreamSorting := Timeline | TotalEngagement.

(** Of the sources that walk the follow graph, the observer only. *)
Inductive StreamSource :=
  | PostReplies (post_id author_id : string)
  | Following (observer_id : string)
  | Followers (observer_id : string)
  | Friends (observer_id : string)
  | Bookmarks (observer_id : string)
  | Author (author_id : string)
  | AuthorReplies (author_id : string)
  | CollectionOf (author_id post_id : string)
  | PostCollections (author_id post_id : string)
  | Wot (observer_id : string) (depth : Z)
  | WotDomain (observer_id : string) (depth : Z) (domain_tags : list string)
  | All.

Definition get_observer (source : StreamSource) : option string :=
  match source with
  | Followers o | Following o | Friends o | Bookmarks o | Wot o _ | WotDomain o _ _ => Some o
  | _ => None
  end.

(** ** Pages of a sorted set *)

(** By score, ties by member. *)
Definition in_order (order : SortOrder) (a b : string * Z) : Prop :=
  match order with Descending => rank_ge a b | Ascending => rank_ge b a end.

#[export] Instance in_order_dec order : RelDecision (in_order order).
Proof. intros a b. destruct order; unfold in_order; apply _. Defined.

(** [try_from_index_sorted_set]: [start] is given to Redis as the upper bound, [end] as the
    lower one, whatever the order. *)
Definition range (order : SortOrder) (start end_ : option Z) (z : gmap string Z) : list (string * Z) :=
  match order with
  | Descending => rev_range start end_ z
  | Ascending => reverse (rev_range start end_ z)
  end.

Definition index_range (order : SortOrder) (start end_ : option Z) (skip limit : option nat)
    (z : gmap string Z) : option (list (string * Z)) :=
  if decide (z = ∅) then None
  else Some (take (default 1000%nat limit) (drop (default 0%nat skip) (range order start end_ z))).

Record PostKeyStream := { post_keys : list string; last_post_score : option Z }.

(** [score.round() as u64] *)
Definition as_u64 (score : Z) : Z := Z.max 0 (Z.min score u64_max).

Definition from_scored_entries (entries : list (string * Z)) : PostKeyStream :=
  {| post_keys := fst <$> entries; last_post_score := (λ e, as_u64 (snd e)) <$> last entries |}.

Definition no_posts_stream : PostKeyStream := {| post_keys := []; last_post_score := None |}.

(** [dedup_by]: of neighbours with one member the first stays. *)
Fixpoint dedup_from (prev : string * Z) (l : list (string * Z)) : list (string * Z) :=
  match l with
  | [] => []
  | e :: l => if decide (fst e = fst prev) then dedup_from prev l else e :: dedup_from e l
  end.

Definition dedup (l : list (string * Z)) : list (string * Z) :=
  match l with [] => [] | e :: l => e :: dedup_from e l end.

Definition merge_scored (merged : list (string * Z)) (order : SortOrder) : list (string * Z) :=
  dedup (merge_sort (in_order order) merged).

Section Streams.
Context {SP : PostSpecs} {W : Type} {CL : Clock W}.

Abbreviation KV A := (prog (Site W) (result A Kv.RedisError)).

(** A page of one of the viewer's own sets, and of a set every viewer shares. *)
Definition plain_page (key : list string) (order : SortOrder) (start end_ : option Z)
    (skip limit : option nat) : KV (option (list (string * Z))) :=
  on_redis (gets (λ s, index_range order start end_ skip limit (zset_of key s))).

Definition shared_page (key_parts : list string) (order : SortOrder) (start end_ : option Z)
    (skip limit : option nat) : KV (option (list (string * Z))) :=
  on_redis (gets (λ s, index_range order start end_ skip limit (TrustFilter.zset (sorted_key key_parts) (gate s)))).

Definition of_author (user_id : string) (e : string * Z) : string * Z :=
  (post_member user_id (fst e), snd e).

Definition get_merged_timeline (viewer_id : string) (order : SortOrder) (p : Pagination) : KV PostKeyStream :=
  let skip_ := default 0%nat (skip p) in
  let window := (λ l, skip_ + l)%nat <$> limit p in
  let? global := shared_page POST_TIMELINE_KEY_PARTS order (start p) (end_ p) (Some 0%nat) window in
  let? own := plain_page (POST_PER_USER_KEY_PARTS ++ [viewer_id]) order (start p) (end_ p) (Some 0%nat) window in
  let own := of_author viewer_id <$> default [] own in
  let merged := drop skip_ (merge_scored (default [] global ++ own) order) in
  ret (Ok (from_scored_entries (match limit p with Some l => take l merged | None => merged end))).

(** Whether any kind filter is set is all that matters here. *)
Definition can_use_index (sorting : StreamSorting) (source : StreamSource) (tags_ : option (list string))
    (kind_filtered : bool) : bool :=
  if kind_filtered then false
  else
    match sorting, source, tags_ with
    | Timeline, Author _, None => true
    | _, All, None => true
    | _, All, Some [_] => true
    | Timeline, Following _, None => true
    | Timeline, Followers _, None => true
    | Timeline, Friends _, None => true
    | Timeline, Bookmarks _, None => true
    | _, PostReplies _ _, _ => true
    | _, AuthorReplies _, _ => true
    | _, _, _ => false
    end.

Definition get_global_posts_keys (sorting : StreamSorting) (order : SortOrder) (p : Pagination) : KV PostKeyStream :=
  let key_parts := match sorting with
                   | TotalEngagement => POST_TOTAL_ENGAGEMENT_KEY_PARTS
                   | Timeline => POST_TIMELINE_KEY_PARTS
                   end in
  let? found := shared_page key_parts order (start p) (end_ p) (skip p) (limit p) in
  ret (Ok (from_scored_entries (default [] found))).

(** Over [PostsByTagSearch::get_by_label], which is always newest first. *)
Definition get_posts_keys_by_tag (label : string) (sorting : StreamSorting) (p : Pagination) : KV PostKeyStream :=
  let key_parts := match sorting with
                   | TotalEngagement => TAG_GLOBAL_POST_ENGAGEMENT
                   | Timeline => TAG_GLOBAL_POST_TIMELINE
                   end ++ [label] in
  let? found := shared_page key_parts Descending (start p) (end_ p) (Some (default 0%nat (skip p)))
                  (Some (default 10%nat (limit p))) in
  ret (Ok (from_scored_entries (default [] found))).

Definition get_author_posts (user_id : string) (order : SortOrder) (p : Pagination) (replies_ : bool) :
    KV PostKeyStream :=
  let key_parts := if replies_ then POST_REPLIES_PER_USER_KEY_PARTS else POST_PER_USER_KEY_PARTS in
  let? found := plain_page (key_parts ++ [user_id]) order (start p) (end_ p) (skip p) (limit p) in
  ret (Ok match found with
          | Some entries => from_scored_entries (of_author user_id <$> entries)
          | None => no_posts_stream
          end).

Definition get_bookmarked_posts (user_id : string) (order : SortOrder) (p : Pagination) : KV PostKeyStream :=
  let? found := plain_page (BOOKMARKS_USER_KEY_PARTS ++ [user_id]) order (start p) (end_ p) (skip p) (limit p) in
  ret (Ok (from_scored_entries (default [] found))).

Definition get_post_replies (author_id post_id : string) (order : SortOrder) (p : Pagination) : KV PostKeyStream :=
  let? found := plain_page (POST_REPLIES_PER_POST_KEY_PARTS ++ [author_id; post_id]) order
                  (start p) (end_ p) (skip p) (limit p) in
  ret (Ok (from_scored_entries (default [] found))).

(** *** The posts of the users one follows *)

Definition max_user_ids : nat := 200.

(** The users' sets one after the other, each read without a limit of its own. *)
Fixpoint read_users (user_ids : list string) (order : SortOrder) (p : Pagination) : KV (list (string * Z)) :=
  match user_ids with
  | [] => ret (Ok [])
  | u :: user_ids =>
      let? found := plain_page (POST_PER_USER_KEY_PARTS ++ [u]) order (start p) (end_ p) None None in
      let? rest := read_users user_ids order p in
      ret (Ok ((of_author u <$> default [] found) ++ rest))
  end.

(** [sort_by] is stable: by score, descending. *)
Fixpoint insert_by_score (e : string * Z) (l : list (string * Z)) : list (string * Z) :=
  match l with
  | [] => [e]
  | e' :: l => if snd e <? snd e' then e' :: insert_by_score e l else e :: e' :: l
  end.

Definition sort_by_score (l : list (string * Z)) : list (string * Z) := foldr insert_by_score [] l.

Definition get_posts_for_user_ids (user_ids : list string) (order : SortOrder) (p : Pagination) :
    KV (list (string * Z)) :=
  let? post_keys_ := read_users (take max_user_ids user_ids) order p in
  let sorted := sort_by_score post_keys_ in
  let start_index := (default 0%nat (skip p) `min` length sorted)%nat in
  ret (Ok match limit p with
          | Some l => take l (drop start_index sorted)
          | None => drop start_index sorted
          end).

(** [Following], [Followers] and [Friends] of the observer are asked for their first 200. *)
Context (followed : StreamSource → KV (list string)).

Definition get_posts_by_source (source : StreamSource) (order : SortOrder) (p : Pagination) : KV PostKeyStream :=
  let? user_ids := followed source in
  let user_ids := filter (λ u, Some u ≠ get_observer source) user_ids in
  match user_ids with
  | [] => ret (Ok no_posts_stream)
  | _ =>
      let? entries := get_posts_for_user_ids user_ids order p in
      ret (Ok (from_scored_entries entries))
  end.

(** [get_from_index] *)
Definition get_from_index (source : StreamSource) (sorting : StreamSorting) (order : SortOrder)
    (tags_ : option (list string)) (p : Pagination) (own_posts_viewer : option string) : KV PostKeyStream :=
  match source, tags_ with
  | All, None =>
      match own_posts_viewer with
      | Some viewer => get_merged_timeline viewer order p
      | None => get_global_posts_keys sorting order p
      end
  | All, Some [label] => get_posts_keys_by_tag label sorting p
  | Bookmarks observer_id, None => get_bookmarked_posts observer_id order p
  | PostReplies post_id author_id, None => get_post_replies author_id post_id order p
  | Author author_id, None => get_author_posts author_id order p false
  | AuthorReplies author_id, None => get_author_posts author_id order p true
  | source, None => get_posts_by_source source order p
  | _, _ => ret (Ok no_posts_stream)
  end.

(** [may_hide_posts] *)
Definition may_hide_posts : KV bool := on_redis (gets (λ s, filtered (gate s))).

(** Whose own posts the global timeline gets back. *)
Definition own_posts (source : StreamSource) (sorting : StreamSorting) (tags_ : option (list string))
    (viewer_id : option string) : KV (option string) :=
  match source, sorting, tags_, viewer_id with
  | All, Timeline, None, Some viewer =>
      let? hides := may_hide_posts in ret (Ok (if hides : bool then Some viewer else None))
  | _, _, _, _ => ret (Ok None)
  end.

Definition get_collection_items_post_keys (author_id post_id : string) (skip_ limit_ : option nat) :
    prog (Site W) (result PostKeyStream Model.ModelError) :=
  let? found := details_get_by_id author_id post_id in
  match found with
  | None => ret (Ok no_posts_stream)
  | Some d =>
      if decide (kind d = Collection) then
        match collection_item_keys (content d) with
        | Err _ => ret (Ok no_posts_stream)
        | Ok items =>
            let keys := drop (default 0%nat skip_) ((λ '(a, i), post_member a i) <$> items) in
            ret (Ok {| post_keys := match limit_ with Some l => take l keys | None => keys end;
                       last_post_score := None |})
        end
      else ret (Ok no_posts_stream)
  end.
End Streams.

(** ** Two sorted sets paged as one *)

Section Ordered.
Context {A : Type} `{EqDecision A} (R : relation A) `{!RelDecision R, !PreOrder R, !AntiSymm (=) R}.

Lemma filter_sorted (P : A → Prop) `{∀ x, Decision (P x)} l : StronglySorted R l → StronglySorted R (filter P l).
Proof.
  induction 1 as [|x l Hl IH Hx]; [constructor|]. rewrite filter_cons. case_decide; [|done].
  constructor; [done|]. apply Forall_forall. intros y [_ Hy]%list_elem_of_filter.
  by apply (proj1 (Forall_forall _ _) Hx).
Qed.

(** A sorted list within another picks from it. *)
Lemma sorted_within l u :
  StronglySorted R l → NoDup l → StronglySorted R u → NoDup u → (∀ x, x ∈ l → x ∈ u) →
  l = filter (λ x, x ∈ l) u.
Proof.
  intros Hl Hnl Hu Hnu Hin. apply (StronglySorted_unique R); [done|by apply filter_sorted|].
  apply NoDup_Permutation; [done|by apply NoDup_filter|]. intros x. rewrite list_elem_of_filter. naive_solver.
Qed.

(** What is picked from the top is at the top of the pick. *)
Lemma take_filter_top (P : A → Prop) `{∀ x, Decision (P x)} k u x :
  x ∈ take k u → P x → x ∈ take k (filter P u).
Proof.
  revert k. induction u as [|y u IH]; intros k; [rewrite take_nil; by intros ?%elem_of_nil|].
  destruct k as [|k]; [rewrite take_0; by intros ?%elem_of_nil|].
  rewrite filter_cons. simpl. intros [->|Hx]%elem_of_cons HP.
  - rewrite decide_True by done. by left.
  - case_decide; [right; by apply IH|]. apply IH in Hx; [|done].
    apply elem_of_take in Hx as (i & Hi & Hk). apply elem_of_take. exists i. split; [done|lia].
Qed.

(** A pick that has the top has the same top. *)
Lemma take_filter_same (P : A → Prop) `{∀ x, Decision (P x)} k u :
  (∀ x, x ∈ take k u → P x) → take k (filter P u) = take k u.
Proof.
  revert k. induction u as [|y u IH]; intros k Hk; [done|]. destruct k as [|k]; [by rewrite !take_0|].
  rewrite filter_cons, decide_True by (apply Hk; by left). simpl. f_equal. apply IH. intros x Hx.
  apply Hk. by right.
Qed.

(** The first [k] of a union are among the first [k] of its parts. *)
Lemma top_of_union k a b u m :
  StronglySorted R a → NoDup a → StronglySorted R b → NoDup b → StronglySorted R u → NoDup u →
  (∀ x, x ∈ u ↔ x ∈ a ∨ x ∈ b) →
  StronglySorted R m → NoDup m → (∀ x, x ∈ m ↔ x ∈ take k a ∨ x ∈ take k b) →
  take k m = take k u.
Proof.
  intros Sa Na Sb Nb Su Nu Hu Sm Nm Hm.
  assert (∀ (l : list A) x, x ∈ take k l → x ∈ l) as Htake by (intros l x (i & Hi & _)%elem_of_take; by eapply list_elem_of_lookup_2).
  rewrite (sorted_within m u) by (try done; intros x [Hx|Hx]%Hm; apply Hu; eauto).
  apply take_filter_same. intros x Hx. apply Hm. pose proof (proj1 (Hu x) (Htake _ _ Hx)) as [Hxa|Hxb].
  - left. rewrite (sorted_within a u) by (try done; intros; by apply Hu; left). by apply take_filter_top.
  - right. rewrite (sorted_within b u) by (try done; intros; by apply Hu; right). by apply take_filter_top.
Qed.
End Ordered.

#[export] Instance in_order_preorder order : PreOrder (in_order order).
Proof.
  split; [intros a; destruct order; by right|].
  intros a b c. destruct order; unfold in_order; intros; by etrans.
Qed.

#[export] Instance in_order_total order : Total (in_order order).
Proof. intros a b. destruct order; unfold in_order; [destruct (total rank_ge a b); auto|apply (total rank_ge)]. Qed.

#[export] Instance in_order_antisymm order : AntiSymm (=) (in_order order).
Proof. intros a b. destruct order; unfold in_order; intros; by apply (anti_symm rank_ge). Qed.

Lemma StronglySorted_snoc {A} (R : relation A) l x :
  StronglySorted R l → Forall (λ y, R y x) l → StronglySorted R (l ++ [x]).
Proof.
  induction 1 as [|y l Hl IH Hy]; intros Hx; simpl; [by repeat constructor|].
  apply Forall_cons in Hx as [Hyx Hx]. constructor; [by apply IH|]. apply Forall_app. split; [done|by constructor].
Qed.

Lemma StronglySorted_reverse {A} (R : relation A) l :
  StronglySorted R l → StronglySorted (flip R) (reverse l).
Proof.
  induction 1 as [|x l Hl IH Hx]; [constructor|]. rewrite reverse_cons. apply StronglySorted_snoc; [done|].
  apply Forall_forall. intros y Hy. rewrite elem_of_reverse in Hy. rewrite Forall_forall in Hx. by apply Hx.
Qed.

Lemma range_sorted order start end_ z : StronglySorted (in_order order) (range order start end_ z).
Proof.
  pose proof (rev_range_sorted start end_ z) as Hs. destruct order; simpl; [|exact Hs].
  by apply (StronglySorted_reverse rank_ge).
Qed.

Lemma range_NoDup order start end_ z : NoDup (range order start end_ z).
Proof. destruct order; simpl; [rewrite (reverse_Permutation (rev_range start end_ z))|]; apply rev_range_NoDup. Qed.

Lemma elem_of_range order start end_ z m s :
  (m, s) ∈ range order start end_ z ↔ within start end_ (m, s) ∧ z !! m = Some s.
Proof. destruct order; simpl; [rewrite elem_of_reverse|]; apply elem_of_rev_range. Qed.

(** Entries of a set: a member has one score. *)
Definition one_score (l : list (string * Z)) : Prop := ∀ a b, a ∈ l → b ∈ l → fst a = fst b → a = b.

Lemma dedup_from_spec order x l :
  StronglySorted (in_order order) (x :: l) → one_score (x :: l) →
  StronglySorted (in_order order) (x :: dedup_from x l) ∧ NoDup (x :: dedup_from x l)
  ∧ ∀ z, z ∈ x :: dedup_from x l ↔ z ∈ x :: l.
Proof.
  revert x. induction l as [|y l IH]; intros x Hs H1; [split; [done|split; [apply NoDup_singleton|done]]|].
  apply StronglySorted_inv in Hs as [Hyl Hx]. simpl. case_decide as Hxy.
  - assert (y = x) as -> by (apply H1; [by right; left|by left|done]).
    destruct (IH x Hyl) as (Hs' & Hn' & He); [intros a b Ha Hb; apply H1; by right|].
    split; [done|]. split; [done|]. intros z. rewrite He. set_solver.
  - destruct (IH y Hyl) as (Hs' & Hn' & He); [intros a b Ha Hb; apply H1; by right|].
    assert (∀ z, z ∈ y :: dedup_from y l → in_order order x z) as Hle.
    { intros z Hz%He. by apply (proj1 (Forall_forall _ _) Hx). }
    split; [|split].
    + constructor; [done|]. apply Forall_forall. exact Hle.
    + constructor; [|done]. intros Hin%He. apply Hxy.
      assert (in_order order y x) as Hyx.
      { apply elem_of_cons in Hin as [->|Hin]; [reflexivity|].
        apply StronglySorted_inv in Hyl as [_ Hy]. by apply (proj1 (Forall_forall _ _) Hy). }
      by rewrite (anti_symm (in_order order) x y (Forall_inv Hx) Hyx).
    + intros z. rewrite !(elem_of_cons _ _ x), He. done.
Qed.

Lemma merge_scored_spec l order :
  one_score l →
  StronglySorted (in_order order) (merge_scored l order) ∧ NoDup (merge_scored l order)
  ∧ ∀ z, z ∈ merge_scored l order ↔ z ∈ l.
Proof.
  intros H1. unfold merge_scored, dedup. pose proof (StronglySorted_merge_sort (in_order order) l) as Hs.
  pose proof (merge_sort_Permutation (in_order order) l) as Hp.
  destruct (merge_sort (in_order order) l) as [|x m] eqn:Hm.
  - split; [constructor|]. split; [constructor|]. intros z. by rewrite Hp.
  - destruct (dedup_from_spec order x m Hs) as (? & ? & He).
    { intros a b Ha Hb. apply H1; by rewrite <- Hp. }
    split; [done|]. split; [done|]. intros z. by rewrite He, Hp.
Qed.

Lemma str_le_app p x y : str_le (p +:+ x) (p +:+ y) ↔ str_le x y.
Proof.
  induction p as [|c p IH]; [done|]. rewrite !str_cons. unfold str_le, String.leb in *. simpl.
  assert (Ascii.compare c c = Eq) as -> by (unfold Ascii.compare; apply N.compare_refl). exact IH.
Qed.

Section Merged.
Context {SP : PostSpecs} {W : Type} {CL : Clock W}.

(** The viewer's own root posts, as members of the timeline. *)
Definition own_set (viewer_id : string) (s : Stores) : gmap string Z :=
  kmap (post_member viewer_id) (zset_of (POST_PER_USER_KEY_PARTS ++ [viewer_id]) s).

Definition shared_timeline (s : Stores) : gmap string Z :=
  TrustFilter.zset (sorted_key POST_TIMELINE_KEY_PARTS) (gate s).

#[local] Instance post_member_injective v : Inj (=) (=) (post_member v).
Proof. intros x y. unfold post_member. by intros ?%str_app_inj_l%str_app_inj_l. Qed.

Lemma index_range_window order start end_ k z :
  default [] (index_range order start end_ (Some 0%nat) (Some k) z) = take k (range order start end_ z).
Proof.
  unfold index_range. case_decide as Hz; simpl; [|by rewrite drop_0]. subst z.
  assert (range order start end_ ∅ = []) as ->; [|by rewrite take_nil].
  by destruct order.
Qed.

Lemma of_author_in_order v order a b : in_order order a b → in_order order (of_author v a) (of_author v b).
Proof.
  assert (∀ a b, rank_ge a b → rank_ge (of_author v a) (of_author v b)) as H.
  { intros [m x] [m' x'] [?|[? Hle]]; [by left|right]. split; [done|]. simpl in *. unfold post_member.
    by rewrite !str_le_app. }
  destruct order; simpl; apply H.
Qed.

Lemma own_range_sorted v order l : StronglySorted (in_order order) l → StronglySorted (in_order order) (of_author v <$> l).
Proof.
  induction 1 as [|a l Hl IH Ha]; [constructor|]. rewrite fmap_cons. constructor; [done|].
  apply Forall_fmap. eapply Forall_impl; [exact Ha|]. intros b. apply of_author_in_order.
Qed.

Lemma elem_of_own_range v order start end_ s m x :
  (m, x) ∈ of_author v <$> range order start end_ (zset_of (POST_PER_USER_KEY_PARTS ++ [v]) s)
  ↔ within start end_ (m, x) ∧ own_set v s !! m = Some x.
Proof.
  rewrite list_elem_of_fmap. unfold own_set. rewrite lookup_kmap_Some by apply _. split.
  - intros ([i y] & [= -> ->] & [Hw Hi]%elem_of_range). split; [done|]. by exists i.
  - intros (Hw & i & -> & Hi). exists (i, x). split; [done|]. by apply elem_of_range.
Qed.

(** Each member once, with the score that either set has for it. *)
Lemma top_of_timelines viewer_id order start end_ k s :
  (∀ m x y, shared_timeline s !! m = Some x → own_set viewer_id s !! m = Some y → x = y) →
  let a := range order start end_ (shared_timeline s) in
  let b := of_author viewer_id <$> range order start end_ (zset_of (POST_PER_USER_KEY_PARTS ++ [viewer_id]) s) in
  take k (merge_scored (take k a ++ take k b) order) =
  take k (range order start end_ (shared_timeline s ∪ own_set viewer_id s)).
Proof.
  intros Hagree a b.
  assert (∀ (l : list (string * Z)) x, x ∈ take k l → x ∈ l) as Htake
    by (intros l x (i & Hi & _)%elem_of_take; by eapply list_elem_of_lookup_2).
  assert (∀ e, e ∈ a ∨ e ∈ b ↔ within start end_ e ∧ (shared_timeline s ∪ own_set viewer_id s) !! fst e = Some (snd e)) as Hu.
  { intros [m x]. unfold a, b. rewrite elem_of_range, elem_of_own_range, lookup_union_Some_raw. simpl. split; [|naive_solver].
    intros [[? ?]|[? Hy]]; [by auto|]. split; [done|]. destruct (shared_timeline s !! m) eqn:Hx; [|by auto].
    left. by rewrite (Hagree m _ _ Hx Hy). }
  destruct (merge_scored_spec (take k a ++ take k b) order) as (Sm & Nm & Hm).
  { intros [m x] [m' y] Hx Hy [= <-].
    assert (∀ z, (m, z) ∈ take k a ++ take k b → (m, z) ∈ a ∨ (m, z) ∈ b) as Hz.
    { intros z [?|?]%elem_of_app; eauto. }
    apply Hz, Hu in Hx as [_ Hx]. apply Hz, Hu in Hy as [_ Hy]. simpl in *. congruence. }
  apply (top_of_union (in_order order) k a b); try done.
  - apply range_sorted.
  - apply range_NoDup.
  - apply own_range_sorted, range_sorted.
  - apply NoDup_fmap_2_strong; [|apply range_NoDup]. intros [m x] [m' x'] _ _ [= ?%(inj (post_member viewer_id)) ->].
    by subst.
  - apply range_sorted.
  - apply range_NoDup.
  - intros [m x]. by rewrite Hu, elem_of_range.
  - intros x. by rewrite Hm, elem_of_app.
Qed.

(** C22: With a limit, the viewer's global timeline is the page that one sorted set holding the
    shared timeline and the viewer's own root posts would give: whatever the order, bounds,
    skip and limit, provided a post that is in both has one score. A call that fails leaves
    no page, and nothing is written. *)
Theorem merged_timeline_is_one_set viewer_id order start end_ skip_ l (w : Site W) :
  (∀ m x y, shared_timeline (stores w) !! m = Some x → own_set viewer_id (stores w) !! m = Some y → x = y) →
  let one := range order start end_ (shared_timeline (stores w) ∪ own_set viewer_id (stores w)) in
  match get_merged_timeline viewer_id order {| skip := skip_; limit := Some l; start := start; end_ := end_ |} w with
  | (Ok stream, w') => stream = from_scored_entries (take l (drop (default 0%nat skip_) one)) ∧ stores w' = stores w
  | (Err _, w') => redis_trips w ≠ [] ∧ stores w' = stores w
  end.
Proof.
  intros Hagree one. set (s := stores w) in *. set (k := (default 0%nat skip_ + l)%nat).
  set (a := range order start end_ (shared_timeline s)).
  set (b := of_author viewer_id <$> range order start end_ (zset_of (POST_PER_USER_KEY_PARTS ++ [viewer_id]) s)).
  set (m := merge_scored (take k a ++ take k b) order).
  assert (get_merged_timeline viewer_id order {| skip := skip_; limit := Some l; start := start; end_ := end_ |} w
    = (let? _ := on_redis (gets (λ _, tt)) in let? _ := on_redis (gets (λ _, tt)) in
       ret (Ok (from_scored_entries (take l (drop (default 0%nat skip_) m))))) w) as ->.
  { unfold get_merged_timeline, shared_page, plain_page, ebind, on_redis, meet, gets, ret. cbn [skip limit Ranges.start Ranges.end_].
    assert (∀ (x y : option (list (string * Z))), default [] x = take k a → of_author viewer_id <$> default [] y = take k b →
      merge_scored (default [] x ++ (of_author viewer_id <$> default [] y)) order = m) as Hm.
    { intros x y -> ->. done. }
    destruct (redis_trips w) as [|[|e|e] [|[|e'|e'] trips]]; simpl; try done;
      rewrite Hm; try done; unfold shared_timeline in *; rewrite index_range_window; try done;
      unfold b; by rewrite fmap_take. }
  assert (take l (drop (default 0%nat skip_) m) = take l (drop (default 0%nat skip_) one)) as ->.
  { rewrite !take_drop_commute. f_equal. fold k. by apply top_of_timelines. }
  unfold ebind, on_redis, meet, gets, ret.
  destruct (redis_trips w) as [|[|e|e] [|[|e'|e'] trips]] eqn:Ht; simpl; done.
Qed.
End Merged.

(** ** Streams of a small deployment *)

Module Example_streams.
Import Small_world.

(** "u" wrote "p" and "q"; the gate shows "p" and v's "r" to everybody. *)
Definition shown : gmap string Z := {[ post_member "u" "p" := 10; post_member "v" "r" := 20 ]}.

Definition full : Stores := {|
  people := with_users ["u"; "v"];
  gate := {| ranking := ∅; applied := ∅; filtered := true; showing := false; on := true;
             shared := {[ sorted_key POST_TIMELINE_KEY_PARTS := shown ]}; TrustFilter.posts := [] |};
  graph := no_posts;
  cache := {| details_docs := ∅; relationships_docs := ∅; counts_docs := ∅; bookmark_docs := ∅;
    zsets := {[ POST_PER_USER_KEY_PARTS ++ ["u"] := {[ "p" := 10; "q" := 30 ]};
                POST_REPLIES_PER_POST_KEY_PARTS ++ ["u"; "p"] := {[ post_member "v" "r" := 20 ]} ]};
    post_taggers := ∅ |} |}.

Definition page (n k : nat) : Pagination := {| skip := Some n; limit := Some k; start := None; end_ := None |}.

Lemma merged_timeline_is_one_set_witness :
  fst (get_merged_timeline "u" Descending (page 1 2) (site full [] []))
  = Ok {| post_keys := [post_member "v" "r"; post_member "u" "p"]; last_post_score := Some 10 |}
  ∧ match get_merged_timeline "u" Ascending (page 1 2) (site full [] []) with
    | (Ok stream, w') =>
        stream = from_scored_entries (take 2 (drop 1 (range Ascending None None (shared_timeline full ∪ own_set "u" full))))
        ∧ stores w' = full
    | (Err _, w') => redis_trips (site full [] []) ≠ [] ∧ stores w' = full
    end.
Proof.
  split; [by vm_compute|].
  apply (merged_timeline_is_one_set "u" Ascending None None (Some 1%nat) 2 (site full [] [])).
  intros m x y Hx Hy. change (own_set "u" full !! m = Some y) in Hy.
  assert (map_Forall (λ m x, default x (own_set "u" full !! m) = x) (shared_timeline full)) as Hall
    by (apply (bool_decide_unpack _); by vm_compute).
  specialize (Hall m x Hx). cbv beta in Hall. by rewrite Hy in Hall.
Defined.

Definition nobody (source : StreamSource) : prog (Site Z) (result (list string) Kv.RedisError) := ret (Ok ["u"]).

(** Replies filtered by a tag count as served from the index, which has nothing for them. *)
Example tagged_replies_are_lost :
  can_use_index Timeline (PostReplies "p" "u") (Some ["t"]) false = true
  ∧ (∀ w : Site Z, get_from_index nobody (PostReplies "p" "u") Timeline Descending (Some ["t"]) (page 0 5) None w
      = (Ok no_posts_stream, w))
  ∧ fst (get_from_index nobody (PostReplies "p" "u") Timeline Descending None (page 0 5) None (site full [] []))
    = Ok {| post_keys := [post_member "v" "r"]; last_post_score := Some 20 |}.
Proof. split; [done|]. split; [done|]. by vm_compute. Qed.

(** Oldest first is not kept for the posts of the followed. *)
Example followed_are_newest_first :
  fst (get_from_index nobody (Following "v") Timeline Ascending None (page 0 5) None (site full [] []))
  = Ok {| post_keys := [post_member "u" "q"; post_member "u" "p"]; last_post_score := Some 10 |}.
Proof. by vm_compute. Qed.
End Example_streams.
