(* ===== verification/Reach.v ===== *)
(** * Reach: who a user follows, is followed by, or trusts

    nexus-common/src/models/follow/reach.rs over its two graph queries, and the reach a
    query string spells (types/mod.rs). [*1..d] matches trails: paths that repeat no
    relationship. A query over its budget is a refused graph call. *)

From S2P Require Import Prelude Errors Graphs Ranges Follows.
Local Open Scope nexus_scope.

(** ** The query parameter *)

(** Kept within 1..=3 by its constructor. *)
Definition WotDepth := Z.
Definition WotDepth_MIN : Z := 1%Z.
Definition WotDepth_MAX : Z := 3%Z.
Definition WotDepth_default : WotDepth := 2%Z.

Definition WotDepth_new (depth : Z) : result WotDepth string :=
  if decide (WotDepth_MIN ≤ depth ≤ WotDepth_MAX)%Z then Ok depth
  else Err "'depth' must be between 1 and 3".

Inductive StreamReach :=
  | Followers
  | Following
  | Friends
  | Wot (depth : WotDepth).

(** [str::parse::<u8>] *)
Definition parse_u8 (s : string) : option Z :=
  n ← parse_u64 s; if decide (n ≤ 255)%Z then Some n else None.

Definition StreamReach_deserialize (s : string) : result StreamReach string :=
  if bool_decide (s = "followers") then Ok Followers
  else if bool_decide (s = "following") then Ok Following
  else if bool_decide (s = "friends") then Ok Friends
  else if bool_decide (s = "wot") then Ok (Wot WotDepth_default)
  else
    match strip_prefix "wot_" s with
    | Some depth_str =>
        match parse_u8 depth_str with
        | None => Err ("Invalid depth value: " +:+ depth_str)
        | Some depth => match WotDepth_new depth with Ok d => Ok (Wot d) | Err e => Err e end
        end
    | None => Err "unknown variant"
    end.

(** ** The graph *)

(** FOLLOWS between users, and how many posts each has AUTHORED. *)
Record ReachGraph := { follow_graph : FollowGraph; authored : gmap string nat }.

Definition edges (g : ReachGraph) : list (string * string) := elements (dom (follows (follow_graph g))).

Definition posts_of (g : ReachGraph) (u : string) : nat := default 0 (authored g !! u).

(** Where the trails of 1 to [d] edges from [u] end, a row for each trail. *)
Fixpoint trail_ends (es : list (string * string)) (d : nat) (used : list (string * string)) (u : string) : list string :=
  match d with
  | O => []
  | S d =>
      e ← filter (λ e, fst e = u ∧ e ∉ used) es;
      snd e :: trail_ends es d (e :: used) (snd e)
  end.

(** [stream_reach_to_graph_subquery], from a matched user. *)
Definition reach_rows (g : ReachGraph) (user_id : string) (reach : StreamReach) : list string :=
  match reach with
  | Followers => fst <$> filter (λ e, snd e = user_id) (edges g)
  | Following => snd <$> filter (λ e, fst e = user_id) (edges g)
  | Friends => snd <$> filter (λ e, fst e = user_id ∧ (snd e, user_id) ∈ edges g) (edges g)
  | Wot depth => trail_ends (edges g) (Z.to_nat depth) [] user_id
  end.

(** Who has posts, with how many. *)
Definition reached_authors (g : ReachGraph) (user_id : string) (reach : StreamReach) : list (string * Z) :=
  if decide (user_id ∈ users (follow_graph g)) then
    filter (λ e, 0 < snd e)%Z
      ((λ u, (u, Z.of_nat (posts_of g u))) <$>
         remove_dups (filter (λ u, u ≠ user_id) (reach_rows g user_id reach)))
  else [].

(** By posts, ties by id, both descending. *)
Definition get_reach_authors_by_posts (user_id : string) (reach : StreamReach) (limit : nat) (g : ReachGraph) : list string :=
  take limit (fst <$> merge_sort rank_ge (reached_authors g user_id reach)).

(** [shortestPath]: whether any path has 1 to [d] edges. *)
Fixpoint hop (es : list (string * string)) (d : nat) (u t : string) : bool :=
  match d with
  | O => false
  | S d => existsb (λ e, bool_decide (fst e = u) && (bool_decide (snd e = t) || hop es d (snd e) t)) es
  end.

Definition is_reached (g : ReachGraph) (user_id target_id : string) (reach : StreamReach) : bool :=
  match reach with
  | Following => bool_decide ((user_id, target_id) ∈ edges g)
  | Followers => bool_decide ((target_id, user_id) ∈ edges g)
  | Friends => bool_decide ((user_id, target_id) ∈ edges g) && bool_decide ((target_id, user_id) ∈ edges g)
  | Wot depth => hop (edges g) (Z.to_nat depth) user_id target_id
  end.

(** No row unless both are users, and differ. *)
Definition reach_contains_user (user_id target_id : string) (reach : StreamReach) (g : ReachGraph) : option bool :=
  if decide (user_id ∈ users (follow_graph g) ∧ target_id ∈ users (follow_graph g) ∧ target_id ≠ user_id)
  then Some (is_reached g user_id target_id reach)
  else None.

(** ** The two reads *)

Section Reach.
(** [PubkyId::try_from], which keeps the text it accepts. *)
Context (is_pubky_id : string → bool).

Record ReachAuthors := { author_ids : list string; met_limit : bool }.

Definition trim_to_limit (ids : list string) (limit : nat) : ReachAuthors :=
  {| author_ids := filter (λ id, is_pubky_id id) (take limit ids);
     met_limit := bool_decide (limit < length ids)%nat |}.

Definition reach_authors (observer_id : string) (reach : StreamReach) (limit : nat) :
    prog (GraphSession ReachGraph) (result ReachAuthors Graph.GraphError) :=
  let? ids := run_query (reads (get_reach_authors_by_posts observer_id reach (limit + 1))) in
  ret (Ok (trim_to_limit ids limit)).

Definition reach_contains (observer_id : string) (reach : StreamReach) (user_id : string) :
    prog (GraphSession ReachGraph) (result bool Graph.GraphError) :=
  if decide (user_id = observer_id) then ret (Ok false)
  else
    let? reached := run_query (reads (reach_contains_user observer_id user_id reach)) in
    ret (Ok (default false reached)).
End Reach.

(** ** Trails and paths *)

Section Paths.
Context (es : list (string * string)).

Fixpoint path (u : string) (p : list (string * string)) (t : string) : Prop :=
  match p with
  | [] => u = t
  | e :: p => e ∈ es ∧ fst e = u ∧ path (snd e) p t
  end.

Lemma trail_is_path d used u t :
  t ∈ trail_ends es d used u → ∃ p, p ≠ [] ∧ (length p ≤ d)%nat ∧ path u p t.
Proof.
  revert used u. induction d as [|d IH]; intros used u; simpl; [by intros ?%elem_of_nil|].
  intros (e & Ht & [[Hu _] He]%list_elem_of_filter)%list_elem_of_bind.
  apply elem_of_cons in Ht as [->|Ht].
  - exists [e]. simpl. split; [done|]. split; [lia|done].
  - apply IH in Ht as (p & Hp & Hl & Hpath). exists (e :: p). simpl. split; [done|]. split; [lia|done].
Qed.

Lemma path_is_trail d used u p t :
  p ≠ [] → (length p ≤ d)%nat → NoDup p → (∀ e, e ∈ p → e ∉ used) → path u p t →
  t ∈ trail_ends es d used u.
Proof.
  revert used u p. induction d as [|d IH]; intros used u p Hne Hl Hnd Hused Hp; destruct p as [|e p]; simpl in *; [done|lia|done|].
  destruct Hp as (He & Hu & Hp). apply NoDup_cons in Hnd as [Hnin Hnd].
  apply list_elem_of_bind. exists e. split; [|apply list_elem_of_filter; split; [split; [done|apply Hused; by left]|done]].
  destruct p as [|e' p]; [simpl in Hp; subst; by left|]. right. apply (IH _ _ (e' :: p)); try done; [simpl in *; lia|].
  intros e0 He0. apply not_elem_of_cons. split; [by intros ->|]. apply Hused. by right.
Qed.

Lemma hop_spec d u t : hop es d u t = true ↔ ∃ p, p ≠ [] ∧ (length p ≤ d)%nat ∧ path u p t.
Proof.
  revert u. induction d as [|d IH]; intros u; simpl.
  { split; [done|]. intros ([|? ?] & ? & ? & ?); simpl in *; [done|lia]. }
  rewrite existsb_exists. split.
  - intros (e & He%list_elem_of_In & [Hu Ht]%andb_true_iff). apply bool_decide_eq_true in Hu.
    apply orb_true_iff in Ht as [Ht|(p & Hp & Hl & Hpath)%IH].
    + apply bool_decide_eq_true in Ht. exists [e]. simpl. split; [done|]. split; [lia|done].
    + exists (e :: p). simpl. split; [done|]. split; [lia|done].
  - intros ([|e p] & Hne & Hl & Hp); [done|]. destruct Hp as (He & Hu & Hp). exists e.
    split; [by apply list_elem_of_In|]. rewrite bool_decide_true by done. simpl.
    destruct p as [|e' p]; [simpl in Hp; by rewrite bool_decide_true|].
    apply orb_true_iff. right. apply IH. exists (e' :: p). simpl in *. split; [done|]. split; [lia|done].
Qed.

Lemma path_suffix u p t a : path u p t → a ∈ fst <$> p → ∃ q, q `suffix_of` p ∧ q ≠ [] ∧ path a q t.
Proof.
  revert u. induction p as [|e p IH]; intros u; simpl; [by intros _ ?%elem_of_nil|].
  intros (He & Hu & Hp) [->|Ha]%elem_of_cons.
  - exists (e :: p). split; [done|]. split; [done|]. simpl. done.
  - destruct (IH _ Hp Ha) as (q & Hq & Hne & Hpath). exists q. split; [by apply suffix_cons_r|done].
Qed.

(** Cutting its loops leaves a path that leaves no node twice. *)
Lemma path_without_loops u p t :
  p ≠ [] → path u p t → ∃ q, q ≠ [] ∧ (length q ≤ length p)%nat ∧ NoDup (fst <$> q) ∧ path u q t.
Proof.
  revert u. induction p as [|e p IH]; intros u; [done|]. intros _ (He & Hu & Hp).
  destruct p as [|e' p].
  { exists [e]. simpl in *. split; [done|]. split; [lia|]. split; [apply NoDup_singleton|done]. }
  destruct (IH (snd e)) as (q & Hne & Hl & Hnd & Hq); [done|done|].
  destruct (decide (fst e ∈ fst <$> q)) as [Hin|Hnin].
  - destruct (path_suffix _ _ _ _ Hq Hin) as (q' & Hs & Hne' & Hq'). exists q'. rewrite <- Hu.
    split; [done|]. split; [apply suffix_length in Hs; simpl in *; lia|]. split; [|done].
    destruct Hs as [k ->]. rewrite fmap_app in Hnd. by apply NoDup_app in Hnd as (_ & _ & ?).
  - exists (e :: q). split; [done|]. simpl in *. split; [lia|]. split; [by constructor|done].
Qed.

Lemma trails_are_paths d u t : t ∈ trail_ends es d [] u ↔ hop es d u t = true.
Proof.
  rewrite hop_spec. split; [apply trail_is_path|].
  intros (p & Hne & Hl & Hp). destruct (path_without_loops u p t Hne Hp) as (q & Hq & Hlq & Hnd & Hpath).
  apply (path_is_trail _ _ _ q); [done|lia|by eapply NoDup_fmap_1| |done]. intros e _. apply not_elem_of_nil.
Qed.
End Paths.

Lemma is_reached_rows g u t reach : is_reached g u t reach = true ↔ t ∈ reach_rows g u reach.
Proof.
  destruct reach; simpl.
  - rewrite bool_decide_eq_true, list_elem_of_fmap. setoid_rewrite list_elem_of_filter.
    split; [intros ?; by exists (t, u)|intros ([a b] & -> & [Hb ?]); simpl in *; by subst].
  - rewrite bool_decide_eq_true, list_elem_of_fmap. setoid_rewrite list_elem_of_filter.
    split; [intros ?; by exists (u, t)|intros ([a b] & -> & [Hb ?]); simpl in *; by subst].
  - rewrite andb_true_iff, !bool_decide_eq_true, list_elem_of_fmap. setoid_rewrite list_elem_of_filter.
    split; [intros [? ?]; by exists (u, t)|intros ([a b] & -> & [[Ha Hb] ?]); simpl in *; by subst].
  - symmetry. apply trails_are_paths.
Qed.

Lemma elem_of_reached_authors g u reach t n :
  (t, n) ∈ reached_authors g u reach
  ↔ u ∈ users (follow_graph g) ∧ t ≠ u ∧ is_reached g u t reach = true ∧ n = Z.of_nat (posts_of g t) ∧ (0 < posts_of g t)%nat.
Proof.
  unfold reached_authors. case_decide as Hu; [|rewrite elem_of_nil; naive_solver].
  rewrite list_elem_of_filter, list_elem_of_fmap. simpl. setoid_rewrite elem_of_remove_dups.
  setoid_rewrite list_elem_of_filter. rewrite is_reached_rows. split.
  - intros (Hn & x & [= -> ->] & Hx & Hin). split; [done|]. split; [done|]. split; [done|]. split; [done|lia].
  - intros (_ & Ht & Hin & -> & Hn). split; [lia|]. by exists t.
Qed.

(** ** The two reads agree *)

Section Agree.
Context (is_pubky_id : string → bool).

(** FOLLOWS joins users. *)
Definition between_users (g : ReachGraph) : Prop :=
  ∀ e, e ∈ edges g → fst e ∈ users (follow_graph g) ∧ snd e ∈ users (follow_graph g).

Lemma path_ends_in_users g u p t :
  between_users g → p ≠ [] → path (edges g) u p t → u ∈ users (follow_graph g) ∧ t ∈ users (follow_graph g).
Proof.
  intros Hg. revert u. induction p as [|e p IH]; intros u Hne; [done|]. intros (He & <- & Hp).
  destruct (Hg _ He) as [? ?]. split; [done|]. destruct p as [|e' p]; [simpl in Hp; by subst|]. by apply (IH (snd e)).
Qed.

Lemma reached_are_users g u t reach :
  between_users g → is_reached g u t reach = true → u ∈ users (follow_graph g) ∧ t ∈ users (follow_graph g).
Proof.
  intros Hg. destruct reach; simpl.
  - by intros [? ?]%bool_decide_eq_true%Hg.
  - by intros [? ?]%bool_decide_eq_true%Hg.
  - by intros [[? ?]%bool_decide_eq_true%Hg ?]%andb_true_iff.
  - intros (p & Hne & _ & Hp)%hop_spec. by eapply path_ends_in_users.
Qed.

Abbreviation served g := {| graph := g; graph_trips := [] |}.

Lemma contains_spec g o reach t :
  between_users g →
  reach_contains o reach t (served g) = (Ok true, served g) ↔ t ≠ o ∧ is_reached g o t reach = true.
Proof.
  intros Hg. unfold reach_contains. case_decide as Ht; [subst; split; [intros [=]|naive_solver]|].
  unfold_prog. unfold run_query, reads. simpl. unfold reach_contains_user. case_decide as Hu; simpl.
  - split; [intros [= ->]; done|intros [_ ->]; done].
  - split; [intros [=]|]. intros [_ Hr]. destruct Hu. destruct (reached_are_users _ _ _ _ Hg Hr). done.
Qed.

Lemma reached_authors_NoDup g u reach : NoDup (fst <$> reached_authors g u reach).
Proof.
  unfold reached_authors. case_decide; [|constructor].
  eapply sublist_NoDup; [|apply fmap_sublist, sublist_filter].
  rewrite <- list_fmap_compose. unfold compose. simpl. rewrite list_fmap_id. apply NoDup_remove_dups.
Qed.

Lemma take_sorted_rest {A} (R : relation A) l n x y :
  StronglySorted R l → x ∈ take n l → y ∈ drop n l → R x y.
Proof.
  revert n. induction l as [|a l IH]; intros n Hs; [rewrite take_nil; by intros ?%elem_of_nil|].
  apply StronglySorted_inv in Hs as [Hs Ha]. destruct n as [|n]; [by intros ?%elem_of_nil|]. simpl.
  intros [->|Hx]%elem_of_cons Hy; [|by eapply IH].
  rewrite Forall_forall in Ha. apply Ha. eapply elem_of_suffix; [exact Hy|]. exists (take n l). by rewrite take_drop.
Qed.

(** C25: While the graph answers, the two reads of a reach agree: the authors listed are distinct,
    at most [limit], have posts, and are each reported in the reach; and every user reported
    in the reach who has posts and a valid id is listed, unless the list was trimmed and
    nobody in it has fewer posts. *)
Theorem reach_reads_agree o reach limit g :
  between_users g →
  ∃ a, reach_authors is_pubky_id o reach limit (served g) = (Ok a, served g)
    ∧ NoDup (author_ids a) ∧ (length (author_ids a) ≤ limit)%nat
    ∧ (∀ u, u ∈ author_ids a → (0 < posts_of g u)%nat ∧ reach_contains o reach u (served g) = (Ok true, served g))
    ∧ (∀ u, reach_contains o reach u (served g) = (Ok true, served g) → (0 < posts_of g u)%nat → is_pubky_id u →
        u ∈ author_ids a ∨ met_limit a = true ∧ ∀ v, v ∈ author_ids a → (posts_of g u ≤ posts_of g v)%nat).
Proof.
  intros Hg. eexists. split; [unfold reach_authors, ebind, run_query, reads, ret; simpl; reflexivity|].
  unfold trim_to_limit, get_reach_authors_by_posts. simpl.
  rewrite take_take, Nat.min_l by lia. rewrite length_take, length_fmap. set (sorted := merge_sort rank_ge (reached_authors g o reach)).
  assert (∀ e, e ∈ sorted ↔ e ∈ reached_authors g o reach) as Hin by (intros e; unfold sorted; by rewrite merge_sort_Permutation).
  assert (NoDup (fst <$> sorted)) as Hnd.
  { unfold sorted. rewrite merge_sort_Permutation. apply reached_authors_NoDup. }
  split; [eapply sublist_NoDup; [exact Hnd|etrans; [apply sublist_filter|apply sublist_take]]|].
  split; [rewrite length_filter, length_take; lia|].
  assert (∀ u n, n ∈ take limit (fst <$> sorted) → u = n → ∃ k, (u, k) ∈ take limit sorted) as Hk.
  { intros u ? Hu <-. rewrite <- fmap_take in Hu. apply list_elem_of_fmap in Hu as ([? k] & -> & ?). by exists k. }
  assert (∀ u k, (u, k) ∈ sorted → u ≠ o ∧ is_reached g o u reach = true ∧ k = Z.of_nat (posts_of g u) ∧ (0 < posts_of g u)%nat) as Hs.
  { intros u k (_ & ? & ? & ? & ?)%Hin%elem_of_reached_authors. done. }
  assert (∀ u k, (u, k) ∈ take limit sorted → (u, k) ∈ sorted) as Htake.
  { intros u k Hu. eapply elem_of_sublist; [exact Hu|apply sublist_take]. }
  split.
  - intros u [_ Hu]%list_elem_of_filter. destruct (Hk _ _ Hu eq_refl) as (k & (? & ? & _ & ?)%Htake%Hs).
    split; [done|]. by apply contains_spec.
  - intros u [Huo Hr]%contains_spec Hp Hv; [|done]. destruct (reached_are_users _ _ _ _ Hg Hr) as [Ho _].
    assert ((u, Z.of_nat (posts_of g u)) ∈ sorted) as Hu by (apply Hin, elem_of_reached_authors; done).
    rewrite <- (take_drop limit sorted) in Hu. apply elem_of_app in Hu as [Hu|Hu].
    { left. apply list_elem_of_filter. split; [done|]. rewrite <- fmap_take. apply list_elem_of_fmap. by exists (u, Z.of_nat (posts_of g u)). }
    right. split.
    + apply bool_decide_eq_true. assert (length (drop limit sorted) ≠ 0)%nat as Hd by (destruct (drop limit sorted); [by apply elem_of_nil in Hu|done]).
      rewrite length_drop in Hd. lia.
    + intros v [_ Hv']%list_elem_of_filter. destruct (Hk _ _ Hv' eq_refl) as (k & Hvk).
      destruct (take_sorted_rest rank_ge sorted limit _ _ (StronglySorted_merge_sort _ _) Hvk Hu) as [Hlt|[Heq _]];
        destruct (Hs _ _ (Htake _ _ Hvk)) as (_ & _ & -> & _); simpl in *; lia.
Qed.
End Agree.

(** ** A circle of three *)

Module Example_reach.
Definition circle : ReachGraph := {|
  follow_graph := {| users := {["a"; "b"; "c"; "d"]};
    follows := {[("a", "b") := 1%Z; ("b", "c") := 2%Z; ("c", "a") := 3%Z; ("b", "d") := 4%Z]} |};
  authored := {["b" := 1%nat; "c" := 4%nat; "d" := 2%nat]} |}.

Lemma reach_reads_agree_witness :
  fst (reach_authors (λ _, true) "a" (Wot 2%Z) 2 {| graph := circle; graph_trips := [] |})
  = Ok {| author_ids := ["c"; "d"]; met_limit := true |}
  ∧ ∃ a, reach_authors (λ _, true) "a" (Wot 3%Z) 5 {| graph := circle; graph_trips := [] |}
    = (Ok a, {| graph := circle; graph_trips := [] |})
    ∧ NoDup (author_ids a) ∧ (length (author_ids a) ≤ 5)%nat
    ∧ (∀ u, u ∈ author_ids a → (0 < posts_of circle u)%nat
        ∧ reach_contains "a" (Wot 3%Z) u {| graph := circle; graph_trips := [] |} = (Ok true, {| graph := circle; graph_trips := [] |}))
    ∧ (∀ u, reach_contains "a" (Wot 3%Z) u {| graph := circle; graph_trips := [] |} = (Ok true, {| graph := circle; graph_trips := [] |}) →
        (0 < posts_of circle u)%nat → true →
        u ∈ author_ids a ∨ met_limit a = true ∧ ∀ v, v ∈ author_ids a → (posts_of circle u ≤ posts_of circle v)%nat).
Proof.
  split; [by vm_compute|].
  apply (reach_reads_agree (λ _, true) "a" (Wot 3%Z) 5 circle). unfold between_users. apply Forall_forall.
  apply (bool_decide_unpack _). by vm_compute.
Defined.

Example bare_wot_is_two_deep : StreamReach_deserialize "wot" = StreamReach_deserialize "wot_2".
Proof. by vm_compute. Qed.

Example depths_are_bounded :
  (λ s, match StreamReach_deserialize s with Ok _ => true | Err _ => false end)
    <$> ["wot_1"; "wot_3"; "wot_0"; "wot_4"; "wot_256"; "friends"; "Friends"]
  = [true; true; false; false; false; true; false].
Proof. by vm_compute. Qed.
End Example_reach.
