(* ===== verification/Rankings.v ===== *)
(** * The influencers ranking: rebuilt on a miss, by one request at a time

    [Influencers] (nexus-common/src/models/user/influencers.rs) over the sorted set of one
    timeframe: requests that page through it, drop users whose document is gone and
    rebuild it when its key is missing, and the job that rebuilds it on schedule
    (nexusd/src/jobs/catalog/influencers.rs). Every call to a server is a move, and the
    moves of any number of requests, jobs, writers and expiries interleave. *)

From S2P Require Import Prelude Errors Ranges Scan.
Local Open Scope nexus_scope.
#[local] Remove Hints finite.finite_countable : typeclass_instances.

(** ** Timeframes *)

Inductive Timeframe := Today | ThisWeek | ThisMonth | AllTime.

#[export] Instance Timeframe_eq_dec : EqDecision Timeframe.
Proof. solve_decision. Defined.

(** The timeframes whose ranking is a cache of bounded size, with a time to live. *)
Inductive CacheTimeframe := CacheToday | CacheThisWeek | CacheThisMonth.

Definition from_timeframe (t : Timeframe) : option CacheTimeframe :=
  match t with
  | Today => Some CacheToday
  | ThisWeek => Some CacheThisWeek
  | ThisMonth => Some CacheThisMonth
  | AllTime => None
  end.

(** Where a timeframe starts and ends, in milliseconds, by the clock [now]. *)
Definition to_timestamp_range (now : Z) (t : Timeframe) : Z * Z :=
  (match t with
   | Today => now - 24 * 3600 * 1000
   | ThisWeek => now - 7 * 24 * 3600 * 1000
   | ThisMonth => now - 30 * 24 * 3600 * 1000
   | AllTime => 0
   end, now)%Z.

(** ** The page of a preview *)

Definition GLOBAL_INFLUENCERS_CACHE_SIZE : Z := 100.
Definition GLOBAL_INFLUENCERS_PREVIEW_LIMIT : Z := 3.
Definition GLOBAL_INFLUENCERS_PREVIEW_OFFSETS : Z :=
  GLOBAL_INFLUENCERS_CACHE_SIZE - GLOBAL_INFLUENCERS_PREVIEW_LIMIT + 1.

Definition preview_skip (micros : Z) : Z := micros `mod` GLOBAL_INFLUENCERS_PREVIEW_OFFSETS.

(** The window [get_influencers] reads, by the clock's microseconds. *)
Definition window_of (micros skip limit : Z) (preview : bool) : Z * Z :=
  if preview then (preview_skip micros, GLOBAL_INFLUENCERS_PREVIEW_LIMIT) else (skip, limit).

(** A preview's window lies within a full ranking. *)
Lemma preview_fits micros skip limit :
  (0 ≤ micros)%Z → let '(s, l) := window_of micros skip limit true in (0 ≤ s ∧ s + l ≤ GLOBAL_INFLUENCERS_CACHE_SIZE)%Z.
Proof.
  intros Hm. unfold window_of, preview_skip, GLOBAL_INFLUENCERS_PREVIEW_OFFSETS, GLOBAL_INFLUENCERS_PREVIEW_LIMIT,
    GLOBAL_INFLUENCERS_CACHE_SIZE. pose proof (Z.mod_pos_bound micros (100 - 3 + 1)). lia.
Qed.

(** ** The stores of one timeframe *)

(** What the graph answers: the nodes with their all-time score, and everyone's score in
    the timeframe. *)
Record Graph := { nodes : list Scan.Influencers.UserNode; recent : gmap string Z }.

(** ORDER BY influencer.score DESC, influencer.id ASC *)
Definition before (a b : string * Z) : Prop := (b.2 < a.2)%Z ∨ (a.2 = b.2 ∧ str_le a.1 b.1).

#[export] Instance before_dec : RelDecision before.
Proof. intros a b. unfold before. apply _. Defined.

(** [queries::get::get_global_influencers], from the first *)
Definition get_global_influencers (g : Graph) : list (string * Z) :=
  take (Z.to_nat GLOBAL_INFLUENCERS_CACHE_SIZE) (merge_sort before (map_to_list (recent g))).

Definition ALL_TIME_PAGE_SIZE : nat := Z.to_nat 500.

(** [queries::get::get_all_time_influencers] *)
Definition get_all_time_influencers (g : Graph) (after_id : string) : list (string * Z) :=
  (λ u, (Scan.Influencers.id u, Scan.Influencers.score u))
    <$> Scan.Influencers.get_all_time_influencers after_id ALL_TIME_PAGE_SIZE (nodes g).

Record Stores := {
  graph : Graph;
  (** the sorted set; none is ever empty, Redis drops a key with its last member *)
  key : option (gmap string Z);
  (** [deleted] of the users' documents *)
  documents : gmap string bool;
}.

(** How a call fares: answered, refused, or done with the answer lost. *)
Inductive Trip := Served | Refused | ReplyLost.

(** ** Requests and jobs *)

(** Which of a request's reads of the ranking. *)
Inductive Reading := First | Second | Third.

Inductive Who := Request | Job.

Inductive Answer := Page (p : list (string * Z)) | NoRanking | Failed | Refreshed.

Inductive Phase :=
  | Exists_ (k : Reading)                               (** about to ask for the key *)
  | Range (k : Reading)                                 (** about to read the window *)
  | Mget (k : Reading) (window : list (string * Z))     (** about to read the documents *)
  | Zrem (k : Reading) (kept : list (string * Z)) (gone : list string)
  | AwaitLock
  | Fetch (who : Who) (rows : list (string * Z)) (after : string)
  | Store (who : Who) (rows : list (string * Z))
  | Over (a : Answer).

(** [rebuild_lock] of the timeframe; its holder, if any. The rest of the record is history
    only: the graphs and documents there were, how often a request began a rebuild, how
    often the key went missing, and how often a request's rebuild brought nothing. *)
Record State := {
  stores : Stores;
  lock : option nat;
  phases : gmap nat Phase;
  graphs : list Graph;
  document_sets : list (gmap string bool);
  rebuilds : nat;
  losses : nat;
  vain : nat;
}.

Definition with_stores (f : Stores → Stores) (s : State) : State :=
  {| stores := f (stores s); lock := lock s; phases := phases s; graphs := graphs s;
     document_sets := document_sets s; rebuilds := rebuilds s; losses := losses s; vain := vain s |}.
Definition with_lock (l : option nat) (s : State) : State :=
  {| stores := stores s; lock := l; phases := phases s; graphs := graphs s;
     document_sets := document_sets s; rebuilds := rebuilds s; losses := losses s; vain := vain s |}.
Definition goto (i : nat) (p : Phase) (s : State) : State :=
  {| stores := stores s; lock := lock s; phases := <[i := p]> (phases s); graphs := graphs s;
     document_sets := document_sets s; rebuilds := rebuilds s; losses := losses s; vain := vain s |}.
Definition count (r l v : nat) (s : State) : State :=
  {| stores := stores s; lock := lock s; phases := phases s; graphs := graphs s;
     document_sets := document_sets s; rebuilds := rebuilds s + r; losses := losses s + l; vain := vain s + v |}.

Definition set_key (z : option (gmap string Z)) (s : State) : State :=
  with_stores (λ st, {| graph := graph st; key := z; documents := documents st |}) s.

(** The key with what is left in it; with nothing left it is gone. *)
Definition leave_key (z : gmap string Z) (s : State) : State :=
  if decide (z = ∅) then
    count 0 (if decide (key (stores s) = None) then 0 else 1) 0 (set_key None s)
  else set_key (Some z) s.

(** A request's end lets go of the lock it holds. *)
Definition finish (i : nat) (a : Answer) (s : State) : State :=
  goto i (Over a) (with_lock (if decide (lock s = Some i) then None else lock s) s).

(** [replace_index_sorted_set]: DEL, or DEL and ZADD in one script. *)
Definition replace_index_sorted_set (rows : list (string * Z)) (s : State) : State :=
  leave_key (foldl (λ z e, <[e.1 := e.2]> z) ∅ rows) s.

(** [write_all_time_ranking] and [write_or_preserve_cache]: whether there is a write at all. *)
Definition writes_ranking (t : Timeframe) (rows : list (string * Z)) : bool :=
  match from_timeframe t with
  | Some _ => bool_decide (rows ≠ [])
  | None => true
  end.

(** [remove_from_index_sorted_set] *)
Definition remove_from_index_sorted_set (ids : list string) (s : State) : State :=
  match key (stores s) with
  | None => s
  | Some z => leave_key (filter (λ e, e.1 ∉ ids) z) s
  end.

Definition live (d : gmap string bool) (id : string) : Prop := d !! id = Some false.

#[export] Instance live_dec d id : Decision (live d id).
Proof. unfold live. apply _. Defined.

(** A read that found no key. *)
Definition missed (i : nat) (k : Reading) (s : State) : State :=
  match k with
  | First => goto i AwaitLock s
  | Second => count 1 0 0 (goto i (Fetch Request [] "") s)
  | Third => finish i NoRanking s
  end.

(** An error of a rebuild, a request's or a job's. *)
Definition abandon (i : nat) (who : Who) (s : State) : State :=
  match who with
  | Request => count 0 0 1 (finish i Failed s)
  | Job => finish i Failed s
  end.

(** After the write: a request reads again, with its lock. *)
Definition rebuilt (i : nat) (who : Who) (in_vain : bool) (s : State) : State :=
  match who with
  | Request => goto i (Exists_ Third) (count 0 0 (if in_vain then 1 else 0) s)
  | Job => finish i Refreshed s
  end.

Section Timeframe.
Context (t : Timeframe) (skip limit : nat).

(** The rows of a rebuild: one query, or the pages of a keyset scan. *)
Definition fetch (i : nat) (who : Who) (rows : list (string * Z)) (after : string) (s : State) : State :=
  match from_timeframe t with
  | Some _ => goto i (Store who (get_global_influencers (graph (stores s)))) s
  | None =>
      let page := get_all_time_influencers (graph (stores s)) after in
      match last page with
      | Some e =>
          if decide (length page < ALL_TIME_PAGE_SIZE)%nat then goto i (Store who (rows ++ page)) s
          else if decide (str_le e.1 after) then abandon i who s
          else goto i (Fetch who (rows ++ page) e.1) s
      | None => goto i (Store who rows) s
      end
  end.

(** The next call of a request or job, faring as told. *)
Definition advance (i : nat) (trip : Trip) (s : State) : option State :=
  match phases s !! i with
  | Some (Exists_ k) =>
      Some (match trip, key (stores s) with
            | Served, Some _ => goto i (Range k) s
            | Served, None => missed i k s
            | _, _ => finish i Failed s
            end)
  | Some (Range k) =>
      Some (match trip with
            | Served => goto i (Mget k (take limit (drop skip (rev_range None None (default ∅ (key (stores s))))))) s
            | _ => finish i Failed s
            end)
  | Some (Mget k window) =>
      let kept := filter (λ e, live (documents (stores s)) e.1) window in
      let gone := fst <$> filter (λ e, ¬ live (documents (stores s)) e.1) window in
      Some (match trip with
            | Served => if decide (gone = []) then finish i (Page kept) s else goto i (Zrem k kept gone) s
            | _ => finish i Failed s
            end)
  | Some (Zrem _ kept gone) =>
      Some (finish i (Page kept) (match trip with
                                  | Refused => s
                                  | _ => remove_from_index_sorted_set gone s
                                  end))
  | Some AwaitLock =>
      match lock s with
      | None => Some (goto i (Exists_ Second) (with_lock (Some i) s))
      | Some _ => None
      end
  | Some (Fetch who rows after) =>
      Some (match trip with Served => fetch i who rows after s | _ => abandon i who s end)
  | Some (Store who rows) =>
      Some (if writes_ranking t rows then
              match trip with
              | Served => rebuilt i who (bool_decide (rows = [])) (replace_index_sorted_set rows s)
              | Refused => abandon i who s
              | ReplyLost => abandon i who (replace_index_sorted_set rows s)
              end
            else rebuilt i who true s)
  | Some (Over _) | None => None
  end.

(** Dropped by its caller between two calls: a request past its deadline, a job's timeout. *)
Definition cancel (i : nat) (s : State) : option State :=
  match phases s !! i with
  | Some (Fetch who _ _ | Store who _) => Some (abandon i who s)
  | Some (Over _) | None => None
  | Some _ => Some (finish i Failed s)
  end.

(** ** Moves *)

Inductive step : State → State → Prop :=
  | step_request i s : phases s !! i = None → step s (goto i (Exists_ First) s)
  | step_job i s : phases s !! i = None → step s (goto i (Fetch Job [] "") s)
  | step_advance i trip s s' : advance i trip s = Some s' → step s s'
  | step_cancel i s s' : cancel i s = Some s' → step s s'
  | step_expire s : step s (leave_key ∅ s)
  | step_graph g s : step s
      {| stores := {| graph := g; key := key (stores s); documents := documents (stores s) |};
         lock := lock s; phases := phases s; graphs := g :: graphs s; document_sets := document_sets s;
         rebuilds := rebuilds s; losses := losses s; vain := vain s |}
  | step_documents d s : step s
      {| stores := {| graph := graph (stores s); key := key (stores s); documents := d |};
         lock := lock s; phases := phases s; graphs := graphs s; document_sets := d :: document_sets s;
         rebuilds := rebuilds s; losses := losses s; vain := vain s |}.

(** Nothing ranked, no one there. *)
Definition start (g : Graph) (d : gmap string bool) : State :=
  {| stores := {| graph := g; key := None; documents := d |}; lock := None; phases := ∅; graphs := [g];
     document_sets := [d]; rebuilds := 0; losses := 0; vain := 0 |}.

(** ** One request at a time *)

(** What a request does with the lock in hand, and what of it is the rebuild. *)
Definition holding (p : Phase) : bool :=
  match p with
  | Exists_ First | Range First | Mget First _ | Zrem First _ _ | AwaitLock | Over _ => false
  | Exists_ _ | Range _ | Mget _ _ | Zrem _ _ _ => true
  | Fetch Request _ _ | Store Request _ => true
  | Fetch Job _ _ | Store Job _ => false
  end.

Definition rebuilding (p : Phase) : bool :=
  match p with Fetch Request _ _ | Store Request _ => true | _ => false end.

(** What a participant's move from [p] to [p'] does. *)
Record moves (i : nat) (p p' : Phase) (s s' : State) : Prop := {
  moves_phases : phases s' = <[i := p']> (phases s);
  moves_history : graphs s' = graphs s ∧ document_sets s' = document_sets s;
  moves_stores : graph (stores s') = graph (stores s) ∧ documents (stores s') = documents (stores s);
  moves_lock : lock s' = if holding p' then Some i else if holding p then None else lock s;
  moves_free : holding p' = true → holding p = true ∨ lock s = None;
  moves_rebuilds : rebuilds s' = (rebuilds s + (if rebuilding p' && negb (rebuilding p) then 1 else 0))%nat;
  moves_missed : rebuilding p' = true → rebuilding p = false → key (stores s) = None ∧ holding p = true;
  moves_losses : (losses s ≤ losses s' ∧ vain s ≤ vain s')%nat;
  moves_lost : key (stores s') = None → key (stores s) = None ∨ (losses s < losses s')%nat;
  moves_vain : rebuilding p = true → rebuilding p' = false → key (stores s') = None → (vain s < vain s')%nat;
}.

Lemma leave_key_shape z s :
  phases (leave_key z s) = phases s ∧ graphs (leave_key z s) = graphs s ∧ document_sets (leave_key z s) = document_sets s
  ∧ graph (stores (leave_key z s)) = graph (stores s) ∧ documents (stores (leave_key z s)) = documents (stores s)
  ∧ lock (leave_key z s) = lock s ∧ rebuilds (leave_key z s) = rebuilds s ∧ vain (leave_key z s) = vain s
  ∧ (losses s ≤ losses (leave_key z s))%nat
  ∧ key (stores (leave_key z s)) = (if decide (z = ∅) then None else Some z)
  ∧ (key (stores (leave_key z s)) = None → key (stores s) = None ∨ (losses s < losses (leave_key z s))%nat).
Proof.
  unfold leave_key. case_decide; simpl; [case_decide as Hk|]; split_and!; auto; try lia; try done; intros; right; lia.
Qed.

(** What a participant does on the way from a phase to the next. *)
Definition aside (s s1 : State) : Prop :=
  phases s1 = phases s ∧ graphs s1 = graphs s ∧ document_sets s1 = document_sets s
  ∧ graph (stores s1) = graph (stores s) ∧ documents (stores s1) = documents (stores s) ∧ lock s1 = lock s
  ∧ rebuilds s1 = rebuilds s ∧ (losses s ≤ losses s1)%nat ∧ (vain s ≤ vain s1)%nat
  ∧ (key (stores s1) = None → key (stores s) = None ∨ (losses s < losses s1)%nat).

Lemma aside_refl s : aside s s.
Proof. unfold aside. split_and!; auto. Qed.

Lemma aside_leave z s : aside s (leave_key z s).
Proof. destruct (leave_key_shape z s) as (? & ? & ? & ? & ? & ? & ? & Hv & ? & _ & ?). unfold aside. rewrite Hv. split_and!; auto. Qed.

Lemma aside_vain v s s1 : aside s s1 → aside s (count 0 0 v s1).
Proof. intros (? & ? & ? & ? & ? & ? & ? & ? & ? & ?). unfold aside. simpl. split_and!; auto; try lia. rewrite Nat.add_0_r. auto. Qed.

Lemma aside_remove ids s : aside s (remove_from_index_sorted_set ids s).
Proof. unfold remove_from_index_sorted_set. destruct (key (stores s)); [apply aside_leave|apply aside_refl]. Qed.

Lemma aside_replace rows s : aside s (replace_index_sorted_set rows s).
Proof. apply aside_leave. Qed.

Lemma moves_goto i p p' s s1 :
  holding p' = holding p → rebuilding p' = rebuilding p → (lock s = Some i ↔ holding p = true) →
  aside s s1 → moves i p p' s (goto i p' s1).
Proof.
  intros Hh Hr Hl (? & ? & ? & ? & ? & Hlock & ? & ? & ? & ?). constructor; simpl; try done.
  - congruence.
  - rewrite Hlock, Hh. destruct (holding p) eqn:?; [by apply Hl|done].
  - rewrite Hh. auto.
  - rewrite Hr, andb_negb_r. lia.
  - rewrite Hr. congruence.
  - rewrite Hr. congruence.
Qed.

Lemma moves_finish i p a s s1 :
  (lock s = Some i ↔ holding p = true) → aside s s1 → (rebuilding p = true → (vain s < vain s1)%nat) →
  moves i p (Over a) s (finish i a s1).
Proof.
  intros Hl (? & ? & ? & ? & ? & Hlock & ? & ? & ? & ?) Hv. constructor; simpl; try done; try congruence; [|lia|auto].
  rewrite Hlock. case_decide as Hi; [by rewrite (proj1 Hl Hi)|]. destruct (holding p); [|done]. by destruct Hi; apply Hl.
Qed.

Lemma moves_abandon i p who s s1 :
  (lock s = Some i ↔ holding p = true) → aside s s1 → rebuilding p = (match who with Request => true | Job => false end) →
  moves i p (Over Failed) s (abandon i who s1).
Proof.
  intros Hl Hs Hr. destruct who; simpl.
  - apply (moves_finish i p Failed s (count 0 0 1 s1)); [done|by apply aside_vain|].
    destruct Hs as (_ & _ & _ & _ & _ & _ & _ & _ & ? & _). simpl. lia.
  - apply moves_finish; [done|done|]. by rewrite Hr.
Qed.

(** ** Where the rows come from *)

(** Entries the graph gave: of a ranged ranking at one moment, of the all-time one each at
    a moment of its own. *)
Definition backed (gs : list Graph) (rows : list (string * Z)) : Prop :=
  match from_timeframe t with
  | Some _ => ∃ g, g ∈ gs ∧ Forall (λ e, recent g !! e.1 = Some e.2) rows
  | None => Forall (λ e, ∃ g u, g ∈ gs ∧ u ∈ nodes g ∧ Scan.Influencers.ranked u
      ∧ e = (Scan.Influencers.id u, Scan.Influencers.score u)) rows
  end.

(** A window of a ranking, and a page of those with a document. *)
Definition window_ok (gs : list Graph) (w : list (string * Z)) : Prop :=
  backed gs w ∧ StronglySorted rank_ge w ∧ NoDup (w.*1) ∧ (length w ≤ limit)%nat.

Definition page_ok (gs : list Graph) (ds : list (gmap string bool)) (p : list (string * Z)) : Prop :=
  window_ok gs p ∧ ∃ d, d ∈ ds ∧ Forall (λ e, live d e.1) p.

Definition fits (gs : list Graph) (ds : list (gmap string bool)) (p : Phase) : Prop :=
  match p with
  | Mget _ w => window_ok gs w
  | Zrem _ kept _ => page_ok gs ds kept
  | Fetch _ rows _ | Store _ rows => backed gs rows
  | Over (Page p) => page_ok gs ds p
  | _ => True
  end.

Definition key_ok (gs : list Graph) (z : option (gmap string Z)) : Prop :=
  match z with Some z => z ≠ ∅ ∧ backed gs (map_to_list z) | None => True end.

Lemma backed_sub gs rows rows' : rows' ⊆ rows → backed gs rows → backed gs rows'.
Proof.
  intros Hsub. unfold backed. destruct (from_timeframe t).
  - intros (g & Hg & Hall). exists g. split; [done|]. rewrite Forall_forall in Hall |- *. auto.
  - rewrite !Forall_forall. auto.
Qed.

Lemma backed_more gs g rows : backed gs rows → backed (g :: gs) rows.
Proof.
  unfold backed. destruct (from_timeframe t).
  - intros (g' & ? & ?). exists g'. split; [by right|done].
  - intros Hall. eapply Forall_impl; [exact Hall|]. intros e (g' & u & ? & ? & ?). exists g', u. split; [by right|done].
Qed.

Lemma backed_nil gs g : g ∈ gs → backed gs [].
Proof. intros Hg. unfold backed. destruct (from_timeframe t); [by exists g|constructor]. Qed.

Lemma fits_more gs g ds p : fits gs ds p → fits (g :: gs) ds p.
Proof.
  destruct p as [| | | | | | |[]]; simpl; try done; unfold page_ok, window_ok; intros; destruct_and?; eauto using backed_more.
  all: split_and!; eauto using backed_more.
Qed.

Lemma fits_documents gs d ds p : fits gs ds p → fits gs (d :: ds) p.
Proof.
  destruct p as [| | | | | | |[]]; simpl; try done; intros [? (d' & ? & ?)]; (split; [done|]);
    exists d'; (split; [by right|done]).
Qed.

Lemma global_influencers_backed g gs ct : from_timeframe t = Some ct → g ∈ gs → backed gs (get_global_influencers g).
Proof.
  intros Ht Hg. unfold backed. rewrite Ht. exists g. split; [done|]. apply Forall_forall.
  intros [x sc] Hin. simpl. apply elem_of_take in Hin as (i & Hi & _). apply list_elem_of_lookup_2 in Hi.
  rewrite merge_sort_Permutation in Hi. by apply elem_of_map_to_list in Hi.
Qed.

Lemma all_time_influencers_backed g gs after : from_timeframe t = None → g ∈ gs → backed gs (get_all_time_influencers g after).
Proof.
  intros Ht Hg. unfold backed. rewrite Ht. apply Forall_forall.
  intros e (u & -> & Hu)%list_elem_of_fmap. unfold Scan.Influencers.get_all_time_influencers, page in Hu.
  apply elem_of_take in Hu as (i & Hi & _). apply list_elem_of_lookup_2 in Hi.
  apply list_elem_of_filter in Hi as [_ Hi]. rewrite merge_sort_Permutation in Hi.
  apply list_elem_of_filter in Hi as [Hr Hi]. eauto 10.
Qed.

Lemma backed_app gs rows page : from_timeframe t = None → backed gs rows → backed gs page → backed gs (rows ++ page).
Proof. unfold backed. intros ->. rewrite Forall_app. auto. Qed.

Lemma foldl_insert_entries (rows : list (string * Z)) (z : gmap string Z) :
  map_to_list (foldl (λ z e, <[e.1 := e.2]> z) z rows) ⊆ map_to_list z ++ rows.
Proof.
  revert z. induction rows as [|[m sc] rows IH]; intros z; simpl; [by rewrite app_nil_r|].
  etrans; [apply IH|]. intros [m' sc']. rewrite !elem_of_app, !elem_of_cons, elem_of_map_to_list, lookup_insert_Some, elem_of_map_to_list.
  naive_solver.
Qed.

Lemma rev_range_NoDup_fst upper lower z : NoDup ((rev_range upper lower z).*1).
Proof.
  unfold rev_range. eapply sublist_NoDup; [|apply fmap_sublist, sublist_filter].
  rewrite merge_sort_Permutation. apply NoDup_fst_map_to_list.
Qed.

Lemma window_sub gs w w' : w' `sublist_of` w → window_ok gs w → window_ok gs w'.
Proof.
  intros Hsub (Hb & Hs & Hn & Hl). split_and!.
  - eapply backed_sub; [|exact Hb]. by apply sublist_subseteq.
  - by eapply StronglySorted_sublist.
  - eapply sublist_NoDup; [exact Hn|]. by apply fmap_sublist.
  - etrans; [by apply sublist_length|done].
Qed.

Lemma window_of_key gs z sk : key_ok gs z → gs ≠ [] → window_ok gs (take limit (drop sk (rev_range None None (default ∅ z)))).
Proof.
  intros Hz Hgs. assert (backed gs (map_to_list (default ∅ z))) as Hb.
  { destruct z as [z|]; [apply Hz|]. simpl. rewrite map_to_list_empty. destruct gs as [|g gs]; [done|]. by apply (backed_nil _ g); left. }
  set (all := rev_range None None (default ∅ z)).
  assert (take limit (drop sk all) `sublist_of` all) as Hsub by (etrans; [apply sublist_take|apply sublist_drop]).
  split_and!.
  - eapply backed_sub; [|exact Hb]. intros [m sc] Hin.
    assert ((m, sc) ∈ all) as Hall by (by eapply elem_of_sublist).
    apply elem_of_rev_range in Hall as [_ ?]. by apply elem_of_map_to_list.
  - eapply StronglySorted_sublist; [exact Hsub|apply rev_range_sorted].
  - eapply sublist_NoDup; [apply (rev_range_NoDup_fst None None (default ∅ z))|]. by apply fmap_sublist.
  - rewrite length_take. lia.
Qed.

Lemma key_leave gs z s : backed gs (map_to_list z) → key_ok gs (key (stores (leave_key z s))).
Proof.
  intros Hz. destruct (leave_key_shape z s) as (_ & _ & _ & _ & _ & _ & _ & _ & _ & -> & _). by case_decide.
Qed.

Lemma key_remove gs ids s : key_ok gs (key (stores s)) → key_ok gs (key (stores (remove_from_index_sorted_set ids s))).
Proof.
  unfold remove_from_index_sorted_set. destruct (key (stores s)) as [z|] eqn:Hz; [|by rewrite Hz].
  intros [_ Hb]. apply key_leave. eapply backed_sub; [|exact Hb]. intros [m sc].
  rewrite !elem_of_map_to_list, map_lookup_filter_Some. tauto.
Qed.

Lemma key_replace gs rows s : backed gs rows → key_ok gs (key (stores (replace_index_sorted_set rows s))).
Proof.
  intros Hb. apply key_leave. eapply backed_sub; [|exact Hb].
  pose proof (foldl_insert_entries rows ∅) as Hsub. by rewrite map_to_list_empty in Hsub.
Qed.

(** ** Every move keeps to this *)

Definition sound (s : State) : Prop :=
  graph (stores s) ∈ graphs s ∧ documents (stores s) ∈ document_sets s ∧ key_ok (graphs s) (key (stores s)).

Definition takes (i : nat) (p : Phase) (s s' : State) : Prop :=
  ∃ p', moves i p p' s s' ∧ fits (graphs s) (document_sets s) p' ∧ key_ok (graphs s) (key (stores s')).

Lemma takes_finish i p a s s1 :
  (lock s = Some i ↔ holding p = true) → aside s s1 → rebuilding p = false →
  fits (graphs s) (document_sets s) (Over a) → key_ok (graphs s) (key (stores s1)) → takes i p s (finish i a s1).
Proof. intros Hl Hs Hr Ha Hk. exists (Over a). split; [|done]. apply moves_finish; [done|done|by rewrite Hr]. Qed.

Lemma takes_abandon i p who s s1 :
  (lock s = Some i ↔ holding p = true) → aside s s1 → rebuilding p = (match who with Request => true | Job => false end) →
  key_ok (graphs s) (key (stores s1)) → takes i p s (abandon i who s1).
Proof. intros Hl Hs Hr Hk. exists (Over Failed). split; [by apply moves_abandon|]. split; [done|]. by destruct who. Qed.

Lemma takes_goto i p p' s :
  holding p' = holding p → rebuilding p' = rebuilding p → (lock s = Some i ↔ holding p = true) → sound s →
  fits (graphs s) (document_sets s) p' → takes i p s (goto i p' s).
Proof. intros ??? (? & ? & ?) ?. exists p'. split; [apply moves_goto; auto using aside_refl|done]. Qed.

Lemma takes_lock i s : lock s = None → sound s → takes i AwaitLock s (goto i (Exists_ Second) (with_lock (Some i) s)).
Proof. intros Hl (? & ? & ?). exists (Exists_ Second). split; [|done]. constructor; simpl; auto; try lia; done. Qed.

(** A miss under the lock begins the rebuild. *)
Lemma takes_missed i k s :
  (lock s = Some i ↔ holding (Exists_ k) = true) → key (stores s) = None → sound s → takes i (Exists_ k) s (missed i k s).
Proof.
  intros Hl Hk Hs. destruct k; simpl.
  - by apply takes_goto.
  - destruct Hs as (? & ? & ?). exists (Fetch Request [] ""). split; [|split; [by eapply backed_nil|done]].
    constructor; simpl; auto; try lia; try done. by apply Hl.
  - apply takes_finish; [done|apply aside_refl|done|done|apply Hs].
Qed.

(** The end of a rebuild: the key is there, or the rebuild was in vain. *)
Lemma takes_rebuilt i who rows s s1 (in_vain : bool) :
  (lock s = Some i ↔ holding (Store who rows) = true) → aside s s1 → (key (stores s1) = None → in_vain = true) →
  key_ok (graphs s) (key (stores s1)) → takes i (Store who rows) s (rebuilt i who in_vain s1).
Proof.
  intros Hl Hs Hv Hk. destruct who; simpl; [|by apply takes_finish].
  exists (Exists_ Third). split; [|done]. destruct Hs as (? & ? & ? & ? & ? & Hlock & ? & ? & ? & ?).
  constructor; simpl; auto; try lia; try done.
  - congruence.
  - rewrite Hlock. by apply Hl.
  - by rewrite Nat.add_0_r.
  - intros _ _ Hnone. rewrite Hv by done. lia.
Qed.

Lemma takes_fetch i who rows after s :
  (lock s = Some i ↔ holding (Fetch who rows after) = true) → sound s → fits (graphs s) (document_sets s) (Fetch who rows after) →
  takes i (Fetch who rows after) s (fetch i who rows after s).
Proof.
  intros Hl Hs Hrows. simpl in Hrows. destruct Hs as (Hg & Hd & Hk). unfold fetch. destruct (from_timeframe t) as [ct|] eqn:Ht.
  - apply takes_goto; [by destruct who..|done|by split_and!|]. simpl. by eapply global_influencers_backed.
  - set (pg := get_all_time_influencers (graph (stores s)) after).
    assert (backed (graphs s) (rows ++ pg)) as Hpg by (apply backed_app; [done|done|by apply all_time_influencers_backed]).
    destruct (last pg) as [e|]; [|by apply takes_goto; [destruct who..| | |]]. repeat case_decide.
    + by apply takes_goto; [destruct who..| | |].
    + apply takes_abandon; [done|apply aside_refl|by destruct who|done].
    + by apply takes_goto; [destruct who..| | |].
Qed.

Lemma replaced_key rows s : rows ≠ [] → key (stores (replace_index_sorted_set rows s)) ≠ None.
Proof.
  intros Hrows. unfold replace_index_sorted_set.
  destruct (leave_key_shape (foldl (λ z e, <[e.1 := e.2]> z) ∅ rows) s) as (_ & _ & _ & _ & _ & _ & _ & _ & _ & -> & _).
  case_decide as Hz; [|done]. exfalso. destruct rows as [|e rows] using rev_ind; [done|].
  rewrite foldl_app in Hz. simpl in Hz. by apply insert_non_empty in Hz.
Qed.

Lemma takes_store i who rows trip s :
  (lock s = Some i ↔ holding (Store who rows) = true) → sound s → backed (graphs s) rows →
  takes i (Store who rows) s
    (if writes_ranking t rows then
       match trip with
       | Served => rebuilt i who (bool_decide (rows = [])) (replace_index_sorted_set rows s)
       | Refused => abandon i who s
       | ReplyLost => abandon i who (replace_index_sorted_set rows s)
       end
     else rebuilt i who true s).
Proof.
  intros Hl (Hg & Hd & Hk) Hrows. destruct (writes_ranking t rows); [|by apply takes_rebuilt; [|apply aside_refl| |]].
  assert (rebuilding (Store who rows) = match who with Request => true | Job => false end) by by destruct who.
  destruct trip.
  - apply takes_rebuilt; [done|apply aside_replace| |by apply key_replace]. intros Hnone. apply bool_decide_eq_true.
    destruct (decide (rows = [])); [done|]. by apply (replaced_key rows s) in Hnone.
  - by apply takes_abandon; [|apply aside_refl| |].
  - apply takes_abandon; [done|apply aside_replace|done|by apply key_replace].
Qed.

Lemma advance_takes i trip s s' p :
  phases s !! i = Some p → (lock s = Some i ↔ holding p = true) → sound s → fits (graphs s) (document_sets s) p →
  advance i trip s = Some s' → takes i p s s'.
Proof.
  intros Hp Hl Hs Hfits. pose proof Hs as (Hg & Hd & Hk). unfold advance. rewrite Hp.
  assert (rebuilding p = false → takes i p s (finish i Failed s)) as Hfail
    by (intros; apply takes_finish; [done|apply aside_refl|done|done|done]).
  destruct p as [k|k|k w|k kept gone| |who rows after|who rows|a]; try (intros [= <-]).
  - destruct trip; [|by apply Hfail..]. destruct (key (stores s)) as [z|] eqn:Hz; [by apply takes_goto; [destruct k..| | |]|].
    by apply takes_missed.
  - destruct trip; [|by apply Hfail..]. apply takes_goto; [by destruct k..|done|done|]. simpl. apply window_of_key; [done|].
    intros Hnil. rewrite Hnil in Hg. by apply elem_of_nil in Hg.
  - destruct trip; [|by apply Hfail..].
    assert (page_ok (graphs s) (document_sets s) (filter (λ e, live (documents (stores s)) e.1) w)) as Hpage.
    { split; [eapply window_sub; [apply sublist_filter|exact Hfits]|]. exists (documents (stores s)). split; [done|].
      apply Forall_forall. by intros e [? _]%list_elem_of_filter. }
    case_decide; [by apply takes_finish; [|apply aside_refl| | |]|]. by apply takes_goto; [destruct k..| | |].
  - destruct trip; (apply takes_finish; [done| |done|exact Hfits|]); auto using aside_refl, aside_remove, key_remove.
  - destruct (lock s) eqn:Hlock; [done|]. intros [= <-]. by apply takes_lock.
  - destruct trip; [by apply takes_fetch| |]; (apply takes_abandon; [done|apply aside_refl|by destruct who|done]).
  - by apply takes_store.
Qed.

Lemma cancel_takes i s s' p :
  phases s !! i = Some p → (lock s = Some i ↔ holding p = true) → sound s → cancel i s = Some s' → takes i p s s'.
Proof.
  intros Hp Hl Hs. pose proof Hs as (_ & _ & Hk). unfold cancel. rewrite Hp.
  destruct p as [k|k|k w|k kept gone| |who rows after|who rows|a]; intros [= <-];
    first [apply takes_abandon; [done|apply aside_refl|by destruct who|done]
          |by apply takes_finish; [|apply aside_refl| | |]].
Qed.

Record invariant (s : State) : Prop := {
  inv_sound : sound s;
  inv_lock i p : phases s !! i = Some p → (lock s = Some i ↔ holding p = true);
  inv_holder i : lock s = Some i → is_Some (phases s !! i);
  inv_fits i p : phases s !! i = Some p → fits (graphs s) (document_sets s) p;
  inv_rebuilds : (rebuilds s ≤ losses s + vain s + 1)%nat;
  inv_rebuilt : key (stores s) = None → (∀ i p, phases s !! i = Some p → rebuilding p = false) →
    (rebuilds s ≤ losses s + vain s)%nat;
}.

Lemma holding_rebuilding p : rebuilding p = true → holding p = true.
Proof. by destruct p as [| | | | |[]|[]|]. Qed.

Lemma takes_invariant i p s s' : phases s !! i = Some p → invariant s → takes i p s s' → invariant s'.
Proof.
  intros Hp Hinv (p' & Hm & Hfits & Hkey). destruct Hinv as [Hsound Hlock Hholder Hfs Hc1 Hc2].
  destruct Hm as [Hph [Hgs Hds] [Hg Hd] Hl Hfree Hr Hmiss [Hle1 Hle2] Hlost Hvain].
  pose proof (Hlock i p Hp) as Hlp. destruct Hsound as (Hsg & Hsd & Hsk).
  split.
  - unfold sound. rewrite Hgs, Hds, Hg, Hd. done.
  - intros j q. rewrite Hph, lookup_insert_Some, Hl. intros [[<- <-]|[Hne Hq]].
    + destruct (holding p') eqn:?; [done|]. destruct (holding p) eqn:Hhp; [done|]. by rewrite Hlp.
    + pose proof (Hlock j q Hq) as Hlq. destruct (holding p') eqn:Hhp'.
      * split; [by intros [= ->]|]. intros Hhq%Hlq. destruct (Hfree eq_refl) as [Hhp|Hnone]; [|congruence].
        apply Hlp in Hhp. congruence.
      * destruct (holding p) eqn:Hhp; [|done]. split; [done|]. intros Hhq%Hlq.
        assert (lock s = Some i) by by apply Hlp. congruence.
  - intros j Hj. rewrite Hph. destruct (decide (i = j)) as [->|Hne]; [by rewrite lookup_insert_eq|].
    rewrite lookup_insert_ne by done. rewrite Hl in Hj. destruct (holding p'); [congruence|].
    destruct (holding p); [done|]. by apply Hholder.
  - intros j q. rewrite Hph, Hgs, Hds, lookup_insert_Some. intros [[<- <-]|[Hne Hq]]; [done|eauto].
  - rewrite Hr. destruct (rebuilding p') eqn:Hrp', (rebuilding p) eqn:Hrp; simpl; try lia.
    destruct (Hmiss eq_refl eq_refl) as [Hnone Hh].
    assert (rebuilds s ≤ losses s + vain s)%nat; [|lia]. apply Hc2; [done|]. intros j q Hq.
    destruct (rebuilding q) eqn:Hrq; [|done]. pose proof (proj2 (Hlock j q Hq) (holding_rebuilding _ Hrq)) as Hlj.
    apply Hlp in Hh. assert (i = j) as -> by congruence. congruence.
  - intros Hnone Hidle. assert (rebuilding p' = false) as Hrp' by (apply (Hidle i); rewrite Hph; apply lookup_insert_eq).
    rewrite Hr, Hrp'. simpl. destruct (rebuilding p) eqn:Hrp.
    + specialize (Hvain eq_refl Hrp' Hnone). lia.
    + destruct (Hlost Hnone) as [Hnone0|?]; [|lia]. assert (rebuilds s ≤ losses s + vain s)%nat; [|lia].
      apply Hc2; [done|]. intros j q Hq. destruct (decide (i = j)) as [->|Hne]; [congruence|].
      apply (Hidle j). by rewrite Hph, lookup_insert_ne.
Qed.

(** Someone new, who holds nothing. *)
Lemma arrival_invariant i p s :
  phases s !! i = None → holding p = false → rebuilding p = false → fits (graphs s) (document_sets s) p →
  invariant s → invariant (goto i p s).
Proof.
  intros Hi Hh Hr Hf [Hs Hl Hho Hfs Hc1 Hc2]. split; simpl; try done.
  - intros j q. rewrite lookup_insert_Some. intros [[<- <-]|[Hne Hq]]; [|by apply Hl].
    rewrite Hh. split; [|done]. intros Hli. destruct (Hho i Hli) as [? ?]. congruence.
  - intros j Hj. destruct (decide (i = j)) as [->|]; [by rewrite lookup_insert_eq|]. rewrite lookup_insert_ne; auto.
  - intros j q. rewrite lookup_insert_Some. intros [[<- <-]|[_ Hq]]; [done|]. by eapply Hfs.
  - intros Hk Hidle. apply Hc2; [done|]. intros j q Hq. apply (Hidle j). rewrite lookup_insert_ne; [done|].
    intros ->. congruence.
Qed.

Lemma expire_invariant s : invariant s → invariant (leave_key ∅ s).
Proof.
  destruct (leave_key_shape ∅ s) as (Hp & Hg & Hd & Hsg & Hsd & Hl & Hr & Hv & Hle & Hk & Hlost).
  intros [Hs Hlk Hho Hfs Hc1 Hc2]. split; rewrite ?Hp, ?Hg, ?Hd, ?Hl, ?Hr, ?Hv; try done; try lia.
  - destruct Hs as (? & ? & ?). unfold sound. rewrite Hg, Hd, Hsg, Hsd. split_and!; [done..|]. by rewrite Hk.
  - intros Hnone Hidle. destruct (Hlost Hnone) as [Hn|]; [|lia]. specialize (Hc2 Hn Hidle). lia.
Qed.

Lemma ranking_step_invariant s s' : step s s' → invariant s → invariant s'.
Proof.
  intros Hstep Hinv. destruct Hstep as [i s Hi|i s Hi|i trip s s' Hadv|i s s' Hcan|s|g s|d s].
  - by apply arrival_invariant.
  - apply arrival_invariant; try done. simpl. eapply backed_nil. apply (inv_sound _ Hinv).
  - destruct (phases s !! i) as [p|] eqn:Hp; [|by unfold advance in Hadv; rewrite Hp in Hadv].
    eapply takes_invariant; [exact Hp|done|]. eapply advance_takes; [exact Hp|by apply Hinv|apply Hinv|by eapply Hinv|done].
  - destruct (phases s !! i) as [p|] eqn:Hp; [|by unfold cancel in Hcan; rewrite Hp in Hcan].
    eapply takes_invariant; [exact Hp|done|]. eapply cancel_takes; [exact Hp|by apply Hinv|apply Hinv|done].
  - by apply expire_invariant.
  - destruct Hinv as [(? & ? & Hk) Hl Hho Hfs Hc1 Hc2]. split; simpl; try done.
    + split_and!; [by left|done|]. simpl. destruct (key (stores s)) as [z|]; [|done]. destruct Hk. split; [done|]. by apply backed_more.
    + intros i p Hp. by eapply fits_more, Hfs.
  - destruct Hinv as [(? & ? & Hk) Hl Hho Hfs Hc1 Hc2]. split; simpl; try done.
    + split_and!; [done|by left|done].
    + intros i p Hp. by eapply fits_documents, Hfs.
Qed.

Lemma ranking_reachable_invariant g d s : rtc step (start g d) s → invariant s.
Proof.
  intros Hs. assert (invariant (start g d)) as H0.
  { split; simpl; try done; try lia. unfold sound. simpl. split_and!; try done; by left. }
  revert H0. induction Hs; auto. intros. eauto using ranking_step_invariant.
Qed.

(** C28: However requests, scheduled jobs, cancellations, lost replies, expiries and writers
    interleave around the ranking of a timeframe, requests begin a rebuild at most once
    more than the key went missing or a rebuild of theirs brought nothing, and one at a
    time; what is stored is never an empty set, and was in the graph (all of it at one
    moment, for the cached timeframes); and a page served is sorted, no longer than asked
    for, without a user twice, and of users whose documents were there, undeleted, at one
    moment. *)
Theorem requests_share_a_rebuild g d s :
  rtc step (start g d) s →
  (rebuilds s ≤ losses s + vain s + 1)%nat
  ∧ (∀ i j p q, phases s !! i = Some p → phases s !! j = Some q → rebuilding p = true → rebuilding q = true → i = j)
  ∧ key_ok (graphs s) (key (stores s))
  ∧ (∀ i p, phases s !! i = Some (Over (Page p)) → page_ok (graphs s) (document_sets s) p).
Proof.
  intros Hs%ranking_reachable_invariant. split_and!; [apply Hs| |apply Hs|].
  - intros i j p q Hi Hj Hp%holding_rebuilding Hq%holding_rebuilding.
    apply (inv_lock _ Hs i p Hi) in Hp. apply (inv_lock _ Hs j q Hj) in Hq. congruence.
  - intros i p Hp. exact (inv_fits _ Hs i _ Hp).
Qed.
End Timeframe.

(** ** Examples: runs as lists of moves *)

Module Example_rankings.
Inductive Move :=
  | Arrive (i : nat)
  | Schedule (i : nat)
  | Call (i : nat) (trip : Trip)
  | Drop (i : nat)
  | Expire.

Definition move (t : Timeframe) (skip limit : nat) (m : Move) (s : State) : option State :=
  match m with
  | Arrive i => if decide (phases s !! i = None) then Some (goto i (Exists_ First) s) else None
  | Schedule i => if decide (phases s !! i = None) then Some (goto i (Fetch Job [] "") s) else None
  | Call i trip => advance t skip limit i trip s
  | Drop i => cancel i s
  | Expire => Some (leave_key ∅ s)
  end.

Fixpoint run (t : Timeframe) (skip limit : nat) (ms : list Move) (s : State) : option State :=
  match ms with
  | [] => Some s
  | m :: ms => s ← move t skip limit m s; run t skip limit ms s
  end.

Lemma run_steps t skip limit ms s s' : run t skip limit ms s = Some s' → rtc (step t skip limit) s s'.
Proof.
  revert s. induction ms as [|m ms IH]; intros s; simpl; [by intros [= ->]|].
  destruct (move t skip limit m s) as [s1|] eqn:Hm; [|done]. simpl. intros Hrun.
  eapply rtc_l; [|by apply IH]. destruct m as [i|i|i trip|i|]; simpl in Hm.
  - case_decide; [|done]. injection Hm as <-. by constructor.
  - case_decide; [|done]. injection Hm as <-. by constructor.
  - by eapply step_advance.
  - by eapply step_cancel.
  - injection Hm as <-. by constructor.
Qed.

Definition graph0 : Graph := {| nodes := []; recent := {["ada" := 7%Z; "bob" := 3%Z; "cyd" := 3%Z]} |}.

Definition calls (i n : nat) : list Move := replicate n (Call i Served).

(** Two requests miss together; the second waits for the lock and finds the first's ranking.
    Bob's document is gone, so the first drops him. *)
Definition together : list Move :=
  [Arrive 1; Arrive 2; Call 1 Served; Call 2 Served] ++ calls 1 8 ++ calls 2 4.

Definition documents0 : gmap string bool := {["ada" := false; "bob" := true; "cyd" := false]}.

Definition after : State := default (start graph0 documents0) (run Today 0 10 together (start graph0 documents0)).

Lemma requests_share_a_rebuild_witness :
  phases after !! 1%nat = Some (Over (Page [("ada", 7%Z); ("cyd", 3%Z)]))
  ∧ phases after !! 2%nat = Some (Over (Page [("ada", 7%Z); ("cyd", 3%Z)]))
  ∧ rebuilds after = 1%nat ∧ losses after = 0%nat
  ∧ page_ok Today 10 (graphs after) (document_sets after) [("ada", 7%Z); ("cyd", 3%Z)].
Proof.
  assert (phases after !! 1%nat = Some (Over (Page [("ada", 7%Z); ("cyd", 3%Z)]))) as H1 by (vm_compute; reflexivity).
  split; [exact H1|]. split; [vm_compute; reflexivity|]. split; [vm_compute; reflexivity|]. split; [vm_compute; reflexivity|].
  destruct (requests_share_a_rebuild Today 0 10 graph0 documents0 after) as (_ & _ & _ & Hpages);
    [apply (run_steps _ _ _ together); vm_compute; reflexivity|].
  exact (Hpages _ _ H1).
Defined.

(** When no one on the page has a document, dropping them all takes the key with them: the
    page is empty, and the next request rebuilds the ranking again, and loses it again. *)
Example undocumented_page_is_lost :
  let s := run Today 0 10 (Arrive 1 :: calls 1 9 ++ Arrive 2 :: calls 2 9) (start graph0 ∅) in
  (λ s, (phases s !! 1%nat, phases s !! 2%nat, key (stores s), rebuilds s, losses s)) <$> s
  = Some (Some (Over (Page [])), Some (Over (Page [])), None, 2%nat, 2%nat).
Proof. vm_compute. reflexivity. Qed.
End Example_rankings.
