(* ===== verification/StarterPack.v ===== *)
(** * Starter packs: users to follow for a set of interests

    The requests of nexus-webapi/src/routes/v0/stream/users.rs as they are read and
    validated (models/bounded_skip.rs, bounded_limit.rs, bounded_pagination.rs,
    bounded_vec.rs), and of the streams they choose the starter pack
    (nexus-common/src/models/user/stream.rs over [starter_pack_users] of
    db/graph/queries/get.rs): per label a ranked list of bounded length, the lists merged
    in turn, a page of the merge. The page is the one of the unbounded rankings. *)

From S2P Require Import Prelude Text Errors Rankings Graphs Reach.
Local Open Scope nexus_scope.
#[local] Remove Hints finite.finite_countable : typeclass_instances.

(** ** The round-robin merge *)

(** [Iterator::find] for an id not seen before; what is left of the iterator. *)
Fixpoint find_new (seen : gset string) (candidates : list string) : option string * list string :=
  match candidates with
  | [] => (None, [])
  | id :: candidates => if decide (id ∈ seen) then find_new seen candidates else (Some id, candidates)
  end.

(** One round over the lists. *)
Fixpoint merge_round (lists : list (list string)) (seen : gset string) (merged : list string) :
    list (list string) * gset string * list string :=
  match lists with
  | [] => ([], seen, merged)
  | candidates :: lists =>
      let '(found, candidates) := find_new seen candidates in
      let '(lists, seen, merged) :=
        match found with
        | Some id => merge_round lists ({[id]} ∪ seen) (merged ++ [id])
        | None => merge_round lists seen merged
        end in
      (candidates :: lists, seen, merged)
  end.

(** Rounds until one adds nothing. *)
Fixpoint merge_rounds (fuel : nat) (lists : list (list string)) (seen : gset string) (merged : list string) :
    list string :=
  match fuel with
  | O => merged
  | S fuel =>
      let round_start := length merged in
      let '(lists, seen, merged) := merge_round lists seen merged in
      if decide (length merged = round_start) then merged else merge_rounds fuel lists seen merged
  end.

(** Every round but the last adds an id. *)
Definition interleave_unique (ranked : list (list string)) : list string :=
  merge_rounds (S (length (concat ranked))) ranked ∅ [].

Example a_niche_label_is_not_crowded_out :
  interleave_unique [["p1"; "p2"; "p3"]; ["niche"]; ["p1"; "q2"]] = ["p1"; "niche"; "q2"; "p2"; "p3"].
Proof. reflexivity. Qed.

Section Merge.
Implicit Types (l candidates merged : list string) (lists : list (list string)).

Lemma find_new_some seen l id l' :
  find_new seen l = (Some id, l') →
  ∃ skipped, l = skipped ++ (id :: l') ∧ (id ∉ seen) ∧ Forall (λ x, x ∈ seen) skipped.
Proof.
  revert l'. induction l as [|x l IH]; intros l'; [done|]. simpl. case_decide as Hx.
  - intros (skipped & -> & ? & ?)%IH. exists (x :: skipped). split_and!; try done. by constructor.
  - intros [= -> ->]. by exists [].
Qed.

Lemma find_new_none seen l l' : find_new seen l = (None, l') → l' = [] ∧ Forall (λ x, x ∈ seen) l.
Proof.
  revert l'. induction l as [|x l IH]; intros l'; simpl; [by intros [= <-]|]. case_decide; [|done].
  intros [-> ?]%IH. split; [done|]. by constructor.
Qed.

Lemma find_new_skips seen skipped l : Forall (λ x, x ∈ seen) skipped → find_new seen (skipped ++ l) = find_new seen l.
Proof. induction 1 as [|x skipped Hx _ IH]; [done|]. simpl. by rewrite decide_True. Qed.

(** What a round does to a list: some of it is used, unless nothing is left. *)
Definition advanced (merged l l' : list string) : Prop :=
  ∃ used, l = used ++ l' ∧ Forall (λ x, x ∈ merged) used ∧ (l' = [] ∨ used ≠ []).

Lemma advanced_mono merged merged' l l' : merged ⊆ merged' → advanced merged l l' → advanced merged' l l'.
Proof. intros Hsub (used & ? & Hused & ?). exists used. split_and!; try done. eapply Forall_impl; [done|]. set_solver. Qed.

(** [merge_round] by what it adds. *)
Lemma merge_round_adds lists merged :
  ∃ lists' added, merge_round lists (list_to_set merged) merged = (lists', list_to_set (merged ++ added), merged ++ added)
    ∧ (length added ≤ length lists)%nat
    ∧ (NoDup merged → NoDup (merged ++ added))
    ∧ (∀ x, x ∈ added → x ∈ concat lists)
    ∧ Forall2 (advanced (merged ++ added)) lists lists'
    ∧ (length (concat lists') + length added ≤ length (concat lists))%nat.
Proof.
  revert merged. induction lists as [|l lists IH]; intros merged.
  { exists [], []. rewrite app_nil_r. split_and!; try done; simpl; lia. }
  simpl. destruct (find_new _ l) as [[id|] l'] eqn:Hfind.
  - apply find_new_some in Hfind as (skipped & -> & Hid & Hskip).
    destruct (IH (merged ++ [id])) as (lists' & added & Hround & Hlen & Hdup & Hin & Hadv & Hless).
    replace ({[id]} ∪ list_to_set merged : gset string) with (list_to_set (merged ++ [id]) : gset string)
      by (rewrite list_to_set_app_L, list_to_set_cons; set_solver).
    rewrite Hround. exists (l' :: lists'), (id :: added). rewrite <- app_assoc in *. simpl in *.
    split_and!; [done|lia| | | |rewrite !length_app in *; simpl in *; lia].
    + intros Hm. apply Hdup. apply NoDup_app. split_and!; [done| |apply NoDup_singleton].
      intros x Hx ->%list_elem_of_singleton. apply Hid. by rewrite elem_of_list_to_set.
    + intros x [->|Hx]%elem_of_cons; [set_solver|]. apply Hin in Hx. set_solver.
    + constructor; [|done]. exists (skipped ++ [id]). split_and!; [by rewrite <- app_assoc| |right; by destruct skipped].
      apply Forall_app. split; [|repeat constructor; set_solver].
      eapply Forall_impl; [exact Hskip|]. intros x. rewrite elem_of_list_to_set. set_solver.
  - apply find_new_none in Hfind as [-> Hall].
    destruct (IH merged) as (lists' & added & Hround & Hlen & Hdup & Hin & Hadv & Hless).
    rewrite Hround. exists ([] :: lists'), added. split_and!; [done|lia|done| | |rewrite length_app; simpl; lia].
    + intros x Hx%Hin. set_solver.
    + constructor; [|done]. exists l. rewrite app_nil_r. split_and!; [done| |auto].
      eapply Forall_impl; [exact Hall|]. intros x. rewrite elem_of_list_to_set. set_solver.
Qed.

Lemma merge_rounds_extends fuel lists merged :
  merged `prefix_of` merge_rounds fuel lists (list_to_set merged) merged.
Proof.
  revert lists merged. induction fuel as [|fuel IH]; intros lists merged; [done|]. simpl.
  destruct (merge_round_adds lists merged) as (lists' & added & -> & _).
  case_decide; [by exists added|]. transitivity (merged ++ added); [by exists added|apply IH].
Qed.

Lemma advanced_concat merged lists lists' x :
  Forall2 (advanced merged) lists lists' → x ∈ concat lists' → x ∈ concat lists.
Proof. induction 1 as [|l l' ls ls' (used & -> & _) _ IH]; simpl; [done|]. rewrite !elem_of_app. naive_solver. Qed.

Lemma merge_rounds_sound fuel lists merged :
  NoDup merged →
  NoDup (merge_rounds fuel lists (list_to_set merged) merged)
  ∧ ∀ x, x ∈ merge_rounds fuel lists (list_to_set merged) merged → x ∈ merged ∨ x ∈ concat lists.
Proof.
  revert lists merged. induction fuel as [|fuel IH]; intros lists merged Hm; [auto|]. simpl.
  destruct (merge_round_adds lists merged) as (lists' & added & Hround & _ & Hdup & Hin & Hadv & _).
  rewrite Hround. case_decide.
  - split; [by apply Hdup|]. intros x [?|?%Hin]%elem_of_app; auto.
  - destruct (IH lists' (merged ++ added) (Hdup Hm)) as [Hnd Helem]. split; [done|].
    intros x [[?|?%Hin]%elem_of_app|?]%Helem; auto. right. by eapply advanced_concat.
Qed.

(** ** Fairness: a list's candidate comes within as many rounds as its rank *)

Lemma round_of_none lists merged lists' :
  merge_round lists (list_to_set merged) merged = (lists', list_to_set merged, merged) →
  Forall (Forall (λ x, x ∈ merged)) lists.
Proof.
  revert lists'. induction lists as [|l lists IH]; intros lists'; [constructor|]. simpl.
  destruct (find_new _ l) as [[id|] l'] eqn:Hfind.
  - replace ({[id]} ∪ list_to_set merged : gset string) with (list_to_set (merged ++ [id]) : gset string)
      by (rewrite list_to_set_app_L, list_to_set_cons; set_solver).
    destruct (merge_round_adds lists (merged ++ [id])) as (ls & added & -> & _). intros [= _ _ Hm].
    apply (f_equal length) in Hm. rewrite !length_app in Hm. simpl in Hm. lia.
  - destruct (merge_round_adds lists merged) as (ls & added & Hround & _). rewrite Hround. intros [= _ Hs Hm].
    apply find_new_none in Hfind as [-> Hall]. constructor.
    + eapply Forall_impl; [exact Hall|]. intros x. by rewrite elem_of_list_to_set.
    + eapply IH. by rewrite Hround, Hs, Hm.
Qed.

Lemma prefix_take_elem {A} (l l' : list A) (n : nat) x : l `prefix_of` l' → x ∈ l → (length l ≤ n)%nat → x ∈ take n l'.
Proof. intros [k ->] Hx Hn. rewrite take_app_ge by done. set_solver. Qed.

Lemma merge_rounds_fair fuel lists merged l r x :
  (length (concat lists) < fuel)%nat → l ∈ lists → l !! r = Some x →
  x ∈ take (length merged + S r * length lists) (merge_rounds fuel lists (list_to_set merged) merged).
Proof.
  revert lists merged l r. induction fuel as [|fuel IH]; intros lists merged l r Hfuel Hl Hx; [lia|].
  pose proof (merge_rounds_extends (S fuel) lists merged) as Hext. simpl in Hext |- *.
  destruct (merge_round_adds lists merged) as (lists' & added & Hround & Hlen & _ & _ & Hadv & Hless).
  rewrite Hround in *. case_decide as Hstop.
  - rewrite length_app in Hstop. assert (added = []) as -> by (apply length_zero_iff_nil; lia).
    rewrite app_nil_r in *. apply round_of_none in Hround. rewrite Forall_forall in Hround.
    specialize (Hround l Hl). rewrite Forall_forall in Hround. apply list_elem_of_lookup_2 in Hx.
    eapply prefix_take_elem; [done|by apply Hround|lia].
  - pose proof (Forall2_length _ _ _ Hadv) as Heq.
    apply list_elem_of_lookup in Hl as [i Hi]. destruct (Forall2_lookup_l _ _ _ _ _ Hadv Hi) as (l' & Hi' & used & -> & Hused & Hprog).
    pose proof (merge_rounds_extends fuel lists' (merged ++ added)) as Hext'.
    apply lookup_app_Some in Hx as [Hx|[Hge Hx]].
    + rewrite Forall_forall in Hused. apply list_elem_of_lookup_2 in Hx.
      eapply prefix_take_elem; [done|by apply Hused|rewrite length_app; lia].
    + assert (0 < length used)%nat by (destruct Hprog as [->|?]; [done|destruct used; [done|simpl; lia]]).
      assert (x ∈ take (length (merged ++ added) + S (r - length used) * length lists')
        (merge_rounds fuel lists' (list_to_set (merged ++ added)) (merged ++ added))) as Hin
        by (eapply IH; [rewrite length_app in Hstop; lia|by eapply list_elem_of_lookup_2|done]).
      apply elem_of_take in Hin as (k & Hk & Hlt). apply elem_of_take. exists k. split; [done|].
      rewrite <- Heq, length_app in Hlt. assert (S (r - length used) ≤ r)%nat by lia. nia.
Qed.

(** ** Truncation: a page needs no more of a list than its end *)

(** A list of which [n] ids were fetched, after [used] of them. *)
Definition fetched (n : nat) (merged l l' : list string) : Prop :=
  ∃ used, Forall (λ x, x ∈ merged) used ∧ NoDup (used ++ l) ∧ l' = take (n - length used) l.

Lemma fetched_mono n merged merged' l l' : merged ⊆ merged' → fetched n merged l l' → fetched n merged' l l'.
Proof. intros Hsub (used & Hused & ? & ?). exists used. split_and!; try done. eapply Forall_impl; [done|]. set_solver. Qed.

(** Before the page is full the fetched list has the id the whole one has. *)
Lemma find_new_fetched n merged l l' :
  fetched n merged l l' → (length merged < n)%nat →
  ∃ found r r', find_new (list_to_set merged) l = (found, r) ∧ find_new (list_to_set merged) l' = (found, r')
    ∧ fetched n (merged ++ from_option (λ x, [x]) [] found) r r'.
Proof.
  intros (used & Hused & Hnd & ->) Hn. destruct (find_new _ l) as [[id|] r] eqn:Hfind.
  - apply find_new_some in Hfind as (skipped & -> & Hid & Hskip).
    rewrite (app_assoc used skipped (id :: r)) in Hnd. apply NoDup_app in Hnd as (Hnd1 & Hdis & Hnd2).
    assert (length used + length skipped ≤ length merged)%nat as Hle.
    { rewrite <- length_app. apply submseteq_length, NoDup_submseteq; [done|].
      intros x [Hx|Hx]%elem_of_app; [by eapply (proj1 (Forall_forall _ _) Hused)|].
      apply (proj1 (Forall_forall _ _) Hskip) in Hx. by rewrite elem_of_list_to_set in Hx. }
    exists (Some id), r, (take (n - (length used + length skipped + 1)) r). split; [done|].
    rewrite take_app_ge by lia. rewrite find_new_skips by done.
    replace (n - length used - length skipped)%nat with (S (n - (length used + length skipped + 1))) by lia.
    simpl. rewrite decide_False by done. split; [done|].
    exists (used ++ skipped ++ [id]). rewrite !length_app. simpl. split_and!.
    + rewrite !Forall_app. split_and!; [..|repeat constructor; set_solver].
      * eapply Forall_impl; [exact Hused|]. set_solver.
      * eapply Forall_impl; [exact Hskip|]. intros x. rewrite elem_of_list_to_set. set_solver.
    + rewrite <- !app_assoc. simpl. rewrite app_assoc. by apply NoDup_app.
    + f_equal. lia.
  - apply find_new_none in Hfind as [-> Hall]. exists None, [], []. split; [done|]. split.
    + assert (Forall (λ x, x ∈ (list_to_set merged : gset string)) (take (n - length used) l)) as Hall' by by apply Forall_take.
      apply (find_new_skips _ _ []) in Hall'. by rewrite app_nil_r in Hall'.
    + exists []. split_and!; [constructor|constructor|by destruct (n - _)%nat].
Qed.

Lemma merge_round_fetched n lists lists' merged :
  Forall2 (fetched n merged) lists lists' →
  ∃ ls added ls' added',
    merge_round lists (list_to_set merged) merged = (ls, list_to_set (merged ++ added), merged ++ added)
    ∧ merge_round lists' (list_to_set merged) merged = (ls', list_to_set (merged ++ added'), merged ++ added')
    ∧ ((added = added' ∧ Forall2 (fetched n (merged ++ added)) ls ls')
       ∨ (n ≤ length (merged ++ added) ∧ n ≤ length (merged ++ added')
          ∧ take n (merged ++ added) = take n (merged ++ added'))%nat).
Proof.
  intros Hall. revert merged Hall. induction lists as [|l lists IH] in lists' |- *; intros merged Hall.
  { inversion Hall. exists [], [], [], []. rewrite app_nil_r. split_and!; auto. }
  inversion Hall as [|? l' ? lists1 Hl Hall']; subst. destruct (decide (length merged < n)%nat) as [Hn|Hn].
  - destruct (find_new_fetched _ _ _ _ Hl Hn) as (found & r & r' & Hf & Hf' & Hr). simpl. rewrite Hf, Hf'.
    destruct (IH lists1 (merged ++ from_option (λ x, [x]) [] found)) as (ls & ad & ls' & ad' & H1 & H2 & Hcase).
    { eapply Forall2_impl; [exact Hall'|]. intros ??. apply fetched_mono. set_solver. }
    assert (∀ id, {[id]} ∪ list_to_set merged = (list_to_set (merged ++ [id]) : gset string)) as Hset
      by (intros id; rewrite list_to_set_app_L, list_to_set_cons; set_solver).
    exists (r :: ls), (from_option (λ x, [x]) [] found ++ ad), (r' :: ls'), (from_option (λ x, [x]) [] found ++ ad').
    rewrite !app_assoc. split_and!.
    + destruct found; simpl in *; rewrite ?Hset, ?app_nil_r in *; by rewrite H1.
    + destruct found; simpl in *; rewrite ?Hset, ?app_nil_r in *; by rewrite H2.
    + destruct Hcase as [[-> Hls]|?]; [left|by right]. split; [done|]. constructor; [|done].
      eapply fetched_mono; [|done]. set_solver.
  - destruct (merge_round_adds (l :: lists) merged) as (ls & ad & H1 & _).
    destruct (merge_round_adds (l' :: lists1) merged) as (ls' & ad' & H2 & _).
    exists ls, ad, ls', ad'. split_and!; [done|done|]. right. rewrite !length_app, !take_app_le by lia.
    split_and!; [lia|lia|done].
Qed.

Lemma merge_rounds_fetched fuel fuel' n lists lists' merged :
  (length (concat lists) < fuel)%nat → (length (concat lists') < fuel')%nat → Forall2 (fetched n merged) lists lists' →
  take n (merge_rounds fuel lists (list_to_set merged) merged)
  = take n (merge_rounds fuel' lists' (list_to_set merged) merged).
Proof.
  revert fuel' lists lists' merged. induction fuel as [|fuel IH]; intros [|fuel'] lists lists' merged Hf Hf' Hall; [lia..|].
  pose proof (merge_rounds_extends (S fuel) lists merged) as [k Hk].
  pose proof (merge_rounds_extends (S fuel') lists' merged) as [k' Hk'].
  destruct (decide (length merged < n)%nat) as [Hn|Hn];
    [|by rewrite Hk, Hk', !take_app_le by lia].
  clear k k' Hk Hk'. simpl.
  destruct (merge_round_adds lists merged) as (l1 & a1 & H1 & _ & _ & _ & _ & Hless).
  destruct (merge_round_adds lists' merged) as (l1' & a1' & H1' & _ & _ & _ & _ & Hless').
  destruct (merge_round_fetched n lists lists' merged Hall) as (ls & ad & ls' & ad' & H2 & H2' & Hcase).
  rewrite H1 in H2. injection H2 as -> _ Ha. apply app_inv_head in Ha as ->.
  rewrite H1' in H2'. injection H2' as -> _ Ha'. apply app_inv_head in Ha' as ->. rewrite H1, H1'.
  destruct Hcase as [[<- Hls]|(Hge & Hge' & Htake)].
  - case_decide as Hstop; [done|]. rewrite length_app in Hstop. apply IH; [lia|lia|done].
  - rewrite !decide_False by lia.
    destruct (merge_rounds_extends fuel ls (merged ++ ad)) as [k ->].
    destruct (merge_rounds_extends fuel' ls' (merged ++ ad')) as [k' ->].
    by rewrite (take_app_le (merged ++ ad)), (take_app_le (merged ++ ad')) by lia.
Qed.

(** ** The merge *)

Lemma interleave_unique_sound ranked :
  NoDup (interleave_unique ranked) ∧ ∀ x, x ∈ interleave_unique ranked → x ∈ concat ranked.
Proof.
  destruct (merge_rounds_sound (S (length (concat ranked))) ranked [] (NoDup_nil_2)) as [? Hin].
  split; [done|]. intros x [?%elem_of_nil|?]%Hin; done.
Qed.

Lemma interleave_unique_fair ranked l r x :
  l ∈ ranked → l !! r = Some x → x ∈ take (S r * length ranked) (interleave_unique ranked).
Proof. intros Hl Hx. by apply (merge_rounds_fair (S (length (concat ranked))) ranked [] l r x (Nat.lt_succ_diag_r _)). Qed.

Lemma interleave_unique_take n ranked :
  Forall NoDup ranked → take n (interleave_unique (take n <$> ranked)) = take n (interleave_unique ranked).
Proof.
  intros Hnd. symmetry. apply (merge_rounds_fetched _ _ n ranked (take n <$> ranked) []); [lia|lia|].
  apply Forall2_fmap_r. induction Hnd as [|l ls Hl _ IH]; constructor; [|done].
  exists []. simpl. rewrite Nat.sub_0_r. split_and!; [constructor|done|done].
Qed.
End Merge.

(** ** Requests *)

(** nexus-webapi's [Error], of which validation gives the first. *)
Inductive ApiError := InvalidInput (message : string).

(** What a deserializer refuses with. *)
Inductive DeError := ParseIntError | Custom (message : string).

Definition usize_max : Z := u64_max.

(** [BoundedSkip<MAX>] *)
Definition BoundedSkip_validate (MAX n : Z) : result unit DeError :=
  if decide (MAX < n)%Z then Err (Custom ("skip exceeds maximum of " +:+ pretty MAX)) else Ok tt.

Definition BoundedSkip_deserialize (MAX : Z) (s : string) : result Z DeError :=
  match parse_u64 s with
  | None => Err ParseIntError
  | Some n => match BoundedSkip_validate MAX n with Ok _ => Ok n | Err e => Err e end
  end.

(** [BoundedLimit<DEFAULT, MAX>] *)
Definition BoundedLimit_validate (MAX n : Z) : result unit DeError :=
  if decide (n = 0)%Z then Err (Custom "limit must be at least 1")
  else if decide (MAX < n)%Z then Err (Custom ("limit exceeds maximum of " +:+ pretty MAX))
  else Ok tt.

Definition BoundedLimit_deserialize (MAX : Z) (s : string) : result Z DeError :=
  match parse_u64 s with
  | None => Err ParseIntError
  | Some n => match BoundedLimit_validate MAX n with Ok _ => Ok n | Err e => Err e end
  end.

Record BoundedPagination := { skip : option Z; limit : option Z }.

Definition skip_value (p : BoundedPagination) : Z := default 0%Z (skip p).
Definition limit_value (DEFAULT : Z) (p : BoundedPagination) : Z := default DEFAULT (limit p).

(** A parameter that may be absent. *)
Definition optional {A B} (f : A → result B DeError) (x : option A) : result (option B) DeError :=
  match x with
  | None => Ok None
  | Some x => match f x with Ok y => Ok (Some y) | Err e => Err e end
  end.

(** [collect] into a [Result] *)
Fixpoint collect {A E} (l : list (result A E)) : result (list A) E :=
  match l with
  | [] => Ok []
  | Err e :: _ => Err e
  | Ok x :: l => match collect l with Ok xs => Ok (x :: xs) | Err e => Err e end
  end.

(** [str::split] at an ASCII character *)
Fixpoint split (c : Ascii.ascii) (s : string) : list string :=
  match s with
  | EmptyString => [""]
  | String c' s =>
      if decide (c' = c) then "" :: split c s
      else match split c s with
           | [] => [String c' ""]
           | part :: parts => String c' part :: parts
           end
  end.

(** pubky-app-specs: [PubkyAppTag]'s sanitizing and validation of a label. *)
Class TagLabels := { validate_and_sanitize : string → result string string }.

Section Requests.
Context {TL : TagLabels}.

(** [TagLabel::try_from] *)
Definition TagLabel_try_from (s : string) : result string DeError :=
  match validate_and_sanitize s with Ok label => Ok label | Err e => Err (Custom e) end.

Definition validate_len (MIN MAX len : nat) : result unit DeError :=
  if decide (len < MIN)%nat then Err (Custom ("At least " +:+ pretty MIN +:+ " item(s) required"))
  else if decide (MAX < len)%nat then Err (Custom ("Maximum " +:+ pretty MAX +:+ " items allowed"))
  else Ok tt.

Definition comma : Ascii.ascii := Ascii.ascii_of_N 44.

Definition deserialize_csv (MIN MAX : nat) (s : string) : result (list string) DeError :=
  match collect (TagLabel_try_from <$> filter (λ t, t ≠ "") (trim <$> split comma s)) with
  | Err e => Err e
  | Ok items => match validate_len MIN MAX (length items) with Ok _ => Ok items | Err e => Err e end
  end.

(** [Tags] *)
Definition Tags_deserialize (s : string) : result (list string) DeError := deserialize_csv 1 5 s.

Inductive UserStreamSource :=
  | Followers
  | Following
  | Friends
  | MostFollowed
  | Influencers
  | Recommended
  | PostReplies
  | StarterPack.

#[export] Instance UserStreamSource_eq_dec : EqDecision UserStreamSource.
Proof. solve_decision. Defined.

Definition source_name (source : UserStreamSource) : string :=
  match source with
  | Followers => "followers"
  | Following => "following"
  | Friends => "friends"
  | MostFollowed => "most_followed"
  | Influencers => "influencers"
  | Recommended => "recommended"
  | PostReplies => "post_replies"
  | StarterPack => "starter_pack"
  end.

Record UserStreamQuery := {
  q_user_id : option string;
  q_viewer_id : option string;
  q_pagination : BoundedPagination;
  q_source : option UserStreamSource;
  q_reach : option Reach.StreamReach;
  q_author_id : option string;
  q_post_id : option string;
  q_depth : option Z;
  q_timeframe : option Timeframe;
  q_preview : option bool;
  q_tags : option (list string);
}.

(** The parameters as strings, where reading them is nexus-webapi's; the rest of [q] is typed. *)
Definition deserialize_query (raw_skip raw_limit raw_tags : option string) (q : UserStreamQuery) :
    result UserStreamQuery DeError :=
  match optional (BoundedSkip_deserialize 10000) raw_skip, optional (BoundedLimit_deserialize 20) raw_limit,
        optional Tags_deserialize raw_tags with
  | Ok s, Ok l, Ok t =>
      Ok {| q_user_id := q_user_id q; q_viewer_id := q_viewer_id q;
            q_pagination := {| skip := s; limit := l |}; q_source := q_source q; q_reach := q_reach q;
            q_author_id := q_author_id q; q_post_id := q_post_id q; q_depth := q_depth q;
            q_timeframe := q_timeframe q; q_preview := q_preview q; q_tags := t |}
  | Err e, _, _ | _, Err e, _ | _, _, Err e => Err e
  end.

Record UserStreamInput := {
  user_id : option string;
  i_skip : option Z;
  i_limit : option Z;
  source : UserStreamSource;
  reach : option Reach.StreamReach;
  timeframe : option Timeframe;
  preview : option bool;
  author_id : option string;
  post_id : option string;
  tags : option (list string);
}.

Definition MODERATED_TAGS : list string :=
  ["hatespeech"; "harassement"; "terrorism"; "violence"; "illegal_activities"; "il_adult_nu_sex_act"].

Definition validate_interest_tags (labels : list string) : result (list string) ApiError :=
  match list_find (λ l, l ∈ MODERATED_TAGS) labels with
  | Some (_, label) => Err (InvalidInput ("tag label '" +:+ label
      +:+ "' is a moderation label and cannot be used with source 'starter_pack'"))
  | None => Ok labels
  end.

Definition STARTER_PACK_MAX_SKIP : Z := 100.

(** The [tags] of a request, by its source. *)
Definition validate_tags (source : UserStreamSource) (skip : Z) (tags : option (list string)) :
    result (option (list string)) ApiError :=
  match source, tags with
  | StarterPack, Some tags =>
      if decide (STARTER_PACK_MAX_SKIP < skip)%Z then
        Err (InvalidInput ("skip must be at most " +:+ pretty STARTER_PACK_MAX_SKIP +:+ " for source 'starter_pack'"))
      else match validate_interest_tags tags with Ok labels => Ok (Some labels) | Err e => Err e end
  | StarterPack, None => Err (InvalidInput "tags query param must be provided for source 'starter_pack'")
  | source, Some _ =>
      Err (InvalidInput ("tags query param is only supported for source 'starter_pack', not '"
        +:+ source_name source +:+ "'"))
  | _, None => Ok None
  end.

(** What a request without a user lacks. *)
Definition validate_no_user (source : UserStreamSource) (q : UserStreamQuery) : result unit ApiError :=
  match source with
  | Followers | Following | Friends | Recommended =>
      Err (InvalidInput ("user_id query param must be provided for source '" +:+ source_name source +:+ "'"))
  | Influencers =>
      if decide (is_Some (q_reach q)) then
        Err (InvalidInput "user_id query param must be provided for source 'influencers' when reach is specified")
      else Ok tt
  | PostReplies =>
      if decide (q_author_id q = None) then
        Err (InvalidInput "author_id query param must be provided for source 'post_replies'")
      else if decide (q_post_id q = None) then
        Err (InvalidInput "post_id query param must be provided for source 'post_replies'")
      else Ok tt
  | MostFollowed | StarterPack => Ok tt
  end.

Definition build_user_stream_input (q : UserStreamQuery) :
    result (UserStreamInput * option string * option Z) ApiError :=
  let source := default Followers (q_source q) in
  let skip := skip_value (q_pagination q) in
  let limit := limit_value 5 (q_pagination q) in
  let timeframe := default AllTime (q_timeframe q) in
  match validate_tags source skip (q_tags q) with
  | Err e => Err e
  | Ok tags =>
      if decide (source = Influencers ∧ q_user_id q = None ∧ timeframe ≠ AllTime ∧ q_preview q ≠ Some true
                 ∧ GLOBAL_INFLUENCERS_CACHE_SIZE < skip)%Z then
        Err (InvalidInput ("skip must be at most " +:+ pretty GLOBAL_INFLUENCERS_CACHE_SIZE
          +:+ " for source 'influencers' without user_id and a timeframe other than 'all_time'"))
      else
        match (if decide (q_user_id q = None) then validate_no_user source q else Ok tt) with
        | Err e => Err e
        | Ok _ =>
            let excluded_id := match source with
                               | StarterPack => match q_user_id q with Some id => Some id | None => q_viewer_id q end
                               | _ => q_user_id q
                               end in
            Ok ({| user_id := excluded_id; i_skip := Some skip; i_limit := Some limit; source := source;
                   reach := q_reach q; timeframe := Some timeframe; preview := q_preview q;
                   author_id := q_author_id q; post_id := q_post_id q; tags := tags |},
                q_viewer_id q, q_depth q)
        end
  end.
End Requests.

(** ** The query *)

(** Trust is read as a multiple of a fixed unit. *)
Record Person := { deleted : option bool; trust : option Z }.

Inductive TagTarget := ToUser (id : string) | ToPost (author id : string) | ToResource (id : string).

Record Tagged := { tagger : string; label : string; target : TagTarget }.

(** Posts by author and id, with their [indexed_at]. *)
Record InterestGraph := {
  people : gmap string Person;
  follows : gset (string * string);
  posts : gmap (string * string) Z;
  tagged : list Tagged;
}.

(** Whose profile or post a tag is on. *)
Definition endorsed (g : InterestGraph) (t : Tagged) : option string :=
  match target t with
  | ToUser id => Some id
  | ToPost a i => if decide (is_Some (posts g !! (a, i))) then Some a else None
  | ToResource _ => None
  end.

(** The taggers of a candidate for a label, each once. *)
Definition endorsers (g : InterestGraph) (l candidate : string) : gset string :=
  list_to_set (omap (λ t, if decide (label t = l ∧ endorsed g t = Some candidate ∧ is_Some (people g !! tagger t))
                          then Some (tagger t) else None) (tagged g)).

Definition trust_score (g : InterestGraph) (s : gset string) : Z :=
  foldr Z.add 0%Z ((λ t, default 0%Z (people g !! t ≫= trust)) <$> elements s).

(** [user]: the node of the one the pack is for, when there is one. *)
Definition eligible (g : InterestGraph) (user : option string) (since : Z) (candidate : string) : Prop :=
  default false (people g !! candidate ≫= deleted) = false
  ∧ (match user with Some u => candidate ≠ u ∧ (u, candidate) ∉ follows g | None => True end)
  ∧ Exists (λ p : (string * string) * Z, fst (fst p) = candidate ∧ since ≤ snd p)%Z (map_to_list (posts g)).

#[export] Instance eligible_dec g user since c : Decision (eligible g user since c).
Proof. unfold eligible. destruct user; apply _. Defined.

Record Scored := { id : string; trust_total : Z; endorser_count : nat }.

(** ORDER BY trust_score DESC, endorsers DESC, id ASC *)
Definition ranks_before (a b : Scored) : Prop :=
  (trust_total b < trust_total a)%Z
  ∨ (trust_total a = trust_total b ∧ (endorser_count b < endorser_count a)%nat)
  ∨ (trust_total a = trust_total b ∧ endorser_count a = endorser_count b ∧ str_le (id a) (id b)).

#[export] Instance ranks_before_dec : RelDecision ranks_before.
Proof. intros a b. unfold ranks_before. apply _. Defined.

(** Every candidate of a label, best first. *)
Definition ranking (g : InterestGraph) (user : option string) (since : Z) (l : string) : list string :=
  id <$> merge_sort ranks_before
    ((λ c, {| id := c; trust_total := trust_score g (endorsers g l c); endorser_count := size (endorsers g l c) |})
       <$> filter (λ c, endorsers g l c ≠ ∅ ∧ eligible g user since c) (fst <$> map_to_list (people g))).

Definition MAX_QUERY_LIMIT : Z := 1000.

(** A row per label, for the labels with a candidate. *)
Definition starter_pack_users (labels : list string) (user_id : option string) (since per_label : Z)
    (g : InterestGraph) : list (string * list string) :=
  let user := u ← user_id; if decide (is_Some (people g !! u)) then Some u else None in
  let limit := Z.to_nat (Z.min per_label MAX_QUERY_LIMIT) in
  omap (λ l, match take limit (ranking g user since l) with
             | [] => None
             | candidates => Some (l, candidates)
             end) (remove_dups labels).

(** ** The pack *)

(** The rows taken in the caller's order, each once. *)
Fixpoint take_rows (labels : list string) (by_label : gmap string (list string)) : list (list string) :=
  match labels with
  | [] => []
  | l :: labels =>
      match by_label !! l with
      | Some candidates => candidates :: take_rows labels (delete l by_label)
      | None => take_rows labels by_label
      end
  end.

Definition saturating_add (x y : Z) : Z := Z.min (x + y) usize_max.
Definition saturating_mul (x y : Z) : Z := Z.min (x * y) usize_max.

Definition get_starter_pack_ids (labels : list string) (user_id : option string) (since skip limit : Z) :
    prog (GraphSession InterestGraph) (result (option (list string)) Model.ModelError) :=
  let per_label := saturating_mul (saturating_add skip limit) (Z.max (Z.of_nat (length labels)) 1) in
  let? rows := emap_err Model.GraphOperationFailed (run_query (reads (starter_pack_users labels user_id since per_label))) in
  let by_label := foldl (λ m r, <[fst r := snd r]> m) (∅ : gmap string (list string)) rows in
  let ranked := take_rows labels by_label in
  let user_ids := take (Z.to_nat limit) (drop (Z.to_nat skip) (interleave_unique ranked)) in
  ret (Ok (if decide (user_ids ≠ []) then Some user_ids else None)).

(** The [StarterPack] arm of [get_user_list_from_source]. *)
Definition starter_pack_list (now : Z) (input : UserStreamInput) :
    prog (GraphSession InterestGraph) (result (option (list string)) Model.ModelError) :=
  match tags input with
  | None => ret (Err (Model.from_generic "Tags should be provided for user streams with source 'starter_pack'"))
  | Some labels =>
      let since := fst (to_timestamp_range now (default AllTime (timeframe input))) in
      get_starter_pack_ids labels (user_id input) since (default 0%Z (i_skip input)) (default 5%Z (i_limit input))
  end.

(** ** What the pack is to be *)

(** The labels with a candidate, each once, in the caller's order, with all they have. *)
Fixpoint rankings (g : InterestGraph) (user : option string) (since : Z) (seen labels : list string) : list (list string) :=
  match labels with
  | [] => []
  | l :: labels =>
      if decide (l ∈ seen ∨ ranking g user since l = []) then rankings g user since seen labels
      else ranking g user since l :: rankings g user since (l :: seen) labels
  end.

Definition indexed_user (g : InterestGraph) (u : option string) : option string :=
  u ← u; if decide (is_Some (people g !! u)) then Some u else None.

Definition starter_pack (g : InterestGraph) (u : option string) (since : Z) (labels : list string) : list string :=
  interleave_unique (rankings g (indexed_user g u) since [] labels).

Section Pack.
Context (g : InterestGraph) (user : option string) (since : Z).

Lemma elem_of_ranking l c :
  c ∈ ranking g user since l → endorsers g l c ≠ ∅ ∧ eligible g user since c ∧ is_Some (people g !! c).
Proof.
  unfold ranking. intros ([c' ? ?] & -> & Hin)%list_elem_of_fmap. rewrite merge_sort_Permutation in Hin.
  apply list_elem_of_fmap in Hin as (c & [= -> _ _] & [[He Hel] Hin]%list_elem_of_filter).
  apply list_elem_of_fmap in Hin as ([c' p] & -> & Hin%elem_of_map_to_list). eauto.
Qed.

Lemma NoDup_ranking l : NoDup (ranking g user since l).
Proof.
  unfold ranking. rewrite merge_sort_Permutation, <- list_fmap_compose.
  assert (∀ cs, id ∘ (λ c, {| id := c; trust_total := trust_score g (endorsers g l c);
    endorser_count := size (endorsers g l c) |}) <$> cs = cs) as ->
    by (intros cs; induction cs as [|c cs IH]; [done|]; cbn; by f_equal).
  apply NoDup_filter, NoDup_fst_map_to_list.
Qed.

Lemma rankings_of_labels seen labels cs :
  cs ∈ rankings g user since seen labels → ∃ l, l ∈ labels ∧ cs = ranking g user since l.
Proof.
  revert seen. induction labels as [|l labels IH]; intros seen; [by intros ?%elem_of_nil|]. simpl. case_decide.
  - intros (l' & ? & ->)%IH. exists l'. split; [by right|done].
  - intros [->|(l' & ? & ->)%IH]%elem_of_cons; [exists l|exists l']; (split; [|done]); [by left|by right].
Qed.

Lemma rankings_have seen labels l :
  l ∈ labels → l ∉ seen → ranking g user since l ≠ [] → ranking g user since l ∈ rankings g user since seen labels.
Proof.
  revert seen. induction labels as [|l' labels IH]; intros seen Hl Hseen Hne; [by apply elem_of_nil in Hl|]. simpl.
  apply elem_of_cons in Hl as [<-|Hl]; [rewrite decide_False by tauto; by left|].
  case_decide; [by apply IH|]. destruct (decide (l = l')) as [->|]; [by left|]. right. apply IH; [done| |done].
  rewrite elem_of_cons. tauto.
Qed.

Lemma length_rankings seen labels : (length (rankings g user since seen labels) ≤ length labels)%nat.
Proof.
  revert seen. induction labels as [|l labels IH]; intros seen; simpl; [lia|].
  case_decide; simpl; [pose proof (IH seen)|pose proof (IH (l :: seen))]; lia.
Qed.

(** The rows of the query are the rankings, cut. *)
Lemma take_rows_rankings n seen labels (by_label : gmap string (list string)) :
  (0 < n)%nat →
  (∀ l, l ∈ labels → by_label !! l
    = if decide (l ∈ seen ∨ ranking g user since l = []) then None else Some (take n (ranking g user since l))) →
  take_rows labels by_label = take n <$> rankings g user since seen labels.
Proof.
  intros Hn. revert seen by_label. induction labels as [|l labels IH]; intros seen m Hm; [done|].
  simpl. rewrite Hm by by left. case_decide as Hl.
  - apply IH. intros l' Hl'. apply Hm. by right.
  - simpl. f_equal. apply IH. intros l' Hl'. destruct (decide (l' = l)) as [->|Hne].
    + rewrite lookup_delete_eq, decide_True; [done|]. left. by left.
    + rewrite lookup_delete_ne by done. rewrite Hm by by right.
      rewrite (decide_ext (l' ∈ seen ∨ ranking g user since l' = []) (l' ∈ l :: seen ∨ ranking g user since l' = []));
        [done|]. rewrite elem_of_cons. tauto.
Qed.
End Pack.

(** ** From the request to the page *)

Lemma foldl_insert_rows {A} (f : string → option A) ls (m : gmap string A) l :
  foldl (λ m r, <[fst r := snd r]> m) m (omap (λ l, pair l <$> f l) ls) !! l
  = if decide (l ∈ ls) then match f l with Some a => Some a | None => m !! l end else m !! l.
Proof.
  revert m. induction ls as [|l' ls IH]; intros m; [done|]. simpl.
  destruct (f l') as [a|] eqn:Hf; simpl; rewrite IH; destruct (decide (l = l')) as [->|Hne].
  - rewrite Hf, lookup_insert_eq, (decide_True (P := l' ∈ l' :: ls)) by by left. by case_decide.
  - rewrite lookup_insert_ne by done.
    rewrite (decide_ext (l ∈ ls) (l ∈ l' :: ls)); [done|]. rewrite elem_of_cons. tauto.
  - rewrite Hf, (decide_True (P := l' ∈ l' :: ls)) by by left. by case_decide.
  - rewrite (decide_ext (l ∈ ls) (l ∈ l' :: ls)); [done|]. rewrite elem_of_cons. tauto.
Qed.

Lemma get_starter_pack_ids_page labels u since skip limit s r s' :
  (0 ≤ skip)%Z → (0 < limit)%Z → (skip + limit ≤ MAX_QUERY_LIMIT)%Z →
  get_starter_pack_ids labels u since skip limit s = (Ok r, s') →
  default [] r = take (Z.to_nat limit) (drop (Z.to_nat skip) (starter_pack (graph s) u since labels)).
Proof.
  intros Hskip Hlimit Hmax Hrun.
  set (n := Z.to_nat (Z.min (saturating_mul (saturating_add skip limit) (Z.max (Z.of_nat (length labels)) 1)) MAX_QUERY_LIMIT)).
  assert (Z.to_nat skip + Z.to_nat limit ≤ n)%nat as Hn.
  { unfold n, saturating_mul, saturating_add, usize_max, u64_max, MAX_QUERY_LIMIT in *. nia. }
  set (rows := starter_pack_users labels u since (saturating_mul (saturating_add skip limit) (Z.max (Z.of_nat (length labels)) 1)) (graph s)).
  assert (default [] r = take (Z.to_nat limit) (drop (Z.to_nat skip)
    (interleave_unique (take_rows labels (foldl (λ m r, <[fst r := snd r]> m) (∅ : gmap string (list string)) rows))))) as ->.
  { revert Hrun. unfold get_starter_pack_ids, run_query, reads. unfold_prog. fold rows.
    destruct (graph_trips s) as [|[] ?]; simpl; intros [= <- _]; try done; by case_decide as Hd; [|rewrite Hd]. }
  set (user := indexed_user (graph s) u).
  assert (take_rows labels (foldl (λ m r, <[fst r := snd r]> m) (∅ : gmap string (list string)) rows)
    = take n <$> rankings (graph s) user since [] labels) as ->.
  { apply take_rows_rankings; [lia|]. intros l Hl.
    replace rows with (omap (λ l, pair l <$> (if decide (ranking (graph s) user since l = []) then None
      else Some (take n (ranking (graph s) user since l)))) (remove_dups labels)).
    - rewrite foldl_insert_rows, decide_True, lookup_empty by by apply elem_of_remove_dups.
      rewrite (decide_ext (l ∈ [] ∨ ranking (graph s) user since l = []) (ranking (graph s) user since l = []));
        [by case_decide|]. set_solver.
    - unfold rows, starter_pack_users. fold (indexed_user (graph s) u). fold user. fold n. generalize (remove_dups labels).
      intros ls. apply list_omap_ext, Forall_Forall2_diag, Forall_forall. intros l' _. case_decide as Hr; simpl.
      + by rewrite Hr, take_nil.
      + destruct (ranking (graph s) user since l') as [|x xs]; [done|]. destruct n; [lia|done]. }
  unfold starter_pack. fold user.
  assert (∀ l, take (Z.to_nat limit) (drop (Z.to_nat skip) l)
    = drop (Z.to_nat skip) (take (Z.to_nat skip + Z.to_nat limit) (take n l) : list string)) as Hpage.
  { intros l. by rewrite take_take, Nat.min_l, skipn_firstn_comm, Nat.add_comm, Nat.add_sub by lia. }
  rewrite !Hpage, interleave_unique_take; [done|]. apply Forall_forall.
  intros cs (l & _ & ->)%rankings_of_labels. apply NoDup_ranking.
Qed.

Section Request.
Context {TL : TagLabels}.

Lemma deserialize_query_bounds rs rl rt q0 q :
  deserialize_query rs rl rt q0 = Ok q →
  (0 ≤ skip_value (q_pagination q) ≤ 10000 ∧ 1 ≤ limit_value 5 (q_pagination q) ≤ 20)%Z
  ∧ ∀ labels, q_tags q = Some labels → (1 ≤ length labels ≤ 5)%nat.
Proof.
  unfold deserialize_query. destruct (optional (BoundedSkip_deserialize _) rs) as [s|] eqn:Hs; [|done].
  destruct (optional (BoundedLimit_deserialize _) rl) as [l|] eqn:Hl; [|done].
  destruct (optional Tags_deserialize rt) as [t|] eqn:Ht; [|done]. intros [= <-].
  unfold skip_value, limit_value. simpl. split; [split|].
  - destruct rs as [raw|]; simpl in Hs; [|injection Hs as <-; simpl; lia].
    unfold BoundedSkip_deserialize, BoundedSkip_validate in Hs. destruct (parse_u64 raw) as [n|] eqn:Hn; [|done].
    apply parse_u64_bounds in Hn. case_decide; [done|]. injection Hs as <-. simpl. lia.
  - destruct rl as [raw|]; simpl in Hl; [|injection Hl as <-; simpl; lia].
    unfold BoundedLimit_deserialize, BoundedLimit_validate in Hl. destruct (parse_u64 raw) as [n|] eqn:Hn; [|done].
    apply parse_u64_bounds in Hn. repeat case_decide; try done. injection Hl as <-. simpl. lia.
  - intros labels ->. destruct rt as [raw|]; simpl in Ht; [|done].
    unfold Tags_deserialize, deserialize_csv, validate_len in Ht. destruct (collect _) as [items|]; [|done].
    repeat case_decide; try done. injection Ht as ->. lia.
Qed.

Lemma starter_pack_input q input viewer depth :
  build_user_stream_input q = Ok (input, viewer, depth) → source input = StarterPack →
  ∃ labels, q_tags q = Some labels ∧ tags input = Some labels ∧ Forall (λ l, l ∉ MODERATED_TAGS) labels
    ∧ i_skip input = Some (skip_value (q_pagination q)) ∧ (skip_value (q_pagination q) ≤ STARTER_PACK_MAX_SKIP)%Z
    ∧ i_limit input = Some (limit_value 5 (q_pagination q)).
Proof.
  unfold build_user_stream_input. intros Hbuild Hsource.
  destruct (validate_tags _ _ _) as [ts|] eqn:Htags; [|done]. case_decide; [done|].
  destruct (if decide _ then _ else _); [|done]. injection Hbuild as <- <- <-. simpl in *. rewrite Hsource in Htags.
  unfold validate_tags, validate_interest_tags in Htags. destruct (q_tags q) as [labels|]; [|done].
  case_decide; [done|]. destruct (list_find _ labels) as [[? ?]|] eqn:Hfind; [done|]. injection Htags as <-.
  exists labels. split_and!; try done; [|lia].
  by apply (list_find_None (λ l, l ∈ MODERATED_TAGS)).
Qed.

(** C27: The starter pack of an accepted request is the page it asks for of one list that does
    not depend on the page: every label's full ranking, merged in turn, though the query cuts
    each ranking short. The list has no user twice and none who is gone, without a recent
    post, followed by or the one it is for; the k-th of any label's ranking is among the
    first k rounds, however popular the other labels; and the labels are no moderation labels. *)
Theorem starter_pack_is_a_page_of_all raw_skip raw_limit raw_tags q0 q input viewer depth now s r s' :
  deserialize_query raw_skip raw_limit raw_tags q0 = Ok q →
  build_user_stream_input q = Ok (input, viewer, depth) → source input = StarterPack →
  starter_pack_list now input s = (Ok r, s') →
  ∃ labels sk li, tags input = Some labels ∧ i_skip input = Some sk ∧ i_limit input = Some li ∧
    let user := indexed_user (graph s) (user_id input) in
    let since := fst (to_timestamp_range now (default AllTime (timeframe input))) in
    let pack := starter_pack (graph s) (user_id input) since labels in
    default [] r = take (Z.to_nat li) (drop (Z.to_nat sk) pack)
    ∧ NoDup pack ∧ Forall (eligible (graph s) user since) pack
    ∧ (∀ l k c, l ∈ labels → ranking (graph s) user since l !! k = Some c → c ∈ take (S k * length labels) pack)
    ∧ Forall (λ l, l ∉ MODERATED_TAGS) labels.
Proof.
  intros Hq Hbuild Hsource Hrun. destruct (deserialize_query_bounds _ _ _ _ _ Hq) as [Hb _].
  destruct (starter_pack_input _ _ _ _ Hbuild Hsource) as (labels & _ & Htags & Hmod & Hskip & Hmax & Hlimit).
  exists labels, (skip_value (q_pagination q)), (limit_value 5 (q_pagination q)). split_and!; try done. intros user since pack.
  unfold starter_pack_list in Hrun. rewrite Htags, Hskip, Hlimit in Hrun. simpl in Hrun.
  split; [eapply get_starter_pack_ids_page; [..|exact Hrun]; unfold STARTER_PACK_MAX_SKIP, MAX_QUERY_LIMIT in *; lia|].
  destruct (interleave_unique_sound (rankings (graph s) user since [] labels)) as [Hnd Hin].
  split; [exact Hnd|]. split; [|split; [|done]].
  - apply Forall_forall. intros c Hc%Hin. apply list_elem_of_In, in_concat in Hc as (cs & Hc & Hcs).
    apply list_elem_of_In in Hc, Hcs. apply rankings_of_labels in Hc as (l & _ & ->).
    by apply elem_of_ranking in Hcs as (_ & ? & _).
  - intros l k c Hl Hc.
    assert (ranking (graph s) user since l ∈ rankings (graph s) user since [] labels) as Hr
      by (apply rankings_have; [done|by apply not_elem_of_nil|by intros Hnil; rewrite Hnil in Hc]).
    pose proof (interleave_unique_fair _ _ _ _ Hr Hc) as Hfair.
    apply elem_of_take in Hfair as (i & Hi & Hlt). apply elem_of_take. exists i. split; [done|].
    pose proof (length_rankings (graph s) user since [] labels). nia.
Qed.
End Request.

(** ** An example *)

Module Example_pack.
#[export] Instance labels : TagLabels := {
  validate_and_sanitize := λ s, if decide (String.length s ≤ 20)%nat then Ok s else Err "too long"
}.

Definition person (t : Z) : Person := {| deleted := None; trust := Some t |}.

(** Two popular Rust authors tagged by the trusted, one niche author of gardening posts. *)
Definition graph0 : InterestGraph := {|
  people := {["ada" := person 9; "bob" := person 5; "cyd" := person 5; "dan" := person 1; "eve" := person 2;
              "gone" := {| deleted := Some true; trust := None |}]};
  follows := {[ ("ada", "eve") ]};
  posts := {[("bob", "p") := 10%Z; ("cyd", "p") := 10%Z; ("dan", "p") := 10%Z; ("eve", "p") := 10%Z; ("gone", "p") := 10%Z]};
  tagged := [{| tagger := "ada"; label := "rust"; target := ToUser "bob" |};
             {| tagger := "cyd"; label := "rust"; target := ToUser "bob" |};
             {| tagger := "bob"; label := "rust"; target := ToPost "cyd" "p" |};
             {| tagger := "dan"; label := "rust"; target := ToUser "eve" |};
             {| tagger := "dan"; label := "rust"; target := ToUser "gone" |};
             {| tagger := "eve"; label := "garden"; target := ToPost "dan" "p" |};
             {| tagger := "eve"; label := "garden"; target := ToUser "bob" |}];
|}.

Definition query0 : UserStreamQuery := {|
  q_user_id := None; q_viewer_id := Some "ada"; q_pagination := {| skip := None; limit := None |};
  q_source := Some StarterPack; q_reach := None; q_author_id := None; q_post_id := None; q_depth := None;
  q_timeframe := None; q_preview := None; q_tags := None;
|}.

Definition query : UserStreamQuery := Eval vm_compute in
  match deserialize_query (Some "1") (Some "+2") (Some "rust, garden,,rust") query0 with Ok q => q | Err _ => query0 end.

Definition input : UserStreamInput := Eval vm_compute in
  match build_user_stream_input query with
  | Ok (input, _, _) => input
  | Err _ => {| user_id := None; i_skip := None; i_limit := None; source := Followers; reach := None;
                timeframe := None; preview := None; author_id := None; post_id := None; tags := None |}
  end.

Definition session : GraphSession InterestGraph := {| graph := graph0; graph_trips := [] |}.

Lemma starter_pack_is_a_page_of_all_witness :
  starter_pack graph0 (Some "ada") 0 ["rust"; "garden"; "rust"] = ["bob"; "dan"; "cyd"]
  ∧ fst (starter_pack_list 100 input session) = Ok (Some ["dan"; "cyd"])
  ∧ NoDup (starter_pack graph0 (Some "ada") 0 ["rust"; "garden"; "rust"]).
Proof.
  split; [vm_compute; reflexivity|]. split; [vm_compute; reflexivity|].
  destruct (starter_pack_is_a_page_of_all (TL := labels) (Some "1") (Some "+2") (Some "rust, garden,,rust") query0 query input
    (Some "ada") None 100 session (Some ["dan"; "cyd"]) session ltac:(vm_compute; reflexivity)
    ltac:(vm_compute; reflexivity) eq_refl ltac:(vm_compute; reflexivity))
    as (ls & sk & li & [= <-] & _ & _ & _ & Hnd & _).
  exact Hnd.
Defined.
End Example_pack.
