(* ===== verification/ContentSearch.v ===== *)
(** * Full-text search over post content

    nexus-common/src/db/kv/index/search.rs, models/post/search.rs and the search route of
    nexus-webapi (routes/v0/search/posts.rs, models/post_search_query.rs): what a user typed
    becomes a RediSearch query scoped to authors and a kind. A query is the list of its
    chars, as scalar values. *)

From S2P Require Import Prelude Errors Graphs Follows Reach.
Local Open Scope nexus_scope.

(** ** Characters *)

(** Which chars above ASCII are alphanumeric is the standard library's table; no white space is. *)
Definition is_whitespace (c : N) : bool :=
  existsb (N.eqb c) [9; 10; 11; 12; 13; 32; 133; 160; 5760; 8192; 8193; 8194; 8195; 8196; 8197; 8198;
    8199; 8200; 8201; 8202; 8232; 8233; 8239; 8287; 12288]%N.

Class Alphabet := {
  alphanumeric_beyond : N → bool;
  beyond_not_space c : is_whitespace c = true → alphanumeric_beyond c = false;
}.

Definition is_ascii_alphanumeric (c : N) : bool :=
  ((48 <=? c) && (c <=? 57) || (65 <=? c) && (c <=? 90) || (97 <=? c) && (c <=? 122))%N.

Definition is_alphanumeric `{Alphabet} (c : N) : bool :=
  if (c <? 128)%N then is_ascii_alphanumeric c else alphanumeric_beyond c.

(** The chars of an ASCII string. *)
Definition chars (s : string) : list N := Ascii.N_of_ascii <$> String.list_ascii_of_string s.

#[export] Instance N_of_ascii_inj : Inj (=) (=) Ascii.N_of_ascii.
Proof. intros a b Heq. by rewrite <- (Ascii.ascii_N_embedding a), Heq, Ascii.ascii_N_embedding. Qed.

#[export] Instance chars_inj : Inj (=) (=) chars.
Proof.
  intros s t. unfold chars. intros Heq%(inj (fmap Ascii.N_of_ascii)).
  rewrite <- (String.string_of_list_ascii_of_string s), Heq. apply String.string_of_list_ascii_of_string.
Qed.

(** The longest stretches of chars that satisfy [p], the one read so far being [cur]. *)
Fixpoint runs_from (p : N → bool) (cur s : list N) : list (list N) :=
  match s with
  | [] => match cur with [] => [] | _ => [cur] end
  | c :: s =>
      if p c then runs_from p (cur ++ [c]) s
      else match cur with [] => runs_from p [] s | _ => cur :: runs_from p [] s end
  end.

Definition runs (p : N → bool) (s : list N) : list (list N) := runs_from p [] s.

Definition split_whitespace (s : list N) : list (list N) := runs (λ c, negb (is_whitespace c)) s.

Fixpoint join (sep : list N) (l : list (list N)) : list N :=
  match l with
  | [] => []
  | [w] => w
  | w :: l => w ++ sep ++ join sep l
  end.

Section Query.
Context `{Alphabet}.

(** ** The validated query parameter *)

Definition MIN_POST_SEARCH_QUERY_LEN : nat := 2.
Definition MAX_POST_SEARCH_QUERY_LEN : nat := 30.
Definition MAX_POST_SEARCH_QUERY_TERMS : nat := 4.

Definition PostSearchQuery_validate (q : list N) : result unit string :=
  if decide (length q < MIN_POST_SEARCH_QUERY_LEN)%nat then
    Err "Search query must be at least 2 characters"
  else if decide (MAX_POST_SEARCH_QUERY_LEN < length q)%nat then
    Err "Search query exceeds maximum length of 30 characters"
  else if decide (MAX_POST_SEARCH_QUERY_TERMS < length (split_whitespace q))%nat then
    Err "Search query exceeds maximum of 4 terms"
  else Ok tt.

(** ** The query for the search engine *)

Inductive AuthorFilter :=
  | One (author : string)
  | AnyOf (authors : list string).

Definition sanitize_query (query : list N) : list N :=
  join [32%N] (split_whitespace ((λ c, if is_alphanumeric c then c else 32%N) <$> query)).

Definition token_fuzzy_distance (token : list N) : nat :=
  if decide (length token ≤ 3)%nat then 0 else if decide (length token ≤ 8)%nat then 1 else 2.

Definition fuzzy_token (token : list N) : list N :=
  let distance := token_fuzzy_distance token in
  if decide (distance = 0)%nat then token
  else let pct := replicate distance 37%N in pct ++ token ++ pct.

Definition author_clause (ids : list string) : list N :=
  chars "@author:{" ++ join (chars "|") (chars <$> ids) ++ chars "}".

Definition kind_clause (kind : string) : list N := chars "@kind:{" ++ chars kind ++ chars "}".

Definition build_ft_query (content : list N) (author : option AuthorFilter) (kind : option string) :
    option (list N) :=
  let sanitized := sanitize_query content in
  if decide (sanitized = []) then None
  else
    let fuzzy := join [32%N] (fuzzy_token <$> split_whitespace sanitized) in
    parts ← match author with
            | Some (One a) => Some [author_clause [a]]
            | Some (AnyOf []) => None
            | Some (AnyOf ids) => Some [author_clause ids]
            | None => Some []
            end;
    let parts := parts ++ match kind with Some k => [kind_clause k] | None => [] end in
    Some (join [32%N] (parts ++ [fuzzy])).

(** ** The reply *)

Section Reply.
(** Scores are doubles, read by [str::parse]. *)
Context {F64 : Type} (parse_f64 : string → option F64) (zero : F64).

(** What the code tells apart in an element, and in the whole. *)
Inductive Value :=
  | BulkString (s : string)
  | SimpleString (s : string)
  | Double (d : F64)
  | OtherValue.

Inductive Reply :=
  | Array (l : list Value)
  | OtherReply.

Definition key_of (v : Value) : option string :=
  match v with BulkString s | SimpleString s => Some s | _ => None end.

Definition score_of (v : Value) : F64 :=
  match v with
  | BulkString s | SimpleString s => default zero (parse_f64 s)
  | Double d => d
  | _ => zero
  end.

(** Pairs of a key and a score, up to a key that is no string. *)
Fixpoint read_pairs (l : list Value) : list (string * F64) :=
  match l with
  | k :: s :: l =>
      match key_of k with
      | Some key => (key, score_of s) :: read_pairs l
      | None => []
      end
  | _ => []
  end.

Definition parse_ft_search_response (raw : Reply) : result (list (string * F64)) Kv.RedisError :=
  match raw with
  | Array array => Ok (if decide (length array < 3)%nat then [] else read_pairs (tail array))
  | _ => Err (Kv.CommandFailed "unexpected FT.SEARCH reply shape (RESP3 may be active)")
  end.
End Reply.
End Query.

Arguments Value F64 : clear implicits.
Arguments Reply F64 : clear implicits.

(** ** The search route *)

(** A RediSearch server: FT.SEARCH with its LIMIT, or an error's text. *)
Class SearchEngine (E F64 : Type) := {
  FT_SEARCH : list N → nat → nat → prog E (result (Reply F64) string);
}.

Record SearchSite (E : Type) := { reached : GraphSession ReachGraph; engine : E }.
Arguments reached {E} _.
Arguments engine {E} _.

Section Route.
Context `{Alphabet} {E F64 : Type} `{SearchEngine E F64}.
Context (parse_f64 : string → option F64) (zero : F64).
Context (is_pubky_id : string → bool).
Abbreviation Site := (SearchSite E).

Definition on_engine {A} (m : prog E A) : prog Site A := λ w,
  let '(a, e) := m (engine w) in (a, {| reached := reached w; engine := e |}).

Definition on_graph {A} (m : prog (GraphSession ReachGraph) (result A Graph.GraphError)) :
    prog Site (result A Model.ModelError) := λ w,
  let '(r, g) := m (reached w) in
  (map_err Model.GraphOperationFailed r, {| reached := g; engine := engine w |}).

Definition ft_search_scored (query : list N) (author : option AuthorFilter) (kind : option string)
    (skip limit : nat) : prog Site (result (list (string * F64)) Kv.RedisError) :=
  match build_ft_query query author kind with
  | None => ret (Ok [])
  | Some ft_query =>
      let? raw := emap_err Kv.CommandFailed (on_engine (FT_SEARCH ft_query skip limit)) in
      ret (parse_ft_search_response parse_f64 zero raw)
  end.

Definition POST_DETAILS_PREFIX : string := "Post:Details".

(** [PostsByContentSearch::search] *)
Definition search (query : list N) (author : option AuthorFilter) (kind : option string) (skip limit : nat) :
    prog Site (result (list (string * F64)) Kv.RedisError) :=
  let? pairs := ft_search_scored query author kind skip limit in
  ret (Ok (omap (λ '(key, score), post_key ← strip_prefix (POST_DETAILS_PREFIX +:+ ":") key; Some (post_key, score)) pairs)).

Inductive Scope :=
  | Unscoped
  | Author (author : string)
  | AuthorInReach (observer : string) (reach : StreamReach) (author : string)
  | InReach (observer : string) (reach : StreamReach).

(** The answers of the route that are no results. *)
Inductive Error :=
  | InvalidInput (message : string)
  | FromModel (e : Model.ModelError)
  | FromRedis (e : Kv.RedisError).

Definition resolve_scope (author user_id : option string) (reach : option StreamReach) : result Scope Error :=
  match author, user_id, reach with
  | Some author, Some observer, Some reach => Ok (AuthorInReach observer reach author)
  | None, Some observer, Some reach => Ok (InReach observer reach)
  | Some author, None, None => Ok (Author author)
  | None, None, None => Ok Unscoped
  | _, _, _ => Err (InvalidInput "user_id and reach should be both provided together")
  end.

Definition MAX_REACH_AUTHORS_FT : nat := Z.to_nat 1000.

Record SearchPostsByContentQuery := {
  q : list N;
  author : option string;
  kind : option string;
  user_id : option string;
  reach : option StreamReach;
  skip_value : nat;
  limit_value : nat;
}.

(** The filter of a scope; none when an author is out of reach. *)
Definition scope_filter (scope : Scope) : prog Site (result (option (option AuthorFilter)) Error) :=
  match scope with
  | Unscoped => ret (Ok (Some None))
  | Author author => ret (Ok (Some (Some (One author))))
  | AuthorInReach observer reach author =>
      let? in_reach := emap_err FromModel (on_graph (reach_contains observer reach author)) in
      ret (Ok (if in_reach : bool then Some (Some (One author)) else None))
  | InReach observer reach =>
      let? authors := emap_err FromModel (on_graph (reach_authors is_pubky_id observer reach MAX_REACH_AUTHORS_FT)) in
      ret (Ok (Some (Some (AnyOf (author_ids authors)))))
  end.

Definition search_posts_by_content_handler (query : SearchPostsByContentQuery) :
    prog Site (result (list (string * F64)) Error) :=
  let? scope := ret (resolve_scope (author query) (user_id query) (reach query)) in
  let? filter := scope_filter scope in
  match filter with
  | None => ret (Ok [])
  | Some author =>
      emap_err FromRedis (search (q query) author (kind query) (skip_value query) (limit_value query))
  end.
End Route.

(** ** Runs and joins *)

Section Runs.
Context (p : N → bool).

Definition word (w : list N) : Prop := w ≠ [] ∧ Forall (λ c, p c = true) w.

Lemma runs_from_words cur s : Forall (λ c, p c = true) cur → Forall word (runs_from p cur s).
Proof.
  revert cur. induction s as [|c s IH]; intros cur Hc; simpl.
  - destruct cur; [constructor|]. constructor; [done|constructor].
  - destruct (p c) eqn:Hp; [apply IH, Forall_app; split; [done|by constructor]|].
    destruct cur; [by apply IH|]. constructor; [done|by apply IH].
Qed.

Lemma runs_words s : Forall word (runs p s).
Proof. by apply runs_from_words. Qed.

Lemma runs_from_word cur w s : Forall (λ c, p c = true) w → runs_from p cur (w ++ s) = runs_from p (cur ++ w) s.
Proof.
  revert cur. induction w as [|c w IH]; intros cur Hw; [by rewrite app_nil_r|].
  apply Forall_cons in Hw as [Hc Hw]. simpl. rewrite Hc, IH by done. by rewrite <- (assoc (++)).
Qed.

Lemma runs_word w : word w → runs p w = [w].
Proof.
  intros [Hne Hw]. unfold runs. rewrite <- (app_nil_r w) at 1. rewrite runs_from_word by done. simpl. by destruct w.
Qed.

(** Words set apart by a char that is in none of them are read back. *)
Lemma runs_join sep ws : p sep = false → Forall word ws → runs p (join [sep] ws) = ws.
Proof.
  intros Hsep. unfold runs. induction 1 as [|w ws Hw Hws IH]; [done|]. destruct ws as [|w' ws]; [by apply runs_word|].
  change (join [sep] (w :: w' :: ws)) with (w ++ sep :: join [sep] (w' :: ws)). destruct Hw as [Hne Hw].
  rewrite runs_from_word by done. simpl ([] ++ w). cbn [runs_from]. rewrite Hsep, IH. by destruct w.
Qed.
End Runs.

Lemma runs_map (p q : N → bool) sep s :
  (∀ c, p c = true → q c = true) → q sep = false →
  runs q ((λ c, if p c then c else sep) <$> s) = runs p s.
Proof.
  intros Hpq Hsep. unfold runs. generalize (@nil N). induction s as [|c s IH]; intros cur; [done|]. simpl.
  destruct (p c) eqn:Hp; [by rewrite (Hpq _ Hp)|]. rewrite Hsep. destruct cur; by rewrite ?IH.
Qed.

Lemma join_nil sep ws : Forall (λ w, w ≠ []) ws → join sep ws = [] → ws = [].
Proof. intros Hws. destruct ws as [|w [|w' ws]]; [done| |]; apply Forall_cons in Hws as [Hw _]; destruct w; done. Qed.

Lemma join_last sep ps fs : fs ≠ [] → join sep (ps ++ [join sep fs]) = join sep (ps ++ fs).
Proof.
  intros Hfs. induction ps as [|w ps IH]; [done|].
  destruct ps as [|w' ps]; simpl in *; [by destruct fs|by rewrite IH].
Qed.

Section Rendering.
Context `{Alphabet}.

(** The words of a text, as the engine tells them apart. *)
Definition words (content : list N) : list (list N) := runs is_alphanumeric content.

Lemma alphanumeric_not_space c : is_alphanumeric c = true → negb (is_whitespace c) = true.
Proof.
  unfold is_alphanumeric. destruct (c <? 128)%N eqn:Hc.
  - intros Ha. apply N.ltb_lt in Hc.
    assert (Forall (λ c, is_ascii_alphanumeric c = true → negb (is_whitespace c) = true) (N.of_nat <$> seq 0 128)) as Hall
      by (apply (bool_decide_unpack _); by vm_compute).
    eapply Forall_forall in Hall; [by apply Hall|]. apply list_elem_of_fmap. exists (N.to_nat c).
    split; [lia|apply elem_of_seq; lia].
  - destruct (is_whitespace c) eqn:Hw; [|done]. by rewrite beyond_not_space.
Qed.

Lemma sanitize_words content : split_whitespace (sanitize_query content) = words content.
Proof.
  unfold sanitize_query, split_whitespace. rewrite runs_map; [|apply alphanumeric_not_space|done].
  apply runs_join; [done|]. eapply Forall_impl; [apply runs_words|]. intros w [Hne Hw]. split; [done|].
  eapply Forall_impl; [exact Hw|]. intros c. apply alphanumeric_not_space.
Qed.

Lemma sanitize_empty content : sanitize_query content = [] ↔ words content = [].
Proof.
  unfold sanitize_query, split_whitespace. rewrite runs_map; [|apply alphanumeric_not_space|done].
  fold (words content). split; [|by intros ->]. apply join_nil. eapply Forall_impl; [apply runs_words|]. by intros w [? _].
Qed.

Definition ids_of (author : option AuthorFilter) : option (list string) :=
  match author with Some (One a) => Some [a] | Some (AnyOf ids) => Some ids | None => None end.

Definition clauses (author : option AuthorFilter) (kind : option string) : list (list N) :=
  match ids_of author with Some ids => [author_clause ids] | None => [] end
  ++ match kind with Some k => [kind_clause k] | None => [] end.

(** What is rendered, if anything. *)
Lemma build_ft_query_spec content author kind query :
  build_ft_query content author kind = Some query ↔
  words content ≠ [] ∧ ids_of author ≠ Some [] ∧
  query = join [32%N] (clauses author kind ++ (fuzzy_token <$> words content)).
Proof.
  unfold build_ft_query. rewrite sanitize_words. pose proof (sanitize_empty content) as Hs.
  assert (∀ ps, words content ≠ [] →
    join [32%N] (ps ++ [join [32%N] (fuzzy_token <$> words content)]) = join [32%N] (ps ++ (fuzzy_token <$> words content))) as Hj.
  { intros ps Hw. apply join_last. by destruct (words content). }
  case_decide as Hd; [split; [done|]; intros (Hne & _); destruct Hne; by apply Hs|].
  assert (words content ≠ []) as Hw by (intros ?; by apply Hd, Hs).
  unfold clauses. destruct author as [[a|[|a ids]]|]; cbn [mbind option_bind ids_of]; rewrite ?Hj by done;
    (split; [intros [=]; subst|intros (_ & ? & ?); subst]; done).
Qed.

(** Ids and kinds are plain alphanumeric words. *)
Definition plain (s : string) : Prop := word is_alphanumeric (chars s).

Abbreviation dark := (λ c, negb (is_whitespace c)).

Lemma word_dark w : word is_alphanumeric w → word dark w.
Proof.
  intros [Hne Hw]. split; [done|]. eapply Forall_impl; [exact Hw|]. intros c. apply alphanumeric_not_space.
Qed.

Lemma join_Forall (P : N → Prop) sep l : Forall P sep → Forall (Forall P) l → Forall P (join sep l).
Proof.
  intros Hs. induction 1 as [|w l Hw Hl IH]; [done|]. destruct l as [|w' l]; [done|].
  change (join sep (w :: w' :: l)) with (w ++ sep ++ join sep (w' :: l)). by rewrite !Forall_app.
Qed.

Lemma author_clause_dark ids : Forall plain ids → word dark (author_clause ids).
Proof.
  intros Hids. split; [done|]. unfold author_clause. rewrite !Forall_app. split; [by repeat constructor|].
  split; [|by repeat constructor]. apply join_Forall; [by repeat constructor|]. apply Forall_fmap.
  eapply Forall_impl; [exact Hids|]. intros i Hi. apply (word_dark (chars i) Hi).
Qed.

Lemma kind_clause_dark k : plain k → word dark (kind_clause k).
Proof.
  intros [_ Hk]%word_dark. split; [done|]. unfold kind_clause. rewrite !Forall_app.
  split; [by repeat constructor|]. split; [done|by repeat constructor].
Qed.

Lemma fuzzy_token_dark w : word is_alphanumeric w → word dark (fuzzy_token w).
Proof.
  intros [Hne Hw]%word_dark. unfold fuzzy_token. case_decide; [done|]. split; [by destruct (token_fuzzy_distance w)|].
  rewrite !Forall_app. assert (Forall (λ c, dark c = true) (replicate (token_fuzzy_distance w) 37%N)) by (by apply Forall_replicate).
  done.
Qed.

(** The clauses and tokens are told apart by how they start. *)
Definition part_of (w : list N) : nat :=
  match w with
  | 64%N :: 97%N :: _ => 0
  | 64%N :: _ => 1
  | _ => 2
  end.

Lemma fuzzy_token_part w : word is_alphanumeric w → part_of (fuzzy_token w) = 2%nat.
Proof.
  intros [Hne Hw]. unfold fuzzy_token, token_fuzzy_distance. destruct w as [|c w]; [done|].
  apply Forall_cons in Hw as [Hc _]. assert (c ≠ 64%N) as Hc' by (by intros ->).
  repeat case_decide; simpl; try done. by repeat case_match.
Qed.

Lemma filter_same {A} (f : A → nat) (t n : nat) l :
  Forall (λ x, f x = n) l → filter (λ x, f x = t) l = if decide (n = t) then l else [].
Proof.
  induction 1 as [|x l Hx Hl IH]; [by case_decide|]. rewrite filter_cons, Hx, IH. by case_decide.
Qed.

Lemma fuzzy_tokens_part content : Forall (λ w, part_of w = 2%nat) (fuzzy_token <$> words content).
Proof. apply Forall_fmap. eapply Forall_impl; [apply runs_words|]. apply fuzzy_token_part. Qed.

Lemma filter_authors author kind content :
  filter (λ w, part_of w = 0%nat) (clauses author kind ++ (fuzzy_token <$> words content))
  = match ids_of author with Some ids => [author_clause ids] | None => [] end.
Proof.
  rewrite filter_app, (filter_same part_of 0 2 _ (fuzzy_tokens_part content)), app_nil_r. unfold clauses.
  by destruct (ids_of author), kind.
Qed.

Lemma filter_kind author kind content :
  filter (λ w, part_of w = 1%nat) (clauses author kind ++ (fuzzy_token <$> words content))
  = match kind with Some k => [kind_clause k] | None => [] end.
Proof.
  rewrite filter_app, (filter_same part_of 1 2 _ (fuzzy_tokens_part content)), app_nil_r. unfold clauses.
  by destruct (ids_of author), kind.
Qed.

Lemma filter_words author kind content :
  filter (λ w, part_of w = 2%nat) (clauses author kind ++ (fuzzy_token <$> words content)) = fuzzy_token <$> words content.
Proof.
  rewrite filter_app, (filter_same part_of 2 2 _ (fuzzy_tokens_part content)). unfold clauses.
  by destruct (ids_of author), kind.
Qed.

Lemma fuzzy_token_runs w : word is_alphanumeric w → runs is_alphanumeric (fuzzy_token w) = [w].
Proof.
  intros Hw. unfold fuzzy_token. case_decide; [by apply runs_word|]. destruct Hw as [Hne Hw]. unfold runs.
  assert (∀ n s, runs_from is_alphanumeric [] (replicate n 37%N ++ s) = runs_from is_alphanumeric [] s) as Hpct.
  { intros n s. induction n as [|n IH]; [done|]. simpl. by rewrite IH. }
  rewrite Hpct, runs_from_word by done. simpl. destruct (token_fuzzy_distance w) as [|n]; simpl; destruct w; try done.
  f_equal. rewrite <- (app_nil_r (replicate n 37%N)). by rewrite Hpct.
Qed.

Lemma fuzzy_tokens_inj ws ws' :
  Forall (word is_alphanumeric) ws → Forall (word is_alphanumeric) ws' →
  fuzzy_token <$> ws = fuzzy_token <$> ws' → ws = ws'.
Proof.
  intros Hws. revert ws'. induction Hws as [|w ws Hw Hws IH]; intros [|w' ws'] Hws' Heq; try done.
  apply Forall_cons in Hws' as [Hw' Hws']. injection Heq as Heq1 Heq2.
  assert ([w] = [w']) as [= <-] by (rewrite <- (fuzzy_token_runs w), <- (fuzzy_token_runs w'); [by f_equal|done|done]).
  f_equal. by apply IH.
Qed.

Lemma author_clause_inj ids ids' : Forall plain ids → Forall plain ids' → author_clause ids = author_clause ids' → ids = ids'.
Proof.
  unfold author_clause. intros Hids Hids' [Heq _]%app_inv_head%app_inj_tail.
  apply (inj (fmap chars)).
  rewrite <- (runs_join is_alphanumeric 124%N (chars <$> ids)); [|done|by apply Forall_fmap].
  rewrite <- (runs_join is_alphanumeric 124%N (chars <$> ids')); [|done|by apply Forall_fmap].
  by f_equal.
Qed.

Lemma kind_clause_inj k k' : kind_clause k = kind_clause k' → k = k'.
Proof. unfold kind_clause. intros [Heq _]%app_inv_head%app_inj_tail. by apply chars_inj. Qed.

Definition plain_request (author : option AuthorFilter) (kind : option string) : Prop :=
  (∀ ids, ids_of author = Some ids → Forall plain ids) ∧ (∀ k, kind = Some k → plain k).

Lemma rendered_parts author kind content :
  plain_request author kind →
  Forall (word dark) (clauses author kind ++ (fuzzy_token <$> words content)).
Proof.
  intros [Ha Hk]. unfold clauses. rewrite !Forall_app. split; [split|].
  - destruct (ids_of author) eqn:Hi; [|constructor]. constructor; [|constructor]. by apply author_clause_dark, Ha.
  - destruct kind; [|constructor]. constructor; [|constructor]. by apply kind_clause_dark, Hk.
  - apply Forall_fmap. eapply Forall_impl; [apply runs_words|]. apply fuzzy_token_dark.
Qed.

(** C24: A rendered query tells exactly which authors, which kind and which words it was built
    from: whatever a user typed, it cannot be read as another scope. *)
Theorem ft_query_tells_its_scope content author kind content' author' kind' query :
  plain_request author kind → plain_request author' kind' →
  build_ft_query content author kind = Some query → build_ft_query content' author' kind' = Some query →
  ids_of author = ids_of author' ∧ kind = kind' ∧ words content = words content'.
Proof.
  intros Hp Hp' (Hw & _ & Hq)%build_ft_query_spec (Hw' & _ & Hq')%build_ft_query_spec.
  assert (clauses author kind ++ (fuzzy_token <$> words content) = clauses author' kind' ++ (fuzzy_token <$> words content')) as Heq.
  { rewrite <- (runs_join dark 32%N _ eq_refl (rendered_parts _ _ content Hp)), <- Hq, Hq'.
    by rewrite (runs_join dark 32%N _ eq_refl (rendered_parts _ _ content' Hp')). }
  assert (∀ t, filter (λ w, part_of w = t) (clauses author kind ++ (fuzzy_token <$> words content))
             = filter (λ w, part_of w = t) (clauses author' kind' ++ (fuzzy_token <$> words content'))) as Hf by (intros t; by rewrite Heq).
  pose proof (Hf 0) as H0. pose proof (Hf 1) as H1. pose proof (Hf 2) as H2. clear Hf.
  rewrite !filter_authors in H0. rewrite !filter_kind in H1. rewrite !filter_words in H2.
  destruct Hp as [Ha _], Hp' as [Ha' _]. split; [|split].
  - destruct (ids_of author) as [ids|], (ids_of author') as [ids'|]; try done.
    f_equal. apply author_clause_inj; [by apply Ha|by apply Ha'|exact (f_equal (hd []) H0)].
  - destruct kind as [k|], kind' as [k'|]; try done.
    f_equal. apply kind_clause_inj. exact (f_equal (hd []) H1).
  - apply fuzzy_tokens_inj; [apply runs_words|apply runs_words|done].
Qed.
End Rendering.

(** ** A search stays in its scope *)

(** What may follow an author clause: a kind clause, or a word, searched within an edit
    distance of at most three. *)
Definition query_part `{Alphabet} (w : list N) : Prop :=
  (∃ k, plain k ∧ w = kind_clause k)
  ∨ ∃ d t, (d ≤ 3)%nat ∧ word is_alphanumeric t ∧ w = replicate d 37%N ++ t ++ replicate d 37%N.

(** What RediSearch documents of queries that are one TAG filter on the author followed by
    such parts and nothing else: they intersect, so every document found has one of these
    authors; the reply is a count, then each document's key and score. *)
Class TagFilter (E F64 : Type) `{Alphabet, SearchEngine E F64} := {
  (** $.author of the document under a key *)
  author_field : E → string → option string;
  tag_filter ids rest skip limit e l e' :
    Forall plain ids → ids ≠ [] → Forall query_part rest →
    FT_SEARCH (join [32%N] (author_clause ids :: rest)) skip limit e = (Ok (Array l), e') →
    ∃ total found,
      l = total :: mjoin ((λ '(key, score), [BulkString key; score]) <$> found)
      ∧ ∀ key score, (key, score) ∈ found → ∃ a, a ∈ ids ∧ author_field e key = Some a;
}.

(** Documents are posts, stored under their author and their id. *)
Definition keyed_by_author `{TagFilter E F64} (e : E) : Prop :=
  ∀ key a, author_field e key = Some a →
    ∃ post_id, key = POST_DETAILS_PREFIX +:+ ":" +:+ (a +:+ ":" +:+ post_id).

Section Scoped.
Context `{TagFilter E F64} (parse_f64 : string → option F64) (zero : F64).
Context (is_pubky_id : string → bool).
(** z-base32 is alphanumeric. *)
Context (Hplain : ∀ s, is_pubky_id s → plain s).

Abbreviation handler := (search_posts_by_content_handler parse_f64 zero is_pubky_id).

Lemma strip_prefix_app p s : strip_prefix p (p +:+ s) = Some s.
Proof. induction p as [|c p IH]; [by destruct s|]. rewrite str_cons. simpl. by rewrite decide_True. Qed.

Lemma read_pairs_found found :
  read_pairs parse_f64 zero (mjoin ((λ '(key, score), [BulkString key; score]) <$> found))
  = (λ '(key, score), (key, score_of parse_f64 zero score)) <$> found.
Proof. induction found as [|[key score] found IH]; [done|]. simpl. f_equal. exact IH. Qed.

Lemma fuzzy_token_query_part w : word is_alphanumeric w → query_part (fuzzy_token w).
Proof.
  intros Hw. right. unfold fuzzy_token. case_decide.
  - exists 0%nat, w. split; [lia|]. split; [done|]. by rewrite app_nil_r.
  - exists (token_fuzzy_distance w), w. split; [unfold token_fuzzy_distance; repeat case_decide; lia|done].
Qed.

(** What is rendered after the authors. *)
Lemma rendered_query_parts kind content :
  (∀ k, kind = Some k → plain k) →
  Forall query_part (match kind with Some k => [kind_clause k] | None => [] end
                     ++ (fuzzy_token <$> words content)).
Proof.
  intros Hk. apply Forall_app. split.
  - destruct kind as [k|]; [|constructor]. constructor; [|constructor]. left. exists k. auto.
  - apply Forall_fmap. eapply Forall_impl; [apply runs_words|]. apply fuzzy_token_query_part.
Qed.

Lemma search_authors query author kind skip limit w results w' ids post_key s :
  ids_of author = Some ids → Forall plain ids → (∀ k, kind = Some k → plain k) →
  keyed_by_author (engine w) →
  search parse_f64 zero query author kind skip limit w = (Ok results, w') →
  (post_key, s) ∈ results → ∃ a post_id, a ∈ ids ∧ post_key = a +:+ ":" +:+ post_id.
Proof.
  intros Hids Hp Hk Hkeyed. unfold search, ft_search_scored, ebind, emap_err, map_err, on_engine, ret.
  destruct (build_ft_query query author kind) as [q'|] eqn:Hq; [|intros [= <- _]; by intros ?%elem_of_nil].
  apply build_ft_query_spec in Hq as (_ & Hne & ->). unfold clauses. rewrite Hids in Hne |- *.
  rewrite <- (assoc (++)). cbn [app].
  destruct (FT_SEARCH _ skip limit (engine w)) as [[raw|e] e'] eqn:Hr; [|done].
  destruct raw as [l|]; [|done]. cbn [parse_ft_search_response]. intros [= <- _].
  intros ([key sc] & Hin & Hkey)%list_elem_of_omap. destruct (decide _); [by apply elem_of_nil in Hin|].
  destruct (tag_filter _ _ _ _ _ _ _ Hp ltac:(congruence) (rendered_query_parts kind query Hk) Hr)
    as (total & found & -> & Hfound).
  cbn [tail] in Hin. rewrite read_pairs_found in Hin. apply list_elem_of_fmap in Hin as ([? s'] & [= -> ->] & Hin).
  destruct (Hfound _ _ Hin) as (a & Ha & (post_id & ->)%Hkeyed).
  cbv beta iota in Hkey.
  change (mbind (λ k, Some (k, score_of parse_f64 zero s'))
      (strip_prefix (POST_DETAILS_PREFIX +:+ ":") ((POST_DETAILS_PREFIX +:+ ":") +:+ (a +:+ ":" +:+ post_id)))
    = Some (post_key, s)) in Hkey.
  rewrite strip_prefix_app in Hkey.
  injection Hkey as <- _. eauto.
Qed.

(** What a request may be answered with. *)
Definition in_scope (g : ReachGraph) (query : SearchPostsByContentQuery) (post_key : string) : Prop :=
  author query = None ∧ user_id query = None ∧ ContentSearch.reach query = None
  ∨ ∃ a post_id, post_key = a +:+ ":" +:+ post_id
      ∧ (∀ x, author query = Some x → a = x)
      ∧ (∀ o r, user_id query = Some o → ContentSearch.reach query = Some r → a ≠ o ∧ is_reached g o a r = true).

Lemma reads_ok {G A} (f : G → A) s a s' : run_query (reads f) s = (Ok a, s') → a = f (graph s).
Proof. unfold run_query, reads. destruct (graph_trips s) as [|[|e|e] ts]; by intros [= <- _]. Qed.

Lemma reach_contains_ok o r a s s' :
  between_users (graph s) → reach_contains o r a s = (Ok true, s') → a ≠ o ∧ is_reached (graph s) o a r = true.
Proof.
  intros Hg. unfold reach_contains. case_decide as Ha; [intros [=]|]. unfold ebind, ret.
  destruct (run_query _ s) as [[x|e] t] eqn:Hr; [|done]. apply reads_ok in Hr as ->.
  unfold reach_contains_user. case_decide; simpl; [|intros [=]]. by intros [= -> _].
Qed.

Lemma reach_authors_ok o r limit s au s' :
  reach_authors is_pubky_id o r limit s = (Ok au, s') →
  ∀ a, a ∈ author_ids au → is_pubky_id a ∧ a ≠ o ∧ is_reached (graph s) o a r = true.
Proof.
  unfold reach_authors, ebind, ret. destruct (run_query _ s) as [[x|e] t] eqn:Hr; [|done].
  apply reads_ok in Hr as ->. intros [= <- _] a [Ha Hin]%list_elem_of_filter. split; [done|].
  apply (λ H, elem_of_sublist _ _ _ H (sublist_take _ _)) in Hin.
  unfold get_reach_authors_by_posts in Hin. apply (λ H, elem_of_sublist _ _ _ H (sublist_take _ _)) in Hin.
  apply list_elem_of_fmap in Hin as ([? n] & -> & Hin). rewrite merge_sort_Permutation in Hin.
  apply elem_of_reached_authors in Hin as (_ & ? & ? & _). done.
Qed.

(** C23: Whatever a user typed and whatever fails, every post a content search answers with
    is by an author the request asked for: the given one, and one in the observer's reach,
    never the observer. A scope that turns out empty finds nothing. RediSearch is taken to
    intersect one author clause with plain words and a kind, and nothing else: that no other
    syntax reaches it is part of what is shown. *)
Theorem search_stays_in_scope query w results w' :
  between_users (graph (reached w)) → keyed_by_author (engine w) →
  (∀ a, author query = Some a → is_pubky_id a) → (∀ k, kind query = Some k → plain k) →
  handler query w = (Ok results, w') →
  ∀ post_key s, (post_key, s) ∈ results → in_scope (graph (reached w)) query post_key.
Proof.
  intros Hg Hkeyed Hid Hk Hrun post_key s Hin. unfold in_scope. unfold search_posts_by_content_handler, resolve_scope in Hrun.
  assert (∀ ids author w0, ids_of author = Some ids → Forall (λ i, is_pubky_id i) ids →
    emap_err FromRedis (search parse_f64 zero (q query) author (kind query) (skip_value query) (limit_value query)) w0 = (Ok results, w') →
    engine w0 = engine w → ∃ a post_id, a ∈ ids ∧ post_key = a +:+ ":" +:+ post_id) as Hsearch.
  { intros ids au w0 Hids Hv. unfold emap_err. destruct (search _ _ _ _ _ _ _ _) as [[l|e] w1] eqn:Hs; [|done].
    intros [= -> _] Hw. rewrite <- Hw in Hkeyed. eapply search_authors; [exact Hids| |exact Hk|exact Hkeyed|exact Hs|exact Hin]. eapply Forall_impl; [exact Hv|done]. }
  unfold ebind, emap_err, on_graph, ret in Hrun.
  destruct (author query) as [a|] eqn:Ha, (user_id query) as [o|] eqn:Ho, (ContentSearch.reach query) as [r|] eqn:Hr;
    cbn [scope_filter] in Hrun; try done; [| | |by left].
  - right. unfold ebind, emap_err, on_graph, ret in Hrun. destruct (reach_contains o r a (reached w)) as [[b|e] g'] eqn:Hc; [|done].
    cbn [map_err] in Hrun. destruct b; [|simplify_eq; by apply elem_of_nil in Hin].
    destruct (Hsearch [a] (Some (One a)) _ eq_refl ltac:(by repeat constructor; apply Hid) Hrun eq_refl) as (? & p & ->%list_elem_of_singleton & ->).
    exists a, p. split; [done|]. split; [by intros ? [= ->]|]. intros ? ? [= <-] [= <-]. by eapply reach_contains_ok.
  - right. destruct (Hsearch [a] (Some (One a)) _ eq_refl ltac:(by repeat constructor; apply Hid) Hrun eq_refl) as (? & p & ->%list_elem_of_singleton & ->).
    exists a, p. split; [done|]. split; [by intros ? [= ->]|]. intros ? ? [=].
  - right. unfold ebind, emap_err, on_graph, ret in Hrun.
    destruct (reach_authors is_pubky_id o r MAX_REACH_AUTHORS_FT (reached w)) as [[au|e] g'] eqn:Hc; [|done].
    pose proof (reach_authors_ok _ _ _ _ _ _ Hc) as Hau. cbn [map_err] in Hrun.
    destruct (Hsearch (author_ids au) (Some (AnyOf (author_ids au))) _ eq_refl ltac:(by apply Forall_forall; intros ? []%Hau) Hrun eq_refl) as (a & p & Hina & ->).
    exists a, p. split; [done|]. split; [done|]. intros ? ? [= <-] [= <-]. by apply Hau in Hina as (_ & ? & ?).
Qed.
End Scoped.

(** ** A small search engine *)

Module Example_search.
#[export] Instance ascii : Alphabet.
Proof. by refine {| alphanumeric_beyond := λ _, false |}. Defined.

Fixpoint until (stop : N) (s : list N) : list N :=
  match s with [] => [] | c :: s => if (c =? stop)%N then [] else c :: until stop s end.

(** Documents are their key and their author; the engine reads the author clause of a query
    and passes over the rest. *)
Definition listed (query : list N) (d : string * string) : bool :=
  if bool_decide (take 9 query = chars "@author:{") then
    bool_decide (chars (snd d) ∈ runs is_alphanumeric (until 125 (drop 9 query)))
  else true.

#[export] Instance docs_engine : SearchEngine (gmap string string) Z := {
  FT_SEARCH query skip limit docs :=
    let found := take limit (drop skip (filter (λ d, listed query d) (map_to_list docs))) in
    (Ok (Array (OtherValue ::
       mjoin ((λ '(key, score), [BulkString key; score]) <$> ((λ d, (fst d, Double 1%Z)) <$> found)))), docs);
}.

Lemma until_app stop s t : Forall (λ c, c ≠ stop) s → until stop (s ++ stop :: t) = s.
Proof.
  induction 1 as [|c s Hc Hs IH]; simpl; [by rewrite N.eqb_refl|].
  destruct (N.eqb_spec c stop); [done|by rewrite IH].
Qed.

Lemma listed_authors ids rest d :
  Forall plain ids → listed (join [32%N] (author_clause ids :: rest)) d → snd d ∈ ids.
Proof.
  intros Hids Hd. unfold listed in Hd.
  assert (∃ t, join [32%N] (author_clause ids :: rest)
    = chars "@author:{" ++ (join (chars "|") (chars <$> ids) ++ 125%N :: t)) as [t Ht].
  { destruct rest as [|w rest]; unfold author_clause; cbn [join].
    - by exists [].
    - eexists. rewrite <- !(assoc (++)). reflexivity. }
  rewrite Ht in Hd. change (take 9 (chars "@author:{" ++ ?x)) with (chars "@author:{") in Hd.
  change (drop 9 (chars "@author:{" ++ ?x)) with x in Hd. rewrite bool_decide_true in Hd by done.
  apply bool_decide_unpack in Hd. rewrite until_app in Hd.
  - rewrite (runs_join is_alphanumeric 124%N) in Hd; [|done|by apply Forall_fmap].
    by apply list_elem_of_fmap in Hd as (i & <-%(inj chars) & Hi).
  - apply join_Forall; [by repeat constructor|]. apply Forall_fmap. eapply Forall_impl; [exact Hids|].
    intros i [_ Hi]. eapply Forall_impl; [exact Hi|]. by intros c Hc ->.
Qed.

#[export] Instance docs_tag_filter : TagFilter (gmap string string) Z.
Proof.
  refine {| author_field docs key := docs !! key |}.
  intros ids rest skip limit docs l docs' Hids _ _. remember (join _ _) as query eqn:Hq. intros [= <- _].
  eexists OtherValue, _. split; [reflexivity|].
  intros key score ([k a] & [= -> _] & Hd)%list_elem_of_fmap. exists a.
  apply (λ H, elem_of_sublist _ _ _ H (sublist_take _ _)) in Hd.
  apply (λ H, elem_of_sublist _ _ _ H (sublist_drop _ _)) in Hd. apply list_elem_of_filter in Hd as [Hd Hin].
  rewrite Hq in Hd. split; [by apply (listed_authors ids rest (k, a))|by apply elem_of_map_to_list].
Defined.

Definition is_id (s : string) : bool := bool_decide (s ≠ "" ∧ Forall (λ c, is_alphanumeric c = true) (chars s)).

Lemma ids_are_plain s : is_id s → plain s.
Proof. intros [Hs Hw]%bool_decide_unpack. split; [by destruct s|done]. Qed.

Definition posts : gmap string string :=
  {["Post:Details:a:p1" := "a"; "Post:Details:b:p2" := "b"; "Post:Details:c:p3" := "c"; "Post:Details:d:p4" := "d"]}.

Definition deployed : SearchSite (gmap string string) :=
  {| reached := {| graph := Reach.Example_reach.circle; graph_trips := [] |}; engine := posts |}.

Lemma posts_keyed : keyed_by_author posts.
Proof.
  intros key a Hin. change (posts !! key = Some a) in Hin. apply elem_of_map_to_list in Hin.
  assert (Forall (λ d, ∃ post_id, fst d = POST_DETAILS_PREFIX +:+ ":" +:+ (snd d +:+ ":" +:+ post_id))
    (map_to_list posts)) as Hall.
  { assert (Forall (λ d, fst d ∈ (λ p, POST_DETAILS_PREFIX +:+ ":" +:+ (snd d +:+ ":" +:+ p)) <$> ["p1"; "p2"; "p3"; "p4"])
      (map_to_list posts)) as Hall by (apply (bool_decide_unpack _); by vm_compute).
    eapply Forall_impl; [exact Hall|]. intros d (p & -> & _)%list_elem_of_fmap. by exists p. }
  rewrite Forall_forall in Hall. exact (Hall _ Hin).
Qed.

(** "a" searches the users it follows. *)
Definition request : SearchPostsByContentQuery := {|
  q := chars "web3.0 rocks"; author := None; kind := Some "long";
  user_id := Some "a"; reach := Some Following; skip_value := 0; limit_value := 20 |}.

Lemma search_stays_in_scope_witness :
  fst (search_posts_by_content_handler (λ _, None) 0%Z is_id request deployed) = Ok [("b:p2", 1%Z)]
  ∧ in_scope (graph (reached deployed)) request "b:p2".
Proof.
  split; [by vm_compute|].
  refine (search_stays_in_scope (λ _, None) 0%Z is_id ids_are_plain request deployed
    [("b:p2", 1%Z)] (snd (search_posts_by_content_handler (λ _, None) 0%Z is_id request deployed)) _ posts_keyed _ _ _ "b:p2" 1%Z _).
  - unfold between_users. apply Forall_forall. apply (bool_decide_unpack _). by vm_compute.
  - by intros a [=].
  - intros k [= <-]. apply ids_are_plain. by vm_compute.
  - by vm_compute.
  - by left.
Defined.

Lemma ft_query_tells_its_scope_witness :
  build_ft_query (chars "} @author:{a") (Some (One "b")) (Some "long")
  = Some (chars "@author:{b} @kind:{long} %author% a")
  ∧ ids_of (Some (One "b")) = ids_of (Some (AnyOf ["b"])) ∧ Some "long" = Some "long"
  ∧ words (chars "} @author:{a") = words (chars "author a").
Proof.
  split; [by vm_compute|].
  apply (ft_query_tells_its_scope _ (Some (One "b")) (Some "long") _ (Some (AnyOf ["b"])) (Some "long")
    (chars "@author:{b} @kind:{long} %author% a")).
  - split; intros ? [= <-]; [constructor; [|constructor]|]; apply ids_are_plain; by vm_compute.
  - split; intros ? [= <-]; [constructor; [|constructor]|]; apply ids_are_plain; by vm_compute.
  - by vm_compute.
  - by vm_compute.
Defined.

(** Four terms are allowed, and this counts as one; the engine is asked for six. *)
Example punctuation_adds_terms :
  PostSearchQuery_validate (chars "a.b.c.d.e.f") = Ok tt
  ∧ length (words (chars "a.b.c.d.e.f")) = 6%nat
  ∧ build_ft_query (chars "a.b.c.d.e.f") None None = Some (chars "a b c d e f").
Proof. by vm_compute. Qed.
End Example_search.
