(* ===== verification/Normalize.v ===== *)
(** * Universal tags: the identity of a tagged address

    nexus-common/src/universal_tag/normalize.rs, over the url crate's parser and a hash. *)

From S2P Require Import Prelude Text Events PostStore.
Local Open Scope Z_scope.

(** The url crate's [Url], by what the code reads of it. *)
Class UrlCrate := {
  Url : Type;
  url_parse : string → result Url string;
  url_scheme : Url → string;
  cannot_be_a_base : Url → bool;
  as_str : Url → string;
  host_str : Url → option string;
  port : Url → option Z;
  path : Url → string;
  query : Url → option string;
  (** [hash_str_hex], a BLAKE3 prefix in hex *)
  hash_str_hex : string → string;
}.

Inductive UriCategory := InternalKnown | InternalUnknown | External.

Section Normalize.
Context {SP : PostSpecs} {UC : UrlCrate}.

Definition colon : Ascii.ascii := Ascii.ascii_of_N 58.
Definition hash_sign : Ascii.ascii := Ascii.ascii_of_N 35.

Definition is_alphabetic (c : Ascii.ascii) : bool :=
  let n := Ascii.N_of_ascii c in
  (bool_decide (65 ≤ n ≤ 90) || bool_decide (97 ≤ n ≤ 122))%N.

(** ALPHA / DIGIT / "+" / "-" / "." *)
Definition scheme_char (c : Ascii.ascii) : bool :=
  let n := Ascii.N_of_ascii c in
  is_alphabetic c || bool_decide (48 ≤ n ≤ 57)%N || bool_decide (n = 43 ∨ n = 45 ∨ n = 46)%N.

Fixpoint string_all (f : Ascii.ascii → bool) (s : string) : bool :=
  match s with EmptyString => true | String c s => f c && string_all f s end.

Fixpoint string_map (f : Ascii.ascii → Ascii.ascii) (s : string) : string :=
  match s with EmptyString => EmptyString | String c s => String (f c) (string_map f s) end.

Definition lowercase : string → string := string_map to_ascii_lowercase.

Definition valid_scheme (s : string) : bool :=
  match s with EmptyString => false | String c _ => is_alphabetic c && string_all scheme_char s end.

Definition normalize_parsed_url (parsed : Url) : string :=
  let scheme := url_scheme parsed in
  if cannot_be_a_base parsed then
    match split_once hash_sign (as_str parsed) with
    | Some (without_fragment, _) => without_fragment
    | None => as_str parsed
    end
  else
    let host := default "" (lowercase <$> host_str parsed) in
    let port :=
      match port parsed with
      | Some p =>
          if decide ((p = 80 ∧ scheme = "http") ∨ (p = 443 ∧ scheme = "https")) then None else Some p
      | None => None
      end in
    scheme +:+ "://" +:+ host
      +:+ match port with Some p => ":" +:+ pretty p | None => "" end
      +:+ path parsed
      +:+ match query parsed with Some q => "?" +:+ q | None => "" end.

(** The normalized address and its scheme. *)
Definition normalize_uri (uri : string) : result (string * string) string :=
  match url_parse uri with
  | Ok parsed => Ok (normalize_parsed_url parsed, url_scheme parsed)
  | Err _ =>
      match split_once colon uri with
      | Some (scheme, remainder) =>
          if valid_scheme scheme then
            Ok (lowercase scheme +:+ String colon remainder, lowercase scheme)
          else Err ("Invalid URI scheme: " +:+ uri)
      | None => Err ("Invalid URI: " +:+ uri)
      end
  end.

Definition classify_uri (uri : string) : UriCategory :=
  if (8 <=? len uri) && eq_ignore_ascii_case (prefix_bytes 8 uri) "pubky://" then
    match parse_post_uri uri with
    | Ok parsed =>
        match uri_target parsed with Post _ | User => InternalKnown | _ => InternalUnknown end
    | Err _ => InternalUnknown
    end
  else External.

Definition resource_id (normalized_uri : string) : string := hash_str_hex normalized_uri.
End Normalize.
