(* ===== verification/Tags.v ===== *)
(** * Tags

    nexus-watcher/src/events/handlers/tag.rs over models/tag, models/post/search.rs,
    models/user/search.rs and models/resource/tag.rs: a TAGGED edge in the graph, mirrored
    in the label scores and the taggers sets of its target, and in the search indexes. *)

From S2P Require Import Prelude Threads Text Errors Users TrustFilter Graphs Events World Ranges Notifications PostStore PostIndex Normalize.
Local Open Scope Z_scope.
Local Open Scope nexus_scope.

Section Tags.
Context {SP : PostSpecs} {UC : UrlCrate} {W : Type} {CL : Clock W}.

(** [UserIngestor::maybe_ingest_user]; the author of a post is its address's user. *)
Context (maybe_ingest_user : string → prog (Site W) (result unit Model.ModelError)).

Definition maybe_ingest_author_of_post (u : ParsedUri) : prog (Site W) (result unit Model.ModelError) :=
  maybe_ingest_user (uri_user u).

(** Of the app and resource of a tag's own address, [ExtendedParsedUri] reads these. *)
Context (parse_tag_address : string → result (string * Resource * option string) string).
Context (debug_address : string * Resource * option string → string).

(** A homeserver's [PubkyAppTag]. *)
Record PubkyAppTag := { tagged_uri : string; label : string }.

(** ** The queries *)

(** The edge is made once; its address is the last one seen. *)
Definition merge_tag (k : string * Target * string) (e : TagEdge) : prog Stores (option bool) := λ s,
  let old := tagged (graph s) !! k in
  (Some (bool_decide (is_Some old)),
   set_tagged <[k := match old with
                     | Some o => {| tag_id := tag_id o; tag_uri := tag_uri e; tagged_at := tagged_at o |}
                     | None => e
                     end]> s).

Definition create_post_tag (user_id author_id post_id id_ uri_ label_ : string) (at_ : Z) :
    prog Stores (option bool) := λ s,
  if user_exists user_id s && bool_decide (is_Some (posts (graph s) !! (author_id, post_id))) then
    merge_tag (user_id, OnPost (author_id, post_id), label_)
      {| tag_id := id_; tag_uri := uri_; tagged_at := at_ |} s
  else (None, s).

Definition create_user_tag (tagger_id tagged_id id_ uri_ label_ : string) (at_ : Z) :
    prog Stores (option bool) := λ s,
  if user_exists tagged_id s && user_exists tagger_id s then
    merge_tag (tagger_id, OnUser tagged_id, label_)
      {| tag_id := id_; tag_uri := uri_; tagged_at := at_ |} s
  else (None, s).

Definition create_resource_tag (tagger_id resource uri_ scheme_ app id_ tag_uri_ label_ : string) (at_ : Z) :
    prog Stores (option bool) := λ s,
  if user_exists tagger_id s then
    let s := set_resources (λ m,
      if decide (is_Some (m !! resource)) then m
      else <[resource := {| resource_uri := uri_; scheme := scheme_; resource_at := at_ |}]> m) s in
    merge_tag (tagger_id, OnResource resource app, label_)
      {| tag_id := id_; tag_uri := tag_uri_; tagged_at := at_ |} s
  else (None, s).

(** The app of an edge: only a resource's has one. *)
Definition edge_app (t : Target) : option string :=
  match t with OnResource _ app => Some app | _ => None end.

(** Whether an edge is one of the tagger's with that id and app. *)
Definition is_tag (user_id id_ : string) (app : option string) (e : string * Target * string * TagEdge) :
    Prop :=
  let '(u, t, _, x) := e in u = user_id ∧ tag_id x = id_ ∧ edge_app t = app.

#[export] Instance is_tag_dec user_id id_ app e : Decision (is_tag user_id id_ app e).
Proof. destruct e as [[[u t] l] x]. unfold is_tag. apply _. Defined.

(** The first row: the target, the post's stored address, and the label. *)
Definition get_tag_target (user_id id_ : string) (app : option string) (s : Stores) :
    option (Target * option string * string) :=
  e ← head (filter (is_tag user_id id_ app) (map_to_list (tagged (graph s))));
  let '((_, t, l), _) := e in
  Some (t,
        match t with OnPost k => (λ n, uri (details n)) <$> posts (graph s) !! k | _ => None end,
        l).

(** Whether one of the edges is on the resource. *)
Definition tags_resource (r : string) (m : gmap (string * Target * string) TagEdge) : bool :=
  existsb (λ e : string * Target * string,
    match snd (fst e) with OnResource r' _ => bool_decide (r' = r) | _ => false end) (elements (dom m)).

(** A resource nobody tags any more goes with its last edge. *)
Definition delete_tag (user_id id_ : string) (app : option string) : Stores → Stores := λ s,
  let gone := filter (is_tag user_id id_ app) (tagged (graph s)) in
  let kept := filter (λ e, ¬ is_tag user_id id_ app e) (tagged (graph s)) in
  set_resources (λ m, filter (λ rn : string * ResourceNode,
                          tags_resource (fst rn) gone && negb (tags_resource (fst rn) kept) = false) m)
    (set_tagged (λ _, kept) s).

(** ** TagCollection and TaggersCollection *)

Definition USER_TAGS_KEY : string := "Users:Tag".
Definition POST_TAGS_KEY_PARTS : list string := ["Posts"; "Tag"].
Definition TAGS_LABEL : list string := ["Tags"; "Label"].

Definition set_user_tags f : Stores → Stores :=
  set_people (λ d, {| Users.nodes := nodes d; Users.related := related d; Users.cache := Users.cache d;
    Users.names := names d; Users.ids := ids d; Users.user_tags := f (user_tags d);
    Users.taggers := taggers d; Users.by_label := by_label d |}).
Definition set_user_taggers f : Stores → Stores :=
  set_people (λ d, {| Users.nodes := nodes d; Users.related := related d; Users.cache := Users.cache d;
    Users.names := names d; Users.ids := ids d; Users.user_tags := user_tags d;
    Users.taggers := f (taggers d); Users.by_label := by_label d |}).

Abbreviation KV A := (prog (Site W) (result A Kv.RedisError)).
Abbreviation EP A := (prog (Site W) (result A Ep.EventProcessorError)).

(** [TagUser::update_index_score] *)
Definition user_tag_score (user_id label_ : string) (action : ScoreAction) : KV unit :=
  on_redis (puts (λ s,
    let scores := default ∅ (user_tags (people s) !! user_id) in
    set_user_tags <[user_id := <[label_ := as_f64 (default 0 (scores !! label_) + delta_of action)]> scores]> s)).

(** [TagPost::update_index_score] *)
Definition post_tag_score (k : PostKey) (label_ : string) (action : ScoreAction) : KV unit :=
  zset_incr (POST_TAGS_KEY_PARTS ++ [fst k; snd k]) label_ action.

Definition user_taggers (user_id label_ : string) (s : Stores) : gset string :=
  default ∅ (taggers (people s) !! (user_id, label_)).

Definition taggers_of_post (k : PostKey) (label_ : string) (s : Stores) : gset string :=
  default ∅ (post_taggers (cache s) !! (k, label_)).

(** [add_tagger_to_index]: SADD *)
Definition add_user_tagger (user_id tagger_id label_ : string) : KV unit :=
  on_redis (puts (λ s, set_user_taggers
    <[(user_id, label_) := {[tagger_id]} ∪ user_taggers user_id label_ s]> s)).
Definition add_post_tagger (k : PostKey) (tagger_id label_ : string) : KV unit :=
  on_redis (puts (λ s, set_post_taggers <[(k, label_) := {[tagger_id]} ∪ taggers_of_post k label_ s]> s)).

(** [TaggersCollection::del_from_index]: SREM *)
Definition del_user_tagger (user_id tagger_id label_ : string) : KV unit :=
  on_redis (puts (λ s, set_user_taggers
    <[(user_id, label_) := user_taggers user_id label_ s ∖ {[tagger_id]}]> s)).
Definition del_post_tagger (k : PostKey) (tagger_id label_ : string) : KV unit :=
  on_redis (puts (λ s, set_post_taggers <[(k, label_) := taggers_of_post k label_ s ∖ {[tagger_id]}]> s)).

(** [check_set_member], its second answer *)
Definition is_user_tagger (user_id tagger_id label_ : string) : KV bool :=
  on_redis (gets (λ s, bool_decide (tagger_id ∈ user_taggers user_id label_ s))).
Definition is_post_tagger (k : PostKey) (tagger_id label_ : string) : KV bool :=
  on_redis (gets (λ s, bool_decide (tagger_id ∈ taggers_of_post k label_ s))).

(** ** The search indexes *)

Definition tag_search_put (labels : list string) : KV unit := zset_put TAGS_LABEL (pair 0 <$> labels).
Definition tag_search_del (label_ : string) : KV unit := zset_remove TAGS_LABEL [label_].

(** [UsersByTagSearch::sync_index_score] *)
Definition sync_index_score (user_id label_ : string) : KV unit :=
  on_redis (puts (set_people (λ d, snd (run_thread (Users.sync_index_score user_id label_) d)))).

(** [PostsByTagSearch::update_index_score] *)
Definition posts_by_tag_score (k : PostKey) (label_ : string) (action : ScoreAction) : KV unit :=
  trust_incr (TAG_GLOBAL_POST_ENGAGEMENT ++ [label_]) (fst k) (snd k) action.

(** [PostsByTagSearch::put_to_index] *)
Definition posts_by_tag_put (k : PostKey) (label_ : string) : KV unit :=
  let key_parts := TAG_GLOBAL_POST_TIMELINE ++ [label_] in
  let? tag_search := shared_score key_parts (post_member (fst k) (snd k)) in
  match tag_search with
  | Some _ => ret (Ok tt)
  | None =>
      let? found := details_get_from_index (fst k) (snd k) in
      match found with
      | Some d => trust_add key_parts [(as_f64 (indexed_at d), post_member (fst k) (snd k))]
      | None => ret (Ok tt)
      end
  end.

(** [PostsByTagSearch::del_from_index] *)
Definition posts_by_tag_del (k : PostKey) (label_ : string) : KV unit :=
  let? taggers := on_redis (gets (λ s, taggers_of_post k label_ s)) in
  if decide (taggers = ∅) then
    shared_remove (TAG_GLOBAL_POST_TIMELINE ++ [label_]) [post_member (fst k) (snd k)]
  else ret (Ok tt).

(** [PostsByTagSearch::get_by_label] of the first page, as to whether it has any post. *)
Definition posts_by_tag_found (label_ : string) : KV bool :=
  let key := sorted_key (TAG_GLOBAL_POST_TIMELINE ++ [label_]) in
  let? page := on_redis (gets (λ s, get_rev_range None None None None (TrustFilter.zset key (gate s)))) in
  ret (Ok match page with Some (_ :: _) => true | _ => false end).

(** ** The handlers *)

Inductive TagTarget :=
  | TagsPost (author_id post_id : string)
  | TagsUser (user_id : string).

Definition tag_target (uri_ : string) : result TagTarget Ep.EventProcessorError :=
  match parse_post_uri uri_ with
  | Err e => Err (Ep.UnsupportedTarget ("The tagged URI is not a pubky.app URI: " +:+ e))
  | Ok parsed =>
      match uri_target parsed with
      | Post post_id => Ok (TagsPost (uri_user parsed) post_id)
      | User => Ok (TagsUser (uri_user parsed))
      | other => Err (Ep.UnsupportedTarget ("The tagged resource is not Post or User, instead is: "
                                            +:+ debug_resource other))
      end
  end.

(** [fail_on_blacklisted_hs]: any other ingestion error is swallowed. *)
Definition fail_on_blacklisted_hs (ingest_result : result unit Model.ModelError) :
    result unit Ep.EventProcessorError :=
  match ingest_result with
  | Err (Model.HsBlacklisted hs_id) => Err (Ep.from_model (Model.HsBlacklisted hs_id))
  | _ => Ok tt
  end.

Local Abbreviation kv m := (emap_err Ep.from_redis m).

Definition put_sync_user (tagger_id tagged_id id_ uri_ label_ : string) (at_ : Z) : EP unit :=
  let? outcome := emap_err Ep.from_graph
    (execute_graph_operation (create_user_tag tagger_id tagged_id id_ uri_ label_ at_)) in
  match outcome with
  | Updated =>
      let? _ := join_all [kv (add_user_tagger tagged_id tagger_id label_); kv (tag_search_put [label_])] in
      let? _ := kv (sync_index_score tagged_id label_) in
      ret (Ok tt)
  | MissingDependency =>
      let* ingested := maybe_ingest_user tagged_id in
      let? _ := ret (fail_on_blacklisted_hs ingested) in
      let? tagged_uri := ret (map_err Ep.Generic (user_uri_str tagged_id)) in
      ret (Err (Ep.MissingDependency [tagged_uri]))
  | CreatedOrDeleted =>
      let? _ := join_all [
        kv (user_tag_score tagged_id label_ (Increment 1));
        kv (add_user_tagger tagged_id tagger_id label_);
        kv (new_user_tag tagger_id tagged_id label_);
        kv (tag_search_put [label_])] in
      let? _ := kv (sync_index_score tagged_id label_) in
      ret (Ok tt)
  end.

Definition put_sync_post (tagger_id author_id post_id id_ uri_ label_ post_uri : string) (at_ : Z) :
    EP unit :=
  let k := (author_id, post_id) in
  let? outcome := emap_err Ep.from_graph
    (execute_graph_operation (create_post_tag tagger_id author_id post_id id_ uri_ label_ at_)) in
  match outcome with
  | Updated =>
      let? _ := join_all [
        kv (add_post_tagger k tagger_id label_);
        kv (posts_by_tag_put k label_);
        kv (tag_search_put [label_]);
        kv (invalidate author_id post_id)] in
      ret (Ok tt)
  | MissingDependency =>
      let? _ := (match parse_post_uri post_uri with
                 | Ok parsed =>
                     let* ingested := maybe_ingest_author_of_post parsed in
                     ret (fail_on_blacklisted_hs ingested)
                 | Err _ => ret (Ok tt)
                 end) in
      ret (Err (Ep.MissingDependency [post_uri]))
  | CreatedOrDeleted =>
      let? _ := join_all [
        kv (invalidate author_id post_id);
        kv (post_tag_score k label_ (Increment 1));
        kv (add_post_tagger k tagger_id label_);
        kv (posts_by_tag_score k label_ (Increment 1));
        (let? is_reply := post_relationships_is_reply author_id post_id in
         if is_reply : bool then ret (Ok tt)
         else kv (stream_update_index_score author_id post_id (Increment 1)));
        kv (posts_by_tag_put k label_);
        (let? tagged_post_kind := post_kind author_id post_id in
         kv (new_post_tag tagger_id author_id label_ post_uri tagged_post_kind));
        kv (tag_search_put [label_])] in
      ret (Ok tt)
  end.

Definition put_sync_resource (tagger_id resource uri_ scheme_ app id_ tag_uri_ label_ : string) (at_ : Z) :
    EP unit :=
  let? outcome := emap_err Ep.from_graph (execute_graph_operation
    (create_resource_tag tagger_id resource uri_ scheme_ app id_ tag_uri_ label_ at_)) in
  match outcome with
  | MissingDependency => ret (Err (Ep.MissingDependency [tagger_id]))
  | CreatedOrDeleted | Updated => kv (tag_search_put [label_])
  end.

Definition sync_put (tag : PubkyAppTag) (event_uri tagger_id id_ : string) : EP unit :=
  let? target := ret (tag_target (tagged_uri tag)) in
  let* indexed_at := now in
  match target with
  | TagsPost author_id post_id =>
      put_sync_post tagger_id author_id post_id id_ event_uri (label tag) (tagged_uri tag) indexed_at
  | TagsUser user_id => put_sync_user tagger_id user_id id_ event_uri (label tag) indexed_at
  end.

Definition sync_put_resource (tag : PubkyAppTag) (event_uri tagger_id id_ app : string) : EP unit :=
  match classify_uri (tagged_uri tag) with
  | InternalKnown => sync_put tag event_uri tagger_id id_
  | InternalUnknown | External =>
      let? (normalized, scheme_) := ret (map_err Ep.Generic (normalize_uri (tagged_uri tag))) in
      let res_id := resource_id normalized in
      let* indexed_at := now in
      put_sync_resource tagger_id res_id normalized scheme_ app id_ event_uri (label tag) indexed_at
  end.

(** *** Deletion *)

Record TagStorageUri := { storage_user : string; storage_tag : string; storage_app : option string }.

Definition parse_tag_storage_uri (uri_ : string) : result TagStorageUri Ep.EventProcessorError :=
  match parse_tag_address uri_ with
  | Err e => Err (Ep.Generic e)
  | Ok (user_id, Tag id_, app) =>
      Ok {| storage_user := user_id; storage_tag := id_; storage_app := app |}
  | Ok other => Err (Ep.Generic ("Expected tag URI, found: " +:+ debug_address other))
  end.

Definition is_tag_storage_uri (uri_ : string) : bool :=
  match parse_tag_storage_uri uri_ with Ok _ => true | Err _ => false end.

Definition del_sync_user (tagger_id tagged_id label_ : string) (tagger_in_index : bool) : EP unit :=
  let? _ := join_all [
    (if tagger_in_index then kv (user_tag_score tagged_id label_ (Decrement 1)) else ret (Ok tt));
    kv (del_user_tagger tagged_id tagger_id label_);
    (if tagger_in_index then kv (new_user_untag tagger_id tagged_id label_) else ret (Ok tt))] in
  let? _ := kv (sync_index_score tagged_id label_) in
  ret (Ok tt).

Definition del_sync_post (tagger_id post_id author_id post_uri label_ : string) (tagger_in_index : bool) :
    EP unit :=
  let k := (author_id, post_id) in
  let? _ := join_all [
    (if tagger_in_index then kv (post_tag_score k label_ (Decrement 1)) else ret (Ok tt));
    (if tagger_in_index then kv (posts_by_tag_score k label_ (Decrement 1)) else ret (Ok tt));
    (if tagger_in_index then
       let? is_reply := post_relationships_is_reply author_id post_id in
       if is_reply : bool then ret (Ok tt)
       else kv (stream_update_index_score author_id post_id (Decrement 1))
     else ret (Ok tt));
    (if tagger_in_index then
       let? tagged_post_kind := post_kind author_id post_id in
       kv (new_post_untag tagger_id author_id label_ post_uri tagged_post_kind)
     else ret (Ok tt));
    kv (del_post_tagger k tagger_id label_)] in
  let? _ := kv (posts_by_tag_del k label_) in
  let? found := kv (posts_by_tag_found label_) in
  if found : bool then ret (Ok tt) else kv (tag_search_del label_).

(** The row the deletion works on; [None] when there is nothing left to delete. *)
Definition tag_row (a : TagStorageUri) : EP (option (Target * option string * string)) :=
  let look app := emap_err Ep.from_graph
    (on_graph (gets (get_tag_target (storage_user a) (storage_tag a) app))) in
  let? row := look (storage_app a) in
  match row, storage_app a with
  | Some row, _ => ret (Ok (Some row))
  | None, Some _ =>
      let? row := look None in
      match row with
      | Some (OnResource _ _, _, _) => ret (Ok None)
      | _ => ret (Ok row)
      end
  | None, None => ret (Ok None)
  end.

Definition del (uri_ : string) : EP unit :=
  let? a := ret (parse_tag_storage_uri uri_) in
  let tagger_id := storage_user a in
  let? row := tag_row a in
  match row with
  | None => ret (Ok tt)
  | Some (target, post_uri, label_) =>
      let? _ := (match target with
                 | OnUser tagged_id =>
                     let? tagger_in_index := kv (is_user_tagger tagged_id tagger_id label_) in
                     del_sync_user tagger_id tagged_id label_ tagger_in_index
                 | OnPost (author_id, post_id) =>
                     let? tagger_in_index := kv (is_post_tagger (author_id, post_id) tagger_id label_) in
                     match post_uri with
                     | None => ret (Err (Ep.Generic ("Post " +:+ author_id +:+ ":" +:+ post_id
                                                     +:+ " has no stored uri")))
                     | Some post_uri =>
                         del_sync_post tagger_id post_id author_id post_uri label_ tagger_in_index
                     end
                 | OnResource _ _ => ret (Ok tt)
                 end) in
      let? _ := emap_err Ep.from_graph
        (on_graph (puts (delete_tag tagger_id (storage_tag a) (edge_app target)))) in
      match target with
      | OnPost (author_id, post_id) => kv (invalidate author_id post_id)
      | _ => ret (Ok tt)
      end
  end.
End Tags.
