(* ===== verification/TagRuns.v ===== *)
(** * Tags: the indexes follow the graph

    What the tag handlers leave behind, through any history of tags put and deleted, with
    calls failing anywhere. *)

From S2P Require Import Prelude Threads Text Errors Users TrustFilter Graphs Events World Ranges Notifications PostStore PostIndex Normalize Tags.
Local Open Scope Z_scope.
Local Open Scope nexus_scope.

Abbreviation TagKey := (string * Target * string)%type.

Section Observations.
Context {SP : PostSpecs}.

Definition edge (s : Stores) (e : TagKey) : option TagEdge := tagged (graph s) !! e.

(** Whether the tagger is in the taggers set of the label; a resource has none. *)
Definition member (s : Stores) (e : TagKey) : Prop :=
  let '(u, t, l) := e in
  match t with
  | OnUser x => u ∈ user_taggers x l s
  | OnPost k => u ∈ taggers_of_post k l s
  | OnResource _ _ => False
  end.

(** The user's entry among those tagged with the label, and whether they are deleted. *)
Definition entry (s : Stores) (x l : string) : option Z := label_set l (people s) !! x.
Definition gone (s : Stores) (x : string) : bool :=
  bool_decide (Users.deleted <$> Users.cache (people s) !! x = Some true).

(** Of a user not known to be deleted, the entry is the number of taggers. *)
Definition synced (s : Stores) (x l : string) : Prop :=
  gone s x = false →
  entry s x l = match size (user_taggers x l s) with O => None | n => Some (Z.of_nat n) end.

(** Nobody is indexed as a tagger without the edge. *)
Definition mirrored (s : Stores) : Prop := ∀ e, member s e → is_Some (edge s e).

Record calm (s s' : Stores) : Prop := {
  calm_edge e : edge s' e = edge s e;
  calm_member e : member s' e ↔ member s e;
  calm_entry x l : entry s' x l = entry s x l;
  calm_gone x : gone s x = true → gone s' x = true;
}.

(** Only what is kept about the one tag may differ. *)
Record only (e0 : TagKey) (s s' : Stores) : Prop := {
  only_edge e : e ≠ e0 → edge s' e = edge s e;
  only_member e : e ≠ e0 → member s' e ↔ member s e;
  only_entry x l : (OnUser x, l) ≠ (snd (fst e0), snd e0) → entry s' x l = entry s x l;
  only_gone x : gone s x = true → gone s' x = true;
}.

#[export] Instance calm_preorder : PreOrder calm.
Proof.
  split; [by split|]. intros s1 s2 s3 [E1 M1 T1 G1] [E2 M2 T2 G2].
  split; intros; [by rewrite E2|by rewrite M2|by rewrite T2|auto].
Qed.

#[export] Instance only_preorder e0 : PreOrder (only e0).
Proof.
  split; [by split|]. intros s1 s2 s3 [E1 M1 T1 G1] [E2 M2 T2 G2].
  split; intros; [by rewrite E2, E1|by rewrite M2, M1|by rewrite T2, T1|auto].
Qed.

Lemma calm_only e0 s s' : calm s s' → only e0 s s'.
Proof. intros [E M T G]. split; intros; auto. Qed.

Lemma taggers_ext s s' x l :
  (∀ u, member s' (u, OnUser x, l) ↔ member s (u, OnUser x, l)) →
  user_taggers x l s' = user_taggers x l s.
Proof. intros Hm. apply set_eq. exact Hm. Qed.

Lemma synced_ext s s' x l :
  entry s' x l = entry s x l → (∀ u, member s' (u, OnUser x, l) ↔ member s (u, OnUser x, l)) →
  (gone s x = true → gone s' x = true) → synced s x l → synced s' x l.
Proof.
  intros He Hm Hg Hs Hlive. rewrite He, (taggers_ext s s') by done. apply Hs.
  destruct (gone s x) eqn:Hx; [by rewrite Hg in Hlive|done].
Qed.
End Observations.

Section Still.
Context {SP : PostSpecs} {UC : UrlCrate} {W : Type} {CL : Clock W}.

(** A program that leaves the tags alone, whatever its calls meet. *)
Definition still {A E} (m : prog (Site W) (result A E)) : Prop := ∀ s, keeps (calm s) m.

Lemma still_ret {A E} (r : result A E) : still (ret r).
Proof. intros s. apply keeps_ret. Qed.
Lemma still_ebind {A B E} (m : prog (Site W) (result A E)) (k : A → prog (Site W) (result B E)) :
  still m → (∀ a, still (k a)) → still (ebind m k).
Proof. intros Hm Hk s. apply keeps_ebind; [apply Hm|intros a; apply Hk]. Qed.
Lemma still_emap_err {A E F} (f : E → F) (m : prog (Site W) (result A E)) : still m → still (emap_err f m).
Proof. intros Hm s. apply keeps_emap_err, Hm. Qed.
Lemma still_now {B E} (k : Z → prog (Site W) (result B E)) : (∀ t, still (k t)) → still (bind now k).
Proof. intros Hk s. apply keeps_now. intros t. apply Hk. Qed.
Lemma still_redis {A} (f : prog Stores A) : (∀ s, calm s (snd (f s))) → still (on_redis f).
Proof. intros Hf s. apply keeps_redis. intros s' Hs. by etrans. Qed.
Lemma still_graph {A} (f : prog Stores A) : (∀ s, calm s (snd (f s))) → still (on_graph f).
Proof. intros Hf s. apply keeps_graph. intros s' Hs. by etrans. Qed.
Lemma still_if {A E} (b : bool) (m m' : prog (Site W) (result A E)) :
  still m → still m' → still (if b then m else m').
Proof. by destruct b. Qed.

Lemma still_zset_put key elements : still (zset_put key elements).
Proof. unfold zset_put. destruct elements; [apply still_ret|]. by apply still_redis. Qed.
Lemma still_zset_put_once key score m : still (zset_put_once key score m).
Proof. by apply still_redis. Qed.
Lemma still_zset_incr key m action : still (zset_incr key m action).
Proof. by apply still_redis. Qed.
Lemma still_zset_remove key items : still (zset_remove key items).
Proof. unfold zset_remove. destruct items; [apply still_ret|]. by apply still_redis. Qed.
Lemma still_shared_remove key items : still (shared_remove key items).
Proof. unfold shared_remove. destruct items; [apply still_ret|]. by apply still_redis. Qed.
Lemma still_shared_score key m : still (shared_score key m).
Proof. by apply still_redis. Qed.
Lemma still_trust_incr key a p action : still (trust_incr key a p action).
Proof.
  apply still_ebind; [|intros; apply still_ret]. apply still_redis. intros s.
  by destruct (INCR _ _ _ _).
Qed.
Lemma still_trust_add key entries : still (trust_add key entries).
Proof.
  unfold trust_add. induction (chunks BATCH entries) as [|batch batches IH]; [apply still_ret|].
  apply still_ebind; [|done]. apply still_redis. intros s. by destruct (ADD _ _ _).
Qed.
Lemma still_invalidate a p : still (invalidate a p).
Proof. by apply still_redis. Qed.
Lemma still_gets {A} (f : Stores → A) : still (on_redis (gets f)).
Proof. by apply still_redis. Qed.
Lemma still_gets_graph {A} (f : Stores → A) : still (on_graph (gets f)).
Proof. by apply still_graph. Qed.
Lemma still_user_tag_score x l action : still (user_tag_score x l action).
Proof. by apply still_redis. Qed.
Lemma still_relationships_put r a p : still (relationships_put_to_index r a p).
Proof. by apply still_redis. Qed.
Lemma still_notify body u : still (notify body u).
Proof. apply still_now. intros t. apply still_ebind; [apply still_ret|intros; apply still_zset_put]. Qed.
End Still.

Create HintDb still.
#[export] Hint Resolve still_ret still_ebind still_emap_err still_if still_zset_put still_zset_put_once
  still_zset_incr still_zset_remove still_shared_remove still_shared_score still_trust_incr
  still_trust_add still_invalidate still_gets still_gets_graph still_user_tag_score
  still_relationships_put still_notify : still.

(** Splits a program down to calls that are known to leave the tags alone. *)
Ltac still_tac :=
  repeat match goal with
  | |- still _ => solve [eauto with still]
  | |- still (ebind _ _) => apply still_ebind; [|intros ?]
  | |- still (emap_err _ _) => apply still_emap_err
  | |- still (match ?x with _ => _ end) => destruct x
  end.

Section Calm.
Context {SP : PostSpecs} {UC : UrlCrate} {W : Type} {CL : Clock W}.

Lemma still_details_get_by_id a p : still (W:=W) (details_get_by_id a p).
Proof.
  unfold details_get_by_id, details_get_from_index, details_get_from_graph, details_put_to_index,
    add_to_timeline_sorted_set, add_to_per_user_sorted_set, add_to_post_reply_sorted_set,
    add_to_replies_per_user_sorted_set. still_tac. all: by apply still_redis.
Qed.

Lemma still_post_kind a p : still (W:=W) (post_kind a p).
Proof. pose proof (still_details_get_by_id a p). unfold post_kind. still_tac. Qed.

Lemma still_is_reply a p : still (W:=W) (post_relationships_is_reply a p).
Proof.
  unfold post_relationships_is_reply, relationships_get_by_id, relationships_get_from_index,
    relationships_get_from_graph. still_tac.
Qed.

Lemma still_new_user_tag u x l : still (W:=W) (new_user_tag u x l).
Proof. unfold new_user_tag. still_tac. Qed.
Lemma still_new_user_untag u x l : still (W:=W) (new_user_untag u x l).
Proof. unfold new_user_untag. still_tac. Qed.
Lemma still_new_post_tag u a l p k : still (W:=W) (new_post_tag u a l p k).
Proof. unfold new_post_tag. still_tac. Qed.
Lemma still_new_post_untag u a l p k : still (W:=W) (new_post_untag u a l p k).
Proof. unfold new_post_untag. still_tac. Qed.
Lemma still_posts_by_tag_put k l : still (W:=W) (posts_by_tag_put k l).
Proof. unfold posts_by_tag_put, details_get_from_index. still_tac. Qed.
Lemma still_posts_by_tag_del k l : still (W:=W) (posts_by_tag_del k l).
Proof. unfold posts_by_tag_del. still_tac. Qed.
Lemma still_posts_by_tag_found l : still (W:=W) (posts_by_tag_found l).
Proof. unfold posts_by_tag_found. still_tac. Qed.
Lemma still_tag_search_put ls : still (W:=W) (tag_search_put ls).
Proof. apply still_zset_put. Qed.
Lemma still_tag_search_del l : still (W:=W) (tag_search_del l).
Proof. apply still_zset_remove. Qed.
Lemma still_post_tag_score k l a : still (W:=W) (post_tag_score k l a).
Proof. apply still_zset_incr. Qed.
Lemma still_posts_by_tag_score k l a : still (W:=W) (posts_by_tag_score k l a).
Proof. apply still_trust_incr. Qed.
Lemma still_stream_score a p action : still (W:=W) (stream_update_index_score a p action).
Proof. apply still_trust_incr. Qed.
End Calm.

#[export] Hint Resolve still_post_kind still_is_reply still_new_user_tag still_new_user_untag
  still_new_post_tag still_new_post_untag still_posts_by_tag_put still_posts_by_tag_del
  still_posts_by_tag_found still_tag_search_put still_tag_search_del still_post_tag_score
  still_posts_by_tag_score still_stream_score : still.

(** ** One tag *)

Section One_tag.
Context {SP : PostSpecs} {UC : UrlCrate} {W : Type} {CL : Clock W}.
Context (tag_key : string → option (Target * string)).
Context (e0 : TagKey) (s0 : Stores).

(** A property of what is kept about tags. *)
Definition tagwise (P : Stores → Prop) : Prop := ∀ s s', calm s s' → P s → P s'.

Lemma still_keeps {A E} (m : prog (Site W) (result A E)) P : still m → tagwise P → keeps P m.
Proof.
  intros Hm HP s Hs. eapply does_mono; [apply (Hm s s); reflexivity|..]; simpl; intros; by eapply HP.
Qed.

(** The edge's id is the one of its target and label. *)
Definition identified (s : Stores) (e : TagKey) : Prop :=
  ∀ x, edge s e = Some x → edge_app (snd (fst e)) = None →
    tag_key (tag_id x) = Some (snd (fst e), snd e).

(** Whatever happened so far, only the tag was touched, and it is mirrored. *)
Definition bounded (s : Stores) : Prop :=
  only e0 s0 s ∧ identified s e0 ∧ (member s e0 → is_Some (edge s e0)).

Definition linked (s : Stores) : Prop := bounded s ∧ is_Some (edge s e0).
Definition listed (s : Stores) : Prop := linked s ∧ member s e0.
Definition delisted (s : Stores) : Prop := linked s ∧ ¬ member s e0.
Definition cleared (s : Stores) : Prop := bounded s ∧ ¬ member s e0 ∧ edge s e0 = None.

Lemma bounded_tagwise : tagwise bounded.
Proof.
  intros s s' Hc (Ho & Hi & Hm). split; [etrans; [done|by apply calm_only]|].
  destruct Hc as [E M _ _]. split; [intros x; rewrite E; apply Hi|]. by rewrite M, E.
Qed.

Lemma linked_tagwise : tagwise linked.
Proof. intros s s' Hc [Hb He]. split; [by eapply bounded_tagwise|]. by rewrite (calm_edge _ _ Hc). Qed.

Lemma listed_tagwise : tagwise listed.
Proof. intros s s' Hc [Hb He]. split; [by eapply linked_tagwise|]. by rewrite (calm_member _ _ Hc). Qed.

Lemma delisted_tagwise : tagwise delisted.
Proof. intros s s' Hc [Hb He]. split; [by eapply linked_tagwise|]. by rewrite (calm_member _ _ Hc). Qed.

Lemma cleared_tagwise : tagwise cleared.
Proof.
  intros s s' Hc (Hb & Hm & He). split; [by eapply bounded_tagwise|].
  by rewrite (calm_member _ _ Hc), (calm_edge _ _ Hc).
Qed.

(** *** The calls that touch it *)

(** Only the edge of the tag, which is made or keeps its id. *)
Lemma merge_tag_step id_ uri_ at_ s :
  identified s e0 → (edge_app (snd (fst e0)) = None → tag_key id_ = Some (snd (fst e0), snd e0)) →
  let s' := snd (merge_tag e0 {| tag_id := id_; tag_uri := uri_; tagged_at := at_ |} s) in
  only e0 s s' ∧ identified s' e0 ∧ is_Some (edge s' e0) ∧ (member s' e0 ↔ member s e0).
Proof.
  intros Hi Hid s'. assert (∀ e, edge s' e = if decide (e = e0) then Some
    match edge s e0 with
    | Some o => {| tag_id := tag_id o; tag_uri := uri_; tagged_at := tagged_at o |}
    | None => {| tag_id := id_; tag_uri := uri_; tagged_at := at_ |}
    end else edge s e) as Hedge.
  { intros e. unfold s', merge_tag, edge. simpl. case_decide as He.
    - subst e. rewrite lookup_insert_eq. by destruct (tagged (graph s) !! e0).
    - by rewrite lookup_insert_ne by done. }
  assert (edge s' e0 = Some _) as He0 by (by rewrite Hedge, decide_True).
  split; [|split; [|split; [by rewrite He0|done]]].
  - split; [|done..]. intros e He. by rewrite Hedge, decide_False.
  - intros x Hx Happ. rewrite He0 in Hx. injection Hx as <-.
    destruct (edge s e0) as [o|] eqn:Ho; simpl; auto.
Qed.

Lemma bounded_step s s' :
  bounded s → only e0 s s' → identified s' e0 → (member s' e0 → is_Some (edge s' e0)) → bounded s'.
Proof. intros (Ho & _ & _) Ho' Hi Hm. split; [by etrans|done]. Qed.

Lemma merge_linked id_ uri_ at_ s :
  bounded s → (edge_app (snd (fst e0)) = None → tag_key id_ = Some (snd (fst e0), snd e0)) →
  linked (snd (merge_tag e0 {| tag_id := id_; tag_uri := uri_; tagged_at := at_ |} s)).
Proof.
  intros Hb Hid. destruct (merge_tag_step id_ uri_ at_ s) as (Ho & Hi & He & Hm); [apply Hb|done|].
  split; [|done]. by eapply bounded_step.
Qed.

(** SADD and SREM on the tag's taggers set. *)
Lemma members_linked (f : Stores → Stores) s :
  (∀ e, edge (f s) e = edge s e) → (∀ e, e ≠ e0 → member (f s) e ↔ member s e) →
  (∀ x l, entry (f s) x l = entry s x l) → (∀ x, gone s x = true → gone (f s) x = true) →
  member (f s) e0 → linked s → listed (f s).
Proof.
  intros He Hm Ht Hg Hin [(Ho & Hi & Hl) Hs]. split; [|done]. split; [|by rewrite He].
  split; [|split].
  - etrans; [done|]. by split.
  - intros x. rewrite He. apply Hi.
  - by rewrite He.
Qed.

Lemma members_delisted (f : Stores → Stores) s :
  (∀ e, edge (f s) e = edge s e) → (∀ e, e ≠ e0 → member (f s) e ↔ member s e) →
  (∀ x l, entry (f s) x l = entry s x l) → (∀ x, gone s x = true → gone (f s) x = true) →
  ¬ member (f s) e0 → linked s → delisted (f s).
Proof.
  intros He Hm Ht Hg Hin [(Ho & Hi & Hl) Hs]. split; [|done]. split; [|by rewrite He]. split; [|split; [|done]].
  - etrans; [done|]. by split.
  - intros x. rewrite He. apply Hi.
Qed.

Lemma rewritten_bounded s s' :
  only e0 s s' → (∀ e, edge s' e = edge s e) → (∀ e, member s' e ↔ member s e) → bounded s → bounded s'.
Proof.
  intros Ho He Hm (Ho' & Hi & Hl). split; [by etrans|]. split; [intros x; rewrite He; apply Hi|].
  by rewrite Hm, He.
Qed.
End One_tag.

(** ** The script that counts a label's taggers *)

Section Sync.
Context {SP : PostSpecs} {W : Type} {CL : Clock W}.

Lemma sync_step x l s :
  let s' := set_people (λ d, snd (run_thread (Users.sync_index_score x l) d)) s in
  (∀ e, edge s' e = edge s e) ∧ (∀ e, member s' e ↔ member s e) ∧ (∀ y, gone s' y = gone s y)
  ∧ (∀ y k, (y, k) ≠ (x, l) → entry s' y k = entry s y k) ∧ synced s' x l.
Proof.
  intros s'. split; [done|]. split; [done|]. split; [done|].
  assert (∀ y k, entry s' y k = if decide (k = l) then
    (if bool_decide ((Users.deleted <$> Users.cache (people s) !! x) = Some true)
        || bool_decide (size (user_taggers x l s) = 0%nat)
     then delete x (label_set l (people s))
     else <[x := Z.of_nat (size (user_taggers x l s))]> (label_set l (people s))) !! y
    else entry s y k) as Hentry.
  { intros y k. unfold entry, s'. simpl. unfold label_set at 1. simpl. case_decide as Hk.
    - subst k. rewrite lookup_insert_eq. simpl. unfold user_taggers, taggers_of. by destruct (_ || _).
    - by rewrite lookup_insert_ne by done. }
  split.
  - intros y k Hne. rewrite Hentry. destruct (decide (k = l)) as [->|Hk]; [|done].
    assert (x ≠ y) as Hxy by congruence.
    destruct (_ || _); [by rewrite lookup_delete_ne|by rewrite lookup_insert_ne].
  - intros Hlive. rewrite Hentry, decide_True by done.
    change (gone s' x) with (gone s x) in Hlive. unfold gone in Hlive. rewrite Hlive. simpl.
    change (user_taggers x l s') with (user_taggers x l s).
    destruct (size (user_taggers x l s)) as [|n] eqn:Hn.
    + rewrite bool_decide_eq_true_2 by done. apply lookup_delete_eq.
    + rewrite bool_decide_eq_false_2 by done. apply lookup_insert_eq.
Qed.

Lemma sync_does u x l s (P : Stores → Prop) :
  (∀ s s', only (u, OnUser x, l) s s' → (∀ e, edge s' e = edge s e) → (∀ e, member s' e ↔ member s e) →
     P s → P s') →
  P s → does (W:=W) (sync_index_score x l) s (λ _ s', P s' ∧ synced s' x l) P.
Proof.
  intros HP Hs. destruct (sync_step x l s) as (He & Hm & Hg & Ht & Hsync).
  assert (P (set_people (λ d, snd (run_thread (Users.sync_index_score x l) d)) s)) as Hs'.
  { eapply HP; [|exact He|exact Hm|done]. split; [by intros; rewrite He|by intros; rewrite Hm|..].
    - intros y k Hne. apply Ht. intros [= -> ->]. by apply Hne.
    - intros y. by rewrite Hg. }
  apply does_redis; done.
Qed.
End Sync.

(** ** The handlers *)

Section Handlers.
Context {SP : PostSpecs} {UC : UrlCrate} {W : Type} {CL : Clock W}.
Context (maybe_ingest_user : string → prog (Site W) (result unit Model.ModelError)).
Context (tag_key : string → option (Target * string)).

(** Ingestion may add users; it leaves the tags alone. *)
Context (Hingest : ∀ x, still (maybe_ingest_user x)).

Lemma join_calm {E} (arms : list (prog (Site W) (result unit E))) P s :
  Forall still arms → tagwise P → P s → does (join_all arms) s (λ _, P) P.
Proof.
  intros Harms HP Hs. apply keeps_join; [|done]. eapply Forall_impl; [exact Harms|].
  intros m Hm. by apply still_keeps.
Qed.

Local Abbreviation kv m := (emap_err Ep.from_redis m).
Local Abbreviation EP A := (prog (Site W) (result A Ep.EventProcessorError)).

(** *** SADD and SREM of a tagger *)

Lemma add_user_tagger_does u x l s0 s :
  let e0 := (u, OnUser x, l) in
  linked tag_key e0 s0 s →
  does (W:=W) (kv (add_user_tagger x u l)) s (λ _, listed tag_key e0 s0) (linked tag_key e0 s0).
Proof.
  intros e0 Hs. apply does_emap_err.
  assert (listed tag_key e0 s0 (set_user_taggers <[(x, l) := {[u]} ∪ user_taggers x l s]> s)) as Hf.
  2: { apply does_redis; [done|done|by destruct Hf]. }
  apply (members_linked _ _ _ (λ s, set_user_taggers <[(x, l) := {[u]} ∪ user_taggers x l s]> s)); try done.
  - intros [[v t] k] Hne. destruct t as [y|k'|r a]; [|done..]. simpl. unfold user_taggers. simpl.
    destruct (decide ((x, l) = (y, k))) as [[= <- <-]|Hk]; [|by rewrite lookup_insert_ne].
    rewrite lookup_insert_eq. simpl. assert (v ≠ u) by (intros ->; by apply Hne). set_solver.
  - simpl. unfold user_taggers. simpl. rewrite lookup_insert_eq. simpl. set_solver.
Qed.

Lemma del_user_tagger_does u x l s0 s :
  let e0 := (u, OnUser x, l) in
  linked tag_key e0 s0 s →
  does (W:=W) (kv (del_user_tagger x u l)) s (λ _, delisted tag_key e0 s0) (linked tag_key e0 s0).
Proof.
  intros e0 Hs. apply does_emap_err.
  assert (delisted tag_key e0 s0 (set_user_taggers <[(x, l) := user_taggers x l s ∖ {[u]}]> s)) as Hf.
  2: { apply does_redis; [done|done|by destruct Hf]. }
  apply (members_delisted _ _ _ (λ s, set_user_taggers <[(x, l) := user_taggers x l s ∖ {[u]}]> s)); try done.
  - intros [[v t] k] Hne. destruct t as [y|k'|r a]; [|done..]. simpl. unfold user_taggers. simpl.
    destruct (decide ((x, l) = (y, k))) as [[= <- <-]|Hk]; [|by rewrite lookup_insert_ne].
    rewrite lookup_insert_eq. simpl. assert (v ≠ u) by (intros ->; by apply Hne). set_solver.
  - simpl. unfold user_taggers. simpl. rewrite lookup_insert_eq. simpl. set_solver.
Qed.

Lemma add_post_tagger_does u p l s0 s :
  let e0 := (u, OnPost p, l) in
  linked tag_key e0 s0 s →
  does (W:=W) (kv (add_post_tagger p u l)) s (λ _, listed tag_key e0 s0) (linked tag_key e0 s0).
Proof.
  intros e0 Hs. apply does_emap_err.
  assert (listed tag_key e0 s0 (set_post_taggers <[(p, l) := {[u]} ∪ taggers_of_post p l s]> s)) as Hf.
  2: { apply does_redis; [done|done|by destruct Hf]. }
  apply (members_linked _ _ _ (λ s, set_post_taggers <[(p, l) := {[u]} ∪ taggers_of_post p l s]> s)); try done.
  - intros [[v t] k] Hne. destruct t as [y|k'|r a]; [done| |done]. simpl. unfold taggers_of_post. simpl.
    destruct (decide ((p, l) = (k', k))) as [[= <- <-]|Hk]; [|by rewrite lookup_insert_ne].
    rewrite lookup_insert_eq. simpl. assert (v ≠ u) by (intros ->; by apply Hne). set_solver.
  - simpl. unfold taggers_of_post. simpl. rewrite lookup_insert_eq. simpl. set_solver.
Qed.

Lemma del_post_tagger_does u p l s0 s :
  let e0 := (u, OnPost p, l) in
  linked tag_key e0 s0 s →
  does (W:=W) (kv (del_post_tagger p u l)) s (λ _, delisted tag_key e0 s0) (linked tag_key e0 s0).
Proof.
  intros e0 Hs. apply does_emap_err.
  assert (delisted tag_key e0 s0 (set_post_taggers <[(p, l) := taggers_of_post p l s ∖ {[u]}]> s)) as Hf.
  2: { apply does_redis; [done|done|by destruct Hf]. }
  apply (members_delisted _ _ _ (λ s, set_post_taggers <[(p, l) := taggers_of_post p l s ∖ {[u]}]> s)); try done.
  - intros [[v t] k] Hne. destruct t as [y|k'|r a]; [done| |done]. simpl. unfold taggers_of_post. simpl.
    destruct (decide ((p, l) = (k', k))) as [[= <- <-]|Hk]; [|by rewrite lookup_insert_ne].
    rewrite lookup_insert_eq. simpl. assert (v ≠ u) by (intros ->; by apply Hne). set_solver.
  - simpl. unfold taggers_of_post. simpl. rewrite lookup_insert_eq. simpl. set_solver.
Qed.

(** *** Joins around them *)

(** A join whose arms are still but for one that takes [P] to [P']. *)
Lemma join_around {E} (before after : list (prog (Site W) (result unit E))) arm s (P P' : Stores → Prop) :
  Forall still before → Forall still after → tagwise P → tagwise P' → (∀ s, P' s → P s) →
  (∀ s, P s → does arm s (λ _, P') P) → P s →
  does (join_all (before ++ arm :: after)) s (λ _, P') P.
Proof.
  intros Hb Ha TP TP' Hle Harm. assert (keeps P arm) as Hkeep.
  { intros s' Hs'. eapply does_mono; [by apply Harm|simpl; auto|done]. }
  revert s. induction Hb as [|m before Hm Hb IH]; intros s Hs; simpl.
  - apply (does_join_arm _ _ _ P'); [by apply Harm| |by intros s' Hs'; apply join_calm].
    intros s' Hs'. eapply does_mono; [by apply (join_calm _ P')|done|simpl; auto].
  - apply (does_join_arm _ _ _ P).
    + by apply still_keeps.
    + intros s' Hs'. by apply IH.
    + apply keeps_join. apply Forall_app. split; [|constructor; [done|]].
      * eapply Forall_impl; [exact Hb|]. intros m' Hm'. by apply still_keeps.
      * eapply Forall_impl; [exact Ha|]. intros m' Hm'. by apply still_keeps.
Qed.

Lemma join_listed (before : list (EP unit)) (arm : EP unit) (after : list (EP unit)) e0 s0 s (Q : unit → Stores → Prop) R :
  Forall still before → Forall still after →
  (∀ s, linked tag_key e0 s0 s → does arm s (λ _, listed tag_key e0 s0) (linked tag_key e0 s0)) →
  linked tag_key e0 s0 s → (∀ s', listed tag_key e0 s0 s' → Q tt s') →
  (∀ s', linked tag_key e0 s0 s' → R s') →
  does (join_all (before ++ arm :: after)) s Q R.
Proof.
  intros Hb Ha Harm Hs HQ HR. eapply does_mono.
  - apply (join_around before after arm s (linked tag_key e0 s0) (listed tag_key e0 s0)); try done.
    + apply linked_tagwise.
    + apply listed_tagwise.
    + by intros s' [].
  - by intros [] s' Hs'; apply HQ.
  - done.
Qed.

Lemma join_delisted (before : list (EP unit)) (arm : EP unit) (after : list (EP unit)) e0 s0 s (Q : unit → Stores → Prop) R :
  Forall still before → Forall still after →
  (∀ s, linked tag_key e0 s0 s → does arm s (λ _, delisted tag_key e0 s0) (linked tag_key e0 s0)) →
  linked tag_key e0 s0 s → (∀ s', delisted tag_key e0 s0 s' → Q tt s') →
  (∀ s', linked tag_key e0 s0 s' → R s') →
  does (join_all (before ++ arm :: after)) s Q R.
Proof.
  intros Hb Ha Harm Hs HQ HR. eapply does_mono.
  - apply (join_around before after arm s (linked tag_key e0 s0) (delisted tag_key e0 s0)); try done.
    + apply linked_tagwise.
    + apply delisted_tagwise.
    + by intros s' [].
  - by intros [] s' Hs'; apply HQ.
  - done.
Qed.

(** *** What each handler leaves *)

(** Of a put that failed: nothing was done, or the edge is there for the next attempt. *)
Definition put_failed (e0 : TagKey) (s0 s : Stores) : Prop :=
  bounded tag_key e0 s0 s ∧ (calm s0 s ∨ is_Some (edge s e0)).

Definition settled (e0 : TagKey) (s : Stores) : Prop :=
  match snd (fst e0) with OnUser x => synced s x (snd e0) | _ => True end.

(** Of a deletion that failed: or it was done but for the answer. *)
Definition del_failed (e0 : TagKey) (s0 s : Stores) : Prop :=
  bounded tag_key e0 s0 s ∧ (calm s0 s ∨ is_Some (edge s e0) ∨ settled e0 s).

Lemma linked_put_failed e0 s0 s : linked tag_key e0 s0 s → put_failed e0 s0 s.
Proof. intros [? ?]. split; auto. Qed.

Definition answered_put (e0 : TagKey) (s0 : Stores) (o : OperationOutcome) (s : Stores) : Prop :=
  match o with
  | MissingDependency => s = s0
  | _ => linked tag_key e0 s0 s
  end.

Lemma execute_merge e0 (guard : Stores → bool) id_ uri_ at_ s (f : prog Stores (option bool)) :
  (∀ s, f s = if guard s then merge_tag e0 {| tag_id := id_; tag_uri := uri_; tagged_at := at_ |} s
              else (None, s)) →
  (edge_app (snd (fst e0)) = None → tag_key id_ = Some (snd (fst e0), snd e0)) →
  bounded tag_key e0 s s →
  does (W:=W) (emap_err Ep.from_graph (execute_graph_operation f)) s (answered_put e0 s) (put_failed e0 s).
Proof.
  intros Hf Hid Hb. assert (put_failed e0 s s) as Hsame by (split; [done|by left]).
  apply does_emap_err, does_execute; [| done |]; rewrite Hf; destruct (guard s);
    try done; pose proof (merge_linked _ _ _ id_ uri_ at_ s Hb Hid) as Hl; simpl in *.
  - by destruct (bool_decide _).
  - by apply linked_put_failed.
Qed.

(** A program that never answers [Ok], after one that is still. *)
Lemma still_then_err {A B E F} (m : prog (Site W) (result A E)) (k : result A E → prog (Site W) (result B F))
    s (Q : B → Stores → Prop) (R : Stores → Prop) :
  still m → (∀ r s', calm s s' → does (k r) s' Q R) → does (bind m k) s Q R.
Proof.
  intros Hm Hk. apply does_bind. eapply does_mono; [apply (Hm s s); reflexivity|..].
  - intros a s' Hs'. by apply Hk.
  - intros s' Hs' e. by apply Hk.
Qed.

Lemma calm_put_failed e0 s s' : bounded tag_key e0 s s → calm s s' → put_failed e0 s s'.
Proof. intros Hb Hc. split; [by eapply bounded_tagwise|by left]. Qed.

Lemma sync_listed u x l s0 s :
  let e0 := (u, OnUser x, l) in
  listed tag_key e0 s0 s →
  does (W:=W) (kv (sync_index_score x l)) s (λ _ s', listed tag_key e0 s0 s' ∧ synced s' x l)
    (linked tag_key e0 s0).
Proof.
  intros e0 Hs. apply does_emap_err.
  eapply does_mono; [apply (sync_does u x l s (listed tag_key e0 s0))|done|by intros s1 []]; [|done].
  intros s1 s2 Ho He Hm [[Hs1 Hl] Hin]. split; [split|].
  - by eapply rewritten_bounded.
  - by rewrite He.
  - by apply Hm.
Qed.

Lemma sync_delisted u x l s0 s :
  let e0 := (u, OnUser x, l) in
  delisted tag_key e0 s0 s →
  does (W:=W) (kv (sync_index_score x l)) s (λ _ s', delisted tag_key e0 s0 s' ∧ synced s' x l)
    (linked tag_key e0 s0).
Proof.
  intros e0 Hs. apply does_emap_err.
  eapply does_mono; [apply (sync_does u x l s (delisted tag_key e0 s0))|done|by intros s1 []]; [|done].
  intros s1 s2 Ho He Hm [[Hs1 Hl] Hin]. split; [split|].
  - by eapply rewritten_bounded.
  - by rewrite He.
  - intros Hin'. by apply Hin, Hm.
Qed.

Lemma put_sync_user_does u x id_ uri_ l at_ s :
  let e0 := (u, OnUser x, l) in
  tag_key id_ = Some (OnUser x, l) → bounded tag_key e0 s s →
  does (put_sync_user maybe_ingest_user u x id_ uri_ l at_) s
    (λ _ s', listed tag_key e0 s s' ∧ settled e0 s') (put_failed e0 s).
Proof.
  intros e0 Hid Hb. unfold put_sync_user. apply does_ebind.
  eapply does_mono; [by apply (execute_merge e0 (λ s, user_exists x s && user_exists u s) id_ uri_ at_)| |done].
  assert (∀ s1, listed tag_key e0 s s1 → does (W:=W) (let? _ := kv (sync_index_score x l) in ret (Ok tt)) s1
    (λ _ s', listed tag_key e0 s s' ∧ settled e0 s') (put_failed e0 s)) as Hsync.
  { intros s1 Hs1. apply does_ebind.
    eapply does_mono; [by apply sync_listed| |by intros; apply linked_put_failed].
    intros [] s2 Hs2. by apply does_ret. }
  pose proof (λ s1, add_user_tagger_does u x l s s1) as Hadd.
  intros [] s' Ho; simpl in Ho.
  - apply does_ebind. apply (join_listed [] _ [_] e0 s);
      [constructor|repeat constructor; still_tac|done|done|done|by intros; apply linked_put_failed].
  - apply does_ebind. apply (join_listed [_] _ [_; _] e0 s);
      [repeat constructor; still_tac..|done|done|done|by intros; apply linked_put_failed].
  - subst s'. apply still_then_err; [done|]. intros r s1 Hs1.
    apply does_ebind, does_ret. destruct (fail_on_blacklisted_hs r); [|by apply calm_put_failed].
    apply does_ebind, does_ret. destruct (map_err _ _); [apply does_ret|]; by apply calm_put_failed.
Qed.

Lemma put_sync_post_does u a p id_ uri_ l post_uri at_ s :
  let e0 := (u, OnPost (a, p), l) in
  tag_key id_ = Some (OnPost (a, p), l) → bounded tag_key e0 s s →
  does (put_sync_post maybe_ingest_user u a p id_ uri_ l post_uri at_) s
    (λ _ s', listed tag_key e0 s s' ∧ settled e0 s') (put_failed e0 s).
Proof.
  intros e0 Hid Hb. unfold put_sync_post. apply does_ebind.
  eapply does_mono; [by apply (execute_merge e0
    (λ s, user_exists u s && bool_decide (is_Some (posts (graph s) !! (a, p)))) id_ uri_ at_)| |done].
  pose proof (λ s1, add_post_tagger_does u (a, p) l s s1) as Hadd.
  intros [] s' Ho; simpl in Ho.
  - apply does_ebind. apply (join_listed [] _ [_; _; _] e0 s);
      [constructor|repeat constructor; still_tac|done|done| |by intros; apply linked_put_failed].
    intros s1 Hs1. by apply does_ret.
  - apply does_ebind. apply (join_listed [_; _] _ [_; _; _; _; _] e0 s);
      [repeat constructor; still_tac..|done|done| |by intros; apply linked_put_failed].
    intros s1 Hs1. by apply does_ret.
  - subst s'. apply does_ebind. destruct (parse_post_uri post_uri) as [parsed|e].
    + apply still_then_err; [apply Hingest|]. intros r s1 Hs1. apply does_ret.
      destruct (fail_on_blacklisted_hs r); [apply does_ret|]; by apply calm_put_failed.
    + apply does_ret, does_ret. by apply calm_put_failed.
Qed.

(** *** Deletion *)

Context (tag_key_inj : ∀ i j k, tag_key i = Some k → tag_key j = Some k → i = j).

Definition wf (s : Stores) : Prop := ∀ e, identified tag_key s e.

Lemma only_wf e0 s0 s : wf s0 → only e0 s0 s → identified tag_key s e0 → wf s.
Proof.
  intros Hw Ho Hi e. destruct (decide (e = e0)) as [->|Hne]; [done|].
  intros x. rewrite (only_edge _ _ _ Ho) by done. apply Hw.
Qed.

Section The_tag.
Context (u id_ : string) (t : Target) (l : string).
Context (Hid : tag_key id_ = Some (t, l)) (Happ : edge_app t = None).
Local Abbreviation e0 := ((u, t, l) : TagKey).

Lemma is_tag_e0 s e x : wf s → edge s e = Some x → is_tag u id_ None (e, x) ↔ e = e0.
Proof.
  intros Hw Hx. destruct e as [[u' t'] l']. unfold is_tag. split.
  - intros (-> & Hi & Ha). pose proof (Hw _ x Hx Ha) as Hk. simpl in Hk. rewrite Hi, Hid in Hk.
    by injection Hk as -> ->.
  - intros [= -> -> ->]. split; [done|]. split; [|done].
    apply (tag_key_inj _ _ (t, l)); [|done]. by apply (Hw _ x Hx).
Qed.

Lemma delete_tag_step s :
  wf s → let s' := delete_tag u id_ None s in
  only e0 s s' ∧ edge s' e0 = None ∧ (∀ e, member s' e ↔ member s e).
Proof.
  intros Hw s'. assert (∀ e, edge s' e = if decide (e = e0) then None else edge s e) as Hedge.
  { intros e. unfold s', delete_tag, edge. simpl. rewrite map_lookup_filter.
    destruct (tagged (graph s) !! e) as [x|] eqn:Hx; simpl; [|by case_decide].
    pose proof (is_tag_e0 s e x Hw Hx) as Hiff. destruct (decide (e = e0)) as [He|He].
    - rewrite option_guard_False; [done|]. tauto.
    - rewrite option_guard_True; [done|]. tauto. }
  split; [|split; [by rewrite Hedge, decide_True|done]].
  split; [|done..]. intros e He. by rewrite Hedge, decide_False.
Qed.

Lemma target_row s :
  wf s → match get_tag_target u id_ None s with
         | None => edge s e0 = None
         | Some (t', _, l') => t' = t ∧ l' = l ∧ is_Some (edge s e0)
         end.
Proof.
  intros Hw. unfold get_tag_target.
  destruct (filter (is_tag u id_ None) (map_to_list (tagged (graph s)))) as [|[[[u' t'] l'] x] rows] eqn:Hrows;
    simpl.
  - destruct (edge s e0) as [x|] eqn:Hx; [|done].
    assert ((e0, x) ∈ filter (is_tag u id_ None) (map_to_list (tagged (graph s)))) as Hin.
    { apply list_elem_of_filter. split; [by apply (is_tag_e0 s)|]. by apply elem_of_map_to_list. }
    rewrite Hrows in Hin. by apply elem_of_nil in Hin.
  - assert (((u', t', l'), x) ∈ filter (is_tag u id_ None) (map_to_list (tagged (graph s)))) as Hin
      by (rewrite Hrows; by left).
    apply list_elem_of_filter in Hin as [Htag Hin%elem_of_map_to_list].
    apply (is_tag_e0 s _ _ Hw Hin) in Htag. injection Htag as -> -> ->.
    split; [done|]. split; [done|]. by exists x.
Qed.

Lemma tag_row_does s :
  does (W:=W) (tag_row {| storage_user := u; storage_tag := id_; storage_app := None |}) s
    (λ row s', s' = s ∧ row = get_tag_target u id_ None s) (λ s', s' = s).
Proof.
  unfold tag_row. simpl. apply does_ebind, does_emap_err, does_graph; [|done..]. simpl.
  destruct (get_tag_target u id_ None s) as [[[? ?] ?]|]; by apply does_ret.
Qed.

Lemma delete_does s0 s :
  wf s0 → delisted tag_key e0 s0 s → settled e0 s →
  does (W:=W) (emap_err Ep.from_graph (on_graph (puts (delete_tag u id_ None)))) s
    (λ _ s', cleared tag_key e0 s0 s' ∧ settled e0 s') (del_failed e0 s0).
Proof.
  intros Hw [[Hb He] Hm] Hset. assert (wf s) as Hws by (eapply only_wf; [done|apply Hb|apply Hb]).
  destruct (delete_tag_step s Hws) as (Ho & Hnone & Hmem).
  assert (cleared tag_key e0 s0 (delete_tag u id_ None s)) as Hcl.
  { split; [|by rewrite Hmem]. eapply bounded_step; [done..| |].
    - intros x. by rewrite Hnone.
    - by rewrite Hmem. }
  assert (settled e0 (delete_tag u id_ None s)) as Hset'.
  { destruct t as [x| |]; [|done..]. simpl in *. revert Hset. apply synced_ext; [done| |done].
    intros v. apply Hmem. }
  apply does_emap_err, does_graph; [by split| |].
  - split; [done|]. auto.
  - split; [apply Hcl|]. auto.
Qed.
End The_tag.

Lemma linked_del_failed e0 s0 s : linked tag_key e0 s0 s → del_failed e0 s0 s.
Proof. intros [? ?]. split; auto. Qed.

Lemma del_sync_user_does u x l b s0 s :
  let e0 := (u, OnUser x, l) in
  linked tag_key e0 s0 s →
  does (W:=W) (del_sync_user u x l b) s (λ _ s', delisted tag_key e0 s0 s' ∧ settled e0 s') (linked tag_key e0 s0).
Proof.
  intros e0 Hs. unfold del_sync_user. apply does_ebind.
  apply (join_delisted [_] _ [_] e0 s0); [repeat constructor; still_tac..| |done| |done].
  - intros s1 Hs1. by apply del_user_tagger_does.
  - intros s1 Hs1. apply does_ebind. eapply does_mono; [by apply sync_delisted| |done].
    intros [] s2 Hs2. by apply does_ret.
Qed.

Lemma del_sync_post_does u a p post_uri l b s0 s :
  let e0 := (u, OnPost (a, p), l) in
  linked tag_key e0 s0 s →
  does (W:=W) (del_sync_post u p a post_uri l b) s (λ _ s', delisted tag_key e0 s0 s' ∧ settled e0 s')
    (linked tag_key e0 s0).
Proof.
  intros e0 Hs. unfold del_sync_post. apply does_ebind.
  apply (join_delisted [_; _; _; _] _ [] e0 s0); [repeat constructor; still_tac|constructor| |done| |done].
  - intros s1 Hs1. by apply del_post_tagger_does.
  - intros s1 Hs1. eapply (keeps_does (delisted tag_key e0 s0)); [|done|done|by intros s2 []].
    apply still_keeps; [still_tac|apply delisted_tagwise].
Qed.

Context (parse_tag_address : string → result (string * Resource * option string) string).
Context (debug_address : string * Resource * option string → string).

(** Done, or there was nothing left to do. *)
Definition del_done (e0 : TagKey) (s0 s : Stores) : Prop :=
  cleared tag_key e0 s0 s ∧ (settled e0 s ∨ (calm s0 s ∧ edge s0 e0 = None)).

Lemma del_does uri_ u id_ t l s :
  let e0 := (u, t, l) in
  parse_tag_address uri_ = Ok (u, Tag id_, None) → tag_key id_ = Some (t, l) → edge_app t = None →
  wf s → bounded tag_key e0 s s →
  does (W:=W) (del parse_tag_address debug_address uri_) s (λ _, del_done e0 s) (del_failed e0 s).
Proof.
  intros e0 Huri Hid Happ Hw Hb. unfold del, parse_tag_storage_uri. rewrite Huri.
  apply does_ebind, does_ret, does_ebind. simpl.
  eapply does_mono; [apply (tag_row_does u id_ s)| |intros s' ->; split; auto; left; reflexivity].
  intros row s' [-> ->]. pose proof (target_row u id_ t l Hid Happ s Hw) as Hrow.
  destruct (get_tag_target u id_ None s) as [[[t' post_uri] l']|].
  2: { apply does_ret. split; [split; [done|split; [|done]]|right; by split].
       intros Hin. destruct Hb as (_ & _ & Hm). apply Hm in Hin as [x Hx]. unfold e0 in Hx. congruence. }
  destruct Hrow as (-> & -> & Hedge). assert (linked tag_key e0 s s) as Hl by by split.
  (* the end of the deletion *)
  assert (∀ s1, delisted tag_key e0 s s1 ∧ settled e0 s1 →
    does (W:=W) (let? _ := emap_err Ep.from_graph (on_graph (puts (delete_tag u id_ (edge_app t)))) in
      match t with
      | OnPost (author_id, post_id) => kv (invalidate author_id post_id)
      | _ => ret (Ok tt)
      end) s1 (λ _, del_done e0 s) (del_failed e0 s)) as Hend.
  { intros s1 [Hs1 Hset]. apply does_ebind. rewrite Happ.
    eapply does_mono; [by apply (delete_does u id_ t l)| |done]. intros [] s2 [Hcl Hset2].
    assert (del_done e0 s s2) as Hdone by (split; [done|by left]).
    destruct t as [x|[a p]|r app]; [by apply does_ret| |done].
    eapply (keeps_does (cleared tag_key e0 s)); [|exact Hcl|..].
    - apply still_keeps; [still_tac|apply cleared_tagwise].
    - intros _ s3 Hs3. split; [done|by left].
    - intros s3 Hs3. split; [apply Hs3|]. right. by right. }
  apply does_ebind. destruct t as [x|[a p]|r app]; [| |done].
  - apply does_ebind, does_emap_err, does_redis; [|by apply linked_del_failed..].
    eapply does_mono; [by apply del_sync_user_does|by intros []; auto|intros; by apply linked_del_failed].
  - apply does_ebind, does_emap_err, does_redis; [|by apply linked_del_failed..].
    destruct post_uri as [post_uri|]; [|apply does_ret; by apply linked_del_failed].
    eapply does_mono; [by apply del_sync_post_does|by intros []; auto|intros; by apply linked_del_failed].
Qed.

Definition target_of (t : TagTarget) : Target :=
  match t with TagsPost a p => OnPost (a, p) | TagsUser x => OnUser x end.

Lemma sync_put_does tag uri_ u id_ t s :
  let e0 := (u, target_of t, label tag) in
  tag_target (tagged_uri tag) = Ok t → tag_key id_ = Some (target_of t, label tag) →
  bounded tag_key e0 s s →
  does (sync_put maybe_ingest_user tag uri_ u id_) s
    (λ _ s', listed tag_key e0 s s' ∧ settled e0 s') (put_failed e0 s).
Proof.
  intros e0 Ht Hid Hb. unfold sync_put. rewrite Ht. apply does_ebind, does_ret, does_now. intros at_.
  destruct t as [a p|x]; [by apply put_sync_post_does|by apply put_sync_user_does].
Qed.

(** ** Histories *)

Inductive tag_event :=
  | PutTag (tag : PubkyAppTag) (event_uri tagger_id tag_id_ : string)
  | DelTag (tag_uri_ : string).

Definition handle_tag (e : tag_event) : EP unit :=
  match e with
  | PutTag tag event_uri tagger_id id_ => sync_put maybe_ingest_user tag event_uri tagger_id id_
  | DelTag uri_ => del parse_tag_address debug_address uri_
  end.

(** The tag an event is about, and whether it puts it. *)
Definition says (e : tag_event) : option (TagKey * bool) :=
  match e with
  | PutTag tag _ u id_ =>
      match tag_target (tagged_uri tag) with
      | Ok t => Some ((u, target_of t, label tag), true)
      | Err _ => None
      end
  | DelTag uri_ =>
      match parse_tag_address uri_ with
      | Ok (u, Tag id_, None) => (λ tl, ((u, fst tl, snd tl), false)) <$> tag_key id_
      | _ => None
      end
  end.

(** The id of a tag is the one the specs derive from its target and label; deletions are of
    such tags. *)
Definition well_formed (e : tag_event) : Prop :=
  match e with
  | PutTag tag _ u id_ =>
      ∀ t, tag_target (tagged_uri tag) = Ok t → tag_key id_ = Some (target_of t, label tag)
  | DelTag uri_ =>
      ∃ u id_ t l, parse_tag_address uri_ = Ok (u, Tag id_, None)
        ∧ tag_key id_ = Some (t, l) ∧ edge_app t = None
  end.

(** The events handled one after the other, and how each was answered, latest first. *)
Fixpoint run_events (es : list tag_event) (log : list (tag_event * bool)) (w : Site W) :
    list (tag_event * bool) * Site W :=
  match es with
  | [] => (log, w)
  | e :: es =>
      let '(r, w) := handle_tag e w in
      run_events es ((e, match r with Ok _ => true | Err _ => false end) :: log) w
  end.

(** The last event about a tag: whether it put it, and whether it was answered. *)
Fixpoint last_about (k : TagKey) (log : list (tag_event * bool)) : option (bool * bool) :=
  match log with
  | [] => None
  | (e, ok) :: log =>
      match says e with
      | Some (k', b) => if decide (k' = k) then Some (b, ok) else last_about k log
      | None => last_about k log
      end
  end.

(** What the log tells of the stores. *)
Record consistent (log : list (tag_event * bool)) (s : Stores) : Prop := {
  consistent_wf : wf s;
  consistent_mirrored : mirrored s;
  consistent_last k b : last_about k log = Some (b, true) →
    if b then is_Some (edge s k) ∧ member s k else edge s k = None ∧ ¬ member s k;
  (** an entry that does not count the taggers awaits another attempt *)
  consistent_synced x l : synced s x l ∨
    ∃ u b, last_about (u, OnUser x, l) log = Some (b, false) ∧ is_Some (edge s (u, OnUser x, l));
}.

Lemma only_mirrored e0 s0 s : mirrored s0 → only e0 s0 s → (member s e0 → is_Some (edge s e0)) → mirrored s.
Proof.
  intros Hmir Ho Hm e. destruct (decide (e = e0)) as [->|Hne]; [done|].
  rewrite (only_member _ _ _ Ho), (only_edge _ _ _ Ho) by done. apply Hmir.
Qed.

Lemma only_synced u t l y k s0 s :
  only (u, t, l) s0 s → (OnUser y, k) ≠ (t, l) → synced s0 y k → synced s y k.
Proof.
  intros Ho Hne Hs. revert Hs. apply synced_ext; [by apply Ho| |apply Ho].
  intros v. apply Ho. intros [= -> <- <-]. by apply Hne.
Qed.

Lemma last_about_cons e ok log k0 b0 k :
  says e = Some (k0, b0) →
  last_about k ((e, ok) :: log) = if decide (k0 = k) then Some (b0, ok) else last_about k log.
Proof. intros He. cbn [last_about]. by rewrite He. Qed.

(** What an event about [k0] leaves, however it was answered. *)
Definition outcome (k0 : TagKey) (b0 ok : bool) (s0 s : Stores) : Prop :=
  match b0, ok with
  | true, true => listed tag_key k0 s0 s ∧ settled k0 s
  | false, true => del_done k0 s0 s
  | true, false => put_failed k0 s0 s
  | false, false => del_failed k0 s0 s
  end.

Lemma outcome_bounded k0 b0 ok s0 s : outcome k0 b0 ok s0 s → bounded tag_key k0 s0 s.
Proof.
  destruct b0, ok; simpl; [intros [[[]]]|intros []|intros [[]]|intros []]; done.
Qed.

(** The entry of the event's own user counts the taggers, or is as it was with the tagger's edge
    as it was or gone, or awaits another attempt. *)
Lemma outcome_synced u x l b0 ok s0 s :
  outcome (u, OnUser x, l) b0 ok s0 s →
  synced s x l ∨ (ok = false ∧ is_Some (edge s (u, OnUser x, l)))
  ∨ (calm s0 s ∧ (ok = true → edge s0 (u, OnUser x, l) = None)).
Proof.
  destruct b0, ok; simpl.
  - intros [_ Hs]. by left.
  - intros [_ [Hc|He]]; [right; right; by split|auto].
  - intros [_ [Hs|[Hc He]]]; auto.
  - intros [_ [Hc|[He|Hs]]]; [right; right; by split|auto..].
Qed.

Lemma consistent_step e ok k0 b0 log s0 s :
  says e = Some (k0, b0) → outcome k0 b0 ok s0 s → consistent log s0 → consistent ((e, ok) :: log) s.
Proof.
  intros He Ho [Hw Hmir Hlast Hsync]. pose proof (outcome_bounded _ _ _ _ _ Ho) as (Honly & Hid & Hm).
  split.
  - by eapply only_wf.
  - by eapply only_mirrored.
  - intros k b. erewrite last_about_cons by done. case_decide as Hk.
    + subst k. intros [= -> ->]. destruct b; simpl in Ho.
      * destruct Ho as [[[_ ?] ?] _]. done.
      * destruct Ho as [(_ & ? & ?) _]. done.
    + intros Hb. pose proof (only_member _ _ _ Honly k (not_eq_sym Hk)) as Hmem.
      rewrite (only_edge _ _ _ Honly) by done. apply Hlast in Hb. destruct b; by rewrite Hmem.
  - intros x l. destruct k0 as [[u t] l0]. destruct (decide ((OnUser x, l) = (t, l0))) as [[= <- <-]|Hne].
    + destruct (outcome_synced _ _ _ _ _ _ _ Ho) as [Hs|[[-> He0]|[Hc Hok]]]; [by left|right|].
      { exists u, b0. erewrite last_about_cons by done. by rewrite decide_True. }
      destruct (Hsync x l) as [Hs|(v & b & Hv & Hedge)].
      { left. revert Hs. apply synced_ext; [by apply Hc|intros; apply Hc|apply Hc]. }
      right. exists v. rewrite (calm_edge _ _ Hc). erewrite last_about_cons by done.
      case_decide as Hvu; [|by exists b]. injection Hvu as <-. exists b0. split; [|done].
      destruct ok; [|done]. rewrite Hok in Hedge by done. by destruct Hedge.
    + destruct (Hsync x l) as [Hs|(v & b & Hv & Hedge)]; [left; by eapply only_synced|].
      right. exists v, b. erewrite last_about_cons by done.
      assert ((u, t, l0) ≠ (v, OnUser x, l)) by (intros [= -> -> ->]; by apply Hne).
      rewrite decide_False, (only_edge _ _ _ Honly) by done. done.
Qed.

Lemma handle_tag_does e k0 b0 s :
  well_formed e → says e = Some (k0, b0) → wf s → mirrored s →
  does (handle_tag e) s (λ _, outcome k0 b0 true s) (outcome k0 b0 false s).
Proof.
  intros Hwf He Hw Hmir.
  assert (bounded tag_key k0 s s) as Hb by (split; [done|split; [apply Hw|apply Hmir]]).
  destruct e as [tag uri_ u id_|uri_]; simpl in *.
  - destruct (tag_target (tagged_uri tag)) as [t|err] eqn:Ht; [|done]. injection He as <- <-.
    apply sync_put_does; auto.
  - destruct Hwf as (u & id_ & t & l & Huri & Hid & Happ). rewrite Huri, Hid in He.
    injection He as <- <-. by eapply del_does.
Qed.

(** A put of what cannot be tagged is refused at once. *)
Lemma refused_put_does e s :
  says e = None → well_formed e → does (handle_tag e) s (λ _ _, False) (λ s', s' = s).
Proof.
  intros He Hwf. destruct e as [tag uri_ u id_|uri_]; simpl in *.
  - unfold sync_put. destruct (tag_target (tagged_uri tag)) as [t|err]; [done|]. apply does_ebind. by apply does_ret.
  - destruct Hwf as (u & id_ & t & l & Huri & Hid & Happ). by rewrite Huri, Hid in He.
Qed.

Lemma run_event_consistent e log w r w' :
  well_formed e → consistent log (stores w) → handle_tag e w = (r, w') →
  consistent ((e, match r with Ok _ => true | Err _ => false end) :: log) (stores w').
Proof.
  intros Hwf Hc Hrun. destruct (says e) as [[k0 b0]|] eqn:He.
  - eapply consistent_step; [exact He| |exact Hc].
    pose proof (does_run _ _ _ _ _ _ _ (handle_tag_does e k0 b0 (stores w) Hwf He
      (consistent_wf _ _ Hc) (consistent_mirrored _ _ Hc)) eq_refl Hrun). by destruct r.
  - pose proof (does_run _ _ _ _ _ _ _ (refused_put_does e (stores w) He Hwf) eq_refl Hrun) as Hr.
    destruct r; [done|]. rewrite Hr. destruct Hc as [Hw Hmir Hlast Hsync].
    split; [done..|intros k b; cbn [last_about]; rewrite He; apply Hlast|].
    intros x l. destruct (Hsync x l) as [?|(u & b & ? & ?)]; [by left|right].
    exists u, b. cbn [last_about]. by rewrite He.
Qed.

Lemma run_events_consistent es log w :
  Forall well_formed es → consistent log (stores w) →
  consistent (fst (run_events es log w)) (stores (snd (run_events es log w))).
Proof.
  intros Hes. revert log w. induction Hes as [|e es He _ IH]; intros log w Hc; [done|].
  cbn [run_events]. destruct (handle_tag e w) as [r w'] eqn:Hrun. apply IH.
  by eapply run_event_consistent.
Qed.

(** C8: After any history of tags put and deleted, with ingestion and any call to Redis or the
    graph failing before or after its effect, in any handler, every tagger in a taggers set has
    the tag's edge; a tag whose last event was answered is in the graph and, unless its target
    is a resource, in the taggers set exactly when that event put it; and the count kept of a
    user's taggers for a label is the size of their set, unless an event of one of those still
    in the graph went unanswered, which is then due another attempt. *)
Theorem answered_tags_agree es w :
  Forall well_formed es → wf (stores w) → mirrored (stores w) → (∀ x l, synced (stores w) x l) →
  let '(log, w') := run_events es [] w in
  let s := stores w' in
  mirrored s
  ∧ (∀ k b, last_about k log = Some (b, true) →
       if b then is_Some (edge s k) ∧ member s k else edge s k = None ∧ ¬ member s k)
  ∧ (∀ x l, (∀ u b, last_about (u, OnUser x, l) log = Some (b, false) → edge s (u, OnUser x, l) = None) →
       synced s x l).
Proof.
  intros Hes Hw Hmir Hsync. assert (consistent [] (stores w)) as Hc by (split; auto; done).
  pose proof (run_events_consistent es [] w Hes Hc) as [Hw' Hmir' Hlast Hsync'].
  destruct (run_events es [] w) as [log w']. simpl in *. split; [done|]. split; [done|].
  intros x l Hnone. destruct (Hsync' x l) as [?|(u & b & Hu & He)]; [done|].
  rewrite (Hnone _ _ Hu) in He. by destruct He.
Qed.
End Handlers.

(** ** Two taggers of one user *)

Module Example_tags.
Import Small_world.

(** The first id is of a tag on bob, the second of one on his post. *)
Definition key_of (i : string) : option (Target * string) :=
  if bool_decide (i = "1") then Some (OnUser "bob", "kind")
  else if bool_decide (i = "2") then Some (OnPost ("bob", "p"), "kind") else None.

Definition address (u : string) : result (string * Resource * option string) string :=
  match split_once (Ascii.ascii_of_N 47) u with
  | Some (a, i) => Ok (a, Tag i, None)
  | None => Err "not a tag"
  end.

Definition ingest (_ : string) : prog (Site Z) (result unit Model.ModelError) := ret (Ok tt).

Lemma key_of_inj i j k : key_of i = Some k → key_of j = Some k → i = j.
Proof. unfold key_of. intros. repeat case_bool_decide; simplify_eq/=; done. Qed.

Definition world : Site Z :=
  site {| people := with_users ["ann"; "bob"; "cat"]; gate := no_gate; graph := no_posts; cache := no_cache |}
    [Served; ReplyLost (Kv.IoError "reset"); Served; Served; Refused (Kv.IoError "reset")] [].

Definition kindly (on : string) : PubkyAppTag := {| tagged_uri := on; label := "kind" |}.

(** Ann's tag is answered at the third attempt only, when it is counted; the one on a post
    nobody has seen never is; cat's is deleted again. *)
Definition events : list tag_event := [
  PutTag (kindly "bob") "ann/1" "ann" "1"; PutTag (kindly "bob") "ann/1" "ann" "1";
  PutTag (kindly "bob") "ann/1" "ann" "1"; PutTag (kindly "bob/p") "ann/2" "ann" "2";
  PutTag (kindly "bob") "cat/1" "cat" "1"; DelTag "cat/1"].

Definition after := run_events ingest address (λ _, "") events [] world.

Example tag_answers : (λ e : tag_event * bool, snd e) <$> reverse (fst after) = [false; false; true; false; true; true].
Proof. vm_compute. reflexivity. Qed.

Example bob_has_one_tagger : entry (stores (snd after)) "bob" "kind" = Some 1.
Proof. vm_compute. reflexivity. Qed.

Lemma answered_tags_agree_witness :
  mirrored (stores (snd after)) ∧ member (stores (snd after)) ("ann", OnUser "bob", "kind")
  ∧ ¬ member (stores (snd after)) ("cat", OnUser "bob", "kind").
Proof.
  assert (Forall (well_formed key_of address) events) as Hwf.
  { repeat constructor; simpl.
    all: try (intros t; vm_compute; intros [= <-]; reflexivity).
    exists "cat", "1", (OnUser "bob"), "kind". by vm_compute. }
  assert (mirrored (stores world)) as Hstart by (intros [[u [x|x|x]] l]; done).
  pose proof (answered_tags_agree (W:=Z) ingest key_of (λ _, still_ret _) key_of_inj address (λ _, "")
    events world Hwf (λ e x, ltac:(done)) Hstart (λ x l _, eq_refl)) as Hrun.
  change (run_events ingest address (λ _, "") events [] world) with after in Hrun.
  assert (fst after = reverse (zip events [false; false; true; false; true; true])) as Hlog by (by vm_compute).
  destruct after as [log w]. simpl in *. destruct Hrun as (Hmir & Hlast & _).
  split; [exact Hmir|]. subst log. split.
  - by apply (Hlast ("ann", OnUser "bob", "kind") true).
  - by apply (Hlast ("cat", OnUser "bob", "kind") false).
Defined.
End Example_tags.
