(* ===== verification/TagViews.v ===== *)
(** * Tags as they are served

    The reads of [TagCollection] (nexus-common/src/models/tag/traits/collection.rs,
    traits/taggers.rs and details.rs, over the tag queries of db/graph/queries/get.rs): a page
    of a target's labels with some of their taggers and the viewer's own tag, from the index
    or else from the graph, which then fills the index; and the same through the viewer's
    web of trust, behind a cache. Tags.v and TagRuns.v have the writes. *)

From S2P Require Import Prelude Errors Ranges Reach.
Local Open Scope nexus_scope.
#[local] Remove Hints finite.finite_countable : typeclass_instances.

(** The order a server lists the members of a set in, SMEMBERS's and COLLECT's. *)
Class Listings := {
  listed : gset string → list string;
  listed_elements s : listed s ≡ₚ elements s;
}.

(** ** The graph *)

(** A target of tags: a user, or a post by author and id. *)
Definition Target : Type := string * option string.

Record Edge := { tagger : string; label : string; target : Target; edge_uri : option string }.

Record TagGraph := {
  users : gset string;
  posts : gset (string * string);
  tagged : list Edge;
  follows : gset (string * string);
}.

Definition target_exists (g : TagGraph) (t : Target) : Prop :=
  fst t ∈ users g ∧ match snd t with Some p => (fst t, p) ∈ posts g | None => True end.

#[export] Instance target_exists_dec g t : Decision (target_exists g t).
Proof. unfold target_exists. destruct (snd t); apply _. Defined.

Definition edges_on (g : TagGraph) (t : Target) : list Edge := filter (λ e, target e = t) (tagged g).

Definition labels_on (g : TagGraph) (t : Target) : gset string := list_to_set (label <$> edges_on g t).

Definition taggers_on (g : TagGraph) (t : Target) (l : string) : gset string :=
  list_to_set (tagger <$> filter (λ e, label e = l) (edges_on g t)).

(** The addresses of a viewer's tags for a label. *)
Definition uris_on (g : TagGraph) (t : Target) (viewer l : string) : list string :=
  omap edge_uri (filter (λ e, label e = l ∧ tagger e = viewer) (edges_on g t)).

Definition min_uri (uris : list string) : option string := head (merge_sort str_le uris).

Record TagDetails := {
  tag_label : string;
  taggers : list string;
  taggers_count : nat;
  relationship : bool;
  tag_uri : option string;
}.

(** ** Pages *)

Definition MAX_TAG_PAGE : nat := 100.

Definition tag_page (skip_tags limit_tags limit_taggers : option nat) : nat * nat * nat :=
  (default 0 skip_tags, default 5 limit_tags `min` MAX_TAG_PAGE, default 5 limit_taggers `min` MAX_TAG_PAGE)%nat.

Definition taggers_page (p : Pagination) : nat * nat :=
  (default 0 (skip p), default 40 (limit p) `min` MAX_TAG_PAGE)%nat.

(** [TagDetails::from_index]; the labels of the scores that had no taggers read are the last. *)
Definition from_index (tag_scores : list (string * Z)) (taggers_list : list (option (list string * nat * bool))) :
    list (TagDetails * bool) :=
  omap (λ '((l, _), ts),
          '(ts, n, is_viewer_tagger) ← ts;
          Some ({| tag_label := l; taggers := ts; taggers_count := n; relationship := false; tag_uri := None |},
                is_viewer_tagger))
    (zip tag_scores taggers_list).

(** [TagDetails::process_tag_details] *)
Definition process_tag_details (tags : list TagDetails) : list (string * Z) * list (string * list string) :=
  ((λ d, (tag_label d, Z.of_nat (length (taggers d)))) <$> tags, (λ d, (tag_label d, taggers d)) <$> tags).

(** ** The stores *)

(** Sorted sets and sets by their whole key, and how the coming calls fare. *)
Record World := {
  graph : TagGraph;
  zsets : gmap string (gmap string Z);
  sets : gmap string (gset string);
  graph_trips : list (option Graph.GraphError);
  redis_trips : list (option Kv.RedisError);
}.

Definition M (E A : Type) : Type := prog World (result A E).

Definition query_graph {A} (f : TagGraph → A) : M Graph.GraphError A := λ w,
  let rest ts := {| graph := graph w; zsets := zsets w; sets := sets w; graph_trips := ts; redis_trips := redis_trips w |} in
  match graph_trips w with
  | [] => (Ok (f (graph w)), w)
  | None :: ts => (Ok (f (graph w)), rest ts)
  | Some e :: ts => (Err e, rest ts)
  end.

Definition with_redis (z : gmap string (gmap string Z)) (s : gmap string (gset string)) (w : World) : World :=
  {| graph := graph w; zsets := z; sets := s; graph_trips := graph_trips w; redis_trips := redis_trips w |}.

(** A call to Redis; one that fails has no effect. *)
Definition query_redis {A} (f : World → A) (upd : World → World) : M Kv.RedisError A := λ w,
  let rest ts w := {| graph := graph w; zsets := zsets w; sets := sets w; graph_trips := graph_trips w; redis_trips := ts |} in
  match redis_trips w with
  | [] => (Ok (f w), upd w)
  | None :: ts => (Ok (f w), rest ts (upd w))
  | Some e :: ts => (Err e, rest ts w)
  end.

Inductive TagKind := TagUser | TagPost.

(** [get_tag_prefix] and [RedisOps::prefix] *)
Definition get_tag_prefix (k : TagKind) : string :=
  match k with TagUser => "Users:Tag" | TagPost => "Posts:Tag" end.
Definition set_prefix (k : TagKind) : string :=
  match k with TagUser => "User:Taggers" | TagPost => "Post:Taggers" end.

Definition CACHE_SORTED_SET_PREFIX : string := "Cache:Sorted".
Definition CACHE_SET_PREFIX : string := "Cache".

(** [create_sorted_set_key_parts] joined, under the prefix. *)
Definition sorted_set_key (k : TagKind) (user_id : string) (extra : option string) (is_cache : bool) : string :=
  (if is_cache then CACHE_SORTED_SET_PREFIX else "Sorted") +:+ ":" +:+ get_tag_prefix k +:+ ":" +:+
  match extra, is_cache with
  | Some extra, true => extra +:+ ":" +:+ user_id
  | Some extra, false => user_id +:+ ":" +:+ extra
  | None, _ => user_id
  end.

(** [create_label_index] *)
Definition create_label_index (user_id : string) (extra : option string) (l : string) (is_cache : bool) : string :=
  match extra, is_cache with
  | Some extra, true => extra +:+ ":" +:+ user_id +:+ ":" +:+ l
  | Some extra, false => user_id +:+ ":" +:+ extra +:+ ":" +:+ l
  | None, _ => user_id +:+ ":" +:+ l
  end.

Definition set_key (k : TagKind) (is_cache : bool) (index : string) : string :=
  (if is_cache then CACHE_SET_PREFIX +:+ ":" else "") +:+ set_prefix k +:+ ":" +:+ index.

Section Collection.
Context `{Listings}.

(** ** The queries *)

Definition details_of (g : TagGraph) (t : Target) (viewer : option string) (l : string) : TagDetails :=
  let uri := v ← viewer; min_uri (uris_on g t v l) in
  {| tag_label := l; taggers := listed (taggers_on g t l); taggers_count := size (taggers_on g t l);
     relationship := bool_decide (is_Some uri); tag_uri := uri |}.

(** [post_tags] and [user_tags], read by [fetch_tag_details] *)
Definition tags_query (t : Target) (viewer : option string) (g : TagGraph) : option (list TagDetails) :=
  if decide (target_exists g t) then Some (details_of g t viewer <$> listed (labels_on g t)) else None.

(** [viewer_post_tag_uris] and [viewer_user_tag_uris] *)
Definition viewer_tag_uris_query (t : Target) (viewer : string) (labels : list string) (g : TagGraph) :
    gmap string string :=
  list_to_map (omap (λ l, pair l <$> min_uri (uris_on g t viewer l)) labels).

(** Who the viewer reaches in one to [depth] follows. *)
Fixpoint reached (depth : nat) (g : TagGraph) (from : gset string) : gset string :=
  match depth with
  | O => ∅
  | S depth =>
      let next := list_to_set (snd <$> filter (λ f, f.1 ∈ from) (elements (follows g))) in
      next ∪ reached depth g next
  end.

(** [get_viewer_trusted_network_tags] *)
Definition trusted_tags_query (user_id viewer : string) (depth : Z) (g : TagGraph) : option (list TagDetails) :=
  let t := (user_id, None) in
  if decide (user_id ∈ users g) then
    let network := if decide (viewer ∈ users g) then reached (Z.to_nat depth) g {[viewer]} ∖ {[viewer]} else ∅ in
    let trusted l := taggers_on g t l ∩ network in
    Some (omap (λ l, if decide (trusted l = ∅) then None
                     else let uri := head (uris_on g t viewer l) in
                          Some {| tag_label := l; taggers := listed (trusted l); taggers_count := size (trusted l);
                                  relationship := bool_decide (is_Some uri); tag_uri := uri |})
            (listed (labels_on g t)))
  else None.

Definition get_from_graph (user_id : string) (extra viewer : option string) (depth : option Z) :
    M Graph.GraphError (option (list TagDetails)) :=
  query_graph (match depth with
               | Some depth => trusted_tags_query user_id (default "" viewer) depth
               | None => tags_query (user_id, extra) viewer
               end).

(** ** The index *)

(** [try_from_index_sorted_set], descending *)
Definition try_from_index_sorted_set (key : string) (sk li : nat) : M Kv.RedisError (option (list (string * Z))) :=
  query_redis (λ w, z ← zsets w !! key; Some (take li (drop sk (rev_range None None z)))) id.

(** [set_details] of what SMEMBERS answers; nothing for no key. *)
Definition set_details (member : option string) (li : nat) (s : option (gset string)) : option (list string * nat * bool) :=
  s ← s;
  let all := listed s in
  match all with
  | [] => None
  | _ => Some (take li all, length all, match member with Some m => bool_decide (m ∈ all) | None => false end)
  end.

Definition try_from_multiple_sets (keys : list string) (member : option string) (li : nat) :
    M Kv.RedisError (list (option (list string * nat * bool))) :=
  query_redis (λ w, (λ key, set_details member li (sets w !! key)) <$> keys) id.

(** Whether each set is there, and has the member. *)
Definition check_set_member_multiple (keys : list string) (member : string) : M Kv.RedisError (list (bool * bool)) :=
  query_redis (λ w, (λ key, match sets w !! key with
                            | Some s => (true, bool_decide (member ∈ s))
                            | None => (false, false)
                            end) <$> keys) id.

Definition get_from_index_with_viewer_flags (k : TagKind) (user_id : string) (extra viewer : option string)
    (skip_tags limit_tags limit_taggers : option nat) (is_cache : bool) :
    M Kv.RedisError (option (list (TagDetails * bool))) :=
  let '(sk, li, li_taggers) := tag_page skip_tags limit_tags limit_taggers in
  let? found := try_from_index_sorted_set (sorted_set_key k user_id extra is_cache) sk li in
  match found with
  | None => ret (Ok None)
  | Some tag_scores =>
      let scored := filter (λ e : string * Z, 1 ≤ e.2)%Z tag_scores in
      let keys := (λ e, set_key k is_cache (create_label_index user_id extra e.1 is_cache)) <$> scored in
      if decide (keys = []) then ret (Ok (Some []))
      else
        let? ts := try_from_multiple_sets keys viewer li_taggers in
        ret (Ok (Some (from_index tag_scores ts)))
  end.

(** ZADD of the scores, then one pipeline of SADDs. *)
Definition put_to_index (k : TagKind) (user_id : string) (extra : option string) (tags : list TagDetails)
    (is_cache : bool) : M Kv.RedisError unit :=
  let '(tag_scores, label_taggers) := process_tag_details tags in
  let zkey := sorted_set_key k user_id extra is_cache in
  let add_members (s : gmap string (gset string)) '(l, ts) :=
    match ts with
    | [] => s
    | _ => let key := set_key k is_cache (create_label_index user_id extra l is_cache) in
           <[key := default ∅ (s !! key) ∪ list_to_set ts]> s
    end in
  let? _ := (if decide (tag_scores = []) then ret (Ok tt)
             else query_redis (λ _, tt) (λ w,
               with_redis (<[zkey := foldl (λ z e, <[e.1 := e.2]> z) (default ∅ (zsets w !! zkey)) tag_scores]> (zsets w))
                 (sets w) w)) in
  if decide (Forall (λ lt : string * list string, lt.2 = []) label_taggers) then ret (Ok tt)
  else query_redis (λ _, tt) (λ w, with_redis (zsets w) (foldl add_members (sets w) label_taggers) w).

(** ** The viewer's own tags *)

Definition viewer_tag_uris (user_id : string) (extra : option string) (viewer : string) (labels : list string) :
    M Graph.GraphError (gmap string string) :=
  match labels with
  | [] => ret (Ok ∅)
  | _ => query_graph (viewer_tag_uris_query (user_id, extra) viewer labels)
  end.

(** Labels the index rules out are not read. *)
Definition flagged_viewer_tag_uris (user_id : string) (extra : option string) (viewer : string)
    (labels : list (string * option bool)) : M Graph.GraphError (gmap string string) :=
  viewer_tag_uris user_id extra viewer (fst <$> filter (λ lf, lf.2 ≠ Some false) labels).

Fixpoint set_uris (uris : gmap string string) (tags : list TagDetails) : list TagDetails :=
  match tags with
  | [] => []
  | d :: tags =>
      let uri := uris !! tag_label d in
      {| tag_label := tag_label d; taggers := taggers d; taggers_count := taggers_count d;
         relationship := bool_decide (is_Some uri); tag_uri := uri |} :: set_uris (delete (tag_label d) uris) tags
  end.

Definition with_viewer_tag_uris (user_id : string) (extra viewer : option string)
    (tags : list (TagDetails * option bool)) : M Graph.GraphError (list TagDetails) :=
  let? uris := match viewer with
               | Some v => flagged_viewer_tag_uris user_id extra v ((λ tf, (tag_label tf.1, tf.2)) <$> tags)
               | None => ret (Ok ∅)
               end in
  ret (Ok (set_uris uris (fst <$> tags))).

(** ** [get_by_id] *)

Definition wot_tags (k : TagKind) (user_id viewer : string) (depth : Z)
    (skip_tags limit_tags limit_taggers : option nat) : M Model.ModelError (option (list TagDetails)) :=
  let? found := emap_err Model.KvOperationFailed
    (get_from_index_with_viewer_flags k user_id (Some viewer) (Some viewer) skip_tags limit_tags limit_taggers true) in
  match found with
  | Some tags =>
      let tag_details := fst <$> tags in
      let keys := (λ d, set_key k false (create_label_index user_id None (tag_label d) false)) <$> tag_details in
      let? membership := emap_err Model.KvOperationFailed (check_set_member_multiple keys viewer) in
      let flagged := zip_with (λ d '((exists_, is_member) : bool * bool), (d, if exists_ then Some is_member else None))
                       tag_details membership in
      let? tags := emap_err Model.GraphOperationFailed (with_viewer_tag_uris user_id None (Some viewer) flagged) in
      ret (Ok (Some tags))
  | None =>
      let? graph_response := emap_err Model.GraphOperationFailed (get_from_graph user_id None (Some viewer) (Some depth)) in
      match graph_response with
      | Some tag_details =>
          let? _ := (if decide (tag_details = []) then ret (Ok tt)
                     else emap_err Model.KvOperationFailed (put_to_index k user_id (Some viewer) tag_details true)) in
          ret (Ok (Some tag_details))
      | None => ret (Ok None)
      end
  end.

(** The global tags of a user or post. *)
Definition global_tags (k : TagKind) (user_id : string) (extra : option string)
    (skip_tags limit_tags limit_taggers : option nat) (viewer : option string) :
    M Model.ModelError (option (list TagDetails)) :=
  let? found := emap_err Model.KvOperationFailed
    (get_from_index_with_viewer_flags k user_id extra viewer skip_tags limit_tags limit_taggers false) in
  match found with
  | Some tags =>
      let? tags := emap_err Model.GraphOperationFailed
        (with_viewer_tag_uris user_id extra viewer ((λ tf, (tf.1, Some tf.2)) <$> tags)) in
      ret (Ok (Some tags))
  | None =>
      let? graph_response := emap_err Model.GraphOperationFailed (get_from_graph user_id extra viewer None) in
      match graph_response with
      | Some tag_details =>
          let? _ := emap_err Model.KvOperationFailed (put_to_index k user_id extra tag_details false) in
          ret (Ok (Some tag_details))
      | None => ret (Ok None)
      end
  end.

Definition get_by_id (k : TagKind) (user_id : string) (extra : option string)
    (skip_tags limit_tags limit_taggers : option nat) (viewer : option string) (depth : option Z) :
    M Model.ModelError (option (list TagDetails)) :=
  match viewer, depth with
  | Some v, Some depth => wot_tags k user_id v depth skip_tags limit_tags limit_taggers
  | _, _ => global_tags k user_id extra skip_tags limit_tags limit_taggers viewer
  end.

(** [TaggersCollection::get_tagger_by_id]; a set is listed as a whole and then cut. *)
Definition get_tagger_by_id (k : TagKind) (user_id : string) (extra : option string) (l : string)
    (pagination : Pagination) (viewer : option string) (depth : option Z) :
    M Model.ModelError (list string * option string) :=
  let '(sk, li) := taggers_page pagination in
  let is_wot := bool_decide (is_Some viewer ∧ is_Some depth ∧ extra = None) in
  let '(key_param, member) := if is_wot then (viewer, None) else (extra, viewer) in
  let key := set_key k is_wot (create_label_index user_id key_param l is_wot) in
  let? ts := emap_err Model.KvOperationFailed
    (query_redis (λ w, take li (drop sk (listed (default ∅ (sets w !! key))))) id) in
  let member_of key v : M Model.ModelError (bool * bool) :=
    let? found := emap_err Model.KvOperationFailed (check_set_member_multiple [key] v) in
    ret (Ok (default (false, false) (head found))) in
  let? is_member := match member with
                    | Some v => let? found := member_of key v in ret (Ok (snd found))
                    | None => ret (Ok false)
                    end in
  let? uri := match viewer with
              | None => ret (Ok None)
              | Some v =>
                  let? is_viewer_tagger :=
                    (if is_wot then
                       let? found := member_of (set_key k false (create_label_index user_id extra l false)) v in
                       ret (Ok (if fst found then Some (snd found) else None))
                     else ret (Ok (Some is_member))) in
                  let? uris := emap_err Model.GraphOperationFailed
                    (flagged_viewer_tag_uris user_id extra v [(l, is_viewer_tagger)]) in
                  ret (Ok (uris !! l))
              end in
  ret (Ok (ts, uri)).

(** [TagCollection::reindex] *)
Definition reindex (k : TagKind) (author_id : string) (extra : option string) : M Model.ModelError unit :=
  let? found := emap_err Model.GraphOperationFailed (get_from_graph author_id extra None None) in
  match found with
  | Some tags => emap_err Model.KvOperationFailed (put_to_index k author_id extra tags false)
  | None => ret (Ok tt)
  end.

(** ** What the index is to hold *)

Definition scores (g : TagGraph) (t : Target) : gmap string Z :=
  set_to_map (λ l, (l, Z.of_nat (size (taggers_on g t l)))) (labels_on g t).

Definition taggers_key (k : TagKind) (t : Target) (l : string) : string :=
  set_key k false (create_label_index (fst t) (snd t) l false).

(** The index of a target says what the graph does, labels nobody uses any more (their score
    is nought or less) aside; without its sorted set it is not yet filled, and holds no more
    than the graph. *)
Definition mirrored (k : TagKind) (t : Target) (w : World) : Prop :=
  match zsets w !! sorted_set_key k (fst t) (snd t) false with
  | Some z => (∀ l n, (1 ≤ n)%Z → z !! l = Some n ↔ scores (graph w) t !! l = Some n)
      ∧ ∀ l, l ∈ labels_on (graph w) t → sets w !! taggers_key k t l = Some (taggers_on (graph w) t l)
  | None => ∀ l, default ∅ (sets w !! taggers_key k t l) ⊆ taggers_on (graph w) t l
  end.

(** A tag as served: some of the taggers, all of them counted, the viewer's own address. *)
Definition tells (g : TagGraph) (t : Target) (viewer : option string) (d : TagDetails) : Prop :=
  tag_label d ∈ labels_on g t
  ∧ taggers d ⊆+ elements (taggers_on g t (tag_label d))
  ∧ taggers_count d = size (taggers_on g t (tag_label d))
  ∧ tag_uri d = (v ← viewer; min_uri (uris_on g t v (tag_label d)))
  ∧ relationship d = bool_decide (is_Some (tag_uri d)).

Definition same (w w' : World) : Prop := graph w' = graph w ∧ zsets w' = zsets w ∧ sets w' = sets w.

Lemma query_graph_same {A} (f : TagGraph → A) w :
  yields (query_graph f) w (λ a w', a = f (graph w) ∧ same w w') (λ _ _, True).
Proof. unfold yields, query_graph, same. by destruct (graph_trips w) as [|[e|] ts]. Qed.

Lemma query_redis_writes {A} (f : World → A) upd w :
  yields (query_redis f upd) w (λ a w', a = f w ∧ graph w' = graph (upd w) ∧ zsets w' = zsets (upd w)
    ∧ sets w' = sets (upd w)) (λ _ _, True).
Proof. unfold yields, query_redis. by destruct (redis_trips w) as [|[e|] ts]. Qed.

Lemma query_redis_same {A} (f : World → A) w : yields (query_redis f id) w (λ a w', a = f w ∧ same w w') (λ _ _, True).
Proof. unfold yields, query_redis, same. by destruct (redis_trips w) as [|[e|] ts]. Qed.

(** *** Labels and their keys *)

Lemma create_label_index_inj u x l l' : create_label_index u x l false = create_label_index u x l' false → l = l'.
Proof. unfold create_label_index. intros Heq. destruct x; repeat apply str_app_inj_l in Heq; done. Qed.

Lemma taggers_key_inj k t l l' : taggers_key k t l = taggers_key k t l' → l = l'.
Proof. unfold taggers_key, set_key. intros Heq. repeat apply str_app_inj_l in Heq. by apply create_label_index_inj in Heq. Qed.

Lemma elem_of_labels_on g t l : l ∈ labels_on g t ↔ ∃ e, e ∈ tagged g ∧ target e = t ∧ label e = l.
Proof.
  unfold labels_on, edges_on. rewrite elem_of_list_to_set, list_elem_of_fmap. setoid_rewrite list_elem_of_filter. naive_solver.
Qed.

Lemma elem_of_taggers_on g t l u :
  u ∈ taggers_on g t l ↔ ∃ e, e ∈ tagged g ∧ target e = t ∧ label e = l ∧ tagger e = u.
Proof.
  unfold taggers_on, edges_on. rewrite elem_of_list_to_set, list_elem_of_fmap. setoid_rewrite list_elem_of_filter.
  setoid_rewrite list_elem_of_filter. naive_solver.
Qed.

Lemma label_has_tagger g t l : l ∈ labels_on g t ↔ taggers_on g t l ≠ ∅.
Proof.
  rewrite elem_of_labels_on. split.
  - intros (e & He & Ht & Hl) Hempty. apply (not_elem_of_empty (C := gset string) (tagger e)). rewrite <- Hempty.
    apply elem_of_taggers_on. eauto.
  - intros [u Hu]%set_choose_L. apply elem_of_taggers_on in Hu as (e & ? & ? & ? & _). eauto.
Qed.

(** Who has not tagged has no address. *)
Lemma no_tag_no_uri g t v l : v ∉ taggers_on g t l → uris_on g t v l = [].
Proof.
  intros Hv. unfold uris_on. destruct (filter _ (edges_on g t)) as [|e es] eqn:Hes; [done|]. exfalso. apply Hv.
  assert (e ∈ filter (λ e, label e = l ∧ tagger e = v) (edges_on g t)) as He by (rewrite Hes; by left).
  unfold edges_on in He. rewrite !list_elem_of_filter in He. apply elem_of_taggers_on. naive_solver.
Qed.

Lemma scores_lookup g t l n : scores g t !! l = Some n ↔ l ∈ labels_on g t ∧ n = Z.of_nat (size (taggers_on g t l)).
Proof.
  unfold scores. rewrite lookup_set_to_map by done. split.
  - intros (l' & Hl' & [= -> <-]). done.
  - intros [Hl ->]. eauto.
Qed.

Lemma scores_positive g t l n : scores g t !! l = Some n → (1 ≤ n)%Z.
Proof.
  intros [Hl%label_has_tagger ->]%scores_lookup. assert (size (taggers_on g t l) ≠ 0)%nat; [|lia].
  intros Hz. by apply Hl, leibniz_equiv, size_empty_iff.
Qed.

(** ** A page from the index *)

Definition indexed (g : TagGraph) (t : Target) (viewer : option string) (li : nat) (l : string) : TagDetails * bool :=
  ({| tag_label := l; taggers := take li (listed (taggers_on g t l)); taggers_count := size (taggers_on g t l);
      relationship := false; tag_uri := None |},
   match viewer with Some v => bool_decide (v ∈ taggers_on g t l) | None => false end).

Lemma length_listed s : length (listed s) = size s.
Proof. by rewrite listed_elements. Qed.

Lemma set_details_some viewer li (s : gset string) :
  s ≠ ∅ → set_details viewer li (Some s)
    = Some (take li (listed s), size s, match viewer with Some v => bool_decide (v ∈ s) | None => false end).
Proof.
  intros Hs. unfold set_details. simpl. destruct (listed s) as [|x xs] eqn:Hl.
  - exfalso. apply Hs, leibniz_equiv, size_empty_iff. by rewrite <- length_listed, Hl.
  - rewrite <- Hl. rewrite length_listed. do 2 f_equal. destruct viewer as [v|]; [|done].
    apply bool_decide_ext. by rewrite listed_elements, elem_of_elements.
Qed.

Lemma from_index_indexed g t viewer li (es : list (string * Z)) :
  (∀ e, e ∈ es → e.1 ∈ labels_on g t) →
  from_index es ((λ e, set_details viewer li (Some (taggers_on g t e.1))) <$> es) = (λ e, indexed g t viewer li e.1) <$> es.
Proof.
  intros Hes. unfold from_index. induction es as [|[l n] es IH]; [done|].
  cbn [fmap list_fmap zip zip_with omap list_omap]. rewrite set_details_some.
  - simpl. f_equal. apply IH. intros e He. apply Hes. by right.
  - apply label_has_tagger, (Hes (l, n)). by left.
Qed.

Definition score_page (g : TagGraph) (t : Target) (sk li : nat) : list (string * Z) :=
  take li (drop sk (rev_range None None (scores g t))).

Lemma score_page_elem g t sk li e : e ∈ score_page g t sk li → e.1 ∈ labels_on g t ∧ (1 ≤ e.2)%Z.
Proof.
  intros He. assert (e ∈ rev_range None None (scores g t)) as Hin.
  { eapply elem_of_sublist; [exact He|]. etrans; [apply sublist_take|apply sublist_drop]. }
  destruct e as [l n]. apply elem_of_rev_range in Hin as [_ Hn]. split; [by apply scores_lookup in Hn as [? _]|].
  by apply scores_positive in Hn.
Qed.

Lemma filter_all {A} (P : A → Prop) `{∀ x, Decision (P x)} (l : list A) : Forall P l → filter P l = l.
Proof. induction 1 as [|x l Hx _ IH]; [done|]. by rewrite filter_cons, decide_True, IH. Qed.

Lemma filter_none {A} (P : A → Prop) `{∀ x, Decision (P x)} (l : list A) : Forall (λ x, ¬ P x) l → filter P l = [].
Proof. induction 1 as [|x l Hx _ IH]; [done|]. by rewrite filter_cons, decide_False, IH. Qed.

(** The labels in use come before those nobody uses. *)
Lemma counted_first (l : list (string * Z)) :
  StronglySorted rank_ge l →
  ∃ rest, l = filter (λ e, 1 ≤ e.2)%Z l ++ rest ∧ Forall (λ e, ¬ 1 ≤ e.2)%Z rest.
Proof.
  induction 1 as [|e l Hl (rest & IH & Hrest) Hall]; [by exists []|]. rewrite filter_cons.
  case_decide as He; [exists rest; split; [by rewrite IH at 1|done]|].
  assert (Forall (λ e, ¬ 1 ≤ e.2)%Z l) as Hlow.
  { eapply Forall_impl; [exact Hall|]. unfold rank_ge. intros e' [?|[? _]]; lia. }
  exists (e :: l). split; [|by constructor]. by rewrite (filter_none _ l Hlow).
Qed.

Lemma stored_page g t z sk li :
  (∀ l n, (1 ≤ n)%Z → z !! l = Some n ↔ scores g t !! l = Some n) →
  ∃ rest, take li (drop sk (rev_range None None z)) = score_page g t sk li ++ rest
          ∧ Forall (λ e, ¬ 1 ≤ e.2)%Z rest.
Proof.
  intros Hz. destruct (counted_first _ (rev_range_sorted None None z)) as (rest & Heq & Hrest).
  assert (filter (λ e, 1 ≤ e.2)%Z (rev_range None None z) = rev_range None None (scores g t)) as Hcounted.
  { change (filter (λ e, 1 ≤ e.2)%Z (filter (within None None) (merge_sort rank_ge (map_to_list z)))
      = rev_range None None (scores g t)).
    apply ranked_unique; [|apply rev_range_sorted|].
    - eapply StronglySorted_sublist; [apply sublist_filter|apply (rev_range_sorted None None)].
    - apply NoDup_Permutation; [apply NoDup_filter, (rev_range_NoDup None None)|apply rev_range_NoDup|].
      intros [l n]. rewrite list_elem_of_filter. fold (rev_range None None z). rewrite !elem_of_rev_range. simpl. split.
      + intros (Hn & Hw & Hl). split; [done|]. by apply Hz.
      + intros [Hw Hl]. pose proof (scores_positive _ _ _ _ Hl). split; [done|]. split; [done|]. by apply Hz. }
  rewrite Heq, Hcounted, drop_app, take_app. eexists. split; [reflexivity|].
  by apply Forall_take, Forall_drop.
Qed.

Lemma from_index_counted (es rest : list (string * Z)) ts :
  length ts = length es → from_index (es ++ rest) ts = from_index es ts.
Proof.
  unfold from_index. intros Hlen. f_equal. revert ts Hlen.
  induction es as [|e es IH]; intros [|x ts] Hlen; try done; [by destruct rest|].
  simpl. f_equal. apply IH. by injection Hlen.
Qed.

Lemma index_page k t viewer a b c w z :
  mirrored k t w → zsets w !! sorted_set_key k (fst t) (snd t) false = Some z →
  yields (get_from_index_with_viewer_flags k (fst t) (snd t) viewer a b c false) w
    (λ r w', let '(sk, li, lt) := tag_page a b c in
       same w w' ∧ r = Some ((λ e, indexed (graph w) t viewer lt e.1) <$> score_page (graph w) t sk li))
    (λ _ _, True).
Proof.
  intros Hm Hz. unfold mirrored in Hm. rewrite Hz in Hm. destruct Hm as [Hscores Hsets].
  unfold get_from_index_with_viewer_flags, tag_page. set (sk := default 0 a). set (li := (default 5 b `min` _)%nat).
  set (lt := (default 5 c `min` _)%nat).
  apply yields_ebind. eapply yields_mono; [apply query_redis_same| |done].
  intros r w1 [-> Hs]. rewrite Hz. cbn [mbind option_bind].
  destruct (stored_page (graph w) t z sk li Hscores) as (rest & -> & Hrest).
  assert (Forall (λ e : string * Z, 1 ≤ e.2)%Z (score_page (graph w) t sk li)) as Hpos
    by (apply Forall_forall; intros e He; by apply score_page_elem in He as [_ ?]).
  rewrite filter_app, (filter_all _ _ Hpos), (filter_none _ rest Hrest), app_nil_r. case_decide as Hkeys.
  - apply yields_ret. split; [done|]. apply fmap_nil_inv in Hkeys. by rewrite Hkeys.
  - apply yields_ebind. eapply yields_mono; [apply query_redis_same| |done].
    intros ts w2 [-> Hs2]. apply yields_ret. split; [unfold same in *; destruct_and!; split_and!; congruence|].
    f_equal. rewrite from_index_counted by (by rewrite !length_fmap).
    rewrite <- (from_index_indexed (graph w) t viewer lt) by (intros e He; by apply score_page_elem in He as [? _]).
    f_equal. rewrite <- list_fmap_compose. apply list_fmap_ext. intros i e He. simpl.
    change (set_key k false (create_label_index (fst t) (snd t) e.1 false)) with (taggers_key k t e.1).
    apply list_elem_of_lookup_2 in He. destruct Hs as (_ & _ & ->).
    by rewrite Hsets by (by apply score_page_elem in He as [? _]).
Qed.

(** ** The viewer's addresses *)

Definition with_uri (uri : option string) (d : TagDetails) : TagDetails :=
  {| tag_label := tag_label d; taggers := taggers d; taggers_count := taggers_count d;
     relationship := bool_decide (is_Some uri); tag_uri := uri |}.

Lemma set_uris_each uris tags :
  NoDup (tag_label <$> tags) → set_uris uris tags = (λ d, with_uri (uris !! tag_label d) d) <$> tags.
Proof.
  intros Hnd. revert uris. induction tags as [|d tags IH]; intros uris; [done|].
  apply NoDup_cons in Hnd as [Hd Hnd]. simpl. unfold with_uri at 1. f_equal. rewrite IH by done.
  apply list_fmap_ext. intros i d' Hd'. rewrite lookup_delete_ne; [done|].
  intros Heq. apply Hd. rewrite Heq. apply list_elem_of_fmap. exists d'. split; [done|]. by eapply list_elem_of_lookup_2.
Qed.

Lemma list_to_map_omap {A} (f : string → option A) ls l :
  (list_to_map (omap (λ l, pair l <$> f l) ls) : gmap string A) !! l = if decide (l ∈ ls) then f l else None.
Proof.
  induction ls as [|l' ls IH]; [done|]. simpl. destruct (decide (l = l')) as [->|Hne].
  - rewrite (decide_True (P := l' ∈ l' :: ls)) by by left.
    destruct (f l') as [u|] eqn:Hu; simpl; [by rewrite lookup_insert_eq|]. etrans; [exact IH|]. by case_decide.
  - rewrite (decide_ext (l ∈ l' :: ls) (l ∈ ls)) by (rewrite elem_of_cons; tauto).
    destruct (f l'); simpl; [rewrite lookup_insert_ne by done|]; exact IH.
Qed.

Lemma viewer_uri_lookup g t v labels l :
  viewer_tag_uris_query t v labels g !! l = if decide (l ∈ labels) then min_uri (uris_on g t v l) else None.
Proof. apply (list_to_map_omap (λ l, min_uri (uris_on g t v l))). Qed.

Lemma viewer_tag_uris_read u x v labels w :
  yields (viewer_tag_uris u x v labels) w
    (λ uris w', same w w' ∧ ∀ l, uris !! l = if decide (l ∈ labels) then min_uri (uris_on (graph w) (u, x) v l) else None)
    (λ _ _, True).
Proof.
  unfold viewer_tag_uris. destruct labels as [|l labels].
  - apply yields_ret. split; [done|]. intros l. by rewrite decide_False by apply not_elem_of_nil.
  - eapply yields_mono; [apply query_graph_same| |done]. intros uris w' [-> Hs]. split; [done|].
    intros l'. apply viewer_uri_lookup.
Qed.

(** Labels the index says the viewer has not tagged are rightly not read. *)
Lemma page_with_uris t viewer lt (ls : list string) w :
  NoDup ls →
  yields (with_viewer_tag_uris (fst t) (snd t) viewer
      ((λ tf, (tf.1, Some tf.2)) <$> ((λ l, indexed (graph w) t viewer lt l) <$> ls))) w
    (λ tags w', same w w' ∧ tags = (λ l, with_uri (v ← viewer; min_uri (uris_on (graph w) t v l))
                                    (fst (indexed (graph w) t viewer lt l))) <$> ls)
    (λ _ _, True).
Proof.
  intros Hnd. unfold with_viewer_tag_uris.
  assert (fst <$> ((λ tf : TagDetails * bool, (tf.1, Some tf.2)) <$> ((λ l, indexed (graph w) t viewer lt l) <$> ls))
    = (λ l, fst (indexed (graph w) t viewer lt l)) <$> ls) as Hfst by by rewrite <- !list_fmap_compose.
  rewrite Hfst. assert (NoDup (tag_label <$> ((λ l, fst (indexed (graph w) t viewer lt l)) <$> ls))) as Hnd'
    by (rewrite <- list_fmap_compose; by rewrite (list_fmap_ext _ id ls), list_fmap_id).
  apply yields_ebind. destruct viewer as [v|].
  - eapply yields_mono; [apply viewer_tag_uris_read| |done].
    intros uris w1 [Hs Huris]. apply yields_ret. split; [done|]. rewrite set_uris_each by done.
    rewrite <- list_fmap_compose. apply list_fmap_ext. intros i l Hl. simpl. f_equal. rewrite Huris.
    destruct t as [u x]. simpl in *. case_decide as Hin; [done|].
    destruct (decide (v ∈ taggers_on (graph w) (u, x) l)) as [Hv|Hv]; [|by rewrite (no_tag_no_uri _ _ _ _ Hv)].
    exfalso. apply Hin. apply list_elem_of_fmap. exists (l, Some true). split; [done|]. apply list_elem_of_filter.
    split; [done|]. rewrite <- !list_fmap_compose. apply list_elem_of_fmap. exists l. simpl. rewrite bool_decide_eq_true_2 by done.
    split; [done|]. by eapply list_elem_of_lookup_2.
  - apply yields_ret. apply yields_ret. split; [done|]. rewrite set_uris_each by done. rewrite <- list_fmap_compose.
    apply list_fmap_ext. intros i l Hl. simpl. by rewrite lookup_empty.
Qed.

(** ** Filling the index *)

Lemma foldl_insert_each {A} (h : string → A) ls (z : gmap string A) l :
  foldl (λ z e, <[e.1 := e.2]> z) z ((λ l, (l, h l)) <$> ls) !! l = if decide (l ∈ ls) then Some (h l) else z !! l.
Proof.
  revert z. induction ls as [|l' ls IH]; intros z; [done|]. cbn [fmap list_fmap foldl fst snd]. rewrite IH.
  destruct (decide (l = l')) as [->|Hne].
  - rewrite (decide_True (P := l' ∈ l' :: ls)), lookup_insert_eq by by left. by case_decide.
  - rewrite lookup_insert_ne by done. by rewrite (decide_ext (l ∈ l' :: ls) (l ∈ ls)) by (rewrite elem_of_cons; tauto).
Qed.

Lemma listed_set s : list_to_set (listed s) = s.
Proof. apply leibniz_equiv. intros u. by rewrite elem_of_list_to_set, listed_elements, elem_of_elements. Qed.

(** One label's SADD, of taggers the set holds no more than. *)
Definition add_taggers (k : TagKind) (t : Target) (s : gmap string (gset string)) (lt : string * list string) :
    gmap string (gset string) :=
  let '(l, ts) := lt in
  match ts with
  | [] => s
  | _ => let key := set_key k false (create_label_index (fst t) (snd t) l false) in
         <[key := default ∅ (s !! key) ∪ list_to_set ts]> s
  end.

Lemma add_taggers_lookup k t s l (ts : gset string) l' :
  default ∅ (s !! taggers_key k t l) ⊆ ts → ts ≠ ∅ →
  add_taggers k t s (l, listed ts) !! taggers_key k t l' = if decide (l' = l) then Some ts else s !! taggers_key k t l'.
Proof.
  intros Hsub Hne. unfold add_taggers. destruct (listed ts) as [|u us] eqn:Hl.
  { exfalso. apply Hne. by rewrite <- (listed_set ts), Hl. }
  rewrite <- Hl, listed_set. change (set_key k false _) with (taggers_key k t l). case_decide as Hll.
  - subst l'. rewrite lookup_insert_eq. f_equal. set_solver.
  - rewrite lookup_insert_ne; [done|]. intros Heq%taggers_key_inj. by subst.
Qed.

Lemma add_all_taggers g k t ls (s : gmap string (gset string)) :
  (∀ l, l ∈ ls → l ∈ labels_on g t) → (∀ l, default ∅ (s !! taggers_key k t l) ⊆ taggers_on g t l) →
  ∀ l, foldl (add_taggers k t) s ((λ l, (l, listed (taggers_on g t l))) <$> ls) !! taggers_key k t l
    = if decide (l ∈ ls) then Some (taggers_on g t l) else s !! taggers_key k t l.
Proof.
  revert s. induction ls as [|l0 ls IH]; intros s Hls Hs l; [done|]. cbn [fmap list_fmap foldl].
  assert (taggers_on g t l0 ≠ ∅) as Hne by (apply label_has_tagger, Hls; by left).
  pose proof (add_taggers_lookup k t s l0 (taggers_on g t l0)) as Hadd. specialize (λ l', Hadd l' (Hs l0) Hne). rewrite IH.
  - rewrite Hadd. destruct (decide (l = l0)) as [->|Hne0].
    + rewrite (decide_True (P := l0 ∈ l0 :: ls)) by by left. by case_decide.
    + by rewrite (decide_ext (l ∈ l0 :: ls) (l ∈ ls)) by (rewrite elem_of_cons; tauto).
  - intros l' Hl'. apply Hls. by right.
  - intros l'. rewrite Hadd. case_decide; [by subst|apply Hs].
Qed.

Lemma foldl_ext' {A B} (f g : A → B → A) l a : (∀ a b, f a b = g a b) → foldl f a l = foldl g a l.
Proof. intros Hfg. revert a. induction l as [|b l IH]; intros a; simpl; [done|]. by rewrite Hfg, IH. Qed.

Lemma filled k t viewer w :
  mirrored k t w → zsets w !! sorted_set_key k (fst t) (snd t) false = None →
  yields (put_to_index k (fst t) (snd t) (details_of (graph w) t viewer <$> listed (labels_on (graph w) t)) false) w
    (λ _ w', graph w' = graph w ∧ mirrored k t w') (λ _ _, True).
Proof.
  intros Hm Hz. pose proof Hm as Hsub. unfold mirrored in Hsub. rewrite Hz in Hsub.
  unfold put_to_index, process_tag_details. rewrite <- !list_fmap_compose.
  set (ls := listed (labels_on (graph w) t)).
  assert (∀ l, l ∈ ls ↔ l ∈ labels_on (graph w) t) as Hls by (intros l; unfold ls; by rewrite listed_elements, elem_of_elements).
  destruct (decide (ls = [])) as [Hnil|Hne]; [rewrite Hnil; by apply yields_ebind, yields_ret, yields_ret|].
  rewrite decide_False by (by intros ?%fmap_nil_inv).
  apply yields_ebind. eapply yields_mono; [apply query_redis_writes| |done].
  intros [] w1 (_ & Hg1 & Hz1 & Hs1). simpl in Hg1, Hz1, Hs1. rewrite Hz in Hz1. simpl in Hz1.
  assert (∀ l, l ∈ ls → taggers_on (graph w) t l ≠ ∅) as Hfull by (intros l ?%Hls; by apply label_has_tagger).
  rewrite decide_False.
  2:{ intros Hall. destruct ls as [|l ls']; [done|]. apply Forall_cons in Hall as [Hl _]. simpl in Hl.
      apply (Hfull l); [by left|]. by rewrite <- (listed_set (taggers_on _ _ _)), Hl. }
  eapply yields_mono; [apply query_redis_writes| |done].
  intros [] w2 (_ & Hg2 & Hz2 & Hs2). simpl in Hg2, Hz2, Hs2. rewrite Hg1 in Hg2. rewrite Hz1 in Hz2. rewrite Hs1 in Hs2.
  split; [done|]. unfold mirrored. rewrite Hz2, lookup_insert_eq, Hg2. split.
  - assert (∀ z, z = scores (graph w) t → ∀ l n, (1 ≤ n)%Z → z !! l = Some n ↔ scores (graph w) t !! l = Some n)
      as Hfilled by (by intros ? ->).
    apply Hfilled. clear Hfilled.
    apply map_eq. intros l.
    etrans; [apply (foldl_insert_each (λ l, Z.of_nat (length (listed (taggers_on (graph w) t l)))) ls ∅ l)|].
    rewrite lookup_empty, length_listed. symmetry. case_decide as Hl.
    + apply scores_lookup. split; [by apply Hls|done].
    + apply eq_None_not_Some. intros [n [Hn _]%scores_lookup]. by apply Hl, Hls.
  - intros l Hl. rewrite Hs2.
    rewrite (foldl_ext' _ (add_taggers k t)) by done.
    etrans; [apply (add_all_taggers (graph w) k t ls (sets w)); [by intros ? ?%Hls|done]|]. by rewrite decide_True by by apply Hls.
Qed.

(** ** What is served *)

Lemma details_tell g t viewer l : l ∈ labels_on g t → tells g t viewer (details_of g t viewer l).
Proof. intros Hl. unfold tells. simpl. split_and!; [done|by rewrite listed_elements|done..]. Qed.

Lemma indexed_tell g t viewer lt l :
  l ∈ labels_on g t → tells g t viewer (with_uri (v ← viewer; min_uri (uris_on g t v l)) (fst (indexed g t viewer lt l))).
Proof.
  intros Hl. unfold tells. simpl. split_and!; try done. rewrite <- listed_elements. apply submseteq_take.
Qed.

Lemma NoDup_score_page g t sk li : NoDup ((score_page g t sk li).*1).
Proof.
  eapply sublist_NoDup; [|apply fmap_sublist; etrans; [apply sublist_take|apply sublist_drop]].
  unfold rev_range. eapply sublist_NoDup; [|apply fmap_sublist, sublist_filter].
  rewrite merge_sort_Permutation. apply NoDup_fst_map_to_list.
Qed.

Lemma NoDup_listed s : NoDup (listed s).
Proof. rewrite listed_elements. apply NoDup_elements. Qed.

(** What an answer holds, by whether the sorted set was there. *)
Definition served (t : Target) (viewer : option string) (page : nat * nat) (filled : bool) (g : TagGraph)
    (r : option (list TagDetails)) : Prop :=
  match r with
  | None => ¬ target_exists g t
  | Some tags =>
      Forall (tells g t viewer) tags
      ∧ tag_label <$> tags = (if filled then (score_page g t (fst page) (snd page)).*1 else listed (labels_on g t))
      ∧ NoDup (tag_label <$> tags)
  end.

Lemma served_page k t viewer a b c w z :
  mirrored k t w → zsets w !! sorted_set_key k (fst t) (snd t) false = Some z →
  yields (global_tags k (fst t) (snd t) a b c viewer) w
    (λ r w', same w w' ∧ served t viewer (tag_page a b c).1 true (graph w) r) (λ _ _, True).
Proof.
  intros Hm Hz. unfold global_tags. apply yields_ebind, yields_emap_err. eapply yields_mono; [by eapply index_page| |done].
  intros r w1 Hr. unfold tag_page in Hr |- *.
  set (sk := default 0 a) in *. set (li := (default 5 b `min` _)%nat) in *. set (lt := (default 5 c `min` _)%nat) in *.
  destruct Hr as [(Hg & Hz1 & Hs1) ->]. apply yields_ebind, yields_emap_err.
  assert ((λ e : string * Z, indexed (graph w) t viewer lt e.1) <$> score_page (graph w) t sk li
    = (λ l, indexed (graph w) t viewer lt l) <$> (score_page (graph w) t sk li).*1) as -> by by rewrite <- list_fmap_compose.
  pose proof (page_with_uris t viewer lt ((score_page (graph w) t sk li).*1) w1 (NoDup_score_page _ _ _ _)) as Hpage.
  rewrite Hg in Hpage. eapply yields_mono; [exact Hpage| |done]. intros tags w2 [(? & ? & ?) ->]. apply yields_ret.
  split; [unfold same; split_and!; congruence|]. simpl.
  assert (∀ f : string → option string, tag_label <$> ((λ l, with_uri (f l) (fst (indexed (graph w) t viewer lt l)))
    <$> (score_page (graph w) t sk li).*1) = (score_page (graph w) t sk li).*1) as Hlabels
    by (intros f; rewrite <- list_fmap_compose; by rewrite (list_fmap_ext _ id _), list_fmap_id).
  rewrite Hlabels. split_and!; [|done|apply NoDup_score_page].
  apply Forall_fmap, Forall_forall. intros l Hl. apply indexed_tell. apply list_elem_of_fmap in Hl as (e & -> & He).
  by apply score_page_elem in He as [? _].
Qed.

Lemma served_from_graph g t viewer page : served t viewer page false g (tags_query t viewer g).
Proof.
  unfold served, tags_query. case_decide; [|done].
  assert (tag_label <$> (details_of g t viewer <$> listed (labels_on g t)) = listed (labels_on g t)) as Hl
    by (rewrite <- list_fmap_compose; by rewrite (list_fmap_ext _ id _), list_fmap_id).
  rewrite Hl. split_and!; [|done|apply NoDup_listed].
  apply Forall_fmap, Forall_forall. intros l Hin. apply details_tell. by rewrite listed_elements, elem_of_elements in Hin.
Qed.

(** C26: Where the index of a user or post is not yet filled or agrees with the graph
    ([mirrored]; labels nobody uses any more may linger in it), a read that is not of a web of
    trust serves the tags as the graph has them: each label once, with as many taggers counted
    as there are and some of them listed, and the address of the viewer's own tag exactly when
    they have one, though the graph is not asked about labels the index rules out. From a
    filled index that is the page of labels asked for; a read that finds none serves every
    label and fills it. The index agrees with the graph afterwards too; no answer means there
    is no such target. A half-filled index does not agree
    ([Example_views.half_filled_index_hides_tags]). *)
Theorem tags_served_are_the_graphs k t skip_tags limit_tags limit_taggers viewer depth w r w' :
  mirrored k t w → viewer = None ∨ depth = None →
  get_by_id k (fst t) (snd t) skip_tags limit_tags limit_taggers viewer depth w = (Ok r, w') →
  mirrored k t w' ∧ graph w' = graph w
  ∧ served t viewer (tag_page skip_tags limit_tags limit_taggers).1
      (bool_decide (is_Some (zsets w !! sorted_set_key k (fst t) (snd t) false))) (graph w) r.
Proof.
  intros Hm Hglobal Hrun.
  assert (get_by_id k (fst t) (snd t) skip_tags limit_tags limit_taggers viewer depth
    = global_tags k (fst t) (snd t) skip_tags limit_tags limit_taggers viewer) as Heq
    by (destruct Hglobal as [->| ->]; [done|by destruct viewer]).
  rewrite Heq in Hrun. clear Heq Hglobal depth.
  destruct (zsets w !! sorted_set_key k (fst t) (snd t) false) as [z|] eqn:Hz.
  - pose proof (yields_run _ _ _ _ _ _ (served_page k t viewer skip_tags limit_tags limit_taggers w z Hm Hz) Hrun) as [Hs Hr].
    destruct Hs as (Hg & Hzs & Hss). split_and!; [unfold mirrored in *; by rewrite Hg, Hzs, Hss|done|done].
  - enough (yields (global_tags k (fst t) (snd t) skip_tags limit_tags limit_taggers viewer) w
      (λ r w', mirrored k t w' ∧ graph w' = graph w ∧ served t viewer (tag_page skip_tags limit_tags limit_taggers).1 false (graph w) r)
      (λ _ _, True)) as Hy by exact (yields_run _ _ _ _ _ _ Hy Hrun).
    unfold global_tags. apply yields_ebind, yields_emap_err.
    eapply yields_mono with (Q := λ found w1, found = None ∧ same w w1) (R := λ _ _, True); [| |done].
    { unfold get_from_index_with_viewer_flags, tag_page. apply yields_ebind.
      eapply yields_mono; [apply query_redis_same| |done]. intros found w1 [-> Hs]. rewrite Hz. by apply yields_ret. }
    intros found w1 [-> (Hg & Hzs & Hss)]. apply yields_ebind, yields_emap_err.
    eapply yields_mono; [apply query_graph_same| |done]. intros answer w2 [-> (Hg2 & Hzs2 & Hss2)].
    rewrite Hg. pose proof (served_from_graph (graph w) t viewer (tag_page skip_tags limit_tags limit_taggers).1) as Hserved.
    assert (mirrored k t w2) as Hm2 by (unfold mirrored in *; by rewrite Hg2, Hzs2, Hss2, Hg, Hzs, Hss).
    destruct t as [u x]. simpl in *. unfold tags_query in *. case_decide as Hex.
    + apply yields_ebind, yields_emap_err. rewrite <- Hg, <- Hg2 at 1 2.
      eapply yields_mono; [apply (filled k (u, x) viewer w2 Hm2); simpl; by rewrite Hzs2, Hzs| |done].
      intros [] w3 [Hg3 Hm3]. apply yields_ret. split_and!; [done|congruence|done..].
    + apply yields_ret. split_and!; [done|congruence|done].
Qed.
End Collection.

(** ** Examples *)

Module Example_views.
#[export] Instance listings : Listings := { listed := elements; listed_elements s := reflexivity _ }.

Definition edge (u l : string) (uri : option string) : Edge :=
  {| tagger := u; label := l; target := ("ada", None); edge_uri := uri |}.

(** Bob follows Cyd, Cyd follows Dan. *)
Definition graph0 : TagGraph := {|
  users := {["ada"; "bob"; "cyd"; "dan"]};
  posts := ∅;
  tagged := [edge "cyd" "rust" (Some "uri1"); edge "dan" "rust" None; edge "bob" "go" (Some "uri2"); edge "dan" "go" None;
             edge "dan" "art" None];
  follows := {[("bob", "cyd"); ("cyd", "dan")]};
|}.

Definition fresh (redis : list (option Kv.RedisError)) : World :=
  {| graph := graph0; zsets := ∅; sets := ∅; graph_trips := []; redis_trips := redis |}.

(** The second read, by Bob, of a page of two labels: after the first has filled the index. *)
Definition read (limit : nat) (viewer : option string) (depth : option Z) (w : World) :=
  get_by_id TagUser "ada" None None (Some limit) None viewer depth w.

Definition first : option (list TagDetails) := Eval vm_compute in
  match fst (read 2 None None (fresh [])) with Ok r => r | Err _ => None end.
Definition after : World := Eval vm_compute in snd (read 2 None None (fresh [])).

Definition page_of_two : list TagDetails := [
  {| tag_label := "rust"; taggers := ["cyd"; "dan"]; taggers_count := 2; relationship := false; tag_uri := None |};
  {| tag_label := "go"; taggers := ["bob"; "dan"]; taggers_count := 2; relationship := true; tag_uri := Some "uri2" |}].

Lemma tags_served_are_the_graphs_witness :
  mirrored TagUser ("ada", None) after
  ∧ fst (read 2 (Some "bob") None after) = Ok (Some page_of_two)
  ∧ Forall (tells graph0 ("ada", None) (Some "bob")) page_of_two.
Proof.
  assert (mirrored TagUser ("ada", None) (fresh [])) as Hm 
    by (unfold mirrored; simpl; rewrite lookup_empty; intros l; rewrite lookup_empty; apply empty_subseteq).
  assert (get_by_id TagUser "ada" None None (Some 2) None None None (fresh []) = (Ok first, after)) as Hfirst
    by (vm_compute; reflexivity).
  assert (get_by_id TagUser "ada" None None (Some 2) None (Some "bob") None after = (Ok (Some page_of_two), after)) as Hsecond
    by (vm_compute; reflexivity).
  pose proof (proj1 (tags_served_are_the_graphs TagUser ("ada", None) None (Some 2) None None None (fresh []) first after
    Hm (or_introl eq_refl) Hfirst)) as Hm'.
  split; [exact Hm'|]. split; [exact (f_equal fst Hsecond)|].
  exact (proj1 (proj2 (proj2 (tags_served_are_the_graphs TagUser ("ada", None) None (Some 2) None (Some "bob") None after
    (Some page_of_two) after Hm' (or_intror eq_refl) Hsecond)))).
Defined.

(** The cache of a web of trust does not tell depths apart: asked for two follows after a
    request for one, it answers with the taggers one follow away. *)
Example trusted_tags_forget_the_depth :
  let labels r := match r with Ok (Some tags) => (λ d, (tag_label d, taggers d)) <$> tags | _ => [] end in
  let one := read 5 (Some "bob") (Some 1%Z) (fresh []) in
  (labels (fst one), labels (fst (read 5 (Some "bob") (Some 2%Z) (snd one))), labels (fst (read 5 (Some "bob") (Some 2%Z) (fresh []))))
  = ([("rust", ["cyd"])], [("rust", ["cyd"])],
     [("go", ["dan"]); ("art", ["dan"]); ("rust", ["cyd"; "dan"])]).
Proof. vm_compute. reflexivity. Qed.

(** A first read whose scores are stored and whose taggers are not hides the tags from every
    later read: the sorted set is there, so the graph is not asked again. *)
Example half_filled_index_hides_tags :
  let first := read 5 None None (fresh [None; None; Some (Kv.IoError "broken pipe")]) in
  (fst first, fst (read 5 None None (snd first)), tagged (graph (snd first)) ≠ [])
  = (Err (Model.KvOperationFailed (Kv.IoError "broken pipe")), Ok (Some []), tagged graph0 ≠ []).
Proof. vm_compute. reflexivity. Qed.
End Example_views.
