(* ===== verification/TrustReport.v ===== *)
(** * The trust report

    nexusd/src/trust/export.rs: the CSV a recompute writes about the users it ranked
    highest, quoted as RFC 4180 has it and with what a spreadsheet would run as a formula
    neutralised. [read] is a reader of RFC 4180, the reference the text is checked against.
    TrustRank.v has the job that writes it. *)

From S2P Require Import Prelude RedisRetry.
Local Open Scope nexus_scope.

Definition char (code : N) : Ascii.ascii := Ascii.ascii_of_N code.

Definition COMMA : Ascii.ascii := char 44.
Definition QUOTE : Ascii.ascii := char 34.
Definition NEWLINE : Ascii.ascii := char 10.
Definition RETURN : Ascii.ascii := char 13.
Definition APOSTROPHE : Ascii.ascii := char 39.

(** What starts a formula: equals, plus, minus, at, tab, return. *)
Definition triggers : list Ascii.ascii := char <$> [61; 43; 45; 64; 9; 13]%N.

Definition specials : list Ascii.ascii := [COMMA; QUOTE; NEWLINE; RETURN].

Fixpoint contains_any (cs : list Ascii.ascii) (s : string) : bool :=
  match s with
  | EmptyString => false
  | String c s => bool_decide (c ∈ cs) || contains_any cs s
  end.

(** [s.replace] of a quote by two. *)
Fixpoint double_quotes (s : string) : string :=
  match s with
  | EmptyString => EmptyString
  | String c s => if decide (c = QUOTE) then String QUOTE (String QUOTE (double_quotes s)) else String c (double_quotes s)
  end.

Definition neutral (s : string) : string :=
  match s with
  | String c _ => if decide (c ∈ triggers) then String APOSTROPHE s else s
  | EmptyString => s
  end.

Definition csv_field (s : string) : string :=
  let s := neutral s in
  if contains_any specials s then String QUOTE (double_quotes s +:+ String QUOTE EmptyString) else s.

Record UserReportRow := {
  name : string;
  following : Z;
  followers : Z;
  friends : Z;
  posts : Z;
  replies : Z;
  collections : Z;
  bookmarks : Z;
  tagged : Z;
  tags : Z;
  unique_tags : Z;
}.

(** [UserReportRow::default] *)
Definition missing : UserReportRow :=
  {| name := ""; following := 0; followers := 0; friends := 0; posts := 0; replies := 0; collections := 0;
     bookmarks := 0; tagged := 0; tags := 0; unique_tags := 0 |}.

Definition header : string :=
  "id,name,score,followers,following,friends,posts,replies,tagged,tags,unique_tags,bookmarks,collections".

Definition columns (d : UserReportRow) : list Z :=
  [followers d; following d; friends d; posts d; replies d; tagged d; tags d; unique_tags d; bookmarks d; collections d].

Section Report.
Context {F64 : Set} (show_f64 : F64 → string).

(** The numbers of a row, after the id and the name. *)
Fixpoint numbers (ns : list Z) : string :=
  match ns with
  | [] => String NEWLINE EmptyString
  | n :: ns => String COMMA (pretty n +:+ numbers ns)
  end.

Definition csv_row (details : gmap string UserReportRow) (row : string * F64) : string :=
  let d := default missing (details !! row.1) in
  csv_field row.1 +:+ String COMMA (csv_field (name d) +:+ String COMMA (show_f64 row.2 +:+ numbers (columns d))).

(** The text of [write_csv] *)
Definition csv_text (details : gmap string UserReportRow) (scores : list (string * F64)) : string :=
  header +:+ String NEWLINE (foldr (λ row text, csv_row details row +:+ text) EmptyString scores).

End Report.

(** ** Reading it back *)

Inductive Mode := Start | Plain | Quoted | AfterQuote.

Definition snoc (s : string) (c : Ascii.ascii) : string := s +:+ String c EmptyString.

(** The records of a text, from the middle of a field. *)
Fixpoint read (m : Mode) (field : string) (record : list string) (s : string) : list (list string) :=
  match s with
  | EmptyString => match m, record with Start, [] => [] | _, _ => [record ++ [field]] end
  | String c s =>
      let next m field :=
        if decide (c = COMMA) then read Start EmptyString (record ++ [field]) s
        else if decide (c = NEWLINE) then (record ++ [field]) :: read Start EmptyString [] s
        else read m (snoc field c) record s in
      match m with
      | Start => if decide (c = QUOTE) then read Quoted field record s else next Plain field
      | Plain => next Plain field
      | Quoted => if decide (c = QUOTE) then read AfterQuote field record s else read Quoted (snoc field c) record s
      | AfterQuote => if decide (c = QUOTE) then read Quoted (snoc field c) record s else next Plain field
      end
  end.

(** What a reader makes of the separator after a field. *)
Definition separated (c : Ascii.ascii) (field : string) (record : list string) (s : string) : list (list string) :=
  if decide (c = COMMA) then read Start EmptyString (record ++ [field]) s
  else (record ++ [field]) :: read Start EmptyString [] s.

Definition separator (c : Ascii.ascii) : Prop := c = COMMA ∨ c = NEWLINE.

Lemma read_separator m c field record s :
  separator c → m ≠ Quoted → read m field record (String c s) = separated c field record s.
Proof. intros [-> | ->]; by destruct m. Qed.

Lemma snoc_app field c s : snoc field c +:+ s = field +:+ String c s.
Proof. unfold snoc. by rewrite str_assoc. Qed.

Lemma read_plain f field record c s :
  contains_any specials f = false → separator c →
  read Plain field record (f +:+ String c s) = separated c (field +:+ f) record s.
Proof.
  revert field. induction f as [|x f IH]; intros field Hf Hc.
  { rewrite str_nil_r. by apply read_separator. }
  simpl in Hf. apply orb_false_iff in Hf as [Hx Hf]. apply bool_decide_eq_false in Hx. rewrite str_cons. simpl.
  rewrite !decide_False by (intros ->; apply Hx; unfold specials; set_solver).
  by rewrite IH, snoc_app.
Qed.

Lemma read_quoted f field record c s :
  separator c →
  read Quoted field record (double_quotes f +:+ String QUOTE (String c s)) = separated c (field +:+ f) record s.
Proof.
  intros Hc. revert field. induction f as [|x f IH]; intros field.
  { rewrite str_nil_r. simpl. by apply (read_separator AfterQuote). }
  simpl. case_decide as Hx.
  - subst x. rewrite !str_cons. simpl. by rewrite IH, snoc_app.
  - rewrite str_cons. simpl. rewrite decide_False by done. by rewrite IH, snoc_app.
Qed.

(** A field starts with no quote unless it is quoted. *)
Lemma read_start f record c s :
  contains_any specials f = false → separator c →
  read Start EmptyString record (f +:+ String c s) = separated c f record s.
Proof.
  destruct f as [|x f]; intros Hf Hc; [by apply (read_separator Start)|].
  simpl in Hf. apply orb_false_iff in Hf as [Hx Hf]. apply bool_decide_eq_false in Hx. rewrite str_cons. simpl.
  rewrite !decide_False by (intros ->; apply Hx; unfold specials; set_solver). by rewrite read_plain.
Qed.

Lemma read_csv_field f record c s :
  separator c → read Start EmptyString record (csv_field f +:+ String c s) = separated c (neutral f) record s.
Proof.
  intros Hc. unfold csv_field. destruct (contains_any specials (neutral f)) eqn:Hf; [|by apply read_start].
  rewrite str_cons. simpl. rewrite str_assoc. by apply read_quoted.
Qed.

Lemma contains_any_digits s :
  all_digits (String.list_ascii_of_string s) = true → contains_any specials s = false.
Proof.
  induction s as [|c s IH]; [done|]. simpl. intros [Hc Hs]%andb_true_iff. rewrite (IH Hs), orb_false_r.
  apply bool_decide_eq_false. intros Hin. assert (Forall (λ c, is_digit c = false) specials) as Hno.
  { by repeat constructor. }
  rewrite Forall_forall in Hno. rewrite (Hno c Hin) in Hc. done.
Qed.

Lemma contains_any_pretty (n : Z) : contains_any specials (pretty n) = false.
Proof.
  destruct n as [|p|p]; [done| |].
  - apply contains_any_digits, (pretty_N_digits (Npos p)).
  - change (pretty (Z.neg p)) with (String (char 45) (pretty (N.pos p))). simpl.
    by rewrite contains_any_digits by apply (pretty_N_digits (Npos p)).
Qed.

Lemma read_numbers ns f record s :
  contains_any specials f = false →
  read Start EmptyString record (f +:+ numbers ns +:+ s)
  = (record ++ f :: (pretty <$> ns)) :: read Start EmptyString [] s.
Proof.
  revert f record. induction ns as [|n ns IH]; intros f record Hf; simpl.
  - rewrite str_cons. rewrite read_start by (done || by right). done.
  - rewrite str_cons, read_start by (done || by left). unfold separated. rewrite decide_True, str_assoc, IH by (done || apply contains_any_pretty).
    by rewrite <- app_assoc.
Qed.

(** What a reader finds in a row. *)
Definition record_of {F64 : Set} (show_f64 : F64 → string) (details : gmap string UserReportRow)
    (row : string * F64) : list string :=
  let d := default missing (details !! row.1) in
  neutral row.1 :: neutral (name d) :: show_f64 row.2 :: (pretty <$> columns d).

Lemma read_row {F64 : Set} (show_f64 : F64 → string) details row s :
  (∀ x, contains_any specials (show_f64 x) = false) →
  read Start EmptyString [] (csv_row show_f64 details row +:+ s)
  = record_of show_f64 details row :: read Start EmptyString [] s.
Proof.
  intros Hshow. unfold csv_row. rewrite !str_assoc, str_cons, read_csv_field by by left.
  unfold separated at 1. rewrite decide_True by done.
  rewrite !str_assoc, str_cons, read_csv_field by by left. unfold separated. rewrite decide_True by done.
  by rewrite str_assoc, read_numbers.
Qed.

Definition harmless (field : string) : Prop :=
  match field with EmptyString => True | String c _ => c ∉ triggers end.

Lemma neutral_harmless s : harmless (neutral s).
Proof.
  destruct s as [|c s]; [done|]. simpl. case_decide; [|done]. simpl. by apply (bool_decide_eq_true_1 (APOSTROPHE ∉ triggers)); vm_compute.
Qed.

(** A report reads back as it was meant, record by record and field by field, whatever
    the users are called: no name ends its field or its record early, and neither an id nor
    a name starts a formula. *)
Theorem report_reads_back {F64 : Set} (show_f64 : F64 → string) details scores :
  (∀ x, contains_any specials (show_f64 x) = false) →
  read Start EmptyString [] (csv_text show_f64 details scores)
  = ["id"; "name"; "score"; "followers"; "following"; "friends"; "posts"; "replies"; "tagged"; "tags"; "unique_tags";
     "bookmarks"; "collections"] :: (record_of show_f64 details <$> scores)
  ∧ Forall (λ r, Forall harmless (take 2 r)) (record_of show_f64 details <$> scores).
Proof.
  intros Hshow. split.
  - unfold csv_text. simpl. f_equal. induction scores as [|[u x] scores IH]; [done|]. simpl. by rewrite read_row, IH.
  - apply Forall_fmap, Forall_true. intros row. simpl. repeat constructor; apply neutral_harmless.
Qed.

(** ** An example *)

Module Example_report.

Definition details : gmap string UserReportRow :=
  {[ "ann" := {| name := String APOSTROPHE (String QUOTE "x,y"); following := 1; followers := 20; friends := 0; posts := 3;
                 replies := 0; collections := 0; bookmarks := 0; tagged := 7; tags := 0; unique_tags := 0 |};
     "bob" := {| name := "=SUM(A1)"; following := 0; followers := 0; friends := 0; posts := 0;
                 replies := 0; collections := 0; bookmarks := 0; tagged := 0; tags := 0; unique_tags := 0 |} ]}.

Definition show (x : bool) : string := if x then "0.5" else "1e-7".

Lemma report_reads_back_witness :
  take 3 <$> read Start EmptyString [] (csv_text show details [("ann", true); ("bob", false)])
  = [["id"; "name"; "score"]; ["ann"; String APOSTROPHE (String QUOTE "x,y"); "0.5"]; ["bob"; "'=SUM(A1)"; "1e-7"]].
Proof. rewrite (proj1 (report_reads_back show details _ ltac:(by intros []))). vm_compute. done. Defined.

End Example_report.
