(* ===== verification/TrustRank.v ===== *)
(** * The trust ranking

    nexusd/src/trust (the engine over Neo4j's graph data science plugin, and the report),
    jobs/catalog/trust_recompute.rs, and the ranking it publishes,
    nexus-common/src/models/user/social_graph.rs. A run makes seven graph calls while others
    write to the same graph: the world says what they did before each call and how it fares.
    The plugin's PageRank is a parameter. TrustFilter.v has what publishing does besides. *)

From S2P Require Import Prelude Errors TrustReport.
Local Open Scope Z_scope.
Local Open Scope nexus_scope.
#[local] Remove Hints finite.finite_countable : typeclass_instances.

(** Floats, the plugin's answers, and the orders the server picks. *)
Class Plugin := {
  F64 : Set;
  one_minus : F64 → F64;
  is_positive : F64 → bool;
  f64_ge : F64 → F64 → Prop;
  #[global] f64_ge_dec :: RelDecision f64_ge;
  f64_ge_total x y : f64_ge x y ∨ f64_ge y x;
  f64_ge_trans x y z : f64_ge x y → f64_ge y z → f64_ge x z;
  show_f64 : F64 → string;
  (** pageRank.mutate over the nodes and edges of a projection, from the given sources: the
      score of every node, the rounds it took and whether it converged. *)
  page_rank : gset Z → gset Z → gset (Z * Z) → F64 → Z → F64 → string → result (gmap Z F64 * Z * bool) string;
  page_rank_scores sources nodes edges damping rounds tolerance scaler scores n converged :
    page_rank sources nodes edges damping rounds tolerance scaler = Ok (scores, n, converged) → dom scores = nodes;
  (** graph.project.estimate: the upper bound of the bytes, from its row. *)
  estimated_bytes : gset Z → gset (Z * Z) → option Z;
  streamed : gmap Z F64 → list (Z * F64);
  streamed_rows scores : streamed scores ≡ₚ map_to_list scores;
}.

(** ** The graph and the plugin's catalog *)

Section Engine.
Context `{Plugin}.

Record UserNode := { uid : string; trust : option F64; deleted : bool }.

(** A projection in the plugin's memory; [scored] is its mutated property. *)
Record Projection := {
  created : Z;
  nodes : gset Z;
  edges : gset (Z * Z);
  scored : option (gmap Z F64);
}.

Record Db := {
  user_nodes : gmap Z UserNode;
  follows : gset (Z * Z);
  catalog : gmap string Projection;
  clock : Z;
}.

Inductive Label :=
  | CountMatchingSeeds | DropStaleTrustGraphs | EstimateTrustGraph | ProjectTrustGraph
  | TrustRankPagerankMutate | WriteBackTrustScores | DropTrustGraph
  | ReadTrustScores | CreateReportDir | TrustReportUserDetails | WriteReport
  | GetTrustRankedUserIds | ReplaceRanking | ReadRanking.

Inductive Fate := Served | Refused (e : string) | ReplyLost (e : string).

(** [committed] is the transactions of the write-back that end before a refusal; [details] is
    what the count fields of the report's query come to for each user. *)
Record World := {
  db : Db;
  meddle : Label → Db → Db;
  fates : Label → Fate;
  committed : nat;
  ranking : gmap string Z;
  details : gmap string UserReportRow;
  files : gmap string string;
  report_seq : N;
  max_iterations_reached : Z;
}.

Definition with_db (d : Db) (w : World) : World :=
  {| db := d; meddle := meddle w; fates := fates w; committed := committed w; ranking := ranking w;
     details := details w; files := files w; report_seq := report_seq w;
     max_iterations_reached := max_iterations_reached w |}.

(** What the graph is when a call reaches it. *)
Definition seen (l : Label) (w : World) : Db := meddle w l (db w).

(** A graph call: an error of the procedure itself, like a refusal, has no effect. *)
Definition query {A} (l : Label) (q : Db → result (A * Db) string) : prog World (result A Graph.GraphError) := λ w,
  let d := seen l w in
  match fates w l, q d with
  | Refused e, _ => (Err (Graph.QueryFailed e), with_db d w)
  | _, Err e => (Err (Graph.QueryFailed e), with_db d w)
  | ReplyLost e, Ok (_, d) => (Err (Graph.QueryFailed e), with_db d w)
  | Served, Ok (a, d) => (Ok a, with_db d w)
  end.

Definition set_nodes (ns : gmap Z UserNode) (d : Db) : Db :=
  {| user_nodes := ns; follows := follows d; catalog := catalog d; clock := clock d |}.
Definition set_catalog (c : gmap string Projection) (d : Db) : Db :=
  {| user_nodes := user_nodes d; follows := follows d; catalog := c; clock := clock d |}.

(** ** The queries *)

Definition TRUST_GRAPH_PREFIX : string := "nexusTrustGraph".
Definition WRITE_BACK_BATCH_ROWS : nat := 10 ^ 4.

(** The nodes of the users with one of the ids. *)
Definition seed_nodes (seed_ids : list string) (d : Db) : gset Z :=
  dom (filter (λ nu : Z * UserNode, uid nu.2 ∈ seed_ids) (user_nodes d)).

Definition count_matching_seeds (seed_ids : list string) (d : Db) : result (option Z * Db) string :=
  Ok (Some (Z.of_nat (size (seed_nodes seed_ids d))), d).

Definition is_stale (stale_seconds now : Z) (np : string * Projection) : Prop :=
  String.prefix TRUST_GRAPH_PREFIX np.1 = true ∧ created np.2 < now - stale_seconds.

#[export] Instance is_stale_dec s n np : Decision (is_stale s n np).
Proof. unfold is_stale. apply _. Defined.

Definition drop_stale_trust_graphs (stale_seconds : Z) (d : Db) : result (gset string * Db) string :=
  Ok (dom (filter (is_stale stale_seconds (clock d)) (catalog d)),
      set_catalog (filter (λ np, ¬ is_stale stale_seconds (clock d) np) (catalog d)) d).

Definition estimate_trust_graph (d : Db) : result (option Z * Db) string :=
  Ok (estimated_bytes (dom (user_nodes d)) (follows d), d).

Definition project_trust_graph (graph_name : string) (d : Db) : result (Z * Z * Db) string :=
  match catalog d !! graph_name with
  | Some _ => Err "graph already exists"
  | None =>
      let ns := dom (user_nodes d) in
      Ok (Z.of_nat (size ns), Z.of_nat (size (follows d)),
          set_catalog (<[graph_name := {| created := clock d; nodes := ns; edges := follows d; scored := None |}]>
            (catalog d)) d)
  end.

(** No row when no seed is there. *)
Definition trust_rank_pagerank_mutate (graph_name : string) (seed_ids : list string) (damping_factor : F64)
    (max_iterations : Z) (tolerance : F64) (scaler : string) (d : Db) :
    result (option (Z * Z * bool) * Db) string :=
  let sources := seed_nodes seed_ids d in
  if decide (sources = ∅) then Ok (None, d)
  else match catalog d !! graph_name with
       | None => Err "graph does not exist"
       | Some p =>
           match page_rank sources (nodes p) (edges p) damping_factor max_iterations tolerance scaler with
           | Err e => Err e
           | Ok (scores, n, converged) =>
               Ok (Some (Z.of_nat (size scores), n, converged),
                   set_catalog (<[graph_name := {| created := created p; nodes := nodes p; edges := edges p;
                                                   scored := Some scores |}]> (catalog d)) d)
           end
       end.

Definition set_trust (ns : gmap Z UserNode) (row : Z * F64) : gmap Z UserNode :=
  alter (λ u, {| uid := uid u; trust := Some row.2; deleted := deleted u |}) row.1 ns.

(** The rows persisted in order; a row without its user is skipped. *)
Definition persist (rows : list (Z * F64)) (d : Db) : Db := set_nodes (foldl set_trust (user_nodes d) rows) d.

Definition persisted (rows : list (Z * F64)) (d : Db) : Z :=
  Z.of_nat (length (filter (λ row : Z * F64, is_Some (user_nodes d !! row.1)) rows)).

(** The rows go in transactions of [WRITE_BACK_BATCH_ROWS]; a refusal keeps those committed
    before it. Each row only sets the score of its own node, so what others do between two
    transactions is taken to happen before the call or after it. *)
Definition write_back_trust_scores (graph_name : string) : prog World (result Z Graph.GraphError) := λ w,
  let d := seen WriteBackTrustScores w in
  match p ← catalog d !! graph_name; scored p with
  | None => (Err (Graph.QueryFailed "no such property"), with_db d w)
  | Some scores =>
      let rows := streamed scores in
      match fates w WriteBackTrustScores with
      | Served => (Ok (persisted rows d), with_db (persist rows d) w)
      | ReplyLost e => (Err (Graph.QueryFailed e), with_db (persist rows d) w)
      | Refused e => (Err (Graph.QueryFailed e), with_db (persist (take (committed w * WRITE_BACK_BATCH_ROWS) rows) d) w)
      end
  end.

Definition drop_trust_graph (graph_name : string) (d : Db) : result (unit * Db) string :=
  Ok (tt, set_catalog (delete graph_name (catalog d)) d).

(** ** A run *)

Record TrustRankParams := {
  seed_ids : list string;
  alpha : F64;
  max_iterations : Z;
  tolerance : F64;
  max_projection_bytes : option Z;
}.

Record TrustRankStats := { users_written : Z; ran_iterations : Z; did_converge : bool }.

Inductive TrustError :=
  | SeedIsEmpty
  | NoneOfTheSeedsExist (configured : Z)
  | EstimateExceedsCap (bytes_max cap : Z)
  | NoSummaryRow
  | WroteNoScores
  | OfGraph (e : Graph.GraphError).

Record GdsNeo4j := { use_l1norm : bool; stale_graph_age : Z; process_id : Z; started_at : Z }.

Definition graph_name (e : GdsNeo4j) : string :=
  TRUST_GRAPH_PREFIX +:+ "-" +:+ pretty (process_id e) +:+ "-" +:+ pretty (started_at e).

Definition on_graph {A} (p : prog World (result A Graph.GraphError)) : prog World (result A TrustError) :=
  emap_err OfGraph p.

(** The estimate's checks; without a cap it may fail. *)
Definition check_estimate (cap : option Z) : prog World (result unit TrustError) :=
  let* estimate := query EstimateTrustGraph estimate_trust_graph in
  match estimate, cap with
  | Ok (Some bytes_max), Some cap =>
      if decide (cap < bytes_max) then ret (Err (EstimateExceedsCap bytes_max cap)) else ret (Ok tt)
  | Ok _, _ => ret (Ok tt)
  | Err e, Some _ => ret (Err (OfGraph e))
  | Err _, None => ret (Ok tt)
  end.

(** What follows the two calls that rank, once the projection is dropped. *)
Definition outcome (mutated : result (option (Z * Z * bool)) Graph.GraphError)
    (written : option (result Z Graph.GraphError)) : result TrustRankStats TrustError :=
  match mutated with
  | Err e => Err (OfGraph e)
  | Ok None => Err NoSummaryRow
  | Ok (Some (_, n, converged)) =>
      match written with
      | Some (Err e) => Err (OfGraph e)
      | written =>
          let users_written := match written with Some (Ok n) => n | _ => 0 end in
          if decide (users_written = 0) then Err WroteNoScores
          else Ok {| users_written := users_written; ran_iterations := n; did_converge := converged |}
      end
  end.

(** From the projection on. *)
Definition rank_projection (name : string) (e : GdsNeo4j) (params : TrustRankParams) :
    prog World (result TrustRankStats TrustError) :=
  let* mutated := query TrustRankPagerankMutate
    (trust_rank_pagerank_mutate name (seed_ids params) (one_minus (alpha params)) (max_iterations params)
       (tolerance params) (if use_l1norm e then "L1Norm" else "NONE")) in
  let* written := (match mutated with
                   | Ok (Some _) => let* r := write_back_trust_scores name in ret (Some r)
                   | _ => ret None
                   end) in
  let* _ := query DropTrustGraph (drop_trust_graph name) in
  ret (outcome mutated written).

(** [GdsNeo4j::compute] *)
Definition compute (e : GdsNeo4j) (params : TrustRankParams) : prog World (result TrustRankStats TrustError) :=
  if decide (seed_ids params = []) then ret (Err SeedIsEmpty)
  else
    let? matched := on_graph (query CountMatchingSeeds (count_matching_seeds (seed_ids params))) in
    if decide (default 0 matched = 0) then
      ret (Err (NoneOfTheSeedsExist (Z.of_nat (length (seed_ids params)))))
    else
      let name := graph_name e in
      let? _ := on_graph (query DropStaleTrustGraphs (drop_stale_trust_graphs (stale_graph_age e))) in
      let? _ := check_estimate (max_projection_bytes params) in
      let? _ := on_graph (query ProjectTrustGraph (project_trust_graph name)) in
      rank_projection name e params.

(** ** What a run leaves *)

(** The others leave the run's projection alone: its name is the run's own. *)
Definition undisturbed (e : GdsNeo4j) (w : World) : Prop :=
  ∀ l d, catalog (meddle w l d) !! graph_name e = catalog d !! graph_name e.

(** The graph when it is projected, when it is ranked and when the scores are written. *)
Definition projected_from (e : GdsNeo4j) (w : World) : Db :=
  let d := meddle w DropStaleTrustGraphs (meddle w CountMatchingSeeds (db w)) in
  let d := set_catalog (filter (λ np, ¬ is_stale (stale_graph_age e) (clock d) np) (catalog d)) d in
  meddle w ProjectTrustGraph (meddle w EstimateTrustGraph d).

Definition projection_of (d : Db) (scored : option (gmap Z F64)) : Projection :=
  {| created := clock d; nodes := dom (user_nodes d); edges := follows d; scored := scored |}.

Definition ranked_from (e : GdsNeo4j) (w : World) : Db :=
  let d := projected_from e w in
  meddle w TrustRankPagerankMutate (set_catalog (<[graph_name e := projection_of d None]> (catalog d)) d).

Definition written_to (e : GdsNeo4j) (scores : gmap Z F64) (w : World) : Db :=
  let d := ranked_from e w in
  meddle w WriteBackTrustScores
    (set_catalog (<[graph_name e := projection_of (projected_from e w) (Some scores)]> (catalog d)) d).

(** The users with their scores; those created since the projection keep theirs. *)
Definition scored_users (scores : gmap Z F64) (ns : gmap Z UserNode) : gmap Z UserNode :=
  map_imap (λ n u, Some (match scores !! n with
                         | Some s => {| uid := uid u; trust := Some s; deleted := deleted u |}
                         | None => u
                         end)) ns.

Lemma dom_foldl_set_trust rows ns : dom (foldl set_trust ns rows) = dom ns.
Proof.
  revert ns. induction rows as [|r rows IH]; intros ns; [done|]. simpl. rewrite IH. unfold set_trust. apply dom_alter_L.
Qed.

Lemma foldl_set_trust rows ns :
  NoDup rows.*1 → foldl set_trust ns rows = scored_users (list_to_map rows) ns.
Proof.
  revert ns. induction rows as [|[n s] rows IH]; intros ns Hnd; simpl.
  { apply map_eq. intros i. unfold scored_users. rewrite map_lookup_imap. destruct (ns !! i); simpl; [|done].
    by rewrite lookup_empty. }
  simpl in Hnd. apply NoDup_cons in Hnd as [Hn Hnd]. rewrite (IH _ Hnd).
  apply map_eq. intros i. unfold scored_users, set_trust. rewrite !map_lookup_imap. simpl.
  destruct (decide (i = n)) as [->|Hi].
  - rewrite lookup_alter_eq, lookup_insert_eq. destruct (ns !! n); simpl; [|done].
    by rewrite not_elem_of_list_to_map_1.
  - rewrite lookup_alter_ne by done. by rewrite lookup_insert_ne.
Qed.

Lemma persist_streamed scores d : persist (streamed scores) d = set_nodes (scored_users scores (user_nodes d)) d.
Proof.
  unfold persist. f_equal. pose proof (streamed_rows scores) as Hp. rewrite foldl_set_trust.
  - f_equal. rewrite (list_to_map_proper (streamed scores) (map_to_list scores)).
    + apply list_to_map_to_list.
    + rewrite Hp. apply NoDup_fst_map_to_list.
    + done.
  - rewrite Hp. apply NoDup_fst_map_to_list.
Qed.

Lemma persisted_streamed scores d :
  persisted (streamed scores) d = Z.of_nat (size (dom scores ∩ dom (user_nodes d))).
Proof.
  unfold persisted. f_equal. rewrite streamed_rows.
  rewrite <- (length_fmap fst). rewrite <- (size_list_to_set (C := gset Z)).
  - f_equal. apply set_eq. intros n. rewrite elem_of_list_to_set, list_elem_of_fmap, elem_of_intersection, !elem_of_dom.
    split.
    + intros ([n' s] & -> & [Hs Hin]%list_elem_of_filter). apply elem_of_map_to_list in Hin. simpl in *. eauto.
    + intros [[s Hs] Hu]. exists (n, s). split; [done|]. apply list_elem_of_filter. split; [done|].
      by apply elem_of_map_to_list.
  - eapply sublist_NoDup; [apply (NoDup_fst_map_to_list scores)|]. apply fmap_sublist, sublist_filter.
Qed.

Lemma query_spec {A} l (q : Db → result (A * Db) string) w :
  ∃ d, query l q w = (match fates w l, q (seen l w) with
                      | Served, Ok (a, _) => Ok a
                      | Refused e, _ | _, Err e | ReplyLost e, Ok _ => Err (Graph.QueryFailed e)
                      end, with_db d w)
       ∧ (d = seen l w ∨ ∃ a, q (seen l w) = Ok (a, d)).
Proof.
  unfold query. destruct (fates w l), (q (seen l w)) as [[a d]|e'] eqn:Hq; eexists; (split; [done|]); eauto.
Qed.

(** A call that answers was served. *)
Lemma query_ok {A} l (q : Db → result (A * Db) string) w a w' :
  query l q w = (Ok a, w') → ∃ d, q (seen l w) = Ok (a, d) ∧ w' = with_db d w.
Proof. unfold query. destruct (fates w l), (q (seen l w)) as [[a' d]|e']; intros [= <- <-]; eauto. Qed.

Lemma write_back_ok name w n w' :
  write_back_trust_scores name w = (Ok n, w') →
  ∃ p scores, catalog (seen WriteBackTrustScores w) !! name = Some p ∧ scored p = Some scores
    ∧ n = persisted (streamed scores) (seen WriteBackTrustScores w)
    ∧ w' = with_db (persist (streamed scores) (seen WriteBackTrustScores w)) w.
Proof.
  unfold write_back_trust_scores. destruct (catalog _ !! name) as [p|]; simpl; [|done].
  destruct (scored p) as [scores|] eqn:?; [|done]. destruct (fates w WriteBackTrustScores); intros [= <- <-]. eauto 10.
Qed.

Lemma on_graph_ok {A} (p : prog World (result A Graph.GraphError)) w a w' :
  on_graph p w = (Ok a, w') → p w = (Ok a, w').
Proof. unfold on_graph, emap_err. destruct (p w) as [[?|?] ?]; simpl; by intros [= <- <-]. Qed.

Lemma ebind_ok {A B E} (m : prog World (result A E)) (k : A → prog World (result B E)) w b w' :
  ebind m k w = (Ok b, w') → ∃ a w1, m w = (Ok a, w1) ∧ k a w1 = (Ok b, w').
Proof. unfold ebind. destruct (m w) as [[a|e] w1]; [eauto|done]. Qed.

Lemma check_estimate_ok cap w w' :
  check_estimate cap w = (Ok tt, w') → w' = with_db (seen EstimateTrustGraph w) w.
Proof.
  unfold check_estimate, bind. destruct (query_spec EstimateTrustGraph estimate_trust_graph w) as (d & -> & Hd).
  assert (d = seen EstimateTrustGraph w) as -> by (destruct Hd as [|(? & [= ?])]; congruence).
  intros Hr. repeat (case_match; try done); unfold ret in Hr; by simplify_eq/=.
Qed.

(** What the drop at the end of a run does, whatever its fate. *)
Lemma drop_keeps_users name w r w' :
  query DropTrustGraph (drop_trust_graph name) w = (r, w') → user_nodes (db w') = user_nodes (seen DropTrustGraph w).
Proof.
  destruct (query_spec DropTrustGraph (drop_trust_graph name) w) as (d & -> & Hd). intros [= <- <-].
  by destruct Hd as [->|(? & [= <- <-])].
Qed.

(** A run that succeeds gets as far as its projection. *)
Lemma compute_projects e params w stats w' :
  compute e params w = (Ok stats, w') →
  rank_projection (graph_name e) e params
    (with_db (set_catalog (<[graph_name e := projection_of (projected_from e w) None]> (catalog (projected_from e w)))
       (projected_from e w)) w) = (Ok stats, w').
Proof.
  unfold compute. case_decide as Hseeds; [done|].
  intros (matched & w1 & (d & Hq & ->)%on_graph_ok%query_ok & Hrun)%ebind_ok. injection Hq as <- <-.
  case_decide; [done|].
  apply ebind_ok in Hrun as (dropped & w2 & (d & Hq & ->)%on_graph_ok%query_ok & Hrun).
  injection Hq as <- <-. apply ebind_ok in Hrun as ([] & w3 & ->%check_estimate_ok & Hrun).
  apply ebind_ok in Hrun as (counts & w4 & (d & Hq & ->)%on_graph_ok%query_ok & Hrun).
  change (seen ProjectTrustGraph _) with (projected_from e w) in Hq.
  unfold project_trust_graph in Hq. destruct (catalog (projected_from e w) !! graph_name e); [done|].
  by injection Hq as <- <-.
Qed.

Lemma outcome_ok mutated written stats :
  outcome mutated written = Ok stats →
  ∃ n, mutated = Ok (Some (n, ran_iterations stats, did_converge stats))
    ∧ written = Some (Ok (users_written stats)) ∧ users_written stats ≠ 0.
Proof.
  unfold outcome. destruct mutated as [[[[n rounds] converged]|]|]; try done.
  destruct written as [[count|]|]; try done; case_decide; intros [= <-]; simpl; eauto.
Qed.

Lemma rank_projection_ok name e params w stats w' :
  rank_projection name e params w = (Ok stats, w') →
  ∃ n w1 w2 r,
    query TrustRankPagerankMutate
      (trust_rank_pagerank_mutate name (seed_ids params) (one_minus (alpha params)) (max_iterations params)
         (tolerance params) (if use_l1norm e then "L1Norm" else "NONE")) w
      = (Ok (Some (n, ran_iterations stats, did_converge stats)), w1)
    ∧ write_back_trust_scores name w1 = (Ok (users_written stats), w2) ∧ users_written stats ≠ 0
    ∧ query DropTrustGraph (drop_trust_graph name) w2 = (r, w').
Proof.
  unfold rank_projection, bind. destruct (query TrustRankPagerankMutate _ w) as [mutated w1].
  destruct mutated as [[row|]|er]; simpl.
  - destruct (write_back_trust_scores name w1) as [written w2] eqn:?. simpl.
    destruct (query DropTrustGraph _ w2) as [r w3] eqn:?. unfold ret.
    intros [= Ho <-]. apply (outcome_ok (Ok (Some row)) (Some written)) in Ho as (n & [= ->] & [= ->] & ?). eauto 10.
  - by destruct (query DropTrustGraph _ w1).
  - by destruct (query DropTrustGraph _ w1).
Qed.

(** C34: A run that succeeds, whatever others did to the graph between its calls, ranked from
    seeds that existed, never from none (which the plugin takes for everyone), over the
    users and follows it projected; it gave their scores to exactly the projected users who
    were still there, counted them, and left the others' as they were. *)
Theorem ranks_from_the_seeds e params w stats w' :
  undisturbed e w → compute e params w = (Ok stats, w') →
  ∃ scores,
    let sources := seed_nodes (seed_ids params) (ranked_from e w) in
    sources ≠ ∅
    ∧ page_rank sources (dom (user_nodes (projected_from e w))) (follows (projected_from e w))
        (one_minus (alpha params)) (max_iterations params) (tolerance params)
        (if use_l1norm e then "L1Norm" else "NONE") = Ok (scores, ran_iterations stats, did_converge stats)
    ∧ users_written stats
      = Z.of_nat (size (dom (user_nodes (projected_from e w)) ∩ dom (user_nodes (written_to e scores w))))
    ∧ 0 < users_written stats
    ∧ ∃ d, user_nodes d = scored_users scores (user_nodes (written_to e scores w))
         ∧ user_nodes (db w') = user_nodes (meddle w DropTrustGraph d).
Proof.
  intros Hothers (n & w1 & w2 & r & (d & Hq & ->)%query_ok & Hwrite & Hsome & Hdrop)%compute_projects%rank_projection_ok.
  change (seen TrustRankPagerankMutate _) with (ranked_from e w) in Hq.
  unfold trust_rank_pagerank_mutate in Hq. case_decide as Hsources; [done|].
  assert (catalog (ranked_from e w) !! graph_name e = Some (projection_of (projected_from e w) None)) as Hp.
  { unfold ranked_from. rewrite Hothers. simpl. apply lookup_insert_eq. }
  rewrite Hp in Hq. simpl in Hq.
  destruct (page_rank _ _ _ _ _ _ _) as [[[scores rounds] converged]|] eqn:Hrank; [|done].
  injection Hq as <- -> -> <-.
  apply write_back_ok in Hwrite as (p & scores' & Hp' & Hscored & Hcount & ->).
  change (seen WriteBackTrustScores _) with (written_to e scores w) in *.
  assert (catalog (written_to e scores w) !! graph_name e = Some (projection_of (projected_from e w) (Some scores))) as Hpw.
  { unfold written_to. rewrite Hothers. simpl. apply lookup_insert_eq. }
  rewrite Hpw in Hp'. injection Hp' as <-. injection Hscored as <-.
  rewrite persisted_streamed, (page_rank_scores _ _ _ _ _ _ _ _ _ _ Hrank) in Hcount.
  exists scores. simpl. split_and!; [done|done|done|lia|].
  exists (persist (streamed scores) (written_to e scores w)). split; [by rewrite persist_streamed|].
  by apply drop_keeps_users in Hdrop.
Qed.

(** ** Nothing is left behind *)

Definition gone (name : string) (w : World) : Prop := catalog (db w) !! name = None.

(** Nobody else touches the projection, its drop is served, and no reply to its making is lost. *)
Definition in_order (e : GdsNeo4j) (w : World) : Prop :=
  undisturbed e w ∧ fates w DropTrustGraph = Served ∧ ∀ er, fates w ProjectTrustGraph ≠ ReplyLost er.

Definition tidy (e : GdsNeo4j) {A} (p : prog World A) : Prop :=
  ∀ w, in_order e w → gone (graph_name e) w → gone (graph_name e) (snd (p w)) ∧ in_order e (snd (p w)).

Lemma tidy_ret e {A} (a : A) : tidy e (ret a).
Proof. by intros w. Qed.

Lemma tidy_ebind e {A B E} (m : prog World (result A E)) (k : A → prog World (result B E)) :
  tidy e m → (∀ a, tidy e (k a)) → tidy e (ebind m k).
Proof.
  intros Hm Hk w Hin Hgone. destruct (Hm w Hin Hgone) as [Hg Hi]. unfold ebind.
  destruct (m w) as [[a|er] w1]; simpl in *; [by apply Hk|done].
Qed.

Lemma tidy_bind e {A B} (m : prog World A) (k : A → prog World B) :
  tidy e m → (∀ a, tidy e (k a)) → tidy e (bind m k).
Proof.
  intros Hm Hk w Hin Hgone. destruct (Hm w Hin Hgone) as [Hg Hi]. unfold bind. destruct (m w) as [a w1]. by apply Hk.
Qed.

Lemma tidy_on_graph e {A} (p : prog World (result A Graph.GraphError)) : tidy e p → tidy e (on_graph p).
Proof.
  intros Hp w Hin Hgone. destruct (Hp w Hin Hgone) as [Hg Hi]. unfold on_graph, emap_err. by destruct (p w) as [r w1].
Qed.

Lemma query_in_order e {A} l (q : Db → result (A * Db) string) w : in_order e w → in_order e (snd (query l q w)).
Proof. intros Hin. by destruct (query_spec l q w) as (d & -> & _). Qed.

Lemma tidy_query e {A} l (q : Db → result (A * Db) string) :
  (∀ d a d', q d = Ok (a, d') → catalog d !! graph_name e = None → catalog d' !! graph_name e = None) →
  tidy e (query l q).
Proof.
  intros Hq w Hin Hgone. split; [|by apply query_in_order]. destruct (query_spec l q w) as (d & -> & Hd). simpl.
  assert (catalog (seen l w) !! graph_name e = None) as Hseen by (unfold seen; by rewrite (proj1 Hin)).
  unfold gone. simpl. destruct Hd as [->|[a Ha]]; eauto.
Qed.

Lemma tidy_check_estimate e cap : tidy e (check_estimate cap).
Proof.
  unfold check_estimate. apply tidy_bind; [apply tidy_query; intros d a d' [= <- <-]; done|].
  intros r. repeat case_match; apply tidy_ret.
Qed.

(** From wherever the projection stands, the last call drops it. *)
Lemma rank_projection_drops e params w :
  in_order e w →
  gone (graph_name e) (snd (rank_projection (graph_name e) e params w))
  ∧ in_order e (snd (rank_projection (graph_name e) e params w)).
Proof.
  intros Hin. unfold rank_projection, bind.
  destruct (query TrustRankPagerankMutate _ w) as [mutated w1] eqn:Hm.
  assert (in_order e w1) as Hin1.
  { change w1 with (snd (mutated, w1)). rewrite <- Hm. by apply query_in_order. }
  assert (∀ w2 r, in_order e w2 →
    let w3 := snd (let '(_, w3) := query DropTrustGraph (drop_trust_graph (graph_name e)) w2 in
                   ret (W := World) (A := result TrustRankStats TrustError) r w3) in
    gone (graph_name e) w3 ∧ in_order e w3) as Hlast.
  { intros w2 r (Hothers & Hserved & Hp). unfold query. rewrite Hserved. simpl. split; [|done].
    unfold gone. simpl. apply lookup_delete_eq. }
  destruct mutated as [[row|]|er]; [|by apply Hlast..].
  destruct (write_back_trust_scores (graph_name e) w1) as [written w2] eqn:Hw. simpl. apply Hlast.
  revert Hw. unfold write_back_trust_scores. repeat case_match; by intros [= <- <-].
Qed.

Lemma tidy_project_and_rank e params :
  tidy e (let? _ := on_graph (query ProjectTrustGraph (project_trust_graph (graph_name e))) in
          rank_projection (graph_name e) e params).
Proof.
  intros w Hin Hgone. unfold ebind, on_graph, emap_err.
  pose proof (query_in_order e ProjectTrustGraph (project_trust_graph (graph_name e)) w Hin) as Hin1.
  destruct (query ProjectTrustGraph _ w) as [[made|er] w1] eqn:Hq; simpl in *; [by apply rank_projection_drops|].
  split; [|done]. revert Hq. unfold query. destruct Hin as (Hothers & _ & Hkept).
  assert (catalog (seen ProjectTrustGraph w) !! graph_name e = None) as Hseen by (unfold seen; by rewrite Hothers).
  destruct (fates w ProjectTrustGraph) eqn:Hf; [| |by edestruct Hkept];
    try destruct (project_trust_graph (graph_name e) (seen ProjectTrustGraph w)) as [[??]|]; intros [= <- <-]; done.
Qed.

Theorem no_projection_outlives_a_run e params w :
  in_order e w → gone (graph_name e) w → gone (graph_name e) (snd (compute e params w)).
Proof.
  intros Hin Hgone. cut (tidy e (compute e params)); [intros Ht; by apply Ht|]. clear w Hin Hgone.
  unfold compute. case_decide; [apply tidy_ret|].
  apply tidy_ebind; [apply tidy_on_graph, tidy_query; by intros d a d' [= <- <-]|]. intros matched.
  case_decide; [apply tidy_ret|].
  apply tidy_ebind; [apply tidy_on_graph, tidy_query; intros d a d' [= <- <-] Hn|intros dropped].
  { apply map_lookup_filter_None. by left. }
  apply tidy_ebind; [apply tidy_check_estimate|intros _]. apply tidy_project_and_rank.
Qed.

(** ** The report *)

(** The users' scores, highest first, cut at [limit]. *)
Definition higher (r1 r2 : string * F64) : Prop := f64_ge r1.2 r2.2.

#[export] Instance higher_dec : RelDecision higher.
Proof. intros r1 r2. unfold higher. apply _. Defined.

Definition read_trust_scores (limit : Z) (d : Db) : result (list (string * F64) * Db) string :=
  Ok (take (Z.to_nat limit) (merge_sort higher
        (omap (λ nu : Z * UserNode, t ← trust nu.2; Some (uid nu.2, t)) (map_to_list (user_nodes d)))), d).

Definition read_scores (limit : Z) : prog World (result (list (string * F64)) Graph.GraphError) :=
  query ReadTrustScores (read_trust_scores limit).

(** A call on the file system. *)
Definition file_call (l : Label) (f : gmap string string → gmap string string) : prog World (result unit string) := λ w,
  let done :=
    {| db := db w; meddle := meddle w; fates := fates w; committed := committed w; ranking := ranking w;
       details := details w; files := f (files w); report_seq := report_seq w;
       max_iterations_reached := max_iterations_reached w |} in
  match fates w l with
  | Served => (Ok tt, done)
  | Refused e => (Err e, w)
  | ReplyLost e => (Err e, done)
  end.

Definition trust_report_user_details (ids : list string) : prog World (result (gmap string UserReportRow) Graph.GraphError) :=
  λ w, query TrustReportUserDetails
         (λ d, Ok (list_to_map ((λ u, (u, default missing (details w !! u))) <$> ids), d)) w.

Definition pad6 (n : N) : string := String.concat "" (repeat "0" (6 - String.length (pretty n))) +:+ pretty n.

(** [report_file_name], at a second of the clock; the counter is the process's. *)
Definition report_file_name (stamp : string) : prog World string := λ w,
  ("trust-report-" +:+ stamp +:+ "-" +:+ pad6 (report_seq w) +:+ ".csv",
   {| db := db w; meddle := meddle w; fates := fates w; committed := committed w; ranking := ranking w;
      details := details w; files := files w; report_seq := (report_seq w + 1)%N;
      max_iterations_reached := max_iterations_reached w |}).

Definition write_csv (path : string) (scores : list (string * F64)) : prog World (result unit string) :=
  let? found := emap_err Graph.to_string (trust_report_user_details (fst <$> scores)) in
  let? _ := file_call CreateReportDir id in
  file_call WriteReport <[path := csv_text show_f64 found scores]>.

Definition write_timestamped_csv (dir stamp : string) (scores : list (string * F64)) : prog World (result string string) :=
  let? _ := file_call CreateReportDir id in
  let* file := report_file_name stamp in
  let path := dir +:+ "/" +:+ file in
  let? _ := write_csv path scores in
  ret (Ok path).

(** ** The job *)

Record TrustRecomputeJob := {
  params : TrustRankParams;
  engine : TrustRankParams → prog World (result TrustRankStats TrustError);
  publish : prog World (result unit string);
  report_dir : option string;
  report_limit : Z;
}.

Inductive JobError := ComputeFailed (e : TrustError) | PublishFailed (e : string).

Definition count_unconverged (stats : TrustRankStats) : prog World unit := λ w,
  if did_converge stats then (tt, w)
  else (tt, {| db := db w; meddle := meddle w; fates := fates w; committed := committed w; ranking := ranking w;
               details := details w; files := files w; report_seq := report_seq w;
               max_iterations_reached := max_iterations_reached w + 1 |}).

Definition write_report (j : TrustRecomputeJob) (stamp : string) : prog World unit :=
  match report_dir j with
  | None => ret tt
  | Some dir =>
      let* scores := read_scores (report_limit j) in
      match scores with
      | Ok scores => let* _ := write_timestamped_csv dir stamp scores in ret tt
      | Err _ => ret tt
      end
  end.

Definition run (j : TrustRecomputeJob) (stamp : string) : prog World (result unit JobError) :=
  let? stats := emap_err ComputeFailed (engine j (params j)) in
  let* _ := count_unconverged stats in
  let* _ := write_report j stamp in
  emap_err PublishFailed (publish j).

(** [TrustRecomputeJob::build]: a projection is stale once twice the lease has passed. *)
Definition build (trust_rank : TrustRankParams) (publish : prog World (result unit string)) (report_enabled : bool)
    (dir : string) (limit lock_ttl_secs pid millis : Z) : TrustRecomputeJob :=
  {| params := trust_rank;
     engine := compute {| use_l1norm := true; stale_graph_age := wrap_u64 (2 * lock_ttl_secs); process_id := pid;
                          started_at := millis |};
     publish := publish;
     report_dir := if report_enabled then Some dir else None;
     report_limit := limit |}.

(** What a report may change: the graph as others change it, and the files. *)
Definition reported (w w' : World) : Prop :=
  ranking w' = ranking w ∧ fates w' = fates w ∧ meddle w' = meddle w ∧ details w' = details w
  ∧ max_iterations_reached w' = max_iterations_reached w ∧ (report_seq w ≤ report_seq w')%N.

Lemma reported_refl w : reported w w.
Proof. by unfold reported; split_and!. Qed.

Lemma reported_trans w1 w2 w3 : reported w1 w2 → reported w2 w3 → reported w1 w3.
Proof. unfold reported. intros (? & ? & ? & ? & ? & ?) (? & ? & ? & ? & ? & ?). split_and!; (congruence || lia). Qed.

Lemma query_reported {A} l (q : Db → result (A * Db) string) w : reported w (snd (query l q w)).
Proof. destruct (query_spec l q w) as (d & -> & _). by unfold reported; split_and!. Qed.

Lemma file_call_reported l f w : reported w (snd (file_call l f w)).
Proof. unfold file_call. destruct (fates w l); unfold reported; simpl; split_and!; (done || lia). Qed.

Lemma ebind_reported {A B E} (m : prog World (result A E)) (k : A → prog World (result B E)) w :
  reported w (snd (m w)) → (∀ a w', reported w' (snd (k a w'))) → reported w (snd (ebind m k w)).
Proof. intros Hm Hk. unfold ebind. destruct (m w) as [[a|e] w1]; [|done]. eapply reported_trans; [done|apply Hk]. Qed.

Lemma write_csv_reported path scores w : reported w (snd (write_csv path scores w)).
Proof.
  apply ebind_reported.
  { unfold emap_err, trust_report_user_details.
    pose proof (query_reported TrustReportUserDetails
      (λ d, Ok (list_to_map (M := gmap string UserReportRow) ((λ u, (u, default missing (details w !! u))) <$> (fst <$> scores)), d)) w) as Hr.
    by destruct (query _ _ w). }
  intros found w1. apply ebind_reported; [apply file_call_reported|]. intros. apply file_call_reported.
Qed.

Lemma write_report_reported j stamp w : reported w (snd (write_report j stamp w)).
Proof.
  unfold write_report. destruct (report_dir j) as [dir|]; [|apply reported_refl]. unfold bind at 1.
  pose proof (query_reported ReadTrustScores (read_trust_scores (report_limit j)) w) as Hr.
  unfold read_scores. destruct (query _ _ w) as [[scores|e] w1]; simpl in *; [|done]. unfold bind.
  assert (reported w1 (snd (write_timestamped_csv dir stamp scores w1))) as Hw;
    [|destruct (write_timestamped_csv dir stamp scores w1); by eapply reported_trans].
  apply ebind_reported; [apply file_call_reported|]. intros _ w2. unfold bind. simpl. apply (reported_trans _ (snd (report_file_name stamp w2))).
  { unfold reported. simpl. split_and!; try done. lia. }
  apply ebind_reported; [apply write_csv_reported|]. intros. apply reported_refl.
Qed.

(** A recompute publishes exactly when it ranked, whatever becomes of its report: without
    scores it stops there, and with them its outcome is the publication's. *)
Theorem publishes_what_it_ranked j stamp w :
  match engine j (params j) w with
  | (Err e, w1) => run j stamp w = (Err (ComputeFailed e), w1)
  | (Ok stats, w1) => ∃ w2,
      run j stamp w = (let '(r, w3) := publish j w2 in (map_err PublishFailed r, w3))
      ∧ ranking w2 = ranking w1 ∧ fates w2 = fates w1 ∧ meddle w2 = meddle w1
      ∧ max_iterations_reached w2 = max_iterations_reached w1 + (if did_converge stats then 0 else 1)
  end.
Proof.
  unfold run, ebind, emap_err. destruct (engine j (params j) w) as [[stats|e] w1]; simpl; [|done].
  unfold bind at 1. set (w2 := snd (count_unconverged stats w1)).
  replace (count_unconverged stats w1) with (tt, w2) by (unfold w2, count_unconverged; by destruct (did_converge stats)).
  unfold bind. destruct (write_report j stamp w2) as [[] w3] eqn:Hw.
  pose proof (write_report_reported j stamp w2) as Hr. rewrite Hw in Hr. simpl in Hr.
  destruct Hr as (Hr & Hf & Hm & _ & Hc & _). exists w3. split; [done|]. rewrite Hr, Hf, Hm, Hc.
  unfold w2, count_unconverged. destruct (did_converge stats); simpl; split_and!; (done || lia).
Qed.
End Engine.

(** ** An example *)

Module Example_trust.

(** Two points for a source, one for who a source follows. *)
Definition score (sources : gset Z) (edges : gset (Z * Z)) (n : Z) : Z :=
  if decide (n ∈ sources) then 2 else if decide (set_Exists (λ f, f.1 ∈ sources ∧ f.2 = n) edges) then 1 else 0.

Definition scores (sources nodes : gset Z) (edges : gset (Z * Z)) : gmap Z Z :=
  list_to_map ((λ n, (n, score sources edges n)) <$> elements nodes).

Lemma dom_scores sources nodes edges : dom (scores sources nodes edges) = nodes.
Proof.
  unfold scores. rewrite dom_list_to_map_L, <- list_fmap_compose.
  rewrite (list_fmap_ext _ id (elements nodes)) by done. rewrite list_fmap_id. apply list_to_set_elements_L.
Qed.

#[refine] Definition plugin : Plugin := {|
  F64 := Z;
  one_minus x := 1 - x;
  is_positive x := bool_decide (0 < x);
  f64_ge x y := y ≤ x;
  f64_ge_dec x y := _;
  show_f64 x := pretty x;
  page_rank sources nodes edges _ rounds _ _ := Ok (scores sources nodes edges, rounds, true);
  estimated_bytes nodes edges := Some (1000 * Z.of_nat (size nodes));
  streamed := map_to_list;
|}.
Proof.
  - simpl. apply _.
  - simpl. lia.
  - simpl. lia.
  - intros ? ? ? ? ? ? ? ? ? ? [= <- <- <-]. apply dom_scores.
  - done.
Defined.
#[export] Existing Instance plugin.

Definition user (u : string) : UserNode := {| uid := u; trust := None; deleted := false |}.

Definition start : Db :=
  {| user_nodes := {[ 1 := user "seed"; 2 := user "ann"; 3 := user "spam" ]};
     follows := {[ (1, 2); (3, 3) ]}; catalog := ∅; clock := 50 |}.

(** While the ranks are computed, one user is deleted and another created. *)
Definition others (l : Label) (d : Db) : Db :=
  match l with
  | WriteBackTrustScores => set_nodes (<[4 := user "new"]> (delete 3 (user_nodes d))) d
  | _ => d
  end.

Definition world (fates : Label → Fate) : World :=
  {| db := start; meddle := others; fates := fates; committed := 0; ranking := ∅; details := ∅; files := ∅;
     report_seq := 0; max_iterations_reached := 0 |}.

Definition calm : World := world (λ _, Served).

Definition gds : GdsNeo4j := {| use_l1norm := true; stale_graph_age := 100; process_id := 7; started_at := 1234 |}.

Definition config (seeds : list string) (cap : option Z) : TrustRankParams :=
  {| seed_ids := seeds; alpha := 0; max_iterations := 20; tolerance := 0; max_projection_bytes := cap |}.

Lemma gds_undisturbed f : undisturbed gds (world f).
Proof. by intros []. Qed.

Example no_seeds_no_run :
  fst (compute gds (config [] None) calm) = Err SeedIsEmpty
  ∧ fst (compute gds (config ["nobody"; "none"] None) calm) = Err (NoneOfTheSeedsExist 2)
  ∧ fst (compute gds (config ["seed"] (Some 2000)) calm) = Err (EstimateExceedsCap 3000 2000).
Proof. vm_compute. done. Qed.

Lemma ranks_from_the_seeds_witness :
  fst (compute gds (config ["seed"; "nobody"] (Some 4000)) calm)
  = Ok {| users_written := 2; ran_iterations := 20; did_converge := true |}
  ∧ 2 = Z.of_nat (size (dom (user_nodes start) ∩ ({[ 1; 2; 4 ]} : gset Z)))
  ∧ seed_nodes ["seed"; "nobody"] (ranked_from gds calm) ≠ ∅
  ∧ trust <$> user_nodes (db (snd (compute gds (config ["seed"; "nobody"] (Some 4000)) calm))) !! 2 = Some (Some 1)
  ∧ trust <$> user_nodes (db (snd (compute gds (config ["seed"; "nobody"] (Some 4000)) calm))) !! 4 = Some None.
Proof.
  set (stats := {| users_written := 2; ran_iterations := 20; did_converge := true |}).
  set (w' := snd (compute gds (config ["seed"; "nobody"] (Some 4000)) calm)).
  assert (fst (compute gds (config ["seed"; "nobody"] (Some 4000)) calm) = Ok stats) as Hok by by vm_compute.
  assert (compute gds (config ["seed"; "nobody"] (Some 4000)) calm = (Ok stats, w')) as Hrun
    by (rewrite <- Hok; apply surjective_pairing).
  split; [exact Hok|]. split; [by vm_compute|].
  split; [|split; by vm_compute].
  exact (match ranks_from_the_seeds gds (config ["seed"; "nobody"] (Some 4000)) calm stats w' (gds_undisturbed _) Hrun
         with ex_intro _ _ (conj Hs _) => Hs end).
Defined.

(** A ranking that fails drops its projection as well. *)
Definition broken : World :=
  world (λ l, match l with TrustRankPagerankMutate => ReplyLost "timeout" | _ => Served end).

Lemma no_projection_outlives_a_run_witness :
  fst (compute gds (config ["seed"] None) broken) = Err (OfGraph (Graph.QueryFailed "timeout"))
  ∧ gone (graph_name gds) (snd (compute gds (config ["seed"] None) broken)).
Proof.
  split; [by vm_compute|]. apply no_projection_outlives_a_run; [|done]. split_and!; [apply gds_undisturbed|done|done].
Defined.

(** The job ranks, reports and publishes; it publishes without its report too. *)
Definition job : TrustRecomputeJob :=
  build (config ["seed"] None) (λ w, (Ok tt, w)) true "/reports" 10 60 7 1234.

Definition report_of (w : World) : option (list string) * result unit JobError :=
  let '(r, w) := run job "20260708T030005Z" w in
  (text ← files w !! "/reports/trust-report-20260708T030005Z-000000.csv"; Some (omap head (read Start "" [] text)), r).

Example reports_when_it_can :
  report_of calm = (Some ["id"; "seed"; "ann"], Ok tt)
  ∧ report_of (world (λ l, match l with WriteReport => Refused "disk full" | _ => Served end)) = (None, Ok tt).
Proof. vm_compute. done. Qed.

End Example_trust.
