(* ===== verification/SocialGraph.v ===== *)
(** * The social graph badge

    nexus-common/src/models/user/social_graph.rs: the users by trust, published to a sorted
    set by position, and the badge read from it. The cut of the top slice is computed in
    floating point, as the code has it; it is shown to be a twentieth, rounded up. *)

From S2P Require Import Prelude Errors TrustReport TrustRank.
Local Open Scope Z_scope.
Local Open Scope nexus_scope.
#[local] Remove Hints finite.finite_countable : typeclass_instances.

Inductive SocialGraphStatus := New | Networked | Established.

(** The nearest [f64] to 0.05 is this over 2^56. *)
Definition ESTABLISHED_FRACTION : Z := 3602879701896397.

Definition div_up (x y : Z) : Z := (x + y - 1) / y.

(** The product is rounded to the nearest [f64]; scaling by 2^56 is exact. *)
Definition established_cut (population : Z) : Z :=
  div_up (as_f64 (as_f64 population * ESTABLISHED_FRACTION)) (2 ^ 56).

Definition classify (population : Z) (ranks : list (option Z)) : list (option SocialGraphStatus) :=
  if decide (population = 0) then (λ _, None) <$> ranks
  else
    (λ rank, Some match rank with
                  | None => New
                  | Some rank => if decide (rank ≤ established_cut population) then Established else Networked
                  end) <$> ranks.

Definition rank_elements (ranked : list string) : list (Z * string) :=
  imap (λ i user_id, (as_f64 (Z.of_nat i + 1), user_id)) ranked.

(** ** The cut *)

(** Rounding moves a number by at most half the weight of its last place. *)
Lemma as_f64_near x : 0 < x → 2 ^ 53 * Z.abs (as_f64 x - x) ≤ x.
Proof.
  intros Hx. unfold as_f64. case_decide as Hbig; [lia|]. rewrite (Z.abs_eq x), (Z.sgn_pos x) in * by lia.
  set (e := Z.log2 x - 52). assert (53 ≤ Z.log2 x) as Hlog by (apply Z.log2_le_pow2; lia).
  assert (2 ^ e * 2 ^ 52 ≤ x) as Hulp.
  { rewrite <- Z.pow_add_r by lia. unfold e. rewrite Z.sub_add. by apply Z.log2_spec. }
  assert (0 < 2 ^ e) as He by (apply Z.pow_pos_nonneg; lia).
  pose proof (Z.div_mod x (2 ^ e) ltac:(lia)) as Hdiv. pose proof (Z.mod_pos_bound x (2 ^ e) He) as Hmod.
  set (q := x / 2 ^ e) in *. set (r := x `mod` 2 ^ e) in *. case_decide; nia.
Qed.

(** A multiple of 2^56 plus a little rounds to the multiple. *)
Lemma as_f64_down k : 0 < k → k ≤ 2 ^ 48 → as_f64 (k * 2 ^ 56 + 4 * k) = k * 2 ^ 56.
Proof.
  intros Hk Hmax. unfold as_f64. rewrite Z.abs_eq, Z.sgn_pos by lia. rewrite decide_False by lia.
  set (l := Z.log2 k). pose proof (Z.log2_spec k Hk) as Hl. fold l in Hl.
  assert (0 ≤ l) as Hl0 by apply Z.log2_nonneg.
  assert (Z.log2 (k * 2 ^ 56 + 4 * k) = l + 56) as Hlog.
  { apply Z.log2_unique; [lia|]. rewrite (Z.pow_succ_r 2 l) in Hl by done.
    replace (Z.succ (l + 56)) with (l + 57) by lia. rewrite !Z.pow_add_r by lia. lia. }
  rewrite Hlog. replace (l + 56 - 52) with (l + 4) by lia.
  assert (l ≤ 48) as Hl48.
  { apply (Z.log2_le_mono k (2 ^ 48)) in Hmax. by rewrite Z.log2_pow2 in Hmax by lia. }
  assert (k * 2 ^ 56 = k * 2 ^ (52 - l) * 2 ^ (l + 4)) as Hfactor.
  { rewrite <- Z.mul_assoc, <- Z.pow_add_r by lia. do 2 f_equal. lia. }
  assert (4 * k * 2 < 2 ^ (l + 4)) as Hsmall.
  { rewrite Z.pow_add_r by lia. rewrite Z.pow_succ_r in Hl by done. lia. }
  set (M := 2 ^ (l + 4)) in *. set (K := k * 2 ^ (52 - l)) in *.
  assert ((k * 2 ^ 56 + 4 * k) / M = K) as -> by (symmetry; apply (Z.div_unique_pos _ _ _ (4 * k)); lia).
  assert ((k * 2 ^ 56 + 4 * k) `mod` M = 4 * k) as -> by (symmetry; apply (Z.mod_unique_pos _ _ K); lia).
  rewrite decide_False by lia. lia.
Qed.

(** The cut computed in floating point is a twentieth of the population, rounded up. *)
Lemma established_cut_is_a_twentieth population :
  0 < population → population ≤ 2 ^ 48 → established_cut population = div_up population 20.
Proof.
  intros Hpos Hmax. unfold established_cut, div_up. rewrite (as_f64_exact population) by lia.
  set (x := population * ESTABLISHED_FRACTION).
  assert (20 * x = population * 2 ^ 56 + 4 * population) as Hx by (unfold x, ESTABLISHED_FRACTION; lia).
  pose proof (Z.div_mod (population + 20 - 1) 20 ltac:(lia)) as Hdiv.
  pose proof (Z.mod_pos_bound (population + 20 - 1) 20 ltac:(lia)) as Hmod.
  set (k := (population + 20 - 1) / 20) in *. set (r := (population + 20 - 1) `mod` 20) in *.
  symmetry. destruct (decide (r = 19)) as [Hr|Hr].
  - assert (x = k * 2 ^ 56 + 4 * k) as -> by lia. rewrite as_f64_down by lia.
    apply (Z.div_unique_pos _ _ _ (2 ^ 56 - 1)); lia.
  - pose proof (as_f64_near x ltac:(lia)) as Hnear.
    apply (Z.div_unique_pos _ _ _ (as_f64 x + 2 ^ 56 - 1 - 2 ^ 56 * k)); lia.
Qed.

(** ** Publishing and reading the ranking *)

Section Badge.
Context `{Plugin}.

(** [ORDER BY u.trust DESC, user_id ASC] *)
Definition ranks_before (r1 r2 : string * F64) : Prop :=
  f64_ge r1.2 r2.2 ∧ (f64_ge r2.2 r1.2 → str_le r1.1 r2.1).

#[export] Instance ranks_before_dec : RelDecision ranks_before.
Proof. intros r1 r2. unfold ranks_before. apply _. Defined.

#[export] Instance ranks_before_total : Total ranks_before.
Proof.
  intros [u1 t1] [u2 t2]. unfold ranks_before. simpl. pose proof (f64_ge_total t1 t2).
  destruct (decide (f64_ge t1 t2)), (decide (f64_ge t2 t1)), (total str_le u1 u2); tauto.
Qed.

#[export] Instance ranks_before_trans : Transitive ranks_before.
Proof.
  intros [u1 t1] [u2 t2] [u3 t3] [H12 L12] [H23 L23]. simpl in *. split; simpl; [by eapply f64_ge_trans|].
  intros H31. etrans; [apply L12|apply L23]; by eapply f64_ge_trans.
Qed.

(** [ranked_user]; a user of no score has none to be positive. *)
Definition ranked_row (u : UserNode) : option (string * F64) :=
  t ← trust u; if is_positive t && negb (deleted u) then Some (uid u, t) else None.

Definition ranked_rows (d : Db) : list (string * F64) :=
  merge_sort ranks_before (omap (ranked_row ∘ snd) (map_to_list (user_nodes d))).

Definition get_trust_ranked_user_ids (d : Db) : result (list string * Db) string := Ok (fst <$> ranked_rows d, d).

(** A call on the ranking. *)
Definition ranking_call {A} (l : Label) (f : gmap string Z → A * gmap string Z) : prog World (result A Kv.RedisError) := λ w,
  let '(a, z) := f (ranking w) in
  let done :=
    {| db := db w; meddle := meddle w; fates := fates w; committed := committed w; ranking := z;
       details := details w; files := files w; report_seq := report_seq w;
       max_iterations_reached := max_iterations_reached w |} in
  match fates w l with
  | Served => (Ok a, done)
  | Refused e => (Err (Kv.CommandFailed e), w)
  | ReplyLost e => (Err (Kv.CommandFailed e), done)
  end.

(** [replace_index_sorted_set]: one script, or DEL for no elements. *)
Definition replace_index_sorted_set (elements : list (Z * string)) : prog World (result unit Kv.RedisError) :=
  ranking_call ReplaceRanking (λ _, (tt, foldl (λ z e, <[e.2 := e.1]> z) ∅ elements)).

(** [index_sorted_set_card_and_members]: one transaction. *)
Definition index_sorted_set_card_and_members (members : list string) :
    prog World (result (Z * list (option Z)) Kv.RedisError) :=
  ranking_call ReadRanking (λ z, (Z.of_nat (size z), (λ m, z !! m) <$> members, z)).

Definition reindex : prog World (result unit Model.ModelError) :=
  let? ranked := emap_err Model.GraphOperationFailed (query GetTrustRankedUserIds get_trust_ranked_user_ids) in
  emap_err Model.KvOperationFailed (replace_index_sorted_set (rank_elements ranked)).

Definition get_by_ids (user_ids : list string) : prog World (result (list (option SocialGraphStatus)) Kv.RedisError) :=
  match user_ids with
  | [] => ret (Ok [])
  | _ =>
      let? cr := index_sorted_set_card_and_members user_ids in
      let '(population, ranks) := cr in
      ret (Ok (classify population ranks))
  end.

Definition get_by_id (user_id : string) : prog World (result (option SocialGraphStatus) Kv.RedisError) :=
  let? found := get_by_ids [user_id] in
  ret (Ok (mjoin (head found))).

Lemma status_slots user_ids w l w' : get_by_ids user_ids w = (Ok l, w') → length l = length user_ids.
Proof.
  destruct user_ids as [|u us]; [by intros [= <- _]|].
  unfold get_by_ids, index_sorted_set_card_and_members, ranking_call, ebind.
  destruct (fates w ReadRanking); intros [= <- _]; unfold classify; case_decide; simpl; by rewrite ?length_fmap.
Qed.

(** ** What the badge says *)

(** By its place among the ranked users, highest trust first. *)
Definition status_of (ranked : list string) (user_id : string) : option SocialGraphStatus :=
  if decide (ranked = []) then None
  else Some match list_find (user_id =.) ranked with
            | None => New
            | Some (i, _) => if decide (20 * Z.of_nat i < Z.of_nat (length ranked)) then Established else Networked
            end.

(** A user's id is on one node. *)
Definition unique_ids (d : Db) : Prop :=
  ∀ n m u v, user_nodes d !! n = Some u → user_nodes d !! m = Some v → uid u = uid v → n = m.

Lemma ranked_row_uid u r : ranked_row u = Some r → uid u = r.1.
Proof. unfold ranked_row. destruct (trust u); simpl; [|done]. destruct (_ && _); [|done]. by intros [= <-]. Qed.

Lemma ranked_NoDup d : unique_ids d → NoDup (ranked_rows d).*1.
Proof.
  intros Huniq. unfold ranked_rows. rewrite merge_sort_Permutation.
  assert (∀ l : list (Z * UserNode), (∀ x, x ∈ l → user_nodes d !! x.1 = Some x.2) → NoDup l.*1 →
    NoDup (omap (ranked_row ∘ snd) l).*1) as Hl; [|apply Hl; [|apply NoDup_fst_map_to_list]].
  - induction l as [|[n u] l IH]; intros Hin Hnd; [constructor|]. simpl in Hnd. apply NoDup_cons in Hnd as [Hn Hnd].
    specialize (IH (λ x Hx, Hin x (list_elem_of_further _ _ _ Hx)) Hnd). simpl.
    destruct (ranked_row u) as [r|] eqn:Hr; [|done]. simpl. apply NoDup_cons. split; [|done].
    intros ([r' Ht] & Heq & (  [m v] & Hmv & Hv)%list_elem_of_omap)%list_elem_of_fmap. simpl in *.
    apply ranked_row_uid in Hr, Hv. simpl in *. apply Hn. apply list_elem_of_fmap. exists (m, v). split; [|done].
    simpl. apply (Huniq n m u v); [by apply (Hin (n, u)), list_elem_of_here|by apply (Hin (m, v)); right|congruence].
  - intros [n u] Hin. by apply elem_of_map_to_list in Hin.
Qed.

Lemma length_ranked_rows d : (length (ranked_rows d) ≤ size (user_nodes d))%nat.
Proof.
  unfold ranked_rows. rewrite merge_sort_Permutation, <- length_map_to_list.
  induction (map_to_list (user_nodes d)) as [|[n x] l IH]; csimpl; [done|]. case_match; csimpl; lia.
Qed.

Lemma ranked_rows_spec d u t :
  (u, t) ∈ ranked_rows d ↔ ∃ n x, user_nodes d !! n = Some x ∧ ranked_row x = Some (u, t).
Proof.
  unfold ranked_rows. rewrite merge_sort_Permutation, list_elem_of_omap. split.
  - intros ([n x] & Hin & Hr). apply elem_of_map_to_list in Hin. eauto.
  - intros (n & x & Hn & Hr). exists (n, x). split; [by apply elem_of_map_to_list|done].
Qed.

(** The ranking of a list: the position of each. *)
Lemma ranking_lookup ranked (z : gmap string Z) k u :
  NoDup ranked → Z.of_nat (k + length ranked) ≤ 2 ^ 53 →
  foldl (λ z e, <[e.2 := e.1]> z) z (imap (λ i u, (as_f64 (Z.of_nat (k + i) + 1), u)) ranked) !! u
  = match list_find (u =.) ranked with Some (i, _) => Some (Z.of_nat (k + i) + 1) | None => z !! u end.
Proof.
  revert z k. induction ranked as [|v ranked IH]; intros z k Hnd Hlen; [done|].
  apply NoDup_cons in Hnd as [Hv Hnd]. simpl in *.
  rewrite (imap_ext _ (λ i u, (as_f64 (Z.of_nat (S k + i) + 1), u))) by (intros; simpl; do 3 f_equal; lia).
  rewrite IH by (done || lia). clear IH. rewrite as_f64_exact by lia. rewrite ?Nat.add_0_r.
  case_decide as Huv.
  - subst v. destruct (list_find (u =.) ranked) as [[i x]|] eqn:Hf; [|by rewrite lookup_insert_eq, Nat.add_0_r].
    apply list_find_Some in Hf as (Hi & <- & _). apply list_elem_of_lookup_2 in Hi. done.
  - destruct (list_find (u =.) ranked) as [[i x]|]; simpl; [f_equal; lia|by rewrite lookup_insert_ne].
Qed.

Lemma ranking_size (f : nat → Z) ranked (z : gmap string Z) :
  NoDup ranked → (∀ u, u ∈ ranked → z !! u = None) →
  size (foldl (λ z e, <[e.2 := e.1]> z) z (imap (λ i u, (f i, u)) ranked)) = (length ranked + size z)%nat.
Proof.
  revert f z. induction ranked as [|v ranked IH]; intros f z Hnd Hz; [done|]. apply NoDup_cons in Hnd as [Hv Hnd]. simpl.
  rewrite (IH (f ∘ S)); [|done|].
  - rewrite map_size_insert_None by (apply Hz; left). lia.
  - intros u Hu. rewrite lookup_insert_ne by (by intros ->). apply Hz. by right.
Qed.

Definition published (ranked : list string) : gmap string Z := foldl (λ z e, <[e.2 := e.1]> z) ∅ (rank_elements ranked).

Lemma classify_published ranked ids :
  NoDup ranked → Z.of_nat (length ranked) ≤ 2 ^ 48 →
  classify (Z.of_nat (size (published ranked))) ((λ m, published ranked !! m) <$> ids) = status_of ranked <$> ids.
Proof.
  intros Hnd Hlen. unfold published, rank_elements, classify, status_of.
  rewrite ranking_size, map_size_empty, Nat.add_0_r by (done || by intros; apply lookup_empty).
  destruct (decide (ranked = [])) as [->|Hne]; simpl; [by rewrite <- list_fmap_compose|].
  assert (0 < Z.of_nat (length ranked)) as Hpos by (destruct ranked; simpl in *; [done|lia]).
  rewrite decide_False by lia. rewrite <- list_fmap_compose. apply list_fmap_ext. intros _ u _. simpl. f_equal.
  rewrite (ranking_lookup ranked ∅ 0 u) by (done || lia). rewrite lookup_empty.
  destruct (list_find (u =.) ranked) as [[i x]|]; [|done]. rewrite established_cut_is_a_twentieth by lia.
  unfold div_up. pose proof (Z.div_mod (Z.of_nat (length ranked) + 20 - 1) 20 ltac:(lia)) as Hdiv.
  pose proof (Z.mod_pos_bound (Z.of_nat (length ranked) + 20 - 1) 20 ltac:(lia)) as Hmod. simpl.
  apply decide_ext. lia.
Qed.

(** C35: Once the ranking is published, a read says of each user asked for, one by one, that
    they are established when they are in the top twentieth of the users of positive trust,
    networked further down, new when they have none, and nothing while nobody is ranked. *)
Theorem the_badge_is_the_place user_ids w :
  let d := seen GetTrustRankedUserIds w in
  unique_ids d → Z.of_nat (size (user_nodes d)) ≤ 2 ^ 48 →
  fates w GetTrustRankedUserIds = Served → fates w ReplaceRanking = Served → fates w ReadRanking = Served →
  ∃ w1 w2, reindex w = (Ok tt, w1)
    ∧ get_by_ids user_ids w1 = (Ok (status_of (ranked_rows d).*1 <$> user_ids), w2)
    ∧ StronglySorted ranks_before (ranked_rows d)
    ∧ ∀ u t, (u, t) ∈ ranked_rows d ↔ ∃ n x, user_nodes d !! n = Some x ∧ ranked_row x = Some (u, t).
Proof.
  intros d Huniq Hmax Hf1 Hf2 Hf3. set (ranked := (ranked_rows d).*1).
  assert (NoDup ranked) as Hnd by by apply ranked_NoDup.
  assert (Z.of_nat (length ranked) ≤ 2 ^ 48) as Hlen by (unfold ranked; pose proof (length_ranked_rows d); rewrite length_fmap; lia).
  eexists _, _. split; [unfold reindex, query, ebind, emap_err; rewrite Hf1; simpl;
    unfold replace_index_sorted_set, ranking_call; simpl; by rewrite Hf2|].
  split; [|split; [apply StronglySorted_merge_sort; apply _|apply ranked_rows_spec]].
  destruct user_ids as [|u us]; [done|]. unfold get_by_ids, index_sorted_set_card_and_members, ebind, ranking_call.
  simpl. rewrite Hf3. exact (f_equal (λ l, (Ok l, _)) (classify_published ranked (u :: us) Hnd Hlen)).
Qed.
End Badge.

(** ** An example *)

Module Example_badge.
Import TrustRank.Example_trust.

Definition scored_user (u : string) (t : Z) : UserNode := {| uid := u; trust := Some t; deleted := false |}.

Definition population : Db :=
  {| user_nodes := {[ 1 := scored_user "ann" 5; 2 := scored_user "bob" 7; 3 := scored_user "spam" 0; 4 := user "new" ]};
     follows := ∅; catalog := ∅; clock := 0 |}.

Definition ranked_world : World :=
  {| db := population; meddle := λ _ d, d; fates := λ _, Served; committed := 0; ranking := {[ "gone" := 1 ]};
     details := ∅; files := ∅; report_seq := 0; max_iterations_reached := 0 |}.

Lemma population_unique : unique_ids population.
Proof.
  assert (Forall (λ nu : Z * UserNode, (nu.1, uid nu.2) ∈ [(1, "ann"); (2, "bob"); (3, "spam"); (4, "new")])
            (map_to_list (user_nodes population))) as Hall by (apply (bool_decide_eq_true_1 _); by vm_compute).
  rewrite Forall_forall in Hall. intros n m u v Hn%elem_of_map_to_list%Hall Hm%elem_of_map_to_list%Hall Heq.
  simpl in *. rewrite Heq in Hn. rewrite !elem_of_cons, elem_of_nil in Hn, Hm. intuition congruence.
Qed.

(** The first of two is the top twentieth; spam has no positive trust, and the last user no trust. *)
Lemma the_badge_is_the_place_witness :
  ∃ w1 w2, reindex ranked_world = (Ok tt, w1)
    ∧ get_by_ids ["bob"; "ann"; "spam"; "new"; "gone"] w1
      = (Ok [Some Established; Some Networked; Some New; Some New; Some New], w2).
Proof.
  assert (status_of (ranked_rows population).*1 <$> ["bob"; "ann"; "spam"; "new"; "gone"]
          = [Some Established; Some Networked; Some New; Some New; Some New]) as Hs by by vm_compute.
  destruct (the_badge_is_the_place ["bob"; "ann"; "spam"; "new"; "gone"] ranked_world population_unique
              ltac:(by vm_compute) ltac:(done) ltac:(done) ltac:(done)) as (w1 & w2 & H1 & H2 & _).
  exists w1, w2. split; [exact H1|]. rewrite <- Hs. exact H2.
Defined.

End Example_badge.
