(* ===== verification/HotTags.v ===== *)
(** * Hot tags

    nexus-common/src/models/tag/stream.rs and global.rs, with the handlers of
    nexus-webapi/src/routes/v0/tag/global.rs and the job of nexusd/src/jobs/catalog/hot_tags.rs:
    the most used labels of a timeframe with some of their taggers. A scan of the graph is
    cached under two keys, written one after the other, from which pages are put together
    again. Requests, jobs and expiries run as threads. The keys here are one timeframe's. *)

From S2P Require Import Prelude Errors Threads Ranges Follows Reach Rankings.
Local Open Scope nexus_scope.
Local Open Scope thread_scope.
#[local] Remove Hints finite.finite_countable : typeclass_instances.

(** ** The graph *)

Inductive TaggedType := TaggedPost | TaggedUser.

#[export] Instance TaggedType_eq_dec : EqDecision TaggedType.
Proof. solve_decision. Defined.

(** TAGGED: the tagged node by its kind and id. *)
Record Tagging := { tagger : string; label : string; tagged : TaggedType * string; indexed_at : Z }.

(** With who follows whom, and the clock. *)
Record TagGraph := { taggings : list Tagging; social : ReachGraph; now : Z }.

Record HotTag := { hot_label : string; taggers_id : list string; tagged_count : Z; taggers_count : nat }.

Record HotTagsInputDTO := {
  timeframe : Timeframe;
  skip : nat;
  limit : nat;
  taggers_limit : nat;
  tagged_type : option TaggedType;
}.

Definition GLOBAL_HOT_TAGS_CACHE_SIZE : nat := 100.
Definition GLOBAL_HOT_TAGS_TAGGERS_LIMIT : nat := 20.
Definition BOOTSTRAP_HOT_TAGS_LIMIT : nat := 5.

Definition of_type (k : option TaggedType) (t : Tagging) : Prop :=
  match k with Some k => fst (tagged t) = k | None => True end.

#[export] Instance of_type_dec k t : Decision (of_type k t).
Proof. unfold of_type. destruct k; apply _. Defined.

(** The taggings a query of the input ranges over. *)
Definition matched (input : HotTagsInputDTO) (g : TagGraph) : list Tagging :=
  let '(from, to) := to_timestamp_range (now g) (timeframe input) in
  filter (λ t, (from ≤ indexed_at t < to)%Z ∧ of_type (tagged_type input) t) (taggings g).

(** One label of the rows: the lowest tagger ids up to the limit, and the distinct counts. *)
Definition hot_tag (taggers_limit : nat) (rows : list Tagging) (l : string) : HotTag :=
  let mine := filter (λ t, label t = l) rows in
  let taggers := merge_sort str_le (remove_dups (tagger <$> mine)) in
  {| hot_label := l;
     taggers_id := take taggers_limit taggers;
     tagged_count := Z.of_nat (length (remove_dups (tagged <$> mine)));
     taggers_count := length taggers |}.

(** [ORDER BY hot_tag.tagged_count DESC, hot_tag.label ASC] *)
Definition hotter (a b : HotTag) : Prop :=
  (tagged_count b < tagged_count a)%Z ∨ (tagged_count a = tagged_count b ∧ str_le (hot_label a) (hot_label b)).

#[export] Instance hotter_dec : RelDecision hotter.
Proof. intros a b. unfold hotter. apply _. Defined.

Definition ranked_tags (input : HotTagsInputDTO) (rows : list Tagging) : list HotTag :=
  take (limit input) (drop (skip input)
    (merge_sort hotter (hot_tag (taggers_limit input) rows <$> remove_dups (label <$> rows)))).

Definition get_global_hot_tags_query (input : HotTagsInputDTO) (g : TagGraph) : list HotTag :=
  ranked_tags input (matched input g).

(** The reached users of a user there is. *)
Definition reach_of (user_id : string) (reach : StreamReach) (g : TagGraph) : list string :=
  if decide (user_id ∈ users (follow_graph (social g))) then remove_dups (reach_rows (social g) user_id reach) else [].

Definition get_hot_tags_by_reach_query (user_id : string) (reach : StreamReach) (input : HotTagsInputDTO) (g : TagGraph) :
    list HotTag :=
  ranked_tags input (filter (λ t, tagger t ∈ reach_of user_id reach g) (matched input g)).

(** The reached taggers of a label's posts, who tagged last first. *)
Definition later (a b : string * Z) : Prop := (b.2 < a.2)%Z ∨ (a.2 = b.2 ∧ str_le a.1 b.1).

#[export] Instance later_dec : RelDecision later.
Proof. intros a b. unfold later. apply _. Defined.

Definition get_tag_taggers_by_reach_query (l user_id : string) (reach : StreamReach) (skip limit : nat) (g : TagGraph) :
    list string :=
  let rows := filter (λ t, label t = l ∧ fst (tagged t) = TaggedPost ∧ tagger t ∈ reach_of user_id reach g) (taggings g) in
  let latest u := match indexed_at <$> filter (λ t, tagger t = u) rows with [] => 0%Z | i :: is_ => foldr Z.max i is_ end in
  fst <$> take limit (drop skip (merge_sort later ((λ u, (u, latest u)) <$> remove_dups (tagger <$> rows)))).

(** ** The cache *)

Record CachedTaggers := { cached_list : list string; total : nat }.

(** [graphs] is history only: what the graph and the clock have been. *)
Record World := {
  graph : TagGraph;
  scores : option (gmap string Z);
  taggers_json : option (gmap string CachedTaggers);
  graphs : list TagGraph;
}.

Definition set_scores (z : option (gmap string Z)) (w : World) : World :=
  {| graph := graph w; scores := z; taggers_json := taggers_json w; graphs := graphs w |}.
Definition set_taggers (c : option (gmap string CachedTaggers)) (w : World) : World :=
  {| graph := graph w; scores := scores w; taggers_json := c; graphs := graphs w |}.

Definition read {A} (f : World → A) : prog World A := λ w, (f w, w).

(** [get_taggers_by_pagination] *)
Definition get_taggers_by_pagination (taggers : list string) (skip limit : nat) : list string := take limit (drop skip taggers).

(** One label of a page: a score whose taggers are not there is dropped. *)
Definition rebuild (taggers_limit : nat) (by_label : gmap string CachedTaggers) (e : string * Z) : option HotTag :=
  c ← by_label !! e.1;
  Some {| hot_label := e.1;
          taggers_id := get_taggers_by_pagination (cached_list c) 0 taggers_limit;
          tagged_count := e.2;
          taggers_count := total c |}.

(** [try_from_index_sorted_set], descending *)
Definition window (input : HotTagsInputDTO) (z : gmap string Z) : list (string * Z) :=
  take (limit input) (drop (skip input) (rev_range None None z)).

Definition read_window (input : HotTagsInputDTO) (w : World) : option (list (string * Z)) :=
  match scores w with Some z => Some (window input z) | None => None end.

(** What two cached values say of a window. *)
Definition page_of (input : HotTagsInputDTO) (z : gmap string Z) (by_label : gmap string CachedTaggers) : list HotTag :=
  omap (rebuild (taggers_limit input) by_label) (window input z).

Definition get_from_global_cache (input : HotTagsInputDTO) : thread World (option (list HotTag)) :=
  do* by_label := call (read taggers_json) in
  do* rows := call (read (read_window input)) in
  Done (match rows, by_label with
        | Some rows, Some by_label => Some (omap (rebuild (taggers_limit input) by_label) rows)
        | _, _ => None
        end).

(** What is written of a scan. *)
Definition scores_of (tags : list HotTag) : gmap string Z :=
  foldl (λ z t, <[hot_label t := as_f64 (tagged_count t)]> z) ∅ tags.
Definition taggers_of (tags : list HotTag) : gmap string CachedTaggers :=
  foldl (λ c t, <[hot_label t := {| cached_list := taggers_id t; total := taggers_count t |}]> c) ∅ tags.

Definition put_to_global_cache (tags : list HotTag) : thread World unit :=
  do* _ := call (λ w, (tt, set_taggers (Some (taggers_of tags)) w)) in
  call (λ w, (tt, set_scores (Some (scores_of tags)) w)).

Definition write_or_preserve_cache (result : option (list HotTag)) : thread World unit :=
  match result with
  | Some (t :: tags) => put_to_global_cache (t :: tags)
  | _ => Done tt
  end.

Definition scan_input (t : Timeframe) : HotTagsInputDTO :=
  {| timeframe := t; limit := GLOBAL_HOT_TAGS_CACHE_SIZE; skip := 0; taggers_limit := GLOBAL_HOT_TAGS_TAGGERS_LIMIT;
     tagged_type := Some TaggedPost |}.

Definition fetch_and_cache (t : Timeframe) : thread World unit :=
  do* result := call (read (λ w, Some (get_global_hot_tags_query (scan_input t) (graph w)))) in
  write_or_preserve_cache result.

Definition get_global_hot_tags (input : HotTagsInputDTO) : thread World (option (list HotTag)) :=
  do* found := get_from_global_cache input in
  match found with
  | Some cached => Done (Some cached)
  | None =>
      if decide (GLOBAL_HOT_TAGS_CACHE_SIZE ≤ skip input) then Done (Some [])
      else
        do* _ := fetch_and_cache (timeframe input) in
        get_from_global_cache input
  end.

Definition get_hot_tags (user_id : option string) (reach : option StreamReach) (input : HotTagsInputDTO) :
    thread World (option (list HotTag)) :=
  match user_id with
  | Some user_id =>
      call (read (λ w, Some (get_hot_tags_by_reach_query user_id (default Following reach) input (graph w))))
  | None => get_global_hot_tags input
  end.

(** [Taggers::get_global_taggers] *)
Definition get_global_taggers (l : string) (user_id : option string) (reach : option StreamReach) (skip limit : nat) :
    thread World (option (list string)) :=
  match user_id with
  | None =>
      do* by_label := call (read taggers_json) in
      Done (by_label ← by_label; c ← by_label !! l; Some (get_taggers_by_pagination (cached_list c) skip limit))
  | Some id =>
      call (read (λ w, Some (get_tag_taggers_by_reach_query l id (default Following reach) skip limit (graph w))))
  end.

(** ** The handlers *)

Inductive Response A := Json (a : A) | InvalidInput (message : string).
Arguments Json {A} _.
Arguments InvalidInput {A} _.

Definition hot_tags_handler (user_id : option string) (reach : option StreamReach) (taggers_limit : option nat)
    (t : option Timeframe) (skip limit : nat) : thread World (Response (list HotTag)) :=
  if xorb (bool_decide (is_Some user_id)) (bool_decide (is_Some reach)) then
    Done (InvalidInput "user_id and reach should be both provided together")
  else
    let input := {| timeframe := default AllTime t; skip := skip; limit := limit;
                    taggers_limit := default 20 taggers_limit; tagged_type := Some TaggedPost |} in
    do* found := get_hot_tags user_id reach input in
    Done (Json (default [] found)).

Definition tag_taggers_handler (l : string) (user_id : option string) (reach : option StreamReach) (skip limit : nat) :
    thread World (Response (list string)) :=
  if xorb (bool_decide (is_Some user_id)) (bool_decide (is_Some reach)) then
    Done (InvalidInput "user_id and reach should be both provided together")
  else
    do* found := get_global_taggers l user_id reach skip limit in
    Done (Json (default [] found)).

(** ** A scan, stored and put together again *)

Section Scan.
Context (t : Timeframe).

Definition snapshot (g : TagGraph) : list HotTag := get_global_hot_tags_query (scan_input t) g.

#[local] Instance hotter_total : Total hotter.
Proof.
  intros a b. unfold hotter. destruct (Z.lt_trichotomy (tagged_count a) (tagged_count b)) as [?|[?|?]]; [auto| |auto].
  destruct (base.total str_le (hot_label a) (hot_label b)); [left|right]; auto.
Qed.

Lemma snapshot_NoDup g : NoDup (hot_label <$> snapshot g).
Proof.
  unfold snapshot, get_global_hot_tags_query, ranked_tags. rewrite fmap_take, fmap_drop.
  eapply sublist_NoDup; [|etrans; [apply sublist_take|apply sublist_drop]].
  rewrite merge_sort_Permutation, <- list_fmap_compose.
  rewrite (list_fmap_ext _ id) by done. rewrite list_fmap_id. apply NoDup_remove_dups.
Qed.

Lemma foldl_insert_lookup {A} (f : HotTag → A) tags (z : gmap string A) l :
  NoDup (hot_label <$> tags) →
  foldl (λ z h, <[hot_label h := f h]> z) z tags !! l
  = match list_find (λ h, hot_label h = l) tags with Some (_, h) => Some (f h) | None => z !! l end.
Proof.
  revert z. induction tags as [|h tags IH]; intros z Hnd; [done|].
  rewrite fmap_cons in Hnd. apply NoDup_cons in Hnd as [Hh Hnd]. simpl. rewrite IH by done.
  case_decide as Hl; simpl.
  - subst l. destruct (list_find (λ h', hot_label h' = hot_label h) tags) as [[i h']|] eqn:Hf; [|by rewrite lookup_insert_eq].
    apply list_find_Some in Hf as (Hi & Heq & _). destruct Hh. rewrite <- Heq.
    apply list_elem_of_fmap. exists h'. split; [done|]. by eapply list_elem_of_lookup_2.
  - destruct (list_find (λ h', hot_label h' = l) tags) as [[i h']|]; simpl; [done|]. by rewrite lookup_insert_ne.
Qed.

Lemma foldl_insert_Some {A} (f : HotTag → A) tags l a :
  NoDup (hot_label <$> tags) →
  foldl (λ z h, <[hot_label h := f h]> z) (∅ : gmap string A) tags !! l = Some a
  ↔ ∃ h, h ∈ tags ∧ hot_label h = l ∧ a = f h.
Proof.
  intros Hnd. rewrite foldl_insert_lookup by done. rewrite lookup_empty. split.
  - destruct (list_find _ tags) as [[i h]|] eqn:Hf; [|done]. intros [= <-].
    apply list_find_Some in Hf as (Hi & Hl & _). exists h. split; [by eapply list_elem_of_lookup_2|done].
  - intros (h & Hin & Hl & ->). destruct (list_find (λ h, hot_label h = l) tags) as [[i h']|] eqn:Hf.
    + apply list_find_Some in Hf as (Hi & Hl' & _). do 2 f_equal.
      apply list_elem_of_lookup in Hin as [j Hj]. assert (i = j) as ->; [|congruence].
      eapply (NoDup_lookup _ i j l); [exact Hnd|..]; rewrite list_lookup_fmap; [rewrite Hi|rewrite Hj]; simpl; congruence.
    + apply list_find_None in Hf. rewrite Forall_forall in Hf. by destruct (Hf h Hin).
Qed.

Definition score (h : HotTag) : string * Z := (hot_label h, tagged_count h).

Definition trim (n : nat) (h : HotTag) : HotTag :=
  {| hot_label := hot_label h; taggers_id := take n (taggers_id h); tagged_count := tagged_count h;
     taggers_count := taggers_count h |}.

(** The order the sorted set gives tags: by count, ties by label, both descending. *)
Definition served_before (a b : HotTag) : Prop := rank_ge (score a) (score b).

#[local] Instance served_before_dec : RelDecision served_before.
Proof. intros a b. unfold served_before. apply _. Defined.

Definition served_order (tags : list HotTag) : list HotTag := merge_sort served_before tags.

Lemma served_order_sorted tags : StronglySorted rank_ge (score <$> served_order tags).
Proof.
  assert (Transitive served_before) by (intros a b c; unfold served_before; apply transitivity).
  assert (Total served_before) by (intros a b; apply (base.total rank_ge)).
  pose proof (StronglySorted_merge_sort served_before tags) as Hs. unfold served_order.
  induction Hs as [|h l Hs IH Hh]; [constructor|]. simpl. constructor; [done|]. by apply Forall_fmap.
Qed.

Definition exact (tags : list HotTag) : Prop := Forall (λ h, as_f64 (tagged_count h) = tagged_count h) tags.

Lemma scores_of_range tags :
  NoDup (hot_label <$> tags) → exact tags → rev_range None None (scores_of tags) = score <$> served_order tags.
Proof.
  intros Hnd Hexact. apply ranked_unique; [apply rev_range_sorted|apply served_order_sorted|].
  apply NoDup_Permutation; [apply rev_range_NoDup| |].
  - unfold served_order. rewrite merge_sort_Permutation. apply (NoDup_fmap_1 fst).
    rewrite <- list_fmap_compose. rewrite (list_fmap_ext _ hot_label) by done. done.
  - intros [l n]. rewrite elem_of_rev_range. unfold scores_of.
    rewrite foldl_insert_Some by done. unfold served_order. rewrite merge_sort_Permutation, list_elem_of_fmap.
    unfold exact in Hexact. rewrite Forall_forall in Hexact. split.
    + intros (_ & h & Hin & <- & ->). exists h. unfold score. by rewrite Hexact.
    + intros (h & [= -> ->] & Hin). split; [done|]. exists h. by rewrite Hexact.
Qed.

Lemma rebuild_score n tags h :
  NoDup (hot_label <$> tags) → h ∈ tags → rebuild n (taggers_of tags) (score h) = Some (trim n h).
Proof.
  intros Hnd Hin. unfold rebuild.
  assert (taggers_of tags !! (score h).1 = Some {| cached_list := taggers_id h; total := taggers_count h |}) as ->; [|done].
  unfold taggers_of. rewrite (foldl_insert_Some (λ t, {| cached_list := taggers_id t; total := taggers_count t |})) by done.
  eauto.
Qed.

(** A scan's page, from the two keys it was stored under. *)
Lemma page_of_scan input tags :
  NoDup (hot_label <$> tags) → exact tags →
  page_of input (scores_of tags) (taggers_of tags)
  = trim (taggers_limit input) <$> take (limit input) (drop (skip input) (served_order tags)).
Proof.
  intros Hnd Hexact. unfold page_of, window. rewrite scores_of_range by done.
  rewrite <- fmap_drop, <- fmap_take.
  assert (Forall (λ h, h ∈ tags) (take (limit input) (drop (skip input) (served_order tags)))) as Hall.
  { apply Forall_take, Forall_drop, Forall_forall. intros h. unfold served_order. by rewrite merge_sort_Permutation. }
  induction Hall as [|h l Hh Hall IH]; [done|]. csimpl. rewrite rebuild_score by done. by rewrite IH.
Qed.

Lemma length_remove_dups {A} `{EqDecision A} (l : list A) : (length (remove_dups l) ≤ length l)%nat.
Proof. induction l as [|x l IH]; simpl; [done|]. case_decide; simpl; lia. Qed.

Lemma snapshot_exact g : (Z.of_nat (length (taggings g)) ≤ 2 ^ 53)%Z → exact (snapshot g).
Proof.
  intros Hlen. apply Forall_take, Forall_drop. apply Forall_forall. intros h. rewrite merge_sort_Permutation.
  intros (l & -> & _)%list_elem_of_fmap. simpl. apply as_f64_exact.
  set (mine := filter _ _). assert (length mine ≤ length (taggings g))%nat as Hm.
  { unfold mine, matched. destruct (to_timestamp_range _ _). etrans; apply length_filter. }
  pose proof (length_remove_dups (tagged <$> mine)) as Hd. rewrite length_fmap in Hd. lia.
Qed.

(** On its own, a read of the cache is its page. *)
Lemma run_cache input w :
  run_thread (get_from_global_cache input) w
  = (match scores w, taggers_json w with Some z, Some c => Some (page_of input z c) | _, _ => None end, w).
Proof. unfold get_from_global_cache, read_window, page_of. simpl. by destruct (scores w), (taggers_json w). Qed.

Definition cached (tags : list HotTag) (w : World) : World :=
  set_scores (Some (scores_of tags)) (set_taggers (Some (taggers_of tags)) w).

Lemma run_fetch w :
  run_thread (fetch_and_cache t) w
  = (tt, if decide (snapshot (graph w) = []) then w else cached (snapshot (graph w)) w).
Proof.
  unfold fetch_and_cache. rewrite run_thread_tbind. simpl.
  change (get_global_hot_tags_query (scan_input t) (graph w)) with (snapshot (graph w)).
  by destruct (snapshot (graph w)).
Qed.

(** A miss serves the page of what the graph holds: its most used labels of the timeframe
    in the order the sorted set gives them, with their counts as the graph counts them and
    their first taggers. A page past the snapshot is empty without asking the graph, and a
    graph without tags leaves the cache as it was. *)
Theorem a_miss_serves_the_graph input w :
  let tags := snapshot (graph w) in
  timeframe input = t →
  scores w = None ∨ taggers_json w = None → (Z.of_nat (length (taggings (graph w))) ≤ 2 ^ 53)%Z →
  run_thread (get_global_hot_tags input) w
  = if decide (GLOBAL_HOT_TAGS_CACHE_SIZE ≤ skip input)%nat then (Some [], w)
    else if decide (tags = []) then (None, w)
    else (Some (trim (taggers_limit input) <$> take (limit input) (drop (skip input) (served_order tags))),
          cached tags w).
Proof.
  intros tags Ht Hmiss Hlen. unfold get_global_hot_tags. rewrite run_thread_tbind, run_cache.
  assert (match scores w, taggers_json w with Some z, Some c => Some (page_of input z c) | _, _ => None end = None) as ->
    by (destruct Hmiss as [-> | ->]; [done|by destruct (scores w)]).
  case_decide; [done|]. rewrite Ht, run_thread_tbind, run_fetch. fold tags. case_decide; rewrite run_cache.
  - by destruct Hmiss as [-> | ->]; [|destruct (scores w)].
  - simpl. unfold tags. rewrite page_of_scan by (apply snapshot_NoDup || by apply snapshot_exact). done.
Qed.

(** ** Among others *)

Definition of_scan {A} (f : list HotTag → A) (w : World) (x : A) : Prop :=
  ∃ g, g ∈ graphs w ∧ snapshot g ≠ [] ∧ x = f (snapshot g).

(** What others do: tag and follow, let a key expire, and store scans of their own. *)
Inductive other : World → World → Prop :=
  | other_graph g w : other w {| graph := g; scores := scores w; taggers_json := taggers_json w; graphs := g :: graphs w |}
  | other_expire_scores w : other w (set_scores None w)
  | other_expire_taggers w : other w (set_taggers None w)
  | other_scores z w : of_scan scores_of w z → other w (set_scores (Some z) w)
  | other_taggers c w : of_scan taggers_of w c → other w (set_taggers (Some c) w).

Definition known {A} (f : list HotTag → A) (x : option A) (w : World) : Prop := ∀ a, x = Some a → of_scan f w a.

Definition backed (w : World) : Prop :=
  graph w ∈ graphs w ∧ known scores_of (scores w) w ∧ known taggers_of (taggers_json w) w.

Lemma other_graphs w w' : other w w' → graphs w ⊆ graphs w'.
Proof. intros []; simpl; set_solver. Qed.

Lemma of_scan_mono {A} (f : list HotTag → A) w w' x : graphs w ⊆ graphs w' → of_scan f w x → of_scan f w' x.
Proof. intros Hg (g & Hin & ? & ?). exists g. split; [by apply Hg|done]. Qed.

Lemma known_stable {A} (f : list HotTag → A) x : stable other (known f x).
Proof. intros w w' Hstep Hk a Ha. eapply of_scan_mono; [by apply other_graphs|auto]. Qed.

Lemma backed_stable : stable other backed.
Proof.
  intros w w' Hstep (Hg & Hs & Ht).
  pose proof (known_stable scores_of _ _ _ Hstep Hs) as Hs'. pose proof (known_stable taggers_of _ _ _ Hstep Ht) as Ht'.
  destruct Hstep; unfold backed; simpl in *; split_and!; try done; (by left) || (by intros ? [= <-]).
Qed.

(** A page whose every tag has its count from a scan and its taggers from a scan. *)
Definition scanned (input : HotTagsInputDTO) (page : list HotTag) (w : World) : Prop :=
  ∃ g1 g2, g1 ∈ graphs w ∧ g2 ∈ graphs w ∧
    ∀ h, h ∈ page → ∃ t1 t2, t1 ∈ snapshot g1 ∧ t2 ∈ snapshot g2
      ∧ hot_label t1 = hot_label h ∧ hot_label t2 = hot_label h
      ∧ tagged_count h = as_f64 (tagged_count t1)
      ∧ taggers_id h = take (taggers_limit input) (taggers_id t2) ∧ taggers_count h = taggers_count t2.

Lemma page_of_scans input tags1 tags2 h :
  NoDup (hot_label <$> tags1) → NoDup (hot_label <$> tags2) →
  h ∈ page_of input (scores_of tags1) (taggers_of tags2) →
  ∃ t1 t2, t1 ∈ tags1 ∧ t2 ∈ tags2 ∧ hot_label t1 = hot_label h ∧ hot_label t2 = hot_label h
    ∧ tagged_count h = as_f64 (tagged_count t1)
    ∧ taggers_id h = take (taggers_limit input) (taggers_id t2) ∧ taggers_count h = taggers_count t2.
Proof.
  intros Hnd1 Hnd2 ([l n] & Hin & Hr)%list_elem_of_omap. unfold window in Hin.
  apply (subseteq_take _ _), (subseteq_drop _ _) in Hin. apply elem_of_rev_range in Hin as [_ Hz].
  unfold scores_of in Hz. rewrite foldl_insert_Some in Hz by done. destruct Hz as (t1 & H1 & <- & ->).
  unfold rebuild in Hr. simpl in Hr. destruct (taggers_of tags2 !! hot_label t1) as [c|] eqn:Hc; [|done].
  unfold taggers_of in Hc.
  rewrite (foldl_insert_Some (λ t, {| cached_list := taggers_id t; total := taggers_count t |})) in Hc by done.
  destruct Hc as (t2 & H2 & Hl & ->). injection Hr as <-. exists t1, t2. by split_and!.
Qed.

Definition read_right (input : HotTagsInputDTO) (o : option (list HotTag)) (w : World) : Prop :=
  backed w ∧ ∀ page, o = Some page → scanned input page w.

Lemma cache_read_right input : hoare other backed backed (get_from_global_cache input) (read_right input).
Proof.
  unfold get_from_global_cache.
  eapply hoare_tbind with (R := λ c w, known taggers_of c w ∧ backed w).
  { apply hoare_call; [apply backed_stable|done| | |].
    - intros c. apply stable_and; [apply known_stable|apply backed_stable].
    - by intros c w [].
    - intros w Hw. simpl. split; [apply Hw|done]. }
  intros c. eapply hoare_tbind with (R := λ rows w,
    (∀ r, rows = Some r → ∃ z, r = window input z ∧ of_scan scores_of w z) ∧ known taggers_of c w ∧ backed w).
  { apply hoare_call.
    - apply stable_and; [apply known_stable|apply backed_stable].
    - by intros w [].
    - intros rows w w' Hstep (Hr & Hc & Hb). split_and!; [|by eapply known_stable|by eapply backed_stable].
      intros r (z & -> & Hz)%Hr. exists z. split; [done|]. eapply of_scan_mono; [by apply other_graphs|done].
    - by intros rows w (_ & _ & ?).
    - intros w [Hc Hb]. simpl. split; [|done]. intros r. unfold read_window.
      destruct (scores w) as [z|] eqn:Hz; [|done]. intros [= <-]. exists z. split; [done|]. by apply Hb. }
  intros rows. apply hoare_done.
  { intros w w' Hstep (Hr & Hc & Hb). split_and!; [|by eapply known_stable|by eapply backed_stable].
    intros r (z & -> & Hz)%Hr. exists z. split; [done|]. eapply of_scan_mono; [by apply other_graphs|done]. }
  intros w (Hr & Hc & Hb). split; [done|]. split; [done|]. intros page.
  destruct rows as [r|], c as [c|]; try done. intros [= <-].
  destruct (Hr r eq_refl) as (z & -> & g1 & Hg1 & _ & ->). destruct (Hc c eq_refl) as (g2 & Hg2 & _ & ->).
  exists g1, g2. split_and!; [done..|]. intros h Hh.
  apply (page_of_scans input); [apply snapshot_NoDup..|exact Hh].
Qed.

Definition storing (tags : list HotTag) (w : World) : Prop := of_scan id w tags ∧ backed w.

Lemma storing_stable tags : stable other (storing tags).
Proof.
  apply stable_and; [|apply backed_stable]. intros w w' Hstep. apply of_scan_mono. by apply other_graphs.
Qed.

(** Storing a scan, as others do. *)
Lemma put_keeps_backed tags : hoare other backed (storing tags) (put_to_global_cache tags) (λ _, backed).
Proof.
  unfold put_to_global_cache. eapply hoare_tbind with (R := λ _, storing tags).
  - apply hoare_call; [apply storing_stable|by intros w []|intros _; apply storing_stable|by intros _ w []|].
    intros w [(g & Hin & Hne & Hg) Hb]. simpl in *. subst tags. split; [by exists g|].
    apply (backed_stable w); [|done]. apply other_taggers. by exists g.
  - intros _. apply hoare_call; [apply storing_stable|by intros w []|intros _; apply backed_stable|done|].
    intros w [(g & Hin & Hne & Hg) Hb]. simpl in *. subst tags.
    apply (backed_stable w); [|done]. apply other_scores. by exists g.
Qed.

Lemma fetch_keeps_backed : hoare other backed backed (fetch_and_cache t) (λ _, backed).
Proof.
  unfold fetch_and_cache.
  eapply hoare_tbind with (R := λ r w, (∀ tags, r = Some tags → tags ≠ [] → of_scan id w tags) ∧ backed w).
  { apply hoare_call; [apply backed_stable|done| | |].
    - intros r w w' Hstep [Hr Hb]. split; [|by eapply backed_stable]. intros tags Ht Hne.
      eapply of_scan_mono; [by apply other_graphs|auto].
    - by intros r w [].
    - intros w Hb. simpl. split; [|done]. intros tags [= <-] Hne. exists (graph w). split_and!; [apply Hb|done|done]. }
  intros r. destruct r as [[|h tags]|]; simpl.
  - eapply hoare_mono; [apply (hoare_done other backed backed tt (λ _, backed))|by intros w []|done]; [apply backed_stable|by split].
  - eapply hoare_mono; [apply (put_keeps_backed (h :: tags))| |done]. intros w [Hr Hb]. split; [by apply Hr|done].
  - eapply hoare_mono; [apply (hoare_done other backed backed tt (λ _, backed))|by intros w []|done]; [apply backed_stable|by split].
Qed.

(** C30: However requests, refreshes, expiries and taggings interleave, and wherever they are
    cut, a page of hot tags is made of scans: every tag's count is one that a scan of the
    graph found, and its taggers and their number are those one found. *)
Theorem served_hot_tags_were_scanned input w o w' :
  timeframe input = t → backed w → runs other (get_global_hot_tags input) w o w' →
  backed w' ∧ ∀ page, o = Some (Some page) → scanned input page w'.
Proof.
  intros Ht Hw Hruns. enough (hoare other backed backed (get_global_hot_tags input) (read_right input)) as Hh.
  { destruct (Hh w o w' Hw Hruns) as [Hb Ho]. split; [done|]. intros page Hp. by apply (Ho (Some page) Hp). }
  unfold get_global_hot_tags. eapply hoare_tbind; [apply cache_read_right|]. intros [page|].
  - apply hoare_done; [|by intros w1 []]. intros w1 w2 Hstep [Hb Hp]. split; [by eapply backed_stable|].
    intros page' Hp'. destruct (Hp page' Hp') as (g1 & g2 & H1 & H2 & H3).
    exists g1, g2. split_and!; [by apply (other_graphs w1)..|done].
  - case_decide.
    + eapply hoare_mono; [apply (hoare_done other backed backed (Some []) (read_right input))|by intros w1 []|done]; [apply backed_stable|].
      intros w1 Hb. split; [done|]. split; [done|]. intros page [= <-].
      exists (graph w1), (graph w1). split_and!; [apply Hb..|by intros h ?%elem_of_nil].
    + rewrite Ht. eapply (hoare_mono other backed backed); [|by intros w1 []|by intros a w1 ?; eassumption].
      eapply hoare_tbind; [apply fetch_keeps_backed|]. intros a. apply cache_read_right.
Qed.
End Scan.

(** ** An example *)

Module Example_hot.

Definition tag (u l p : string) (at_ : Z) : Tagging := {| tagger := u; label := l; tagged := (TaggedPost, p); indexed_at := at_ |}.

Definition hour : Z := 3600000.

(** An hour ago and a day and a half ago, by a clock two days in. *)
Definition early : TagGraph :=
  {| taggings := [tag "bob" "rust" "p1" (47 * hour); tag "ann" "rust" "p1" (47 * hour); tag "cat" "rust" "p2" (47 * hour);
                  tag "ann" "nostr" "p1" (47 * hour); tag "ann" "music" "p2" (47 * hour); tag "ann" "old" "p2" (12 * hour);
                  {| tagger := "ann"; label := "rust"; tagged := (TaggedUser, "bob"); indexed_at := 47 * hour |}];
     social := {| follow_graph := {| users := {["ann"; "bob"]}; follows := {[("ann", "bob") := 0%Z]} |}; authored := ∅ |};
     now := 48 * hour |}.

Definition world (g : TagGraph) : World := {| graph := g; scores := None; taggers_json := None; graphs := [g] |}.

Definition today (skip limit : nat) : HotTagsInputDTO :=
  {| timeframe := Today; skip := skip; limit := limit; taggers_limit := 2; tagged_type := Some TaggedPost |}.

Definition page : list HotTag :=
  [{| hot_label := "rust"; taggers_id := ["ann"; "bob"]; tagged_count := 2; taggers_count := 3 |};
   {| hot_label := "nostr"; taggers_id := ["ann"]; tagged_count := 1; taggers_count := 1 |}].

Lemma a_miss_serves_the_graph_witness :
  run_thread (get_global_hot_tags (today 0 2)) (world early) = (Some page, cached (snapshot Today early) (world early))
  ∧ hot_label <$> snapshot Today early = ["rust"; "music"; "nostr"].
Proof.
  split; [|by vm_compute].
  assert (trim 2 <$> take 2 (drop 0 (served_order (snapshot Today early))) = page) as Hpage by by vm_compute.
  assert (¬ (GLOBAL_HOT_TAGS_CACHE_SIZE ≤ 0)%nat) as Hskip by (unfold GLOBAL_HOT_TAGS_CACHE_SIZE; lia).
  assert (snapshot Today early ≠ []) as Hsome by by vm_compute.
  pose proof (a_miss_serves_the_graph Today (today 0 2) (world early) eq_refl (or_introl eq_refl) ltac:(by vm_compute)) as Hrun.
  cbv zeta in Hrun. rewrite decide_False in Hrun by exact Hskip. rewrite decide_False in Hrun by exact Hsome.
  rewrite Hrun, <- Hpage. reflexivity.
Defined.

Lemma served_hot_tags_were_scanned_witness :
  fst (run_thread (get_global_hot_tags (today 0 2)) (world early)) = Some page
  ∧ scanned Today (today 0 2) page (snd (run_thread (get_global_hot_tags (today 0 2)) (world early))).
Proof.
  assert (fst (run_thread (get_global_hot_tags (today 0 2)) (world early)) = Some page) as Hpage by by vm_compute.
  split; [exact Hpage|].
  assert (backed Today (world early)) as Hb by (split_and!; [by left|done|done]).
  pose proof (run_thread_runs (other Today) (get_global_hot_tags (today 0 2)) (world early)) as Hruns.
  exact (proj2 (served_hot_tags_were_scanned Today (today 0 2) _ _ _ eq_refl Hb Hruns) page (f_equal Some Hpage)).
Defined.

(** Two refreshes that cross leave the counts of one scan and the taggers of the other. *)
Definition late : TagGraph :=
  {| taggings := tag "dan" "rust" "p3" (47 * hour) :: taggings early; social := social early; now := now early |}.

Definition crossed : World :=
  set_scores (Some (scores_of (snapshot Today late))) (set_taggers (Some (taggers_of (snapshot Today early))) (world late)).

Example a_crossed_page :
  (λ hs : list HotTag, (λ h, (hot_label h, tagged_count h, taggers_count h)) <$> hs)
    <$> fst (run_thread (get_global_hot_tags (today 0 1)) crossed) = Some [("rust", 3%Z, 3%nat)].
Proof. by vm_compute. Qed.

Example by_reach :
  (λ hs : list HotTag, hot_label <$> hs) <$> fst (run_thread (get_hot_tags (Some "ann") None (today 0 9)) (world early)) = Some ["rust"]
  ∧ fst (run_thread (hot_tags_handler (Some "ann") None None None 0 9) (world early))
    = InvalidInput "user_id and reach should be both provided together"
  ∧ fst (run_thread (tag_taggers_handler "rust" None None 0 9) (cached (snapshot Today early) (world early)))
    = Json ["ann"; "bob"; "cat"].
Proof. vm_compute. done. Qed.

End Example_hot.
