(* ===== verification/UserViews.v ===== *)
(** * Pages of user views

    nexus-common/src/models/user/view.rs, counts.rs, relationship.rs and the last step of a
    user stream (user/stream.rs): a page of users is read from Redis and the graph in bulk,
    put together by position, and each one's relationship and tags are read on their own. *)

From S2P Require Import Prelude Errors.
From S2P Require Reach Users TagViews SocialGraph.
Local Open Scope nexus_scope.

Record UserCounts := {
  tagged : Z;
  tags : Z;
  unique_tags : Z;
  posts : Z;
  replies : Z;
  collections : Z;
  following_count : Z;
  followers : Z;
  friends : Z;
  bookmarks : Z;
}.

Definition default_counts : UserCounts :=
  {| tagged := 0; tags := 0; unique_tags := 0; posts := 0; replies := 0; collections := 0; following_count := 0;
     followers := 0; friends := 0; bookmarks := 0 |}.

Record Relationship := { following : bool; followed_by : bool }.

Definition default_relationship : Relationship := {| following := false; followed_by := false |}.

Record UserView := {
  details : Users.UserDetails;
  counts : UserCounts;
  view_tags : list TagViews.TagDetails;
  relationship : Relationship;
  social_graph_status : option SocialGraph.SocialGraphStatus;
}.

(** What a page reads, and what Redis says of MGET: a slot for each key, the document under
    it or nothing. *)
Class ViewStores (W : Type) := {
  mget : list string → prog W (result (list (option Users.UserDetails)) Kv.RedisError);
  document : W → string → option Users.UserDetails;
  mget_documents ids w l w' : mget ids w = (Ok l, w') → l = document w <$> ids;
  (** a row for each distinct id: whether it has a node, and its counts *)
  user_counts_by_ids : list string → prog W (result (list (string * bool * UserCounts)) Graph.GraphError);
  (** [SocialGraphStatus::get_by_ids], see [SocialGraph.status_slots] *)
  status_by_ids : list string → prog W (result (list (option SocialGraph.SocialGraphStatus)) Kv.RedisError);
  status_slots ids w l w' : status_by_ids ids w = (Ok l, w') → length l = length ids;
  users_exist : list string → prog W (result bool Graph.GraphError);
  (** [Followers::check_in_index], SISMEMBER *)
  check_in_index : string → string → prog W (result bool Kv.RedisError);
  (** [TagUser::get_by_id] of the first page, see TagViews.v *)
  tags_by_id : string → option string → option Reach.WotDepth →
    prog W (result (option (list TagViews.TagDetails)) Model.ModelError);
}.

(** A user of a page with what the bulk reads found. *)
Definition Row : Type := string * option Users.UserDetails * option UserCounts * option SocialGraph.SocialGraphStatus.

Section Views.
Context {W : Type} `{!ViewStores W}.

Abbreviation M A := (prog W (result A Model.ModelError)).

(** [UserCounts::get_by_ids] *)
Definition counts_by_ids (user_ids : list string) : M (list (option UserCounts)) :=
  match user_ids with
  | [] => ret (Ok [])
  | _ =>
      let? rows := emap_err Model.GraphOperationFailed (user_counts_by_ids user_ids) in
      let by_id := foldl (λ (m : gmap string UserCounts) '(i, found, c), if found : bool then <[i := c]> m else m) ∅ rows in
      ret (Ok ((λ i, by_id !! i) <$> user_ids))
  end.

Definition from_follow_sets (user_id viewer_id : string) : prog W (result Relationship Kv.RedisError) :=
  let? following := check_in_index user_id viewer_id in
  let? followed_by := check_in_index viewer_id user_id in
  ret (Ok {| following := following; followed_by := followed_by |}).

(** One user of a page. *)
Definition view_of (viewer_id : option string) (viewer_exists : bool) (depth : option Z)
    (row : Row) : M (option UserView) :=
  let '(user_id, found, row_counts, status) := row in
  match found with
  | None => ret (Ok None)
  | Some user_details =>
      let? rel := emap_err Model.KvOperationFailed
        (match row_counts, viewer_id with
         | Some _, Some viewer =>
             if viewer_exists then from_follow_sets user_id viewer else ret (Ok default_relationship)
         | _, _ => ret (Ok default_relationship)
         end) in
      let user_counts := default default_counts row_counts in
      let? user_tags :=
        (if decide (tags user_counts = 0%Z) then ret (Ok [])
         else
           let? found := tags_by_id user_id viewer_id
             (d ← depth; match Reach.WotDepth_new d with Ok d => Some d | Err _ => None end) in
           ret (Ok (default [] found))) in
      ret (Ok (Some {| details := user_details; counts := user_counts; view_tags := user_tags;
                       relationship := rel; social_graph_status := status |}))
  end.

(** The users of a page in order; the first error ends it. *)
Fixpoint views_of (viewer_id : option string) (viewer_exists : bool) (depth : option Z)
    (rows : list Row) : M (list (option UserView)) :=
  match rows with
  | [] => ret (Ok [])
  | row :: rows =>
      let? v := view_of viewer_id viewer_exists depth row in
      let? vs := views_of viewer_id viewer_exists depth rows in
      ret (Ok (v :: vs))
  end.

(** [UserView::get_by_ids]; the reads that run at once are made one after the other. *)
Definition get_by_ids (user_ids : list string) (viewer_id : option string) (depth : option Z) : M (list (option UserView)) :=
  let? details_list := emap_err Model.KvOperationFailed (mget user_ids) in
  let? counts_list := counts_by_ids user_ids in
  let? social_graph_list := emap_err Model.KvOperationFailed (status_by_ids user_ids) in
  let? viewer_exists := emap_err Model.GraphOperationFailed
    (match viewer_id with Some viewer => users_exist [viewer] | None => ret (Ok false) end) in
  views_of viewer_id viewer_exists depth (zip (zip (zip user_ids details_list) counts_list) social_graph_list).

(** [UserStream::from_listed_user_ids] *)
Definition from_listed_user_ids (user_ids : list string) (viewer_id : option string) (depth : option Z) :
    M (option (list UserView)) :=
  let? views := get_by_ids user_ids viewer_id depth in
  let user_views := omap id views in
  ret (Ok (if decide (length user_views = 0%nat) then None else Some user_views)).

(** ** What a page carries *)

Lemma ebind_Ok {E A B} (m : prog W (result A E)) (k : A → prog W (result B E)) w b w' :
  ebind m k w = (Ok b, w') → ∃ a w1, m w = (Ok a, w1) ∧ k a w1 = (Ok b, w').
Proof. unfold ebind. destruct (m w) as [[a|e] w1]; [eauto|done]. Qed.

Lemma emap_err_Ok {E E' A} (f : E → E') (m : prog W (result A E)) w a w' :
  emap_err f m w = (Ok a, w') → m w = (Ok a, w').
Proof. unfold emap_err. destruct (m w) as [[?|?] w1]; by intros [= <- <-]. Qed.

Lemma counts_slots user_ids w l w' : counts_by_ids user_ids w = (Ok l, w') → length l = length user_ids.
Proof.
  destruct user_ids as [|u user_ids]; [by intros [= <- _]|]. unfold counts_by_ids.
  intros (rows & w1 & _ & [= <- _])%ebind_Ok. simpl. by rewrite length_fmap.
Qed.

Lemma view_of_details viewer known depth u found c s w v w' :
  view_of viewer known depth (u, found, c, s) w = (Ok v, w') → details <$> v = found.
Proof.
  unfold view_of. destruct found as [d|]; [|by intros [= <- _]].
  by intros (rel & w1 & _ & (ts & w2 & _ & [= <- _])%ebind_Ok)%ebind_Ok.
Qed.

Definition row_details (row : Row) : option Users.UserDetails := row.1.1.2.

Lemma views_of_details viewer known depth rows w vs w' :
  views_of viewer known depth rows w = (Ok vs, w') → ((λ v : option UserView, details <$> v) <$> vs) = row_details <$> rows.
Proof.
  revert w vs w'. induction rows as [|[[[u found] c] s] rows IH]; intros w vs w'; cbn [views_of]; [by intros [= <- _]|].
  intros (v & w1 & Hv & (vs' & w2 & Hvs & [= <- _])%ebind_Ok)%ebind_Ok.
  rewrite !fmap_cons, (IH _ _ _ Hvs). f_equal. by apply view_of_details in Hv.
Qed.

Lemma zip_details (l : list string) k m n :
  length k = length l → length m = length l → length n = length l →
  row_details <$> zip (zip (zip l k) m) n = k.
Proof.
  revert k m n. induction l as [|x l IH]; intros [|y k] [|z m] [|t n] Hk Hm Hn; simpl in *; try done.
  f_equal. apply IH; lia.
Qed.

Lemma carried_details (views : list (option UserView)) :
  details <$> omap id views = omap id ((λ v : option UserView, details <$> v) <$> views).
Proof. induction views as [|[v|] views IH]; [done| |exact IH]. exact (f_equal (cons (details v)) IH). Qed.

Lemma omap_fmap_id {A B} (f : A → option B) (l : list A) : omap id (f <$> l) = omap f l.
Proof. induction l as [|x l IH]; [done|]. simpl. unfold id at 1. destruct (f x); [f_equal|]; exact IH. Qed.

(** A page carries the document of every listed user who has one, in order, and of nobody
    else. *)
Lemma page_of_documents user_ids viewer depth w found w' :
  from_listed_user_ids user_ids viewer depth w = (Ok found, w') →
  details <$> default [] found = omap (document w) user_ids.
Proof.
  intros (views & w1 & Hviews & [= <- _])%ebind_Ok.
  unfold get_by_ids in Hviews.
  apply ebind_Ok in Hviews as (ds & w2 & Hd%emap_err_Ok%mget_documents & Hviews).
  apply ebind_Ok in Hviews as (cs & w3 & Hc%counts_slots & Hviews).
  apply ebind_Ok in Hviews as (ss & w4 & Hs%emap_err_Ok%status_slots & Hviews).
  apply ebind_Ok in Hviews as (known & w5 & _ & Hviews%views_of_details).
  rewrite zip_details in Hviews by (by rewrite ?Hd, ?length_fmap).
  transitivity (details <$> omap id views).
  - case_decide as Hlen; [|done]. by apply nil_length_inv in Hlen as ->.
  - rewrite carried_details, Hviews, Hd. apply omap_fmap_id.
Qed.
End Views.
