(* ===== verification/Bootstrap.v ===== *)
(** * The bootstrap payload

    nexus-common/src/models/bootstrap.rs and its route: one answer gathered from the post
    streams, rankings, hot tags, files, users and notifications. The views of the users are
    read as UserViews.v has it. What else it asks for are the operations of the class
    [Sources], whatever they answer; their own modules (Streams.v, Rankings.v, HotTags.v,
    Files.v, UserStreams.v, Notifications.v) say what that is. *)

From S2P Require Import Prelude Errors HotTags.
From S2P Require Rankings Media Files UserViews.
Local Open Scope nexus_scope.

(** What bootstrapping reads of a post's view. *)
Record PostView := { author : string; post_id : string; attachments : option (list string); replies : Z }.

Inductive ViewType := Full | Partial.

Inductive StreamSource := All | PostReplies (author_id post_id : string).

(** The components bootstrapping asks. *)
Class Sources (W Notification : Type) := {
  get_user_details : string → prog W (result bool Model.ModelError);
  get_posts : StreamSource → nat → option string → prog W (result (option (list PostView)) Model.ModelError);
  get_influencers : Rankings.Timeframe → bool → prog W (result (option (list (string * Z))) Model.ModelError);
  get_recommended_ids : string → prog W (result (option (list string)) Model.ModelError);
  get_hot_tags : HotTagsInputDTO → prog W (result (option (list HotTag)) Model.ModelError);
  (** [FileDetails::get_by_ids]: a slot for each key, as [Files.file_slots] has it *)
  get_files : list (string * string) → prog W (result (list (option Media.FileDetails)) Model.ModelError);
  file_at : W → string * string → option Media.FileDetails;
  get_files_slots keys w l w' : get_files keys w = (Ok l, w') → l = file_at w <$> keys;
  get_notifications : string → nat → prog W (result (list Notification) Model.ModelError);
  file_key_from_uri : string → option (string * string);
  (** the order a hash set is walked in *)
  walk : gset string → list string;
  walk_elements s : walk s ≡ₚ elements s;
  (** the order replies come back in *)
  unordered : list (string * string) → list (string * string);
  unordered_same l : unordered l ≡ₚ l;
}.

Section Bootstrap.
Context {W Notification : Type} `{!Sources W Notification, !UserViews.ViewStores W}.

Definition BOOTSTRAP_NOTIFICATIONS_LIMIT : nat := 30.

Record BootstrapIds := {
  stream : list string;
  influencers : list string;
  recommended : list string;
  hot_tags : list HotTag;
}.

(** The payload, with the two sets gathered on the way. *)
Record Bootstrap := {
  users : list UserViews.UserView;
  posts : list PostView;
  files : list Media.FileDetails;
  ids : BootstrapIds;
  indexed : bool;
  notifications : list Notification;
  user_ids : gset string;
  attachment_uris : gset string;
}.

Definition M (A : Type) : Type := prog W (result A Model.ModelError).

Definition empty_ids : BootstrapIds := {| stream := []; influencers := []; recommended := []; hot_tags := [] |}.
Definition default_ : Bootstrap :=
  {| users := []; posts := []; files := []; ids := empty_ids; indexed := false; notifications := [];
     user_ids := ∅; attachment_uris := ∅ |}.

Definition with_ids (i : BootstrapIds) (us : gset string) (b : Bootstrap) : Bootstrap :=
  {| users := users b; posts := posts b; files := files b; ids := i; indexed := indexed b;
     notifications := notifications b; user_ids := us; attachment_uris := attachment_uris b |}.

Definition get_post_stream_timeline (maybe_viewer_id : option string) (source : StreamSource) (limit : nat) : M (list PostView) :=
  let? found := get_posts source limit maybe_viewer_id in
  ret (Ok (default [] found)).

(** One post of [handle_post_stream]. *)
Definition handle_post (is_full : bool) (b : Bootstrap) (p : PostView) : Bootstrap :=
  let i := ids b in
  {| users := users b; posts := posts b; files := files b;
     ids := if is_full then {| stream := stream i ++ [author p +:+ ":" +:+ post_id p]; influencers := influencers i;
                               recommended := recommended i; hot_tags := hot_tags i |} else i;
     indexed := indexed b; notifications := notifications b;
     user_ids := {[author p]} ∪ user_ids b;
     attachment_uris := list_to_set (default [] (attachments p)) ∪ attachment_uris b |}.

Definition is_full (v : ViewType) : bool := match v with Full => true | Partial => false end.

(** The posts to fetch replies of, and the payload with the stream. *)
Definition handle_post_stream (post_stream : list PostView) (view_type : ViewType) (b : Bootstrap) :
    list (string * string) * Bootstrap :=
  let b := foldl (handle_post (is_full view_type)) b post_stream in
  (if is_full view_type then (λ p, (author p, post_id p)) <$> filter (λ p, (0 < replies p)%Z) post_stream else [],
   {| users := users b; posts := posts b ++ post_stream; files := files b; ids := ids b; indexed := indexed b;
      notifications := notifications b; user_ids := user_ids b; attachment_uris := attachment_uris b |}).

Definition add_influencers (b : Bootstrap) : M Bootstrap :=
  let? found := get_influencers Rankings.Today true in
  let new := fst <$> default [] found in
  let i := ids b in
  ret (Ok (with_ids {| stream := stream i; influencers := influencers i ++ new; recommended := recommended i;
                       hot_tags := hot_tags i |} (list_to_set new ∪ user_ids b) b)).

Definition add_recommended_users (user_id : string) (b : Bootstrap) : M Bootstrap :=
  let? found := get_recommended_ids user_id in
  let new := default [] found in
  let i := ids b in
  ret (Ok (with_ids {| stream := stream i; influencers := influencers i; recommended := recommended i ++ new;
                       hot_tags := hot_tags i |} (list_to_set new ∪ user_ids b) b)).

Definition hot_tag_filter : HotTagsInputDTO :=
  {| timeframe := Rankings.Today; limit := BOOTSTRAP_HOT_TAGS_LIMIT; skip := 0; taggers_limit := 5;
     tagged_type := Some TaggedPost |}.

Definition add_global_hot_tags (b : Bootstrap) : M Bootstrap :=
  let? found := get_hot_tags hot_tag_filter in
  let new := default [] found in
  let i := ids b in
  ret (Ok (with_ids {| stream := stream i; influencers := influencers i; recommended := recommended i;
                       hot_tags := hot_tags i ++ new |} (list_to_set (mjoin (taggers_id <$> new)) ∪ user_ids b) b)).

(** The replies as they come back; the first error ends it. *)
Fixpoint handle_replies (maybe_viewer_id : option string) (arrived : list (string * string)) (b : Bootstrap) : M Bootstrap :=
  match arrived with
  | [] => ret (Ok b)
  | (author_id, post_id) :: arrived =>
      let? reply_stream := get_post_stream_timeline maybe_viewer_id (PostReplies author_id post_id) 3 in
      handle_replies maybe_viewer_id arrived (snd (handle_post_stream reply_stream Partial b))
  end.

Definition get_and_handle_replies (post_replies : list (string * string)) (maybe_viewer_id : option string) (b : Bootstrap) :
    M Bootstrap := handle_replies maybe_viewer_id (unordered post_replies) b.

Definition file_keys (b : Bootstrap) : list (string * string) := omap file_key_from_uri (walk (attachment_uris b)).

Definition fetch_file_details (b : Bootstrap) : M Bootstrap :=
  if decide (file_keys b = []) then ret (Ok b)
  else
    let? results := get_files (file_keys b) in
    ret (Ok {| users := users b; posts := posts b; files := omap id results; ids := ids b; indexed := indexed b;
               notifications := notifications b; user_ids := user_ids b; attachment_uris := attachment_uris b |}).

Definition get_and_merge_users (maybe_viewer_id : option string) (b : Bootstrap) : M Bootstrap :=
  if decide (user_ids b = ∅) then ret (Ok b)
  else
    let? found := UserViews.from_listed_user_ids (walk (user_ids b)) maybe_viewer_id None in
    ret (Ok {| users := users b ++ default [] found; posts := posts b; files := files b; ids := ids b;
               indexed := indexed b; notifications := notifications b; user_ids := user_ids b;
               attachment_uris := attachment_uris b |}).

Definition add_notifications (maybe_viewer_id : option string) (b : Bootstrap) : M Bootstrap :=
  match maybe_viewer_id with
  | None => ret (Ok b)
  | Some viewer_id =>
      let? found := get_notifications viewer_id BOOTSTRAP_NOTIFICATIONS_LIMIT in
      ret (Ok {| users := users b; posts := posts b; files := files b; ids := ids b; indexed := indexed b;
                 notifications := found; user_ids := user_ids b; attachment_uris := attachment_uris b |})
  end.

(** The start: whether the viewer is indexed. *)
Definition begin_ (user_id : string) (known : bool) : Bootstrap :=
  {| users := []; posts := []; files := []; ids := empty_ids; indexed := known; notifications := [];
     user_ids := if known then {[user_id]} else ∅; attachment_uris := ∅ |}.

Definition get_by_id (user_id : string) (view_type : ViewType) : M Bootstrap :=
  let? known := get_user_details user_id in
  let maybe_viewer_id := if (known : bool) then Some user_id else None in
  let? timeline := get_post_stream_timeline maybe_viewer_id All 20 in
  let '(post_replies, b) := handle_post_stream timeline view_type (begin_ user_id known) in
  let? b := add_influencers b in
  let? b := (if known then add_recommended_users user_id b else ret (Ok b)) in
  let? b := add_global_hot_tags b in
  let? b := (if is_full view_type then get_and_handle_replies post_replies maybe_viewer_id b else ret (Ok b)) in
  let? b := fetch_file_details b in
  let? b := get_and_merge_users maybe_viewer_id b in
  add_notifications maybe_viewer_id b.

(** [bootstrap_handler] *)
Definition bootstrap_handler (user_id : string) : M Bootstrap := get_by_id user_id Full.

(** ** The payload is closed *)

(** The users a payload names. *)
Definition names (user_id : string) (b : Bootstrap) (u : string) : Prop :=
  (indexed b = true ∧ u = user_id) ∨ (∃ p, p ∈ posts b ∧ author p = u) ∨ u ∈ influencers (ids b)
  ∨ u ∈ recommended (ids b) ∨ ∃ h, h ∈ hot_tags (ids b) ∧ u ∈ taggers_id h.

Definition attaches (b : Bootstrap) (uri : string) : Prop :=
  ∃ p l, p ∈ posts b ∧ attachments p = Some l ∧ uri ∈ l.

(** What is gathered is what the payload names so far. *)
Definition gathered (user_id : string) (b : Bootstrap) : Prop :=
  (∀ u, u ∈ user_ids b ↔ names user_id b u) ∧ (∀ uri, uri ∈ attachment_uris b ↔ attaches b uri).

Lemma foldl_handle_post full b ps :
  let b' := foldl (handle_post full) b ps in
  users b' = users b ∧ posts b' = posts b ∧ files b' = files b ∧ indexed b' = indexed b
  ∧ notifications b' = notifications b ∧ influencers (ids b') = influencers (ids b)
  ∧ recommended (ids b') = recommended (ids b) ∧ hot_tags (ids b') = hot_tags (ids b)
  ∧ stream (ids b') = stream (ids b) ++ (if full then (λ p, author p +:+ ":" +:+ post_id p) <$> ps else [])
  ∧ (∀ u, u ∈ user_ids b' ↔ u ∈ user_ids b ∨ ∃ p, p ∈ ps ∧ author p = u)
  ∧ (∀ uri, uri ∈ attachment_uris b' ↔ uri ∈ attachment_uris b ∨ ∃ p l, p ∈ ps ∧ attachments p = Some l ∧ uri ∈ l).
Proof.
  revert b. induction ps as [|p ps IH]; intros b; simpl.
  { split_and!; try done; [by destruct full; rewrite ?app_nil_r|set_solver..]. }
  destruct (IH (handle_post full b p)) as (-> & -> & -> & -> & -> & -> & -> & -> & -> & Hu & Ha).
  split_and!; try done; [by destruct full..| | |].
  - destruct full; simpl; [by rewrite <- app_assoc|done].
  - intros u. rewrite Hu. simpl. set_solver.
  - intros uri. rewrite Ha. simpl. rewrite elem_of_union, elem_of_list_to_set. destruct (attachments p) eqn:?; set_solver.
Qed.

(** A payload still being gathered for a viewer known or not. *)
Definition gathering (user_id : string) (known : bool) (b : Bootstrap) : Prop :=
  gathered user_id b ∧ users b = [] ∧ files b = [] ∧ notifications b = [] ∧ indexed b = known.

Lemma ex_app {A} (P : A → Prop) l1 l2 : (∃ x, x ∈ l1 ++ l2 ∧ P x) ↔ (∃ x, x ∈ l1 ∧ P x) ∨ (∃ x, x ∈ l2 ∧ P x).
Proof. setoid_rewrite elem_of_app. naive_solver. Qed.

Lemma attaches_posts b uri : attaches b uri ↔ ∃ p, p ∈ posts b ∧ ∃ l, attachments p = Some l ∧ uri ∈ l.
Proof. unfold attaches. naive_solver. Qed.

Lemma gathering_stream user_id known v ps b :
  gathering user_id known b → gathering user_id known (snd (handle_post_stream ps v b)).
Proof.
  intros ([Hu Ha] & H1 & H2 & H3 & H4). unfold handle_post_stream. simpl.
  destruct (foldl_handle_post (is_full v) b ps) as (E1 & E2 & E3 & E4 & E5 & E6 & E7 & E8 & _ & Hu' & Ha').
  unfold gathering, gathered, names. simpl. rewrite E1, E2, E3, E4, E5, E6, E7, E8. split_and!; try done.
  - intros u. rewrite Hu', Hu, ex_app. unfold names. tauto.
  - intros uri. rewrite Ha', Ha, !attaches_posts. simpl. rewrite ex_app.
    assert ((∃ p l, p ∈ ps ∧ attachments p = Some l ∧ uri ∈ l) ↔ ∃ p, p ∈ ps ∧ ∃ l, attachments p = Some l ∧ uri ∈ l)
      by naive_solver. tauto.
Qed.

(** New names in one of the lists of ids. *)
Lemma gathering_ids user_id known b i new :
  gathering user_id known b →
  (∀ u, (u ∈ influencers i ∨ u ∈ recommended i ∨ ∃ h, h ∈ hot_tags i ∧ u ∈ taggers_id h)
        ↔ (u ∈ influencers (ids b) ∨ u ∈ recommended (ids b) ∨ ∃ h, h ∈ hot_tags (ids b) ∧ u ∈ taggers_id h) ∨ u ∈ new) →
  gathering user_id known (with_ids i (list_to_set new ∪ user_ids b) b).
Proof.
  intros ([Hu Ha] & H1 & H2 & H3 & H4) Hi. unfold gathering, gathered, names, attaches in *. simpl. split_and!; try done.
  intros u. rewrite elem_of_union, elem_of_list_to_set, Hu. specialize (Hi u). tauto.
Qed.

Lemma add_influencers_gathers user_id known b w b' w' :
  add_influencers b w = (Ok b', w') → gathering user_id known b → gathering user_id known b'.
Proof. intros (found & w1 & _ & [= <- <-])%UserViews.ebind_Ok Hb. apply gathering_ids; [done|]. simpl. intros u. rewrite elem_of_app. tauto. Qed.

Lemma add_recommended_gathers user_id known b w b' w' :
  add_recommended_users user_id b w = (Ok b', w') → gathering user_id known b → gathering user_id known b'.
Proof. intros (found & w1 & _ & [= <- <-])%UserViews.ebind_Ok Hb. apply gathering_ids; [done|]. simpl. intros u. rewrite elem_of_app. tauto. Qed.

Lemma add_hot_tags_gathers user_id known b w b' w' :
  add_global_hot_tags b w = (Ok b', w') → gathering user_id known b → gathering user_id known b'.
Proof.
  intros (found & w1 & _ & [= <- <-])%UserViews.ebind_Ok Hb. apply gathering_ids; [done|]. simpl. intros u.
  rewrite ex_app, list_elem_of_join.
  assert ((∃ h, h ∈ default [] found ∧ u ∈ taggers_id h) ↔ ∃ l, u ∈ l ∧ l ∈ taggers_id <$> default [] found) as ->; [|tauto].
  setoid_rewrite list_elem_of_fmap. naive_solver.
Qed.

Lemma handle_replies_gathers user_id known viewer arrived b w b' w' :
  handle_replies viewer arrived b w = (Ok b', w') → gathering user_id known b → gathering user_id known b'.
Proof.
  revert b w. induction arrived as [|[a p] arrived IH]; intros b w; simpl; [by intros [= <- <-]|].
  intros (ps & w1 & _ & Hr)%UserViews.ebind_Ok Hb. eapply IH; [exact Hr|]. by apply (gathering_stream user_id known Partial ps b).
Qed.

Lemma gathering_begin user_id known : gathering user_id known (begin_ user_id known).
Proof.
  unfold gathering, gathered, names, attaches. destruct known; simpl; split_and!; try done; intros u; set_solver.
Qed.

Lemma elem_of_walk s u : u ∈ walk s ↔ u ∈ s.
Proof. rewrite walk_elements. apply elem_of_elements. Qed.

Lemma walk_empty s : walk s = [] ↔ s = ∅.
Proof.
  split; [|intros ->; apply Permutation_nil; by rewrite walk_elements, elements_empty].
  intros Hw. apply set_eq. intros u. rewrite <- elem_of_walk, Hw. set_solver.
Qed.

Lemma fetch_files_files b w b' w' :
  fetch_file_details b w = (Ok b', w') → files b = [] →
  users b' = users b ∧ posts b' = posts b ∧ ids b' = ids b ∧ indexed b' = indexed b
  ∧ user_ids b' = user_ids b ∧ attachment_uris b' = attachment_uris b
  ∧ ∃ w1, files b' = omap (file_at w1) (file_keys b).
Proof.
  unfold fetch_file_details. case_decide as Hk; [intros [= <- <-] ->; rewrite Hk; split_and!; try done; by exists w|].
  intros (found & w1 & ->%get_files_slots & [= <- <-])%UserViews.ebind_Ok _. simpl. split_and!; try done.
  exists w. apply UserViews.omap_fmap_id.
Qed.

Lemma merge_users_users viewer b w b' w' :
  get_and_merge_users viewer b w = (Ok b', w') → users b = [] →
  files b' = files b ∧ posts b' = posts b ∧ ids b' = ids b ∧ indexed b' = indexed b
  ∧ user_ids b' = user_ids b ∧ attachment_uris b' = attachment_uris b
  ∧ ∃ w1, UserViews.details <$> users b' = omap (UserViews.document w1) (walk (user_ids b)).
Proof.
  unfold get_and_merge_users. case_decide as Hu.
  - intros [= <- <-] ->. split_and!; try done. exists w. by rewrite (proj2 (walk_empty _) Hu).
  - intros (found & w1 & Hf%UserViews.page_of_documents & [= <- <-])%UserViews.ebind_Ok ->. simpl.
    split_and!; try done. by exists w.
Qed.

Lemma notifications_only viewer b w b' w' :
  add_notifications viewer b w = (Ok b', w') →
  users b' = users b ∧ files b' = files b ∧ posts b' = posts b ∧ ids b' = ids b ∧ indexed b' = indexed b
  ∧ user_ids b' = user_ids b ∧ attachment_uris b' = attachment_uris b.
Proof. destruct viewer; simpl; [|by intros [= <- <-]]. by intros (found & w1 & _ & [= <- <-])%UserViews.ebind_Ok. Qed.

(** Up to the files, a payload gathers what it names. *)
Lemma get_by_id_gathers user_id v w b w' :
  get_by_id user_id v w = (Ok b, w') →
  ∃ known b0 w0, gathering user_id known b0
    ∧ (let? b := fetch_file_details b0 in
       let? b := get_and_merge_users (if known then Some user_id else None) b in
       add_notifications (if known then Some user_id else None) b) w0 = (Ok b, w').
Proof.
  intros (known & w0 & _ & (timeline & w1 & _ & Hrun)%UserViews.ebind_Ok)%UserViews.ebind_Ok.
  pose proof (gathering_stream user_id known v timeline _ (gathering_begin user_id known)) as Hb.
  destruct (handle_post_stream timeline v (begin_ user_id known)) as [post_replies b1]. simpl in Hb.
  apply UserViews.ebind_Ok in Hrun as (b2 & w2 & Hi & Hrun). apply (add_influencers_gathers user_id known) in Hi; [|done].
  apply UserViews.ebind_Ok in Hrun as (b3 & w3 & Hr & Hrun). assert (gathering user_id known b3) as H3.
  { destruct known; [by eapply add_recommended_gathers|]. by injection Hr as <- <-. }
  apply UserViews.ebind_Ok in Hrun as (b4 & w4 & Hh & Hrun). apply (add_hot_tags_gathers user_id known) in Hh; [|done].
  apply UserViews.ebind_Ok in Hrun as (b5 & w5 & Hp & Hrun). assert (gathering user_id known b5) as H5.
  { destruct (is_full v); [by eapply handle_replies_gathers|]. by injection Hp as <- <-. }
  eauto.
Qed.

(** C31: A payload answered is closed: its users are the views of exactly the users it names
    (the viewer if indexed, the authors of its posts and replies, influencers, recommended
    users, the taggers of its hot tags), each once, of those among them who had a profile
    document at one read, and nobody else's; its files are those there were, at one read, of
    exactly the attachments of its posts and replies. Users only its notifications mention are
    not among them. *)
Theorem bootstrap_payload_is_closed user_id v w b w' :
  get_by_id user_id v w = (Ok b, w') →
  ∃ us uris w1 w2,
    NoDup us ∧ (∀ u, u ∈ us ↔ names user_id b u)
    ∧ NoDup uris ∧ (∀ uri, uri ∈ uris ↔ attaches b uri)
    ∧ UserViews.details <$> users b = omap (UserViews.document w1) us
    ∧ files b = omap (file_at w2) (omap file_key_from_uri uris).
Proof.
  intros (known & b0 & w0 & ([Hu Ha] & Hnu & Hnf & _ & Hk) & Hrun)%get_by_id_gathers.
  apply UserViews.ebind_Ok in Hrun as (b1 & w1 & (E1 & E2 & E3 & E4 & E5 & E6 & wf & Hfiles)%fetch_files_files & Hrun); [|done].
  apply UserViews.ebind_Ok in Hrun as (b2 & w2 & (F1 & F2 & F3 & F4 & F5 & F6 & wu & Husers)%merge_users_users & Hrun); [|congruence].
  apply notifications_only in Hrun as (G1 & G2 & G3 & G4 & G5 & G6 & G7).
  rewrite G1, G2, F1. rewrite E5 in Husers.
  exists (walk (user_ids b0)), (walk (attachment_uris b0)), wu, wf. split_and!; [..|done|done].
  - rewrite walk_elements. apply NoDup_elements.
  - intros u. rewrite elem_of_walk, Hu. unfold names. by rewrite G3, G4, G5, F2, F3, F4, E2, E3, E4.
  - rewrite walk_elements. apply NoDup_elements.
  - intros uri. rewrite elem_of_walk, Ha. unfold attaches. by rewrite G3, F2, E2.
Qed.
End Bootstrap.

(** ** An example *)

Module Example_bootstrap.

Definition post (a p : string) (att : option (list string)) (n : Z) : PostView :=
  {| author := a; post_id := p; attachments := att; replies := n |}.

Definition timeline : list PostView := [post "ann" "p1" (Some ["file-a"; "not-a-file"]) 1; post "bob" "p2" None 0].
Definition reply : PostView := post "cat" "r1" (Some ["file-b"; "file-lost"]) 0.

Definition rust : HotTag := {| hot_label := "rust"; taggers_id := ["ann"; "dan"]; tagged_count := 2; taggers_count := 9 |}.

Definition profile (u : string) : Users.UserDetails :=
  {| Users.name := u; Users.bio := None; Users.id := u; Users.links := None; Users.status := None;
     Users.image := None; Users.indexed_at := 1; Users.deleted := false; Users.epoch := Users.V0 |}.

(** Eve tops the rankings, but her profile is not indexed. *)
Definition profile_of (u : string) : option Users.UserDetails :=
  if bool_decide (u = "eve") then None else Some (profile u).

Definition file (k : string * string) : option Media.FileDetails :=
  if bool_decide (k.2 = "lost") then None
  else Some (Files.from_stored k {| Files.node_uri := k.2; Files.node_indexed_at := 1; Files.node_created_at := 1;
    Files.node_size := 1; Files.node_src := ""; Files.node_name := k.2; Files.node_content_type := "image/png" |}).

#[refine] Definition view_stores : UserViews.ViewStores unit := {|
  UserViews.mget ids := ret (Ok (profile_of <$> ids));
  UserViews.document _ := profile_of;
  UserViews.user_counts_by_ids ids := ret (Ok ((λ u, (u, true, UserViews.default_counts)) <$> ids));
  UserViews.status_by_ids ids := ret (Ok ((λ _, None) <$> ids));
  UserViews.users_exist _ := ret (Ok true);
  UserViews.check_in_index u v := ret (Ok (bool_decide (u = "ann" ∧ v = "me")));
  UserViews.tags_by_id _ _ _ := ret (Ok None);
|}.
Proof. - by intros ids w l w' [= <- _]. - intros ids w l w' [= <- _]. apply length_fmap. Defined.
#[local] Existing Instance view_stores.

#[refine] Definition sources : Sources unit string := {|
  get_user_details u := ret (Ok (bool_decide (u = "me")));
  get_posts source limit viewer := ret (Ok (match source with
                                            | All => Some (take limit timeline)
                                            | PostReplies "ann" "p1" => Some [reply]
                                            | _ => None
                                            end));
  get_influencers _ _ := ret (Ok (Some [("eve", 3%Z); ("ann", 2%Z)]));
  get_recommended_ids _ := ret (Ok (Some ["fay"]));
  get_hot_tags _ := ret (Ok (Some [rust]));
  get_files keys := ret (Ok (file <$> keys));
  file_at _ := file;
  get_notifications _ _ := ret (Ok ["follow"]);
  file_key_from_uri uri := f ← strip_prefix "file-" uri; Some ("ann", f);
  walk := elements;
  unordered := reverse;
|}.
Proof. - by intros keys w l w' [= <- _]. - done. - intros l. apply reverse_Permutation. Defined.
#[local] Existing Instance sources.

Definition payload (user_id : string) (v : ViewType) := fst (get_by_id user_id v tt).

Definition user_names (b : @Bootstrap string) : list string :=
  merge_sort str_le ((λ v, Users.id (UserViews.details v)) <$> users b).
Definition file_names (b : @Bootstrap string) : list string := merge_sort str_le (Media.id <$> files b).

(** A known viewer's full payload; a stranger's partial one has no replies, no
    recommendations and no notifications. Neither has Eve's view. *)
Example payloads :
  (match payload "me" Full with
   | Ok b => (user_names b, file_names b, stream (ids b))
   | Err _ => ([], [], [])
   end) = (["ann"; "bob"; "cat"; "dan"; "fay"; "me"], ["a"; "b"], ["ann:p1"; "bob:p2"])
  ∧ (match payload "stranger" Partial with
     | Ok b => (user_names b, file_names b, notifications b)
     | Err _ => ([], [], [])
     end) = (["ann"; "bob"; "dan"], ["a"], []).
Proof. vm_compute. done. Qed.

Lemma bootstrap_payload_is_closed_witness :
  ∃ b us, payload "me" Full = Ok b ∧ NoDup us ∧ (∀ u, u ∈ us ↔ names "me" b u)
    ∧ UserViews.details <$> users b = omap profile_of us.
Proof.
  set (run := get_by_id "me" Full tt).
  assert (∃ b, fst run = Ok b) as [b Hb] by (vm_compute; eauto).
  assert (get_by_id "me" Full tt = (Ok b, snd run)) as Hrun by (rewrite <- Hb; apply surjective_pairing).
  exists b.
  destruct (bootstrap_payload_is_closed "me" Full tt b (snd run) Hrun)
    as (us & uris & w1 & w2 & Hnd & Hus & _ & _ & Husers & _).
  exists us. split; [exact Hb|]. split; [exact Hnd|]. split; [exact Hus|exact Husers].
Defined.

End Example_bootstrap.
