(* ===== verification/UserStreams.v ===== *)
(** * User streams

    nexus-common/src/models/user/stream.rs: which users a stream lists, by its source. The
    recommended and most-followed users and the repliers of a post are read here; the
    starter pack is StarterPack.v's, influencers Rankings.v's, follow lists Follows.v's: they
    are operations of the class [OtherSources]. One rebuild of the most-followed ranking at
    a time is the lock of Rankings.v's machine; here requests come one after another. *)

From S2P Require Import Prelude Errors Graphs Ranges Follows Reach StarterPack.
From S2P Require Rankings Scan.
Local Open Scope nexus_scope.
#[local] Remove Hints finite.finite_countable : typeclass_instances.
#[local] Existing Instances Scan.Influencers.by_id_dec Scan.Influencers.ranked_dec.

(** ** The stores *)

(** What the queries read of a user: name, tombstone; and the follows and posts. *)
Record StreamGraph := { social : ReachGraph; profiles : gmap string (string * bool) }.

Inductive Trip := Served | Refused (e : Kv.RedisError) | ReplyLost (e : Kv.RedisError).

Record World := {
  graph : StreamGraph;
  (** [deleted] of the users' documents *)
  docs : gmap string bool;
  (** the recommendations cached for each user, and the ranking; no set is kept empty *)
  recommended : gmap string (gset string);
  most_followed : option (gmap string Z);
  reply_sets : gmap (string * string) (gmap string Z);
  graph_trips : list GraphTrip;
  redis_trips : list Trip;
}.

Definition M (A : Type) : Type := prog World (result A Model.ModelError).

Definition with_graph_trips (ts : list GraphTrip) (w : World) : World :=
  {| graph := graph w; docs := docs w; recommended := recommended w; most_followed := most_followed w;
     reply_sets := reply_sets w; graph_trips := ts; redis_trips := redis_trips w |}.
Definition with_redis_trips (ts : list Trip) (w : World) : World :=
  {| graph := graph w; docs := docs w; recommended := recommended w; most_followed := most_followed w;
     reply_sets := reply_sets w; graph_trips := graph_trips w; redis_trips := ts |}.
Definition set_recommended (r : gmap string (gset string)) (w : World) : World :=
  {| graph := graph w; docs := docs w; recommended := r; most_followed := most_followed w;
     reply_sets := reply_sets w; graph_trips := graph_trips w; redis_trips := redis_trips w |}.
Definition set_most_followed (z : option (gmap string Z)) (w : World) : World :=
  {| graph := graph w; docs := docs w; recommended := recommended w; most_followed := z;
     reply_sets := reply_sets w; graph_trips := graph_trips w; redis_trips := redis_trips w |}.

Definition query_graph {A} (f : StreamGraph → A) : M A := λ w,
  match graph_trips w with
  | [] => (Ok (f (graph w)), w)
  | GraphServed :: ts => (Ok (f (graph w)), with_graph_trips ts w)
  | GraphRefused e :: ts | GraphReplyLost e :: ts => (Err (Model.GraphOperationFailed e), with_graph_trips ts w)
  end.

Definition call_redis {A} (f : World → A) (upd : World → World) : M A := λ w,
  match redis_trips w with
  | [] => (Ok (f w), upd w)
  | Served :: ts => (Ok (f w), with_redis_trips ts (upd w))
  | Refused e :: ts => (Err (Model.KvOperationFailed e), with_redis_trips ts w)
  | ReplyLost e :: ts => (Err (Model.KvOperationFailed e), with_redis_trips ts (upd w))
  end.

Definition read_redis {A} (f : World → A) : M A := call_redis f (λ w, w).

(** What Redis and Neo4j choose. *)
Class Choices := {
  (** SRANDMEMBER of up to so many *)
  random_members : nat → gset string → list string;
  random_members_spec n s :
    NoDup (random_members n s) ∧ (∀ x, x ∈ random_members n s → x ∈ s) ∧ length (random_members n s) = (n `min` size s)%nat;
  (** the order of rows nothing orders *)
  row_order : list string → list string;
  row_order_same l : row_order l ≡ₚ l;
  (** the order a hash set is walked in *)
  walk : gset string → list string;
  walk_elements s : walk s ≡ₚ elements s;
}.

Section Streams.
Context `{Choices}.

(** ** Recommended users *)

(** Two or three follows away, alive, not followed, with five posts. *)
Definition recommendable (g : StreamGraph) (user_id potential : string) : Prop :=
  potential ≠ user_id ∧ (snd <$> (profiles g !! potential)) ≠ Some true ∧ ((user_id, potential) ∉ edges (social g))
  ∧ (5 ≤ posts_of (social g) potential)%nat.

#[export] Instance recommendable_dec g u p : Decision (recommendable g u p).
Proof. unfold recommendable. apply _. Defined.

(** [-[:FOLLOWS*2..3]->] *)
Definition two_or_three_away (g : StreamGraph) (user_id : string) : list string :=
  e ← filter (λ e, fst e = user_id) (edges (social g)); trail_ends (edges (social g)) 2 [e] (snd e).

Definition recommend_users (user_id : string) (limit : nat) (g : StreamGraph) : list string :=
  if decide (user_id ∈ Follows.users (follow_graph (social g))) then
    take limit (row_order (filter (recommendable g user_id) (remove_dups (two_or_three_away g user_id))))
  else [].

Definition try_get_cached_recommended (user_id : string) (count : nat) : M (option (list string)) :=
  let? set_exists := read_redis (λ w, bool_decide (is_Some (recommended w !! user_id))) in
  if set_exists : bool then
    let? members := read_redis (λ w, random_members count (default ∅ (recommended w !! user_id))) in
    ret (Ok (Some members))
  else ret (Ok None).

(** SADD, with the time to live. *)
Definition cache_recommended_users (user_id : string) (user_ids : list string) : M unit :=
  call_redis (λ _, tt) (λ w,
    set_recommended (<[user_id := default ∅ (recommended w !! user_id) ∪ list_to_set user_ids]> (recommended w)) w).

(** SREM; a set left empty is gone. *)
Definition srem (user_id : string) (gone : list string) (w : World) : World :=
  match recommended w !! user_id with
  | None => w
  | Some s =>
      let left := s ∖ list_to_set gone in
      set_recommended (if decide (left = ∅) then delete user_id (recommended w) else <[user_id := left]> (recommended w)) w
  end.

Definition remove_from_cached_recommended (user_id : string) (deleted_ids : list string) : prog World unit :=
  match deleted_ids with
  | [] => ret tt
  | _ => let* _ := call_redis (λ _, tt) (srem user_id deleted_ids) in ret tt
  end.

(** [UserDetails::mget] *)
Definition mget (ids : list string) : M (list (option bool)) := read_redis (λ w, (λ id, docs w !! id) <$> ids).

(** The ids with a document not deleted, and the others. *)
Definition split_live (ids : list string) (details : list (option bool)) : list string * list string :=
  let zipped := zip ids details in
  (fst <$> filter (λ e, snd e = Some false) zipped, fst <$> filter (λ e, snd e ≠ Some false) zipped).

Definition non_empty (ids : list string) : option (list string) := match ids with [] => None | _ => Some ids end.

Definition get_recommended_ids (user_id : string) (limit : option nat) : M (option (list string)) :=
  let? cached := try_get_cached_recommended user_id (default 5 limit)%nat in
  match cached with
  | Some cached_ids =>
      let? details_list := mget cached_ids in
      let '(filtered_ids, deleted_ids) := split_live cached_ids details_list in
      let* _ := remove_from_cached_recommended user_id deleted_ids in
      ret (Ok (non_empty filtered_ids))
  | None =>
      let? user_ids := query_graph (recommend_users user_id 30) in
      match user_ids with
      | [] => ret (Ok None)
      | _ =>
          let? _ := cache_recommended_users user_id user_ids in
          ret (Ok (Some (match limit with Some limit => take limit user_ids | None => user_ids end)))
      end
  end.

(** ** Most followed *)

Definition MOST_FOLLOWED_PAGE_SIZE : nat := 500.

Definition followers_count (g : StreamGraph) (u : string) : Z :=
  Z.of_nat (length (filter (λ e, snd e = u) (edges (social g)))).

(** What [get_most_followed_users] reads of a user. *)
Definition node_of (g : StreamGraph) (p : string * (string * bool)) : Scan.Influencers.UserNode :=
  {| Scan.Influencers.id := p.1; Scan.Influencers.name := p.2.1; Scan.Influencers.deleted := Some p.2.2;
     Scan.Influencers.score := followers_count g p.1 |}.

Definition nodes (g : StreamGraph) : list Scan.Influencers.UserNode := node_of g <$> map_to_list (profiles g).

Definition read_most_followed_ranking (fuel page_size : nat) : prog World (option (result (list (string * Z)) Model.ModelError)) :=
  λ w, let '(r, s) := Scan.Influencers.read_ranking "most_followed" fuel page_size
                        {| Graphs.graph := nodes (graph w); Graphs.graph_trips := graph_trips w |} in
       (r, with_graph_trips (Graphs.graph_trips s) w).

(** DEL, or DEL and ZADD in one script. *)
Definition write_most_followed_ranking (ranking : result (list (string * Z)) Model.ModelError) : M unit :=
  match ranking with
  | Err e => ret (Err e)
  | Ok ranking =>
      call_redis (λ _, tt) (set_most_followed (match ranking with
                                               | [] => None
                                               | _ => Some (foldl (λ z e, <[e.1 := as_f64 e.2]> z) ∅ ranking)
                                               end))
  end.

(** [None] when the scan is out of fuel. *)
Definition refresh_most_followed (fuel : nat) : prog World (option (result unit Model.ModelError)) :=
  let* ranking := read_most_followed_ranking fuel MOST_FOLLOWED_PAGE_SIZE in
  match ranking with
  | None => ret None
  | Some ranking => let* r := write_most_followed_ranking ranking in ret (Some r)
  end.

(** [try_from_index_sorted_set]: 1000 members unless told otherwise. *)
Definition read_most_followed (skip limit : option nat) : M (option (list (string * Z))) :=
  read_redis (λ w, z ← most_followed w; get_rev_range None None skip limit z).

Definition zrem (gone : list string) (w : World) : World :=
  match most_followed w with
  | None => w
  | Some z => let left := filter (λ e, e.1 ∉ gone) z in set_most_followed (if decide (left = ∅) then None else Some left) w
  end.

(** What follows the reads: the users alive, the others taken out. *)
Definition live_page (set : list (string * Z)) : M (option (list string)) :=
  let ids := fst <$> set in
  let? details_list := mget ids in
  let '(filtered_ids, deleted_ids) := split_live ids details_list in
  let* _ := (match deleted_ids with
             | [] => ret tt
             | _ => let* _ := call_redis (λ _, tt) (zrem deleted_ids) in ret tt
             end) in
  ret (Ok (non_empty filtered_ids)).

Definition serve_page (result : option (list (string * Z))) : M (option (list string)) :=
  match result with None => ret (Ok None) | Some set => live_page set end.

Definition get_most_followed (fuel : nat) (skip limit : option nat) : prog World (option (result (option (list string)) Model.ModelError)) :=
  let read := read_most_followed skip limit in
  let some {A} (p : prog World A) : prog World (option A) := let* a := p in ret (Some a) in
  let* first := read in
  match first with
  | Err e => ret (Some (Err e))
  | Ok (Some set) => some (live_page set)
  | Ok None =>
      let* second := read in
      match second with
      | Err e => ret (Some (Err e))
      | Ok (Some set) => some (live_page set)
      | Ok None =>
          let* refreshed := refresh_most_followed fuel in
          match refreshed with
          | None => ret None
          | Some (Err e) => ret (Some (Err e))
          | Some (Ok _) => some (let? third := read in serve_page third)
          end
      end
  end.

(** ** Who replied *)

Definition missing_id (what : string) : Model.ModelError :=
  Model.KvOperationFailed (Kv.InvalidInput (what +:+ " ID should be provided for user streams with source 'post_replies'")).

(** [split(':').next()] *)
Fixpoint before_colon (s : string) : string :=
  match s with
  | EmptyString => EmptyString
  | String c s => if decide (c = Ascii.ascii_of_N 58) then EmptyString else String c (before_colon s)
  end.

Definition get_post_replies_ids (post_id author_id : option string) : M (option (list string)) :=
  match post_id, author_id with
  | None, _ => ret (Err (missing_id "Post"))
  | _, None => ret (Err (missing_id "Author"))
  | Some post_id, Some author_id =>
      let? replies := read_redis (λ w, z ← reply_sets w !! (author_id, post_id); get_rev_range None None None None z) in
      ret (Ok (match replies with
               | None => None
               | Some replies => Some (walk (list_to_set ((λ e, before_colon e.1) <$> replies)))
               end))
  end.

(** ** The sources *)

(** The lists and views of other components. *)
Class OtherSources (UserView : Type) := {
  follow_list : UserStreamSource → string → option nat → option nat → M (option (list string));
  get_influencers : option string → StreamReach → nat → nat → Rankings.Timeframe → bool → M (option (list (string * Z)));
  get_starter_pack : UserStreamInput → list string → M (option (list string));
  get_user_views : list string → option string → option Z → M (list (option UserView));
  search_by_name : string → option nat → option nat → M (option (list string));
}.

Context {UserView : Type} `{!OtherSources UserView}.

Definition needs_user (source : UserStreamSource) : Model.ModelError :=
  Model.from_generic ("User ID should be provided for user streams with source '" +:+ source_name source +:+ "'").

(** A list that needs no scan. *)
Definition done {A} (p : prog World A) : prog World (option A) := let* a := p in ret (Some a).

Definition get_user_list_from_source (fuel : nat) (input : UserStreamInput) :
    prog World (option (result (option (list string)) Model.ModelError)) :=
  let skip := Z.to_nat <$> i_skip input in
  let limit := Z.to_nat <$> i_limit input in
  match source input with
  | Followers | Following | Friends =>
      match user_id input with
      | None => done (ret (Err (needs_user (source input))))
      | Some user_id => done (follow_list (source input) user_id skip limit)
      end
  | MostFollowed => get_most_followed fuel skip limit
  | Influencers =>
      done (let? found := get_influencers (user_id input) (default (Wot WotDepth_default) (reach input)) (default 0 skip)%nat
                            (default 10 limit `min` 100)%nat (default Rankings.AllTime (timeframe input))
                            (default false (preview input)) in
            ret (Ok (fmap (λ l : list (string * Z), fst <$> l) found)))
  | Recommended =>
      match user_id input with
      | None => done (ret (Err (needs_user Recommended)))
      | Some user_id => done (get_recommended_ids user_id limit)
      end
  | PostReplies => done (get_post_replies_ids (post_id input) (author_id input))
  | StarterPack =>
      match tags input with
      | None => done (ret (Err (Model.from_generic "Tags should be provided for user streams with source 'starter_pack'")))
      | Some labels => done (get_starter_pack input labels)
      end
  end.

(** The views there are, or nothing. *)
Definition from_listed_user_ids (user_ids : list string) (viewer_id : option string) (depth : option Z) :
    M (option (list UserView)) :=
  let? views := get_user_views user_ids viewer_id depth in
  let user_views := omap (λ v, v) views in
  ret (Ok (match user_views with [] => None | _ => Some user_views end)).

Definition get_by_id (fuel : nat) (input : UserStreamInput) (viewer_id : option string) (depth : option Z) :
    prog World (option (result (option (list UserView)) Model.ModelError)) :=
  let* user_ids := get_user_list_from_source fuel input in
  match user_ids with
  | None => ret None
  | Some (Err e) => ret (Some (Err e))
  | Some (Ok (Some users)) => done (from_listed_user_ids users viewer_id depth)
  | Some (Ok None) => ret (Some (Ok None))
  end.

Definition get_from_username_search (username : string) (viewer_id : option string) (skip limit : option nat) :
    M (option (list UserView)) :=
  let? user_ids := search_by_name username skip limit in
  match user_ids with
  | Some users => from_listed_user_ids users viewer_id None
  | None => ret (Ok None)
  end.

(** ** What is recommended *)

(** Somebody the graph would recommend a user. *)
Definition eligible (g : StreamGraph) (user_id potential : string) : Prop :=
  potential ∈ two_or_three_away g user_id ∧ recommendable g user_id potential.

(** What is cached for a user was eligible in a graph there was. *)
Definition kept (past : list StreamGraph) (w : World) : Prop :=
  ∀ u s, recommended w !! u = Some s → s ≠ ∅ ∧ ∀ x, x ∈ s → ∃ g, g ∈ past ∧ eligible g u x.

Lemma recommend_users_spec user_id limit g :
  NoDup (recommend_users user_id limit g) ∧ (length (recommend_users user_id limit g) ≤ limit)%nat
  ∧ ∀ x, x ∈ recommend_users user_id limit g → eligible g user_id x.
Proof.
  unfold recommend_users. case_decide; [|split_and!; [constructor|simpl; lia|by intros x ?%elem_of_nil]].
  set (l := filter _ _). pose proof (row_order_same l) as Hp. split_and!.
  - eapply sublist_NoDup; [|apply sublist_take]. rewrite Hp. unfold l. apply NoDup_filter, NoDup_remove_dups.
  - rewrite length_take. lia.
  - intros x Hx%(subseteq_take _ _). rewrite Hp in Hx. unfold l in Hx.
    apply list_elem_of_filter in Hx as [Hr Hx]. rewrite elem_of_remove_dups in Hx. by split.
Qed.

Lemma kept_mono past past' w w' : past ⊆ past' → recommended w' = recommended w → kept past w → kept past' w'.
Proof. intros Hp Hr Hk u s Hs. rewrite Hr in Hs. destruct (Hk u s Hs) as [? Hx]. split; [done|]. intros x (g & ? & ?)%Hx. eauto. Qed.

(** Only the trips are different. *)
Definition quiet (w w' : World) : Prop :=
  graph w' = graph w ∧ docs w' = docs w ∧ recommended w' = recommended w ∧ most_followed w' = most_followed w
  ∧ reply_sets w' = reply_sets w.

Lemma quiet_refl w : quiet w w.
Proof. by split_and!. Qed.

Lemma quiet_trans w1 w2 w3 : quiet w1 w2 → quiet w2 w3 → quiet w1 w3.
Proof. unfold quiet. intros (? & ? & ? & ? & ?) (? & ? & ? & ? & ?). split_and!; congruence. Qed.

Lemma redis_reads {A} (f : World → A) w Q R :
  (∀ w', quiet w w' → Q (f w) w') → (∀ e w', quiet w w' → R e w') → yields (read_redis f) w Q R.
Proof.
  intros HQ HR. unfold yields, read_redis, call_redis. destruct (redis_trips w) as [|[|e|e] ts]; simpl; [apply HQ|apply HQ|apply HR|apply HR];
    by split_and!.
Qed.

Lemma redis_writes {A} (f : World → A) upd w Q R :
  (∀ w', quiet (upd w) w' → Q (f w) w') → (∀ e w', quiet w w' ∨ quiet (upd w) w' → R e w') → yields (call_redis f upd) w Q R.
Proof.
  intros HQ HR. unfold yields, call_redis.
  destruct (redis_trips w) as [|[|e|e] ts]; simpl; [apply HQ|apply HQ|apply HR; left|apply HR; right]; by split_and!.
Qed.

Lemma graph_reads {A} (f : StreamGraph → A) w Q R :
  (∀ w', quiet w w' → Q (f (graph w)) w') → (∀ e w', quiet w w' → R e w') → yields (query_graph f) w Q R.
Proof.
  intros HQ HR. unfold yields, query_graph. destruct (graph_trips w) as [|[|e|e] ts]; simpl;
    [apply HQ|apply HQ|apply HR|apply HR]; by split_and!.
Qed.

Lemma kept_quiet past w w' : quiet w w' → kept past w → kept past w'.
Proof. intros (_ & _ & Hr & _) Hk. unfold kept. by rewrite Hr. Qed.

Lemma kept_srem past u gone w : kept past w → kept past (srem u gone w).
Proof.
  intros Hk. unfold srem. destruct (recommended w !! u) as [s|] eqn:Hs; [|done]. destruct (Hk u s Hs) as [Hne Hx].
  intros u' s'. simpl. case_decide as Hleft; rewrite ?lookup_delete, ?lookup_insert; case_decide as Hu; try done; try apply Hk.
  subst u'. intros [= <-]. split; [done|]. intros x Hin. apply Hx. set_solver.
Qed.

Lemma kept_cached past u ids w :
  ids ≠ [] → (∀ x, x ∈ ids → eligible (graph w) u x) → kept past w →
  kept (graph w :: past) (set_recommended (<[u := default ∅ (recommended w !! u) ∪ list_to_set ids]> (recommended w)) w).
Proof.
  intros Hne Hids Hk u' s'. simpl. rewrite lookup_insert. case_decide as Hu.
  - subst u'. intros [= <-]. split; [destruct ids; [done|set_solver]|]. intros x [Hx|Hx]%elem_of_union.
    + destruct (recommended w !! u) as [s|] eqn:Hs; [|set_solver]. destruct (proj2 (Hk u s Hs) x Hx) as (g & ? & ?).
      exists g. split; [by right|done].
    + exists (graph w). split; [left|]. apply Hids. by apply elem_of_list_to_set in Hx.
  - intros Hs. destruct (Hk u' s' Hs) as [? Hx]. split; [done|]. intros x (g & ? & ?)%Hx. exists g. split; [by right|done].
Qed.

Lemma kept_past g past w : kept past w → kept (g :: past) w.
Proof. intros Hk u s Hs. destruct (Hk u s Hs) as [? Hx]. split; [done|]. intros x (g' & ? & ?)%Hx. exists g'. split; [by right|done]. Qed.

Lemma kept_later g past w w' : kept past w → quiet w w' → kept (g :: past) w'.
Proof. intros Hk Hq. by eapply kept_past, kept_quiet. Qed.

Lemma split_live_spec ids (d : gmap string bool) :
  (split_live ids ((λ id, d !! id) <$> ids)).1 = filter (λ id, d !! id = Some false) ids.
Proof.
  unfold split_live. simpl. induction ids as [|x ids IH]; [done|]. rewrite fmap_cons. cbn [zip zip_with].
  rewrite !filter_cons. simpl. case_decide; [rewrite fmap_cons; simpl; f_equal|]; exact IH.
Qed.

Lemma evict_keeps past u gone w : kept past w → kept past (snd (remove_from_cached_recommended u gone w)).
Proof.
  intros Hk. unfold remove_from_cached_recommended. destruct gone as [|x gone]; [done|]. unfold bind.
  destruct (call_redis _ _ w) as [r w'] eqn:Hcall.
  eapply (yields_run _ w r w' (λ _ w, kept past w) (λ _ w, kept past w)) in Hcall; [by destruct r|].
  apply redis_writes; [intros w1 H1; by eapply kept_quiet, kept_srem|].
  intros e w1 [H1|H1]; [by eapply kept_quiet|by eapply kept_quiet, kept_srem].
Qed.

(** What an answer of recommendations is. *)
Definition well_recommended (past : list StreamGraph) (user_id : string) (limit : option nat) (w : World)
    (found : option (list string)) : Prop :=
  ∀ ids, found = Some ids →
    NoDup ids ∧ (length ids ≤ default 30 limit)%nat
    ∧ ∀ x, x ∈ ids → eligible (graph w) user_id x ∨ ((∃ g, g ∈ past ∧ eligible g user_id x) ∧ docs w !! x = Some false).

Lemma hit_is_well_recommended past user_id limit w w1 :
  kept past w → recommended w1 = recommended w →
  well_recommended past user_id limit w
    (non_empty (filter (λ id, docs w !! id = Some false)
                  (random_members (default 5 limit)%nat (default ∅ (recommended w1 !! user_id))))).
Proof.
  intros Hk -> ids. destruct (random_members_spec (default 5 limit)%nat (default ∅ (recommended w !! user_id))) as (Hnd & Hin & Hlen).
  set (members := random_members _ _) in *. unfold non_empty.
  destruct (filter _ members) as [|x l] eqn:Hf; [done|]. rewrite <- Hf. intros [= <-]. split_and!.
  - by apply NoDup_filter.
  - etrans; [apply length_filter|]. rewrite Hlen. destruct limit; unfold default; lia.
  - intros y [Hd Hy]%list_elem_of_filter. right. split; [|done]. apply Hin in Hy.
    destruct (recommended w !! user_id) as [s|] eqn:Hs; [|by apply not_elem_of_empty in Hy]. by apply (Hk user_id s Hs).
Qed.

Lemma miss_is_well_recommended past user_id limit w :
  well_recommended past user_id limit w
    (Some (match limit with Some limit => take limit (recommend_users user_id 30 (graph w))
           | None => recommend_users user_id 30 (graph w) end)).
Proof.
  intros ids [= <-]. destruct (recommend_users_spec user_id 30 (graph w)) as (Hnd & Hlen & Hel).
  destruct limit as [limit|]; [|by split_and!; auto]. split_and!.
  - eapply sublist_NoDup; [exact Hnd|apply sublist_take].
  - rewrite length_take. simpl. lia.
  - intros x Hx%(subseteq_take _ _). left. by apply Hel.
Qed.

(** C32: Whatever fails, the users recommended to somebody are distinct, no more than asked
    for, and each two or three follows away, not followed, alive and with five posts, in the
    graph now, or else in one the cache was filled from and with a document now; and the
    caches stay filled with such users only. *)
Theorem recommendations_are_eligible past user_id limit w r w' :
  kept past w → get_recommended_ids user_id limit w = (r, w') →
  kept (graph w :: past) w' ∧ ∀ found, r = Ok found → well_recommended past user_id limit w found.
Proof.
  intros Hk Hrun.
  enough (yields (get_recommended_ids user_id limit) w
    (λ found w', kept (graph w :: past) w' ∧ well_recommended past user_id limit w found)
    (λ _ w', kept (graph w :: past) w')) as Hy.
  { unfold yields in Hy. rewrite Hrun in Hy. destruct r as [found|e]; [|by split]. destruct Hy. split; [done|]. by intros ? [= <-]. }
  clear Hrun. unfold get_recommended_ids, try_get_cached_recommended. apply yields_ebind, yields_ebind.
  apply redis_reads; [|intros e w1 H1; by eapply kept_later].
  intros w1 H1. case_bool_decide as Hcached.
  - apply yields_ebind, redis_reads; [|intros e w2 H2; eapply kept_later; [done|by eapply quiet_trans]].
    intros w2 H2. apply yields_ret. pose proof (quiet_trans _ _ _ H1 H2) as H12.
    apply yields_ebind, redis_reads; [|intros e w3 H3; eapply kept_later; [done|by eapply quiet_trans]].
    intros w3 H3. pose proof (hit_is_well_recommended past user_id limit w w1 Hk (proj1 (proj2 (proj2 H1)))) as Hgood.
    set (ids := random_members _ _) in *. pose proof (split_live_spec ids (docs w2)) as Hsplit.
    destruct (split_live ids _) as [filtered_ids deleted_ids]. simpl in Hsplit. subst filtered_ids.
    rewrite (proj1 (proj2 H12)). apply yields_bind. intros [] w4 Hrm. apply yields_ret. split; [|done].
    change w4 with (snd (tt, w4)). rewrite <- Hrm. apply evict_keeps. eapply kept_later; [done|by eapply quiet_trans].
  - apply yields_ret, yields_ebind, graph_reads; [|intros e w2 H2; eapply kept_later; [done|by eapply quiet_trans]].
    intros w2 H2. pose proof (quiet_trans _ _ _ H1 H2) as H12. rewrite (proj1 H1).
    pose proof (miss_is_well_recommended past user_id limit w) as Hgood.
    destruct (recommend_users user_id 30 (graph w)) as [|x l] eqn:Hl; [apply yields_ret; split; [by eapply kept_later|done]|].
    assert (kept (graph w :: past) (set_recommended (<[user_id := default ∅ (recommended w2 !! user_id) ∪ list_to_set (x :: l)]>
      (recommended w2)) w2)) as Hfill.
    { rewrite <- (proj1 H12). apply kept_cached; [done| |by eapply kept_quiet]. rewrite (proj1 H12), <- Hl. apply recommend_users_spec. }
    apply yields_ebind, redis_writes.
    + intros w3 H3. apply yields_ret. split; [by eapply kept_quiet|done].
    + intros e w3 [H3|H3]; [eapply kept_later; [done|by eapply quiet_trans]|by eapply kept_quiet].
Qed.

(** ** The most followed *)

(** Every user neither tombstoned nor a stub, with their followers. *)
Definition followers_of (g : StreamGraph) : gmap string Z :=
  map_imap (λ u p, if decide (Scan.Influencers.ranked (node_of g (u, p))) then Some (as_f64 (followers_count g u)) else None)
    (profiles g).

Definition ranking_of (g : StreamGraph) : list (string * Z) :=
  Scan.Influencers.entries (merge_sort Scan.Influencers.by_id (filter Scan.Influencers.ranked (nodes g))).

Lemma nodes_NoDup g : NoDup (Scan.Influencers.id <$> nodes g).
Proof.
  unfold nodes. rewrite <- list_fmap_compose. rewrite (list_fmap_ext _ fst) by done. apply NoDup_fst_map_to_list.
Qed.

Lemma elem_of_ranking_of g u n :
  (u, n) ∈ ranking_of g ↔ ∃ p, profiles g !! u = Some p ∧ Scan.Influencers.ranked (node_of g (u, p)) ∧ n = followers_count g u.
Proof.
  unfold ranking_of, Scan.Influencers.entries. rewrite list_elem_of_fmap. split.
  - intros (v & [= -> ->] & Hv). rewrite merge_sort_Permutation in Hv. apply list_elem_of_filter in Hv as [Hr Hv].
    unfold nodes in Hv. apply list_elem_of_fmap in Hv as ([u p] & -> & Hp). apply elem_of_map_to_list in Hp. eauto.
  - intros (p & Hp & Hr & ->). exists (node_of g (u, p)). split; [done|]. rewrite merge_sort_Permutation.
    apply list_elem_of_filter. split; [done|]. unfold nodes. apply list_elem_of_fmap. exists (u, p).
    split; [done|]. by apply elem_of_map_to_list.
Qed.

Lemma ranking_NoDup g : NoDup (ranking_of g).*1.
Proof.
  unfold ranking_of, Scan.Influencers.entries. rewrite <- list_fmap_compose. rewrite (list_fmap_ext _ Scan.Influencers.id) by done.
  rewrite merge_sort_Permutation. eapply sublist_NoDup; [apply (nodes_NoDup g)|]. apply fmap_sublist, sublist_filter.
Qed.

Lemma foldl_as_f64 (rows : list (string * Z)) (z : gmap string Z) u x :
  NoDup rows.*1 → (∀ v, v ∈ rows.*1 → z !! v = None) →
  foldl (λ z e, <[e.1 := as_f64 e.2]> z) z rows !! u = Some x ↔ z !! u = Some x ∨ ∃ n, (u, n) ∈ rows ∧ x = as_f64 n.
Proof.
  revert z. induction rows as [|[v n] rows IH]; intros z Hnd Hz; simpl.
  { split; [auto|]. intros [?|(n & ?%elem_of_nil & _)]; done. }
  simpl in *. apply NoDup_cons in Hnd as [Hv Hnd]. rewrite IH; [|done|].
  - rewrite lookup_insert_Some. setoid_rewrite elem_of_cons. split.
    + intros [[[-> <-]|[? ?]]|(n' & ? & ?)]; [right; exists n; auto|auto|right; exists n'; auto].
    + intros [Hu|(n' & [[= -> ->]|?] & ->)]; [|auto|right; eauto].
      left. right. split; [|done]. intros ->. rewrite Hz in Hu; [done|left].
  - intros v' Hv'. rewrite lookup_insert_ne by (by intros ->). apply Hz. by right.
Qed.

Lemma ranking_is_followers g : foldl (λ z e, <[e.1 := as_f64 e.2]> z) ∅ (ranking_of g) = followers_of g.
Proof.
  apply map_eq. intros u. apply option_eq. intros x.
  rewrite foldl_as_f64 by (apply ranking_NoDup || (intros; apply lookup_empty)). rewrite lookup_empty.
  setoid_rewrite elem_of_ranking_of. unfold followers_of. rewrite map_lookup_imap. split.
  - intros [?|(n & (p & Hp & Hr & ->) & ->)]; [done|]. rewrite Hp. simpl. by rewrite decide_True.
  - destruct (profiles g !! u) as [p|]; simpl; [|done]. case_decide; [|done]. intros [= <-]. right. eauto 6.
Qed.

(** With every call answered. *)
Definition calm (w : World) : Prop := graph_trips w = [] ∧ redis_trips w = [].

Lemma redis_calm {A} (f : World → A) upd w : redis_trips w = [] → call_redis f upd w = (Ok (f w), upd w).
Proof. unfold call_redis. by intros ->. Qed.

Lemma refresh_calm fuel w :
  calm w → (size (profiles (graph w)) < fuel)%nat → profiles (graph w) !! "" = None →
  refresh_most_followed fuel w
  = (Some (Ok tt), set_most_followed (if decide (followers_of (graph w) = ∅) then None else Some (followers_of (graph w))) w).
Proof.
  intros [Hg Hr] Hfuel Hids. unfold refresh_most_followed, read_most_followed_ranking, bind. rewrite Hg.
  rewrite Scan.Influencers.ranking_is_complete.
  - simpl. fold (ranking_of (graph w)). rewrite <- ranking_is_followers. unfold ret, write_most_followed_ranking.
    assert (∀ rows : list (string * Z), rows ≠ [] → foldl (λ z e, <[e.1 := as_f64 e.2]> z) (∅ : gmap string Z) rows ≠ ∅) as Hne.
    { intros rows Hrows. destruct rows as [|e rows _] using rev_ind; [done|]. rewrite foldl_app. simpl. apply insert_non_empty. }
    destruct (ranking_of (graph w)) as [|e rows]; [rewrite decide_True by done|rewrite decide_False by by apply Hne];
      rewrite redis_calm by done; destruct w; simpl in *; by subst.
  - unfold MOST_FOLLOWED_PAGE_SIZE. lia.
  - unfold nodes. by rewrite length_fmap, length_map_to_list.
  - apply nodes_NoDup.
  - apply Forall_forall. intros u Hu Hid. unfold nodes in Hu. apply list_elem_of_fmap in Hu as ([v p] & -> & Hv).
    apply elem_of_map_to_list in Hv. simpl in Hid. by rewrite Hid, Hids in Hv.
Qed.

Definition dead (w : World) (ids : list string) : list string := filter (λ u, docs w !! u ≠ Some false) ids.

Lemma split_dead_spec ids (d : gmap string bool) :
  (split_live ids ((λ id, d !! id) <$> ids)).2 = filter (λ id, d !! id ≠ Some false) ids.
Proof.
  unfold split_live. simpl. induction ids as [|x ids IH]; [done|]. rewrite fmap_cons. cbn [zip zip_with].
  rewrite !filter_cons. simpl. case_decide; [rewrite fmap_cons; simpl; f_equal|]; exact IH.
Qed.

Definition served_page (skip limit : option nat) (z : gmap string Z) : list string :=
  fst <$> take (default 1000 limit)%nat (drop (default 0 skip)%nat (rev_range None None z)).

Lemma live_page_calm w (set : list (string * Z)) :
  redis_trips w = [] →
  live_page set w
  = (Ok (non_empty (filter (λ u, docs w !! u = Some false) set.*1)),
     match dead w set.*1 with [] => w | gone => zrem gone w end).
Proof.
  intros Hr. unfold live_page, mget, read_redis, ebind. rewrite redis_calm by done.
  pose proof (split_live_spec set.*1 (docs w)) as Hl. pose proof (split_dead_spec set.*1 (docs w)) as Hd.
  destruct (split_live set.*1 _) as [live gone]. simpl in *. subst live gone. unfold dead, bind.
  destruct (filter (λ u, docs w !! u ≠ Some false) set.*1) as [|x gone]; [done|]. rewrite redis_calm by done. done.
Qed.

Definition window (skip limit : option nat) (z : gmap string Z) : list (string * Z) :=
  take (default 1000 limit)%nat (drop (default 0 skip)%nat (rev_range None None z)).

Lemma read_calm skip limit w :
  redis_trips w = [] → most_followed w ≠ Some ∅ →
  read_most_followed skip limit w = (Ok (match most_followed w with Some z => Some (window skip limit z) | None => None end), w).
Proof.
  intros Hr Hne. unfold read_most_followed, read_redis. rewrite redis_calm by done.
  destruct (most_followed w) as [z|]; simpl; [|done]. unfold get_rev_range. by rewrite decide_False by (intros ->; done).
Qed.

Definition without (gone : list string) (z : gmap string Z) : option (gmap string Z) :=
  let left := filter (λ e, e.1 ∉ gone) z in if decide (left = ∅) then None else Some left.

Lemma serve_calm skip limit w z :
  redis_trips w = [] → most_followed w = Some z → z ≠ ∅ →
  ∃ w', live_page (window skip limit z) w
      = (Ok (non_empty (filter (λ u, docs w !! u = Some false) (served_page skip limit z))), w')
    ∧ most_followed w' = without (dead w (served_page skip limit z)) z.
Proof.
  intros Hr Hz Hne. rewrite live_page_calm by done. eexists. split; [done|].
  change ((window skip limit z).*1) with (served_page skip limit z). unfold without.
  destruct (dead w (served_page skip limit z)) as [|u gone].
  - rewrite map_filter_id by (intros; apply not_elem_of_nil). by rewrite decide_False.
  - unfold zrem. by rewrite Hz.
Qed.

(** When the calls are answered, the most followed users are the page asked for of the
    ranking, or of every user the graph ranks when there is none yet, less those without a
    live document, who are taken out of the ranking. *)
Lemma most_followed_serves_the_ranking fuel skip limit w :
  calm w → (size (profiles (graph w)) < fuel)%nat → profiles (graph w) !! "" = None → most_followed w ≠ Some ∅ →
  let z := default (followers_of (graph w)) (most_followed w) in
  let page := served_page skip limit z in
  ∃ w', get_most_followed fuel skip limit w = (Some (Ok (non_empty (filter (λ u, docs w !! u = Some false) page))), w')
    ∧ most_followed w' = without (dead w page) z.
Proof.
  intros Hcalm Hfuel Hids Hne z page. pose proof Hcalm as [Hg Hr]. unfold get_most_followed, bind, ret.
  rewrite read_calm by done. destruct (most_followed w) as [z0|] eqn:Hz; simpl in z.
  - destruct (serve_calm skip limit w z0 Hr Hz ltac:(by intros ->)) as (w' & Hs & Hw'). rewrite Hs. eauto.
  - rewrite read_calm, Hz, refresh_calm by (done || congruence).
    destruct (decide (followers_of (graph w) = ∅)) as [He|He]; unfold ebind;
      rewrite read_calm by (simpl; congruence || done); simpl.
    + exists (set_most_followed None w). split; [|unfold without; simpl; rewrite decide_True; [done|]].
      * do 3 f_equal. unfold page, served_page, z. rewrite He. unfold rev_range. rewrite map_to_list_empty.
        change (merge_sort rank_ge []) with (@nil (string * Z)). by rewrite filter_nil, drop_nil, take_nil.
      * unfold z. rewrite He. apply map_filter_empty.
    + destruct (serve_calm skip limit (set_most_followed (Some (followers_of (graph w))) w) _ Hr eq_refl He) as (w' & Hs & Hw').
      rewrite Hs. eauto.
Qed.

(** ** Requests *)

Definition answers {A} (p : prog World (option (result A Model.ModelError))) (w : World) : Prop :=
  ∃ a w', p w = (Some (Ok a), w').

Lemma done_answers {A} (p : M A) w : (∃ a w', p w = (Ok a, w')) → answers (done p) w.
Proof. intros (a & w' & Hp). exists a, w'. unfold done, bind, ret. by rewrite Hp. Qed.

Lemma recommended_calm user_id limit w : calm w → ∃ a w', get_recommended_ids user_id limit w = (Ok a, w').
Proof.
  intros [Hg Hr]. unfold get_recommended_ids, try_get_cached_recommended, mget, read_redis, ebind. rewrite redis_calm by done.
  case_bool_decide.
  - rewrite !redis_calm by done. unfold ret. rewrite !redis_calm by done. unfold bind.
    destruct (split_live _ _) as [live gone]. destruct (remove_from_cached_recommended _ _ _). by eexists _, _.
  - unfold ret, query_graph. rewrite Hg. destruct (recommend_users _ _ _); [by eexists _, _|].
    unfold cache_recommended_users. rewrite redis_calm by done. by eexists _, _.
Qed.

(** The other components answer. *)
Definition others_answer (w : World) : Prop :=
  (∀ s u sk li, ∃ a w', follow_list s u sk li w = (Ok a, w'))
  ∧ (∀ u r sk li t p, ∃ a w', get_influencers u r sk li t p w = (Ok a, w'))
  ∧ (∀ i ls, ∃ a w', get_starter_pack i ls w = (Ok a, w')).

Lemma influencers_answer (p : M (option (list (string * Z)))) w :
  (∃ a w', p w = (Ok a, w')) →
  ∃ a w', (let? found := p in ret (Ok (fmap (λ l : list (string * Z), fst <$> l) found))) w = (Ok a, w').
Proof. intros (a & w' & Hp). unfold ebind. rewrite Hp. by eexists _, _. Qed.

Lemma replies_calm p a w : redis_trips w = [] → ∃ r w', get_post_replies_ids (Some p) (Some a) w = (Ok r, w').
Proof. intros Hr. unfold get_post_replies_ids, read_redis, ebind. rewrite redis_calm by done. by eexists _, _. Qed.

(** Somebody's replies asked for with a user: the route then checks neither id. *)
Definition unchecked (q : UserStreamQuery) : Prop :=
  default Followers (q_source q) = PostReplies ∧ is_Some (q_user_id q) ∧ (q_author_id q = None ∨ q_post_id q = None).

(** C33: A request that passed the checks of the route lacks nothing its source needs: with
    every component answering it is answered, never refused for a missing parameter, but
    for one case: the repliers of a post asked for with a [user_id], whose [author_id] and
    [post_id] the route does not check. *)
Theorem validated_requests_are_answered fuel q input viewer depth w :
  build_user_stream_input q = Ok (input, viewer, depth) →
  calm w → others_answer w →
  (size (profiles (graph w)) < fuel)%nat → profiles (graph w) !! "" = None → most_followed w ≠ Some ∅ →
  if decide (unchecked q) then ∃ what, get_user_list_from_source fuel input w = (Some (Err (missing_id what)), w)
  else answers (get_user_list_from_source fuel input) w.
Proof.
  intros Hq Hcalm (Hfollow & Hinfl & Hpack) Hfuel Hids Hne. unfold build_user_stream_input in Hq.
  destruct (validate_tags _ _ _) as [ts|] eqn:Htags; [|done]. case_decide; [done|].
  destruct (if decide (q_user_id q = None) then _ else _) as [[]|] eqn:Huser; [|done]. injection Hq as <- <- <-.
  unfold get_user_list_from_source, unchecked. simpl.
  destruct (default Followers (q_source q)) eqn:Hsource; simpl in *;
    try (rewrite decide_False by by intros []); try (destruct (q_user_id q) as [u|]; [|done]).
  - apply done_answers, Hfollow.
  - apply done_answers, Hfollow.
  - apply done_answers, Hfollow.
  - destruct (most_followed_serves_the_ranking fuel (Some (Z.to_nat (skip_value (q_pagination q))))
      (Some (Z.to_nat (limit_value 5 (q_pagination q)))) w Hcalm Hfuel Hids Hne) as (w' & Hm & _). by eexists _, _.
  - apply done_answers, influencers_answer, Hinfl.
  - by apply done_answers, recommended_calm.
  - destruct (decide (PostReplies = PostReplies ∧ is_Some (q_user_id q) ∧ (q_author_id q = None ∨ q_post_id q = None))) as [Hu|Hu].
    + destruct Hu as (_ & _ & Hmissing). destruct (q_post_id q), (q_author_id q); try by destruct Hmissing.
      all: by eexists.
    + assert (is_Some (q_author_id q) ∧ is_Some (q_post_id q)) as [[a Ha] [p Hp]].
      { destruct (q_author_id q), (q_post_id q), (q_user_id q); simpl in *; split; eauto; try done; destruct Hu; eauto. }
      rewrite Ha, Hp. apply done_answers, replies_calm, Hcalm.
  - clear Huser. destruct (q_tags q); [|done]. case_decide; [done|]. destruct (validate_interest_tags _); [|done].
    injection Htags as <-. apply done_answers, Hpack.
Qed.
End Streams.

(** ** An example *)

Module Example_streams.

#[refine] Definition choices : Choices := {|
  random_members n s := take n (elements s);
  row_order l := l;
  walk := elements;
|}.
Proof.
  - intros n s. split_and!.
    + eapply sublist_NoDup; [apply (NoDup_elements s)|apply sublist_take].
    + intros x Hx%(subseteq_take _ _). by rewrite elem_of_elements in Hx.
    + by rewrite length_take.
  - done.
  - done.
Defined.
#[local] Existing Instance choices.

Definition others : OtherSources string := {|
  follow_list _ u _ _ := ret (Ok (Some [u]));
  get_influencers _ _ _ _ _ _ := ret (Ok (Some [("eve", 3%Z)]));
  get_starter_pack _ ls := ret (Ok (Some ls));
  get_user_views us _ _ := ret (Ok ((λ u, if decide (u = "gone") then None else Some u) <$> us));
  search_by_name _ _ _ := ret (Ok None);
|}.
#[local] Existing Instance others.

(** ann follows bob, who follows cat and dan; dan is followed by ann too. *)
Definition small : StreamGraph :=
  {| social := {| follow_graph := {| Follows.users := {["ann"; "bob"; "cat"; "dan"]};
                                     Follows.follows := {[("ann", "bob") := 0; ("bob", "cat") := 0; ("bob", "dan") := 0; ("ann", "dan") := 0]}%Z |};
                  authored := {["cat" := 7; "dan" := 9; "bob" := 2]}%nat |};
     profiles := {["ann" := ("Ann", false); "bob" := ("Bob", false); "cat" := ("Cat", false); "dan" := ("Dan", true)]} |}.

Definition world (cached : gmap string (gset string)) (ranking : option (gmap string Z)) (gts : list GraphTrip) : World :=
  {| graph := small; docs := {["ann" := false; "bob" := false; "cat" := false; "dan" := true]}; recommended := cached;
     most_followed := ranking;
     reply_sets := {[("ann", "p1") := {["bob:r1" := 5%Z; "cat:r2" := 7%Z; "bob:r3" := 9%Z]}]};
     graph_trips := gts; redis_trips := [] |}.

Lemma recommendations_are_eligible_witness :
  fst (get_recommended_ids "ann" (Some 3%nat) (world ∅ None [])) = Ok (Some ["cat"])
  ∧ well_recommended [] "ann" (Some 3%nat) (world ∅ None []) (Some ["cat"]).
Proof.
  assert (fst (get_recommended_ids "ann" (Some 3%nat) (world ∅ None [])) = Ok (Some ["cat"])) as Hok by by vm_compute.
  split; [exact Hok|].
  assert (kept [] (world ∅ None [])) as Hk by by (intros u s; simpl; rewrite lookup_empty).
  exact (proj2 (recommendations_are_eligible [] "ann" (Some 3%nat) (world ∅ None []) _ _ Hk (surjective_pairing _)) _ Hok).
Defined.

(** The second answer is from the cache, without the graph; who was deleted since is left out and evicted. *)
Example served_from_the_cache :
  (let '(r, w) := get_recommended_ids "ann" None (world {["ann" := {["cat"; "dan"]}]} None [GraphRefused Graph.QueryTimeout]) in
   (r, elements <$> recommended w !! "ann")) = (Ok (Some ["cat"]), Some ["cat"]).
Proof. by vm_compute. Qed.

(** The first answer without a limit is everybody eligible, up to 30; the next are 5. *)
Definition crowd : list string := (λ i : nat, "u" +:+ pretty i) <$> seq 0 40.
Definition star : StreamGraph :=
  {| social := {| follow_graph := {| Follows.users := {["me"]}; Follows.follows := <[("me", "hub") := 0%Z]> (list_to_map ((λ u, (("hub", u), 0%Z)) <$> crowd)) |};
                  authored := list_to_map ((λ u, (u, 5%nat)) <$> crowd) |};
     profiles := ∅ |}.

Example unlimited_answers_differ :
  (let w := {| graph := star; docs := list_to_map ((λ u, (u, false)) <$> crowd); recommended := ∅; most_followed := None;
               reply_sets := ∅; graph_trips := []; redis_trips := [] |} in
   let size_of (r : result (option (list string)) Model.ModelError) := match r with Ok (Some l) => length l | _ => 0%nat end in
   let '(r1, w) := get_recommended_ids "me" None w in
   let '(r2, _) := get_recommended_ids "me" None w in
   (size_of r1, size_of r2)) = (30, 5)%nat.
Proof. by vm_compute. Qed.

Example a_rebuilt_ranking :
  (let '(r, w) := get_most_followed 9 None None (world ∅ None []) in (r, map_to_list <$> most_followed w))
  = (Some (Ok (Some ["cat"; "bob"; "ann"])), Some [("cat", 1%Z); ("ann", 0%Z); ("bob", 1%Z)])
  ∧ fst (get_post_replies_ids (Some "p1") (Some "ann") (world ∅ None [])) = Ok (Some ["cat"; "bob"]).
Proof. vm_compute. done. Qed.

Definition query (s : UserStreamSource) (u a p : option string) : UserStreamQuery :=
  {| q_user_id := u; q_viewer_id := None; q_pagination := {| skip := None; limit := None |}; q_source := Some s; q_reach := None;
     q_author_id := a; q_post_id := p; q_depth := None; q_timeframe := None; q_preview := None; q_tags := None |}.

Definition input_of (q : UserStreamQuery) : option UserStreamInput :=
  match build_user_stream_input q with Ok (input, _, _) => Some input | Err _ => None end.

(** Without a user, the route asks for the author; with one, it does not, and the stream fails. *)
Example an_unchecked_request :
  input_of (query PostReplies None None (Some "p1")) = None
  ∧ (input ← input_of (query PostReplies (Some "ann") None (Some "p1"));
     fst (get_user_list_from_source 9 input (world ∅ None []))) = Some (Err (missing_id "Author")).
Proof. vm_compute. done. Qed.

Lemma validated_requests_are_answered_witness :
  ∃ input, build_user_stream_input (query MostFollowed None None None) = Ok (input, None, None)
    ∧ answers (get_user_list_from_source 9 input) (world ∅ None []).
Proof.
  eexists. split; [reflexivity|].
  assert (¬ unchecked (query MostFollowed None None None)) as Hchecked by by intros [? _].
  assert (others_answer (world ∅ None [])) as Ho by (split_and!; intros; by eexists _, _).
  pose proof (validated_requests_are_answered 9 (query MostFollowed None None None) _ _ _ (world ∅ None []) eq_refl
    (conj eq_refl eq_refl) Ho) as Hans.
  rewrite (decide_False (P := unchecked _)) in Hans by exact Hchecked. apply Hans; [|done|done].
  apply Nat.ltb_lt. by vm_compute.
Defined.

End Example_streams.
